(* ===== verification/_CoqProject ===== *)
-Q . S2P
Prelude.v
Mux.v
Records.v
External.v
Carrier.v
Transfer.v
Demux.v
Backpressure.v
Interleaved.v
Keepalive.v
Probe.v
Lifecycle.v
Pump.v
HalfClose.v
RustStr.v
NetAddr.v
Opts.v
Typing.v
ConfigText.v
Handshake.v
Client.v
Manager.v
Server.v
Session.v
Connection.v
Deadlines.v
Main.v
Usage.v
ReplayCodec.v
MuxTests.v
OptsTests.v
HandshakeTests.v
CarrierTests.v
