(* ===== verification/Prelude.v ===== *)
(** * qeli-ss-plugin: a verification development

    The plugin carries the connections of a shadowsocks client to its server
    through one long-lived tunnel. A connection accepted by the client side is a
    stream; its bytes travel as frames, each frame in one encrypted record of a
    connection dressed as TLS, and the server side forwards every stream to its
    destination. This library translates the Rust sources into Rocq definitions
    and proves what they promise. Definitions are named after the functions they
    translate and are executable; the awaits of the asynchronous code are
    arguments (lists of what each of them returned) and shared state is passed
    explicitly.

    ** Files

    - Prelude: results and the question-mark operator, machine integers, byte
      strings, chunking, transition systems, tactics.
    - Mux (src/src/mux.rs): frames, their encoder and decoder.
    - Records (RecordBuf of carrier.rs, RecordReader of handshake.rs): cutting
      the byte stream into records. The specification is [split_record] and
      [parse_records]; both extractors are instances of one interface,
      [RecordSource], whose laws say that they implement it.
    - External: the record codec of the qeli core and the tokio runtime as
      classes, the codec's documented laws as a class of their own, and small
      concrete instances of both.
    - Carrier (carrier.rs): the tunnel's state ([Tunnel] holds that of Tunnel,
      CarrierHandle and StreamRegistry), their operations, the death protocol,
      writer_loop and reader_loop. A loop runs over the wake-ups of its select.
    - Transfer: the two loops put together over a wire that may lose genuine
      records and inject rejected ones.
    - Demux: the streams that share a tunnel. [demux] is the specification of the
      reader's dispatch, [abs] reads it off a tunnel, [TokioLaws] of External says
      what tokio's channels promise.
    - Backpressure (carrier.rs): two connected tunnels whose loops run between
      their awaits; the bounded frame and stream channels, the senders that wait
      and the wires are part of the state. Interleaved: its readers implement
      the specification of Demux, whatever runs while they wait; what a wait met
      and which replies were queued is read off the run.
    - Keepalive (keepalive_loop): the loop, its timing in milliseconds against an
      arbitrary PONG counter with PINGs that wait for room, and a reader on the
      same clock.
    - Probe: a PING from the keepalive's tick through both tunnels to the PONG
      that is counted.
    - Lifecycle: the loops' death paths ([loop_step], [log_step], [kill_step]),
      the keepalive's silent exits, external kills and the client's stream
      openings ([accept_step]) as tasks whose atomic steps interleave.
    - Pump (pump_stream): the two directions of one stream and their join, and
      the end-to-end theorem.
    - HalfClose (WriteFin, pump_stream): the descriptor table, the captured
      handle, and the two directions as interleaving steps among the rest of the
      process.
    - RustStr, NetAddr: what the sources use of Rust's strings (Unicode scalar
      values, UTF-8, trimming, splitting, integer parsing) and socket addresses
      (the parser of core::net). They model the standard library.
    - Opts (opts.rs): plugin options, the SIP003 environment, the standalone
      file once decoded, address parsing, hex.
    - Typing: what a value of each Rust type of the configuration may hold.
    - ConfigText (StandaloneFile of opts.rs): from the members of a JSON object
      to the standalone file. [denotes] says what an object means, the decoder
      meets it; which value a text denotes is the class [SerdeJson] with laws,
      and a reader of JSON text is its instance for the tests.
    - Handshake (handshake.rs): both sides as programs over write, read a
      record, panic; executed on the socket's reads with the reader of Records.
      The cryptography of the qeli core is the class [QeliCore] with [QeliLaws].
    - Client (client.rs): the tunnel manager and accept_connection, one
      connection at a time.
    - Manager (client.rs, run): the accept loop, its connections as tasks that
      interleave between their awaits, the manager's mutex, the bounded frame
      channel an OPEN waits for, and the tunnels' loops acting between any two
      steps.
    - Server (server.rs): the identity and configuration of run, handle_conn,
      on_open, and serve as a step relation with the connection tasks and the
      shutdown.
    - Session: a client's dial and a server's connection with one password, and
      the streams they carry afterwards.
    - Connection: one proxied connection from the local socket to the
      destination and back, through Client, Handshake, Pump, Carrier, Demux,
      Server and Pump.
    - Deadlines (handshake.rs, client.rs, server.rs): sockets whose events have
      times, and the timeouts of the handshakes, of the dial around one, and of
      the upstream connect.
    - Main (main.rs): the command line, and the start of either side. Usage: what
      is printed.
    - ReplayCodec: a record codec with keys, counters and a replay check that
      satisfies the codec's laws.
    - MuxTests, OptsTests, HandshakeTests, CarrierTests: the unit tests of the
      sources as definitions that evaluate to true on the model.

    ** How they interact

    Main parses the configuration with Opts and starts Client or Server. Each
    runs a handshake (Handshake over Records) and then spawns a tunnel
    (Carrier); the tunnel's loops encode and decode frames (Mux), encrypt them
    (External) and cut records (Records). Streams are opened by Client, registered
    by Carrier's reader on the server, and pumped by Pump on both sides. Manager
    runs Client's connections concurrently, Demux says what Carrier's reader does
    with the frames of many streams, Session composes Client, Server, Handshake,
    Carrier and Demux, and Connection adds Pump at both ends. Backpressure cuts
    the loops of Carrier into steps at their awaits, Deadlines gives the programs
    of Handshake a clock.

    ** What the theorems show

    - Data: the frame codec is exact in both directions and every malformed
      buffer gets its error; record extraction depends only on the bytes, never
      on how the socket splits them; what one application writes the other
      reads, byte for byte and ended by one FIN, through pump, writer, codec,
      wire, reader and pump; a wire with losses and injections still delivers
      every frame that got through, in order; the tunnel survives bad records
      exactly as long as no eight of them are consecutive.
    - Streams: the reader implements the demultiplexer of the specification on
      any frames and any behaviour of the channels, so what a stream receives is
      a function of its own frames and its own channel, and every stream of an
      arbitrary interleaving arrives whole; the FIN of a closed stream shuts down
      the local socket's own write side and nothing else, and replies keep
      draining; a client and a server with one
      password end their handshakes with two tunnels and codecs of which all of
      this holds in both directions.
    - A connection: from the password on, what a local application writes reaches
      the destination whole, in order and ended by one FIN, among any other
      streams, and the answers come back.
    - Queues: at every point between two awaits the bounded channels keep their
      bounds and no frame is lost, duplicated or reordered while its sender
      lives; what waits when nothing else can go on, waits for a timer; a dead
      end's loops end, its waiting senders are told, and the peer dies too.
    - Time: a handshake and a dial end by their deadlines, with the answer of the
      untimed model on what had happened by then ([dial_event_of] says what that
      is for a dial).
    - Concurrent connections: one live tunnel at a time and one dial, no stream
      id given twice, every connection answered after at most 14 steps of its
      task; a task waits for the mutex or for room in a full frame channel only,
      and nothing else keeps the tasks from running to their answers.
    - Authentication: on any bytes, a server handshake that succeeds has decrypted
      the configured password under the key of the exchange it took part in
      ([server_exchanged]), and a client handshake that succeeds has verified the
      static key over the transcript of the exchange's records ([client_exchanged])
      and against the pin; honest sides with one password always succeed and end
      with matching codecs; no handshake panics or hangs when the options were
      accepted.
    - Life and death of a tunnel: its state invariant, the operations on every
      branch, death recorded once and final under every interleaving, no stream
      left registered on a dead tunnel, the keepalive's verdict and detection
      bound (which grows with the time a PING waits for room), a probe of a
      healthy link answered, the client's reuse, dialling and one retry of
      whatever failed, the server's shutdown, which kills the live list of the
      moment it began.
    - Configuration: option strings and their escapes, the last-wins reading of
      options, the meaning of a configuration text whatever the order of its
      members, the standalone file as the same options but for the whitespace
      that plugin_opts trims, addresses, types kept whatever the text, and what
      is finally started; the keys --genkey prints belong together, for a hex
      parser that reads 64 digits as the bytes they spell.
    - Behaviour the comments do not promise, as theorems or lemmas: one bad
      record, even a malformed frame, does not kill the tunnel; the keepalive
      kills a tunnel whose reader waits for a stalled stream; the readers of two
      loaded ends can wait for each other's writers until a timer kills a healthy
      tunnel; connections that wait for an unreachable server are answered one
      dial timeout after another; the bound
      ping + 2 s fails for ping = 1; a death may be logged twice, a kill not at
      all; a pump outlives the close of its stream; a shutdown can miss a tunnel
      that is being started; a record that arrives together with the authentication response is dropped; an OPEN from
      the server replaces a client stream; -client is not a flag.

    ** Fuel and bounds

    [chunks] has one unit of fuel per byte, [reader_dispatch] one more than the
    buffered bytes (a record has at least five), UTF-8 decoding one per byte,
    decimal formatting twenty digits (64-bit integers have at most twenty); the
    lemmas on each show that the fuel is never exhausted. Loops over events are
    structural in the event list. A connection's task has two attempts of at
    most seven steps, and so a rank of at most 14 ([rank]). Stream ids are 32-bit and
    wrap: [few_connections] asks for less than 2^31 accepted connections, two ids
    each, where they must differ. The frames of a probe must not carry the 64-bit
    PONG counter past its end. A dead end has at most
    12 + 3 * RECORDS_PER_READ loop steps left ([loops_rank]). The wires of Backpressure hold
    any positive number of records.

    ** Not modelled

    Logging and the text of error messages, socket options, and the code outside
    the repository (qeli core, tokio, the JSON parser), which enters through
    classes and parameters. A configuration given as a JSON array is left to
    serde. The select of serve reaps finished tasks without effect and has no
    step for it. Manager keeps the frame channels an OPEN may wait on beside the
    tunnels of Carrier; the frames of the others pass through them as steps of
    their own ([frames_step]). Manager and Server take an operation of a tunnel as one step,
    deliver included, which releases the registry's mutex while it waits (the lemma
    deliver_atomic of Carrier says why that is enough for the registry);
    Lifecycle has the finer steps of the death paths and the openings, and
    Backpressure those of the waits. Backpressure has tokio's bounded channel as
    documented (so many values, waiting senders served in turn, failing when the
    receiver is dropped), records of one frame that all arrive, and wires that
    hold a number of records; its callbacks and pumps may do anything at any
    time. *)

From stdpp Require Export base tactics list numbers gmap.
From Stdlib Require Export ZArith Lia.

#[export] Set Default Proof Using "Type".

Declare Scope rust_scope.
Delimit Scope rust_scope with rust.
Open Scope Z_scope.
Open Scope rust_scope.

(** ** Results: the Rust [Result] type and its [?] operator *)

Inductive result (E A : Type) : Type :=
| Ok (a : A)
| Err (e : E).
Arguments Ok {E A} a.
Arguments Err {E A} e.

#[export] Instance result_eq_dec {E A : Type} `{EqDecision E} `{EqDecision A} : EqDecision (result E A).
Proof. solve_decision. Defined.

Definition result_bind {E A B : Type} (m : result E A) (k : A -> result E B) : result E B :=
  match m with
  | Ok a => k a
  | Err e => Err e
  end.

Notation "'let?' x := m 'in' k" := (result_bind m (fun x => k))
  (at level 10, x pattern, m at level 100, k at level 200) : rust_scope.

(** [Option::ok_or] / [ok_or_else]. *)
Definition ok_or {E A : Type} (o : option A) (e : E) : result E A :=
  match o with
  | Some a => Ok a
  | None => Err e
  end.

Definition is_ok {E A : Type} (m : result E A) : bool :=
  match m with
  | Ok _ => true
  | Err _ => false
  end.

(** ** Machine integers and byte strings *)

(** [usize] lengths are integers. *)
Definition len {A : Type} (l : list A) : Z := Z.of_nat (length l).

(** The values of an unsigned [w]-bit Rust integer. *)
Definition is_uint (w z : Z) : Prop := 0 <= z < 2 ^ w.

(** Wrap-around of an unsigned [w]-bit integer ([as uN], [fetch_add]). *)
Definition wrap (w z : Z) : Z := z mod 2 ^ w.

Definition bytes_ok (l : list Z) : Prop := Forall (is_uint 8) l.

(** [uN::to_be_bytes] on [n] bytes. *)
Fixpoint be_encode (n : nat) (z : Z) : list Z :=
  match n with
  | O => []
  | S k => be_encode k (z / 256) ++ [z mod 256]
  end.

(** [uN::from_be_bytes]. *)
Definition be_decode (l : list Z) : Z := fold_left (fun acc b => acc * 256 + b) l 0.

(** [slice::chunks(n)]: consecutive blocks of [n] elements, the last one
    possibly shorter. [fuel] bounds the number of blocks. *)
Fixpoint chunks_fuel {A : Type} (fuel n : nat) (l : list A) : list (list A) :=
  match fuel, l with
  | O, _ | _, [] => []
  | S k, _ => take n l :: chunks_fuel k n (drop n l)
  end.

Definition chunks {A : Type} (n : nat) (l : list A) : list (list A) :=
  chunks_fuel (length l) n l.

(** ** Transition systems *)

Inductive star {S : Type} (R : S -> S -> Prop) : S -> S -> Prop :=
| star_refl s : star R s s
| star_step s1 s2 s3 : R s1 s2 -> star R s2 s3 -> star R s1 s3.

(** ** Tactics *)

(** Split conjunctive hypotheses and propagate constructor equations. *)
Ltac inv_ok :=
  repeat match goal with
  | H : Ok _ = Ok _ |- _ => injection H as ?; try subst
  | H : Err _ = Err _ |- _ => injection H as ?; try subst
  | H : Some _ = Some _ |- _ => injection H as ?; try subst
  | H : (_, _) = (_, _) |- _ => injection H as ? ?; try subst
  | H : Ok _ = Err _ |- _ => discriminate H
  | H : Err _ = Ok _ |- _ => discriminate H
  | H : Some _ = None |- _ => discriminate H
  | H : None = Some _ |- _ => discriminate H
  end.

(** Case analysis on the scrutinee of a bind or a match in a hypothesis. *)
Ltac cases_in H :=
  repeat match type of H with
  | context [match ?x with _ => _ end] =>
      lazymatch x with
      | context [match _ with _ => _ end] => fail
      | _ => let E := fresh "E" in destruct x eqn:E; try discriminate H
      end
  end.

Ltac uint := unfold is_uint, wrap in *; try lia.

(** ** Lemmas on results *)

Lemma result_bind_ok {E A B} (m : result E A) (k : A -> result E B) b :
  result_bind m k = Ok b <-> exists a, m = Ok a /\ k a = Ok b.
Proof.
  destruct m as [a | e]; simpl; split; [eauto | | discriminate |].
  - intros (a' & Ha & Hk). injection Ha as ->. exact Hk.
  - intros (a' & Ha & _). discriminate Ha.
Qed.

Lemma ok_or_ok {E A} (o : option A) (e : E) a : ok_or o e = Ok a <-> o = Some a.
Proof. destruct o; simpl; naive_solver. Qed.

(** ** Lemmas on lengths and byte strings *)

Lemma len_nonneg {A} (l : list A) : 0 <= len l.
Proof. unfold len. lia. Qed.

Lemma len_app {A} (l k : list A) : len (l ++ k) = len l + len k.
Proof. unfold len. rewrite length_app. lia. Qed.

Lemma len_cons {A} (x : A) (l : list A) : len (x :: l) = 1 + len l.
Proof. unfold len. simpl length. lia. Qed.

Lemma len_nil {A} : len (@nil A) = 0.
Proof. reflexivity. Qed.

Lemma len_zero {A} (l : list A) : len l = 0 -> l = [].
Proof. destruct l; [done | rewrite len_cons; pose proof (len_nonneg l); lia]. Qed.

Lemma bytes_ok_app l k : bytes_ok (l ++ k) <-> bytes_ok l /\ bytes_ok k.
Proof. apply Forall_app. Qed.

Lemma bytes_ok_cons b l : bytes_ok (b :: l) <-> 0 <= b < 256 /\ bytes_ok l.
Proof. unfold bytes_ok. rewrite Forall_cons. reflexivity. Qed.

Lemma bytes_ok_snoc l b : bytes_ok (l ++ [b]) <-> bytes_ok l /\ 0 <= b < 256.
Proof. rewrite bytes_ok_app, bytes_ok_cons. unfold bytes_ok. rewrite Forall_nil. tauto. Qed.

Lemma length_be_encode n z : length (be_encode n z) = n.
Proof. revert z. induction n; intros; simpl; [done |]. rewrite length_app, IHn. simpl. lia. Qed.

Lemma len_be_encode n z : len (be_encode n z) = Z.of_nat n.
Proof. unfold len. by rewrite length_be_encode. Qed.

Lemma be_encode_ok n z : bytes_ok (be_encode n z).
Proof.
  revert z. induction n; intros z; simpl; [constructor |].
  apply bytes_ok_snoc. split; [apply IHn |]. apply Z.mod_pos_bound; lia.
Qed.

Lemma be_decode_snoc l b : be_decode (l ++ [b]) = be_decode l * 256 + b.
Proof. unfold be_decode. by rewrite fold_left_app. Qed.

Lemma be_decode_encode n z : 0 <= z < 256 ^ Z.of_nat n -> be_decode (be_encode n z) = z.
Proof.
  revert z. induction n as [| n IH]; intros z Hz; simpl.
  - change (256 ^ Z.of_nat 0) with 1 in Hz. unfold be_decode. simpl. lia.
  - rewrite be_decode_snoc, IH.
    + pose proof (Z.div_mod z 256). lia.
    + rewrite Nat2Z.inj_succ, Z.pow_succ_r in Hz by lia.
      split; [apply Z.div_pos; lia | apply Z.div_lt_upper_bound; lia].
Qed.

Lemma be_decode_bound l : bytes_ok l -> 0 <= be_decode l < 256 ^ len l.
Proof.
  induction l as [| b l IH] using rev_ind; intros Hl.
  - unfold be_decode, len; simpl. lia.
  - apply bytes_ok_snoc in Hl as [Hl Hb].
    rewrite be_decode_snoc. specialize (IH Hl).
    assert (len (l ++ [b]) = Z.succ (len l)) as ->
      by (unfold len; rewrite length_app; simpl; lia).
    rewrite Z.pow_succ_r by apply len_nonneg. lia.
Qed.

Lemma be_encode_decode l : bytes_ok l -> be_encode (length l) (be_decode l) = l.
Proof.
  induction l as [| b l IH] using rev_ind; intros Hl; [done |].
  apply bytes_ok_snoc in Hl as [Hl Hb].
  rewrite be_decode_snoc, length_app, Nat.add_comm. simpl.
  rewrite Z.div_add_l, Z.div_small, Z.add_0_r, IH by (lia || done).
  rewrite Z.add_comm, Z.mod_add, Z.mod_small by lia. done.
Qed.

Lemma wrap_small w z : is_uint w z -> wrap w z = z.
Proof. intros H. apply Z.mod_small. exact H. Qed.

Lemma wrap_range w z : 0 <= w -> is_uint w (wrap w z).
Proof. intros. apply Z.mod_pos_bound. apply Z.pow_pos_nonneg; lia. Qed.

(** ** Lemmas on [chunks] *)

Lemma chunks_fuel_concat {A} fuel n (l : list A) :
  (0 < n)%nat -> (length l <= fuel)%nat -> concat (chunks_fuel fuel n l) = l.
Proof.
  intros Hn. revert l. induction fuel as [| k IH]; intros l Hl.
  - destruct l; [done | simpl in Hl; lia].
  - destruct l as [| a l]; [done |]. cbn [chunks_fuel concat].
    rewrite IH; [apply take_drop |]. rewrite length_drop. simpl in *. lia.
Qed.

Lemma chunks_concat {A} n (l : list A) : (0 < n)%nat -> concat (chunks n l) = l.
Proof. intros. by apply chunks_fuel_concat. Qed.

Lemma chunks_fuel_bound {A} fuel n (l : list A) :
  (0 < n)%nat -> Forall (fun c => 0 < length c <= n)%nat (chunks_fuel fuel n l).
Proof.
  intros Hn. revert l. induction fuel as [| k IH]; intros l; [constructor |].
  destruct l as [| a l]; [constructor |]. cbn [chunks_fuel].
  constructor; [| apply IH]. rewrite length_take. simpl. lia.
Qed.

Lemma chunks_bound {A} n (l : list A) :
  (0 < n)%nat -> Forall (fun c => 0 < length c <= n)%nat (chunks n l).
Proof. apply chunks_fuel_bound. Qed.

(** A non-empty list of at most [n] elements is one chunk. *)
Lemma chunks_single {A} n (l : list A) :
  l <> [] -> (length l <= n)%nat -> chunks n l = [l].
Proof.
  intros Hl Hn. unfold chunks. destruct l as [| a l]; [done |].
  cbn [length chunks_fuel]. rewrite take_ge, drop_ge by (simpl in *; lia).
  by destruct (length l).
Qed.

(** ** Lemmas on transition systems *)

Lemma star_one {S} (R : S -> S -> Prop) s1 s2 : R s1 s2 -> star R s1 s2.
Proof. eauto using star. Qed.

Lemma star_trans {S} (R : S -> S -> Prop) s1 s2 s3 :
  star R s1 s2 -> star R s2 s3 -> star R s1 s3.
Proof. induction 1; eauto using star. Qed.

(** Rule induction in the form used for safety: what holds initially and is
    preserved by every step holds in every reachable state. *)
Lemma star_invariant {S} (R : S -> S -> Prop) (P : S -> Prop) :
  (forall s1 s2, R s1 s2 -> P s1 -> P s2) ->
  forall s1 s2, star R s1 s2 -> P s1 -> P s2.
Proof. intros Hstep. induction 1; eauto. Qed.

(** ** Lemmas on lists of tasks *)

(** Looking a task up after task [i] moved. *)
Lemma lookup_moved {A} (ts : list A) i p p' j q :
  ts !! i = Some p -> <[i := p']> ts !! j = Some q -> (j = i /\ q = p') \/ (j <> i /\ ts !! j = Some q).
Proof.
  intros Hi. destruct (decide (i = j)) as [<- | Hne].
  - rewrite list_lookup_insert_eq by (by apply lookup_lt_Some in Hi). intros [= ->]. by left.
  - rewrite list_lookup_insert_ne by done. right. split; [by intros -> | done].
Qed.

(** A sum over the tasks after one of them moved. *)
Lemma sum_moved {A} (f : A -> nat) (ts : list A) i p p' :
  ts !! i = Some p ->
  (sum_list (f <$> <[i := p']> ts) + f p = sum_list (f <$> ts) + f p')%nat.
Proof.
  revert i. induction ts as [| q ts IH]; intros [| i] Hi; simplify_eq/=; [lia |].
  specialize (IH i Hi). lia.
Qed.

Lemma sum_snoc {A} (f : A -> nat) (ts : list A) p :
  sum_list (f <$> (ts ++ [p])) = (sum_list (f <$> ts) + f p)%nat.
Proof. rewrite fmap_app. induction ts as [| q ts IH]; cbn in *; unfold id in *; lia. Qed.

Lemma sum_bound {A} (f : A -> nat) n (ts : list A) :
  (forall x, f x <= n)%nat -> (sum_list (f <$> ts) <= n * length ts)%nat.
Proof.
  intros Hf. induction ts as [| x ts IH]; [cbn; lia |]. specialize (Hf x).
  change (sum_list (f <$> x :: ts)) with (f x + sum_list (f <$> ts))%nat. simpl length. lia.
Qed.

Create HintDb rust.
#[export] Hint Resolve len_nonneg be_encode_ok star_one : rust.
#[export] Hint Constructors star : rust.
Create Rewrite HintDb rust.
#[export] Hint Rewrite @len_app @len_cons @len_nil @len_be_encode : rust.
