(* ===== verification/Mux.v ===== *)
(** * Mux: stream multiplexer framing (src/mux.rs)

    The frame type, its encoder and decoder, and the error of every malformed
    input. Bytes are integers below 256; a [u32] stream id and a [u16] payload
    length are integers with the wrap-around of the casts written out. The
    theorems: the decoder accepts exactly the encodings of well-formed frames,
    which error each malformed buffer gets, and what the truncating
    [payload.len() as u16] does to an oversized payload. *)

From S2P Require Import Prelude.

(** ** Constants *)

Definition FRAME_HEADER : Z := 7.
Definition MAX_DATA : Z := 16384.
Definition TYPE_OPEN : Z := 1.
Definition TYPE_DATA : Z := 2.
Definition TYPE_CLOSE : Z := 3.
Definition TYPE_PING : Z := 4.
Definition TYPE_PONG : Z := 5.
Definition KEEPALIVE_LEN : Z := 8.

(** ** Data *)

Inductive Frame : Type :=
| Open (stream : Z)
| Data (stream : Z) (payload : list Z)
| Close (stream : Z)
| Ping (nonce : list Z)
| Pong (nonce : list Z).

Inductive MuxError : Type :=
| TooShort (n : Z)
| UnknownType (t : Z)
| PayloadTooLarge (n cap : Z)
| Truncated (declared got : Z)
| EmptyPayloadRequired (t : Z)
| BadKeepalive (n : Z).

(** What the Rust types guarantee of a frame ([u32] ids, [u8] bytes, nonces of
    exactly eight bytes), and the payload cap the senders respect. *)
Definition wf_frame (f : Frame) : Prop :=
  match f with
  | Open s | Close s => is_uint 32 s
  | Data s p => is_uint 32 s /\ bytes_ok p /\ len p <= MAX_DATA
  | Ping n | Pong n => bytes_ok n /\ len n = KEEPALIVE_LEN
  end.

#[export] Instance Frame_eq_dec : EqDecision Frame.
Proof. solve_decision. Defined.

#[export] Instance MuxError_eq_dec : EqDecision MuxError.
Proof. solve_decision. Defined.

(** ** Encoder *)

Definition frame_type (f : Frame) : Z :=
  match f with
  | Open _ => TYPE_OPEN
  | Data _ _ => TYPE_DATA
  | Close _ => TYPE_CLOSE
  | Ping _ => TYPE_PING
  | Pong _ => TYPE_PONG
  end.

Definition frame_stream (f : Frame) : Z :=
  match f with
  | Open s | Data s _ | Close s => s
  | Ping _ | Pong _ => 0
  end.

Definition frame_payload (f : Frame) : list Z :=
  match f with
  | Open _ | Close _ => []
  | Data _ p => p
  | Ping n | Pong n => n
  end.

(** [out] is the caller's buffer: it is cleared, then extended field by field. *)
Definition encode_into (f : Frame) (out : list Z) : list Z :=
  let out := [] in
  let payload := frame_payload f in
  let out := out ++ [frame_type f] in
  let out := out ++ be_encode 4 (frame_stream f) in
  let out := out ++ be_encode 2 (wrap 16 (len payload)) in
  out ++ payload.

Definition encode (f : Frame) : list Z := encode_into f [].

(** ** Decoder *)

(** [buf[i]]; every read below is behind the length check. *)
Definition byte_at (buf : list Z) (i : nat) : Z := nth i buf 0.

(** The header fields and the payload slice. *)
Definition hdr_type (buf : list Z) : Z := byte_at buf 0.
Definition hdr_stream (buf : list Z) : Z :=
  be_decode [byte_at buf 1; byte_at buf 2; byte_at buf 3; byte_at buf 4].
Definition hdr_len (buf : list Z) : Z := be_decode [byte_at buf 5; byte_at buf 6].
Definition body (buf : list Z) : list Z := drop (Z.to_nat FRAME_HEADER) buf.

Definition decode (buf : list Z) : result MuxError Frame :=
  if len buf <? FRAME_HEADER then Err (TooShort (len buf)) else
  let frame_type := hdr_type buf in
  let stream := hdr_stream buf in
  let payload_len := hdr_len buf in
  let payload := body buf in
  if negb (len payload =? payload_len) then Err (Truncated payload_len (len payload)) else
  if (frame_type =? TYPE_OPEN) || (frame_type =? TYPE_CLOSE) then
    if negb (payload_len =? 0) then Err (EmptyPayloadRequired frame_type) else
    if frame_type =? TYPE_OPEN then Ok (Open stream) else Ok (Close stream)
  else if frame_type =? TYPE_DATA then
    if payload_len >? MAX_DATA then Err (PayloadTooLarge payload_len MAX_DATA) else
    Ok (Data stream payload)
  else if (frame_type =? TYPE_PING) || (frame_type =? TYPE_PONG) then
    let? nonce := if len payload =? KEEPALIVE_LEN then Ok payload
                  else Err (BadKeepalive payload_len) in
    if frame_type =? TYPE_PING then Ok (Ping nonce) else Ok (Pong nonce)
  else Err (UnknownType frame_type).

(** Which buffers each error describes: the specification [decode] is proved
    against. [declared] is the header's length field, [got] the bytes present. *)
Definition malformed (buf : list Z) (e : MuxError) : Prop :=
  let declared := hdr_len buf in
  let got := len buf - FRAME_HEADER in
  let t := hdr_type buf in
  match e with
  | TooShort n => n = len buf /\ got < 0
  | Truncated d g => 0 <= got /\ d = declared /\ g = got /\ d <> g
  | EmptyPayloadRequired t' =>
      0 < got /\ declared = got /\ t' = t /\ (t = TYPE_OPEN \/ t = TYPE_CLOSE)
  | PayloadTooLarge n cap => MAX_DATA < got /\ declared = got /\ n = got /\ cap = MAX_DATA
                             /\ t = TYPE_DATA
  | BadKeepalive n => 0 <= got /\ declared = got /\ n = got /\ n <> KEEPALIVE_LEN
                      /\ (t = TYPE_PING \/ t = TYPE_PONG)
  | UnknownType t' => 0 <= got /\ declared = got /\ t' = t /\ ~ (1 <= t <= 5)
  end.

(** The stream field of a PING or PONG is not read by the decoder; [canonical]
    is the buffer with that field zeroed, as the encoder writes it. *)
Definition canonical (buf : list Z) : list Z :=
  if (hdr_type buf =? TYPE_PING) || (hdr_type buf =? TYPE_PONG)
  then take 1 buf ++ [0; 0; 0; 0] ++ drop 5 buf
  else buf.

(** ** Shape of an encoding *)

Lemma encode_eq f :
  encode f = frame_type f :: be_encode 4 (frame_stream f)
             ++ be_encode 2 (wrap 16 (len (frame_payload f))) ++ frame_payload f.
Proof. reflexivity. Qed.

Lemma encode_into_encode f out : encode_into f out = encode f.
Proof. reflexivity. Qed.

Lemma encode_len f : len (encode f) = FRAME_HEADER + len (frame_payload f).
Proof.
  rewrite encode_eq. autorewrite with rust. unfold FRAME_HEADER. simpl Z.of_nat. lia.
Qed.

Lemma wf_frame_stream f : wf_frame f -> is_uint 32 (frame_stream f).
Proof. destruct f; simpl; intros; destruct_and?; try done; uint. Qed.

Lemma wf_frame_payload f : wf_frame f -> bytes_ok (frame_payload f).
Proof. destruct f; simpl; intros; destruct_and?; try done; constructor. Qed.

Lemma wf_frame_payload_len f : wf_frame f -> len (frame_payload f) <= MAX_DATA.
Proof.
  destruct f; simpl; intros; destruct_and?; rewrite ?len_nil;
    unfold MAX_DATA, KEEPALIVE_LEN in *; lia.
Qed.

Lemma frame_type_byte f : 0 <= frame_type f < 256.
Proof. destruct f; cbv; split; congruence. Qed.

Lemma encode_bytes_ok f : wf_frame f -> bytes_ok (encode f).
Proof.
  intros Hf. rewrite encode_eq. apply bytes_ok_cons. split; [apply frame_type_byte |].
  rewrite !bytes_ok_app. auto using be_encode_ok, wf_frame_payload.
Qed.

(** The header fields of [t || stream || length || payload], as the decoder
    reads them. *)
Lemma header_fields t s n p :
  let buf := t :: be_encode 4 s ++ be_encode 2 n ++ p in
  hdr_type buf = t /\ hdr_stream buf = be_decode (be_encode 4 s)
  /\ hdr_len buf = be_decode (be_encode 2 n) /\ body buf = p.
Proof. repeat split. Qed.

Lemma hdr_encode f :
  wf_frame f ->
  hdr_type (encode f) = frame_type f /\ hdr_stream (encode f) = frame_stream f
  /\ body (encode f) = frame_payload f.
Proof.
  intros Hf. rewrite encode_eq.
  destruct (header_fields (frame_type f) (frame_stream f)
    (wrap 16 (len (frame_payload f))) (frame_payload f)) as (-> & -> & _ & ->).
  split_and!; [done | | done]. apply be_decode_encode.
  exact (wf_frame_stream f Hf).
Qed.

Lemma hdr_len_encode f : hdr_len (encode f) = wrap 16 (len (frame_payload f)).
Proof.
  rewrite encode_eq. destruct (header_fields (frame_type f) (frame_stream f)
    (wrap 16 (len (frame_payload f))) (frame_payload f)) as (_ & _ & -> & _).
  apply be_decode_encode. apply (wrap_range 16). lia.
Qed.

Lemma hdr_len_encode_wf f : wf_frame f -> hdr_len (encode f) = len (frame_payload f).
Proof.
  intros Hf. rewrite hdr_len_encode. apply wrap_small.
  pose proof (wf_frame_payload_len f Hf). pose proof (len_nonneg (frame_payload f)).
  unfold MAX_DATA, is_uint in *. lia.
Qed.

Lemma body_len buf : FRAME_HEADER <= len buf -> len (body buf) = len buf - FRAME_HEADER.
Proof. unfold body, len, FRAME_HEADER. rewrite length_drop. lia. Qed.

(** A buffer of at least seven bytes is its header fields followed by its body. *)
Lemma buf_fields buf :
  bytes_ok buf -> FRAME_HEADER <= len buf ->
  buf = hdr_type buf :: be_encode 4 (hdr_stream buf) ++ be_encode 2 (hdr_len buf) ++ body buf.
Proof.
  intros Hb Hl. unfold FRAME_HEADER, len in Hl.
  destruct buf as [| t [| a [| b [| c [| d [| e [| g p]]]]]]]; try (simpl in Hl; lia).
  rewrite !bytes_ok_cons in Hb. destruct_and!.
  change (hdr_stream _) with (be_decode [a; b; c; d]).
  change (hdr_len _) with (be_decode [e; g]).
  change (body _) with p. change (hdr_type _) with t.
  change 4%nat with (length [a; b; c; d]). change 2%nat with (length [e; g]).
  rewrite !be_encode_decode; [done | |]; rewrite !bytes_ok_cons; split_and!; try done; constructor.
Qed.

Lemma canonical_fields buf :
  bytes_ok buf -> FRAME_HEADER <= len buf ->
  canonical buf = hdr_type buf ::
    be_encode 4 (if (hdr_type buf =? 4) || (hdr_type buf =? 5) then 0 else hdr_stream buf)
    ++ be_encode 2 (hdr_len buf) ++ body buf.
Proof.
  intros Hb Hl. unfold canonical, TYPE_PING, TYPE_PONG.
  pose proof (buf_fields buf Hb Hl) as E.
  destruct ((hdr_type buf =? 4) || (hdr_type buf =? 5)); [| exact E].
  revert E. generalize (hdr_type buf) (hdr_stream buf) (hdr_len buf) (body buf).
  intros t s n p ->. reflexivity.
Qed.

Lemma hdr_stream_range buf :
  bytes_ok buf -> FRAME_HEADER <= len buf -> is_uint 32 (hdr_stream buf).
Proof.
  intros Hb Hl. unfold FRAME_HEADER, len in Hl.
  destruct buf as [| t [| a [| b [| c [| d buf]]]]]; try (simpl in Hl; lia).
  rewrite !bytes_ok_cons in Hb. destruct_and!.
  apply (be_decode_bound [a; b; c; d]). rewrite !bytes_ok_cons. split_and!; done || constructor.
Qed.

Lemma body_bytes_ok buf : bytes_ok buf -> bytes_ok (body buf).
Proof. apply Forall_drop. Qed.

(** ** Branches of [decode] *)

(** One case analysis of [decode], shared by the theorems below: every branch
    with the guards that lead to it. *)
Lemma decode_cases buf (P : result MuxError Frame -> Prop) :
  (len buf < 7 -> P (Err (TooShort (len buf)))) ->
  (7 <= len buf -> hdr_len buf <> len buf - 7 ->
     P (Err (Truncated (hdr_len buf) (len buf - 7)))) ->
  (forall t, t = hdr_type buf -> 7 <= len buf -> hdr_len buf = len buf - 7 ->
     (t = 1 -> len buf = 7 -> P (Ok (Open (hdr_stream buf)))) /\
     (t = 3 -> len buf = 7 -> P (Ok (Close (hdr_stream buf)))) /\
     (t = 1 \/ t = 3 -> 7 < len buf -> P (Err (EmptyPayloadRequired t))) /\
     (t = 2 -> len buf - 7 <= 16384 -> P (Ok (Data (hdr_stream buf) (body buf)))) /\
     (t = 2 -> 16384 < len buf - 7 -> P (Err (PayloadTooLarge (len buf - 7) 16384))) /\
     (t = 4 -> len buf - 7 = 8 -> P (Ok (Ping (body buf)))) /\
     (t = 5 -> len buf - 7 = 8 -> P (Ok (Pong (body buf)))) /\
     (t = 4 \/ t = 5 -> len buf - 7 <> 8 -> P (Err (BadKeepalive (len buf - 7)))) /\
     (~ (1 <= t <= 5) -> P (Err (UnknownType t)))) ->
  P (decode buf).
Proof.
  intros H1 H2 H3. unfold decode. pose proof (body_len buf) as Hbl.
  unfold FRAME_HEADER, MAX_DATA, KEEPALIVE_LEN, TYPE_OPEN, TYPE_CLOSE, TYPE_DATA, TYPE_PING,
    TYPE_PONG in *.
  destruct (Z.ltb_spec (len buf) 7) as [Hs | Hs]; [by apply H1 |].
  rewrite Hbl by lia. specialize (H3 _ eq_refl Hs). specialize (H2 Hs).
  destruct (Z.eqb_spec (len buf - 7) (hdr_len buf)) as [Hd | Hd]; cbn [negb]; [| apply H2; lia].
  specialize (H3 (eq_sym Hd)). destruct H3 as (Ho & Hc & He & Hda & Hl & Hpi & Hpo & Hb & Hu).
  rewrite <- Hd.
  destruct (Z.eqb_spec (hdr_type buf) 1), (Z.eqb_spec (hdr_type buf) 3),
    (Z.eqb_spec (hdr_type buf) 2), (Z.eqb_spec (hdr_type buf) 4),
    (Z.eqb_spec (hdr_type buf) 5); try lia; cbn [orb].
  1, 2: destruct (Z.eqb_spec (len buf - 7) 0); cbn [negb]; auto with lia.
  - rewrite Z.gtb_ltb. destruct (Z.ltb_spec 16384 (len buf - 7)); auto with lia.
  - destruct (Z.eqb_spec (len buf - 7) 8); cbn [result_bind]; auto with lia.
  - destruct (Z.eqb_spec (len buf - 7) 8); cbn [result_bind]; auto with lia.
  - apply Hu. lia.
Qed.

Lemma decode_wf f : wf_frame f -> decode (encode f) = Ok f.
Proof.
  intros Hf. destruct (hdr_encode f Hf) as (Ht & Hs & Hb).
  pose proof (hdr_len_encode_wf f Hf) as Hl. pose proof (encode_len f) as He.
  unfold FRAME_HEADER in He. pose proof (len_nonneg (frame_payload f)).
  apply decode_cases; [intros; lia .. |].
  intros t -> _ _. rewrite Ht, Hs, Hb, He.
  destruct f; simpl in Hf |- *;
    unfold TYPE_OPEN, TYPE_DATA, TYPE_CLOSE, TYPE_PING, TYPE_PONG, MAX_DATA, KEEPALIVE_LEN in *;
    simpl frame_payload in *; rewrite ?len_nil; split_and!; intros; try done; lia.
Qed.

Lemma decode_err_malformed buf e : decode buf = Err e <-> malformed buf e.
Proof.
  unfold malformed, FRAME_HEADER, MAX_DATA, KEEPALIVE_LEN, TYPE_OPEN, TYPE_CLOSE, TYPE_DATA,
    TYPE_PING, TYPE_PONG.
  apply (decode_cases buf (fun r => r = Err e <-> _));
    [| | intros t -> Hl Hd; split_and!]; intros; destruct e; split;
    intros Heq; try discriminate Heq; try (injection Heq as ?); destruct_and?; subst;
    repeat f_equal; try lia; exfalso; lia.
Qed.

(** ** Properties *)

(** (C13) Round trip: the decoder returns every well-formed frame
    from its encoding into any reused buffer, for all five frame types and every
    payload up to the 16384-byte cap. *)
Theorem decode_encode f out : wf_frame f -> decode (encode_into f out) = Ok f.
Proof. rewrite encode_into_encode. apply decode_wf. Qed.

(** (C14) Canonicity: whatever the decoder accepts is the encoding of the frame
    it returns, up to the stream field of PING and PONG, which the decoder
    ignores and the encoder writes as zero; the decoded frame is well formed. *)
Theorem decode_ok_encode buf f :
  bytes_ok buf -> decode buf = Ok f -> wf_frame f /\ encode f = canonical buf.
Proof.
  intros Hb. pose proof (body_len buf) as Hbl. pose proof (canonical_fields buf Hb) as Hbuf.
  pose proof (hdr_stream_range buf Hb) as Hsr. pose proof (body_bytes_ok buf Hb) as Hbb.
  unfold FRAME_HEADER in *.
  apply (decode_cases buf (fun r => r = Ok f -> wf_frame f /\ encode f = canonical buf));
    [done | done |].
  intros t -> Hl Hd. rewrite Hbuf, Hd by done. specialize (Hbl Hl). specialize (Hsr Hl).
  assert (forall g, wf_frame g -> frame_type g = hdr_type buf -> frame_payload g = body buf ->
            frame_stream g = (if (hdr_type buf =? 4) || (hdr_type buf =? 5) then 0
                              else hdr_stream buf) ->
            Ok g = @Ok MuxError _ f -> wf_frame f /\
            encode f = hdr_type buf :: be_encode 4
              (if (hdr_type buf =? 4) || (hdr_type buf =? 5) then 0 else hdr_stream buf)
              ++ be_encode 2 (len buf - 7) ++ body buf) as Hgo.
  { intros g Hg Ht Hp Hs [= <-]. split; [done |].
    rewrite encode_eq, Ht, Hs, wrap_small, Hp, Hbl; [done |].
    pose proof (wf_frame_payload_len g Hg). pose proof (len_nonneg (frame_payload g)).
    unfold is_uint, MAX_DATA in *. lia. }
  unfold is_uint in Hsr.
  split_and!; intros; try discriminate; revert select (Ok _ = Ok _); apply Hgo;
    simpl; unfold MAX_DATA, KEEPALIVE_LEN; repeat split; try done; try lia;
    try (symmetry; apply len_zero; lia);
    try (revert select (hdr_type buf = _); intros ->; done).
Qed.

(** (C38) Every error branch: a buffer is rejected with exactly the error whose
    description [malformed] it meets. *)
Theorem decode_err_iff buf e : decode buf = Err e <-> malformed buf e.
Proof. apply decode_err_malformed. Qed.

(** The [payload.len() as u16] cast: what the peer's decoder makes of a
    DATA frame with any payload. Up to 16384 bytes it is the frame; up to
    65535 it is rejected as too large; from 65536 on the length field has
    wrapped and the frame is rejected as truncated. It is never accepted as a
    shorter frame. *)
Theorem decode_encode_data s p :
  is_uint 32 s -> bytes_ok p ->
  decode (encode (Data s p)) =
    if len p <=? MAX_DATA then Ok (Data s p)
    else if len p <? 2 ^ 16 then Err (PayloadTooLarge (len p) MAX_DATA)
    else Err (Truncated (wrap 16 (len p)) (len p)).
Proof.
  intros Hs Hp. destruct (Z.leb_spec (len p) MAX_DATA) as [Hl | Hl].
  { apply decode_wf. repeat split; done || apply Hs. }
  pose proof (encode_len (Data s p)) as He. pose proof (hdr_len_encode (Data s p)) as Hd.
  assert (hdr_type (encode (Data s p)) = 2) as Ht by reflexivity.
  unfold FRAME_HEADER, MAX_DATA, wrap in *. cbn [frame_payload] in *.
  destruct (Z.ltb_spec (len p) (2 ^ 16)); apply decode_err_malformed; unfold malformed;
    rewrite Hd, He, ?Ht; unfold FRAME_HEADER, MAX_DATA, TYPE_DATA;
    pose proof (Z.mod_pos_bound (len p) (2 ^ 16)); [| lia].
  rewrite Z.mod_small by lia. lia.
Qed.

(** ** Witnesses *)

Lemma decode_encode_witness :
  wf_frame (Data 3735928559 [104; 105]) /\
  decode (encode_into (Data 3735928559 [104; 105]) [1; 2]) = Ok (Data 3735928559 [104; 105]).
Proof.
  assert (wf_frame (Data 3735928559 [104; 105])) as H.
  { repeat split; try (cbv; congruence). repeat constructor; cbv; congruence. }
  split; [exact H | exact (decode_encode _ [1; 2] H)].
Defined.

Lemma decode_ok_encode_witness :
  wf_frame (Ping [1; 2; 3; 4; 5; 6; 7; 8]) /\
  encode (Ping [1; 2; 3; 4; 5; 6; 7; 8]) =
    canonical [4; 9; 9; 9; 9; 0; 8; 1; 2; 3; 4; 5; 6; 7; 8].
Proof.
  apply (decode_ok_encode [4; 9; 9; 9; 9; 0; 8; 1; 2; 3; 4; 5; 6; 7; 8]).
  - repeat constructor; cbv; congruence.
  - reflexivity.
Defined.

Lemma decode_encode_data_witness :
  decode (encode (Data 1 (replicate (Z.to_nat 65538) 7)))
  = Err (Truncated 2 65538).
Proof.
  transitivity (if len (replicate (Z.to_nat 65538) 7) <=? MAX_DATA
                then Ok (Data 1 (replicate (Z.to_nat 65538) 7))
                else if len (replicate (Z.to_nat 65538) 7) <? 2 ^ 16
                then Err (PayloadTooLarge (len (replicate (Z.to_nat 65538) 7)) MAX_DATA)
                else Err (Truncated (wrap 16 (len (replicate (Z.to_nat 65538) 7)))
                                    (len (replicate (Z.to_nat 65538) 7)))).
  - apply decode_encode_data.
    + split; [lia | reflexivity].
    + apply Forall_replicate. split; [lia | reflexivity].
  - vm_compute. reflexivity.
Defined.
