(* ===== verification/Records.v ===== *)
(** * Records: extraction of TLS-dressed records from a byte stream

    Two components cut records out of socket reads: [RecordBuf] of
    src/carrier.rs (a buffer with a read cursor, used by the tunnel reader) and
    [RecordReader] of src/handshake.rs (a buffer drained from the front, used by
    the handshake). Both are modelled with their buffers and cursors, and both
    are instances of the class [RecordSource], whose laws say that they refine
    one specification: the records of a byte stream, [parse_records]. The
    clients' theorems are proved against the class. *)

From S2P Require Import Prelude.

(** ** Specification: the records of a byte stream *)

(** The 5-byte header of a record; bytes 3 and 4 hold the payload length. *)
Definition HEADER : nat := 5.

Definition declared_len (s : list Z) : nat :=
  Z.to_nat (be_decode [nth 3 s 0; nth 4 s 0]).

(** A byte string that is exactly one record. *)
Definition is_record (r : list Z) : Prop :=
  (HEADER <= length r)%nat /\ (HEADER + declared_len r = length r)%nat.

(** The first record of a stream and what follows it, if it is complete. *)
Definition split_record (s : list Z) : option (list Z * list Z) :=
  if (length s <? HEADER)%nat then None else
  let total := (HEADER + declared_len s)%nat in
  if (length s <? total)%nat then None else
  Some (take total s, drop total s).

Fixpoint parse_fuel (fuel : nat) (s : list Z) : list (list Z) * list Z :=
  match fuel with
  | O => ([], s)
  | S k =>
      match split_record s with
      | None => ([], s)
      | Some (r, rest) => let '(rs, lft) := parse_fuel k rest in (r :: rs, lft)
      end
  end.

(** All complete records of a stream and the incomplete rest; every record has
    at least five bytes, so the stream's length is fuel enough. *)
Definition parse_records (s : list Z) : list (list Z) * list Z := parse_fuel (length s) s.

(** ** RecordBuf (src/carrier.rs) *)

Record RecordBuf : Type := mkRecordBuf { rb_buf : list Z; rb_pos : nat }.

Definition RecordBuf_new : RecordBuf := mkRecordBuf [] 0.

Definition push (rb : RecordBuf) (chunk : list Z) : RecordBuf :=
  let rb := if (rb_pos rb =? length (rb_buf rb))%nat then mkRecordBuf [] 0 else rb in
  mkRecordBuf (rb_buf rb ++ chunk) (rb_pos rb).

Definition compact (rb : RecordBuf) : RecordBuf :=
  if (0 <? rb_pos rb)%nat then mkRecordBuf (drop (rb_pos rb) (rb_buf rb)) 0 else rb.

(** [None] is a Rust panic: the subtraction [len - pos] underflowing, an index
    or the slice out of range. [Some (None, _)] is "no complete record". *)
Definition take_record (rb : RecordBuf) : option (option (list Z) * RecordBuf) :=
  if (length (rb_buf rb) <? rb_pos rb)%nat then None else
  let avail := (length (rb_buf rb) - rb_pos rb)%nat in
  if (avail <? HEADER)%nat then Some (None, compact rb) else
  match rb_buf rb !! (rb_pos rb + 3)%nat, rb_buf rb !! (rb_pos rb + 4)%nat with
  | Some b3, Some b4 =>
      let payload_len := Z.to_nat (be_decode [b3; b4]) in
      let total := (HEADER + payload_len)%nat in
      if (avail <? total)%nat then Some (None, compact rb) else
      let start := rb_pos rb in
      if (length (rb_buf rb) <? start + total)%nat then None else
      Some (Some (take total (drop start (rb_buf rb))),
            mkRecordBuf (rb_buf rb) (rb_pos rb + total))
  | _, _ => None
  end.

(** ** RecordReader (src/handshake.rs) *)

(** What one [io.read(&mut chunk)] reports. *)
Inductive read_event (E : Type) : Type :=
| ReadData (bs : list Z)
| ReadError (e : E).
Arguments ReadData {E} bs.
Arguments ReadError {E} e.

Inductive read_error (E : Type) : Type :=
| UnexpectedEof
| IoError (e : E).
Arguments UnexpectedEof {E}.
Arguments IoError {E} e.

(** The buffered part of [read_record]: return a complete record if there is
    one, draining it from the front of the buffer. *)
Definition reader_try (buf : list Z) : option (list Z * list Z) :=
  if (HEADER <=? length buf)%nat then
    let payload_len := declared_len buf in
    let total := (HEADER + payload_len)%nat in
    if (total <=? length buf)%nat then Some (take total buf, drop total buf) else None
  else None.

(** [read_record]: loop over the socket's reads. The result is the record or
    the error, the reader's buffer and the reads not consumed; [None] means the
    loop is still waiting for a read after those given. A read of zero bytes is
    end of stream. *)
Fixpoint read_record {E : Type} (buf : list Z) (io : list (read_event E))
  : option (result (read_error E) (list Z) * list Z * list (read_event E)) :=
  match reader_try buf with
  | Some (r, buf') => Some (Ok r, buf', io)
  | None =>
      match io with
      | [] => None
      | ReadError e :: io' => Some (Err (IoError e), buf, io')
      | ReadData chunk :: io' =>
          if (length chunk =? 0)%nat then Some (Err UnexpectedEof, buf, io')
          else read_record (buf ++ chunk) io'
      end
  end.

(** ** The interface *)

(** A record source holds bytes not yet handed out, accepts more of them and
    hands out records; [src_ok] is its invariant. The laws say that it refines
    the specification and never panics. *)
Class RecordSource (T : Type) : Type := {
  src_ok : T -> Prop;
  pending : T -> list Z;
  src_feed : T -> list Z -> T;
  src_next : T -> option (option (list Z) * T);
  src_feed_ok : forall t c, src_ok t -> src_ok (src_feed t c);
  src_feed_pending : forall t c, src_ok t -> pending (src_feed t c) = pending t ++ c;
  src_next_spec : forall t, src_ok t -> exists r t', src_next t = Some (r, t') /\ src_ok t' /\
    match r with
    | None => split_record (pending t) = None /\ pending t' = pending t
    | Some r => split_record (pending t) = Some (r, pending t')
    end;
}.

(** The loop [while let Some(record) = take_record()], collecting the records;
    [None] is a panic. *)
Fixpoint drain_fuel {T} `{RecordSource T} (fuel : nat) (t : T) : option (list (list Z) * T) :=
  match fuel with
  | O => Some ([], t)
  | S k =>
      match src_next t with
      | None => None
      | Some (None, t') => Some ([], t')
      | Some (Some r, t') =>
          match drain_fuel k t' with
          | None => None
          | Some (rs, t'') => Some (r :: rs, t'')
          end
      end
  end.

(** Enough fuel for the buffered bytes plus the final [None]. *)
Definition drain {T} `{RecordSource T} (t : T) : option (list (list Z) * T) :=
  drain_fuel (S (length (pending t))) t.

(** Feed the chunks one read at a time, draining after each. *)
Fixpoint feed_all {T} `{RecordSource T} (t : T) (chunks : list (list Z))
  : option (list (list Z) * T) :=
  match chunks with
  | [] => Some ([], t)
  | c :: cs =>
      match drain (src_feed t c) with
      | None => None
      | Some (rs, t') =>
          match feed_all t' cs with
          | None => None
          | Some (rs', t'') => Some (rs ++ rs', t'')
          end
      end
  end.

(** The invariant of [RecordBuf] and the bytes it still holds. *)
Definition rb_inv (rb : RecordBuf) : Prop := (rb_pos rb <= length (rb_buf rb))%nat.
Definition rb_pending (rb : RecordBuf) : list Z := drop (rb_pos rb) (rb_buf rb).

Definition reader_next (buf : list Z) : option (option (list Z) * list Z) :=
  match reader_try buf with
  | Some (r, buf') => Some (Some r, buf')
  | None => Some (None, buf)
  end.

(** ** Lemmas on the specification *)

Lemma split_record_some s r rest :
  split_record s = Some (r, rest) -> s = r ++ rest /\ (HEADER <= length r)%nat.
Proof.
  unfold split_record. destruct (Nat.ltb_spec (length s) HEADER); [done |].
  destruct (Nat.ltb_spec (length s) (HEADER + declared_len s)); [done |].
  intros [= <- <-]. split; [symmetry; apply take_drop |]. rewrite length_take. unfold HEADER in *. lia.
Qed.

Lemma declared_len_app s t : (HEADER <= length s)%nat -> declared_len (s ++ t) = declared_len s.
Proof. intros Hl. unfold declared_len, HEADER in *. by rewrite !app_nth1 by lia. Qed.

(** What is cut off is one record, and one record is cut off whole. *)
Lemma split_record_is_record s r rest :
  split_record s = Some (r, rest) <-> is_record r /\ s = r ++ rest.
Proof.
  split.
  - intros H. destruct (split_record_some _ _ _ H) as [Hs Hr]. split; [split; [done |] | done].
    revert H. unfold split_record. destruct (Nat.ltb_spec (length s) HEADER); [done |].
    destruct (Nat.ltb_spec (length s) (HEADER + declared_len s)); [done |].
    intros Hi. injection Hi as H1 H2.
    rewrite <- (declared_len_app r rest Hr), <- Hs, <- H1, length_take. unfold HEADER in *. lia.
  - intros [[Hr Hd] ->]. unfold split_record.
    rewrite declared_len_app, length_app, Hd by done.
    destruct (Nat.ltb_spec (length r + length rest) HEADER); [lia |].
    destruct (Nat.ltb_spec (length r + length rest) (length r)); [lia |].
    by rewrite take_app_length, drop_app_length.
Qed.

(** A record that is complete stays the first record when more bytes follow. *)
Lemma split_record_app s t r rest :
  split_record s = Some (r, rest) -> split_record (s ++ t) = Some (r, rest ++ t).
Proof.
  rewrite !split_record_is_record. intros [Hr ->]. split; [done |]. by rewrite app_assoc.
Qed.

(** More fuel than bytes changes nothing. *)
Lemma parse_fuel_enough f1 f2 s :
  (length s <= f1)%nat -> (length s <= f2)%nat -> parse_fuel f1 s = parse_fuel f2 s.
Proof.
  revert f2 s. induction f1 as [| f1 IH]; intros f2 s H1 H2.
  - destruct s; [| simpl in H1; lia]. by destruct f2.
  - destruct f2 as [| f2].
    { destruct s; [done | simpl in H2; lia]. }
    simpl. destruct (split_record s) as [[r rest] |] eqn:E; [| done].
    apply split_record_some in E as [-> Hr]. rewrite length_app in *.
    unfold HEADER in Hr. by rewrite (IH f2 rest) by lia.
Qed.

Lemma parse_records_none s : split_record s = None -> parse_records s = ([], s).
Proof. intros H. unfold parse_records. destruct s; [done |]. cbn [length parse_fuel]. by rewrite H. Qed.

Lemma parse_records_some s r rest :
  split_record s = Some (r, rest) ->
  parse_records s = (r :: (parse_records rest).1, (parse_records rest).2).
Proof.
  intros H. unfold parse_records. destruct (split_record_some _ _ _ H) as [Hs Hr].
  assert (exists n, length s = S n /\ length rest <= n)%nat as (n & Hl & Hn).
  { exists (length s - 1)%nat. rewrite Hs, length_app. unfold HEADER in Hr. lia. }
  rewrite Hl. cbn [parse_fuel]. rewrite H.
  rewrite (parse_fuel_enough n (length rest) rest) by lia.
  by destruct (parse_fuel (length rest) rest).
Qed.

(** Induction on a stream, record by record. *)
Lemma stream_ind (P : list Z -> Prop) :
  (forall s, split_record s = None -> P s) ->
  (forall s r rest, split_record s = Some (r, rest) -> P rest -> P s) ->
  forall s, P s.
Proof.
  intros Hn Hs s. remember (length s) as n eqn:Hl. revert s Hl.
  induction (lt_wf n) as [n _ IH]. intros s ->.
  destruct (split_record s) as [[r rest] |] eqn:E; [| by apply Hn].
  apply (Hs _ _ _ E). apply split_record_some in E as [-> Hr].
  apply (IH (length rest)); [| done]. rewrite length_app. unfold HEADER in Hr. lia.
Qed.

(** Parsing in two steps: first [s], then its leftover with more bytes. *)
Lemma parse_records_app s t :
  let '(rs, lft) := parse_records s in
  parse_records (s ++ t) =
    (rs ++ (parse_records (lft ++ t)).1, (parse_records (lft ++ t)).2).
Proof.
  induction s as [s Hn | s r rest Hs IH] using stream_ind.
  - rewrite (parse_records_none s Hn). by destruct (parse_records (s ++ t)).
  - rewrite (parse_records_some s r rest Hs).
    rewrite (parse_records_some _ r (rest ++ t)) by (by apply split_record_app).
    destruct (parse_records rest) as [rs left]. cbn [fst snd]. by rewrite IH.
Qed.

Lemma parse_records_leftover s : split_record (parse_records s).2 = None.
Proof.
  induction s as [s Hn | s r rest Hs IH] using stream_ind.
  - by rewrite (parse_records_none s Hn).
  - by rewrite (parse_records_some s r rest Hs).
Qed.

Lemma parse_records_concat s : concat (parse_records s).1 ++ (parse_records s).2 = s.
Proof.
  induction s as [s Hn | s r rest Hs IH] using stream_ind.
  - by rewrite (parse_records_none s Hn).
  - rewrite (parse_records_some s r rest Hs). cbn [fst snd concat].
    apply split_record_some in Hs as [-> _]. by rewrite <- app_assoc, IH.
Qed.

(** A concatenation of records is parsed back into those records. *)
Lemma parse_records_of_records rs t :
  Forall is_record rs ->
  parse_records (concat rs ++ t) = (rs ++ (parse_records t).1, (parse_records t).2).
Proof.
  induction 1 as [| r rs Hr _ IH]; simpl; [by destruct (parse_records t) |].
  rewrite (parse_records_some _ r (concat rs ++ t)), IH; [done |].
  apply split_record_is_record. by rewrite app_assoc.
Qed.

(** The incomplete rest is shorter than the largest record. *)
Lemma split_record_none_bound s :
  bytes_ok s -> split_record s = None -> len s < 5 + 2 ^ 16.
Proof.
  unfold split_record, HEADER. intros Hb.
  destruct (Nat.ltb_spec (length s) 5); [unfold len; lia |].
  destruct (Nat.ltb_spec (length s) (5 + declared_len s)); [| done]. intros _.
  enough (Z.of_nat (declared_len s) < 2 ^ 16) by (unfold len; lia).
  destruct s as [| a [| b [| c [| d [| e s]]]]]; try (simpl in *; lia).
  rewrite !bytes_ok_cons in Hb. destruct_and!.
  change (declared_len _) with (Z.to_nat (be_decode [d; e])).
  assert (0 <= be_decode [d; e] < 256 ^ 2).
  { apply (be_decode_bound [d; e]). rewrite !bytes_ok_cons. split_and!; done || constructor. }
  lia.
Qed.

(** ** The two implementations *)

Lemma compact_pending rb : rb_inv rb -> rb_inv (compact rb) /\ rb_pending (compact rb) = rb_pending rb.
Proof.
  unfold compact, rb_inv, rb_pending. destruct (Nat.ltb_spec 0 (rb_pos rb)); [| done].
  intros _. simpl. split; [lia | apply drop_0].
Qed.

Lemma RecordBuf_new_inv : rb_inv RecordBuf_new.
Proof. apply Nat.le_refl. Qed.

Lemma push_inv rb c : rb_inv rb -> rb_inv (push rb c).
Proof.
  unfold push, rb_inv. destruct (Nat.eqb_spec (rb_pos rb) (length (rb_buf rb))); simpl;
    rewrite ?length_app; lia.
Qed.

Lemma push_pending rb c : rb_inv rb -> rb_pending (push rb c) = rb_pending rb ++ c.
Proof.
  unfold push, rb_inv, rb_pending. intros Hi.
  destruct (Nat.eqb_spec (rb_pos rb) (length (rb_buf rb))) as [He | He]; simpl.
  - rewrite He, drop_0, drop_all. done.
  - rewrite drop_app_le by lia. done.
Qed.

(** Reading bytes 3 and 4 at the cursor is reading them in the pending bytes. *)
Lemma cursor_reads rb :
  (HEADER <= length (rb_buf rb) - rb_pos rb)%nat ->
  exists b3 b4, rb_buf rb !! (rb_pos rb + 3)%nat = Some b3 /\ rb_buf rb !! (rb_pos rb + 4)%nat = Some b4
    /\ declared_len (rb_pending rb) = Z.to_nat (be_decode [b3; b4]).
Proof.
  unfold HEADER, rb_pending, declared_len. intros Hl.
  destruct (lookup_lt_is_Some_2 (rb_buf rb) (rb_pos rb + 3)) as [b3 H3]; [lia |].
  destruct (lookup_lt_is_Some_2 (rb_buf rb) (rb_pos rb + 4)) as [b4 H4]; [lia |].
  exists b3, b4. split_and!; [done | done |].
  rewrite <- lookup_drop in H3, H4.
  apply nth_lookup_Some with (d := 0) in H3, H4. by rewrite H3, H4.
Qed.

Lemma take_record_spec rb :
  rb_inv rb -> exists r rb', take_record rb = Some (r, rb') /\ rb_inv rb' /\
    match r with
    | None => split_record (rb_pending rb) = None /\ rb_pending rb' = rb_pending rb
    | Some r => split_record (rb_pending rb) = Some (r, rb_pending rb')
    end.
Proof.
  intros Hi. destruct (compact_pending rb Hi) as [Hci Hcp]. unfold take_record, split_record.
  assert (length (rb_pending rb) = length (rb_buf rb) - rb_pos rb)%nat as Hl by apply length_drop.
  unfold rb_inv in *. rewrite Hl.
  destruct (Nat.ltb_spec (length (rb_buf rb)) (rb_pos rb)); [lia |].
  destruct (Nat.ltb_spec (length (rb_buf rb) - rb_pos rb) HEADER) as [Hh | Hh]; [by eauto 6 |].
  destruct (cursor_reads rb Hh) as (b3 & b4 & -> & -> & ->).
  set (total := (HEADER + Z.to_nat (be_decode [b3; b4]))%nat).
  destruct (Nat.ltb_spec (length (rb_buf rb) - rb_pos rb) total); [by eauto 6 |].
  destruct (Nat.ltb_spec (length (rb_buf rb)) (rb_pos rb + total)); [lia |].
  do 2 eexists. split; [done |]. unfold rb_pending. simpl. split; [lia |].
  by rewrite drop_drop.
Qed.

#[export] Instance RecordBuf_source : RecordSource RecordBuf := {|
  src_ok := rb_inv;
  pending := rb_pending;
  src_feed := push;
  src_next := take_record;
  src_feed_ok := push_inv;
  src_feed_pending := push_pending;
  src_next_spec := take_record_spec;
|}.

Lemma reader_try_split buf : reader_try buf = split_record buf.
Proof.
  unfold reader_try, split_record.
  destruct (Nat.leb_spec HEADER (length buf)), (Nat.ltb_spec (length buf) HEADER); try lia; [| done].
  destruct (Nat.leb_spec (HEADER + declared_len buf) (length buf)),
    (Nat.ltb_spec (length buf) (HEADER + declared_len buf)); try lia; done.
Qed.

Lemma reader_next_spec buf :
  True -> exists r buf', reader_next buf = Some (r, buf') /\ True /\
    match r with
    | None => split_record buf = None /\ buf' = buf
    | Some r => split_record buf = Some (r, buf')
    end.
Proof.
  intros _. unfold reader_next. rewrite reader_try_split.
  destruct (split_record buf) as [[r rest] |]; eauto 6.
Qed.

#[export] Instance RecordReader_source : RecordSource (list Z) := {|
  src_ok := fun _ => True;
  pending := fun buf => buf;
  src_feed := fun buf c => buf ++ c;
  src_next := reader_next;
  src_feed_ok := fun _ _ H => H;
  src_feed_pending := fun _ _ _ => eq_refl;
  src_next_spec := reader_next_spec;
|}.

(** ** Theorems against the interface *)

Section source.
Context {T : Type} `{RecordSource T}.
Implicit Types (t : T) (cs : list (list Z)).

Lemma drain_fuel_spec fuel t :
  src_ok t -> (length (pending t) < fuel)%nat ->
  exists t', drain_fuel fuel t = Some ((parse_records (pending t)).1, t') /\ src_ok t'
    /\ pending t' = (parse_records (pending t)).2.
Proof.
  revert t. induction fuel as [| k IH]; intros t Ht Hl; [lia |]. cbn [drain_fuel].
  destruct (src_next_spec t Ht) as ([r |] & t' & -> & Ht' & Hr).
  - destruct (split_record_some _ _ _ Hr) as [Hs Hrl].
    rewrite (parse_records_some _ _ _ Hr). apply (f_equal length) in Hs.
    rewrite length_app in Hs. unfold HEADER in Hrl.
    destruct (IH t' Ht') as (t'' & -> & Hok & Hp); [lia |]. cbn [fst snd]. eauto.
  - destruct Hr as [Hn Hp]. rewrite (parse_records_none _ Hn). simpl. eauto.
Qed.

(** The inner loop returns all complete buffered records, keeps the rest and
    does not panic; its fuel is enough. *)
Lemma drain_spec t :
  src_ok t ->
  exists t', drain t = Some ((parse_records (pending t)).1, t') /\ src_ok t'
    /\ pending t' = (parse_records (pending t)).2.
Proof. intros Ht. apply drain_fuel_spec; [done | lia]. Qed.

Lemma feed_all_spec t cs :
  src_ok t -> split_record (pending t) = None ->
  exists t', feed_all t cs = Some ((parse_records (pending t ++ concat cs)).1, t') /\ src_ok t'
    /\ pending t' = (parse_records (pending t ++ concat cs)).2.
Proof.
  revert t. induction cs as [| c cs IH]; intros t Ht Hn; cbn [feed_all concat].
  - rewrite app_nil_r, (parse_records_none _ Hn). simpl. eauto.
  - destruct (drain_spec (src_feed t c)) as (t' & -> & Ht' & Hp); [by apply src_feed_ok |].
    rewrite src_feed_pending in * by done.
    destruct (IH t' Ht') as (t'' & -> & Ht'' & Hp'').
    { rewrite Hp. apply parse_records_leftover. }
    rewrite Hp in Hp'' |- *. pose proof (parse_records_app (pending t ++ c) (concat cs)) as Happ.
    destruct (parse_records (pending t ++ c)) as [rs lft]. rewrite <- app_assoc in Happ.
    rewrite Happ. cbn [fst snd] in *. eauto.
Qed.

End source.

Lemma record_buf_drain cs :
  exists rb, feed_all RecordBuf_new cs = Some ((parse_records (concat cs)).1, rb)
    /\ rb_inv rb /\ rb_pending rb = (parse_records (concat cs)).2.
Proof. exact (feed_all_spec RecordBuf_new cs RecordBuf_new_inv eq_refl). Qed.

Lemma record_reader_drain cs :
  exists rd : list Z, feed_all (T := list Z) [] cs = Some ((parse_records (concat cs)).1, rd)
    /\ True /\ rd = (parse_records (concat cs)).2.
Proof. exact (feed_all_spec (T := list Z) [] cs I eq_refl). Qed.

(** A record that is in the bytes to come is returned, whatever follows. *)
Lemma read_record_complete {E : Type} cs (io : list (read_event E)) : forall buf r rest,
  Forall (fun c => c <> []) cs -> split_record (buf ++ concat cs) = Some (r, rest) ->
  exists buf' cs', buf' ++ concat cs' = rest /\ Forall (fun c => c <> []) cs' /\
    read_record buf ((ReadData <$> cs) ++ io) = Some (Ok r, buf', (ReadData <$> cs') ++ io).
Proof.
  induction cs as [| c cs IH]; intros buf r rest Hcs Hs; cbn [concat] in Hs.
  - rewrite app_nil_r in Hs. exists rest, []. split; [apply app_nil_r |]. split; [constructor |].
    cbn [fmap list_fmap app]. destruct io; cbn [read_record]; by rewrite reader_try_split, Hs.
  - apply Forall_cons in Hcs as [Hc Hcs]. cbn [fmap list_fmap app read_record]. rewrite reader_try_split.
    destruct (split_record buf) as [[r' rest'] |] eqn:Hb.
    + rewrite (split_record_app _ _ _ _ Hb) in Hs. simplify_eq. exists rest', (c :: cs). by repeat constructor.
    + rewrite app_assoc in Hs. destruct (Nat.eqb_spec (length c) 0) as [H0 | H0].
      * by apply nil_length_inv in H0.
      * by apply IH.
Qed.

(** ** Properties *)

(** (C12) Refinement of [RecordBuf]: however the socket splits the stream into
    reads, pushing the reads and draining after each yields exactly the records
    of the stream in order, never panics, and leaves the incomplete rest in a
    compacted buffer. *)
Theorem record_buf_refines cs :
  exists rb, feed_all RecordBuf_new cs = Some ((parse_records (concat cs)).1, rb)
    /\ rb_inv rb /\ rb_pending rb = (parse_records (concat cs)).2.
Proof. apply record_buf_drain. Qed.

(** Bounded memory: when the inner loop has stopped, the buffer holds less
    than one maximal record (5 + 65535 bytes), and its cursor is at zero. *)
Theorem record_buf_bounded rb :
  rb_inv rb -> bytes_ok (rb_buf rb) ->
  exists rs rb', drain rb = Some (rs, rb') /\ rb_pos rb' = 0%nat /\ len (rb_buf rb') < 5 + 2 ^ 16.
Proof.
  intros Hi Hb. unfold drain.
  assert (bytes_ok (rb_pending rb)) as Hp by (by apply Forall_drop).
  generalize (Nat.lt_succ_diag_r (length (pending rb))).
  generalize (S (length (pending rb))). intros fuel Hf. cbn in Hf. revert rb Hi Hb Hp Hf.
  induction fuel as [| k IH]; intros rb Hi Hb Hp Hf; [lia |]. cbn [drain_fuel src_next RecordBuf_source].
  destruct (take_record_spec rb Hi) as ([r |] & rb' & Ht & Hi' & Hr); rewrite Ht.
  - pose proof Hr as Hs. apply split_record_some in Hs as [Hs Hrl].
    pose proof (f_equal length Hs) as Hl. rewrite length_app in Hl. unfold HEADER in Hrl.
    assert (rb_buf rb' = rb_buf rb) as Hbuf by (revert Ht; unfold take_record; intros Ht; cases_in Ht; by inv_ok).
    destruct (IH rb') as (rs & rb'' & -> & H1 & H2); [done | by rewrite Hbuf | | lia | eauto].
    rewrite Hs in Hp. by apply bytes_ok_app in Hp as [_ ?].
  - destruct Hr as [Hn Hpe]. do 2 eexists. split; [done |].
    assert (rb' = compact rb) as -> by (revert Ht; unfold take_record; intros Ht; cases_in Ht; by inv_ok).
    assert (rb_pos (compact rb) = 0)%nat as H0.
    { unfold compact. destruct (Nat.ltb_spec 0 (rb_pos rb)); simpl; lia. }
    split; [done |]. rewrite <- (drop_0 (rb_buf (compact rb))), <- H0.
    fold (rb_pending (compact rb)). rewrite Hpe. by apply split_record_none_bound.
Qed.

(** [RecordReader.read_record] over any split of the stream into non-empty
    reads returns the first record as soon as it is complete and keeps exactly
    the bytes after it; without a complete record it keeps waiting, and an end
    of stream or a read error met while waiting is returned as such. *)
Theorem read_record_spec {E : Type} buf cs (ev : read_event E) io :
  Forall (fun c => c <> []) cs -> (forall c, ev = ReadData c -> c = []) ->
  match split_record (buf ++ concat cs) with
  | Some (r, rest) =>
      exists buf' cs', buf' ++ concat cs' = rest /\
        read_record buf ((ReadData <$> cs) ++ ev :: io) = Some (Ok r, buf', (ReadData <$> cs') ++ ev :: io)
  | None =>
      read_record (E := E) buf (ReadData <$> cs) = None /\
      read_record buf ((ReadData <$> cs) ++ ev :: io) =
        Some (Err (match ev with ReadData _ => UnexpectedEof | ReadError e => IoError e end),
              buf ++ concat cs, io)
  end.
Proof.
  intros Hcs Hev. revert buf. induction Hcs as [| c cs Hc Hcs IH]; intros buf;
    cbn [fmap list_fmap app concat read_record]; rewrite ?app_nil_r, reader_try_split.
  - destruct (split_record buf) as [[r rest] |] eqn:Hs.
    + exists rest, []. by rewrite app_nil_r.
    + split; [done |]. destruct ev as [c | e]; [by rewrite (Hev c eq_refl) | done].
  - destruct (split_record buf) as [[r rest] |] eqn:Hs.
    + rewrite (split_record_app _ _ _ _ Hs). by exists rest, (c :: cs).
    + rewrite app_assoc. destruct (Nat.eqb_spec (length c) 0) as [H0 | H0].
      * by apply nil_length_inv in H0.
      * apply IH.
Qed.

(** Both record extractors are interchangeable: fed the same reads they
    produce the same records and hold the same pending bytes. *)
Theorem record_sources_agree cs :
  exists rb rd rs, feed_all RecordBuf_new cs = Some (rs, rb) /\ feed_all (T := list Z) [] cs = Some (rs, rd)
    /\ rb_pending rb = rd.
Proof.
  destruct (record_buf_drain cs) as (rb & -> & _ & Hb).
  destruct (record_reader_drain cs) as (rd & -> & _ & Hd).
  do 3 eexists. split_and!; [done | done |]. by transitivity ((parse_records (concat cs)).2).
Qed.

(** ** Witnesses *)

Lemma record_buf_bounded_witness :
  exists rs rb', drain (mkRecordBuf [23; 3; 3; 0; 1; 9; 23; 3] 0) = Some (rs, rb')
    /\ rb_pos rb' = 0%nat /\ len (rb_buf rb') < 5 + 2 ^ 16.
Proof.
  apply record_buf_bounded.
  - unfold rb_inv. simpl. lia.
  - repeat constructor; cbv; congruence.
Defined.

Lemma read_record_spec_witness :
  match split_record ([23; 3] ++ concat [[3; 0]; [2; 7; 8; 23]]) with
  | Some (r, rest) =>
      exists buf' cs', buf' ++ concat cs' = rest /\
        read_record [23; 3] ((ReadData <$> [[3; 0]; [2; 7; 8; 23]]) ++ ReadError 1 :: [])
        = Some (Ok r, buf', (ReadData <$> cs') ++ ReadError 1 :: [])
  | None =>
      read_record (E := Z) [23; 3] (ReadData <$> [[3; 0]; [2; 7; 8; 23]]) = None /\
      read_record [23; 3] ((ReadData <$> [[3; 0]; [2; 7; 8; 23]]) ++ ReadError 1 :: []) =
        Some (Err (IoError 1), [23; 3] ++ concat [[3; 0]; [2; 7; 8; 23]], [])
  end.
Proof.
  apply (read_record_spec (E := Z) [23; 3] [[3; 0]; [2; 7; 8; 23]] (ReadError 1) []).
  - repeat constructor; discriminate.
  - intros c Hc. discriminate Hc.
Defined.
