(* ===== verification/External.v ===== *)
(** * External: the code the plugin calls and this repository does not hold

    The plugin is built on two kinds of foreign code: the qeli core's record
    codec and the tokio runtime (channels, timeouts, spawned tasks). Both are
    classes here, so every model that uses them takes them as arguments. What
    the plugin relies on is a second class of laws, used only by the theorems
    that need it, and instantiated by small concrete codecs and runtimes so
    that the theorems' hypotheses are known to be satisfiable. *)

From S2P Require Import Prelude Records Mux.

(** ** [qeli_core::protocol::PacketCodec] *)

(** [encrypt_packet codec plain padding] and [decrypt_packet codec record]; both
    mutate the codec (counters, replay window). *)
Class PacketCodec : Type := {
  codec : Type;
  codec_new : list Z -> codec;
  encrypt_packet : codec -> list Z -> list Z -> result unit (list Z) * codec;
  decrypt_packet : codec -> list Z -> result unit (list Z) * codec;
}.

(** What the plugin relies on. [synced tx rx]: [tx] encrypts what [rx] decrypts.
    - codecs made from one key are synced;
    - an encrypted packet is one TLS-dressed record (src/mux.rs, header comment
      of [MAX_DATA]), and a plaintext up to a full mux frame fits in it;
    - an encrypted packet decrypts to its plaintext;
    - losing an encrypted packet does not matter to the next ones (each carries
      its own counter, and the replay window only needs it to be fresh);
    - a rejected record leaves the receiver able to decrypt the next one
      (src/carrier.rs, [MAX_CONSECUTIVE_BAD_RECORDS]). *)
Class PacketCodecLaws (P : PacketCodec) : Type := {
  synced : codec -> codec -> Prop;
  synced_new : forall key, synced (codec_new key) (codec_new key);
  encrypt_is_record : forall tx p r tx',
    encrypt_packet tx p [] = (Ok r, tx') -> is_record r;
  encrypt_fits : forall tx p,
    len p <= FRAME_HEADER + MAX_DATA -> exists r tx', encrypt_packet tx p [] = (Ok r, tx');
  decrypt_encrypt : forall tx rx p r tx',
    synced tx rx -> encrypt_packet tx p [] = (Ok r, tx') ->
    exists rx', decrypt_packet rx r = (Ok p, rx') /\ synced tx' rx';
  encrypt_lost : forall tx rx p r tx',
    synced tx rx -> encrypt_packet tx p [] = (Ok r, tx') -> synced tx' rx;
  decrypt_reject : forall tx rx r rx' e,
    synced tx rx -> decrypt_packet rx r = (Err e, rx') -> synced tx rx';
}.

(** ** The tokio runtime *)

(** The outcome of [timeout(d, tx.send(payload)).await] on a bounded channel. *)
Inductive send_outcome : Type :=
| Sent
| Closed
| Elapsed.

(** The outcome of [timeout(d, write_all + flush).await] on the socket. *)
Inductive write_outcome : Type :=
| Written
| WriteFailed
| WriteElapsed.

#[export] Instance send_outcome_eq_dec : EqDecision send_outcome.
Proof. solve_decision. Defined.

(** A task handed to [tokio::spawn]: the tunnel's [on_open] callback for a
    stream with its inbound receiver, or the pump of a stream. *)
Inductive task (receiver : Type) : Type :=
| TaskOnOpen (id : Z) (inbound : receiver)
| TaskPump (id : Z) (inbound : receiver).
Arguments TaskOnOpen {receiver} id inbound.
Arguments TaskPump {receiver} id inbound.

(** The runtime calls the plugin makes, on an abstract state of the rest of the
    world (the channels' contents and the other tasks). *)
Class Tokio : Type := {
  world : Type;
  sender : Type;
  receiver : Type;
  mpsc_channel : Z -> world -> (sender * receiver) * world;
  timeout_send : Z -> sender -> list Z -> world -> send_outcome * world;
  frames_send : Frame -> world -> bool * world;
  timeout_write : Z -> list Z -> world -> write_outcome * world;
  random_bytes : Z -> world -> list Z * world;
  spawn : task receiver -> world -> world;
}.

(** What the plugin relies on of tokio's channels, seen by the task that holds
    the world. [issued tx]: the channel of [tx] has been created; [history tx]:
    the chunks it has accepted; [queued]: the frames the frame channel has
    accepted from this task.
    - [mpsc::channel] returns a channel no earlier sender belongs to, empty;
    - [send] returns once the channel has taken the value, at the end of its
      queue, and takes nothing when it fails or is cancelled by its timeout;
    - no operation touches another channel. *)
Class TokioLaws (TK : Tokio) : Type := {
  issued : sender -> world -> Prop;
  history : sender -> world -> list (list Z);
  queued : world -> list Frame;
  channel_new : forall n w tx rx w', mpsc_channel n w = ((tx, rx), w') ->
    ~ issued tx w /\ issued tx w' /\ history tx w' = [] /\ queued w' = queued w;
  channel_others : forall n w tx rx w' tx', mpsc_channel n w = ((tx, rx), w') ->
    issued tx' w -> issued tx' w' /\ history tx' w' = history tx' w;
  send_history : forall d tx p w, issued tx w ->
    history tx (timeout_send d tx p w).2 =
      history tx w ++ (match (timeout_send d tx p w).1 with Sent => [p] | _ => [] end);
  send_others : forall d tx p w tx', tx' <> tx ->
    history tx' (timeout_send d tx p w).2 = history tx' w;
  send_issued : forall d tx p w tx', issued tx' w -> issued tx' (timeout_send d tx p w).2;
  send_queued : forall d tx p w, queued (timeout_send d tx p w).2 = queued w;
  frames_queued : forall f w,
    queued (frames_send f w).2 = queued w ++ (if (frames_send f w).1 then [f] else []);
  frames_channels : forall f w tx, issued tx w ->
    issued tx (frames_send f w).2 /\ history tx (frames_send f w).2 = history tx w;
  random_channels : forall n w tx, issued tx w ->
    issued tx (random_bytes n w).2 /\ history tx (random_bytes n w).2 = history tx w;
  random_queued : forall n w, queued (random_bytes n w).2 = queued w;
  random_len : forall n w, 0 <= n -> len (random_bytes n w).1 = n /\ bytes_ok (random_bytes n w).1;
  spawn_channels : forall k w tx, issued tx w ->
    issued tx (spawn k w) /\ history tx (spawn k w) = history tx w;
  spawn_queued : forall k w, queued (spawn k w) = queued w;
}.

(** ** A concrete codec *)

(** A toy codec: header, plaintext, a one-byte tag. It rejects everything that
    is not one record ending in the tag. *)
Definition toy_tag : Z := 165.

Definition toy_header (p : list Z) : list Z := [23; 3; 3] ++ be_encode 2 (len p + 1).

Definition toy_encrypt (p : list Z) : result unit (list Z) :=
  if len p <=? 60000 then Ok (toy_header p ++ p ++ [toy_tag])
  else Err tt.

Definition toy_decrypt (r : list Z) : result unit (list Z) :=
  match split_record r with
  | Some (_, []) =>
      match last (drop HEADER r) with
      | Some t => if t =? toy_tag then Ok (take (length r - 6) (drop HEADER r)) else Err tt
      | None => Err tt
      end
  | _ => Err tt
  end.

#[export] Instance toy_codec : PacketCodec := {|
  codec := unit;
  codec_new := fun _ => tt;
  encrypt_packet := fun c p _ => (toy_encrypt p, c);
  decrypt_packet := fun c r => (toy_decrypt r, c);
|}.

(** ** A concrete runtime *)

(** Channels are numbered; the world keeps every chunk sent on each, the frames
    queued for the writer, the spawned tasks, and which channels are closed or
    stalled. *)
Record toy_world : Type := mkToyWorld {
  tw_next : nat;
  tw_sent : list (nat * list Z);
  tw_frames : list Frame;
  tw_tasks : list (task nat);
  tw_closed : list nat;
  tw_stalled : list nat;
  tw_down : bool;
  tw_wire : list Z;
}.

Definition toy_world0 : toy_world := mkToyWorld 0 [] [] [] [] [] false [].

Definition toy_send (c : nat) (p : list Z) (w : toy_world) : send_outcome * toy_world :=
  if decide (c ∈ tw_closed w) then (Closed, w)
  else if decide (c ∈ tw_stalled w) then (Elapsed, w)
  else (Sent, mkToyWorld (tw_next w) (tw_sent w ++ [(c, p)]) (tw_frames w) (tw_tasks w)
                (tw_closed w) (tw_stalled w) (tw_down w) (tw_wire w)).

Definition toy_frame (f : Frame) (w : toy_world) : bool * toy_world :=
  if tw_down w then (false, w)
  else (true, mkToyWorld (tw_next w) (tw_sent w) (tw_frames w ++ [f]) (tw_tasks w)
                (tw_closed w) (tw_stalled w) (tw_down w) (tw_wire w)).

(** The number of the next channel: above every number issued or sent on. *)
Definition toy_fresh (w : toy_world) : nat :=
  foldr (fun e n => Nat.max (S e.1) n) (tw_next w) (tw_sent w).

#[export] Instance toy_tokio : Tokio := {|
  world := toy_world;
  sender := nat;
  receiver := nat;
  mpsc_channel := fun _ w =>
    ((toy_fresh w, toy_fresh w),
     mkToyWorld (S (toy_fresh w)) (tw_sent w) (tw_frames w) (tw_tasks w) (tw_closed w)
       (tw_stalled w) (tw_down w) (tw_wire w));
  timeout_write := fun _ bs w =>
    if tw_down w then (WriteFailed, w)
    else (Written, mkToyWorld (tw_next w) (tw_sent w) (tw_frames w) (tw_tasks w) (tw_closed w)
                     (tw_stalled w) (tw_down w) (tw_wire w ++ bs));
  timeout_send := fun _ c p w => toy_send c p w;
  frames_send := toy_frame;
  random_bytes := fun n w => (replicate (Z.to_nat n) 7, w);
  spawn := fun t w => mkToyWorld (tw_next w) (tw_sent w) (tw_frames w) (tw_tasks w ++ [t])
                        (tw_closed w) (tw_stalled w) (tw_down w) (tw_wire w);
|}.

(** A runtime in which every channel and the socket always accept. *)
Definition sure_tokio : Tokio := {|
  world := list Z;
  sender := unit;
  receiver := unit;
  mpsc_channel := fun _ w => ((tt, tt), w);
  timeout_send := fun _ _ _ w => (Sent, w);
  frames_send := fun _ w => (true, w);
  timeout_write := fun _ bs w => (Written, w ++ bs);
  random_bytes := fun n w => (replicate (Z.to_nat n) 0, w);
  spawn := fun _ w => w;
|}.
(** ** The concrete codec satisfies the laws *)

Lemma toy_encrypt_ok p r :
  toy_encrypt p = Ok r -> len p <= 60000 /\ r = toy_header p ++ p ++ [toy_tag].
Proof. unfold toy_encrypt. destruct (Z.leb_spec (len p) 60000); naive_solver. Qed.

Lemma toy_header_len p : length (toy_header p) = HEADER.
Proof. reflexivity. Qed.

Lemma toy_encrypt_record p r : toy_encrypt p = Ok r -> is_record r.
Proof.
  intros [Hl ->]%toy_encrypt_ok. pose proof (len_nonneg p). split.
  - rewrite length_app, (toy_header_len p). lia.
  - rewrite declared_len_app by (by rewrite toy_header_len).
    change (declared_len (toy_header p)) with (Z.to_nat (be_decode (be_encode 2 (len p + 1)))).
    rewrite be_decode_encode by (simpl Z.of_nat; lia).
    rewrite !length_app, (toy_header_len p). unfold len in *. simpl length. lia.
Qed.

Lemma toy_decrypt_encrypt p r : toy_encrypt p = Ok r -> toy_decrypt r = Ok p.
Proof.
  intros He. pose proof (toy_encrypt_record p r He) as Hr. unfold toy_decrypt.
  assert (split_record r = Some (r, [])) as ->.
  { apply split_record_is_record. by rewrite app_nil_r. }
  apply toy_encrypt_ok in He as [_ ->].
  rewrite drop_app_length' by done.
  rewrite last_snoc, Z.eqb_refl. f_equal. rewrite !length_app, (toy_header_len p).
  rewrite take_app_le by (unfold HEADER; simpl; lia). apply take_ge. unfold HEADER. simpl. lia.
Qed.

#[export] Instance toy_codec_laws : PacketCodecLaws toy_codec.
Proof.
  refine {| synced := fun _ _ => True |}; simpl; intros.
  - done.
  - simplify_eq/=. by apply (toy_encrypt_record p).
  - unfold toy_encrypt, FRAME_HEADER, MAX_DATA in *.
    destruct (Z.leb_spec (len p) 60000); [eauto | lia].
  - simplify_eq/=. exists rx. split; [| done]. by erewrite toy_decrypt_encrypt.
  - done.
  - done.
Defined.

(** ** The concrete runtime satisfies the laws *)

Definition toy_history (c : nat) (w : toy_world) : list (list Z) :=
  omap (fun e => if decide (e.1 = c) then Some e.2 else None) (tw_sent w).

Lemma toy_fresh_ge w : (tw_next w <= toy_fresh w)%nat.
Proof. unfold toy_fresh. induction (tw_sent w); simpl; lia. Qed.

Lemma toy_history_fresh c w : (toy_fresh w <= c)%nat -> toy_history c w = [].
Proof.
  unfold toy_history, toy_fresh. induction (tw_sent w) as [| [c' p] l IH]; simpl; [done |].
  intros Hc. rewrite decide_False by lia. apply IH. lia.
Qed.

Lemma toy_history_snoc c c' p w : toy_history c w ++ (if decide (c' = c) then [p] else [])
  = omap (fun e => if decide (e.1 = c) then Some e.2 else None) (tw_sent w ++ [(c', p)]).
Proof. rewrite omap_app. simpl. by destruct (decide (c' = c)). Qed.

Lemma toy_fresh_snoc w n fr ts cl st d wi e :
  tw_next w = n -> (toy_fresh w <= toy_fresh (mkToyWorld n (tw_sent w ++ [e]) fr ts cl st d wi))%nat.
Proof. intros <-. unfold toy_fresh. simpl. induction (tw_sent w); simpl; lia. Qed.

Lemma toy_fresh_next w n fr ts cl st d wi :
  (n <= toy_fresh (mkToyWorld n (tw_sent w) fr ts cl st d wi))%nat.
Proof. unfold toy_fresh. simpl. induction (tw_sent w); simpl; lia. Qed.

#[export] Instance toy_tokio_laws : TokioLaws toy_tokio.
Proof.
  refine (Build_TokioLaws toy_tokio (fun c w => (c < toy_fresh w)%nat) toy_history tw_frames
    _ _ _ _ _ _ _ _ _ _ _ _ _); simpl.
  - intros n w tx rx w' [= <- <- <-]. split_and!; [lia | | by apply (toy_history_fresh _ w) | done].
    pose proof (toy_fresh_next w (S (toy_fresh w)) (tw_frames w) (tw_tasks w) (tw_closed w)
      (tw_stalled w) (tw_down w) (tw_wire w)). lia.
  - intros n w tx rx w' tx' [= <- <- <-] Hi. split; [| done].
    pose proof (toy_fresh_next w (S (toy_fresh w)) (tw_frames w) (tw_tasks w) (tw_closed w)
      (tw_stalled w) (tw_down w) (tw_wire w)). lia.
  - intros _ tx p w _. unfold toy_send. repeat case_decide; simpl; rewrite ?app_nil_r; try done.
    unfold toy_history at 1. simpl. rewrite <- toy_history_snoc. by rewrite decide_True.
  - intros _ tx p w tx' Hne. unfold toy_send. repeat case_decide; simpl; try done.
    unfold toy_history at 1. simpl. rewrite <- toy_history_snoc.
    rewrite decide_False by done. by rewrite app_nil_r.
  - intros _ tx p w tx' Hi. unfold toy_send. repeat case_decide; simpl; try done.
    eapply Nat.lt_le_trans; [exact Hi | by apply toy_fresh_snoc].
  - intros _ tx p w. unfold toy_send. by repeat case_decide.
  - intros f w. unfold toy_frame. destruct (tw_down w); simpl; by rewrite ?app_nil_r.
  - intros f w tx Hi. unfold toy_frame. by destruct (tw_down w).
  - done.
  - done.
  - intros n w Hn. unfold len. rewrite length_replicate. split; [lia |].
    apply Forall_replicate. uint.
  - done.
  - done.
Defined.
