(* ===== verification/Carrier.v ===== *)
(** * Carrier: the long-lived tunnel (src/carrier.rs)

    The shared state of one tunnel (stream registry, carrier handle, death flag
    and cause), the handle's and the registry's operations, the death
    protocol, and the wire writer and reader loops, over the abstract codec and
    runtime of [External]. Each loop runs over the list of wake-ups the runtime
    delivers to it; another task's interference (a kill) is one of them. The
    interleaving of the loops is the subject of [Lifecycle]. *)

From S2P Require Import Prelude Mux Records External.

(** ** Constants *)

Definition FRAME_CHANNEL_CAPACITY : nat := 256.

Definition INBOUND_CAPACITY : Z := 64.
Definition WRITE_TIMEOUT : Z := 10.
Definition KEEPALIVE_GRACE : Z := 2.
Definition MAX_CONSECUTIVE_BAD_RECORDS : Z := 8.
Definition STREAM_STALL_TIMEOUT : Z := 5.
Definition STREAM_WRITE_TIMEOUT : Z := 30.
Definition READ_BUF : Z := MAX_DATA.

(** ** Data *)

Inductive DeathCause : Type :=
| PeerClosed
| ReadErrorCause
| WriteError
| WireCorruption
| BadFrame
| KeepaliveTimeout
| Killed.

#[export] Instance DeathCause_eq_dec : EqDecision DeathCause.
Proof. solve_decision. Defined.

(** Which loop writes a "tunnel down" log line. *)
Inductive loop_name : Type :=
| WriterLoop
| ReaderLoop
| KeepaliveLoop.

(** The only error of the handle: "tunnel is down". *)
Inductive TunnelDown : Type := tunnel_is_down.

(** One "tunnel down" line: who, the shown peer, the cause, the streams closed. *)
Record death_line : Type := mkLine {
  line_who : loop_name;
  line_peer : list Z;
  line_cause : DeathCause;
  line_streams : nat;
}.

Section carrier.
Context {PC : PacketCodec} {TK : Tokio}.

(** The state of one [Tunnel] with its [CarrierHandle] and [StreamRegistry],
    the death lines logged so far, and the rest of the world. *)
Record Tunnel : Type := mkTunnel {
  next_id : Z;
  registry : gmap Z sender;
  dead : bool;
  pongs : Z;
  death_cause : option DeathCause;
  peer : list Z;
  logged : list death_line;
  env : world;
}.

Definition set_next_id (n : Z) (t : Tunnel) : Tunnel :=
  mkTunnel n (registry t) (dead t) (pongs t) (death_cause t) (peer t) (logged t) (env t).
Definition set_registry (r : gmap Z sender) (t : Tunnel) : Tunnel :=
  mkTunnel (next_id t) r (dead t) (pongs t) (death_cause t) (peer t) (logged t) (env t).
Definition set_dead (d : bool) (t : Tunnel) : Tunnel :=
  mkTunnel (next_id t) (registry t) d (pongs t) (death_cause t) (peer t) (logged t) (env t).
Definition set_pongs (n : Z) (t : Tunnel) : Tunnel :=
  mkTunnel (next_id t) (registry t) (dead t) n (death_cause t) (peer t) (logged t) (env t).
Definition set_cause (c : option DeathCause) (t : Tunnel) : Tunnel :=
  mkTunnel (next_id t) (registry t) (dead t) (pongs t) c (peer t) (logged t) (env t).
Definition set_logged (l : list death_line) (t : Tunnel) : Tunnel :=
  mkTunnel (next_id t) (registry t) (dead t) (pongs t) (death_cause t) (peer t) l (env t).
Definition set_env (w : world) (t : Tunnel) : Tunnel :=
  mkTunnel (next_id t) (registry t) (dead t) (pongs t) (death_cause t) (peer t) (logged t) w.

(** The tunnel [spawn_tunnel] creates, before its loops run, and the loops it
    spawns ([ping_secs = 0] disables keepalive). The frame channel itself
    ([frames_tx], [frames_rx]) is part of the world. *)
Definition spawn_tunnel (ping_secs : Z) (peer_addr : list Z) (w : world)
  : Tunnel * list loop_name :=
  (mkTunnel 1 ∅ false 0 None peer_addr [] w,
   [WriterLoop; ReaderLoop] ++ (if ping_secs >? 0 then [KeepaliveLoop] else [])).

(** ** Carrier handle *)

Definition alloc_id (t : Tunnel) : Z * Tunnel :=
  (next_id t, set_next_id (wrap 32 (next_id t + 1)) t).

Definition is_dead (t : Tunnel) : bool := dead t.

Definition send_frame (f : Frame) (t : Tunnel) : result TunnelDown unit * Tunnel :=
  let '(ok, w) := frames_send f (env t) in
  ((if ok then Ok tt else Err tunnel_is_down), set_env w t).

Definition open (id : Z) (t : Tunnel) : result TunnelDown unit * Tunnel :=
  send_frame (Open id) t.

(** The body of [send]: one DATA frame per chunk, stopping at the first error. *)
Fixpoint send_chunks (id : Z) (cs : list (list Z)) (t : Tunnel)
  : result TunnelDown unit * Tunnel :=
  match cs with
  | [] => (Ok tt, t)
  | c :: cs' =>
      match send_frame (Data id c) t with
      | (Ok _, t') => send_chunks id cs' t'
      | (Err e, t') => (Err e, t')
      end
  end.

Definition send (id : Z) (data : list Z) (t : Tunnel) : result TunnelDown unit * Tunnel :=
  send_chunks id (chunks (Z.to_nat MAX_DATA) data) t.

Definition close (id : Z) (t : Tunnel) : Tunnel := (send_frame (Close id) t).2.

Definition ping (t : Tunnel) : result TunnelDown unit * Tunnel :=
  let '(nonce, w) := random_bytes KEEPALIVE_LEN (env t) in
  send_frame (Ping nonce) (set_env w t).

(** ** Stream registry *)

Definition register (id : Z) (tx : sender) (t : Tunnel) : option sender * Tunnel :=
  (registry t !! id, set_registry (<[id := tx]> (registry t)) t).

Definition deliver (id : Z) (payload : list Z) (t : Tunnel) : bool * Tunnel :=
  match registry t !! id with
  | Some tx =>
      let '(o, w) := timeout_send STREAM_STALL_TIMEOUT tx payload (env t) in
      let t := set_env w t in
      match o with
      | Sent => (true, t)
      | Closed => (false, t)
      | Elapsed => (false, set_registry (delete id (registry t)) t)
      end
  | None => (false, t)
  end.

Definition remove (id : Z) (t : Tunnel) : option sender * Tunnel :=
  (registry t !! id, set_registry (delete id (registry t)) t).

Definition close_all (t : Tunnel) : Tunnel := set_registry ∅ t.

Definition registry_len (t : Tunnel) : nat := size (registry t).

(** ** Death *)

(** [if slot.is_none() { *slot = Some(cause) }]. *)
Definition record_cause (c : DeathCause) (t : Tunnel) : Tunnel :=
  match death_cause t with
  | None => set_cause (Some c) t
  | Some _ => t
  end.

Definition kill (t : Tunnel) : Tunnel := close_all (set_dead true (record_cause Killed t)).

Definition kill_with (c : DeathCause) (t : Tunnel) : Tunnel := kill (record_cause c t).

Definition log_tunnel_death (who : loop_name) (c : DeathCause) (t : Tunnel) : Tunnel :=
  match death_cause t with
  | Some _ => t
  | None =>
      let shown := match peer t with [] => [63] | p => p end in
      set_logged (logged t ++ [mkLine who shown c (registry_len t)]) t
  end.

(** ** Wire writer *)

(** What wakes the writer's [select!]: a frame (or the closed frame channel), or
    [dead.changed()], possibly after another task killed the tunnel. *)
Inductive writer_event : Type :=
| WvFrame (f : Frame)
| WvClosed
| WvDead (killer : option DeathCause).

Definition interfere (killer : option DeathCause) (t : Tunnel) : Tunnel :=
  match killer with
  | Some c => kill_with c t
  | None => t
  end.

(** The loop of [writer_loop] up to its break: the codec, the records written to
    the socket, and the cause it broke with ([None]: still waiting). [plain] is
    the reused plaintext buffer. *)
Fixpoint writer_run (evs : list writer_event) (plain : list Z) (c : codec) (t : Tunnel)
  : codec * list (list Z) * option DeathCause * Tunnel :=
  if dead t then (c, [], Some Killed, t) else
  match evs with
  | [] => (c, [], None, t)
  | WvClosed :: _ => (c, [], Some WriteError, t)
  | WvDead killer :: evs' =>
      let t := interfere killer t in
      if dead t then (c, [], Some Killed, t) else writer_run evs' plain c t
  | WvFrame f :: evs' =>
      let plain := encode_into f plain in
      match encrypt_packet c plain [] with
      | (Err _, c') => (c', [], Some WireCorruption, t)
      | (Ok record, c') =>
          match timeout_write WRITE_TIMEOUT record (env t) with
          | (Written, w) =>
              let '(c'', rs, cause, t') := writer_run evs' plain c' (set_env w t) in
              (c'', record :: rs, cause, t')
          | (WriteFailed, w) | (WriteElapsed, w) => (c', [], Some WriteError, set_env w t)
          end
      end
  end.

Definition loop_end (who : loop_name) (cause : option DeathCause) (t : Tunnel) : Tunnel :=
  match cause with
  | Some c => kill_with c (log_tunnel_death who c t)
  | None => t
  end.

Definition writer_loop (evs : list writer_event) (c : codec) (t : Tunnel)
  : list (list Z) * option DeathCause * Tunnel :=
  let '(_, rs, cause, t) := writer_run evs [] c t in (rs, cause, loop_end WriterLoop cause t).

(** ** Wire reader *)

(** The [match frame] of [reader_loop]. *)
Definition dispatch (f : Frame) (t : Tunnel) : Tunnel :=
  match f with
  | Open stream =>
      let '((inbound_tx, inbound_rx), w) := mpsc_channel INBOUND_CAPACITY (env t) in
      let t := set_env w t in
      let t := (register stream inbound_tx t).2 in
      set_env (spawn (TaskOnOpen stream inbound_rx) (env t)) t
  | Data stream payload =>
      let '(delivered, t) := deliver stream payload t in
      if delivered then t else close stream t
  | Close stream => (remove stream t).2
  | Ping nonce => (send_frame (Pong nonce) t).2
  | Pong _ => set_pongs (wrap 64 (pongs t + 1)) t
  end.

(** How an iteration ends: go on, break out with a cause, or a Rust panic. *)
Inductive flow : Type :=
| Continue
| Break (c : DeathCause)
| Panic.

(** One iteration of the inner loop on one record: the codec and [bad_streak]
    are the loop's variables. *)
Definition handle_record (record : list Z) (c : codec) (bad_streak : Z) (t : Tunnel)
  : codec * Z * flow * Tunnel :=
  match decrypt_packet c record with
  | (Err _, c) =>
      let bad_streak := bad_streak + 1 in
      if bad_streak >=? MAX_CONSECUTIVE_BAD_RECORDS
      then (c, bad_streak, Break WireCorruption, t) else (c, bad_streak, Continue, t)
  | (Ok plain, c) =>
      match decode plain with
      | Err _ =>
          let bad_streak := bad_streak + 1 in
          if bad_streak >=? MAX_CONSECUTIVE_BAD_RECORDS
          then (c, bad_streak, Break BadFrame, t) else (c, bad_streak, Continue, t)
      | Ok frame => (c, 0, Continue, dispatch frame t)
      end
  end.

(** The inner loop [while let Some(record) = records.take_record()]. *)
Fixpoint dispatch_buffered (fuel : nat) (records : RecordBuf) (c : codec) (bad_streak : Z)
  (t : Tunnel) : RecordBuf * codec * Z * flow * Tunnel :=
  match fuel with
  | O => (records, c, bad_streak, Continue, t)
  | S k =>
      match take_record records with
      | None => (records, c, bad_streak, Panic, t)
      | Some (None, records) => (records, c, bad_streak, Continue, t)
      | Some (Some record, records) =>
          match handle_record record c bad_streak t with
          | (c, bad_streak, Continue, t) => dispatch_buffered k records c bad_streak t
          | (c, bad_streak, fl, t) => (records, c, bad_streak, fl, t)
          end
      end
  end.

(** What wakes the reader's [select!]. *)
Inductive reader_event : Type :=
| EvRead (r : read_event unit)
| EvDead (killer : option DeathCause).

(** The reader's local variables. *)
Record reader : Type := mkReader {
  rd_records : RecordBuf;
  rd_codec : codec;
  rd_streak : Z;
}.

Definition reader_new (c : codec) : reader := mkReader RecordBuf_new c 0.

(** The inner loop with fuel for every buffered byte. *)
Definition reader_dispatch (r : reader) (t : Tunnel) : reader * flow * Tunnel :=
  let '(records, c, streak, fl, t) :=
    dispatch_buffered (S (length (rb_pending (rd_records r)))) (rd_records r) (rd_codec r)
      (rd_streak r) t in
  (mkReader records c streak, fl, t).

(** The loop ['tunnel] of [reader_loop] up to its break. [Continue] as the final
    flow means the reader is waiting in its [select!]. *)
Fixpoint reader_run (evs : list reader_event) (r : reader) (t : Tunnel)
  : reader * flow * Tunnel :=
  if dead t then (r, Break Killed, t) else
  match reader_dispatch r t with
  | (r, Continue, t) =>
      match evs with
      | [] => (r, Continue, t)
      | EvRead (ReadData chunk) :: evs' =>
          if (length chunk =? 0)%nat then (r, Break PeerClosed, t)
          else reader_run evs' (mkReader (push (rd_records r) chunk) (rd_codec r) (rd_streak r)) t
      | EvRead (ReadError _) :: _ => (r, Break ReadErrorCause, t)
      | EvDead killer :: evs' =>
          let t := interfere killer t in
          if dead t then (r, Break Killed, t) else reader_run evs' r t
      end
  | (r, fl, t) => (r, fl, t)
  end.

Definition flow_cause (fl : flow) : option DeathCause :=
  match fl with
  | Break c => Some c
  | Continue | Panic => None
  end.

Definition reader_loop (evs : list reader_event) (c : codec) (t : Tunnel) : flow * Tunnel :=
  let '(_, fl, t) := reader_run evs (reader_new c) t in
  (fl, loop_end ReaderLoop (flow_cause fl) t).

(** ** Specifications *)

(** [n] calls of [alloc_id]. *)
Fixpoint alloc_many (n : nat) (t : Tunnel) : list Z * Tunnel :=
  match n with
  | O => ([], t)
  | S k =>
      let '(id, t) := alloc_id t in
      let '(ids, t) := alloc_many k t in (id :: ids, t)
  end.

(** The frame channel takes all the frames of a list, in order. *)
Inductive accepted : list Frame -> world -> world -> Prop :=
| accepted_nil w : accepted [] w w
| accepted_cons f fs w w' w'' :
    frames_send f w = (true, w') -> accepted fs w' w'' -> accepted (f :: fs) w w''.

(** The consistency of the death flag with the recorded cause, and the ranges
    of the two atomic counters. *)
Definition tunnel_inv (t : Tunnel) : Prop :=
  (dead t = true <-> is_Some (death_cause t)) /\ is_uint 32 (next_id t) /\ is_uint 64 (pongs t).

(** The operations that may run on a shared tunnel. *)
Inductive tunnel_op : Type :=
| OpAlloc
| OpOpen (id : Z)
| OpSend (id : Z) (data : list Z)
| OpClose (id : Z)
| OpPing
| OpRegister (id : Z) (tx : sender)
| OpDeliver (id : Z) (payload : list Z)
| OpRemove (id : Z)
| OpKillWith (c : DeathCause)
| OpKill
| OpLog (who : loop_name) (c : DeathCause)
| OpDispatch (f : Frame).

Definition run_op (o : tunnel_op) (t : Tunnel) : Tunnel :=
  match o with
  | OpAlloc => (alloc_id t).2
  | OpOpen id => (open id t).2
  | OpSend id data => (send id data t).2
  | OpClose id => close id t
  | OpPing => (ping t).2
  | OpRegister id tx => (register id tx t).2
  | OpDeliver id payload => (deliver id payload t).2
  | OpRemove id => (remove id t).2
  | OpKillWith c => kill_with c t
  | OpKill => kill t
  | OpLog who c => log_tunnel_death who c t
  | OpDispatch f => dispatch f t
  end.

(** ** Frames *)

(** The handle's sends only touch the world. *)
Lemma send_frame_env f t :
  send_frame f t = ((if (frames_send f (env t)).1 then Ok tt else Err tunnel_is_down),
                    set_env (frames_send f (env t)).2 t).
Proof. unfold send_frame. by destruct (frames_send f (env t)). Qed.

Lemma set_env_env t : set_env (env t) t = t.
Proof. by destruct t. Qed.

Lemma set_env_set_env w w' t : set_env w (set_env w' t) = set_env w t.
Proof. done. Qed.

Lemma send_chunks_env id cs t : exists w, (send_chunks id cs t).2 = set_env w t.
Proof.
  revert t. induction cs as [| c cs IH]; intros t; simpl.
  - exists (env t). by rewrite set_env_env.
  - rewrite send_frame_env. destruct (frames_send (Data id c) (env t)) as [[] w]; simpl; [| eauto].
    destruct (IH (set_env w t)) as [w' ->]. by exists w'.
Qed.

Lemma send_chunks_spec id cs t :
  match send_chunks id cs t with
  | (Ok _, t') => accepted (Data id <$> cs) (env t) (env t')
  | (Err _, t') => exists pre c post w w', cs = pre ++ c :: post /\
      accepted (Data id <$> pre) (env t) w /\ frames_send (Data id c) w = (false, w') /\ env t' = w'
  end.
Proof.
  revert t. induction cs as [| c cs IH]; intros t; cbn [send_chunks fmap list_fmap].
  - constructor.
  - rewrite send_frame_env. destruct (frames_send (Data id c) (env t)) as [[] w] eqn:E; simpl.
    + specialize (IH (set_env w t)).
      destruct (send_chunks id cs (set_env w t)) as [[u | e] t'].
      * econstructor; [exact E | exact IH].
      * destruct IH as (pre & c' & post & w1 & w2 & -> & Ha & Hf & He).
        exists (c :: pre), c', post, w1, w2. split_and!; [done | | done | done].
        econstructor; [exact E | exact Ha].
    + exists [], c, cs, (env t), w. split_and!; [done | constructor | done | done].
Qed.

Lemma send_chunk_wf id data c :
  is_uint 32 id -> bytes_ok data -> In c (chunks (Z.to_nat MAX_DATA) data) -> wf_frame (Data id c).
Proof.
  intros Hid Hd Hc. simpl. split; [done |]. split.
  - rewrite <- (chunks_concat (Z.to_nat MAX_DATA) data) in Hd by (unfold MAX_DATA; lia).
    unfold bytes_ok in *. apply Forall_forall. intros b Hb. rewrite Forall_forall in Hd. apply Hd.
    apply list_elem_of_In, in_concat. exists c. split; [done |]. by apply list_elem_of_In.
  - pose proof (chunks_bound (Z.to_nat MAX_DATA) data) as Hb. rewrite List.Forall_forall in Hb.
    specialize (Hb ltac:(unfold MAX_DATA; lia) c Hc). unfold len, MAX_DATA in *. lia.
Qed.

(** ** Death *)

Lemma kill_with_dead c t : dead (kill_with c t) = true.
Proof. unfold kill_with, kill, record_cause. by destruct (death_cause t). Qed.

Lemma kill_with_cause c t :
  death_cause (kill_with c t) = Some (default c (death_cause t)).
Proof.
  unfold kill_with, kill, record_cause. destruct (death_cause t) eqn:E; simpl; by rewrite ?E.
Qed.

Lemma kill_with_registry c t : registry (kill_with c t) = ∅.
Proof. done. Qed.

Lemma kill_with_kept c t :
  next_id (kill_with c t) = next_id t /\ pongs (kill_with c t) = pongs t
  /\ logged (kill_with c t) = logged t /\ env (kill_with c t) = env t /\ peer (kill_with c t) = peer t.
Proof. unfold kill_with, kill, record_cause. destruct (death_cause t) eqn:E; simpl; by rewrite ?E. Qed.

Lemma kill_eq t : kill t = kill_with Killed t.
Proof. unfold kill_with, kill, record_cause. destruct (death_cause t) eqn:E; simpl; by rewrite ?E. Qed.

Lemma log_kept who c t :
  dead (log_tunnel_death who c t) = dead t /\ death_cause (log_tunnel_death who c t) = death_cause t
  /\ registry (log_tunnel_death who c t) = registry t /\ next_id (log_tunnel_death who c t) = next_id t
  /\ pongs (log_tunnel_death who c t) = pongs t /\ env (log_tunnel_death who c t) = env t.
Proof. unfold log_tunnel_death. by destruct (death_cause t) eqn:E. Qed.

(** ** Dispatch *)

(** Dispatching a frame never touches the death flag, the cause, the log or
    the id counter. *)
Lemma deliver_kept id p t :
  let t' := (deliver id p t).2 in
  dead t' = dead t /\ death_cause t' = death_cause t /\ next_id t' = next_id t
  /\ pongs t' = pongs t /\ logged t' = logged t.
Proof.
  unfold deliver. destruct (registry t !! id) as [tx |]; [| done].
  destruct (timeout_send STREAM_STALL_TIMEOUT tx p (env t)) as [[] w]; done.
Qed.

Lemma close_env id t : exists w, close id t = set_env w t.
Proof. unfold close. rewrite send_frame_env. simpl. eauto. Qed.

Lemma dispatch_kept f t :
  dead (dispatch f t) = dead t /\ death_cause (dispatch f t) = death_cause t
  /\ next_id (dispatch f t) = next_id t /\ logged (dispatch f t) = logged t.
Proof.
  destruct f as [s | s p | s | n | n]; simpl.
  - by destruct (mpsc_channel INBOUND_CAPACITY (env t)) as [[tx rx] w].
  - pose proof (deliver_kept s p t) as Hk. destruct (deliver s p t) as [[] t']; simpl in Hk.
    + destruct Hk as (? & ? & ? & ? & ?). auto.
    + destruct (close_env s t') as [w ->]. destruct Hk as (? & ? & ? & ? & ?). auto.
  - done.
  - by rewrite send_frame_env.
  - done.
Qed.

Lemma dispatch_pongs f t : is_uint 64 (pongs t) -> is_uint 64 (pongs (dispatch f t)).
Proof.
  intros Hp. destruct f as [s | s p | s | n | n]; simpl.
  - by destruct (mpsc_channel INBOUND_CAPACITY (env t)) as [[tx rx] w].
  - pose proof (deliver_kept s p t) as (_ & _ & _ & Hk & _).
    destruct (deliver s p t) as [[] t']; simpl in Hk; [by rewrite Hk |].
    destruct (close_env s t') as [w ->]. simpl. by rewrite Hk.
  - done.
  - by rewrite send_frame_env.
  - by apply wrap_range.
Qed.

(** Every operation keeps [tunnel_inv]. *)
Lemma set_env_inv w t : tunnel_inv t -> tunnel_inv (set_env w t).
Proof. done. Qed.

Lemma kill_with_inv c t : tunnel_inv t -> tunnel_inv (kill_with c t).
Proof.
  intros (Hd & Hn & Hp). destruct (kill_with_kept c t) as (Hn' & Hp' & _).
  unfold tunnel_inv. rewrite kill_with_dead, kill_with_cause, Hn', Hp'. split; [| done].
  split; [eauto | done].
Qed.

Lemma set_next_id_same t : set_next_id (next_id t) t = t.
Proof. by destruct t. Qed.

Lemma alloc_many_seq n t :
  is_uint 32 (next_id t) -> next_id t + Z.of_nat n <= 2 ^ 32 ->
  alloc_many n t = (seqZ (next_id t) (Z.of_nat n), set_next_id (wrap 32 (next_id t + Z.of_nat n)) t).
Proof.
  revert t. induction n as [| n IH]; intros t Ht Hn; cbn [alloc_many].
  - rewrite Z.add_0_r, wrap_small, set_next_id_same by done. done.
  - unfold alloc_id. rewrite seqZ_cons by lia.
    destruct (decide (n = 0%nat)) as [-> | Hz]; [done |].
    assert (wrap 32 (next_id t + 1) = next_id t + 1) as Hw by (apply wrap_small; uint).
    rewrite Hw, IH by (simpl; uint). simpl next_id.
    replace (next_id t + 1 + Z.of_nat n) with (next_id t + Z.of_nat (S n)) by lia.
    by replace (Z.pred (Z.of_nat (S n))) with (Z.of_nat n) by lia.
Qed.

(** ** Properties *)

(** Invariant of the shared state: a fresh tunnel
    satisfies [tunnel_inv] (it is marked dead exactly when a cause is recorded,
    the id counter is a [u32] and the PONG counter a [u64]), and every handle,
    registry, death and dispatch operation preserves it. *)
Theorem tunnel_inv_preserved ping_secs addr w :
  tunnel_inv (spawn_tunnel ping_secs addr w).1 /\
  forall o t, tunnel_inv t -> tunnel_inv (run_op o t).
Proof.
  split; [split_and!; [split; [discriminate | by intros [? [=]]] | simpl; uint ..] |].
  intros o t Ht. destruct o; simpl; auto using kill_with_inv.
  - destruct Ht as (Hd & Hn & Hp). split_and!; [apply Hd | apply wrap_range; lia | apply Hp].
  - unfold open. rewrite send_frame_env. exact Ht.
  - unfold send. by destruct (send_chunks_env id (chunks (Z.to_nat MAX_DATA) data) t) as [w' ->].
  - by destruct (close_env id t) as [w' ->].
  - unfold ping. destruct (random_bytes KEEPALIVE_LEN (env t)). rewrite send_frame_env. exact Ht.
  - unfold tunnel_inv. destruct (deliver_kept id payload t) as (-> & -> & -> & -> & _). exact Ht.
  - rewrite kill_eq. by apply kill_with_inv.
  - unfold tunnel_inv. destruct (log_kept who c t) as (-> & -> & _ & -> & -> & _). exact Ht.
  - destruct Ht as (Hd & Hn & Hp). unfold tunnel_inv.
    destruct (dispatch_kept f t) as (-> & -> & -> & _). auto using dispatch_pongs.
Qed.

(** Death: [kill_with] marks the tunnel dead, closes every
    stream and records the cause; it is idempotent, and the first cause wins
    over every later [kill_with] or [kill]. *)
Theorem kill_with_spec c t :
  dead (kill_with c t) = true /\ registry (kill_with c t) = ∅
  /\ death_cause (kill_with c t) = Some (default c (death_cause t))
  /\ (forall c', kill_with c' (kill_with c t) = kill_with c t) /\ kill (kill_with c t) = kill_with c t.
Proof.
  assert (forall c', kill_with c' (kill_with c t) = kill_with c t) as Hk.
  { intros c'. unfold kill_with, kill, record_cause.
    destruct (death_cause t) eqn:E; simpl; rewrite ?E; simpl; rewrite ?E; reflexivity. }
  split_and!; [apply kill_with_dead | done | apply kill_with_cause | done |].
  rewrite kill_eq. apply Hk.
Qed.

(** Stream ids: a fresh tunnel hands out 1, 2, 3, ... with
    no id repeated and 0 never used for the first 2^32 - 1 streams; then the
    counter wraps around to 0. *)
Theorem alloc_many_nodup n ping_secs addr w :
  Z.of_nat n < 2 ^ 32 ->
  let '(ids, t) := alloc_many n (spawn_tunnel ping_secs addr w).1 in
  ids = seqZ 1 (Z.of_nat n) /\ NoDup ids /\ (0 ∉ ids) /\ next_id t = wrap 32 (1 + Z.of_nat n).
Proof.
  intros Hn. rewrite alloc_many_seq by (simpl; uint). simpl next_id.
  split_and!; [done | apply NoDup_seqZ | rewrite elem_of_seqZ; lia | done].
Qed.

(** [CarrierHandle::send]: the data is cut into DATA frames of at
    most [MAX_DATA] bytes, each well formed, whose payloads concatenate to the
    data; on success the channel took all of them in order, on error it took a
    proper prefix and refused the next one. *)
Theorem send_spec id data t :
  is_uint 32 id -> bytes_ok data ->
  let frames := Data id <$> chunks (Z.to_nat MAX_DATA) data in
  concat (frame_payload <$> frames) = data /\ Forall wf_frame frames /\
  match send id data t with
  | (Ok _, t') => accepted frames (env t) (env t')
  | (Err _, t') => exists pre f post w,
      frames = pre ++ f :: post /\ accepted pre (env t) w /\ frames_send f w = (false, env t')
  end.
Proof.
  intros Hid Hd frames. split_and!.
  - assert (frame_payload <$> frames = chunks (Z.to_nat MAX_DATA) data) as ->.
    { unfold frames. rewrite <- list_fmap_compose. apply list_fmap_id. }
    apply chunks_concat. unfold MAX_DATA. lia.
  - apply Forall_fmap, List.Forall_forall. intros c Hc. by apply (send_chunk_wf id data).
  - unfold send. pose proof (send_chunks_spec id (chunks (Z.to_nat MAX_DATA) data) t) as Hs.
    destruct (send_chunks _ _ _) as [[u | e] t']; [done |].
    destruct Hs as (pre & c & post & w & w' & Hc & Ha & Hf & ->).
    exists (Data id <$> pre), (Data id c), (Data id <$> post), w.
    unfold frames. by rewrite Hc, fmap_app.
Qed.

(** [StreamRegistry::deliver], on every branch: an unknown stream takes
    nothing; a known one is offered the chunk once, with the stall timeout;
    only a stalled consumer loses its registration, and no other stream's
    registration ever changes. *)
Theorem deliver_spec id payload t :
  match registry t !! id with
  | None => deliver id payload t = (false, t)
  | Some tx =>
      let '(o, w) := timeout_send STREAM_STALL_TIMEOUT tx payload (env t) in
      (deliver id payload t).1 = bool_decide (o = Sent) /\
      env (deliver id payload t).2 = w /\
      registry (deliver id payload t).2 !! id = (if bool_decide (o = Elapsed) then None else Some tx) /\
      forall id', id' <> id -> registry (deliver id payload t).2 !! id' = registry t !! id'
  end.
Proof.
  unfold deliver. destruct (registry t !! id) as [tx |] eqn:E; [| done].
  destruct (timeout_send STREAM_STALL_TIMEOUT tx payload (env t)) as [[] w]; simpl;
    split_and!; try done.
  - apply lookup_delete_eq.
  - intros id' Hne. by apply lookup_delete_ne.
Qed.

(** [deliver] takes the registry's mutex twice, around the wait for the channel.
    What other tasks may do to the registry in between: register other streams
    (the ids of one tunnel differ, and the reader, which alone registers a
    peer's streams, is the one that waits), remove any, clear it. *)
Inductive registry_op : Type :=
| RegInsert (id : Z) (tx : sender)
| RegRemove (id : Z)
| RegClear.

Definition registry_run (ops : list registry_op) (m : gmap Z sender) : gmap Z sender :=
  foldl (fun m o => match o with
    | RegInsert id tx => <[id := tx]> m
    | RegRemove id => delete id m
    | RegClear => ∅
    end) m ops.

(** One step is enough: the removal after the wait leaves the registry that the
    removal before it would have left. *)
Lemma deliver_atomic id ops m :
  Forall (fun o => match o with RegInsert id' _ => id' <> id | _ => True end) ops ->
  delete id (registry_run ops m) = registry_run ops (delete id m).
Proof.
  unfold registry_run. intros Hops. revert m. induction Hops as [| o ops Ho _ IH]; intros m; [done |].
  simpl. rewrite IH. f_equal. destruct o as [id' tx | id' |].
  - by rewrite delete_insert_ne by done.
  - apply delete_delete.
  - apply delete_empty.
Qed.

End carrier.

(** ** Witnesses *)

Definition toy_tunnel : @Tunnel toy_tokio := (@spawn_tunnel toy_tokio 2 [] toy_world0).1.

Definition sure_tunnel : @Tunnel sure_tokio := (@spawn_tunnel sure_tokio 0 [] []).1.

Lemma tunnel_inv_preserved_witness :
  tunnel_inv toy_tunnel /\ tunnel_inv (run_op (@OpKillWith toy_tokio PeerClosed) toy_tunnel).
Proof.
  destruct (@tunnel_inv_preserved toy_tokio 2 [] toy_world0) as [H0 Hstep].
  split; [exact H0 | exact (Hstep _ _ H0)].
Defined.

Lemma alloc_many_nodup_witness :
  let '(ids, t) := alloc_many 3 toy_tunnel in
  ids = seqZ 1 3 /\ NoDup ids /\ (0 ∉ ids) /\ next_id t = wrap 32 (1 + 3).
Proof. apply (@alloc_many_nodup toy_tokio 3 2 [] toy_world0). reflexivity. Defined.

Lemma send_spec_witness :
  concat (frame_payload <$> (Data 1 <$> chunks (Z.to_nat MAX_DATA) [104; 105])) = [104; 105] /\
  Forall wf_frame (Data 1 <$> chunks (Z.to_nat MAX_DATA) [104; 105]) /\
  match send 1 [104; 105] toy_tunnel with
  | (Ok _, t') => accepted (Data 1 <$> chunks (Z.to_nat MAX_DATA) [104; 105]) (env toy_tunnel) (env t')
  | (Err _, t') => exists pre f post w,
      Data 1 <$> chunks (Z.to_nat MAX_DATA) [104; 105] = pre ++ f :: post /\
      accepted pre (env toy_tunnel) w /\ frames_send f w = (false, env t')
  end.
Proof.
  apply (send_spec 1 [104; 105] toy_tunnel).
  - split; [lia | reflexivity].
  - repeat constructor; cbv; congruence.
Defined.
