(* ===== verification/Transfer.v ===== *)
(** * Transfer: what crosses the wire (src/carrier.rs, writer and reader loops)

    The two loops of [Carrier] put together through the codec. The reader's
    tolerance of bad records is stated on the list of verdicts of the incoming
    records: the tunnel survives exactly when no eight consecutive records are
    bad. A wire on which genuine records may be lost and rejected ones injected
    still delivers every frame that got through, in order, for every split of
    the byte stream into socket reads; a stream's data sent through the handle
    arrives as the same bytes. *)

From S2P Require Import Prelude Mux Records External Carrier.

Section transfer.
Context {PC : PacketCodec} {TK : Tokio}.

(** ** Verdicts on incoming records *)

(** What the reader makes of one record: a frame, or the kind of badness. *)
Definition record_verdict (c : codec) (r : list Z) : result DeathCause Frame * codec :=
  match decrypt_packet c r with
  | (Err _, c') => (Err WireCorruption, c')
  | (Ok plain, c') =>
      (match decode plain with Ok f => Ok f | Err _ => Err BadFrame end, c')
  end.

Fixpoint verdicts (c : codec) (rs : list (list Z)) : list (result DeathCause Frame) :=
  match rs with
  | [] => []
  | r :: rs' => let '(v, c') := record_verdict c r in v :: verdicts c' rs'
  end.

Fixpoint codec_after (c : codec) (rs : list (list Z)) : codec :=
  match rs with
  | [] => c
  | r :: rs' => codec_after (record_verdict c r).2 rs'
  end.

(** The frames among the verdicts, and which verdicts are bad. *)
Definition goods (vs : list (result DeathCause Frame)) : list Frame :=
  omap (fun v => match v with Ok f => Some f | Err _ => None end) vs.

Definition bads (vs : list (result DeathCause Frame)) : list bool :=
  (fun v => negb (is_ok v)) <$> vs.

(** [n] consecutive bad records somewhere. *)
Definition has_run (n : nat) (bs : list bool) : Prop :=
  exists pre post, bs = pre ++ replicate n true ++ post.

(** The reader's streak counter on a list of verdicts: dispatch good frames,
    count bad ones, break at the eighth in a row. *)
Fixpoint judge (streak : Z) (vs : list (result DeathCause Frame)) (t : Tunnel)
  : Z * flow * Tunnel :=
  match vs with
  | [] => (streak, Continue, t)
  | Ok f :: vs' => judge 0 vs' (dispatch f t)
  | Err cause :: vs' =>
      if streak + 1 >=? MAX_CONSECUTIVE_BAD_RECORDS then (streak + 1, Break cause, t)
      else judge (streak + 1) vs' t
  end.

Definition dispatch_all (fs : list Frame) (t : Tunnel) : Tunnel :=
  fold_left (fun t f => dispatch f t) fs t.

(** Socket reads that each returned data. *)
Definition reads (cs : list (list Z)) : list reader_event :=
  (fun c => EvRead (ReadData c)) <$> cs.

(** ** A wire with losses and injections *)

Inductive wire_item : Type :=
| Pass (f : Frame)
| Lose (f : Frame)
| Inject (r : list Z).

Definition passed (items : list wire_item) : list Frame :=
  omap (fun i => match i with Pass f => Some f | _ => None end) items.

(** Which arriving records are injected; lost ones do not arrive. *)
Definition injected (items : list wire_item) : list bool :=
  omap (fun i => match i with Pass _ => Some false | Lose _ => None | Inject _ => Some true end)
    items.

(** [carried tx rx items rs]: the sender's codec [tx] encrypts the frames of
    [items], the records [rs] arrive at a receiver with codec [rx]; an injected
    record (noise, a corrupted or replayed record) is one the receiver's codec
    rejects at that point. *)
Inductive carried : codec -> codec -> list wire_item -> list (list Z) -> Prop :=
| carried_nil tx rx : carried tx rx [] []
| carried_pass tx rx f r tx' items rs :
    encrypt_packet tx (encode f) [] = (Ok r, tx') ->
    carried tx' (decrypt_packet rx r).2 items rs -> carried tx rx (Pass f :: items) (r :: rs)
| carried_lose tx rx f r tx' items rs :
    encrypt_packet tx (encode f) [] = (Ok r, tx') ->
    carried tx' rx items rs -> carried tx rx (Lose f :: items) rs
| carried_inject tx rx r e rx' items rs :
    is_record r -> decrypt_packet rx r = (Err e, rx') ->
    carried tx rx' items rs -> carried tx rx (Inject r :: items) (r :: rs).

(** The inbound channel of a stream takes all the chunks of a list. *)
Fixpoint send_all (tx : sender) (ps : list (list Z)) (w : world) : option world :=
  match ps with
  | [] => Some w
  | p :: ps' =>
      match timeout_send STREAM_STALL_TIMEOUT tx p w with
      | (Sent, w') => send_all tx ps' w'
      | _ => None
      end
  end.

(** The socket takes all the records of a list. *)
Fixpoint write_all (rs : list (list Z)) (w : world) : option world :=
  match rs with
  | [] => Some w
  | r :: rs' =>
      match timeout_write WRITE_TIMEOUT r w with
      | (Written, w') => write_all rs' w'
      | _ => None
      end
  end.

(** ** Runs of bad records *)

(** The counter as a function of the badness list. *)
Fixpoint reaches (k : Z) (bs : list bool) : bool :=
  match bs with
  | [] => false
  | true :: bs' => (k + 1 >=? MAX_CONSECUTIVE_BAD_RECORDS) || reaches (k + 1) bs'
  | false :: bs' => reaches 0 bs'
  end.

Lemma has_run_cons n b bs : has_run n bs -> has_run n (b :: bs).
Proof. intros (pre & post & ->). by exists (b :: pre), post. Qed.

Lemma has_run_app_l n bs bs' : has_run n bs' -> has_run n (bs ++ bs').
Proof. intros Hr. induction bs; simpl; auto using has_run_cons. Qed.

(** A run of [n] cannot reach over a good record that fewer than [n] precede. *)
Lemma has_run_break n k bs :
  (k < n)%nat -> has_run n (replicate k true ++ false :: bs) -> has_run n bs.
Proof.
  intros Hk (pre & post & Heq). symmetry in Heq.
  apply app_eq_inv in Heq as [(k1 & -> & Heq) | (k1 & Hrep & Heq)].
  - destruct k1 as [| b k1].
    + destruct n as [| n]; [lia |]. by simplify_eq/=.
    + simplify_eq/=. by exists k1, post.
  - apply (f_equal length) in Hrep as Hlen. rewrite length_replicate, length_app in Hlen.
    exfalso.
    assert ((replicate n true ++ post) !! length k1 = Some false) as Hl.
    { rewrite Heq. by rewrite lookup_app_r, Nat.sub_diag by lia. }
    rewrite lookup_app_l in Hl by (rewrite length_replicate; lia).
    apply lookup_replicate in Hl as [Hl _]. done.
Qed.

Lemma reaches_run k bs :
  (k < 8)%nat -> reaches (Z.of_nat k) bs = true <-> has_run 8 (replicate k true ++ bs).
Proof.
  revert k. induction bs as [| [] bs IH]; intros k Hk; cbn [reaches].
  - split; [done |]. intros (pre & post & Heq). apply (f_equal length) in Heq.
    rewrite !length_app, !length_replicate in Heq. simpl in Heq. lia.
  - replace (replicate k true ++ true :: bs) with (replicate (S k) true ++ bs)
      by (by rewrite replicate_S_end, <- app_assoc).
    unfold MAX_CONSECUTIVE_BAD_RECORDS. rewrite Z.geb_leb.
    destruct (Z.leb_spec 8 (Z.of_nat k + 1)) as [H8 | H8]; cbn [orb].
    + split; [| done]. intros _. exists [], bs. by replace (S k) with 8%nat by lia.
    + replace (Z.of_nat k + 1) with (Z.of_nat (S k)) by lia. apply IH. lia.
  - rewrite (IH 0%nat) by lia. simpl app. split.
    + intros Hr. by apply has_run_app_l, has_run_cons.
    + by apply has_run_break.
Qed.

(** ** The streak counter *)

Lemma judge_spec streak vs t :
  match judge streak vs t with
  | (_, Continue, t') => reaches streak (bads vs) = false /\ t' = dispatch_all (goods vs) t
  | (_, Break cause, _) =>
      reaches streak (bads vs) = true /\ exists i, vs !! i = Some (Err cause)
  | (_, Panic, _) => False
  end.
Proof.
  revert streak t. induction vs as [| [f | cause] vs IH]; intros streak t; simpl; [done | |].
  - specialize (IH 0 (dispatch f t)). destruct (judge 0 vs (dispatch f t)) as [[s' [| c |]] t'].
    + exact IH.
    + destruct IH as [Hr [i Hi]]. split; [done | by exists (S i)].
    + done.
  - destruct (streak + 1 >=? MAX_CONSECUTIVE_BAD_RECORDS); simpl; [split; [done | by exists 0%nat] |].
    specialize (IH (streak + 1) t). destruct (judge (streak + 1) vs t) as [[s' [| c |]] t'].
    + exact IH.
    + destruct IH as [Hr [i Hi]]. split; [done | by exists (S i)].
    + done.
Qed.

Lemma judge_app streak vs1 vs2 t :
  judge streak (vs1 ++ vs2) t =
    match judge streak vs1 t with
    | (s', Continue, t') => judge s' vs2 t'
    | out => out
    end.
Proof.
  revert streak t. induction vs1 as [| [f | cause] vs1 IH]; intros streak t; simpl; [done | |].
  - apply IH.
  - destruct (streak + 1 >=? MAX_CONSECUTIVE_BAD_RECORDS); [done | apply IH].
Qed.

Lemma verdicts_app c rs1 rs2 :
  verdicts c (rs1 ++ rs2) = verdicts c rs1 ++ verdicts (codec_after c rs1) rs2.
Proof.
  revert c. induction rs1 as [| r rs1 IH]; intros c; simpl; [done |].
  destruct (record_verdict c r) as [v c']. simpl. by rewrite IH.
Qed.

Lemma verdicts_cause c rs i cause :
  verdicts c rs !! i = Some (Err cause) -> cause = WireCorruption \/ cause = BadFrame.
Proof.
  revert c i. induction rs as [| r rs IH]; intros c i; simpl; [done |].
  destruct (record_verdict c r) as [v c'] eqn:E. destruct i as [| i]; simpl; [| apply IH].
  revert E. unfold record_verdict. destruct (decrypt_packet c r) as [[p | e] c1].
  - destruct (decode p); intros; simplify_eq; auto.
  - intros; simplify_eq; auto.
Qed.

Lemma handle_record_verdict r c streak t :
  handle_record r c streak t =
    match record_verdict c r with
    | (Ok f, c') => (c', 0, Continue, dispatch f t)
    | (Err cause, c') =>
        (c', streak + 1,
         if streak + 1 >=? MAX_CONSECUTIVE_BAD_RECORDS then Break cause else Continue, t)
    end.
Proof.
  unfold handle_record, record_verdict. destruct (decrypt_packet c r) as [[p | e] c'].
  - destruct (decode p) as [f | e]; [done |].
    by destruct (streak + 1 >=? MAX_CONSECUTIVE_BAD_RECORDS).
  - by destruct (streak + 1 >=? MAX_CONSECUTIVE_BAD_RECORDS).
Qed.

(** ** The reader's loops *)

(** The inner loop judges the records of the buffered bytes. *)
Lemma dispatch_buffered_spec fuel rb c streak t :
  rb_inv rb -> (length (rb_pending rb) < fuel)%nat ->
  let rs := (parse_records (rb_pending rb)).1 in
  exists rb' c', rb_inv rb' /\
    match judge streak (verdicts c rs) t with
    | (s', fl, t') =>
        dispatch_buffered fuel rb c streak t = (rb', c', s', fl, t') /\
        (fl = Continue -> rb_pending rb' = (parse_records (rb_pending rb)).2 /\ c' = codec_after c rs)
    end.
Proof.
  revert rb c streak t. induction fuel as [| k IH]; intros rb c streak t Hi Hf rs; [lia |].
  cbn [dispatch_buffered]. unfold rs.
  destruct (take_record_spec rb Hi) as ([r |] & rb' & -> & Hi' & Hr).
  - rewrite (parse_records_some _ _ _ Hr). cbn [fst snd verdicts codec_after].
    apply split_record_some in Hr as [Hs Hrl]. apply (f_equal length) in Hs.
    rewrite length_app in Hs. unfold HEADER in Hrl.
    rewrite handle_record_verdict. destruct (record_verdict c r) as [[f | cause] c'].
    + cbn [judge snd]. apply IH; [done | lia].
    + cbn [judge snd]. destruct (streak + 1 >=? MAX_CONSECUTIVE_BAD_RECORDS).
      * exists rb', c'. by split_and!.
      * apply IH; [done | lia].
  - destruct Hr as [Hn Hp]. rewrite (parse_records_none _ Hn). simpl. by exists rb', c.
Qed.

Lemma dispatch_all_dead fs t : dead (dispatch_all fs t) = dead t.
Proof.
  unfold dispatch_all. revert t. induction fs as [| f fs IH]; intros t; simpl; [done |].
  rewrite IH. apply dispatch_kept.
Qed.

(** The outer loop over reads judges the records of the whole stream, however
    it is split. *)
Lemma reader_run_reads cs r t :
  Forall (fun c => c <> []) cs -> rb_inv (rd_records r) -> dead t = false ->
  let rs := (parse_records (rb_pending (rd_records r) ++ concat cs)).1 in
  exists r', match judge (rd_streak r) (verdicts (rd_codec r) rs) t with
             | (_, fl, t') => reader_run (reads cs) r t = (r', fl, t')
             end.
Proof.
  intros Hcs. revert r t. induction Hcs as [| c cs Hc _ IH]; intros r t Hi Ht rs; unfold rs.
  all: destruct (dispatch_buffered_spec (S (length (rb_pending (rd_records r)))) (rd_records r)
    (rd_codec r) (rd_streak r) t Hi (Nat.lt_succ_diag_r _)) as (rb' & c' & Hi' & Hj).
  - cbn [concat reads fmap list_fmap reader_run]. rewrite app_nil_r, Ht. unfold reader_dispatch.
    destruct (judge _ _ t) as [[s' fl] t']. destruct Hj as [-> _].
    exists (mkReader rb' c' s'). by destruct fl.
  - cbn [concat reads fmap list_fmap reader_run]. rewrite Ht. unfold reader_dispatch.
    pose proof (parse_records_app (rb_pending (rd_records r)) (c ++ concat cs)) as Hpa.
    destruct (parse_records (rb_pending (rd_records r))) as [rs1 lft]. rewrite Hpa.
    cbn [fst snd] in *. rewrite verdicts_app, judge_app.
    pose proof (judge_spec (rd_streak r) (verdicts (rd_codec r) rs1) t) as Hjs.
    destruct (judge (rd_streak r) (verdicts (rd_codec r) rs1) t) as [[s' fl] t'].
    destruct Hj as [-> Hj]. destruct fl as [| cause |]; [| by exists (mkReader rb' c' s') | done].
    destruct (Hj eq_refl) as [Hp ->]. destruct Hjs as [_ ->].
    destruct (Nat.eqb_spec (length c) 0) as [H0 | H0]; [by apply nil_length_inv in H0 |].
    specialize (IH (mkReader (push rb' c) (codec_after (rd_codec r) rs1) s')
      (dispatch_all (goods (verdicts (rd_codec r) rs1)) t)).
    cbn [rd_records rd_codec rd_streak] in IH.
    rewrite push_pending, Hp, <- app_assoc in IH by done.
    apply IH; [by apply push_inv |]. by rewrite dispatch_all_dead.
Qed.

Lemma reader_run_new cs c t :
  Forall (fun c => c <> []) cs -> dead t = false ->
  exists r', match judge 0 (verdicts c (parse_records (concat cs)).1) t with
             | (_, fl, t') => reader_run (reads cs) (reader_new c) t = (r', fl, t')
             end.
Proof. intros Hcs Ht. exact (reader_run_reads cs (reader_new c) t Hcs RecordBuf_new_inv Ht). Qed.

Lemma judge_no_run vs t :
  ~ has_run 8 (bads vs) -> exists s, judge 0 vs t = (s, Continue, dispatch_all (goods vs) t).
Proof.
  intros Hn. pose proof (judge_spec 0 vs t) as Hj. destruct (judge 0 vs t) as [[s fl] t'].
  destruct fl as [| c |]; [destruct Hj as [_ ->]; by exists s | | done].
  destruct Hj as [Hr _]. by apply (reaches_run 0) in Hr; [| lia].
Qed.

Lemma judge_run vs t :
  has_run 8 (bads vs) -> exists s cause i t', judge 0 vs t = (s, Break cause, t') /\ vs !! i = Some (Err cause).
Proof.
  intros Hr. pose proof (judge_spec 0 vs t) as Hj. destruct (judge 0 vs t) as [[s fl] t'].
  destruct fl as [| c |]; [| destruct Hj as [_ [i Hi]]; by eauto 6 | done].
  destruct Hj as [Hf _]. apply (reaches_run 0) in Hr; [| lia]. change (Z.of_nat 0) with 0 in Hr. congruence.
Qed.

(** ** The wire *)

Lemma reader_dispatch_flow r t :
  rb_inv (rd_records r) ->
  exists r' fl t', reader_dispatch r t = (r', fl, t') /\ fl <> Panic /\ rb_inv (rd_records r').
Proof.
  intros Hi. unfold reader_dispatch.
  destruct (dispatch_buffered_spec (S (length (rb_pending (rd_records r)))) (rd_records r)
    (rd_codec r) (rd_streak r) t Hi (Nat.lt_succ_diag_r _)) as (rb' & c' & Hi' & Hj).
  pose proof (judge_spec (rd_streak r)
    (verdicts (rd_codec r) (parse_records (rb_pending (rd_records r))).1) t) as Hs.
  destruct (judge _ _ t) as [[s fl] t']. destruct Hj as [-> _].
  do 3 eexists. split_and!; [done | by intros -> | done].
Qed.

(** The writer's records are the frames' encryptions, in order. *)
Lemma writer_run_carried fs plain c rx t c' rs t' :
  writer_run (WvFrame <$> fs) plain c t = (c', rs, None, t') -> carried c rx (Pass <$> fs) rs.
Proof.
  revert plain c rx t rs. induction fs as [| f fs IH]; intros plain c rx t rs;
    cbn [fmap list_fmap writer_run]; (destruct (dead t); [done |]).
  - intros [= _ <- _]. constructor.
  - rewrite encode_into_encode.
    destruct (encrypt_packet c (encode f) []) as [[r | e] c1] eqn:He; [| done].
    destruct (timeout_write WRITE_TIMEOUT r (env t)) as [[] w]; try done.
    destruct (writer_run (WvFrame <$> fs) (encode f) c1 (set_env w t)) as [[[c2 rs2] cause] t2] eqn:Hw.
    intros [= -> <- -> ->]. eapply carried_pass; [exact He |]. by apply (IH _ _ _ _ _ Hw).
Qed.

(** The frames on a wire, lost or not. *)
Definition wire_frames (items : list wire_item) : list Frame :=
  omap (fun i => match i with Pass f | Lose f => Some f | Inject _ => None end) items.

Section laws.
Context {PL : PacketCodecLaws PC}.

Lemma carried_verdicts tx rx items rs :
  synced tx rx -> Forall wf_frame (wire_frames items) -> carried tx rx items rs ->
  Forall is_record rs /\ bads (verdicts rx rs) = injected items
  /\ goods (verdicts rx rs) = passed items.
Proof.
  intros Hs Hw Hc. revert Hs Hw.
  induction Hc as [tx rx | tx rx f r tx' items rs He Hc IH | tx rx f r tx' items rs He Hc IH
                  | tx rx r e rx' items rs Hr Hd Hc IH]; intros Hs Hw.
  - by split_and!.
  - apply Forall_cons in Hw as [Hf Hw].
    destruct (decrypt_encrypt _ _ _ _ _ Hs He) as (rx' & Hd & Hs'). rewrite Hd in IH.
    destruct (IH Hs' Hw) as (H1 & H2 & H3). split; [constructor; [by eapply encrypt_is_record | done] |].
    cbn [verdicts]. unfold record_verdict. rewrite Hd, decode_wf by done.
    simpl. rewrite <- H2, <- H3. by split.
  - apply Forall_cons in Hw as [Hf Hw]. apply IH; [by eapply encrypt_lost | done].
  - destruct (IH (decrypt_reject _ _ _ _ _ Hs Hd) Hw) as (H1 & H2 & H3).
    split; [by constructor |]. cbn [verdicts]. unfold record_verdict. rewrite Hd.
    simpl. rewrite <- H2, <- H3. by split.
Qed.

(** What [carried] means for the reader. *)
Lemma reader_carried tx rx items rs cs t :
  synced tx rx -> Forall wf_frame (wire_frames items) -> carried tx rx items rs ->
  ~ has_run 8 (injected items) -> Forall (fun c => c <> []) cs -> concat cs = concat rs ->
  dead t = false ->
  exists r', reader_run (reads cs) (reader_new rx) t = (r', Continue, dispatch_all (passed items) t).
Proof.
  intros Hs Hw Hc Hn Hcs Heq Ht. destruct (carried_verdicts _ _ _ _ Hs Hw Hc) as (Hr & Hb & Hg).
  destruct (reader_run_new cs rx t Hcs Ht) as [r' Hrun].
  rewrite Heq in Hrun. pose proof (parse_records_of_records rs [] Hr) as Hp.
  rewrite app_nil_r in Hp. rewrite Hp in Hrun. cbn [fst parse_records parse_fuel length] in Hrun.
  rewrite app_nil_r in Hrun. rewrite <- Hb in Hn.
  destruct (judge_no_run _ t Hn) as [s Hj]. rewrite Hj, Hg in Hrun. by exists r'.
Qed.

(** (C3) Transfer over a bad network: whatever records the wire
    loses and whatever rejected records it injects, as long as it never injects
    eight in a row, the reader dispatches exactly the frames that got through,
    in order, for every split of the byte stream into reads, and keeps
    running. *)
Theorem tunnel_transfer tx rx items rs cs t :
  synced tx rx -> Forall wf_frame (wire_frames items) -> carried tx rx items rs ->
  ~ has_run 8 (injected items) -> Forall (fun c => c <> []) cs -> concat cs = concat rs ->
  dead t = false ->
  exists r', reader_run (reads cs) (reader_new rx) t = (r', Continue, dispatch_all (passed items) t).
Proof. apply reader_carried. Qed.

End laws.

(** ** Properties *)

(** (C15) Tolerance of bad records, and its bound: over any split of the
    stream into reads, the reader keeps running, having dispatched exactly the
    good frames in order, if no eight consecutive records were bad
    (undecryptable or malformed); if eight were, it breaks out with the cause
    [WireCorruption] or [BadFrame]. The comments on [Frame::decode] (mux.rs) and
    on [reader_loop] (carrier.rs) say that a single bad record kills the tunnel;
    those inside the loop and on [MAX_CONSECUTIVE_BAD_RECORDS] say what the code
    does. *)
Theorem reader_tolerance c cs t :
  Forall (fun c => c <> []) cs -> dead t = false ->
  let vs := verdicts c (parse_records (concat cs)).1 in
  (~ has_run 8 (bads vs) -> exists r',
     reader_run (reads cs) (reader_new c) t = (r', Continue, dispatch_all (goods vs) t)) /\
  (has_run 8 (bads vs) -> exists r' cause t',
     reader_run (reads cs) (reader_new c) t = (r', Break cause, t') /\
     (cause = WireCorruption \/ cause = BadFrame)).
Proof.
  intros Hcs Ht vs. destruct (reader_run_new cs c t Hcs Ht) as [r' Hrun]. fold vs in Hrun.
  split; intros Hr.
  - destruct (judge_no_run vs t Hr) as [s Hj]. rewrite Hj in Hrun. by exists r'.
  - destruct (judge_run vs t Hr) as (s & cause & i & t' & Hj & Hi). rewrite Hj in Hrun.
    apply verdicts_cause in Hi. by eauto.
Qed.

(** How [reader_loop] may be found: waiting, or ended with the tunnel dead and
    every stream closed; never in a panic. *)
Definition reader_end (r : flow * Tunnel) : Prop :=
  match r with
  | (Continue, _) => True
  | (Break _, t) => dead t = true /\ registry t = ∅
  | (Panic, _) => False
  end.

(** (C40) The reader never panics and never leaves a half-dead tunnel: on any
    sequence of reads, errors and death notifications no index, slice or
    subtraction of the record buffer goes out of range, and when the loop ends
    the tunnel is dead and all its streams are closed. *)
Theorem reader_no_panic evs c t : reader_end (reader_loop evs c t).
Proof.
  unfold reader_loop.
  enough (forall r t, rb_inv (rd_records r) ->
            match reader_run evs r t with (_, fl, _) => fl <> Panic end) as Hgen.
  { specialize (Hgen (reader_new c) t RecordBuf_new_inv).
    destruct (reader_run evs (reader_new c) t) as [[r' fl] t']. destruct fl; simpl; [done | | done].
    by split. }
  clear c t. induction evs as [| ev evs IH]; intros r t Hi; cbn [reader_run];
    (destruct (dead t); [done |]);
    destruct (reader_dispatch_flow r t Hi) as (r' & fl & t' & -> & Hfl & Hi');
    (destruct fl; [| done | done]); [done |].
  destruct ev as [[bs | e] | killer].
  - destruct (length bs =? 0)%nat; [done |]. apply IH. by apply push_inv.
  - done.
  - destruct (dead (interfere killer t')); [done |]. by apply IH.
Qed.

(** Death fan-out: when either wire loop ends with a cause, the
    tunnel is dead, every stream is closed, the first cause is kept, and the
    "tunnel down" line is written iff no cause was recorded before, with the
    number of streams it closes; a second loop ending later changes nothing and
    writes no second line. *)
Theorem loop_end_spec who cause t :
  let t' := loop_end who (Some cause) t in
  dead t' = true /\ registry t' = ∅ /\ death_cause t' = Some (default cause (death_cause t)) /\
  logged t' = logged t ++ (match death_cause t with
                           | Some _ => []
                           | None => [mkLine who (match peer t with [] => [63] | p => p end)
                                        cause (size (registry t))]
                           end) /\
  forall who' cause', loop_end who' (Some cause') t' = t'.
Proof.
  intros t'. unfold t', loop_end.
  destruct (log_kept who cause t) as (_ & Hc & _). destruct (kill_with_kept cause (log_tunnel_death who cause t)) as (_ & _ & Hl & _).
  rewrite kill_with_dead, kill_with_cause, Hc, Hl. split_and!; try done.
  - unfold log_tunnel_death, registry_len. destruct (death_cause t); [by rewrite app_nil_r | done].
  - intros who' cause'. unfold log_tunnel_death at 1. rewrite kill_with_cause.
    unfold kill_with, kill, record_cause, log_tunnel_death.
    destruct (death_cause t) eqn:E; simpl; rewrite ?E; simpl; rewrite ?E; reflexivity.
Qed.

(** Dispatching the DATA frames of one stream offers its chunks to the stream's
    channel, one after the other. *)
Lemma dispatch_data id tx ps t w :
  registry t !! id = Some tx -> send_all tx ps (env t) = Some w ->
  dispatch_all (Data id <$> ps) t = set_env w t.
Proof.
  revert t. induction ps as [| p ps IH]; intros t Hr; simpl.
  - intros [= <-]. by rewrite set_env_env.
  - unfold deliver. rewrite Hr.
    destruct (timeout_send STREAM_STALL_TIMEOUT tx p (env t)) as [[] w']; try done.
    intros Hs. by apply (IH (set_env w' t)).
Qed.

Lemma passed_pass fs : passed (Pass <$> fs) = fs.
Proof. induction fs as [| f fs IH]; [done |]. cbn. f_equal. exact IH. Qed.

Lemma wire_frames_pass fs : wire_frames (Pass <$> fs) = fs.
Proof. induction fs as [| f fs IH]; [done |]. cbn. f_equal. exact IH. Qed.

Lemma injected_pass fs : ~ has_run 8 (injected (Pass <$> fs)).
Proof.
  intros (pre & post & Heq).
  assert (Forall (eq false) (injected (Pass <$> fs))) as Hf.
  { clear Heq. induction fs; [constructor | by constructor]. }
  rewrite Heq in Hf. apply Forall_app in Hf as [_ Hf]. apply Forall_app in Hf as [Hf _].
  by inversion Hf.
Qed.

Section guarantees.
Context {PL : PacketCodecLaws PC}.

(** A healthy wire: the reader dispatches exactly the frames written. *)
Lemma written_dispatched fs txc rxc c' rs tS tS' cs tR :
  synced txc rxc -> Forall wf_frame fs ->
  writer_run (WvFrame <$> fs) [] txc tS = (c', rs, None, tS') ->
  Forall (fun c => c <> []) cs -> concat cs = concat rs -> dead tR = false ->
  exists r', reader_run (reads cs) (reader_new rxc) tR = (r', Continue, dispatch_all fs tR).
Proof.
  intros Hs Hf Hw Hcs Heq Ht. pose proof (writer_run_carried _ _ _ rxc _ _ _ _ Hw) as Hc.
  rewrite <- (wire_frames_pass fs) in Hf.
  destruct (reader_carried txc rxc (Pass <$> fs) rs cs tR) as [r' Hrun]; try done; [apply injected_pass |].
  exists r'. by rewrite Hrun, passed_pass.
Qed.

(** End-to-end transfer of a stream: data handed to [send] is cut
    into DATA frames; once the writer has written them, a synced reader that
    reads those bytes in any split offers the stream's inbound channel exactly
    chunks that concatenate to the data, and nothing else on that side changes. *)
Theorem stream_transfer id data txc rxc c' rs tS tS' cs tR snd w :
  synced txc rxc -> is_uint 32 id -> bytes_ok data ->
  let ps := chunks (Z.to_nat MAX_DATA) data in
  writer_run (WvFrame <$> (Data id <$> ps)) [] txc tS = (c', rs, None, tS') ->
  Forall (fun c => c <> []) cs -> concat cs = concat rs ->
  dead tR = false -> registry tR !! id = Some snd -> send_all snd ps (env tR) = Some w ->
  concat ps = data /\
  exists r', reader_run (reads cs) (reader_new rxc) tR = (r', Continue, set_env w tR).
Proof.
  intros Hs Hid Hd ps Hw Hcs Heq Ht Hr Hsend.
  split; [apply chunks_concat; unfold MAX_DATA; lia |].
  destruct (written_dispatched (Data id <$> ps) txc rxc c' rs tS tS' cs tR) as [r' Hrun]; try done.
  - apply Forall_fmap, List.Forall_forall. intros c Hin. by apply (send_chunk_wf id data).
  - exists r'. by rewrite Hrun, (dispatch_data _ snd _ _ w).
Qed.

(** The writer never gives up on a healthy tunnel: if the frames are
    well formed and the socket accepts every record in time, all of them are
    encrypted and written, in order, and the writer goes back to waiting. *)
Theorem writer_total fs c t :
  Forall wf_frame fs -> dead t = false ->
  (forall r w, (timeout_write WRITE_TIMEOUT r w).1 = Written) ->
  exists c' rs w', writer_run (WvFrame <$> fs) [] c t = (c', rs, None, set_env w' t) /\
    length rs = length fs /\ carried c c (Pass <$> fs) rs /\ write_all rs (env t) = Some w'.
Proof using PC PL TK.
  intros Hf Ht Hok. generalize (@nil Z). intros plain. 
  enough (exists c' rs w', writer_run (WvFrame <$> fs) plain c t = (c', rs, None, set_env w' t) /\
    length rs = length fs /\ write_all rs (env t) = Some w') as (c' & rs & w' & Hw & Hl & Hwr).
  { exists c', rs, w'. split_and!; try done. by eapply writer_run_carried. }
  revert plain c t Ht. induction Hf as [| f fs Hf _ IH]; intros plain c t Ht;
    cbn [fmap list_fmap writer_run]; rewrite Ht.
  - exists c, [], (env t). by rewrite set_env_env.
  - rewrite encode_into_encode. destruct (encrypt_fits c (encode f)) as (r & c1 & He).
    { rewrite encode_len. pose proof (wf_frame_payload_len f Hf). lia. }
    rewrite He. specialize (Hok r (env t)).
    destruct (timeout_write WRITE_TIMEOUT r (env t)) as [o w] eqn:Hto. simpl in Hok. subst o.
    destruct (IH (encode f) c1 (set_env w t) Ht) as (c' & rs & w' & -> & Hl & Hwr).
    exists c', (r :: rs), w'. split_and!; [done | simpl; lia |]. simpl. by rewrite Hto.
Qed.

End guarantees.

End transfer.

(** ** Witnesses *)

(** One DATA frame lost, one noise record injected, an OPEN that gets through. *)
Definition toy_rec (f : Frame) : list Z :=
  match toy_encrypt (encode f) with Ok r => r | Err _ => [] end.
Definition toy_noise : list Z := [23; 3; 3; 0; 1; 0].
Definition toy_items : list wire_item := [Lose (Data 1 [9]); Inject toy_noise; Pass (Open 1)].

Lemma toy_carried :
  @carried toy_codec tt tt toy_items [toy_noise; toy_rec (Open 1)].
Proof.
  eapply carried_lose; [reflexivity |].
  eapply carried_inject; [| reflexivity |].
  - split; [cbv; lia | reflexivity].
  - eapply carried_pass; [reflexivity |]. constructor.
Defined.

Lemma tunnel_transfer_witness :
  exists r', @reader_run toy_codec toy_tokio (reads [[23; 3]; [3; 0; 1; 0] ++ toy_rec (Open 1)])
      (@reader_new toy_codec tt) toy_tunnel
    = (r', Continue, dispatch_all (passed toy_items) toy_tunnel).
Proof.
  apply (@tunnel_transfer toy_codec toy_tokio toy_codec_laws tt tt toy_items
    [toy_noise; toy_rec (Open 1)]).
  - exact I.
  - repeat constructor; cbv; congruence.
  - exact toy_carried.
  - intros (pre & post & Heq). apply (f_equal length) in Heq.
    rewrite !length_app, length_replicate in Heq. simpl in Heq. lia.
  - repeat constructor; discriminate.
  - reflexivity.
  - reflexivity.
Defined.

Lemma reader_tolerance_witness :
  let vs := verdicts (PC := toy_codec) tt (parse_records (concat [toy_noise; toy_rec (Open 1)])).1 in
  (~ has_run 8 (bads vs) -> exists r',
     @reader_run toy_codec toy_tokio (reads [toy_noise; toy_rec (Open 1)]) (@reader_new toy_codec tt)
       toy_tunnel = (r', Continue, dispatch_all (goods vs) toy_tunnel)) /\
  (has_run 8 (bads vs) -> exists r' cause t',
     @reader_run toy_codec toy_tokio (reads [toy_noise; toy_rec (Open 1)]) (@reader_new toy_codec tt)
       toy_tunnel = (r', Break cause, t') /\ (cause = WireCorruption \/ cause = BadFrame)).
Proof.
  apply (@reader_tolerance toy_codec toy_tokio tt [toy_noise; toy_rec (Open 1)] toy_tunnel).
  - repeat constructor; discriminate.
  - reflexivity.
Defined.

Definition toy_open_tunnel : @Tunnel toy_tokio := set_registry {[ 1 := 0%nat ]} toy_tunnel.

Lemma stream_transfer_witness :
  concat (chunks (Z.to_nat MAX_DATA) [104; 105]) = [104; 105] /\
  exists r', @reader_run toy_codec toy_tokio (reads [toy_rec (Data 1 [104; 105])])
      (@reader_new toy_codec tt) toy_open_tunnel
    = (r', Continue, set_env (mkToyWorld 0 [(0%nat, [104; 105])] [] [] [] [] false []) toy_open_tunnel).
Proof.
  eapply (@stream_transfer toy_codec toy_tokio toy_codec_laws 1 [104; 105] tt tt tt
    [toy_rec (Data 1 [104; 105])] toy_tunnel _ [toy_rec (Data 1 [104; 105])] toy_open_tunnel 0%nat).
  - exact I.
  - split; [lia | reflexivity].
  - repeat constructor; cbv; congruence.
  - vm_compute. reflexivity.
  - repeat constructor; discriminate.
  - reflexivity.
  - reflexivity.
  - reflexivity.
  - vm_compute. reflexivity.
Defined.

Lemma writer_total_witness :
  exists c' rs w',
    @writer_run toy_codec sure_tokio (WvFrame <$> [Open 1; Close 1]) [] tt sure_tunnel
      = (c', rs, None, set_env w' sure_tunnel) /\
    length rs = length [Open 1; Close 1] /\ @carried toy_codec tt tt (Pass <$> [Open 1; Close 1]) rs /\
    write_all rs (env sure_tunnel) = Some w'.
Proof.
  apply (@writer_total toy_codec sure_tokio toy_codec_laws [Open 1; Close 1] tt sure_tunnel).
  - repeat constructor; cbv; congruence.
  - reflexivity.
  - reflexivity.
Defined.
