(* ===== verification/Demux.v ===== *)
(** * Demux: many streams on one tunnel (reader_loop's match and StreamRegistry of src/carrier.rs)

    What the reader's dispatch promises about the streams that share a tunnel,
    over the documented behaviour of tokio's channels ([TokioLaws]). The
    specification is a map from the open streams to the chunks their channels
    have taken, with the replies owed to the peer; [abs] reads that map off a
    tunnel, and [dispatch] commutes with it. On the specification a stream's
    queue is a function of its own frames, so no stream can lose, gain or
    reorder bytes because of another one; put together with the wire of
    [Transfer], every stream of an arbitrary interleaving arrives whole. *)

From S2P Require Import Prelude Mux Records External Carrier Transfer.

(** ** Specification *)

(** The open streams with the chunks queued on each since it was opened, the
    frames queued for the peer, the PONGs counted. *)
Record demux : Type := mkDemux {
  open_streams : gmap Z (list (list Z));
  replies : list Frame;
  pong_count : Z;
}.

(** What the outside decides while a frame is dispatched: how the stream's
    channel takes the chunk, and whether the frame channel takes the reply. *)
Record answer : Type := mkAnswer {
  an_send : send_outcome;
  an_reply : bool;
}.

Definition reply (f : Frame) (o : answer) (a : demux) : demux :=
  mkDemux (open_streams a) (replies a ++ (if an_reply o then [f] else [])) (pong_count a).

Definition set_streams (m : gmap Z (list (list Z))) (a : demux) : demux :=
  mkDemux m (replies a) (pong_count a).

Definition demux_step (o : answer) (f : Frame) (a : demux) : demux :=
  match f with
  | Open id => set_streams (<[id := []]> (open_streams a)) a
  | Data id p =>
      match open_streams a !! id with
      | None => reply (Close id) o a
      | Some q =>
          match an_send o with
          | Sent => set_streams (<[id := q ++ [p]]> (open_streams a)) a
          | Closed => reply (Close id) o a
          | Elapsed => reply (Close id) o (set_streams (delete id (open_streams a)) a)
          end
      end
  | Close id => set_streams (delete id (open_streams a)) a
  | Ping n => reply (Pong n) o a
  | Pong _ => mkDemux (open_streams a) (replies a) (wrap 64 (pong_count a + 1))
  end.

Fixpoint demux_run (ofs : list (answer * Frame)) (a : demux) : demux :=
  match ofs with
  | [] => a
  | (o, f) :: ofs => demux_run ofs (demux_step o f a)
  end.

(** One stream alone: closed, or open with its queue. *)
Definition stream_step (o : send_outcome) (f : Frame) (q : option (list (list Z)))
  : option (list (list Z)) :=
  match f, q with
  | Open _, _ => Some []
  | Data _ p, Some q =>
      match o with
      | Sent => Some (q ++ [p])
      | Closed => Some q
      | Elapsed => None
      end
  | Close _, _ => None
  | _, q => q
  end.

Fixpoint stream_run (ofs : list (answer * Frame)) (q : option (list (list Z)))
  : option (list (list Z)) :=
  match ofs with
  | [] => q
  | (o, f) :: ofs => stream_run ofs (stream_step (an_send o) f q)
  end.

(** A frame of stream [id]; PING and PONG belong to none. *)
Definition own_frame (id : Z) (f : Frame) : bool :=
  match f with
  | Open s | Data s _ | Close s => s =? id
  | Ping _ | Pong _ => false
  end.

Definition own (id : Z) (ofs : list (answer * Frame)) : list (answer * Frame) :=
  filter (fun e => own_frame id e.2 = true) ofs.

(** On the specification a stream's queue depends on its own frames only. *)
Lemma demux_step_other id o f a :
  own_frame id f = false -> open_streams (demux_step o f a) !! id = open_streams a !! id.
Proof.
  destruct f as [s | s p | s | n | n]; simpl; intros Hf; try done; apply Z.eqb_neq in Hf.
  - by rewrite lookup_insert_ne.
  - destruct (open_streams a !! s) as [q |]; [| done].
    destruct (an_send o); simpl; [by rewrite lookup_insert_ne | done | by rewrite lookup_delete_ne].
  - by rewrite lookup_delete_ne.
Qed.

Lemma demux_step_own id o f a :
  own_frame id f = true ->
  open_streams (demux_step o f a) !! id = stream_step (an_send o) f (open_streams a !! id).
Proof.
  destruct f as [s | s p | s | n | n]; simpl; intros Hf; try done; apply Z.eqb_eq in Hf as ->.
  - by rewrite lookup_insert_eq.
  - destruct (open_streams a !! id) as [q |] eqn:E; simpl; [| by rewrite E].
    destruct (an_send o); simpl; [by rewrite lookup_insert_eq | by rewrite E | by rewrite lookup_delete_eq].
  - by rewrite lookup_delete_eq.
Qed.

Lemma demux_run_stream id ofs a :
  open_streams (demux_run ofs a) !! id = stream_run (own id ofs) (open_streams a !! id).
Proof.
  revert a. induction ofs as [| [o f] ofs IH]; intros a; [done |]. cbn [demux_run]. rewrite IH.
  unfold own. rewrite filter_cons. cbn [snd]. destruct (own_frame id f) eqn:E.
  - rewrite decide_True by done. cbn [stream_run]. by rewrite demux_step_own.
  - rewrite decide_False by done. by rewrite demux_step_other.
Qed.

Section demux.
Context {PC : PacketCodec} {TK : Tokio} {TL : TokioLaws TK}.

(** ** Refinement *)

(** The demux state a tunnel stands for. *)
Definition abs (t : Tunnel) : demux :=
  mkDemux ((fun tx => history tx (env t)) <$> registry t) (queued (env t)) (pongs t).

(** Registered senders belong to existing channels, one per stream. *)
Definition channels_ok (t : Tunnel) : Prop :=
  (forall id tx, registry t !! id = Some tx -> issued tx (env t)) /\
  (forall id id' tx, registry t !! id = Some tx -> registry t !! id' = Some tx -> id = id').

(** What the runtime answers while [dispatch f t] runs. *)
Definition answer_at (f : Frame) (t : Tunnel) : answer :=
  match f with
  | Data id p =>
      match registry t !! id with
      | Some tx =>
          let '(o, w) := timeout_send STREAM_STALL_TIMEOUT tx p (env t) in
          mkAnswer o (frames_send (Close id) w).1
      | None => mkAnswer Closed (frames_send (Close id) (env t)).1
      end
  | Ping n => mkAnswer Closed (frames_send (Pong n) (env t)).1
  | _ => mkAnswer Closed true
  end.

(** The frames of a run with the answers each met. *)
Fixpoint answered (fs : list Frame) (t : Tunnel) : list (answer * Frame) :=
  match fs with
  | [] => []
  | f :: fs => (answer_at f t, f) :: answered fs (dispatch f t)
  end.

(** Operations that keep every existing channel as it is. *)
Definition channels_kept (w w' : world) : Prop :=
  forall tx, issued tx w -> issued tx w' /\ history tx w' = history tx w.

Lemma frames_kept f w : channels_kept w (frames_send f w).2.
Proof. intros tx. apply frames_channels. Qed.

Lemma spawn_kept k w : channels_kept w (spawn k w).
Proof. intros tx. apply spawn_channels. Qed.

Lemma channels_ok_env w t : channels_kept (env t) w -> channels_ok t -> channels_ok (set_env w t).
Proof. intros Hk [Hi Hj]. split; [| exact Hj]. intros id tx Hr. by apply Hk, (Hi id). Qed.

Lemma abs_env w t :
  channels_kept (env t) w -> channels_ok t ->
  abs (set_env w t) = mkDemux (open_streams (abs t)) (queued w) (pongs t).
Proof.
  intros Hk [Hi _]. unfold abs. simpl. f_equal. apply map_fmap_ext. intros id tx Hr.
  by apply Hk, (Hi id).
Qed.

Lemma channels_ok_delete id t : channels_ok t -> channels_ok (set_registry (delete id (registry t)) t).
Proof.
  intros [Hi Hj]. split; simpl.
  - intros id' tx [_ Hr]%lookup_delete_Some. by apply (Hi id').
  - intros i j tx [_ H1]%lookup_delete_Some [_ H2]%lookup_delete_Some. by apply (Hj i j tx).
Qed.

Lemma abs_delete id t :
  abs (set_registry (delete id (registry t)) t) = set_streams (delete id (open_streams (abs t))) (abs t).
Proof. unfold abs, set_streams. simpl. by rewrite fmap_delete. Qed.

(** Queueing a reply. *)
Lemma send_reply f t :
  channels_ok t ->
  channels_ok (send_frame f t).2 /\
  forall o, an_reply o = (frames_send f (env t)).1 -> abs (send_frame f t).2 = reply f o (abs t).
Proof.
  intros Hc. rewrite send_frame_env. simpl. split; [by apply channels_ok_env, Hc; apply frames_kept |].
  intros o Ho. rewrite abs_env by (apply frames_kept || done). unfold reply. rewrite Ho.
  simpl. by rewrite frames_queued.
Qed.

(** Registering the sender of a new channel. *)
Lemma register_new n id t tx rx w :
  mpsc_channel n (env t) = ((tx, rx), w) -> channels_ok t ->
  channels_ok (register id tx (set_env w t)).2 /\
  abs (register id tx (set_env w t)).2 = set_streams (<[id := []]> (open_streams (abs t))) (abs t).
Proof.
  intros Hm [Hi Hj]. destruct (channel_new _ _ _ _ _ Hm) as (Hn & Hw & Hh & Hq).
  assert (forall tx', issued tx' (env t) -> issued tx' w /\ history tx' w = history tx' (env t)) as Hk
    by (intros; by eapply channel_others).
  split; [split; simpl |].
  - intros id' tx' [[<- <-] | [_ Hr]]%lookup_insert_Some; [done |]. by apply Hk, (Hi id').
  - intros i j tx' [[<- <-] | [_ H1]]%lookup_insert_Some [[<- Ht] | [_ H2]]%lookup_insert_Some; try done.
    + destruct (Hn (Hi _ _ H2)).
    + subst tx'. destruct (Hn (Hi _ _ H1)).
    + by apply (Hj i j tx').
  - unfold abs, set_streams. simpl. rewrite fmap_insert, Hh, Hq. f_equal. f_equal.
    apply map_fmap_ext. intros id' tx' Hr. by apply Hk, (Hi id').
Qed.

(** Delivering a chunk. *)
Lemma deliver_step id p t tx o w :
  registry t !! id = Some tx -> channels_ok t ->
  timeout_send STREAM_STALL_TIMEOUT tx p (env t) = (o, w) ->
  channels_ok (set_env w t) /\
  abs (set_env w t) =
    set_streams (<[id := history tx (env t) ++ (match o with Sent => [p] | _ => [] end)]>
                   (open_streams (abs t))) (abs t).
Proof.
  intros Hr [Hi Hj] Ht. pose proof (send_history STREAM_STALL_TIMEOUT tx p _ (Hi _ _ Hr)) as Hh.
  pose proof (send_others STREAM_STALL_TIMEOUT tx p (env t)) as Ho.
  pose proof (send_issued STREAM_STALL_TIMEOUT tx p (env t)) as Hs.
  pose proof (send_queued STREAM_STALL_TIMEOUT tx p (env t)) as Hq.
  rewrite Ht in *. simpl in *. split; [split; [| exact Hj] |].
  - intros id' tx' Hr'. by apply Hs, (Hi id').
  - unfold abs, set_streams. simpl. rewrite Hq. f_equal. apply map_eq. intros id'.
    destruct (decide (id' = id)) as [-> | Hne].
    + by rewrite lookup_insert_eq, lookup_fmap, Hr; simpl; rewrite Hh.
    + rewrite lookup_insert_ne, !lookup_fmap by done. destruct (registry t !! id') as [tx' |] eqn:E; [| done].
      simpl. rewrite Ho; [done |]. intros ->. by apply Hne, (Hj id' id tx).
Qed.

Lemma set_streams_same id q a : open_streams a !! id = Some q -> set_streams (<[id := q]> (open_streams a)) a = a.
Proof. intros H. unfold set_streams. rewrite insert_id by done. by destruct a. Qed.

(** One frame: [dispatch] does what the specification says. *)
Lemma dispatch_step f t :
  channels_ok t ->
  channels_ok (dispatch f t) /\ abs (dispatch f t) = demux_step (answer_at f t) f (abs t).
Proof.
  intros Hc. destruct f as [s | s p | s | n | n].
  - cbn [dispatch demux_step]. destruct (mpsc_channel INBOUND_CAPACITY (env t)) as [[tx rx] w] eqn:Em.
    destruct (register_new _ s t tx rx w Em Hc) as [Hc1 Ha1].
    split; [by apply channels_ok_env, Hc1; apply spawn_kept |].
    rewrite abs_env by (apply spawn_kept || done). rewrite spawn_queued, Ha1.
    by destruct (channel_new _ _ _ _ _ Em) as (_ & _ & _ & Hq); unfold set_streams; simpl; rewrite Hq.
  - cbn [dispatch demux_step answer_at]. unfold deliver, close.
    assert (open_streams (abs t) !! s = (fun tx => history tx (env t)) <$> registry t !! s) as Hs
      by apply lookup_fmap.
    rewrite Hs. destruct (registry t !! s) as [tx |] eqn:Hr; cbn [fmap option_fmap option_map] in *.
    2: { destruct (send_reply (Close s) t Hc) as [H1 H2]. split; [done | by apply H2]. }
    destruct (timeout_send STREAM_STALL_TIMEOUT tx p (env t)) as [o w] eqn:Et.
    destruct (deliver_step s p t tx o w Hr Hc Et) as [Hc1 Ha1].
    destruct o; cbn [an_send].
    + done.
    + rewrite app_nil_r, set_streams_same in Ha1 by done.
      destruct (send_reply (Close s) (set_env w t) Hc1) as [H1 H2]. split; [done |].
      rewrite <- Ha1. by apply H2.
    + rewrite app_nil_r, set_streams_same in Ha1 by done.
      destruct (send_reply (Close s) _ (channels_ok_delete s _ Hc1)) as [H1 H2]. split; [exact H1 |].
      rewrite <- Ha1, <- abs_delete. by apply H2.
  - cbn [dispatch demux_step remove snd]. split; [by apply channels_ok_delete | by rewrite abs_delete].
  - cbn [dispatch demux_step answer_at]. destruct (send_reply (Pong n) t Hc) as [H1 H2].
    split; [done | by apply H2].
  - cbn [dispatch demux_step]. by split.
Qed.

Lemma dispatch_all_step fs t :
  channels_ok t ->
  channels_ok (dispatch_all fs t) /\ abs (dispatch_all fs t) = demux_run (answered fs t) (abs t).
Proof.
  unfold dispatch_all. revert t. induction fs as [| f fs IH]; intros t Hc; [done |].
  cbn [fold_left answered demux_run]. destruct (dispatch_step f t Hc) as [Hc' Ha].
  rewrite <- Ha. by apply IH.
Qed.

(** ** One stream of many *)

Lemma own_answered id fs t :
  (own id (answered fs t)).*2 = filter (fun f => own_frame id f = true) fs.
Proof.
  revert t. induction fs as [| f fs IH]; intros t; [done |]. cbn [answered]. unfold own in *.
  rewrite !filter_cons. cbn [snd]. destruct (decide (own_frame id f = true)); cbn [fmap list_fmap snd];
    by rewrite IH.
Qed.

Lemma stream_run_data id ps ofs q :
  ofs.*2 = Data id <$> ps -> (forall o f, (o, f) ∈ ofs -> an_send o = Sent) ->
  stream_run ofs (Some q) = Some (q ++ ps).
Proof.
  revert ofs q. induction ps as [| p ps IH]; intros [| [o f] ofs] q He Ho; simplify_eq/=.
  - by rewrite app_nil_r.
  - rewrite (Ho o (Data id p)) by left. rewrite IH, <- app_assoc; [done | done |].
    intros o' f' Hin. apply (Ho o' f'). by right.
Qed.

(** How a stream starts: with an OPEN among the frames, or already open. *)
Definition starts (id : Z) (t : Tunnel) (pre : list Frame) (q : list (list Z)) : Prop :=
  (pre = [Open id] /\ q = []) \/ (pre = [] /\ open_streams (abs t) !! id = Some q).

Lemma dispatch_all_stream id fs t pre q ps :
  channels_ok t -> starts id t pre q ->
  filter (fun f => own_frame id f = true) fs = pre ++ (Data id <$> ps) ->
  (forall o p, (o, Data id p) ∈ answered fs t -> an_send o = Sent) ->
  exists c, registry (dispatch_all fs t) !! id = Some c /\
    history c (env (dispatch_all fs t)) = q ++ ps.
Proof.
  intros Hc Hpre Hf Ho. destruct (dispatch_all_step fs t Hc) as [_ Ha].
  assert (open_streams (abs (dispatch_all fs t)) !! id = Some (q ++ ps)) as Hs.
  { rewrite Ha, demux_run_stream. pose proof (own_answered id fs t) as Hw. rewrite Hf in Hw.
    assert (forall o f p, (o, f) ∈ own id (answered fs t) -> f = Data id p -> an_send o = Sent) as Hown.
    { intros o f p [_ Hin]%list_elem_of_filter ->. by apply (Ho o p). }
    assert (forall ofs q0, ofs.*2 = Data id <$> ps ->
              (forall o f, (o, f) ∈ ofs -> (o, f) ∈ own id (answered fs t)) ->
              stream_run ofs (Some q0) = Some (q0 ++ ps)) as Hgo.
    { intros ofs q0 He Hin. apply (stream_run_data id); [exact He |]. intros o f Hof.
      assert (f ∈ ofs.*2) as Hd by (apply list_elem_of_fmap; by exists (o, f)).
      rewrite He in Hd. apply list_elem_of_fmap in Hd as (p & -> & _). apply (Hown o (Data id p) p); [by apply Hin | done]. }
    destruct Hpre as [[-> ->] | [-> Hq]]; simpl in Hw.
    - destruct (own id (answered fs t)) as [| [o f] ofs]; simplify_eq/=.
      apply (Hgo ofs []); [done |]. intros o' f' Hin. by right.
    - rewrite Hq. by apply Hgo. }
  unfold abs in Hs. simpl in Hs. rewrite lookup_fmap in Hs.
  destruct (registry (dispatch_all fs t) !! id) as [c |]; simplify_eq/=. by exists c.
Qed.

(** ** Properties *)

(** (C4) Refinement: a tunnel whose registered channels are
    distinct and alive implements the demultiplexer of the specification. On any
    sequence of frames, whatever the channels and the frame channel answer, the
    registered streams, what their channels hold, the replies queued (CLOSE for
    a chunk nobody takes, PONG for a PING) and the PONG count are those of the
    specification run on the same frames and answers; and the channels stay
    distinct. *)
Theorem demux_refines fs t :
  channels_ok t ->
  abs (dispatch_all fs t) = demux_run (answered fs t) (abs t) /\ channels_ok (dispatch_all fs t).
Proof. intros Hc. destruct (dispatch_all_step fs t Hc). by split. Qed.

(** Isolation: after any sequence of frames, whether a
    stream is open and what its channel holds is a function of that stream's own
    frames and of how its own channel answered; opening, flooding, stalling or
    closing any other stream, and PINGs, change nothing for it. *)
Theorem stream_isolation id fs t :
  channels_ok t ->
  open_streams (abs (dispatch_all fs t)) !! id =
    stream_run (own id (answered fs t)) (open_streams (abs t) !! id) /\
  (own id (answered fs t)).*2 = filter (fun f => own_frame id f = true) fs.
Proof.
  intros Hc. destruct (dispatch_all_step fs t Hc) as [_ ->].
  split; [apply demux_run_stream | apply own_answered].
Qed.

Section laws.
Context {PL : PacketCodecLaws PC}.

(** A healthy wire: the interleaving as the sender's writer wrote it. *)
Lemma written_stream id pre q ps fs txc rxc c' rs tS tS' cs t :
  synced txc rxc -> Forall wf_frame fs ->
  writer_run (WvFrame <$> fs) [] txc tS = (c', rs, None, tS') ->
  Forall (fun c => c <> []) cs -> concat cs = concat rs ->
  dead t = false -> channels_ok t -> starts id t pre q ->
  filter (fun f => own_frame id f = true) fs = pre ++ (Data id <$> ps) ->
  (forall o p, (o, Data id p) ∈ answered fs t -> an_send o = Sent) ->
  exists r' t' c, reader_run (reads cs) (reader_new rxc) t = (r', Continue, t') /\
    dead t' = false /\ registry t' !! id = Some c /\ history c (env t') = q ++ ps.
Proof.
  intros Hs Hf Hw Hcs Heq Ht Hok Hst Hown Ho.
  destruct (written_dispatched fs txc rxc c' rs tS tS' cs t) as [r' Hrun]; try done.
  destruct (dispatch_all_stream id fs t pre q ps) as (c & H1 & H2); try done.
  exists r', (dispatch_all fs t), c. split_and!; try done. by rewrite dispatch_all_dead.
Qed.

(** (C5) Multiplexed transfer: an arbitrary interleaving of the
    frames of many streams, over a wire that loses genuine records and injects
    rejected ones (never eight in a row), read in any split. A stream whose
    frames that got through are its DATA frames, preceded by its OPEN unless it
    was open before, is registered at the end and its channel has taken exactly
    its chunks, in order, as long as its own channel accepted them: nothing of
    another stream, and nothing lost before the stream's callback runs. *)
Theorem relay_streams id pre q ps tx rx items rs cs t :
  synced tx rx -> Forall wf_frame (wire_frames items) -> carried tx rx items rs ->
  ~ has_run 8 (injected items) -> Forall (fun c => c <> []) cs -> concat cs = concat rs ->
  dead t = false -> channels_ok t -> starts id t pre q ->
  filter (fun f => own_frame id f = true) (passed items) = pre ++ (Data id <$> ps) ->
  (forall o p, (o, Data id p) ∈ answered (passed items) t -> an_send o = Sent) ->
  exists r' t' c, reader_run (reads cs) (reader_new rx) t = (r', Continue, t') /\
    dead t' = false /\ registry t' !! id = Some c /\ history c (env t') = q ++ ps.
Proof.
  intros Hs Hw Hc Hn Hcs Heq Ht Hok Hst Hf Ho.
  destruct (reader_carried tx rx items rs cs t) as [r' Hrun]; try done.
  destruct (dispatch_all_stream id (passed items) t pre q ps) as (c & H1 & H2); try done.
  exists r', (dispatch_all (passed items) t), c. split_and!; try done.
  by rewrite dispatch_all_dead.
Qed.

End laws.

End demux.

(** ** Witnesses *)

(** Two streams of which the second stalls, interleaved with a PING. *)
Definition toy_stalled : @Tunnel toy_tokio :=
  set_env (mkToyWorld 0 [] [] [] [] [1%nat] false []) toy_tunnel.

Definition toy_mix : list Frame :=
  [Open 1; Open 2; Data 1 [104]; Data 2 [120]; Ping [1; 2; 3; 4; 5; 6; 7; 8]; Data 1 [105]; Data 2 [121]].

Lemma toy_stalled_ok : @channels_ok toy_tokio toy_tokio_laws toy_stalled.
Proof. split; intros *; simpl; rewrite lookup_empty; discriminate. Defined.

Example toy_mix_abs :
  @abs toy_tokio toy_tokio_laws (dispatch_all toy_mix toy_stalled) =
    mkDemux {[ 1 := [[104]; [105]] ]} [Close 2; Pong [1; 2; 3; 4; 5; 6; 7; 8]; Close 2] 0.
Proof. vm_compute. reflexivity. Qed.

Lemma demux_refines_witness :
  @abs toy_tokio toy_tokio_laws (dispatch_all toy_mix toy_stalled)
    = demux_run (answered toy_mix toy_stalled) (@abs toy_tokio toy_tokio_laws toy_stalled)
  /\ @channels_ok toy_tokio toy_tokio_laws (dispatch_all toy_mix toy_stalled).
Proof. apply (@demux_refines toy_tokio toy_tokio_laws toy_mix toy_stalled), toy_stalled_ok. Defined.

Lemma stream_isolation_witness :
  open_streams (@abs toy_tokio toy_tokio_laws (dispatch_all toy_mix toy_stalled)) !! 1 =
    stream_run (own 1 (answered toy_mix toy_stalled))
      (open_streams (@abs toy_tokio toy_tokio_laws toy_stalled) !! 1) /\
  (own 1 (answered toy_mix toy_stalled)).*2 = filter (fun f => own_frame 1 f = true) toy_mix.
Proof. apply (@stream_isolation toy_tokio toy_tokio_laws 1 toy_mix toy_stalled), toy_stalled_ok. Defined.

(** The same interleaving on a wire that loses a frame of stream 2 and carries noise. *)
Definition toy_mix_items : list wire_item :=
  [Pass (Open 1); Pass (Open 2); Inject toy_noise; Pass (Data 1 [104]); Lose (Data 2 [120]);
   Pass (Data 2 [121]); Pass (Data 1 [105])].
Definition toy_mix_records : list (list Z) :=
  [toy_rec (Open 1); toy_rec (Open 2); toy_noise; toy_rec (Data 1 [104]); toy_rec (Data 2 [121]);
   toy_rec (Data 1 [105])].

Lemma relay_streams_witness :
  exists r' t' c,
    @reader_run toy_codec toy_tokio (reads [concat toy_mix_records]) (@reader_new toy_codec tt) toy_stalled
      = (r', Continue, t') /\
    dead t' = false /\ registry t' !! 1 = Some c /\
    history (TokioLaws := toy_tokio_laws) c (env t') = [] ++ [[104]; [105]].
Proof.
  apply (@relay_streams toy_codec toy_tokio toy_tokio_laws toy_codec_laws 1 [Open 1] [] [[104]; [105]]
    tt tt toy_mix_items toy_mix_records [concat toy_mix_records] toy_stalled).
  - exact I.
  - repeat constructor; cbv; congruence.
  - do 2 (eapply carried_pass; [reflexivity |]).
    eapply carried_inject; [split; [cbv; lia | reflexivity] | reflexivity |].
    eapply carried_pass; [reflexivity |]. eapply carried_lose; [reflexivity |].
    do 2 (eapply carried_pass; [reflexivity |]). apply carried_nil.
  - intros (pre & post & Heq). apply (f_equal length) in Heq.
    rewrite !length_app, length_replicate in Heq. simpl in Heq. lia.
  - repeat constructor. discriminate.
  - vm_compute. reflexivity.
  - reflexivity.
  - exact toy_stalled_ok.
  - by left.
  - vm_compute. reflexivity.
  - assert (answered (passed toy_mix_items) toy_stalled =
      [(mkAnswer Closed true, Open 1); (mkAnswer Closed true, Open 2);
       (mkAnswer Sent true, Data 1 [104]); (mkAnswer Elapsed true, Data 2 [121]);
       (mkAnswer Sent true, Data 1 [105])]) as -> by (vm_compute; reflexivity).
    intros o p Hin. apply list_elem_of_In in Hin. simpl in Hin. by naive_solver.
Defined.
