(* ===== verification/Backpressure.v ===== *)
(** * Backpressure: bounded queues and the tasks that wait on them (src/carrier.rs)

    [Carrier] runs an operation to its end, whatever it waits for. Here what the
    tasks of two connected tunnels wait for is part of the state: the frame
    channel holds [FRAME_CHANNEL_CAPACITY] frames and admits its senders in the
    order they came, a stream's channel holds [INBOUND_CAPACITY] chunks, the
    wire a number of records that is a parameter. A label is one step of a task
    between two awaits, of a timer, or of the pumps around the tunnel. Records
    carry one frame each and arrive ([Transfer] has the bytes). *)

From S2P Require Import Prelude Mux Records External Carrier.

(** ** One end of a tunnel *)

(** The chunks a stream's channel has taken and those it holds, and whether its
    receiver is there. *)
Record chan : Type := mkChan {
  ch_taken : list (list Z);
  ch_chunks : list (list Z);
  ch_open : bool;
}.

(** Who waits to send a frame. *)
Inductive caller : Type := CReader | CKeep | CPump.

#[export] Instance caller_eq_dec : EqDecision caller.
Proof. solve_decision. Defined.

(** [writer_loop]: at the check of the dead flag, in [select!], writing a
    record, ended. *)
Inductive writer_pc : Type :=
| WHead
| WSelect
| WWriting (f : Frame)
| WEnded.

(** [reader_loop]: at the check of the dead flag, taking a buffered record, in
    [deliver] with the channel it found, sending a frame, in [select!], ended. *)
Inductive reader_pc : Type :=
| RHead
| RNext
| RDeliver (id : Z) (c : nat) (payload : list Z)
| RSending
| RSelect
| REnded.

(** [keepalive_loop]: at the check, in the outer [select!], sending its PING, in
    the inner [select!] with the PONG count of the tick, ended. *)
Inductive keep_pc : Type :=
| KHead
| KSelect
| KSending (before : Z)
| KGrace (before : Z)
| KEnded.

(** The frame channel, its waiting senders, the three loops, the records read
    but not dispatched, the streams; and two logs: the frames the channel has
    accepted and the frames the reader has dispatched. *)
Record side : Type := mkSide {
  sd_dead : bool;
  sd_queue : list Frame;
  sd_waiting : list (caller * Frame);
  sd_writer : writer_pc;
  sd_reader : reader_pc;
  sd_keep : keep_pc;
  sd_rbuf : list Frame;
  sd_registry : gmap Z nat;
  sd_chans : list chan;
  sd_pongs : Z;
  sd_accepted : list Frame;
  sd_dispatched : list Frame;
}.

Definition set_dead (d : bool) (s : side) : side :=
  mkSide d (sd_queue s) (sd_waiting s) (sd_writer s) (sd_reader s) (sd_keep s) (sd_rbuf s) (sd_registry s)
    (sd_chans s) (sd_pongs s) (sd_accepted s) (sd_dispatched s).
Definition set_queue (q : list Frame) (s : side) : side :=
  mkSide (sd_dead s) q (sd_waiting s) (sd_writer s) (sd_reader s) (sd_keep s) (sd_rbuf s) (sd_registry s)
    (sd_chans s) (sd_pongs s) (sd_accepted s) (sd_dispatched s).
Definition set_waiting (w : list (caller * Frame)) (s : side) : side :=
  mkSide (sd_dead s) (sd_queue s) w (sd_writer s) (sd_reader s) (sd_keep s) (sd_rbuf s) (sd_registry s)
    (sd_chans s) (sd_pongs s) (sd_accepted s) (sd_dispatched s).
Definition set_writer (w : writer_pc) (s : side) : side :=
  mkSide (sd_dead s) (sd_queue s) (sd_waiting s) w (sd_reader s) (sd_keep s) (sd_rbuf s) (sd_registry s)
    (sd_chans s) (sd_pongs s) (sd_accepted s) (sd_dispatched s).
Definition set_reader (r : reader_pc) (s : side) : side :=
  mkSide (sd_dead s) (sd_queue s) (sd_waiting s) (sd_writer s) r (sd_keep s) (sd_rbuf s) (sd_registry s)
    (sd_chans s) (sd_pongs s) (sd_accepted s) (sd_dispatched s).
Definition set_keep (k : keep_pc) (s : side) : side :=
  mkSide (sd_dead s) (sd_queue s) (sd_waiting s) (sd_writer s) (sd_reader s) k (sd_rbuf s) (sd_registry s)
    (sd_chans s) (sd_pongs s) (sd_accepted s) (sd_dispatched s).
Definition set_rbuf (b : list Frame) (s : side) : side :=
  mkSide (sd_dead s) (sd_queue s) (sd_waiting s) (sd_writer s) (sd_reader s) (sd_keep s) b (sd_registry s)
    (sd_chans s) (sd_pongs s) (sd_accepted s) (sd_dispatched s).
Definition set_registry (r : gmap Z nat) (s : side) : side :=
  mkSide (sd_dead s) (sd_queue s) (sd_waiting s) (sd_writer s) (sd_reader s) (sd_keep s) (sd_rbuf s) r
    (sd_chans s) (sd_pongs s) (sd_accepted s) (sd_dispatched s).
Definition set_chans (c : list chan) (s : side) : side :=
  mkSide (sd_dead s) (sd_queue s) (sd_waiting s) (sd_writer s) (sd_reader s) (sd_keep s) (sd_rbuf s) (sd_registry s)
    c (sd_pongs s) (sd_accepted s) (sd_dispatched s).
Definition set_pongs (p : Z) (s : side) : side :=
  mkSide (sd_dead s) (sd_queue s) (sd_waiting s) (sd_writer s) (sd_reader s) (sd_keep s) (sd_rbuf s) (sd_registry s)
    (sd_chans s) p (sd_accepted s) (sd_dispatched s).
Definition log_accepted (f : Frame) (s : side) : side :=
  mkSide (sd_dead s) (sd_queue s) (sd_waiting s) (sd_writer s) (sd_reader s) (sd_keep s) (sd_rbuf s) (sd_registry s)
    (sd_chans s) (sd_pongs s) (sd_accepted s ++ [f]) (sd_dispatched s).
Definition log_dispatched (f : Frame) (s : side) : side :=
  mkSide (sd_dead s) (sd_queue s) (sd_waiting s) (sd_writer s) (sd_reader s) (sd_keep s) (sd_rbuf s) (sd_registry s)
    (sd_chans s) (sd_pongs s) (sd_accepted s) (sd_dispatched s ++ [f]).

(** A fresh tunnel; with a ping interval of 0 no keepalive is spawned. *)
Definition side_init (keepalive : bool) : side :=
  mkSide false [] [] WHead RHead (if keepalive then KHead else KEnded) [] ∅ [] 0 [] [].

(** ** Operations *)

(** [kill_side]: the flag, and the registry's senders dropped. *)
Definition kill_side (s : side) : side := set_registry ∅ (set_dead true s).

(** A caller's [send] is done, or has failed because the receiver is gone. *)
Definition resume_ok (c : caller) (s : side) : side :=
  match c with
  | CReader => set_reader RNext s
  | CKeep => match sd_keep s with KSending before => set_keep (KGrace before) s | _ => s end
  | CPump => s
  end.

Definition resume_err (c : caller) (s : side) : side :=
  match c with
  | CReader => set_reader RNext s
  | CKeep => set_keep KEnded s
  | CPump => s
  end.

Definition writer_ended (s : side) : bool := match sd_writer s with WEnded => true | _ => false end.

(** [frames.send(f)]: queues up for the channel, or fails at once. *)
Definition start_send (c : caller) (f : Frame) (s : side) : side :=
  if writer_ended s then resume_err c s else set_waiting (sd_waiting s ++ [(c, f)]) s.

(** The ends of the loops. With the writer goes the channel's receiver: what is
    queued is lost and every waiting send fails. *)
Definition writer_end (s : side) : side :=
  foldr resume_err (kill_side (set_writer WEnded (set_waiting [] (set_queue [] s)))) (sd_waiting s).*1.

Definition reader_end (s : side) : side := kill_side (set_reader REnded s).

(** The reader's [match frame]. *)
Definition reader_dispatch (f : Frame) (s : side) : side :=
  match f with
  | Open id =>
      set_registry (<[id := length (sd_chans s)]> (sd_registry s)) (set_chans (sd_chans s ++ [mkChan [] [] true]) s)
  | Data id payload =>
      match sd_registry s !! id with
      | Some c => set_reader (RDeliver id c payload) s
      | None => start_send CReader (Close id) (set_reader RSending s)
      end
  | Close id => set_registry (delete id (sd_registry s)) s
  | Ping nonce => start_send CReader (Pong nonce) (set_reader RSending s)
  | Pong _ => set_pongs (wrap 64 (sd_pongs s + 1)) s
  end.

(** ** Steps *)

(** The steps of the loops and of the channel; the timers; what the pumps, the
    network and a shutdown do. *)
Inductive label : Type :=
| LWriterHead | LWriterRecv | LWriterDead | LWriterWrite
| LReaderHead | LReaderNext | LReaderDeliver | LReaderFill (n : nat) | LReaderDead | LReaderEof
| LKeepHead | LKeepDead
| LAdmit
| LWriteTimeout | LStallTimeout | LTick (nonce : list Z) | LGraceOver
| LSend (f : Frame) | LConsume (c : nat) | LDetach (c : nat) | LWriteError | LReadError | LKill.

Inductive label_class : Type := Internal | Timer | Outside.

#[export] Instance label_class_eq_dec : EqDecision label_class.
Proof. solve_decision. Defined.

Definition class_of (l : label) : label_class :=
  match l with
  | LWriteTimeout | LStallTimeout | LTick _ | LGraceOver => Timer
  | LSend _ | LConsume _ | LDetach _ | LWriteError | LReadError | LKill => Outside
  | _ => Internal
  end.

(** The records one read can complete: each takes its header and a frame's. *)
Definition RECORDS_PER_READ : nat := Z.to_nat (READ_BUF / (Z.of_nat HEADER + FRAME_HEADER) + 1).

(** What [s] becomes, with the wire out of it and the wire into it. *)
Definition step_result : Type := option (side * list Frame * list Frame).

Section steps.
(** The records the wire holds, and whether the peer has dropped its socket. *)
Context (cap : nat) (gone : bool).

Definition writer_step (l : label) (s : side) (out inn : list Frame) : step_result :=
  match l, sd_writer s with
  | LWriterHead, WHead => Some (if sd_dead s then writer_end s else set_writer WSelect s, out, inn)
  | LWriterRecv, WSelect =>
      match sd_queue s with
      | f :: q => Some (set_writer (WWriting f) (set_queue q s), out, inn)
      | [] => None
      end
  | LWriterDead, WSelect => if sd_dead s then Some (writer_end s, out, inn) else None
  | LWriterWrite, WWriting f =>
      if (length out <? cap)%nat then Some (set_writer WHead s, out ++ [f], inn) else None
  | LWriteTimeout, WWriting _ => if (length out <? cap)%nat then None else Some (writer_end s, out, inn)
  | LWriteError, WWriting _ => Some (writer_end s, out, inn)
  | _, _ => None
  end.

Definition reader_step (l : label) (s : side) (out inn : list Frame) : step_result :=
  match l, sd_reader s with
  | LReaderHead, RHead => Some (if sd_dead s then reader_end s else set_reader RNext s, out, inn)
  | LReaderNext, RNext =>
      match sd_rbuf s with
      | f :: b => Some (reader_dispatch f (log_dispatched f (set_rbuf b s)), out, inn)
      | [] => Some (set_reader RSelect s, out, inn)
      end
  | LReaderDeliver, RDeliver id c payload =>
      match sd_chans s !! c with
      | Some ch =>
          if ch_open ch then
            if (length (ch_chunks ch) <? Z.to_nat INBOUND_CAPACITY)%nat
            then let ch := mkChan (ch_taken ch ++ [payload]) (ch_chunks ch ++ [payload]) true in
                 Some (set_reader RNext (set_chans (<[c := ch]> (sd_chans s)) s), out, inn)
            else None
          else Some (start_send CReader (Close id) (set_reader RSending s), out, inn)
      | None => None
      end
  | LStallTimeout, RDeliver id c _ =>
      match sd_chans s !! c with
      | Some ch =>
          if ch_open ch && negb (length (ch_chunks ch) <? Z.to_nat INBOUND_CAPACITY)%nat
          then Some (start_send CReader (Close id)
                       (set_reader RSending (set_registry (delete id (sd_registry s)) s)), out, inn)
          else None
      | None => None
      end
  | LReaderFill n, RSelect =>
      if (0 <? n)%nat && (n <=? length inn)%nat && (n <=? RECORDS_PER_READ)%nat
      then Some (set_reader RHead (set_rbuf (take n inn) s), out, drop n inn) else None
  | LReaderDead, RSelect => if sd_dead s then Some (reader_end s, out, inn) else None
  | LReaderEof, RSelect => match inn with [] => if gone then Some (reader_end s, out, inn) else None | _ => None end
  | LReadError, RSelect => Some (reader_end s, out, inn)
  | _, _ => None
  end.

Definition keep_step (l : label) (s : side) : option side :=
  match l, sd_keep s with
  | LKeepHead, KHead => Some (set_keep (if sd_dead s then KEnded else KSelect) s)
  | LTick nonce, KSelect => Some (start_send CKeep (Ping nonce) (set_keep (KSending (sd_pongs s)) s))
  | LKeepDead, KSelect | LKeepDead, KGrace _ => if sd_dead s then Some (set_keep KEnded s) else None
  | LGraceOver, KGrace before =>
      if sd_pongs s <=? before then Some (kill_side (set_keep KEnded s)) else Some (set_keep KHead s)
  | _, _ => None
  end.

(** The channel admits its first waiting sender when it has room. *)
Definition admit_step (s : side) : option side :=
  match sd_waiting s with
  | (c, f) :: ws =>
      if (length (sd_queue s) <? FRAME_CHANNEL_CAPACITY)%nat
      then Some (resume_ok c (log_accepted f (set_queue (sd_queue s ++ [f]) (set_waiting ws s)))) else None
  | [] => None
  end.

(** A pump or an opening starts to send; a downlink takes a chunk, or drops its
    receiver; a kill from outside. *)
Definition outside_step (l : label) (s : side) : option side :=
  match l with
  | LSend f => Some (start_send CPump f s)
  | LConsume c =>
      match sd_chans s !! c with
      | Some (mkChan taken (_ :: chunks) b) => Some (set_chans (<[c := mkChan taken chunks b]> (sd_chans s)) s)
      | _ => None
      end
  | LDetach c =>
      match sd_chans s !! c with
      | Some ch => Some (set_chans (<[c := mkChan (ch_taken ch) [] false]> (sd_chans s)) s)
      | None => None
      end
  | LKill => Some (kill_side s)
  | _ => None
  end.

Definition with_wires (out inn : list Frame) (o : option side) : step_result := (fun s => (s, out, inn)) <$> o.

Definition side_step (l : label) (s : side) (out inn : list Frame) : step_result :=
  match l with
  | LWriterHead | LWriterRecv | LWriterDead | LWriterWrite | LWriteTimeout | LWriteError => writer_step l s out inn
  | LReaderHead | LReaderNext | LReaderDeliver | LReaderFill _ | LReaderDead | LReaderEof
  | LStallTimeout | LReadError => reader_step l s out inn
  | LKeepHead | LKeepDead | LTick _ | LGraceOver => with_wires out inn (keep_step l s)
  | LAdmit => with_wires out inn (admit_step s)
  | LSend _ | LConsume _ | LDetach _ | LKill => with_wires out inn (outside_step l s)
  end.
End steps.

(** ** Two ends and the wires between them *)

Record net : Type := mkNet {
  net_a : side;
  net_b : side;
  net_ab : list Frame;
  net_ba : list Frame;
}.

(** Both halves of an end's socket are dropped. *)
Definition socket_gone (s : side) : bool :=
  match sd_writer s, sd_reader s with WEnded, REnded => true | _, _ => false end.

Inductive end_name : Type := EndA | EndB.

#[export] Instance end_name_eq_dec : EqDecision end_name.
Proof. solve_decision. Defined.

Definition net_step (cap : nat) (x : end_name) (l : label) (n : net) : option net :=
  match x with
  | EndA =>
      match side_step cap (socket_gone (net_b n)) l (net_a n) (net_ab n) (net_ba n) with
      | Some (s, out, inn) => Some (mkNet s (net_b n) out inn)
      | None => None
      end
  | EndB =>
      match side_step cap (socket_gone (net_a n)) l (net_b n) (net_ba n) (net_ab n) with
      | Some (s, out, inn) => Some (mkNet (net_a n) s inn out)
      | None => None
      end
  end.

Definition net_init (keep_a keep_b : bool) : net := mkNet (side_init keep_a) (side_init keep_b) [] [].

Definition net_rel (cap : nat) (n n' : net) : Prop := exists x l, net_step cap x l n = Some n'.

Definition net_reachable (cap : nat) (n : net) : Prop :=
  exists keep_a keep_b, star (net_rel cap) (net_init keep_a keep_b) n.

(** A run given by its labels. *)
Fixpoint net_run (cap : nat) (ls : list (end_name * label)) (n : net) : option net :=
  match ls with
  | [] => Some n
  | (x, l) :: ls => match net_step cap x l n with Some n' => net_run cap ls n' | None => None end
  end.

(** ** What the operations change *)

Lemma resume_all ws s :
  foldr resume_err s ws =
    set_reader (if bool_decide (CReader ∈ ws) then RNext else sd_reader s)
      (set_keep (if bool_decide (CKeep ∈ ws) then KEnded else sd_keep s) s).
Proof.
  induction ws as [| c ws IH]; simpl; [by destruct s |]. rewrite IH.
  destruct c; simpl; unfold set_reader, set_keep; simpl; f_equal;
    repeat case_bool_decide; set_solver.
Qed.

(** The reader and the keepalive after the channel's receiver is gone. *)
Lemma writer_end_eq s :
  writer_end s = mkSide true [] [] WEnded
    (if bool_decide (CReader ∈ (sd_waiting s).*1) then RNext else sd_reader s)
    (if bool_decide (CKeep ∈ (sd_waiting s).*1) then KEnded else sd_keep s)
    (sd_rbuf s) ∅ (sd_chans s) (sd_pongs s) (sd_accepted s) (sd_dispatched s).
Proof. unfold writer_end. by rewrite resume_all. Qed.

Lemma start_send_live c f s :
  sd_writer s <> WEnded -> start_send c f s = set_waiting (sd_waiting s ++ [(c, f)]) s.
Proof. unfold start_send, writer_ended. by destruct (sd_writer s). Qed.

Lemma start_send_ended c f s : sd_writer s = WEnded -> start_send c f s = resume_err c s.
Proof. unfold start_send, writer_ended. by intros ->. Qed.

(** The case analysis of a step. *)
Ltac side_cases H :=
  unfold side_step, writer_step, reader_step, keep_step, admit_step, outside_step, with_wires in H;
  repeat (case_match; try discriminate H); simplify_eq/=.

(** ** Order *)

(** The frames that have left the channel but not the writer. *)
Definition in_flight (s : side) : list Frame := match sd_writer s with WWriting f => [f] | _ => [] end.

(** What the channel has accepted and the wire not yet. *)
Definition pending (s : side) : list Frame := in_flight s ++ sd_queue s.

(** What the wire into [s] has taken. *)
Definition arrived (s : side) (inn : list Frame) : list Frame := sd_dispatched s ++ sd_rbuf s ++ inn.

(** The frames of [s'] are those of [s]. *)
Definition kept (s s' : side) : Prop :=
  pending s' = pending s /\ writer_ended s' = writer_ended s /\ sd_accepted s' = sd_accepted s /\
  forall inn, arrived s' inn = arrived s inn.

Lemma start_send_kept c f s0 s : kept s0 s -> kept s0 (start_send c f s).
Proof. unfold start_send. destruct (writer_ended s) eqn:E; by destruct c. Qed.

Lemma resume_ok_kept c s0 s : kept s0 s -> kept s0 (resume_ok c s).
Proof. destruct c; simpl; try done. by destruct (sd_keep s). Qed.

Lemma dispatch_frames_kept f s0 s : kept s0 s -> kept s0 (reader_dispatch f s).
Proof.
  intros Hk. destruct f as [id | id p | id | n | n]; cbn [reader_dispatch]; try done.
  - destruct (sd_registry s !! id); [done |]. by apply start_send_kept.
  - by apply start_send_kept.
Qed.

(** The writer's part of a step: the channel accepts at its end, the wire gets
    what the channel accepted, in order, until the writer ends. *)
Definition moves (s : side) (out : list Frame) (s' : side) (out' : list Frame) : Prop :=
  if writer_ended s' then sd_accepted s' = sd_accepted s /\ out' = out
  else writer_ended s = false /\ exists new, sd_accepted s' = sd_accepted s ++ new /\
    out' ++ pending s' = out ++ pending s ++ new.

Lemma moves_out s out s' out' :
  writer_ended s = false -> writer_ended s' = false -> sd_accepted s' = sd_accepted s ->
  out' ++ pending s' = out ++ pending s -> moves s out s' out'.
Proof. unfold moves. intros -> -> -> Hp. split; [done |]. exists []. by rewrite !app_nil_r. Qed.

Lemma moves_same s out s' :
  pending s' = pending s -> writer_ended s' = writer_ended s -> sd_accepted s' = sd_accepted s ->
  moves s out s' out.
Proof.
  unfold moves. intros Hp -> ->. destruct (writer_ended s) eqn:E; [done |]. split; [done |].
  exists []. by rewrite Hp, !app_nil_r.
Qed.

Lemma kept_moves s out inn s' : kept s s' -> moves s out s' out /\ arrived s' inn = arrived s inn.
Proof. intros (Hp & He & Ha & Harr). split; [by apply moves_same | apply Harr]. Qed.

Lemma writer_step_moves cap l s out inn s' out' inn' :
  writer_step cap l s out inn = Some (s', out', inn') -> moves s out s' out' /\ arrived s' inn' = arrived s inn.
Proof.
  unfold writer_step. intros H. destruct l; try discriminate H; repeat (case_match; try discriminate H);
    simplify_eq; rewrite ?writer_end_eq; try done; split; try done;
    apply moves_out; unfold writer_ended, pending, in_flight; simpl;
    repeat match goal with E : _ = _ |- _ => rewrite E end; try done.
  by rewrite <- app_assoc.
Qed.

Lemma reader_step_moves gone l s out inn s' out' inn' :
  (sd_reader s = RSelect -> sd_rbuf s = []) ->
  reader_step gone l s out inn = Some (s', out', inn') -> moves s out s' out' /\ arrived s' inn' = arrived s inn.
Proof.
  unfold reader_step. intros Hb H. destruct l; try discriminate H; repeat (case_match; try discriminate H);
    simplify_eq; try (by apply kept_moves); try (by apply kept_moves, start_send_kept).
  - apply kept_moves, dispatch_frames_kept. unfold kept, arrived. simpl. split_and!; try done. intros inn.
    match goal with E : sd_rbuf _ = _ |- _ => rewrite E end. by rewrite <- app_assoc.
  - split; [by apply moves_same |]. unfold arrived. simpl. rewrite Hb by done.
    by rewrite take_drop.
Qed.

Lemma admit_step_moves s out inn s' :
  sd_writer s <> WEnded -> admit_step s = Some s' -> moves s out s' out /\ arrived s' inn = arrived s inn.
Proof.
  unfold admit_step. intros Hw H. repeat (case_match; try discriminate H). simplify_eq.
  match goal with |- context [resume_ok ?c ?s0] => destruct (resume_ok_kept c s0 s0) as (Hp & He & Ha & Harr); [done |] end.
  split; [| apply Harr]. unfold moves. rewrite He, Ha, Hp. unfold writer_ended, pending, in_flight. simpl.
  destruct (sd_writer s); try done; (split; [done |]; eexists; split; [done |]; by rewrite <- ?app_assoc).
Qed.

Lemma side_step_moves cap gone l s out inn s' out' inn' :
  (sd_reader s = RSelect -> sd_rbuf s = []) -> (sd_writer s = WEnded -> sd_waiting s = []) ->
  side_step cap gone l s out inn = Some (s', out', inn') -> moves s out s' out' /\ arrived s' inn' = arrived s inn.
Proof.
  unfold side_step, with_wires. intros Hb Hw H.
  destruct l; try (by eapply writer_step_moves); try (by eapply reader_step_moves); apply fmap_Some in H as (s1 & H & [= -> -> ->]).
  1, 2, 4, 5: unfold keep_step in H; repeat (case_match; try discriminate H); simplify_eq;
    first [by apply kept_moves | by apply kept_moves, start_send_kept].
  1: { eapply admit_step_moves; [| done]. intros He. unfold admit_step in H. by rewrite (Hw He) in H. }
  all: unfold outside_step in H; repeat (case_match; try discriminate H); simplify_eq;
    first [by apply kept_moves | by apply kept_moves, start_send_kept].
Qed.

(** ** Invariant of one end *)

Definition count (c : caller) (ws : list (caller * Frame)) : nat := length (filter (fun p => p.1 = c) ws).

Lemma count_snoc c c' f ws : count c (ws ++ [(c', f)]) = (count c ws + if decide (c' = c) then 1 else 0)%nat.
Proof. unfold count. rewrite filter_app, length_app, filter_cons. simpl. by destruct (decide (c' = c)). Qed.

Lemma count_cons c c' f ws : count c ((c', f) :: ws) = ((if decide (c' = c) then 1 else 0) + count c ws)%nat.
Proof. unfold count. rewrite filter_cons. simpl. by destruct (decide (c' = c)). Qed.

Lemma count_in c ws : c ∈ ws.*1 <-> count c ws <> 0%nat.
Proof.
  induction ws as [| [c' f] ws IH]; [by rewrite elem_of_nil |].
  rewrite count_cons. simpl. rewrite elem_of_cons, IH. destruct (decide (c' = c)); naive_solver lia.
Qed.

Definition is_sending (r : reader_pc) : nat := match r with RSending => 1 | _ => 0 end.
Definition is_pinging (k : keep_pc) : nat := match k with KSending _ => 1 | _ => 0 end.

(** The bounds of the channels and of the read buffer; a task waits for the
    channel exactly while its send is queued; an ended writer has no channel; the
    streams' channels exist. *)
Record side_ok (s : side) : Prop := {
  ok_queue : (length (sd_queue s) <= FRAME_CHANNEL_CAPACITY)%nat;
  ok_chans : Forall (fun ch => (length (ch_chunks ch) <= Z.to_nat INBOUND_CAPACITY)%nat) (sd_chans s);
  ok_rbuf : (length (sd_rbuf s) <= RECORDS_PER_READ)%nat;
  ok_select : sd_reader s = RSelect -> sd_rbuf s = [];
  ok_reader : count CReader (sd_waiting s) = is_sending (sd_reader s);
  ok_keep : count CKeep (sd_waiting s) = is_pinging (sd_keep s);
  ok_writer : sd_writer s = WEnded -> sd_queue s = [] /\ sd_waiting s = [] /\ sd_dead s = true;
  ok_registry : forall id c, sd_registry s !! id = Some c -> (c < length (sd_chans s))%nat;
  ok_deliver : forall id c p, sd_reader s = RDeliver id c p -> (c < length (sd_chans s))%nat;
}.

Lemma side_init_ok k : side_ok (side_init k).
Proof. split; simpl; try done; try (unfold FRAME_CHANNEL_CAPACITY; lia); by destruct k. Qed.

Lemma writer_end_ok s : side_ok s -> side_ok (writer_end s).
Proof.
  intros [H1 H2 H3 H4 H5 H6 H7 H8 H9]. rewrite writer_end_eq. split; simpl; try done; try lia.
  - case_bool_decide; [done | exact H4].
  - case_bool_decide as Hc; [done |]. destruct (sd_reader s); try done. destruct Hc. apply count_in. by rewrite H5.
  - case_bool_decide as Hc; [done |]. destruct (sd_keep s); try done. destruct Hc. apply count_in. by rewrite H6.
  - case_bool_decide; [done | exact H9].
Qed.

Lemma kill_side_ok s : side_ok s -> side_ok (kill_side s).
Proof.
  intros [H1 H2 H3 H4 H5 H6 H7 H8 H9]. split; simpl; try done. intros He. by destruct (H7 He) as (-> & -> & _).
Qed.

(** The reader, and the keepalive, start a send; a pump does. *)
Lemma reader_sends_ok f s :
  side_ok s -> is_sending (sd_reader s) = 0%nat -> side_ok (start_send CReader f (set_reader RSending s)).
Proof.
  intros [H1 H2 H3 H4 H5 H6 H7 H8 H9] Hr. unfold start_send. destruct (writer_ended _) eqn:E.
  - split; simpl; try done. by rewrite H5, Hr.
  - split; simpl; try done.
    + rewrite count_snoc, H5, Hr. by destruct (decide (CReader = CReader)).
    + rewrite count_snoc, H6. destruct (decide (CReader = CKeep)); [done | lia].
    + intros He. unfold writer_ended in E. simpl in E. by rewrite He in E.
Qed.

Lemma keep_sends_ok f before s :
  side_ok s -> is_pinging (sd_keep s) = 0%nat -> side_ok (start_send CKeep f (set_keep (KSending before) s)).
Proof.
  intros [H1 H2 H3 H4 H5 H6 H7 H8 H9] Hr. unfold start_send. destruct (writer_ended _) eqn:E.
  - split; simpl; try done. by rewrite H6, Hr.
  - split; simpl; try done.
    + rewrite count_snoc, H5. destruct (decide (CKeep = CReader)); [done | lia].
    + rewrite count_snoc, H6, Hr. by destruct (decide (CKeep = CKeep)).
    + intros He. unfold writer_ended in E. simpl in E. by rewrite He in E.
Qed.

Lemma pump_sends_ok f s : side_ok s -> side_ok (start_send CPump f s).
Proof.
  intros [H1 H2 H3 H4 H5 H6 H7 H8 H9]. unfold start_send. destruct (writer_ended s) eqn:E; [by split |].
  split; simpl; try done.
  - rewrite count_snoc, H5. destruct (decide (CPump = CReader)); [done | lia].
  - rewrite count_snoc, H6. destruct (decide (CPump = CKeep)); [done | lia].
  - intros He. unfold writer_ended in E. by rewrite He in E.
Qed.

Lemma set_chan_ok s c ch :
  side_ok s -> (length (ch_chunks ch) <= Z.to_nat INBOUND_CAPACITY)%nat -> side_ok (set_chans (<[c := ch]> (sd_chans s)) s).
Proof.
  intros [H1 H2 H3 H4 H5 H6 H7 H8 H9] Hch. split; simpl; rewrite ?length_insert; try done. by apply Forall_insert.
Qed.

Lemma dispatch_ok f s : side_ok s -> sd_reader s = RNext -> side_ok (reader_dispatch f s).
Proof.
  intros Hs Hr. assert (is_sending (sd_reader s) = 0%nat) as Hr0 by (by rewrite Hr).
  destruct Hs as [H1 H2 H3 H4 H5 H6 H7 H8 H9] eqn:E. clear E.
  destruct f as [id | id p | id | n | n]; cbn [reader_dispatch].
  - split; simpl; try done.
    + apply Forall_app. split; [done |]. constructor; [simpl; lia | done].
    + intros id' c. rewrite length_app, lookup_insert_Some. simpl. intros [[_ <-] | [_ Hc]]; [lia |].
      apply H8 in Hc. lia.
    + intros id' c p. by rewrite Hr.
  - destruct (sd_registry s !! id) as [c |] eqn:E; [| by apply reader_sends_ok].
    split; simpl; try done; [by rewrite H5, Hr | intros ? ? ? [= <- <- <-]; by eapply H8].
  - split; simpl; try done. intros id' c. rewrite lookup_delete_Some. intros [_ Hc]. by eapply H8.
  - by apply reader_sends_ok.
  - by split.
Qed.

Lemma writer_step_ok cap l s out inn s' out' inn' :
  writer_step cap l s out inn = Some (s', out', inn') -> side_ok s -> side_ok s'.
Proof.
  unfold writer_step. intros H Hs. destruct l; try discriminate H; repeat (case_match; try discriminate H);
    simplify_eq; try (by apply writer_end_ok);
    destruct Hs as [Hq Hc Hb Hsel Hrd Hkp Hw Hreg Hdel]; split; simpl; try done;
    match goal with E : sd_queue _ = _ |- _ => rewrite E in Hq; simpl in Hq; lia end.
Qed.

Lemma set_reader_ok r s :
  side_ok s -> is_sending (sd_reader s) = 0%nat -> is_sending r = 0%nat -> (r = RSelect -> sd_rbuf s = []) ->
  (forall id c p, r = RDeliver id c p -> (c < length (sd_chans s))%nat) -> side_ok (set_reader r s).
Proof. intros [Hq Hc Hb Hsel Hrd Hkp Hw Hreg Hdel] H0 Hr Hs Hd. split; simpl; try done. by rewrite Hrd, H0, Hr. Qed.

Lemma take_rbuf_ok f b s : side_ok s -> sd_rbuf s = f :: b -> side_ok (log_dispatched f (set_rbuf b s)).
Proof.
  intros [Hq Hc Hb Hsel Hrd Hkp Hw Hreg Hdel] E. rewrite E in Hb, Hsel. split; simpl in *; try done; [lia |].
  intros Hs. by apply Hsel in Hs.
Qed.

Lemma reader_step_ok gone l s out inn s' out' inn' :
  reader_step gone l s out inn = Some (s', out', inn') -> side_ok s -> side_ok s'.
Proof.
  unfold reader_step. intros H Hs.
  destruct l, (sd_reader s) as [| | id0 c0 p0 | | |] eqn:Er; try discriminate H; repeat (case_match; try discriminate H);
    simplify_eq; try (apply kill_side_ok);
    try (apply set_reader_ok; simpl; rewrite ?Er; done).
  all: try (apply dispatch_ok; [by apply take_rbuf_ok | done]).
  all: try (apply reader_sends_ok; [| simpl; by rewrite Er]; try done).
  - apply set_reader_ok; simpl; rewrite ?Er; try done. apply set_chan_ok; [done |]. simpl. rewrite length_app. simpl.
    match goal with E : (_ <? _)%nat = true |- _ => apply Nat.ltb_lt in E; lia end.
  - destruct Hs as [Hq Hc Hb Hsel Hrd Hkp Hw Hreg Hdel]. rewrite Er in Hrd. split; simpl; try done.
    match goal with E : _ && _ && _ = true |- _ => apply andb_prop in E as [_ E]; apply Nat.leb_le in E end.
    rewrite length_take. lia.
  - destruct Hs as [Hq Hc Hb Hsel Hrd Hkp Hw Hreg Hdel]. split; simpl; try done.
    intros id' c'. rewrite lookup_delete_Some. intros [_ Hl]. by eapply Hreg.
Qed.

Lemma keep_step_ok l s s' : keep_step l s = Some s' -> side_ok s -> side_ok s'.
Proof.
  unfold keep_step. intros H Hs.
  destruct l, (sd_keep s) eqn:Ek; try discriminate H; repeat (case_match; try discriminate H); simplify_eq;
    try apply kill_side_ok; try (apply keep_sends_ok; [done | by rewrite Ek]);
    destruct Hs as [Hq Hc Hb Hsel Hrd Hkp Hw Hreg Hdel]; split; simpl; try done; rewrite Hkp, Ek; try done; by case_match.
Qed.

Lemma admit_step_ok s s' : admit_step s = Some s' -> side_ok s -> side_ok s'.
Proof.
  unfold admit_step. intros H [Hq Hc Hb Hsel Hrd Hkp Hw Hreg Hdel].
  destruct (sd_waiting s) as [| [c f] ws] eqn:Ew; [done |]. rewrite count_cons in Hrd, Hkp.
  destruct (Nat.ltb_spec (length (sd_queue s)) FRAME_CHANNEL_CAPACITY); [| done]. injection H as <-.
  assert (sd_writer s <> WEnded) as Hne by (intros He; by destruct (Hw He) as (_ & ? & _)).
  destruct c; cbn [resume_ok log_accepted set_queue set_waiting sd_keep]; simpl in Hrd, Hkp.
  - destruct (sd_reader s) eqn:Er; simpl in Hrd; try lia.
    split; simpl; rewrite ?length_app; simpl; try done; lia.
  - destruct (sd_keep s) eqn:Ek; simpl in Hkp; try lia.
    split; simpl; rewrite ?length_app; simpl; try done; lia.
  - split; simpl; rewrite ?length_app; simpl; try done; lia.
Qed.

Lemma outside_step_ok l s s' : outside_step l s = Some s' -> side_ok s -> side_ok s'.
Proof.
  unfold outside_step. intros H Hs. destruct l; try discriminate H; repeat (case_match; try discriminate H); simplify_eq.
  - by apply pump_sends_ok.
  - apply set_chan_ok; [done |]. simpl. pose proof (ok_chans s Hs) as Hc. rewrite Forall_lookup in Hc.
    match goal with E : sd_chans s !! _ = Some _ |- _ => apply Hc in E; simpl in E end. lia.
  - apply set_chan_ok; [done |]. simpl. lia.
  - by apply kill_side_ok.
Qed.

Lemma side_step_ok cap gone l s out inn s' out' inn' :
  side_step cap gone l s out inn = Some (s', out', inn') -> side_ok s -> side_ok s'.
Proof.
  unfold side_step, with_wires. intros H.
  destruct l; try (by eapply writer_step_ok); try (by eapply reader_step_ok); apply fmap_Some in H as (s1 & H & [= -> -> ->]);
    first [by eapply keep_step_ok | by eapply admit_step_ok | by eapply outside_step_ok].
Qed.

Lemma side_step_wires cap gone l s out inn s' out' inn' :
  side_step cap gone l s out inn = Some (s', out', inn') ->
  (length out <= cap -> length out' <= cap)%nat /\ (length inn' <= length inn)%nat.
Proof.
  intros H. destruct l; side_cases H; split; try lia; rewrite ?length_app, ?length_drop; simpl; try lia.
  intros _. match goal with E : (_ <? _)%nat = true |- _ => apply Nat.ltb_lt in E; lia end.
Qed.

(** ** Invariant of the two ends *)

(** What the peer's reader got and what the wire holds is what the channel
    accepted, up to what is still queued; all of it, in order, until the writer
    ends, and a prefix afterwards. *)
Definition flow (a b : side) (wire : list Frame) : Prop :=
  if writer_ended a then arrived b wire `prefix_of` sd_accepted a
  else arrived b wire ++ pending a = sd_accepted a.

Lemma flow_moves a b out a' out' : moves a out a' out' -> flow a b out -> flow a' b out'.
Proof.
  unfold moves, flow. destruct (writer_ended a') eqn:E'.
  - intros [-> ->]. destruct (writer_ended a); [done |]. intros <-. by eexists.
  - intros [-> (new & -> & Hout)] <-. unfold arrived. rewrite <- !app_assoc. do 2 f_equal.
    exact Hout.
Qed.

Lemma flow_arrived a b inn b' inn' : arrived b' inn' = arrived b inn -> flow a b inn -> flow a b' inn'.
Proof. unfold flow. by intros ->. Qed.

Record net_ok (cap : nat) (n : net) : Prop := {
  no_a : side_ok (net_a n);
  no_b : side_ok (net_b n);
  no_ab : (length (net_ab n) <= cap)%nat;
  no_ba : (length (net_ba n) <= cap)%nat;
  no_flow_ab : flow (net_a n) (net_b n) (net_ab n);
  no_flow_ba : flow (net_b n) (net_a n) (net_ba n);
}.

Lemma net_step_inv cap x l n n' :
  net_step cap x l n = Some n' ->
  match x with
  | EndA => exists gone, side_step cap gone l (net_a n) (net_ab n) (net_ba n) = Some (net_a n', net_ab n', net_ba n') /\
      net_b n' = net_b n
  | EndB => exists gone, side_step cap gone l (net_b n) (net_ba n) (net_ab n) = Some (net_b n', net_ba n', net_ab n') /\
      net_a n' = net_a n
  end.
Proof.
  destruct x; simpl; destruct (side_step _ _ _ _ _ _) as [[[s out] inn] |] eqn:E; try done; intros [= <-]; eauto.
Qed.

Lemma net_step_ok cap x l n n' : net_step cap x l n = Some n' -> net_ok cap n -> net_ok cap n'.
Proof.
  intros H [Ha Hb Hab Hba Fab Fba]. apply net_step_inv in H.
  destruct x; destruct H as (gone & H & Hother); pose proof (side_step_wires _ _ _ _ _ _ _ _ _ H) as [Hw1 Hw2];
    pose proof (side_step_ok _ _ _ _ _ _ _ _ _ H) as Hok; apply side_step_moves in H as [Hm Harr];
    try (by apply ok_select); try (by intros He; apply ok_writer in He as (_ & ? & _)); split; rewrite ?Hother; auto; try lia;
    first [by eapply flow_moves | by eapply flow_arrived].
Qed.

Lemma net_reachable_ok cap n : net_reachable cap n -> net_ok cap n.
Proof.
  intros (ka & kb & Hs). eapply (star_invariant (net_rel cap) (net_ok cap)); [| exact Hs |].
  - intros n1 n2 (x & l & H). by eapply net_step_ok.
  - split; try exact (side_init_ok _); unfold flow; simpl; first [reflexivity | lia].
Qed.

(** ** When nothing moves *)

Definition side_of (x : end_name) (n : net) : side := match x with EndA => net_a n | EndB => net_b n end.
Definition peer_of (x : end_name) (n : net) : side := match x with EndA => net_b n | EndB => net_a n end.
Definition wire_out (x : end_name) (n : net) : list Frame := match x with EndA => net_ab n | EndB => net_ba n end.
Definition wire_in (x : end_name) (n : net) : list Frame := match x with EndA => net_ba n | EndB => net_ab n end.

Definition other (x : end_name) : end_name := match x with EndA => EndB | EndB => EndA end.

Lemma side_of_other x n : side_of (other x) n = peer_of x n.
Proof. by destruct x. Qed.

Lemma wire_in_other x n : wire_in (other x) n = wire_out x n.
Proof. by destruct x. Qed.

Lemma peer_of_other x n : peer_of (other x) n = side_of x n.
Proof. by destruct x. Qed.

(** No loop and no channel can go on by itself. *)
Definition stuck (cap : nat) (n : net) : Prop := forall x l, class_of l = Internal -> net_step cap x l n = None.

(** A consumer that has not taken a chunk from its full channel. *)
Definition stalled (s : side) : Prop :=
  exists id c p ch, sd_reader s = RDeliver id c p /\ sd_chans s !! c = Some ch /\ ch_open ch = true /\
    length (ch_chunks ch) = Z.to_nat INBOUND_CAPACITY.

Definition blocked_write (s : side) : Prop := exists f, sd_writer s = WWriting f.

Lemma stuck_side cap n x l :
  stuck cap n -> class_of l = Internal ->
  side_step cap (socket_gone (peer_of x n)) l (side_of x n) (wire_out x n) (wire_in x n) = None.
Proof.
  intros Hs Hl. specialize (Hs x l Hl). destruct x; simpl in *;
    by destruct (side_step _ _ _ _ _ _) as [[[s out] inn] |].
Qed.

Lemma side_step_net cap x l n s out inn :
  side_step cap (socket_gone (peer_of x n)) l (side_of x n) (wire_out x n) (wire_in x n) = Some (s, out, inn) ->
  exists n', net_step cap x l n = Some n' /\ side_of x n' = s /\ wire_out x n' = out /\ wire_in x n' = inn /\
    peer_of x n' = peer_of x n.
Proof. destruct x; simpl; intros ->; eauto 10. Qed.

(** The timers of a blocked write and of a stalled delivery run. *)
Lemma write_timeout_enabled cap n x f :
  sd_writer (side_of x n) = WWriting f -> length (wire_out x n) = cap -> is_Some (net_step cap x LWriteTimeout n).
Proof.
  intros Hw Hl. edestruct (side_step_net cap x LWriteTimeout n) as (n' & H & _); [| by exists n'].
  unfold side_step, writer_step. by rewrite Hw, Hl, Nat.ltb_irrefl.
Qed.

Lemma stall_timeout_enabled cap n x : stalled (peer_of x n) -> is_Some (net_step cap (other x) LStallTimeout n).
Proof.
  rewrite <- side_of_other. intros (id & c & p & ch & Hr & Hc & Ho & Hl).
  edestruct (side_step_net cap (other x) LStallTimeout n) as (n' & H & _); [| by exists n'].
  unfold side_step, reader_step. by rewrite Hr, Hc, Ho, Hl, Nat.ltb_irrefl.
Qed.

Lemma net_ok_side cap n x :
  net_ok cap n -> side_ok (side_of x n) /\ (length (wire_out x n) <= cap)%nat.
Proof. intros [Ha Hb Hab Hba _ _]. by destruct x. Qed.

(** What the three loops and the channel of an end wait for. *)
Lemma stuck_writer cap gone s out inn :
  side_step cap gone LWriterHead s out inn = None -> side_step cap gone LWriterRecv s out inn = None ->
  side_step cap gone LWriterWrite s out inn = None -> (length out <= cap)%nat ->
  sd_writer s = WEnded \/ (sd_writer s = WSelect /\ sd_queue s = []) \/ (blocked_write s /\ length out = cap).
Proof.
  unfold side_step, writer_step, blocked_write. destruct (sd_writer s) as [| | f |]; try done; [| | eauto].
  - destruct (sd_queue s); [eauto | done].
  - destruct (Nat.ltb_spec (length out) cap); [done |]. intros _ _ _ Hle. right. right. split; [by exists f | lia].
Qed.

Lemma stuck_admit cap gone s out inn :
  side_ok s -> side_step cap gone LAdmit s out inn = None ->
  sd_waiting s = [] \/ length (sd_queue s) = FRAME_CHANNEL_CAPACITY.
Proof.
  intros Hs. unfold side_step, admit_step, with_wires. destruct (sd_waiting s) as [| [c f] ws]; [by left |].
  destruct (Nat.ltb_spec (length (sd_queue s)) FRAME_CHANNEL_CAPACITY); [done |].
  intros _. right. pose proof (ok_queue s Hs). lia.
Qed.

Lemma stuck_reader cap gone s out inn :
  side_ok s -> (forall l, class_of l = Internal -> side_step cap gone l s out inn = None) ->
  sd_reader s = REnded \/ (sd_reader s = RSelect /\ inn = []) \/ sd_reader s = RSending \/ stalled s.
Proof.
  intros Hs Hl. destruct (sd_reader s) as [| | id c p | | |] eqn:Er; eauto.
  - specialize (Hl LReaderHead eq_refl). unfold side_step, reader_step in Hl. by rewrite Er in Hl.
  - specialize (Hl LReaderNext eq_refl). unfold side_step, reader_step in Hl. rewrite Er in Hl.
    by destruct (sd_rbuf s).
  - specialize (Hl LReaderDeliver eq_refl). unfold side_step, reader_step in Hl. rewrite Er in Hl.
    destruct (lookup_lt_is_Some_2 (sd_chans s) c) as [ch Hch]; [by eapply ok_deliver |].
    rewrite Hch in Hl. destruct (ch_open ch) eqn:Eo; [| done].
    destruct (Nat.ltb_spec (length (ch_chunks ch)) (Z.to_nat INBOUND_CAPACITY)); [done |].
    pose proof (ok_chans s Hs) as Hc. rewrite Forall_lookup in Hc. apply Hc in Hch as Hle.
    do 3 right. exists id, c, p, ch. split_and!; [done | done | done | lia].
  - right; left. split; [done |]. destruct inn as [| f inn]; [done |].
    specialize (Hl (LReaderFill 1) eq_refl). unfold side_step, reader_step in Hl. rewrite Er in Hl.
    by destruct (Nat.leb_spec 1 (length (f :: inn))); [| simpl in *; lia].
Qed.

Lemma sending_waits s : side_ok s -> sd_reader s = RSending -> sd_waiting s <> [].
Proof. intros Hs Hr Hw. pose proof (ok_reader s Hs) as Hc. by rewrite Hr, Hw in Hc. Qed.

(** A send that waits when nothing moves waits for a write of its own end. *)
Lemma stuck_waiting cap n x :
  net_ok cap n -> stuck cap n -> sd_waiting (side_of x n) <> [] ->
  blocked_write (side_of x n) /\ length (wire_out x n) = cap.
Proof.
  intros Hn Hst Hw. destruct (net_ok_side cap n x Hn) as [Hs Hle].
  destruct (stuck_admit cap (socket_gone (peer_of x n)) (side_of x n) (wire_out x n) (wire_in x n)) as [He | Hf];
    [done | by apply stuck_side | done |].
  destruct (stuck_writer cap (socket_gone (peer_of x n)) (side_of x n) (wire_out x n) (wire_in x n))
    as [He | [[_ He] | Hb]]; try done; try (by apply stuck_side).
  - by destruct (ok_writer _ Hs He) as (_ & ? & _).
  - rewrite He in Hf. discriminate Hf.
Qed.

(** ** Death *)

(** The steps the loops have left once the flag is set. *)
Definition writer_rank (w : writer_pc) : nat :=
  match w with WHead => 1 | WSelect => 3 | WWriting _ => 2 | WEnded => 0 end.
Definition reader_rank (r : reader_pc) (buffered : nat) : nat :=
  match r with
  | RHead => 1
  | RNext => 3 + 3 * buffered
  | RDeliver _ _ _ => 5 + 3 * buffered
  | RSending => 4 + 3 * buffered
  | RSelect => 2
  | REnded => 0
  end.
Definition keep_rank (k : keep_pc) : nat :=
  match k with KHead => 1 | KSelect => 4 | KSending _ => 3 | KGrace _ => 2 | KEnded => 0 end.

Definition loops_rank (s : side) : nat :=
  writer_rank (sd_writer s) + reader_rank (sd_reader s) (length (sd_rbuf s)) + keep_rank (sd_keep s).

Definition loops_ended (s : side) : Prop := sd_writer s = WEnded /\ sd_reader s = REnded /\ sd_keep s = KEnded.

(** The steps of the three loops. *)
Definition loop_label (l : label) : bool :=
  match l with LAdmit | LSend _ | LConsume _ | LDetach _ | LKill => false | _ => true end.

Lemma loops_rank_zero s : loops_rank s = 0%nat <-> loops_ended s.
Proof.
  unfold loops_rank, loops_ended. split.
  - destruct (sd_writer s), (sd_reader s), (sd_keep s); simpl; try lia; done.
  - by intros (-> & -> & ->).
Qed.

Lemma loops_rank_bound s : side_ok s -> (loops_rank s <= 12 + 3 * RECORDS_PER_READ)%nat.
Proof.
  intros Hs. pose proof (ok_rbuf s Hs) as Hb. unfold loops_rank. revert Hb. generalize RECORDS_PER_READ.
  destruct (sd_writer s), (sd_reader s), (sd_keep s); simpl; lia.
Qed.

Lemma writer_end_rank s :
  side_ok s -> sd_writer s <> WEnded ->
  sd_dead (writer_end s) = true /\ (loops_rank (writer_end s) < loops_rank s)%nat.
Proof.
  intros Hs Hw. rewrite writer_end_eq. unfold loops_rank. simpl. split; [done |].
  assert (0 < writer_rank (sd_writer s))%nat by (destruct (sd_writer s); simpl; try lia; done).
  rewrite !(bool_decide_ext _ _ (count_in _ _)), (ok_reader s Hs), (ok_keep s Hs).
  repeat case_bool_decide; destruct (sd_reader s), (sd_keep s); simpl in *; lia.
Qed.

(** The start of a send by the reader, at a rank of at least 5 before, or by the
    keepalive. *)
Lemma reader_sends_rank f s n :
  sd_dead s = true -> (writer_rank (sd_writer s) + (4 + 3 * length (sd_rbuf s)) + keep_rank (sd_keep s) < n)%nat ->
  sd_dead (start_send CReader f (set_reader RSending s)) = true /\
  (loops_rank (start_send CReader f (set_reader RSending s)) < n)%nat.
Proof. unfold start_send, loops_rank. intros Hd Hn. destruct (writer_ended _); simpl; split; try done; lia. Qed.

Lemma dispatch_rank f s n :
  sd_dead s = true -> sd_reader s = RNext ->
  (writer_rank (sd_writer s) + (5 + 3 * length (sd_rbuf s)) + keep_rank (sd_keep s) < n)%nat ->
  sd_dead (reader_dispatch f s) = true /\ (loops_rank (reader_dispatch f s) < n)%nat.
Proof.
  intros Hd Hr Hn. assert (loops_rank s < n)%nat as Hs by (unfold loops_rank; rewrite Hr; simpl; lia).
  destruct f as [id | id p | id | no | no]; cbn [reader_dispatch]; try done.
  - destruct (sd_registry s !! id); [| apply reader_sends_rank; [done | lia]].
    split; [done |]. unfold loops_rank. simpl. lia.
  - apply reader_sends_rank; [done | lia].
Qed.

Lemma writer_dead_step cap l s out inn s' out' inn' :
  writer_step cap l s out inn = Some (s', out', inn') -> side_ok s -> sd_dead s = true ->
  sd_dead s' = true /\ (loops_rank s' < loops_rank s)%nat.
Proof.
  unfold writer_step. intros H Hs Hd. rewrite Hd in H.
  destruct l, (sd_writer s) eqn:Ew; try discriminate H; repeat (case_match; try discriminate H); simplify_eq;
    try (apply writer_end_rank; [done | by rewrite Ew]);
    (split; [done |]); unfold loops_rank; simpl; rewrite ?Ew; simpl; lia.
Qed.

Lemma reader_dead_step gone l s out inn s' out' inn' :
  reader_step gone l s out inn = Some (s', out', inn') -> side_ok s -> sd_dead s = true ->
  sd_dead s' = true /\ (loops_rank s' < loops_rank s)%nat.
Proof.
  unfold reader_step. intros H Hs Hd. rewrite Hd in H. unfold loops_rank at 2.
  destruct l, (sd_reader s) as [| | id0 c0 p0 | | |] eqn:Er; try discriminate H;
    repeat (case_match; try discriminate H); simplify_eq;
    repeat match goal with E : sd_rbuf _ = _ |- _ => rewrite E; clear E end; simpl;
    try (apply reader_sends_rank; [done | simpl; lia]);
    try (apply dispatch_rank; simpl; [done | done | lia]);
    (split; [done |]); unfold loops_rank; simpl; lia.
Qed.

Lemma keep_dead_step l s s' :
  keep_step l s = Some s' -> side_ok s -> sd_dead s = true ->
  sd_dead s' = true /\ (loops_rank s' < loops_rank s)%nat.
Proof.
  unfold keep_step. intros H Hs Hd. rewrite Hd in H. unfold loops_rank.
  destruct l, (sd_keep s) eqn:Ek; try discriminate H; repeat (case_match; try discriminate H); simplify_eq;
    unfold start_send; try destruct (writer_ended _); simpl; rewrite ?Ek; simpl; split; try done; lia.
Qed.

Lemma admit_dead_step s s' :
  admit_step s = Some s' -> side_ok s -> sd_dead s = true -> sd_dead s' = true /\ (loops_rank s' <= loops_rank s)%nat.
Proof.
  unfold admit_step. intros H Hs Hd. pose proof (ok_reader s Hs) as Hr.
  destruct (sd_waiting s) as [| [c f] ws]; [done |]. case_match; [| done]. injection H as <-.
  rewrite count_cons in Hr. unfold loops_rank. destruct c; simpl in *.
  - destruct (sd_reader s); simpl in Hr; try lia. simpl. split; [done | lia].
  - destruct (sd_keep s) eqn:Ek; simpl; rewrite ?Ek; simpl; split; try done; lia.
  - split; [done | lia].
Qed.

Lemma outside_dead_step l s s' :
  outside_step l s = Some s' -> sd_dead s = true -> sd_dead s' = true /\ loops_rank s' = loops_rank s.
Proof.
  unfold outside_step, start_send. intros H Hd.
  destruct l; try discriminate H; repeat (case_match; try discriminate H); by simplify_eq.
Qed.

Lemma dead_step cap gone l s out inn s' out' inn' :
  side_step cap gone l s out inn = Some (s', out', inn') -> side_ok s -> sd_dead s = true ->
  sd_dead s' = true /\ (if loop_label l then loops_rank s' < loops_rank s else loops_rank s' <= loops_rank s)%nat.
Proof.
  unfold side_step, with_wires. intros H Hs Hd.
  destruct l; simpl; try (by eapply writer_dead_step); try (by eapply reader_dead_step);
    apply fmap_Some in H as (s1 & H & [= -> -> ->]);
    first [by eapply keep_dead_step | by eapply admit_dead_step | idtac];
    destruct (outside_dead_step _ _ _ H Hd) as [-> ->]; done.
Qed.

(** A dead end whose loops have not all ended has a step of its own. *)
Lemma dead_progress cap gone s out inn :
  side_ok s -> sd_dead s = true -> ~ loops_ended s ->
  exists l, loop_label l = true /\ class_of l <> Outside /\ is_Some (side_step cap gone l s out inn).
Proof.
  intros Hs Hd Hne. unfold side_step, with_wires. destruct (sd_writer s) as [| | f |] eqn:Ew.
  - exists LWriterHead. unfold writer_step. rewrite Ew. by eauto.
  - exists LWriterDead. unfold writer_step. rewrite Ew, Hd. by eauto.
  - destruct (length out <? cap)%nat eqn:El; [exists LWriterWrite | exists LWriteTimeout];
      unfold writer_step; rewrite Ew, El; by eauto.
  - destruct (ok_writer s Hs Ew) as (_ & Hw & _). destruct (sd_reader s) as [| | id c p | | |] eqn:Er.
    + exists LReaderHead. unfold reader_step. rewrite Er. by eauto.
    + exists LReaderNext. unfold reader_step. rewrite Er. destruct (sd_rbuf s); by eauto.
    + destruct (lookup_lt_is_Some_2 (sd_chans s) c) as [ch Hch]; [by eapply ok_deliver |].
      destruct (ch_open ch && negb (length (ch_chunks ch) <? Z.to_nat INBOUND_CAPACITY)%nat) eqn:El;
        [exists LStallTimeout | exists LReaderDeliver]; unfold reader_step; rewrite Er, Hch.
      * rewrite El. by eauto.
      * destruct (ch_open ch); [| by eauto]. destruct (_ <? _)%nat; [by eauto | done].
    + by apply sending_waits in Er.
    + exists LReaderDead. unfold reader_step. rewrite Er, Hd. by eauto.
    + pose proof (ok_keep s Hs) as Hk. rewrite Hw in Hk. unfold keep_step. destruct (sd_keep s) eqn:Ek; try done.
      * exists LKeepHead. by eauto.
      * exists LKeepDead. rewrite Hd. by eauto.
      * exists LKeepDead. rewrite Hd. by eauto.
      * by destruct Hne.
Qed.


(** ** Runs *)

Lemma net_run_star cap ls n n' : net_run cap ls n = Some n' -> star (net_rel cap) n n'.
Proof.
  revert n. induction ls as [| [x l] ls IH]; simpl; intros n H; [simplify_eq; constructor |].
  destruct (net_step cap x l n) as [n1 |] eqn:E; [| done]. econstructor; [by exists x, l | by apply IH].
Qed.

Lemma net_run_app cap ls1 ls2 n n1 n2 :
  net_run cap ls1 n = Some n1 -> net_run cap ls2 n1 = Some n2 -> net_run cap (ls1 ++ ls2) n = Some n2.
Proof.
  revert n. induction ls1 as [| [x l] ls IH]; simpl; intros n H1 H2; [by simplify_eq |].
  destruct (net_step cap x l n); [by apply IH | done].
Qed.

Lemma net_run_ok cap ls n n' : net_run cap ls n = Some n' -> net_ok cap n -> net_ok cap n'.
Proof.
  intros H. apply net_run_star in H. eapply (star_invariant (net_rel cap) (net_ok cap)); [| exact H].
  intros n1 n2 (x & l & H1). by eapply net_step_ok.
Qed.

(** A step of end [x], or of the other end, as [x] sees it. *)
Lemma net_step_side cap x y l n n' :
  net_step cap y l n = Some n' ->
  if decide (x = y)
  then side_step cap (socket_gone (peer_of x n)) l (side_of x n) (wire_out x n) (wire_in x n) =
         Some (side_of x n', wire_out x n', wire_in x n') /\ peer_of x n' = peer_of x n
  else side_of x n' = side_of x n.
Proof.
  destruct y; simpl; destruct (side_step _ _ _ _ _ _) as [[[s out] inn] |] eqn:E; try done; intros [= <-];
    by destruct x; simpl.
Qed.

(** The loop steps of end [x] in a run. *)
Definition loop_steps (x : end_name) (ls : list (end_name * label)) : nat :=
  length (filter (fun p => p.1 = x /\ loop_label p.2 = true) ls).

Lemma dead_run cap x ls n n' :
  net_run cap ls n = Some n' -> net_ok cap n -> sd_dead (side_of x n) = true ->
  sd_dead (side_of x n') = true /\ (loop_steps x ls + loops_rank (side_of x n') <= loops_rank (side_of x n))%nat.
Proof.
  revert n. induction ls as [| [y l] ls IH]; simpl; intros n H Hn Hd; [by simplify_eq |].
  destruct (net_step cap y l n) as [n1 |] eqn:E; [| done].
  assert (net_ok cap n1) as Hn1 by (by eapply net_step_ok).
  apply (net_step_side cap x) in E. unfold loop_steps. rewrite filter_cons. simpl.
  destruct (decide (x = y)) as [<- | Hxy].
  - destruct E as [E _]. apply dead_step in E as [Hd1 Hr]; [| by apply (net_ok_side cap n x Hn) | done].
    destruct (IH n1 H Hn1 Hd1) as [Hd' Hr']. split; [done |]. unfold loop_steps in Hr'.
    destruct (loop_label l) eqn:El.
    + rewrite decide_True by done. simpl. lia.
    + rewrite decide_False by naive_solver. lia.
  - rewrite decide_False by naive_solver. rewrite <- E in Hd |- *. destruct (IH n1 H Hn1 Hd) as [Hd' Hr'].
    split; [done |]. unfold loop_steps in Hr'. lia.
Qed.

(** The run of one end, the other at rest. *)
Fixpoint side_run (cap : nat) (gone : bool) (ls : list label) (r : side * list Frame * list Frame) : step_result :=
  match ls with
  | [] => Some r
  | l :: ls => match side_step cap gone l r.1.1 r.1.2 r.2 with Some r' => side_run cap gone ls r' | None => None end
  end.

Lemma side_run_app cap gone ls1 ls2 r r1 :
  side_run cap gone ls1 r = Some r1 -> side_run cap gone (ls1 ++ ls2) r = side_run cap gone ls2 r1.
Proof.
  revert r. induction ls1 as [| l ls IH]; simpl; intros r H; [by simplify_eq |].
  destruct (side_step _ _ _ _ _ _); [by apply IH | done].
Qed.

Lemma side_run_net_a cap ls a b ab ba a' ab' ba' :
  side_run cap (socket_gone b) ls (a, ab, ba) = Some (a', ab', ba') ->
  net_run cap (pair EndA <$> ls) (mkNet a b ab ba) = Some (mkNet a' b ab' ba').
Proof.
  revert a ab ba. induction ls as [| l ls IH]; simpl; intros a ab ba H; [by simplify_eq |].
  destruct (side_step _ _ _ _ _ _) as [[[s o] i] |]; [by apply IH | done].
Qed.

Lemma side_run_net_b cap ls a b ab ba b' ab' ba' :
  side_run cap (socket_gone a) ls (b, ba, ab) = Some (b', ba', ab') ->
  net_run cap (pair EndB <$> ls) (mkNet a b ab ba) = Some (mkNet a b' ab' ba').
Proof.
  revert b ab ba. induction ls as [| l ls IH]; simpl; intros b ab ba H; [by simplify_eq |].
  destruct (side_step _ _ _ _ _ _) as [[[s o] i] |]; [by apply IH | done].
Qed.

(** ** A run into a circle of waits *)

(** The keepalive sends its first PING; the reader reads one record; a pump
    keeps sending [f] until the wire, the writer and the channel are full; the
    reader dispatches the record it has. *)
Definition ping_labels (nonce : list Z) : list label :=
  [LKeepHead; LTick nonce; LAdmit; LWriterHead; LWriterRecv; LWriterWrite].
Definition read_labels : list label := [LReaderHead; LReaderNext; LReaderFill 1; LReaderHead].
Definition flood_labels (cap : nat) (f : Frame) : list label :=
  concat (replicate cap [LSend f; LAdmit; LWriterHead; LWriterRecv; LWriterWrite]) ++
  [LSend f; LAdmit; LWriterHead; LWriterRecv] ++
  concat (replicate FRAME_CHANNEL_CAPACITY [LSend f; LAdmit]) ++ [LReaderNext].

Definition circle_labels (cap : nat) (nonce : list Z) (f : Frame) : list (end_name * label) :=
  (pair EndA <$> ping_labels nonce) ++ (pair EndB <$> ping_labels nonce) ++
  (pair EndA <$> read_labels) ++ (pair EndB <$> read_labels) ++
  (pair EndA <$> flood_labels cap f) ++ (pair EndB <$> flood_labels cap f).

Lemma flood_wire cap gone k f r kp b reg ch p acc d out inn :
  (length out + k <= cap)%nat ->
  side_run cap gone (concat (replicate k [LSend f; LAdmit; LWriterHead; LWriterRecv; LWriterWrite]))
    (mkSide false [] [] WHead r kp b reg ch p acc d, out, inn) =
  Some (mkSide false [] [] WHead r kp b reg ch p (acc ++ replicate k f) d, out ++ replicate k f, inn).
Proof.
  revert acc out. induction k as [| k IH]; intros acc out Hk; [by rewrite !app_nil_r |].
  rewrite replicate_S. cbn [concat]. erewrite side_run_app.
  - rewrite (IH (acc ++ [f]) (out ++ [f])) by (rewrite length_app; simpl; lia). by rewrite <- !app_assoc.
  - cbn -[Nat.ltb FRAME_CHANNEL_CAPACITY]. change (0 <? FRAME_CHANNEL_CAPACITY)%nat with true.
    cbn -[Nat.ltb]. destruct (Nat.ltb_spec (length out) cap); [done | lia].
Qed.

Lemma flood_channel cap gone k f w r kp b reg ch p acc d out inn q :
  w <> WEnded -> (length q + k <= FRAME_CHANNEL_CAPACITY)%nat ->
  side_run cap gone (concat (replicate k [LSend f; LAdmit]))
    (mkSide false q [] w r kp b reg ch p acc d, out, inn) =
  Some (mkSide false (q ++ replicate k f) [] w r kp b reg ch p (acc ++ replicate k f) d, out, inn).
Proof.
  intros Hw. revert acc q. induction k as [| k IH]; intros acc q Hk; [by rewrite !app_nil_r |].
  rewrite replicate_S. cbn [concat]. erewrite side_run_app.
  - rewrite (IH (acc ++ [f]) (q ++ [f])) by (rewrite length_app; simpl; lia). by rewrite <- !app_assoc.
  - cbn -[FRAME_CHANNEL_CAPACITY]. rewrite start_send_live by done. cbn -[Nat.ltb FRAME_CHANNEL_CAPACITY].
    destruct (Nat.ltb_spec (length q) FRAME_CHANNEL_CAPACITY); [done | lia].
Qed.

(** What the flood makes of an end with a PING to answer. *)
Definition flooded (cap : nat) (nonce : list Z) (f : Frame) (kp : keep_pc) (acc : list Frame) : side :=
  mkSide false (replicate FRAME_CHANNEL_CAPACITY f) [(CReader, Pong nonce)] (WWriting f) RSending kp [] ∅ [] 0
    (acc ++ replicate cap f ++ f :: replicate FRAME_CHANNEL_CAPACITY f) [Ping nonce].

Lemma flood_run cap gone nonce f kp acc inn :
  side_run cap gone (flood_labels cap f)
    (mkSide false [] [] WHead RNext kp [Ping nonce] ∅ [] 0 acc [], [], inn) =
  Some (flooded cap nonce f kp acc, replicate cap f, inn).
Proof.
  unfold flood_labels. rewrite (side_run_app _ _ _ _ _ _ (flood_wire _ _ _ _ _ _ _ _ _ _ _ _ [] inn (le_n cap))).
  erewrite side_run_app by reflexivity. erewrite side_run_app by (by apply flood_channel).
  unfold flooded. cbn -[replicate FRAME_CHANNEL_CAPACITY]. do 2 f_equal. by rewrite <- !app_assoc.
Qed.

(** An end caught: its writer waits for the full wire, its channel is full, its
    reader waits for the channel. *)
Record caught (cap : nat) (s : side) (out : list Frame) : Prop := {
  ca_alive : sd_dead s = false;
  ca_writer : blocked_write s;
  ca_wire : length out = cap;
  ca_queue : length (sd_queue s) = FRAME_CHANNEL_CAPACITY;
  ca_reader : sd_reader s = RSending;
}.

(** The timers and the events from outside that end such a wait. *)
Definition ends_wait (l : label) : bool :=
  match l with LWriteTimeout | LGraceOver | LWriteError | LKill => true | _ => false end.

Lemma start_send_caught cap c f s out : c <> CReader -> caught cap s out -> caught cap (start_send c f s) out.
Proof.
  intros Hc [H1 [g Hw] H3 H4 H5]. rewrite start_send_live by (by rewrite Hw).
  split; try done. by exists g.
Qed.

Lemma caught_step cap gone l s out inn s' out' inn' :
  caught cap s out -> side_step cap gone l s out inn = Some (s', out', inn') ->
  inn' = inn /\ (caught cap s' out' \/ (ends_wait l = true /\ sd_dead s' = true)).
Proof.
  intros Hc H. pose proof Hc as [H1 [g Hw] H3 H4 H5].
  destruct l; unfold side_step, writer_step, reader_step, keep_step, admit_step, outside_step, with_wires in H;
    rewrite ?Hw, ?H5, ?H1, ?H3, ?H4, ?Nat.ltb_irrefl in H; try discriminate H;
    repeat (case_match; try discriminate H); simplify_eq/=; (split; [done |]);
    try (right; rewrite ?writer_end_eq; done); left; try (split; simpl; try done; by exists g);
    apply start_send_caught; try done; (split; simpl; try done; by exists g).
Qed.

(** The circle: both ends are caught, each by the other's full wire. *)
Definition circle (cap : nat) (n : net) : Prop := caught cap (net_a n) (net_ab n) /\ caught cap (net_b n) (net_ba n).

Lemma circle_step cap x l n n' :
  circle cap n -> net_step cap x l n = Some n' ->
  circle cap n' \/ (ends_wait l = true /\ sd_dead (side_of x n') = true).
Proof.
  intros [Ha Hb] H. apply net_step_inv in H. unfold circle.
  destruct x; destruct H as (gone & H & ->); apply caught_step in H as [-> [Hc | Hd]]; try done; auto.
Qed.

Lemma flooded_caught cap nonce f kp acc : caught cap (flooded cap nonce f kp acc) (replicate cap f).
Proof. split; cbn -[replicate]; rewrite ?length_replicate; try done. by exists f. Qed.

(** The ends after their PING, and with the peer's PING read. *)
Definition pinged (nonce : list Z) : side :=
  mkSide false [] [] WHead RHead (KGrace 0) [] ∅ [] 0 [Ping nonce] [].
Definition read_ping (nonce : list Z) : side :=
  mkSide false [] [] WHead RNext (KGrace 0) [Ping nonce] ∅ [] 0 [Ping nonce] [].

Lemma ping_run cap gone nonce inn :
  (0 < cap)%nat ->
  side_run cap gone (ping_labels nonce) (side_init true, [], inn) = Some (pinged nonce, [Ping nonce], inn).
Proof. intros Hcap. destruct cap; [lia | reflexivity]. Qed.

Lemma read_run cap gone nonce out :
  side_run cap gone read_labels (pinged nonce, out, [Ping nonce]) = Some (read_ping nonce, out, []).
Proof. reflexivity. Qed.

Lemma circle_run cap nonce f :
  (0 < cap)%nat ->
  exists n, net_run cap (circle_labels cap nonce f) (net_init true true) = Some n /\ circle cap n.
Proof.
  intros Hcap. set (s3 := flooded cap nonce f (KGrace 0) [Ping nonce]).
  exists (mkNet s3 s3 (replicate cap f) (replicate cap f)). split; [| split; exact (flooded_caught _ _ _ _ _)].
  unfold circle_labels.
  eapply net_run_app; [exact (side_run_net_a _ _ _ _ _ _ _ _ _ (ping_run _ _ _ _ Hcap)) |].
  eapply net_run_app; [exact (side_run_net_b _ _ _ _ _ _ _ _ _ (ping_run _ _ _ _ Hcap)) |].
  eapply net_run_app; [exact (side_run_net_a _ _ _ _ _ _ _ _ _ (read_run _ _ _ _)) |].
  eapply net_run_app; [exact (side_run_net_b _ _ _ _ _ _ _ _ _ (read_run _ _ _ _)) |].
  eapply net_run_app; [exact (side_run_net_a _ _ _ _ _ _ _ _ _ (flood_run _ _ _ _ _ _ _)) |].
  exact (side_run_net_b _ _ _ _ _ _ _ _ _ (flood_run _ _ _ _ _ _ _)).
Qed.

Lemma net_run_reachable cap ls ka kb n : net_run cap ls (net_init ka kb) = Some n -> net_reachable cap n.
Proof. intros H. exists ka, kb. by eapply net_run_star. Qed.

(** ** Properties *)

(** (C19) Whatever the pumps, the consumers, the network and the timers do,
    at each end the frame channel never holds more than [FRAME_CHANNEL_CAPACITY]
    frames, a stream's channel never more than [INBOUND_CAPACITY] chunks, and the
    wires never more than they can; and for each direction the frames the
    receiving reader has dispatched, followed by those it has read and those on
    the wire, are a prefix of what the sending end's channel accepted, in that
    order: with the frame in the writer and the queue they are all of it, until
    the writer ends. Nothing is lost, duplicated or reordered while an end lives. *)
Theorem bounded_and_ordered cap n x :
  net_reachable cap n ->
  (length (sd_queue (side_of x n)) <= FRAME_CHANNEL_CAPACITY)%nat /\
  Forall (fun ch => (length (ch_chunks ch) <= Z.to_nat INBOUND_CAPACITY)%nat) (sd_chans (side_of x n)) /\
  (length (wire_out x n) <= cap)%nat /\
  sd_dispatched (peer_of x n) ++ sd_rbuf (peer_of x n) ++ wire_out x n `prefix_of` sd_accepted (side_of x n) /\
  (sd_writer (side_of x n) <> WEnded ->
   (sd_dispatched (peer_of x n) ++ sd_rbuf (peer_of x n) ++ wire_out x n) ++ pending (side_of x n) =
     sd_accepted (side_of x n)).
Proof.
  intros Hr. apply net_reachable_ok in Hr as Hn. destruct (net_ok_side cap n x Hn) as [Hs Hle].
  assert (flow (side_of x n) (peer_of x n) (wire_out x n)) as Hf by (destruct x; apply Hn).
  split_and!; [by apply ok_queue | by apply ok_chans | done | |]; unfold flow, writer_ended, arrived in Hf.
  - destruct (sd_writer (side_of x n)); first [exact Hf | rewrite <- Hf; by eexists].
  - intros Hw. by destruct (sd_writer (side_of x n)).
Qed.

(** (C20) When no task can go on by itself, a send that waits waits for a write of
    its own end, and a write that is blocked is blocked by the full wire and by
    the peer's reader, which has ended, or waits for a stalled consumer, or waits
    itself to send a frame, so that the peer's write is blocked by the full wire
    too. Nothing waits without a timer: [WRITE_TIMEOUT] bounds the write, and
    [STREAM_STALL_TIMEOUT] the stalled delivery. *)
Theorem blocked_on_timer cap n x :
  (0 < cap)%nat -> net_reachable cap n -> stuck cap n ->
  (sd_waiting (side_of x n) <> [] -> blocked_write (side_of x n)) /\
  (blocked_write (side_of x n) ->
   length (wire_out x n) = cap /\ is_Some (net_step cap x LWriteTimeout n) /\
   (sd_reader (peer_of x n) = REnded \/
    (stalled (peer_of x n) /\ is_Some (net_step cap (other x) LStallTimeout n)) \/
    (sd_reader (peer_of x n) = RSending /\ blocked_write (peer_of x n) /\ length (wire_in x n) = cap))).
Proof.
  intros Hcap Hr Hst. apply net_reachable_ok in Hr as Hn.
  split; [by intros Hw; apply (stuck_waiting cap n x Hn Hst) |]. intros [f Hw].
  destruct (net_ok_side cap n x Hn) as [Hs Hle]. destruct (net_ok_side cap n (other x) Hn) as [Hs' _].
  destruct (stuck_writer cap (socket_gone (peer_of x n)) (side_of x n) (wire_out x n) (wire_in x n))
    as [He | [[He _] | [_ Hfull]]]; try (by apply stuck_side); try (by rewrite Hw in *); [done |].
  split; [done |]. split; [by eapply write_timeout_enabled |].
  destruct (stuck_reader cap (socket_gone (side_of x n)) (peer_of x n) (wire_in x n) (wire_out x n))
    as [He | [[_ He] | [Hse | Hsd]]].
  - by rewrite <- side_of_other.
  - intros l Hl. destruct x; by apply (stuck_side cap n EndB l) || by apply (stuck_side cap n EndA l).
  - by left.
  - rewrite He in Hfull. simpl in Hfull. lia.
  - right; right. rewrite <- side_of_other in Hse |- *. apply sending_waits in Hse as Hwt; [| done].
    apply (stuck_waiting cap n _ Hn Hst) in Hwt as [Hb Hl]. by destruct x.
  - right; left. split; [done |]. by apply stall_timeout_enabled.
Qed.

(** (C21) The reader answers a PING, and echoes a CLOSE, through the bounded frame
    channel it shares with the pumps, and waits when it is full; so whatever the
    wires can hold, two live ends whose pumps keep sending frames, whichever, come to
    a state in which each end's writer waits for its full wire, its channel is
    full and its reader waits to answer a PING. No step but [WRITE_TIMEOUT], the
    keepalive's grace, a write error or a kill leaves that state, and each of
    them leaves it by killing its end: no stream's consumer is at fault and no
    stream can be dropped to free the tunnel. *)
Theorem circular_wait_reachable cap nonce f :
  (0 < cap)%nat ->
  exists n, net_run cap (circle_labels cap nonce f) (net_init true true) = Some n /\ circle cap n /\
  forall ls n', net_run cap ls n = Some n' ->
    circle cap n' \/
    exists ls1 x l ls2 n1 n2, ls = ls1 ++ (x, l) :: ls2 /\ net_run cap ls1 n = Some n1 /\ circle cap n1 /\
      net_step cap x l n1 = Some n2 /\ ends_wait l = true /\ sd_dead (side_of x n2) = true.
Proof.
  intros Hcap. destruct (circle_run cap nonce f Hcap) as (n & Hrun & Hc). exists n. split_and!; [done | done |].
  clear Hrun. intros ls. revert n Hc. induction ls as [| [x l] ls IH]; simpl; intros n Hc n' H.
  - simplify_eq. by left.
  - destruct (net_step cap x l n) as [n1 |] eqn:E; [| done].
    destruct (circle_step cap x l n n1 Hc E) as [Hc1 | [He Hd]].
    + destruct (IH n1 Hc1 n' H) as [? | (ls1 & y & l' & ls2 & m1 & m2 & -> & H1 & H2)]; [by left | right].
      exists ((x, l) :: ls1), y, l', ls2, m1, m2. simpl. by rewrite E.
    + right. by exists [], x, l, ls, n, n1.
Qed.

(** (C18) Once an end's flag is set it stays set and its three loops end, whatever the
    rest does: they take at most [12 + 3 * RECORDS_PER_READ] steps in any run,
    and while they have not all ended one of them has a step, of its own or of a
    timer. When they have ended, its channel is empty and has no waiting sender, and the peer's
    reader, once it has read what the wire holds, sees the end of the stream and
    kills the peer. *)
Theorem death_drains cap x n ls n' :
  net_reachable cap n -> sd_dead (side_of x n) = true -> net_run cap ls n = Some n' ->
  sd_dead (side_of x n') = true /\ (loop_steps x ls <= 12 + 3 * RECORDS_PER_READ)%nat /\
  (~ loops_ended (side_of x n') ->
   exists l, loop_label l = true /\ class_of l <> Outside /\ is_Some (net_step cap x l n')) /\
  (loops_ended (side_of x n') ->
   sd_queue (side_of x n') = [] /\ sd_waiting (side_of x n') = [] /\
   (wire_out x n' = [] -> sd_reader (peer_of x n') = RSelect ->
    exists n2, net_step cap (other x) LReaderEof n' = Some n2 /\ sd_dead (peer_of x n2) = true)).
Proof.
  intros Hr Hd H. apply net_reachable_ok in Hr as Hn. assert (net_ok cap n') as Hn' by (by eapply net_run_ok).
  destruct (net_ok_side cap n x Hn) as [Hs _]. destruct (net_ok_side cap n' x Hn') as [Hs' _].
  destruct (dead_run cap x ls n n' H Hn Hd) as [Hd' Hrank]. pose proof (loops_rank_bound _ Hs).
  split_and!; [done | lia | intros Hne | intros (Hw & Hrd & Hk)].
  - destruct (dead_progress cap (socket_gone (peer_of x n')) (side_of x n') (wire_out x n') (wire_in x n') Hs' Hd' Hne)
      as (l & Hl & Hcl & [[[s out] inn] Hst]).
    exists l. split_and!; [done | done |]. apply side_step_net in Hst as (n2 & ? & _). by exists n2.
  - destruct (ok_writer _ Hs' Hw) as (Hq & Hwt & _). split_and!; [done | done |]. intros Hout Hsel.
    destruct (side_step_net cap (other x) LReaderEof n' (reader_end (peer_of x n')) (wire_out (other x) n') [])
      as (n2 & Hn2 & Hs2 & _).
    { rewrite side_of_other, peer_of_other, wire_in_other, Hout. unfold side_step, reader_step, socket_gone.
      by rewrite Hsel, Hw, Hrd. }
    exists n2. split; [exact Hn2 |]. by rewrite <- side_of_other, Hs2.
Qed.

(** ** Witnesses *)

(** Three frames sent: one read, one on the wire, one queued. *)
Definition demo_labels : list (end_name * label) :=
  let f b := Data 1 [b] in
  [(EndA, LSend (f 1)); (EndA, LSend (f 2)); (EndA, LSend (f 3)); (EndA, LAdmit); (EndA, LAdmit); (EndA, LAdmit);
   (EndA, LWriterHead); (EndA, LWriterRecv); (EndA, LWriterWrite); (EndB, LReaderHead); (EndB, LReaderNext);
   (EndB, LReaderFill 1); (EndA, LWriterHead); (EndA, LWriterRecv); (EndA, LWriterWrite)].
Definition demo : net := default (net_init true true) (net_run 2 demo_labels (net_init true true)).

Lemma bounded_and_ordered_witness :
  sd_rbuf (net_b demo) = [Data 1 [1]] /\ net_ab demo = [Data 1 [2]] /\ sd_queue (net_a demo) = [Data 1 [3]] /\
  ([] ++ [Data 1 [1]] ++ [Data 1 [2]]) ++ [Data 1 [3]] = [Data 1 [1]; Data 1 [2]; Data 1 [3]].
Proof.
  split_and!; [vm_compute; reflexivity .. |].
  pose proof (bounded_and_ordered 2 demo EndA (net_run_reachable 2 demo_labels true true demo ltac:(vm_compute; reflexivity))) as (_ & _ & _ & _ & H).
  assert (sd_writer (side_of EndA demo) <> WEnded) as Hw by (vm_compute; discriminate).
  specialize (H Hw). vm_compute in H. exact H.
Defined.

(** The circle over a wire that holds one record. *)
Definition caught_net : net :=
  default (net_init true true) (net_run 1 (circle_labels 1 [] (Data 1 [])) (net_init true true)).

Lemma caught_net_stuck : stuck 1 caught_net.
Proof. intros x l Hl. destruct x, l; try discriminate Hl; vm_compute; reflexivity. Qed.

Lemma blocked_on_timer_witness :
  is_Some (net_step 1 EndA LWriteTimeout caught_net) /\ sd_reader (net_b caught_net) = RSending.
Proof.
  pose proof (blocked_on_timer 1 caught_net EndA (le_n 1)
    (net_run_reachable 1 (circle_labels 1 [] (Data 1 [])) true true caught_net ltac:(vm_compute; reflexivity)) caught_net_stuck) as [_ H].
  assert (blocked_write (side_of EndA caught_net)) as Hb by (exists (Data 1 []); vm_compute; reflexivity).
  split; [exact (proj1 (proj2 (H Hb))) | vm_compute; reflexivity].
Defined.

Lemma circular_wait_reachable_witness :
  exists n, net_run 4 (circle_labels 4 [] (Data 7 [1])) (net_init true true) = Some n /\ circle 4 n.
Proof.
  destruct (circular_wait_reachable 4 [] (Data 7 [1]) ltac:(lia)) as (n & Hrun & Hc & _).
  exact (ex_intro _ n (conj Hrun Hc)).
Defined.

(** [demo] killed at its first end, which ends; the other end reads what is left. *)
Definition killed : net := default demo (net_run 2 [(EndA, LKill)] demo).
Definition ending : list (end_name * label) :=
  [(EndA, LWriterHead); (EndA, LReaderHead); (EndA, LKeepHead); (EndB, LReaderHead); (EndB, LReaderNext);
   (EndB, LAdmit); (EndB, LReaderNext); (EndB, LReaderFill 1); (EndB, LReaderHead); (EndB, LReaderNext);
   (EndB, LAdmit); (EndB, LReaderNext)].
Definition ended : net := default killed (net_run 2 ending killed).

Lemma death_drains_witness :
  loops_ended (side_of EndA ended) /\ sd_queue (side_of EndA ended) = [] /\ sd_dead (peer_of EndA ended) = false /\
  exists n2, net_step 2 (other EndA) LReaderEof ended = Some n2 /\ sd_dead (peer_of EndA n2) = true.
Proof.
  assert (net_reachable 2 killed) as Hr.
  { apply (net_run_reachable 2 (demo_labels ++ [(EndA, LKill)]) true true). vm_compute. reflexivity. }
  assert (net_run 2 ending killed = Some ended) as He by (vm_compute; reflexivity).
  assert (loops_ended (side_of EndA ended)) as Hl by (split; [| split]; vm_compute; reflexivity).
  pose proof (death_drains 2 EndA killed ending ended Hr ltac:(vm_compute; reflexivity) He) as (_ & _ & _ & H).
  destruct (H Hl) as (Hq & _ & Heof). split; [exact Hl |]. split; [exact Hq |]. split; [vm_compute; reflexivity |].
  assert (wire_out EndA ended = []) as Hw by (vm_compute; reflexivity).
  assert (sd_reader (peer_of EndA ended) = RSelect) as Hsel by (vm_compute; reflexivity).
  exact (Heof Hw Hsel).
Defined.
