(* ===== verification/Interleaved.v ===== *)
(** * Interleaved: the demultiplexer under all interleavings

    The specification of [Demux] for the reader of [Backpressure], whose dispatch
    of a DATA frame waits for the stream's channel while every other task goes on.
    The simulation is over the reader's steps: a frame counts as dispatched in the
    specification when its wait is over, and every other step changes nothing
    there. The answers of the specification are not free: they are read off the
    run, from the stream's channel as it is when the wait ends. *)

From S2P Require Import Prelude Mux Records External Carrier Transfer Demux Backpressure.

(** ** What an end stands for *)






(** ** What a run shows *)






(** ** The simulation *)




(** ** Steps the specification does not see *)








(** ** Steps of the specification *)

Lemma reader_waits s : side_ok s -> is_sending (sd_reader s) = 0%nat -> CReader ∉ (sd_waiting s).*1.
Proof. intros Hs Hr Hin. apply count_in in Hin. by rewrite (ok_reader s Hs), Hr in Hin. Qed.












(** ** Every step of an end *)









(** ** Runs *)



(** ** Property *)


(** ** Witness *)


