(* ===== verification/Keepalive.v ===== *)
(** * Keepalive: the liveness probe (src/carrier.rs, [keepalive_loop])

    The loop itself, over the wake-ups the runtime delivers, and its timing. A
    wake-up carries the PONG counter the loop finds, since the reader task
    counts PONGs concurrently. The timed part places the wake-ups on a clock in
    milliseconds: ticks follow tokio's interval with
    [MissedTickBehavior::Delay], each PING waits for room in the frame channel
    for a time of its own, the PONG counter is an arbitrary function of time. It
    yields the detection bound that holds. A timed reader, which counts PONGs
    between its deliveries, shows what a stalled stream does to the probe. *)

From S2P Require Import Prelude Mux Records External Carrier.

(** ** Timing constants and the tick schedule *)

(** [Duration::from_secs(s)] in milliseconds. *)
Definition secs (s : Z) : Z := 1000 * s.

(** [Duration::from_secs(ping_secs.max(1) as u64)]. *)
Definition period (ping_secs : Z) : Z := secs (Z.max ping_secs 1).

(** tokio's documented [Delay] behaviour: a tick fires one period after the
    previous one, or at once when the loop comes back later than that. The loop
    comes back when the PING of the tick has been queued, [delay k] after it, and
    the grace period is over. *)
Definition delay_schedule (ping_secs : Z) (delay tick : nat -> Z) : Prop :=
  forall k, tick (S k) = Z.max (tick k + period ping_secs) (tick k + delay k + secs KEEPALIVE_GRACE).

(** The schedule that starts at time zero. *)
Fixpoint ticks_from_zero (ping_secs : Z) (delay : nat -> Z) (k : nat) : Z :=
  match k with
  | O => 0
  | S k' => Z.max (ticks_from_zero ping_secs delay k' + period ping_secs)
              (ticks_from_zero ping_secs delay k' + delay k' + secs KEEPALIVE_GRACE)
  end.

Section keepalive.
Context {TK : Tokio}.

(** ** The loop *)

(** How the inner [select!] ends: the sleep is over and the PONG counter reads
    [p], or [dead.changed()] fires, possibly after another task's kill. *)
Inductive grace_event : Type :=
| GraceOver (p : Z)
| GraceDead (killer : option DeathCause).

(** What wakes the outer [select!]: a tick, at which the PONG counter reads [p]
    and whose inner [select!] then ends with [g], or [dead.changed()]. *)
Inductive keepalive_event : Type :=
| KaTick (p : Z) (g : grace_event)
| KaDead (killer : option DeathCause).

(** The loop of [keepalive_loop]: how many wake-ups it consumed before its
    [break] ([None]: still waiting), and the tunnel. *)
Fixpoint keepalive_loop (evs : list keepalive_event) (t : Tunnel) : option nat * Tunnel :=
  if dead t then (Some 0%nat, t) else
  match evs with
  | [] => (None, t)
  | KaDead killer :: evs' =>
      let t := interfere killer t in
      if dead t then (Some 1%nat, t)
      else let '(n, t) := keepalive_loop evs' t in (S <$> n, t)
  | KaTick p g :: evs' =>
      let t := set_pongs p t in
      let before := pongs t in
      match ping t with
      | (Err _, t) => (Some 1%nat, t)
      | (Ok _, t) =>
          match g with
          | GraceOver p =>
              let t := set_pongs p t in
              if pongs t <=? before then
                (Some 1%nat, kill_with KeepaliveTimeout (log_tunnel_death KeepaliveLoop KeepaliveTimeout t))
              else let '(n, t) := keepalive_loop evs' t in (S <$> n, t)
          | GraceDead killer =>
              let t := interfere killer t in
              if dead t then (Some 1%nat, t)
              else let '(n, t) := keepalive_loop evs' t in (S <$> n, t)
          end
      end
  end.

(** ** The loop on the clock *)

(** The wake-ups of [n] consecutive probes, when [count] is the PONG counter as
    a function of time. *)
Definition probes (count : Z -> Z) (delay tick : nat -> Z) (first n : nat) : list keepalive_event :=
  (fun k => KaTick (count (tick k)) (GraceOver (count (tick k + delay k + secs KEEPALIVE_GRACE))))
    <$> seq first n.

(** The probe of tick [k] sees no PONG. *)
Definition silent (count : Z -> Z) (delay tick : nat -> Z) (k : nat) : Prop :=
  count (tick k + delay k + secs KEEPALIVE_GRACE) <= count (tick k).

(** A PING among the wake-ups fails: the frame channel's receiver is gone. *)
Definition ping_refused (evs : list keepalive_event) (t : Tunnel) : Prop :=
  exists evs1 p g evs2 t1 e, evs = evs1 ++ KaTick p g :: evs2 /\ keepalive_loop evs1 t = (None, t1) /\
    (ping (set_pongs p t1)).1 = Err e.

(** ** The reader on the clock *)

(** Whether the delivery of a frame meets the stall timeout: the stream's channel
    stays full for [STREAM_STALL_TIMEOUT]. *)
Definition stalls (f : Frame) (t : Tunnel) : bool :=
  match f with
  | Data stream payload =>
      match registry t !! stream with
      | Some tx => match (timeout_send STREAM_STALL_TIMEOUT tx payload (env t)).1 with Elapsed => true | _ => false end
      | None => false
      end
  | _ => false
  end.

(** The reader takes frames one after another: each, with its arrival and the
    time its dispatch takes, is dispatched when it has arrived and the one before
    is done; a stalled delivery takes the whole timeout. The times at which the
    dispatches are done, with the PONG counter then. *)
Fixpoint reader_times (evs : list (Z * Z * Frame)) (now : Z) (t : Tunnel) : list (Z * Z) :=
  match evs with
  | [] => []
  | (arrival, lasts, f) :: evs =>
      let done := Z.max now arrival + (if stalls f t then secs STREAM_STALL_TIMEOUT else Z.max 0 lasts) in
      let t := dispatch f t in
      (done, pongs t) :: reader_times evs done t
  end.

(** The PONG counter as a function of time. *)
Fixpoint counter_at (times : list (Z * Z)) (p : Z) (x : Z) : Z :=
  match times with
  | [] => p
  | (done, p') :: times => if done <=? x then counter_at times p' x else p
  end.

(** When the reader is done with [evs], and its tunnel then. *)
Fixpoint reader_after (evs : list (Z * Z * Frame)) (now : Z) (t : Tunnel) : Z * Tunnel :=
  match evs with
  | [] => (now, t)
  | (arrival, lasts, f) :: evs =>
      reader_after evs
        (Z.max now arrival + (if stalls f t then secs STREAM_STALL_TIMEOUT else Z.max 0 lasts)) (dispatch f t)
  end.

(** ** Lemmas *)

Lemma ping_kept t r t' : ping t = (r, t') -> exists w, t' = set_env w t.
Proof.
  unfold ping. destruct (random_bytes KEEPALIVE_LEN (env t)) as [nonce w]. rewrite send_frame_env.
  intros [= _ <-]. eauto.
Qed.

Lemma interfere_inv killer t : tunnel_inv t -> tunnel_inv (interfere killer t).
Proof. destruct killer; [apply kill_with_inv | done]. Qed.

(** One probe: it ends the loop, by a kill or a refused PING, or saw a PONG and
    goes on. *)
Lemma probe_step p p' t :
  dead t = false ->
  (exists t', (forall evs, keepalive_loop (KaTick p (GraceOver p') :: evs) t = (Some 1%nat, t')) /\
     ((dead t' = true /\ death_cause t' = Some (default KeepaliveTimeout (death_cause t))) \/
      exists e, (ping (set_pongs p t)).1 = Err e)) \/
  (p < p' /\ exists t2, dead t2 = false /\ death_cause t2 = death_cause t /\
     forall evs, keepalive_loop (KaTick p (GraceOver p') :: evs) t =
       let '(n, t') := keepalive_loop evs t2 in (S <$> n, t')).
Proof.
  intros Ht. destruct (ping (set_pongs p t)) as [[u | e] t1] eqn:Ep.
  - destruct (ping_kept _ _ _ Ep) as [w ->]. destruct (Z.leb_spec p' p) as [Hle | Hgt].
    + left. eexists. split.
      * intros evs. cbn [keepalive_loop]. rewrite Ht, Ep. cbn [pongs set_pongs set_env].
        destruct (Z.leb_spec p' p); [reflexivity | lia].
      * left. split; [apply kill_with_dead |]. rewrite kill_with_cause. unfold log_tunnel_death. simpl.
        by destruct (death_cause t) eqn:E; simpl; rewrite ?E.
    + right. split; [done |]. exists (set_pongs p' (set_env w (set_pongs p t))). split_and!; [done | done |].
      intros evs. cbn [keepalive_loop]. rewrite Ht, Ep. cbn [pongs set_pongs set_env].
      destruct (Z.leb_spec p' p); [lia | reflexivity].
  - left. exists t1. split; [| right; by exists e]. intros evs. cbn [keepalive_loop]. by rewrite Ht, Ep.
Qed.

(** A run of probes ends at the latest at a silent one: by a kill, unless a PING
    was refused. *)
Lemma probes_end count delay tick n : forall first t,
  dead t = false -> silent count delay tick (first + n) ->
  exists m t', keepalive_loop (probes count delay tick first (S n)) t = (Some m, t') /\ (m <= S n)%nat /\
    ((dead t' = true /\ death_cause t' = Some (default KeepaliveTimeout (death_cause t))) \/
     ping_refused (probes count delay tick first (S n)) t).
Proof.
  assert (forall first k, probes count delay tick first (S k) =
    KaTick (count (tick first)) (GraceOver (count (tick first + delay first + secs KEEPALIVE_GRACE))) ::
    probes count delay tick (S first) k) as Hcons by done.
  assert (forall u, dead u = false -> keepalive_loop [] u = (None, u)) as Hnil.
  { intros u Hu. simpl. by rewrite Hu. }
  induction n as [| n IH]; intros first t Ht Hs; rewrite Hcons;
    destruct (probe_step (count (tick first)) (count (tick first + delay first + secs KEEPALIVE_GRACE)) t Ht)
      as [(t' & Hr & Hend) | (Hgt & t2 & Ht2 & Hc2 & Hr)].
  1, 3: exists 1%nat, t'; split_and!; [apply Hr | lia |]; destruct Hend as [Hk | [e He]]; [by left |];
    right; eexists [], _, _, _, t, e; split_and!; [reflexivity | by apply Hnil | exact He].
  - unfold silent in Hs. rewrite Nat.add_0_r in Hs. lia.
  - destruct (IH (S first) t2 Ht2) as (m & t' & Hr2 & Hm & Hend); [by rewrite <- Nat.add_succ_comm in Hs |].
    rewrite Hr, Hr2. exists (S m), t'. split_and!; [done | lia |]. rewrite <- Hc2.
    destruct Hend as [Hk | (evs1 & p & g & evs2 & t3 & e & He & Hl & Hp)]; [by left | right].
    exists (KaTick (count (tick first)) (GraceOver (count (tick first + delay first + secs KEEPALIVE_GRACE))) :: evs1),
      p, g, evs2, t3, e. split_and!; [by rewrite He | by rewrite Hr, Hl | exact Hp].
Qed.

Lemma keepalive_app evs1 evs2 t t1 :
  keepalive_loop evs1 t = (None, t1) ->
  keepalive_loop (evs1 ++ evs2) t =
    let '(n, t2) := keepalive_loop evs2 t1 in (Nat.add (length evs1) <$> n, t2).
Proof.
  revert t. induction evs1 as [| ev evs1 IH]; intros t.
  - cbn [keepalive_loop app length]. destruct (dead t); [done |]. intros [= <-].
    destruct (keepalive_loop evs2 t) as [[n |] t2]; done.
  - cbn [keepalive_loop app length].
    assert (forall t0, (let '(n, t) := keepalive_loop evs1 t0 in (S <$> n, t)) = (None, t1) ->
      (let '(n, t) := keepalive_loop (evs1 ++ evs2) t0 in (S <$> n, t)) =
      (let '(n, t2) := keepalive_loop evs2 t1 in (Nat.add (S (length evs1)) <$> n, t2))) as Hgo.
    { intros t0 H. destruct (keepalive_loop evs1 t0) as [[n |] t'] eqn:E; [done |].
      simplify_eq/=. rewrite (IH _ E). by destruct (keepalive_loop evs2 t1) as [[n |] t2]. }
    destruct (dead t); [done |]. destruct ev as [p g | killer].
    + destruct (ping (set_pongs p t)) as [[u | e] t']; [| done]. destruct g as [p' | killer].
      * destruct (pongs (set_pongs p' t') <=? pongs (set_pongs p t)); [done | apply Hgo].
      * destruct (dead (interfere killer t')); [done | apply Hgo].
    + destruct (dead (interfere killer t)); [done | apply Hgo].
Qed.

(** A schedule whose PINGs are queued within [d]. *)
Lemma delay_schedule_step ping_secs delay tick d k :
  delay_schedule ping_secs delay tick -> (forall k, 0 <= delay k <= d) ->
  tick k + delay k + secs KEEPALIVE_GRACE <= tick (S k) /\
  tick k < tick (S k) <= tick k + Z.max (period ping_secs) (d + secs KEEPALIVE_GRACE).
Proof.
  intros Hs Hd. specialize (Hd k). rewrite (Hs k). assert (0 < period ping_secs) by (unfold period, secs; lia). lia.
Qed.

(** The first tick at or after time [s]. *)
Lemma first_tick_after ping_secs delay tick d s :
  delay_schedule ping_secs delay tick -> (forall k, 0 <= delay k <= d) -> tick 0%nat <= s ->
  exists k, s <= tick k < s + Z.max (period ping_secs) (d + secs KEEPALIVE_GRACE).
Proof.
  intros Hs Hd H0. set (m := Z.max (period ping_secs) (d + secs KEEPALIVE_GRACE)).
  assert (0 < m) as Hm by (unfold m, period, secs, KEEPALIVE_GRACE; lia).
  assert (forall n k, s - tick k <= Z.of_nat n -> tick k <= s -> exists k, s <= tick k < s + m) as Hgo.
  { induction n as [| n IH]; intros k Hn Hk; [exists k; lia |].
    destruct (decide (s <= tick k)); [exists k; lia |].
    pose proof (delay_schedule_step _ _ _ d k Hs Hd) as Hk'. fold m in Hk'.
    destruct (decide (tick (S k) <= s)); [apply (IH (S k)); lia | exists (S k); lia]. }
  apply (Hgo (Z.to_nat (s - tick 0%nat)) 0%nat); lia.
Qed.

(** The probe that ends the loop, for a counter that stands still long enough. *)
Lemma detection ping_secs delay tick d count s t :
  delay_schedule ping_secs delay tick -> (forall k, 0 <= delay k <= d) -> tick 0%nat <= s -> dead t = false ->
  let bound := s + Z.max (period ping_secs) (d + secs KEEPALIVE_GRACE) + d + secs KEEPALIVE_GRACE in
  (forall x, s <= x < bound -> count x = count s) ->
  exists j m t', keepalive_loop (probes count delay tick 0 (S j)) t = (Some m, t') /\ (m <= S j)%nat /\
    ((dead t' = true /\ death_cause t' = Some (default KeepaliveTimeout (death_cause t))) \/
     ping_refused (probes count delay tick 0 (S j)) t) /\
    forall k, (k <= j)%nat -> tick k + delay k + secs KEEPALIVE_GRACE < bound.
Proof.
  intros Hs Hd H0 Ht bound Hc. destruct (first_tick_after ping_secs delay tick d s Hs Hd H0) as (j & Hj1 & Hj2).
  assert (secs KEEPALIVE_GRACE = 2000) as Hg by reflexivity. pose proof (Hd j) as Hdj.
  destruct (probes_end count delay tick j 0 t Ht) as (m & t' & Hr & Hm & Hend).
  { unfold silent. simpl. rewrite (Hc (tick j + _ + _)), (Hc (tick j)) by (unfold bound; lia). lia. }
  exists j, m, t'. split_and!; [done.. |].
  assert (forall a b, (a <= b)%nat -> tick a + delay a <= tick b + delay b) as Hmono.
  { intros a b Hab. induction Hab as [| b Hab IH]; [lia |].
    pose proof (delay_schedule_step _ _ _ d b Hs Hd). pose proof (Hd (S b)). lia. }
  intros k Hk. specialize (Hmono k j Hk). unfold bound. lia.
Qed.

(** ** Lemmas on the timed reader *)

Lemma reader_times_app evs1 evs2 now t :
  reader_times (evs1 ++ evs2) now t =
    reader_times evs1 now t ++ reader_times evs2 (reader_after evs1 now t).1 (reader_after evs1 now t).2.
Proof.
  revert now t. induction evs1 as [| [[arrival lasts] f] evs1 IH]; intros now t; [done |].
  cbn [app reader_times reader_after]. by rewrite IH.
Qed.

Lemma reader_times_done evs : forall now t,
  Forall (fun e => now <= e.1 <= (reader_after evs now t).1) (reader_times evs now t) /\ now <= (reader_after evs now t).1.
Proof.
  induction evs as [| [[arrival lasts] f] evs IH]; intros now t; cbn [reader_times reader_after]; [split; [constructor | simpl; lia] |].
  set (fin := Z.max now arrival + _). assert (now <= fin) as Hd.
  { unfold fin. destruct (stalls f t); unfold secs, STREAM_STALL_TIMEOUT; lia. }
  clearbody fin. destruct (IH fin (dispatch f t)) as [H1 H2]. split; [constructor; [simpl fst in *; lia |] | lia].
  eapply Forall_impl; [exact H1 |]. intros e He. simpl in He. lia.
Qed.

(** All that is done by [x] has been counted. *)
Lemma counter_at_app times1 times2 p x :
  Forall (fun e => e.1 <= x) times1 ->
  counter_at (times1 ++ times2) p x = counter_at times2 (default p (snd <$> last times1)) x.
Proof.
  intros H. revert p. induction H as [| [fin p'] times1 Hd _ IH]; intros p; [done |].
  cbn [app counter_at]. simpl in Hd. destruct (Z.leb_spec fin x); [| lia]. rewrite IH, last_cons. by destruct (last times1).
Qed.

(** While the reader is in a stalled delivery, it counts nothing. *)
Lemma stalled_counter pre arrival lasts f post now t x :
  stalls f (reader_after pre now t).2 = true ->
  let start := Z.max (reader_after pre now t).1 arrival in
  start <= x < start + secs STREAM_STALL_TIMEOUT ->
  let count := counter_at (reader_times (pre ++ (arrival, lasts, f) :: post) now t) (pongs t) in
  count x = count start.
Proof.
  intros Hf start Hx count. unfold count. rewrite reader_times_app.
  destruct (reader_times_done pre now t) as [Hd _].
  rewrite !counter_at_app by (eapply Forall_impl; [exact Hd | intros e He; cbn beta in He |- *; unfold start in *; lia]).
  cbn [reader_times counter_at]. rewrite Hf. fold start.
  destruct (Z.leb_spec (start + secs STREAM_STALL_TIMEOUT) x), (Z.leb_spec (start + secs STREAM_STALL_TIMEOUT) start);
    unfold secs, STREAM_STALL_TIMEOUT in *; lia || done.
Qed.

(** ** Properties *)

(** One probe whose PING the frame channel takes: the loop kills
    the tunnel with [KeepaliveTimeout] exactly when no PONG was counted during
    the grace period, logs that death once, and otherwise goes on. *)
Theorem keepalive_verdict p p' evs t u t1 :
  ping (set_pongs p t) = (Ok u, t1) -> dead t = false ->
  match keepalive_loop (KaTick p (GraceOver p') :: evs) t with
  | (out, t') =>
      if p' <=? p then
        out = Some 1%nat /\ dead t' = true /\ registry t' = ∅ /\
        death_cause t' = Some (default KeepaliveTimeout (death_cause t)) /\
        (death_cause t = None -> length (logged t') = S (length (logged t)))
      else (out, t') = let '(n, t'') := keepalive_loop evs (set_pongs p' t1) in (S <$> n, t'')
  end.
Proof.
  intros Hp Ht. cbn [keepalive_loop]. rewrite Ht, Hp. destruct (ping_kept _ _ _ Hp) as [w ->].
  cbn [pongs set_pongs set_env]. destruct (Z.leb_spec p' p) as [Hle | Hgt].
  - split_and!; [done | apply kill_with_dead | done | |].
    + rewrite kill_with_cause. unfold log_tunnel_death. simpl. by destruct (death_cause t) eqn:E; simpl; rewrite ?E.
    + intros Hn. destruct (kill_with_kept KeepaliveTimeout (log_tunnel_death KeepaliveLoop KeepaliveTimeout
        (set_pongs p' (set_env w (set_pongs p t))))) as (_ & _ & Hl & _).
      unfold set_pongs, set_env in *. simpl in *. rewrite Hl.
      unfold log_tunnel_death. simpl. rewrite Hn. simpl. rewrite length_app. simpl. lia.
  - by destruct (keepalive_loop evs (set_pongs p' (set_env w (set_pongs p t)))) as [n t''].
Qed.

(** (C25) Detection bound. A PING waits for room in the frame channel; while
    each of them is queued within [d] of its tick, and no PONG is counted after
    time [s], the loop has ended before [s + max(ping, d + 2 s) + d + 2 s]: it
    has killed the tunnel, with its cause recorded, unless one of its PINGs was
    refused because the channel's receiver was gone. With [ping >= 2] and no
    waiting this is the documented [ping + 2 s]; a PING that never finds room
    keeps the loop from ending, which is why [d] is needed. *)
Theorem keepalive_detects ping_secs delay tick d count s t :
  delay_schedule ping_secs delay tick -> (forall k, 0 <= delay k <= d) -> tick 0%nat <= s -> dead t = false ->
  (forall x, s <= x -> count x = count s) ->
  exists j m t', keepalive_loop (probes count delay tick 0 (S j)) t = (Some m, t') /\ (m <= S j)%nat /\
    ((dead t' = true /\ death_cause t' = Some (default KeepaliveTimeout (death_cause t))) \/
     ping_refused (probes count delay tick 0 (S j)) t) /\
    (forall k, (k <= j)%nat -> tick k + delay k + secs KEEPALIVE_GRACE <
       s + Z.max (period ping_secs) (d + secs KEEPALIVE_GRACE) + d + secs KEEPALIVE_GRACE) /\
    (2 <= ping_secs -> d = 0 ->
       s + Z.max (period ping_secs) (d + secs KEEPALIVE_GRACE) + d + secs KEEPALIVE_GRACE = s + secs (ping_secs + 2)).
Proof.
  intros Hs Hd H0 Ht Hc.
  destruct (detection ping_secs delay tick d count s t Hs Hd H0 Ht) as (j & m & t' & Hr & Hm & Hend & Hb).
  { intros x Hx. apply Hc. lia. }
  exists j, m, t'. split_and!; [done.. |]. intros. unfold period, secs, KEEPALIVE_GRACE. lia.
Qed.

(** (C39) A stalled stream and the default keepalive. The reader that meets a
    DATA frame for a stream whose consumer does not drain waits in its delivery
    for [STREAM_STALL_TIMEOUT], then drops that one stream. But it counts no PONG
    meanwhile: with a ping interval of one or two seconds and PINGs queued
    within half a second, the keepalive ends before that, and has killed the
    whole tunnel unless one of its PINGs was refused. *)
Theorem stalled_reader_killed ping_secs delay tick d pre arrival lasts id payload post now t0 t :
  1 <= ping_secs <= 2 -> delay_schedule ping_secs delay tick -> (forall k, 0 <= delay k <= d) -> d < 500 ->
  let '(free, tR) := reader_after pre now t0 in
  let start := Z.max free arrival in
  let count := counter_at (reader_times (pre ++ (arrival, lasts, Data id payload) :: post) now t0) (pongs t0) in
  stalls (Data id payload) tR = true -> tick 0%nat <= start -> dead t = false ->
  (is_Some (registry tR !! id) /\ registry (dispatch (Data id payload) tR) !! id = None /\
   (reader_after (pre ++ [(arrival, lasts, Data id payload)]) now t0).1 = start + secs STREAM_STALL_TIMEOUT) /\
  exists j m t', keepalive_loop (probes count delay tick 0 (S j)) t = (Some m, t') /\ (m <= S j)%nat /\
    ((dead t' = true /\ death_cause t' = Some (default KeepaliveTimeout (death_cause t))) \/
     ping_refused (probes count delay tick 0 (S j)) t) /\
    forall k, (k <= j)%nat -> tick k + delay k + secs KEEPALIVE_GRACE < start + secs STREAM_STALL_TIMEOUT.
Proof.
  intros Hping Hs Hd Hd5. destruct (reader_after pre now t0) as [free tR] eqn:Er.
  intros start count Hst H0 Ht. split.
  - split_and!.
    + simpl in Hst. by destruct (registry tR !! id).
    + cbn [stalls] in Hst. cbn [dispatch deliver]. unfold deliver. destruct (registry tR !! id) as [tx |]; [| done].
      destruct (timeout_send STREAM_STALL_TIMEOUT tx payload (env tR)) as [[] w]; try done.
      unfold close. rewrite send_frame_env. simpl. apply lookup_delete_eq.
    + assert (forall evs1 evs2 n u, reader_after (evs1 ++ evs2) n u =
        reader_after evs2 (reader_after evs1 n u).1 (reader_after evs1 n u).2) as Happ.
      { induction evs1 as [| [[a l] f] evs1 IH]; intros evs2 n u; [done |]. cbn [app reader_after]. apply IH. }
      rewrite Happ, Er. cbn [reader_after fst snd]. by rewrite Hst.
  - destruct (detection ping_secs delay tick d count start t Hs Hd H0 Ht) as (j & m & t' & Hr & Hm & Hend & Hb).
    + intros x Hx. pose proof (stalled_counter pre arrival lasts (Data id payload) post now t0 x) as Hcnt.
      rewrite Er in Hcnt. apply Hcnt; [exact Hst |]. change (start <= x < start + secs STREAM_STALL_TIMEOUT).
      unfold period, secs, KEEPALIVE_GRACE, STREAM_STALL_TIMEOUT in *. lia.
    + exists j, m, t'. split_and!; [done.. |]. intros k Hk. specialize (Hb k Hk).
      unfold period, secs, KEEPALIVE_GRACE, STREAM_STALL_TIMEOUT in *. lia.
Qed.

End keepalive.

(** The documented bound [ping + 2 s] fails for [ping = 1], even when every PING
    is queued at once: with
    a peer whose only PONG is counted at 1 ms, the loop does not kill the
    tunnel at the probe of time 0, the next probe runs at 2 s, not 1 s, and the
    kill comes at 4 s, 999 ms later than documented. *)
Theorem ping_one_exceeds_doc :
  let count x := if x <? 1 then 0 else 1 in
  let at_once (_ : nat) := 0 in
  let tick := ticks_from_zero 1 at_once in
  delay_schedule 1 at_once tick /\ tick 1%nat = secs 2 /\
  (keepalive_loop (probes count at_once tick 0 1) toy_tunnel).1 = None /\
  (keepalive_loop (probes count at_once tick 0 2) toy_tunnel).1 = Some 2%nat /\
  1 + secs 1 + secs KEEPALIVE_GRACE < tick 1%nat + secs KEEPALIVE_GRACE.
Proof. split_and!; done. Qed.

(** ** Witnesses *)

Definition at_once (_ : nat) : Z := 0.

Lemma keepalive_verdict_witness :
  match @keepalive_loop sure_tokio [KaTick 4 (GraceOver 4)] sure_tunnel with
  | (out, t') =>
      if 4 <=? 4 then
        out = Some 1%nat /\ dead t' = true /\ registry t' = ∅ /\
        death_cause t' = Some (default KeepaliveTimeout (death_cause sure_tunnel)) /\
        (death_cause sure_tunnel = None -> length (logged t') = S (length (logged sure_tunnel)))
      else (out, t') = let '(n, t'') := keepalive_loop [] (set_pongs 4 (ping (set_pongs 4 sure_tunnel)).2) in (S <$> n, t'')
  end.
Proof.
  exact (@keepalive_verdict sure_tokio 4 4 [] sure_tunnel tt (ping (set_pongs 4 sure_tunnel)).2 eq_refl eq_refl).
Defined.

(** PINGs that wait 100 ms each. *)
Lemma keepalive_detects_witness :
  exists j m t', keepalive_loop (probes (fun _ => 3) (fun _ => 100) (ticks_from_zero 2 (fun _ => 100)) 0 (S j)) sure_tunnel
      = (Some m, t') /\ (m <= S j)%nat /\
    ticks_from_zero 2 (fun _ => 100) j + 100 + secs KEEPALIVE_GRACE < 10 + 2100 + 100 + 2000.
Proof.
  destruct (@keepalive_detects sure_tokio 2 (fun _ => 100) (ticks_from_zero 2 (fun _ => 100)) 100 (fun _ => 3) 10 sure_tunnel)
    as (j & m & t' & H1 & H2 & _ & H3 & _).
  - intros k. reflexivity.
  - intros k. lia.
  - simpl. lia.
  - reflexivity.
  - reflexivity.
  - exists j, m, t'. split; [exact H1 |]. split; [exact H2 | exact (H3 j (le_n j))].
Defined.

(** The reader meets a DATA frame for stream 5, whose consumer has stalled, at
    10 ms; a PONG waits behind it. *)
Definition stalled_world : toy_world := mkToyWorld 1 [] [] [] [] [0%nat] false [].

Definition stalled_tunnel : @Tunnel toy_tokio :=
  @set_registry toy_tokio {[5 := 0%nat]} (@spawn_tunnel toy_tokio 2 [] stalled_world).1.

Lemma stalled_reader_killed_witness :
  let times := @reader_times toy_tokio [(5, 0, Pong []); (10, 0, Data 5 [1]); (12, 0, Pong [])] 0 stalled_tunnel in
  times = [(5, 1); (5010, 1); (5010, 2)] /\
  exists j m t', keepalive_loop (probes (counter_at times 0) at_once (ticks_from_zero 2 at_once) 0 (S j)) stalled_tunnel
      = (Some m, t') /\ (m <= S j)%nat /\
    ticks_from_zero 2 at_once j + 0 + secs KEEPALIVE_GRACE < 10 + secs STREAM_STALL_TIMEOUT.
Proof.
  split; [vm_compute; reflexivity |].
  destruct (@stalled_reader_killed toy_tokio 2 at_once (ticks_from_zero 2 at_once) 0 [(5, 0, Pong [])] 10 0 5 [1]
    [(12, 0, Pong [])] 0 stalled_tunnel stalled_tunnel) as (_ & j & m & t' & H1 & H2 & _ & H3).
  - lia.
  - intros k. reflexivity.
  - intros k. unfold at_once. lia.
  - lia.
  - vm_compute. reflexivity.
  - simpl. lia.
  - reflexivity.
  - exists j, m, t'. split; [exact H1 |]. split; [exact H2 | exact (H3 j (le_n j))].
Defined.
