(* ===== verification/Probe.v ===== *)
(** * Probe: the keepalive's question and the peer's answer (src/carrier.rs)

    [Keepalive] judges a tunnel by its PONG counter. Here is where that counter
    comes from: a PING queued by [ping] crosses the wire, the peer's reader
    queues a PONG with the same nonce, which crosses the other way and is
    counted; so the probe of a healthy link passes. *)

From S2P Require Import Prelude Mux Records External Carrier Transfer Demux Keepalive.

(** ** The specification's replies and counter *)

(** PONGs among frames. *)
Definition is_pong (f : Frame) : bool := match f with Pong _ => true | _ => false end.

Definition pongs_in (fs : list Frame) : Z := len (filter (fun f => is_pong f = true) fs).

Lemma pongs_in_cons f fs : pongs_in (f :: fs) = (if is_pong f then 1 else 0) + pongs_in fs.
Proof.
  unfold pongs_in. rewrite filter_cons. destruct (is_pong f).
  - rewrite decide_True by done. by rewrite len_cons.
  - by rewrite decide_False by done.
Qed.

Lemma pongs_in_pos n fs : Pong n ∈ fs -> 1 <= pongs_in fs.
Proof.
  intros Hin. assert (Pong n ∈ filter (fun f => is_pong f = true) fs) as Hf by (by apply list_elem_of_filter).
  unfold pongs_in. destruct (filter _ fs) as [| f l]; [by apply elem_of_nil in Hf |].
  rewrite len_cons. pose proof (len_nonneg l). lia.
Qed.

Lemma pongs_in_nonneg fs : 0 <= pongs_in fs.
Proof. apply len_nonneg. Qed.

Lemma demux_step_pongs o f a :
  is_uint 64 (pong_count a) ->
  pong_count (demux_step o f a) = wrap 64 (pong_count a + if is_pong f then 1 else 0).
Proof.
  intros Hp. assert (wrap 64 (pong_count a + 0) = pong_count a) as Hw by (rewrite Z.add_0_r; by apply wrap_small).
  destruct f as [s | s p | s | n | n]; cbn [demux_step is_pong]; rewrite ?Hw; try done.
  destruct (open_streams a !! s); [by destruct (an_send o) | done].
Qed.

(** While the counter does not overflow, a run adds the PONGs it dispatches. *)
Lemma demux_run_pongs ofs a :
  0 <= pong_count a -> pong_count a + pongs_in ofs.*2 < 2 ^ 64 ->
  pong_count (demux_run ofs a) = pong_count a + pongs_in ofs.*2.
Proof.
  revert a. induction ofs as [| [o f] ofs IH]; intros a H0 H1.
  - change (pong_count a = pong_count a + 0). lia.
  - cbn [fmap list_fmap snd demux_run] in *. rewrite pongs_in_cons in H1 |- *.
    pose proof (pongs_in_nonneg ofs.*2).
    assert (pong_count (demux_step o f a) = pong_count a + if is_pong f then 1 else 0) as Hs.
    { rewrite demux_step_pongs by (destruct (is_pong f); unfold is_uint; lia). apply wrap_small. destruct (is_pong f); unfold is_uint; lia. }
    rewrite IH; rewrite Hs; destruct (is_pong f); lia.
Qed.

(** What has been queued stays queued. *)
Lemma demux_step_replies o f a x : x ∈ replies a -> x ∈ replies (demux_step o f a).
Proof.
  intros Hx. assert (forall g, x ∈ replies (reply g o a)) as Hr by (intros; simpl; set_solver).
  destruct f as [s | s p | s | n | n]; simpl; try done; [| by apply (Hr (Pong n))].
  destruct (open_streams a !! s); [| by apply (Hr (Close s))].
  destruct (an_send o); [done | by apply (Hr (Close s)) | simpl; set_solver].
Qed.

Lemma demux_run_replies ofs a x : x ∈ replies a -> x ∈ replies (demux_run ofs a).
Proof. revert a. induction ofs as [| [o f] ofs IH]; intros a Hx; [done |]. apply IH. by apply demux_step_replies. Qed.

(** A PING whose reply the frame channel takes is answered. *)
Lemma demux_run_ping n ofs a :
  Ping n ∈ ofs.*2 -> (forall o, (o, Ping n) ∈ ofs -> an_reply o = true) ->
  Pong n ∈ replies (demux_run ofs a).
Proof.
  revert a. induction ofs as [| [o f] ofs IH]; intros a Hin Ho; simpl in Hin; [by apply elem_of_nil in Hin |].
  cbn [demux_run]. apply elem_of_cons in Hin as [<- | Hin].
  - apply demux_run_replies. simpl. rewrite (Ho o) by left. set_solver.
  - apply IH; [done |]. intros o' Hin'. apply Ho. by right.
Qed.

Lemma answered_frames {TK : Tokio} fs t : (answered fs t).*2 = fs.
Proof. revert t. induction fs as [| f fs IH]; intros t; [done |]. cbn. by rewrite IH. Qed.

Section probe.
Context {PC : PacketCodec} {PL : PacketCodecLaws PC} {TK : Tokio} {TL : TokioLaws TK}.

(** [ping] queues one PING with a fresh nonce of eight bytes. *)
Lemma ping_queued t u t' :
  ping t = (Ok u, t') ->
  exists n, queued (env t') = queued (env t) ++ [Ping n] /\ wf_frame (Ping n) /\
    dead t' = dead t /\ pongs t' = pongs t.
Proof using TL.
  unfold ping. pose proof (random_len KEEPALIVE_LEN (env t) ltac:(unfold KEEPALIVE_LEN; lia)) as [Hl Hb].
  pose proof (random_queued KEEPALIVE_LEN (env t)) as Hq.
  destruct (random_bytes KEEPALIVE_LEN (env t)) as [n w]. simpl in *.
  rewrite send_frame_env. simpl. pose proof (frames_queued (Ping n) w) as Hf.
  destruct (frames_send (Ping n) w) as [[] w']; simpl in *; [| done]. intros [= _ <-]. exists n.
  simpl. rewrite Hf, Hq. by split_and!.
Qed.

(** (C23) The probe of a healthy link passes. A PING that [ping]
    queued carries an eight-byte nonce; when the peer's reader, over any split of
    the bytes, meets it among the frames the writer wrote, it queues a PONG with
    that nonce, if the peer's frame channel takes it; when that PONG, among any
    other frames, has been read back, every PONG of them is counted, the counter
    is higher than it was at the tick, and the keepalive, its grace period over, goes on without killing. *)
Theorem probe_answered tA tA' u tx1 rx1 tx2 rx2 :
  synced tx1 rx1 -> synced tx2 rx2 -> dead tA = false -> 0 <= pongs tA -> ping tA = (Ok u, tA') ->
  exists n, queued (env tA') = queued (env tA) ++ [Ping n] /\ wf_frame (Ping n) /\
  forall fs1 c1 rs1 tW1 tW1' cs1 tB,
    Ping n ∈ fs1 -> Forall wf_frame fs1 -> writer_run (WvFrame <$> fs1) [] tx1 tW1 = (c1, rs1, None, tW1') ->
    Forall (fun c => c <> []) cs1 -> concat cs1 = concat rs1 -> dead tB = false -> channels_ok tB ->
    (forall o, (o, Ping n) ∈ answered fs1 tB -> an_reply o = true) ->
    exists rB tB', reader_run (reads cs1) (reader_new rx1) tB = (rB, Continue, tB') /\
      Pong n ∈ queued (env tB') /\
  forall fs2 c2 rs2 tW2 tW2' cs2 tA2,
    Pong n ∈ fs2 -> Forall wf_frame fs2 -> writer_run (WvFrame <$> fs2) [] tx2 tW2 = (c2, rs2, None, tW2') ->
    Forall (fun c => c <> []) cs2 -> concat cs2 = concat rs2 -> dead tA2 = false -> channels_ok tA2 ->
    pongs tA <= pongs tA2 -> pongs tA2 + pongs_in fs2 < 2 ^ 64 ->
    exists rA tA3, reader_run (reads cs2) (reader_new rx2) tA2 = (rA, Continue, tA3) /\
      pongs tA3 = pongs tA2 + pongs_in fs2 /\ pongs tA < pongs tA3 /\
      (keepalive_loop [KaTick (pongs tA) (GraceOver (pongs tA3))] tA).1 = None.
Proof using PL TL.
  intros Hs1 Hs2 Hd Hp0 Hping. destruct (ping_queued _ _ _ Hping) as (n & Hq & Hwf & Hd' & _).
  exists n. split; [done |]. split; [done |].
  intros fs1 c1 rs1 tW1 tW1' cs1 tB Hin1 Hf1 Hw1 Hc1 He1 HdB HcB Ho1.
  destruct (written_dispatched fs1 tx1 rx1 c1 rs1 tW1 tW1' cs1 tB) as [rB HrB]; try done.
  exists rB, (dispatch_all fs1 tB). split; [done |].
  destruct (dispatch_all_step fs1 tB HcB) as [_ HaB]. split.
  { change (Pong n ∈ replies (abs (dispatch_all fs1 tB))). rewrite HaB.
    apply demux_run_ping; [by rewrite answered_frames | done]. }
  intros fs2 c2 rs2 tW2 tW2' cs2 tA2 Hin2 Hf2 Hw2 Hc2 He2 HdA HcA Hle Hbound.
  destruct (written_dispatched fs2 tx2 rx2 c2 rs2 tW2 tW2' cs2 tA2) as [rA HrA]; try done.
  exists rA, (dispatch_all fs2 tA2). split; [done |].
  assert (pongs (dispatch_all fs2 tA2) = pongs tA2 + pongs_in fs2) as Hn.
  { destruct (dispatch_all_step fs2 tA2 HcA) as [_ HaA]. apply (f_equal pong_count) in HaA.
    rewrite demux_run_pongs in HaA by (rewrite ?answered_frames; simpl; lia).
    by rewrite answered_frames in HaA. }
  pose proof (pongs_in_pos n fs2 Hin2). split; [done |]. split; [lia |]. cbn [keepalive_loop]. rewrite Hd.
  assert (set_pongs (pongs tA) tA = tA) as -> by (by destruct tA). rewrite Hping. cbn [pongs set_pongs].
  destruct (Z.leb_spec (pongs (dispatch_all fs2 tA2)) (pongs tA)); [lia |].
  simpl. by rewrite Hd', Hd.
Qed.

End probe.

(** ** Witness *)

Definition toy_nonce : list Z := replicate 8 7.

Definition toy_written (f : Frame) : @Tunnel toy_tokio :=
  (@writer_run toy_codec toy_tokio [WvFrame f] [] tt toy_tunnel).2.

Lemma probe_answered_witness :
  exists n, queued (TokioLaws := toy_tokio_laws) (env (@ping toy_tokio toy_tunnel).2)
      = queued (TokioLaws := toy_tokio_laws) (env toy_tunnel) ++ [Ping n] /\ n = toy_nonce /\
  exists rB tB', @reader_run toy_codec toy_tokio (reads [toy_rec (Ping n)]) (@reader_new toy_codec tt) toy_tunnel
      = (rB, Continue, tB') /\ Pong n ∈ queued (TokioLaws := toy_tokio_laws) (env tB') /\
  exists rA tA3, @reader_run toy_codec toy_tokio (reads [toy_rec (Pong n)]) (@reader_new toy_codec tt) toy_tunnel
      = (rA, Continue, tA3) /\ pongs tA3 = pongs toy_tunnel + pongs_in [Pong n] /\ pongs toy_tunnel < pongs tA3 /\
    (keepalive_loop [KaTick (pongs toy_tunnel) (GraceOver (pongs tA3))] toy_tunnel).1 = None.
Proof.
  destruct (@probe_answered toy_codec toy_codec_laws toy_tokio toy_tokio_laws toy_tunnel
    (@ping toy_tokio toy_tunnel).2 tt tt tt tt tt I I eq_refl ltac:(done) eq_refl) as (n & Hq & Hwf & HB).
  assert (n = toy_nonce) as -> by (vm_compute in Hq; by injection Hq).
  exists toy_nonce. split; [exact Hq |]. split; [reflexivity |].
  assert (@channels_ok toy_tokio toy_tokio_laws toy_tunnel) as Hok
    by (split; intros *; simpl; rewrite lookup_empty; discriminate).
  assert (forall r, [toy_rec r] <> [[]] -> Forall (fun c => c <> []) [toy_rec r]) as Hne.
  { intros r Hr. constructor; [intros Hn; by rewrite Hn in Hr | constructor]. }
  destruct (HB [Ping toy_nonce] tt [toy_rec (Ping toy_nonce)] toy_tunnel
    (toy_written (Ping toy_nonce)) [toy_rec (Ping toy_nonce)] toy_tunnel)
    as (rB & tB' & HrB & HpB & HA).
  - apply list_elem_of_here.
  - by constructor.
  - vm_compute. reflexivity.
  - by apply Hne.
  - reflexivity.
  - reflexivity.
  - exact Hok.
  - intros o Hin. apply list_elem_of_In in Hin. vm_compute in Hin. by destruct Hin as [[= <-] | []].
  - exists rB, tB'. split; [exact HrB |]. split; [exact HpB |].
    refine (HA [Pong toy_nonce] tt [toy_rec (Pong toy_nonce)] toy_tunnel
      (toy_written (Pong toy_nonce)) [toy_rec (Pong toy_nonce)] toy_tunnel
      _ _ _ _ _ _ _ _ _).
    + apply list_elem_of_here.
    + by constructor.
    + vm_compute. reflexivity.
    + by apply Hne.
    + reflexivity.
    + reflexivity.
    + exact Hok.
    + reflexivity.
    + reflexivity.
Defined.
