(* ===== verification/Lifecycle.v ===== *)
(** * Lifecycle: the death of a tunnel under interleaving (src/carrier.rs, src/client.rs)

    [Carrier] runs each operation to its end. Here the same code runs as tasks
    on a multi-threaded runtime: a task is a program counter, a step is one
    atomic access to the shared state (a mutex section, the watch channel, the
    log), and any task may step next. The tasks are the three loops with their
    death path [log_tunnel_death; kill_with], external [kill] calls (server
    shutdown), and the client's stream openings. The theorems hold in every
    reachable state; two reachable states show what the log line promises and
    does not keep. *)

From S2P Require Import Prelude Carrier.

(** ** Tasks and shared state *)

(** Who put an entry into the registry: the task that opens a stream, or the
    reader on a peer's OPEN. *)
Definition owner : Type := (nat + Z)%type.

(** Program counters. The death path of a loop is [LogCheck] (the cause is read),
    [LogWrite] (the line is written), [SetCause] ([kill_with]'s slot),
    [SetKilled] ([kill]'s slot), [SendDead] (the watch channel), [CloseAll]. An
    external [kill] starts at [SetKilled]. [Exited] is the keepalive's silent end.
    A stream opening
    ([accept_connection], one attempt) is [AccRegister], [AccOpen], [AccCheck]. *)
Inductive pc : Type :=
| Running (who : loop_name)
| LogCheck (who : loop_name) (c : DeathCause)
| LogWrite (who : loop_name) (c : DeathCause)
| SetCause (c : DeathCause)
| SetKilled
| SendDead
| CloseAll
| Finished
| Exited
| AccRegister (id : Z)
| AccOpen (id : Z)
| AccCheck (id : Z)
| AccPumping (id : Z)
| AccFailed (id : Z).

Record shared : Type := mkShared {
  sh_dead : bool;
  sh_cause : option DeathCause;
  sh_registry : gmap Z owner;
  sh_lines : list (loop_name * DeathCause);
}.

(** [if slot.is_none() { *slot = Some(c) }]. *)
Definition fill (c : DeathCause) (o : option DeathCause) : option DeathCause :=
  match o with
  | None => Some c
  | Some c' => Some c'
  end.

(** ** Steps of task number [i] *)

(** The loops. *)
Inductive loop_step : shared -> pc -> shared -> pc -> Prop :=
| st_register s d c r l :
    (* the reader registers a stream the peer opened *)
    loop_step (mkShared d c r l) (Running ReaderLoop)
      (mkShared d c (<[s := inr s]> r) l) (Running ReaderLoop)
| st_remove s d c r l :
    (* the reader removes a stream: CLOSE, or a stalled consumer *)
    loop_step (mkShared d c r l) (Running ReaderLoop)
      (mkShared d c (delete s r) l) (Running ReaderLoop)
| st_break who cause sh :
    (* the loop breaks out, to its death path *)
    loop_step sh (Running who) sh (LogCheck who cause).

(** The keepalive's exits without a death path: the flag is set (on entry, in
    the grace period, while waiting for a tick), or a PING is refused. *)
Inductive keepalive_exit : shared -> pc -> shared -> pc -> Prop :=
| st_exit_dead c r l :
    keepalive_exit (mkShared true c r l) (Running KeepaliveLoop) (mkShared true c r l) Exited
| st_exit_ping sh :
    keepalive_exit sh (Running KeepaliveLoop) sh Exited.

(** [log_tunnel_death]. *)
Inductive log_step : shared -> pc -> shared -> pc -> Prop :=
| st_log_skip who cause d c r l :
    log_step (mkShared d (Some c) r l) (LogCheck who cause)
      (mkShared d (Some c) r l) (SetCause cause)
| st_log_go who cause d r l :
    log_step (mkShared d None r l) (LogCheck who cause)
      (mkShared d None r l) (LogWrite who cause)
| st_log who cause d c r l :
    log_step (mkShared d c r l) (LogWrite who cause)
      (mkShared d c r (l ++ [(who, cause)])) (SetCause cause).

(** [kill_with] and [kill]. *)
Inductive kill_step : shared -> pc -> shared -> pc -> Prop :=
| st_set_cause cause d c r l :
    kill_step (mkShared d c r l) (SetCause cause)
      (mkShared d (fill cause c) r l) SetKilled
| st_set_killed d c r l :
    kill_step (mkShared d c r l) SetKilled (mkShared d (fill Killed c) r l) SendDead
| st_send_dead d c r l :
    kill_step (mkShared d c r l) SendDead (mkShared true c r l) CloseAll
| st_close_all d c r l :
    kill_step (mkShared d c r l) CloseAll (mkShared d c ∅ l) Finished.

(** A stream opening of the client by task number [i]. *)
Inductive accept_step (i : nat) : shared -> pc -> shared -> pc -> Prop :=
| st_acc_register id d c r l :
    accept_step i (mkShared d c r l) (AccRegister id) (mkShared d c (<[id := inl i]> r) l) (AccOpen id)
| st_acc_open id sh :
    accept_step i sh (AccOpen id) sh (AccCheck id)
| st_acc_open_fail id sh :
    accept_step i sh (AccOpen id) sh (AccFailed id)
| st_acc_dead id c r l :
    accept_step i (mkShared true c r l) (AccCheck id) (mkShared true c r l) (AccFailed id)
| st_acc_live id c r l :
    accept_step i (mkShared false c r l) (AccCheck id) (mkShared false c r l) (AccPumping id).

Inductive task_step (i : nat) : shared -> pc -> shared -> pc -> Prop :=
| task_loop sh p sh' p' : loop_step sh p sh' p' -> task_step i sh p sh' p'
| task_exit sh p sh' p' : keepalive_exit sh p sh' p' -> task_step i sh p sh' p'
| task_log sh p sh' p' : log_step sh p sh' p' -> task_step i sh p sh' p'
| task_kill sh p sh' p' : kill_step sh p sh' p' -> task_step i sh p sh' p'
| task_accept sh p sh' p' : accept_step i sh p sh' p' -> task_step i sh p sh' p'.

(** By the step a task takes. *)
Ltac by_step Ht := destruct Ht as [? ? ? ? Ht | ? ? ? ? Ht | ? ? ? ? Ht | ? ? ? ? Ht | ? ? ? ? Ht]; destruct Ht.

Definition system : Type := (shared * list pc)%type.

Inductive step : system -> system -> Prop :=
| step_task i sh p sh' p' ts :
    ts !! i = Some p -> task_step i sh p sh' p' -> step (sh, ts) (sh', <[i := p']> ts).

(** A fresh tunnel with its loops, and other tasks about to use or kill it. *)
Definition shared0 : shared := mkShared false None ∅ [].

Definition initial_pc (p : pc) : Prop :=
  match p with
  | Running _ | SetKilled | AccRegister _ => True
  | _ => False
  end.

Definition reachable (ts : list pc) (s : system) : Prop :=
  Forall initial_pc ts /\ star step (shared0, ts) s.

(** A task with nothing left to do on this tunnel's shared state. *)
Definition settled (p : pc) : Prop :=
  match p with
  | Finished | Exited | AccPumping _ | AccFailed _ => True
  | _ => False
  end.

(** The lines a task may still write. *)
Definition lines_left (p : pc) : nat :=
  match p with
  | Running _ | LogCheck _ _ | LogWrite _ _ => 1
  | _ => 0
  end.

Definition total_left (ts : list pc) : nat := sum_list (lines_left <$> ts).

(** ** Invariants of reachable states *)

(** What a program counter knows about the shared state: past [SetKilled] a
    cause is recorded. *)
Definition past_killed (p : pc) : bool :=
  match p with
  | SendDead | CloseAll | Finished => true
  | _ => false
  end.

Definition death_inv (s : system) : Prop :=
  (sh_dead s.1 = true -> is_Some (sh_cause s.1)) /\
  forall i p, s.2 !! i = Some p -> past_killed p = true -> is_Some (sh_cause s.1).

(** An open stream's registration on a dead tunnel is about to be closed. *)
Definition stream_inv (s : system) : Prop :=
  forall i id, s.2 !! i = Some (AccPumping id) -> sh_registry s.1 !! id = Some (inl i) ->
    sh_dead s.1 = false \/ exists j, s.2 !! j = Some CloseAll.

Lemma fill_some c o : is_Some (fill c o).
Proof. destruct o; simpl; eauto. Qed.

Lemma fill_keeps c o c' : o = Some c' -> fill c o = Some c'.
Proof. by intros ->. Qed.

Lemma step_cause s s' c : step s s' -> sh_cause s.1 = Some c -> sh_cause s'.1 = Some c.
Proof. destruct 1 as [i sh p sh' p' ts _ Ht]. by_step Ht; simpl; intros; subst; done. Qed.

Lemma step_dead s s' : step s s' -> sh_dead s.1 = true -> sh_dead s'.1 = true.
Proof. destruct 1 as [i sh p sh' p' ts _ Ht]. by by_step Ht. Qed.

Lemma step_death_inv s s' : step s s' -> death_inv s -> death_inv s'.
Proof.
  intros Hs [Hd Hp]. assert (is_Some (sh_cause s.1) -> is_Some (sh_cause s'.1)) as Hk.
  { intros [c Hc]. exists c. by eapply step_cause. }
  destruct Hs as [i sh p sh' p' ts Hi Ht]. simpl in *. split.
  - intros Hdead. destruct (sh_dead sh) eqn:E; [by apply Hk, Hd |].
    by_step Ht; simpl in *; try congruence. by apply (Hp i SendDead).
  - intros j q Hj Hq. destruct (lookup_moved _ _ _ _ _ _ Hi Hj) as [[-> ->] | [_ Hj']].
    + by_step Ht; try discriminate Hq; simpl in *; try apply fill_some;
        by apply (Hp i _ Hi).
    + apply Hk. by apply (Hp j q).
Qed.

Lemma step_lines s s' :
  step s s' -> (length (sh_lines s'.1) + total_left s'.2 <= length (sh_lines s.1) + total_left s.2)%nat.
Proof.
  destruct 1 as [i sh p sh' p' ts Hi Ht]. simpl. unfold total_left.
  pose proof (sum_moved lines_left ts i p p' Hi) as Hsum.
  by_step Ht; simpl in *; rewrite ?length_app; simpl; lia.
Qed.

Lemma step_stream_inv s s' : step s s' -> stream_inv s -> stream_inv s'.
Proof.
  intros Hs Hinv i id Hi' Hr. destruct Hs as [k sh p sh' p' ts Hk Ht]. simpl in *.
  destruct (lookup_moved _ _ _ _ _ _ Hk Hi') as [[-> <-] | [Hne Hi]].
  { inversion Ht as [? ? ? ? Hs | ? ? ? ? Hs | ? ? ? ? Hs | ? ? ? ? Hs | ? ? ? ? Hs]; subst; inversion Hs; subst. by left. }
  assert (forall d, (p = CloseAll -> False) -> d = sh_dead sh ->
    sh_registry sh !! id = Some (inl i) ->
    d = false \/ exists j, <[k := p']> ts !! j = Some CloseAll) as Hgo.
  { intros d Hp -> Hsh. destruct (Hinv i id Hi Hsh) as [Hd | [j Hj]]; [by left |].
    right. exists j. rewrite list_lookup_insert_ne; [done |].
    intros ->. simpl in Hj. rewrite Hk in Hj. injection Hj as ->. by apply Hp. }
  by_step Ht; simpl in *; try (apply Hgo; done); try done.
  - apply Hgo; [done | done |].
    destruct (decide (s = id)) as [-> | Hs]; [by rewrite lookup_insert_eq in Hr |].
    by rewrite lookup_insert_ne in Hr.
  - apply Hgo; [done | done |].
    destruct (decide (s = id)) as [-> | Hs]; [by rewrite lookup_delete_eq in Hr |].
    by rewrite lookup_delete_ne in Hr.
  - right. exists k. apply list_lookup_insert_eq. by apply lookup_lt_Some in Hk.
  - apply Hgo; [done | done |].
    destruct (decide (id0 = id)) as [-> | Hs].
    + rewrite lookup_insert_eq in Hr. simplify_eq.
    + by rewrite lookup_insert_ne in Hr.
Qed.

(** The invariants hold initially. *)
Lemma initial_death_inv ts : Forall initial_pc ts -> death_inv (shared0, ts).
Proof.
  intros Hts. split; [done |]. intros i p Hp Hpast. simpl in Hp.
  pose proof (Forall_lookup_1 _ _ _ _ Hts Hp) as Hi. destruct p; done.
Qed.

Lemma initial_stream_inv ts : stream_inv (shared0, ts).
Proof. intros i id _ Hr. done. Qed.

Lemma reachable_death_inv ts s : reachable ts s -> death_inv s.
Proof.
  intros [Hts Hs]. eapply star_invariant; [exact step_death_inv | exact Hs | by apply initial_death_inv].
Qed.

Lemma reachable_stream_inv ts s : reachable ts s -> stream_inv s.
Proof.
  intros [_ Hs]. eapply star_invariant; [exact step_stream_inv | exact Hs | apply initial_stream_inv].
Qed.

(** ** Properties *)

(** (C16) Under every interleaving: a dead tunnel has a recorded cause, and
    once a cause is recorded or the tunnel is dead, no later step of any task
    changes the cause or revives the tunnel. *)
Theorem death_is_final ts s s' :
  reachable ts s -> star step s s' ->
  (sh_dead s.1 = true -> is_Some (sh_cause s.1)) /\
  (forall c, sh_cause s.1 = Some c -> sh_cause s'.1 = Some c) /\
  (sh_dead s.1 = true -> sh_dead s'.1 = true).
Proof.
  intros Hr Hs. destruct (reachable_death_inv _ _ Hr) as [Hd _]. split_and!; [done | |].
  - intros c. eapply (star_invariant step (fun s => sh_cause s.1 = Some c)); [| exact Hs].
    intros s1 s2 H12. by apply step_cause.
  - eapply (star_invariant step (fun s => sh_dead s.1 = true)); [| exact Hs].
    intros s1 s2 H12. by apply step_dead.
Qed.

(** (C17) No stream survives its tunnel: if [accept_connection] handed a
    stream to its pump and the tunnel is dead, then as soon as the death tasks
    have run, the stream's inbound sender is out of the registry, so the pump
    sees the end of its stream. This holds for every interleaving of the opening
    with a kill, because the registration precedes the check of the flag and the
    flag precedes the closing. *)
Theorem no_orphan_stream ts sh ts' i id :
  reachable ts (sh, ts') -> Forall settled ts' -> sh_dead sh = true ->
  ts' !! i = Some (AccPumping id) -> sh_registry sh !! id <> Some (inl i).
Proof.
  intros Hr Hset Hd Hi Hreg. destruct (reachable_stream_inv _ _ Hr i id Hi Hreg) as [Hf | [j Hj]].
  - simpl in Hf. congruence.
  - by apply (Forall_lookup_1 _ _ _ _ Hset) in Hj.
Qed.

(** Each loop writes at most one "tunnel down" line: a tunnel with its
    three loops never logs more than three, and external kills log none. *)
Theorem lines_bounded ts s : reachable ts s -> (length (sh_lines s.1) <= total_left ts)%nat.
Proof.
  intros [_ Hs]. enough (length (sh_lines s.1) + total_left s.2 <= total_left ts)%nat by lia.
  eapply (star_invariant step
    (fun s => length (sh_lines s.1) + total_left s.2 <= total_left ts)%nat); [| exact Hs | done].
  intros s1 s2 H12 H1. pose proof (step_lines _ _ H12). lia.
Qed.

(** Run task [i] by one step. *)
Lemma star_task i sh p sh' p' ts s :
  ts !! i = Some p -> task_step i sh p sh' p' -> star step (sh', <[i := p']> ts) s ->
  star step (sh, ts) s.
Proof. intros Hi Ht Hs. eapply star_step; [by eapply step_task | done]. Qed.

Ltac run_task i :=
  eapply (star_task i); [reflexivity | first [apply task_log; constructor | apply task_kill; constructor | apply task_accept; constructor] | simpl].

(** The log line is not "exactly once": the reader and the writer can
    both check the cause before either records one, and then both write the
    line, with different causes, while only one of them is recorded. *)
Theorem death_logged_twice :
  exists s, reachable [Running WriterLoop; Running ReaderLoop; Running KeepaliveLoop] s /\
    sh_lines s.1 = [(ReaderLoop, PeerClosed); (WriterLoop, WriteError)] /\
    sh_cause s.1 = Some PeerClosed.
Proof.
  eexists. split_and!.
  - split; [repeat constructor |].
    eapply (star_task 1); [reflexivity | apply task_loop, (st_break ReaderLoop PeerClosed) | simpl].
    eapply (star_task 0); [reflexivity | apply task_loop, (st_break WriterLoop WriteError) | simpl].
    run_task 1%nat. run_task 0%nat. run_task 1%nat. run_task 0%nat. run_task 1%nat.
    apply star_refl.
  - reflexivity.
  - reflexivity.
Qed.

(** A tunnel killed from outside ([kill], at server shutdown) dies with
    no log line at all: the loops find the cause already recorded. *)
Theorem kill_not_logged :
  exists s, reachable [Running WriterLoop; Running ReaderLoop; SetKilled] s /\
    Forall settled s.2 /\ sh_dead s.1 = true /\ sh_cause s.1 = Some Killed /\ sh_lines s.1 = [].
Proof.
  eexists. split_and!.
  - split; [repeat constructor |].
    run_task 2%nat. run_task 2%nat. run_task 2%nat.
    eapply (star_task 1); [reflexivity | apply task_loop, (st_break ReaderLoop Killed) | simpl].
    run_task 1%nat. run_task 1%nat. run_task 1%nat. run_task 1%nat. run_task 1%nat.
    eapply (star_task 0); [reflexivity | apply task_loop, (st_break WriterLoop Killed) | simpl].
    run_task 0%nat. run_task 0%nat. run_task 0%nat. run_task 0%nat. run_task 0%nat.
    apply star_refl.
  - repeat constructor.
  - reflexivity.
  - reflexivity.
  - reflexivity.
Qed.

(** ** Witnesses *)

Lemma toy_kill_run :
  reachable [AccRegister 1; SetKilled] (mkShared true (Some Killed) ∅ [], [AccPumping 1; Finished]).
Proof.
  split; [repeat constructor |].
  run_task 0%nat. eapply (star_task 0); [reflexivity | apply task_accept, st_acc_open | simpl].
  eapply (star_task 0); [reflexivity | apply task_accept, st_acc_live | simpl].
  run_task 1%nat. run_task 1%nat. run_task 1%nat. apply star_refl.
Defined.

Lemma death_is_final_witness :
  (true = true -> is_Some (Some Killed)) /\
  (forall c, Some Killed = Some c -> Some Killed = Some c) /\ (true = true -> true = true).
Proof. exact (death_is_final _ _ _ toy_kill_run (star_refl _ _)). Defined.

Lemma no_orphan_stream_witness :
  (∅ : gmap Z owner) !! 1 <> Some (inl 0%nat).
Proof.
  apply (no_orphan_stream _ _ _ 0 1 toy_kill_run).
  - repeat constructor.
  - reflexivity.
  - reflexivity.
Defined.

Lemma lines_bounded_witness : (length (@nil (loop_name * DeathCause)) <= 0)%nat.
Proof. exact (lines_bounded _ _ toy_kill_run). Defined.
