(* ===== verification/Pump.v ===== *)
(** * Pump: bridging a local socket and a stream (pump_stream of carrier.rs)

    The two directions of [pump_stream] as loops over what their awaits return:
    the local socket's reads for the uplink, the stream's inbound channel with
    the outcome of each local write for the downlink. The end-to-end theorem
    puts the pumps of both ends, the tunnel's writer and reader and the codec
    together. That the write-only shutdown of the local socket is made is
    recorded here; what it does is in [HalfClose]. *)

From S2P Require Import Prelude Mux Records External Carrier Transfer.

(** ** Data *)

(** What [inbound.recv()] returns, with the outcome of writing the chunk to the
    local socket under [STREAM_WRITE_TIMEOUT]. *)
Inductive inbound_event : Type :=
| InChunk (chunk : list Z) (o : write_outcome)
| InClosed.

(** What the downlink does to the local socket. *)
Inductive local_op : Type :=
| LocalWrite (chunk : list Z)
| LocalWriteFailed (chunk : list Z)
| LocalFin.

Section pump.
Context {PC : PacketCodec} {TK : Tokio}.

(** The read loop of the uplink; the flag tells whether it has ended (or is
    waiting for a read). *)
Fixpoint up_loop (id : Z) (reads : list (read_event unit)) (t : Tunnel) : bool * Tunnel :=
  match reads with
  | [] => (false, t)
  | ReadError _ :: _ => (true, t)
  | ReadData chunk :: reads =>
      if (length chunk =? 0)%nat then (true, t)
      else match send id chunk t with
           | (Err _, t) => (true, t)
           | (Ok _, t) => up_loop id reads t
           end
  end.

Definition up (id : Z) (reads : list (read_event unit)) (t : Tunnel) : bool * Tunnel :=
  let '(ended, t) := up_loop id reads t in
  if ended then (true, close id t) else (false, t).

(** The write loop of the downlink. *)
Fixpoint down_loop (evs : list inbound_event) : bool * list local_op :=
  match evs with
  | [] => (false, [])
  | InClosed :: _ => (true, [])
  | InChunk chunk Written :: evs =>
      let '(ended, ops) := down_loop evs in (ended, LocalWrite chunk :: ops)
  | InChunk chunk _ :: _ => (true, [LocalWriteFailed chunk])
  end.

Definition down (evs : list inbound_event) : bool * list local_op :=
  let '(ended, ops) := down_loop evs in
  (ended, if ended then ops ++ [LocalFin] else ops).

(** [join!(up, down)]: the pump is finished when both directions are. *)
Definition pump_stream (id : Z) (reads : list (read_event unit)) (evs : list inbound_event) (t : Tunnel)
  : bool * Tunnel * list local_op :=
  let '(up_ended, t) := up id reads t in
  let '(down_ended, ops) := down evs in
  (up_ended && down_ended, t, ops).

(** ** Lemmas *)

Lemma accepted_app fs1 fs2 w w' :
  accepted (fs1 ++ fs2) w w' <-> exists w1, accepted fs1 w w1 /\ accepted fs2 w1 w'.
Proof.
  revert w. induction fs1 as [| f fs1 IH]; intros w; simpl.
  - split; [intros H; exists w; by split; [constructor |] |]. intros (w1 & H1 & H2). by inversion H1; subst.
  - split.
    + intros H. inversion H as [| f' fs' w0 w2 w3 Hf Hr]; subst. apply IH in Hr as (w1 & H1 & H2).
      exists w1. split; [by eapply accepted_cons | done].
    + intros (w1 & H1 & H2). inversion H1 as [| f' fs' w0 w2 w3 Hf Hr]; subst.
      eapply accepted_cons; [exact Hf |]. apply IH. by exists w1.
Qed.

(** A read of at most [READ_BUF] bytes is one DATA frame. *)
Lemma send_one id chunk t w :
  chunk <> [] -> len chunk <= READ_BUF -> frames_send (Data id chunk) (env t) = (true, w) ->
  send id chunk t = (Ok tt, set_env w t).
Proof.
  intros Hne Hl Hf. unfold send. assert (chunks (Z.to_nat MAX_DATA) chunk = [chunk]) as ->.
  { unfold READ_BUF, MAX_DATA, len in *. unfold chunks. destruct chunk as [| c r]; [done |].
    cbn [length chunks_fuel]. rewrite take_ge, drop_ge by lia. by destruct (length r). }
  unfold send_chunks, send_frame. by rewrite Hf.
Qed.

Lemma up_loop_reads id cs rest t w :
  Forall (fun c => c <> [] /\ len c <= READ_BUF) cs -> accepted (Data id <$> cs) (env t) w ->
  up_loop id ((ReadData <$> cs) ++ rest) t = up_loop id rest (set_env w t).
Proof.
  intros Hcs. revert t. induction Hcs as [| c cs [Hc Hl] _ IH]; intros t Ha.
  - inversion Ha; subst. by rewrite set_env_env.
  - inversion Ha as [| f fs w0 w1 w2 Hf Hr]; subst. cbn [fmap list_fmap app up_loop].
    destruct (Nat.eqb_spec (length c) 0) as [H0 | _]; [by apply nil_length_inv in H0 |].
    rewrite (send_one id c t w1) by done. rewrite IH by done. by rewrite set_env_set_env.
Qed.

Lemma down_loop_written cs rest :
  down_loop (((fun c => InChunk c Written) <$> cs) ++ rest) =
    (let '(ended, ops) := down_loop rest in (ended, (LocalWrite <$> cs) ++ ops)).
Proof.
  induction cs as [| c cs IH]; cbn [fmap list_fmap app down_loop].
  - by destruct (down_loop rest).
  - rewrite IH. by destruct (down_loop rest).
Qed.

(** ** Properties *)

(** The uplink: however the local socket's bytes are split
    into reads, each read becomes one DATA frame, in order, and the end of the
    input (end of stream or a read error) becomes exactly one CLOSE after them;
    nothing read after it is sent. *)
Theorem pump_up_spec id cs last rest t w :
  Forall (fun c => c <> [] /\ len c <= READ_BUF) cs -> (forall c, last = ReadData c -> c = []) ->
  accepted ((Data id <$> cs) ++ [Close id]) (env t) w ->
  up id ((ReadData <$> cs) ++ last :: rest) t = (true, set_env w t).
Proof.
  intros Hcs Hlast Ha. apply accepted_app in Ha as (w1 & H1 & H2). unfold up.
  rewrite (up_loop_reads id cs _ t w1) by done. inversion H2 as [| f fs w0 w2 w3 Hf Hr]; subst.
  inversion Hr; subst.
  assert (up_loop id (last :: rest) (set_env w1 t) = (true, set_env w1 t)) as ->.
  { destruct last as [c | e]; [| done]. by rewrite (Hlast c eq_refl). }
  unfold close, send_frame. cbn [env set_env]. rewrite Hf. reflexivity.
Qed.

(** The downlink: the chunks are written to the local socket
    in order, and its write side is shut down exactly once, at the end: after
    the last chunk when the peer closed the stream, after the failed or stalled
    write otherwise; until then the socket stays open. *)
Theorem pump_down_spec cs rest :
  down (((fun c => InChunk c Written) <$> cs) ++ InClosed :: rest) = (true, (LocalWrite <$> cs) ++ [LocalFin]) /\
  (forall c o, o <> Written ->
     down (((fun c => InChunk c Written) <$> cs) ++ InChunk c o :: rest)
     = (true, (LocalWrite <$> cs) ++ [LocalWriteFailed c; LocalFin])) /\
  down ((fun c => InChunk c Written) <$> cs) = (false, LocalWrite <$> cs).
Proof.
  unfold down. split; [| split].
  - rewrite down_loop_written. cbn [down_loop]. by rewrite app_nil_r.
  - intros c o Ho. rewrite down_loop_written. destruct o; [done | |]; cbn [down_loop]; by rewrite <- app_assoc.
  - rewrite <- (app_nil_r ((fun c => InChunk c Written) <$> cs)), down_loop_written. cbn [down_loop]. by rewrite !app_nil_r.
Qed.

(** When the peer or the tunnel has closed the stream the local side gets its FIN,
    but the pump does not end before the local socket does: the uplink waits in
    its read. *)
Lemma closed_pump_waits id t : pump_stream id [] [InClosed] t = (false, t, [LocalFin]).
Proof. reflexivity. Qed.

Section laws.
Context {PL : PacketCodecLaws PC}.

(** The whole path of one direction of a connection. The
    local application writes bytes and closes; the uplink pump reads them in any
    split and queues its frames; the writer encrypts and writes them; the bytes
    reach the peer in any split; its reader hands the stream's channel the
    chunks in order and closes it; its downlink pump writes them and shuts down
    the upstream socket. What is written there is, byte for byte, what was read
    here, and the tunnel goes on with that one stream gone. *)
Theorem relay_end_to_end id cs rest txc rxc c' rs tU w tS tS' wire tR snd wR :
  synced txc rxc -> is_uint 32 id -> Forall bytes_ok cs ->
  Forall (fun c => c <> [] /\ len c <= READ_BUF) cs ->
  let frames := (Data id <$> cs) ++ [Close id] in
  accepted frames (env tU) w ->
  writer_run (WvFrame <$> frames) [] txc tS = (c', rs, None, tS') ->
  Forall (fun c => c <> []) wire -> concat wire = concat rs ->
  dead tR = false -> registry tR !! id = Some snd -> send_all snd cs (env tR) = Some wR ->
  up id ((ReadData <$> cs) ++ ReadData [] :: rest) tU = (true, set_env w tU) /\
  (exists r', reader_run (reads wire) (reader_new rxc) tR
     = (r', Continue, set_registry (delete id (registry tR)) (set_env wR tR))) /\
  exists ops, down (((fun c => InChunk c Written) <$> cs) ++ [InClosed]) = (true, ops ++ [LocalFin]) /\
    concat ((fun op => match op with LocalWrite c => c | _ => [] end) <$> ops) = concat cs.
Proof.
  intros Hs Hid Hb Hcs frames Ha Hw Hwire Heq Hd Hreg Hsend. split; [| split].
  - unfold up. apply accepted_app in Ha as (w1 & H1 & H2).
    rewrite (up_loop_reads id cs _ tU w1) by done. inversion H2 as [| f fs w0 w2 w3 Hf Hr]; subst.
    inversion Hr; subst. simpl. unfold close, send_frame. cbn [env set_env]. by rewrite Hf.
  - destruct (written_dispatched frames txc rxc c' rs tS tS' wire tR) as [r' Hrun]; try done.
    + apply Forall_app. split; [| apply Forall_cons; split; [exact Hid | by apply Forall_nil]].
      apply Forall_fmap, List.Forall_forall. intros c Hin.
      rewrite List.Forall_forall in Hb, Hcs. by destruct (Hcs c Hin) as [_ Hl]; split_and!; [| apply Hb |].
    + exists r'. rewrite Hrun. unfold frames, dispatch_all. rewrite fold_left_app.
      fold (dispatch_all (Data id <$> cs) tR). by rewrite (dispatch_data id snd cs tR wR).
  - exists (LocalWrite <$> cs). unfold down. rewrite down_loop_written. cbn [down_loop].
    rewrite app_nil_r. split; [done |]. rewrite <- list_fmap_compose. f_equal. apply list_fmap_id.
Qed.

End laws.

End pump.

(** ** Witnesses *)

Lemma toy_accepted : exists w, @accepted toy_tokio ((Data 1 <$> [[104; 105]; [33]]) ++ [Close 1]) (env toy_tunnel) w.
Proof. eexists. do 3 (eapply accepted_cons; [reflexivity |]). apply accepted_nil. Defined.

Lemma pump_up_spec_witness :
  exists w, @up toy_tokio 1 ((ReadData <$> [[104; 105]; [33]]) ++ ReadError tt :: []) toy_tunnel
    = (true, set_env w toy_tunnel).
Proof.
  destruct toy_accepted as [w Hw]. exists w.
  apply (@pump_up_spec toy_tokio 1 [[104; 105]; [33]] (ReadError tt) [] toy_tunnel w).
  - repeat constructor; try discriminate; unfold len, READ_BUF, MAX_DATA; simpl; lia.
  - intros c Hc. discriminate Hc.
  - exact Hw.
Defined.

Lemma relay_end_to_end_witness :
  exists w wR, @up toy_tokio 1 ((ReadData <$> [[104; 105]; [33]]) ++ ReadData [] :: []) toy_tunnel
    = (true, set_env w toy_tunnel) /\
  (exists r', @reader_run toy_codec toy_tokio
      (reads [toy_rec (Data 1 [104; 105]) ++ [23]; drop 1 (toy_rec (Data 1 [33])) ++ toy_rec (Close 1)])
      (@reader_new toy_codec tt) toy_open_tunnel
     = (r', Continue, set_registry (delete 1 (registry toy_open_tunnel)) (set_env wR toy_open_tunnel))) /\
  exists ops, down (((fun c => InChunk c Written) <$> [[104; 105]; [33]]) ++ [InClosed]) = (true, ops ++ [LocalFin]) /\
    concat ((fun op => match op with LocalWrite c => c | _ => [] end) <$> ops) = concat [[104; 105]; [33]].
Proof.
  destruct toy_accepted as [w Hw]. exists w. eexists.
  eapply (@relay_end_to_end toy_codec toy_tokio toy_codec_laws 1 [[104; 105]; [33]] [] tt tt tt
    [toy_rec (Data 1 [104; 105]); toy_rec (Data 1 [33]); toy_rec (Close 1)] toy_tunnel w toy_tunnel _
    [toy_rec (Data 1 [104; 105]) ++ [23]; drop 1 (toy_rec (Data 1 [33])) ++ toy_rec (Close 1)] toy_open_tunnel 0%nat).
  - exact I.
  - split; [lia | reflexivity].
  - repeat constructor; cbv; congruence.
  - repeat constructor; try discriminate; unfold len, READ_BUF, MAX_DATA; simpl; lia.
  - exact Hw.
  - vm_compute. reflexivity.
  - repeat constructor; discriminate.
  - reflexivity.
  - reflexivity.
  - reflexivity.
  - vm_compute. reflexivity.
Defined.
