(* ===== verification/HalfClose.v ===== *)
(** * HalfClose: the write-only shutdown of a local socket (WriteFin of src/carrier.rs)

    [WriteFin] keeps the raw descriptor of a socket whose two halves belong to
    the two directions of [pump_stream], and shuts its write side down behind
    their backs. Here the descriptor table is part of the state: the directions
    run as interleaving steps, a direction that ends drops its half, the socket
    is closed with the second half, and everything else in the process may open,
    use and close descriptors in between and reuse a closed one's number. *)

From S2P Require Import Prelude Mux Records External Carrier Transfer Pump.

(** ** Descriptors *)

(** A socket with the connection it belongs to. *)
Record socket : Type := mkSocket {
  so_conn : nat;
  so_connected : bool;
  so_read : bool;
  so_write : bool;
}.

Abbreviation kernel := (gmap Z socket).

(** shutdown(2) with SHUT_WR: an error on a descriptor that is not open and on a
    connection that is gone. *)
Definition shutdown_write (fd : Z) (k : kernel) : result unit unit * kernel :=
  match k !! fd with
  | None => (Err tt, k)
  | Some so =>
      if so_connected so
      then (Ok tt, <[fd := mkSocket (so_conn so) true (so_read so) false]> k)
      else (Err tt, k)
  end.

(** [WriteFin], [WriteFin::capture] and [WriteFin::fin]: the socket rebuilt from
    the descriptor is never dropped, so nothing is closed. *)
Record WriteFin : Type := mkWriteFin { wf_fd : Z }.

Definition capture (stream_fd : Z) : WriteFin := mkWriteFin stream_fd.

Definition fin (w : WriteFin) (k : kernel) : result unit unit * kernel := shutdown_write (wf_fd w) k.

(** ** The two directions *)

(** The uplink reads, then sends its CLOSE; the downlink receives and writes,
    then makes its FIN. A direction that is done has dropped its half. *)
Inductive up_pc : Type := UpReading | UpClosing | UpDone.
Inductive down_pc : Type := DownReceiving | DownFin | DownDone.

#[export] Instance up_pc_eq_dec : EqDecision up_pc.
Proof. solve_decision. Defined.

#[export] Instance down_pc_eq_dec : EqDecision down_pc.
Proof. solve_decision. Defined.

(** With the inbound events so far and what was done to the local socket. *)
Record pump_state : Type := mkPump {
  ps_kernel : kernel;
  ps_fin : WriteFin;
  ps_up : up_pc;
  ps_down : down_pc;
  ps_events : list inbound_event;
  ps_ops : list local_op;
}.

Definition up_done (s : pump_state) : bool := bool_decide (ps_up s = UpDone).
Definition down_done (s : pump_state) : bool := bool_decide (ps_down s = DownDone).
Definition finished (s : pump_state) : bool := up_done s && down_done s.

(** Dropping a half closes the socket if the other half is gone. *)
Definition drop_half (other_gone : bool) (fd : Z) (k : kernel) : kernel :=
  if other_gone then delete fd k else k.

Section pump.
(** The local socket's descriptor and its connection. *)
Context (fd : Z) (conn : nat).

(** The socket is there, the handle is captured before the split. *)
Definition pump_init (k : kernel) : pump_state := mkPump k (capture fd) UpReading DownReceiving [] [].

Inductive pump_step : pump_state -> pump_state -> Prop :=
| pp_read s so :
    (* a read returns bytes, and they are sent *)
    ps_up s = UpReading -> ps_kernel s !! fd = Some so -> so_read so = true ->
    pump_step s s
| pp_up_end s :
    (* end of file, a read error, a failed send *)
    ps_up s = UpReading ->
    pump_step s (mkPump (ps_kernel s) (ps_fin s) UpClosing (ps_down s) (ps_events s) (ps_ops s))
| pp_close s :
    (* CLOSE sent; the read half is dropped *)
    ps_up s = UpClosing ->
    pump_step s (mkPump (drop_half (down_done s) fd (ps_kernel s)) (ps_fin s) UpDone (ps_down s)
      (ps_events s) (ps_ops s))
| pp_written s chunk :
    ps_down s = DownReceiving ->
    pump_step s (mkPump (ps_kernel s) (ps_fin s) (ps_up s) DownReceiving
      (ps_events s ++ [InChunk chunk Written]) (ps_ops s ++ [LocalWrite chunk]))
| pp_write_failed s chunk o :
    ps_down s = DownReceiving -> o <> Written ->
    pump_step s (mkPump (ps_kernel s) (ps_fin s) (ps_up s) DownFin
      (ps_events s ++ [InChunk chunk o]) (ps_ops s ++ [LocalWriteFailed chunk]))
| pp_inbound_closed s :
    ps_down s = DownReceiving ->
    pump_step s (mkPump (ps_kernel s) (ps_fin s) (ps_up s) DownFin (ps_events s ++ [InClosed]) (ps_ops s))
| pp_fin s :
    (* the FIN; then the write half is dropped *)
    ps_down s = DownFin ->
    pump_step s (mkPump (drop_half (up_done s) fd (fin (ps_fin s) (ps_kernel s)).2) (ps_fin s) (ps_up s) DownDone
      (ps_events s) (ps_ops s ++ [LocalFin])).

(** The rest of the process and the network: other descriptors are opened,
    changed and closed at will, the pump's once it has closed it; no other
    descriptor gets the pump's connection; the peer may reset the connection. *)
Inductive other_step : pump_state -> pump_state -> Prop :=
| os_others s k :
    (finished s = false -> k !! fd = ps_kernel s !! fd) ->
    (forall fd' so, k !! fd' = Some so -> so_conn so = conn -> ps_kernel s !! fd' = Some so) ->
    other_step s (mkPump k (ps_fin s) (ps_up s) (ps_down s) (ps_events s) (ps_ops s))
| os_reset s so :
    ps_kernel s !! fd = Some so -> so_conn so = conn ->
    other_step s (mkPump (<[fd := mkSocket conn false (so_read so) (so_write so)]> (ps_kernel s))
      (ps_fin s) (ps_up s) (ps_down s) (ps_events s) (ps_ops s)).

Definition step (s s' : pump_state) : Prop := pump_step s s' \/ other_step s s'.

(** From a table in which the connection has this descriptor only. *)
Definition pump_reachable (s : pump_state) : Prop :=
  exists k, k !! fd = Some (mkSocket conn true true true) /\
    (forall fd' so, k !! fd' = Some so -> so_conn so = conn -> fd' = fd) /\
    star step (pump_init k) s.

(** ** Invariant *)

(** The connection has at most the pump's descriptor; the pump owns it until
    both directions are done, with the read side open, and the write side until
    the FIN; afterwards the connection is closed. *)
Definition owns_at (k : kernel) (up_done down_done : bool) : Prop :=
  (forall fd' so, k !! fd' = Some so -> so_conn so = conn -> fd' = fd /\ up_done && down_done = false) /\
  (up_done && down_done = false ->
     exists so, k !! fd = Some so /\ so_conn so = conn /\ so_read so = true /\
       (down_done = false -> so_write so = true) /\
       (down_done = true -> so_connected so = true -> so_write so = false)).

Definition owns (s : pump_state) : Prop := owns_at (ps_kernel s) (up_done s) (down_done s).

(** What was done to the socket is what the sequential downlink does. *)
Definition follows (s : pump_state) : Prop :=
  match ps_down s with
  | DownReceiving => down_loop (ps_events s) = (false, ps_ops s)
  | DownFin => down_loop (ps_events s) = (true, ps_ops s)
  | DownDone => down (ps_events s) = (true, ps_ops s)
  end.

Definition pump_inv (s : pump_state) : Prop := ps_fin s = capture fd /\ owns s /\ follows s.

Lemma down_loop_app evs rest ops :
  down_loop evs = (false, ops) ->
  down_loop (evs ++ rest) = (let '(ended, ops') := down_loop rest in (ended, ops ++ ops')).
Proof.
  revert ops. induction evs as [| [c [] |] evs IH]; intros ops; cbn [down_loop app]; try done.
  - intros [= <-]. by destruct (down_loop rest).
  - destruct (down_loop evs) as [[] ops0] eqn:E; [done |]. intros [= <-]. rewrite (IH ops0) by done.
    by destruct (down_loop rest).
Qed.

Lemma step_follows s s' : step s s' -> follows s -> follows s'.
Proof.
  unfold follows. intros [[s0 so Hu | s0 Hu | s0 Hu | s0 c Hd | s0 c o Hd Ho | s0 Hd | s0 Hd] | [s0 k | s0 so]];
    simpl; try done; rewrite Hd; intros Hf; rewrite ?(down_loop_app _ _ _ Hf); cbn [down_loop]; rewrite ?app_nil_r; try done.
  - by destruct o.
  - unfold down. by rewrite Hf.
Qed.

(** While the pump owns the socket the FIN shuts down the socket's own write
    side, or reports that the connection is gone. *)
Lemma fin_owned k so :
  k !! fd = Some so ->
  fin (capture fd) k =
    if so_connected so then (Ok tt, <[fd := mkSocket (so_conn so) true (so_read so) false]> k) else (Err tt, k).
Proof. unfold fin, shutdown_write, capture. simpl. by intros ->. Qed.

Lemma drop_half_lookup b k fd' so :
  drop_half b fd k !! fd' = Some so -> k !! fd' = Some so /\ (b = true -> fd' <> fd).
Proof. destruct b; simpl; [| done]. rewrite lookup_delete_Some. naive_solver. Qed.

Lemma finished_false s : finished s = false <-> ps_up s <> UpDone \/ ps_down s <> DownDone.
Proof.
  unfold finished, up_done, down_done. destruct (decide (ps_up s = UpDone)), (decide (ps_down s = DownDone));
    rewrite ?bool_decide_true, ?bool_decide_false by done; naive_solver.
Qed.

Lemma up_done_at s pc : ps_up s = pc -> up_done s = bool_decide (pc = UpDone).
Proof. unfold up_done. by intros ->. Qed.

Lemma down_done_at s pc : ps_down s = pc -> down_done s = bool_decide (pc = DownDone).
Proof. unfold down_done. by intros ->. Qed.

(** The end of the uplink, and the FIN with the end of the downlink. *)
Lemma owns_up_end k d : owns_at k false d -> owns_at (drop_half d fd k) true d.
Proof.
  intros [H1 H2]. destruct (H2 eq_refl) as (so & Hk & Hso). destruct d; simpl.
  - split; [| done]. intros fd' so' [Hin Hne]%(drop_half_lookup true) Hc. by destruct (H1 _ _ Hin Hc), Hne.
  - split; [| intros _; by exists so]. intros fd' so' Hin Hc. by destruct (H1 _ _ Hin Hc).
Qed.

Lemma owns_fin k u : owns_at k u false -> owns_at (drop_half u fd (fin (capture fd) k).2) u true.
Proof.
  intros [H1 H2]. destruct (H2 (andb_false_r u)) as (so & Hk & Hc & Hr & _ & _).
  rewrite (fin_owned _ _ Hk). set (k' := snd _).
  assert (forall fd' so', k' !! fd' = Some so' -> so_conn so' = conn -> fd' = fd) as Honly.
  { subst k'. intros fd' so'. destruct (so_connected so); simpl; [| intros Hin Hc'; by destruct (H1 _ _ Hin Hc')].
    rewrite lookup_insert_Some. intros [[<- _] | [_ Hin]] Hc'; [done | by destruct (H1 _ _ Hin Hc')]. }
  split.
  - intros fd' so' [Hin Hne]%drop_half_lookup Hc'. split; [by eapply Honly |].
    destruct u; [| done]. destruct Hne; [done | by eapply Honly].
  - destruct u; [done |]. intros _. subst k'. simpl. destruct (so_connected so) eqn:Hcn; simpl.
    + eexists. rewrite lookup_insert_eq. split; [done |]. simpl. naive_solver.
    + exists so. split_and!; naive_solver.
Qed.

Lemma pump_step_owns s s' : pump_step s s' -> ps_fin s = capture fd -> owns s -> owns s'.
Proof.
  unfold owns. intros Hs Hw Ho.
  destruct Hs as [s0 so Hu | s0 Hu | s0 Hu | s0 c Hd | s0 c o Hd _ | s0 Hd | s0 Hd]; [done | | | | | |].
  - by rewrite (up_done_at _ _ Hu) in Ho.
  - rewrite (up_done_at _ _ Hu) in Ho. by apply owns_up_end.
  - by rewrite (down_done_at _ _ Hd) in Ho.
  - by rewrite (down_done_at _ _ Hd) in Ho.
  - by rewrite (down_done_at _ _ Hd) in Ho.
  - rewrite (down_done_at _ _ Hd) in Ho. simpl. rewrite Hw. by apply owns_fin.
Qed.

(** The pump touches no other connection's descriptor. *)
Lemma pump_step_others s s' fd' so :
  pump_step s s' -> ps_fin s = capture fd -> owns s -> ps_kernel s !! fd' = Some so -> so_conn so <> conn ->
  ps_kernel s' !! fd' = Some so.
Proof.
  intros Hs Hw [_ H2] Hk Hc.
  assert (finished s = false -> fd' <> fd) as Hne.
  { intros Hf ->. destruct (H2 Hf) as (so' & Hk' & Hc' & _). congruence. }
  assert (forall b k, fd' <> fd -> drop_half b fd k !! fd' = k !! fd') as Hdrop.
  { intros [] k Hn; simpl; [by rewrite lookup_delete_ne | done]. }
  destruct Hs as [s0 so' Hu | s0 Hu | s0 Hu | s0 c Hd | s0 c o Hd _ | s0 Hd | s0 Hd]; simpl; try done.
  - rewrite Hdrop; [done |]. apply Hne, finished_false. left. congruence.
  - assert (fd' <> fd) as Hn by (apply Hne, finished_false; right; congruence). rewrite Hdrop by done.
    rewrite Hw. unfold fin, shutdown_write, capture. simpl.
    destruct (ps_kernel s0 !! fd) as [so0 |]; [| done]. destruct (so_connected so0); [| done].
    simpl. by rewrite lookup_insert_ne.
Qed.

Lemma other_step_owns s s' : other_step s s' -> owns s -> owns s'.
Proof.
  unfold owns. intros [s0 k Hsame Hconn | s0 so Hk Hc] [H1 H2].
  - split; simpl.
    + intros fd' so Hin Hc. by apply (H1 fd' so); [apply Hconn |].
    + intros Hf. rewrite Hsame by done. by apply H2.
  - destruct (H1 _ _ Hk Hc) as [_ Hf]. destruct (H2 Hf) as (so' & Hk' & _ & Hr & Hw & _).
    rewrite Hk in Hk'. injection Hk' as <-. split; simpl.
    + intros fd' so'. rewrite lookup_insert_Some. intros [[<- _] | [_ Hin]] Hc'; [done | by apply (H1 _ _ Hin)].
    + intros _. eexists. rewrite lookup_insert_eq. split; [done |]. simpl. naive_solver.
Qed.

Lemma pump_reachable_inv s : pump_reachable s -> pump_inv s.
Proof.
  intros (k & Hk & Honly & Hs). eapply (star_invariant step pump_inv); [clear s Hs | exact Hs |].
  - intros s s' Hs (Hw & Ho & Hf). split_and!.
    + by destruct Hs as [Hs | Hs]; destruct Hs.
    + destruct Hs; [by eapply pump_step_owns | by eapply other_step_owns].
    + by eapply step_follows.
  - split_and!; [done | | done]. split; simpl.
    + intros fd' so Hin Hc. split; [by eapply Honly | done].
    + intros _. by exists (mkSocket conn true true true).
Qed.

(** ** Properties *)

(** (C24) The captured handle is safe and the close is a half
    close. Whatever the two directions, the peer and the rest of the process do:
    when the downlink makes its FIN the captured descriptor is still the local
    socket's, so the call shuts down that socket's write side and nothing else
    (or fails because the connection is gone); until the uplink has ended the
    socket is open for reading, FIN or not, so replies keep draining; no step of
    the pump changes another connection's descriptor; when both directions are
    done the connection has no descriptor left; and what was done to the socket
    is exactly what the sequential downlink does on the same events. *)
Theorem half_close_safe s :
  pump_reachable s ->
  (ps_down s = DownFin -> exists so, ps_kernel s !! fd = Some so /\ so_conn so = conn /\
     fin (ps_fin s) (ps_kernel s) =
       if so_connected so then (Ok tt, <[fd := mkSocket conn true true false]> (ps_kernel s))
       else (Err tt, ps_kernel s)) /\
  (ps_up s <> UpDone -> exists so, ps_kernel s !! fd = Some so /\ so_conn so = conn /\ so_read so = true) /\
  (forall s' fd' so, pump_step s s' -> ps_kernel s !! fd' = Some so -> so_conn so <> conn ->
     ps_kernel s' !! fd' = Some so) /\
  (finished s = true -> forall fd' so, ps_kernel s !! fd' = Some so -> so_conn so <> conn) /\
  (ps_down s = DownDone -> down (ps_events s) = (true, ps_ops s)).
Proof.
  intros Hr. destruct (pump_reachable_inv s Hr) as (Hw & [H1 H2] & Hf). split_and!.
  - intros Hd. destruct (H2 ltac:(apply finished_false; right; congruence)) as (so & Hk & <- & Hrd & _).
    exists so. split_and!; try done. by rewrite Hw, (fin_owned _ _ Hk), Hrd.
  - intros Hu. destruct (H2 ltac:(apply finished_false; by left)) as (so & Hk & Hc & Hrd & _). by exists so.
  - intros s' fd' so Hs Hk Hc. by eapply pump_step_others.
  - intros Hfin fd' so Hk Hc. unfold finished in Hfin. destruct (H1 _ _ Hk Hc). congruence.
  - intros Hd. unfold follows in Hf. by rewrite Hd in Hf.
Qed.

End pump.

(** ** Witness *)

(** The local socket at descriptor 5, another connection at 6. *)
Definition toy_kernel : kernel := {[ 5 := mkSocket 1 true true true; 6 := mkSocket 2 true true true ]}.

(** The peer has closed the stream after one chunk; the uplink still reads. *)
Definition toy_closing : pump_state :=
  mkPump toy_kernel (capture 5) UpReading DownFin [InChunk [104; 105] Written; InClosed] [LocalWrite [104; 105]].

Lemma toy_closing_reachable : pump_reachable 5 1 toy_closing.
Proof.
  exists toy_kernel. split; [done |]. split.
  - intros fd' so. unfold toy_kernel. rewrite lookup_insert_Some, lookup_singleton_Some. intros [[<- _] | [_ [<- <-]]]; done.
  - eapply star_step; [left; by apply (pp_written 5 _ [104; 105]) |].
    eapply star_step; [left; by apply pp_inbound_closed |]. apply star_refl.
Qed.

Lemma half_close_safe_witness :
  fin (ps_fin toy_closing) toy_kernel = (Ok tt, <[5 := mkSocket 1 true true false]> toy_kernel) /\
  exists so, toy_kernel !! 5 = Some so /\ so_conn so = 1%nat /\ so_read so = true.
Proof.
  destruct (half_close_safe 5 1 toy_closing toy_closing_reachable) as (Hfin & Hread & _).
  split; [| apply Hread; discriminate].
  destruct (Hfin eq_refl) as (so & Hk & _ & E). vm_compute in Hk. injection Hk as <-. exact E.
Defined.
