(* ===== verification/RustStr.v ===== *)
(** * RustStr: the parts of Rust's standard strings the plugin uses

    A Rust [String] is a list of Unicode scalar values; [utf8] is its byte
    representation ([as_bytes]). Modelled: [from_utf8], [from_utf8_lossy],
    [trim], [split_once], [rsplit_once], [parse] for unsigned integers, decimal
    formatting, [to_ascii_lowercase] and a few predicates, with the lemmas the
    components need. *)

From Stdlib Require Import Ascii String.
From S2P Require Import Prelude.

(** ** Characters and literals *)

Definition is_scalar (c : Z) : Prop := 0 <= c < 55296 \/ 57344 <= c < 1114112.

(** An ASCII string literal. *)
Definition lit (s : string) : list Z := (fun a => Z.of_N (N_of_ascii a)) <$> list_ascii_of_string s.

Definition str_eqb (s t : list Z) : bool := bool_decide (s = t).

(** ** UTF-8 *)

Definition utf8_char (c : Z) : list Z :=
  if c <? 128 then [c]
  else if c <? 2048 then [192 + c / 64; 128 + c mod 64]
  else if c <? 65536 then [224 + c / 4096; 128 + (c / 64) mod 64; 128 + c mod 64]
  else [240 + c / 262144; 128 + (c / 4096) mod 64; 128 + (c / 64) mod 64; 128 + c mod 64].

(** [str::as_bytes]. *)
Definition utf8 (s : list Z) : list Z := concat (utf8_char <$> s).

Definition between (lo hi b : Z) : bool := (lo <=? b) && (b <=? hi).

(** The range of the second byte of a three- or four-byte sequence. *)
Definition second3 (b0 b1 : Z) : bool :=
  if b0 =? 224 then between 160 191 b1
  else if b0 =? 237 then between 128 159 b1
  else between 128 191 b1.

Definition second4 (b0 b1 : Z) : bool :=
  if b0 =? 240 then between 144 191 b1
  else if b0 =? 244 then between 128 143 b1
  else between 128 191 b1.

Definition cont (b : Z) : bool := between 128 191 b.

(** One well-formed sequence at the front of a byte string. *)
Definition utf8_step (bs : list Z) : option (Z * list Z) :=
  match bs with
  | [] => None
  | b0 :: r =>
      if b0 <? 128 then Some (b0, r)
      else if between 194 223 b0 then
        match r with
        | b1 :: r => if cont b1 then Some ((b0 - 192) * 64 + (b1 - 128), r) else None
        | [] => None
        end
      else if between 224 239 b0 then
        match r with
        | b1 :: b2 :: r =>
            if second3 b0 b1 && cont b2
            then Some ((b0 - 224) * 4096 + (b1 - 128) * 64 + (b2 - 128), r) else None
        | _ => None
        end
      else if between 240 244 b0 then
        match r with
        | b1 :: b2 :: b3 :: r =>
            if second4 b0 b1 && cont b2 && cont b3
            then Some ((b0 - 240) * 262144 + (b1 - 128) * 4096 + (b2 - 128) * 64 + (b3 - 128), r)
            else None
        | _ => None
        end
      else None
  end.

Fixpoint from_utf8_fuel (fuel : nat) (bs : list Z) : option (list Z) :=
  match bs, fuel with
  | [], _ => Some []
  | _, O => None
  | _, S k =>
      match utf8_step bs with
      | None => None
      | Some (c, r) => (fun s => c :: s) <$> from_utf8_fuel k r
      end
  end.

(** [std::str::from_utf8]. *)
Definition from_utf8 (bs : list Z) : option (list Z) := from_utf8_fuel (List.length bs) bs.

(** How many bytes one replacement character stands for: the longest prefix of a
    well-formed sequence, at least one byte. *)
Definition utf8_bad_len (bs : list Z) : nat :=
  match bs with
  | b0 :: b1 :: r =>
      if between 224 239 b0 && second3 b0 b1 then 2
      else if between 240 244 b0 && second4 b0 b1 then
        match r with
        | b2 :: _ => if cont b2 then 3 else 2
        | [] => 2
        end
      else 1
  | _ => 1
  end%nat.

Fixpoint lossy_fuel (fuel : nat) (bs : list Z) : list Z :=
  match bs, fuel with
  | [], _ | _, O => []
  | _, S k =>
      match utf8_step bs with
      | Some (c, r) => c :: lossy_fuel k r
      | None => 65533 :: lossy_fuel k (drop (utf8_bad_len bs) bs)
      end
  end.

(** [String::from_utf8_lossy]. *)
Definition from_utf8_lossy (bs : list Z) : list Z := lossy_fuel (List.length bs) bs.

(** ** Slices and predicates *)

(** [char::is_whitespace] (Unicode White_Space). *)
Definition is_whitespace (c : Z) : bool :=
  between 9 13 c || (c =? 32) || (c =? 133) || (c =? 160) || (c =? 5760)
  || between 8192 8202 c || (c =? 8232) || (c =? 8233) || (c =? 8239) || (c =? 8287) || (c =? 12288).

Fixpoint trim_start (s : list Z) : list Z :=
  match s with
  | [] => []
  | c :: s' => if is_whitespace c then trim_start s' else s
  end.

Definition trim_end (s : list Z) : list Z := rev (trim_start (rev s)).

Definition trim (s : list Z) : list Z := trim_end (trim_start s).

(** [str::split_once] on the first occurrence of a character. *)
Fixpoint split_once (sep : Z) (s : list Z) : option (list Z * list Z) :=
  match s with
  | [] => None
  | c :: s' =>
      if c =? sep then Some ([], s')
      else match split_once sep s' with
           | None => None
           | Some (a, b) => Some (c :: a, b)
           end
  end.

(** [str::rsplit_once]: on the last occurrence. *)
Definition rsplit_once (sep : Z) (s : list Z) : option (list Z * list Z) :=
  match split_once sep (rev s) with
  | None => None
  | Some (a, b) => Some (rev b, rev a)
  end.

Definition contains (c : Z) (s : list Z) : bool := existsb (fun d => d =? c) s.

Fixpoint starts_with (p s : list Z) : bool :=
  match p, s with
  | [], _ => true
  | _, [] => false
  | a :: p', b :: s' => (a =? b) && starts_with p' s'
  end.

Definition is_ascii (s : list Z) : bool := forallb (fun c => c <? 128) s.

Definition ascii_lower (c : Z) : Z := if between 65 90 c then c + 32 else c.
Definition to_ascii_lowercase (s : list Z) : list Z := ascii_lower <$> s.

(** ** Integers *)

Definition digit (c : Z) : option Z := if between 48 57 c then Some (c - 48) else None.

(** The digits of a number in [0, bound), most significant first. *)
Fixpoint parse_digits (bound acc : Z) (s : list Z) : option Z :=
  match s with
  | [] => Some acc
  | c :: s' =>
      match digit c with
      | None => None
      | Some d => if acc * 10 + d <? bound then parse_digits bound (acc * 10 + d) s' else None
      end
  end.

(** [str::parse::<uN>]: an optional leading plus sign, at least one digit, no
    overflow. *)
Definition parse_uint (w : Z) (s : list Z) : option Z :=
  match s with
  | [] => None
  | [43] => None
  | 43 :: s' => parse_digits (2 ^ w) 0 s'
  | _ => parse_digits (2 ^ w) 0 s
  end.

Fixpoint show_fuel (fuel : nat) (z : Z) : list Z :=
  match fuel with
  | O => []
  | S k => (if z <? 10 then [] else show_fuel k (z / 10)) ++ [48 + z mod 10]
  end.

(** Decimal formatting of an unsigned integer of at most 64 bits. *)
Definition show_uint (z : Z) : list Z := show_fuel 20 z.

(** ** Lemmas on UTF-8 *)

Lemma between_true lo hi b : between lo hi b = true <-> lo <= b <= hi.
Proof. unfold between. rewrite andb_true_iff, !Z.leb_le. done. Qed.

Lemma between_spec lo hi b : reflect (lo <= b <= hi) (between lo hi b).
Proof. apply iff_reflect. symmetry. apply between_true. Qed.

Ltac between_cases :=
  repeat match goal with
  | |- context [between ?lo ?hi ?b] => destruct (between_spec lo hi b); try lia
  | |- context [?a =? ?b] => destruct (Z.eqb_spec a b); try lia
  | |- context [?a <? ?b] => destruct (Z.ltb_spec a b); try lia
  end.

(** Encoding then decoding one character. *)
Lemma utf8_step_char c r : is_scalar c -> utf8_step (utf8_char c ++ r) = Some (c, r).
Proof.
  intros Hc. unfold is_scalar in Hc. unfold utf8_char.
  pose proof (Z.div_mod c 64). pose proof (Z.mod_pos_bound c 64).
  destruct (Z.ltb_spec c 128).
  { simpl. destruct (Z.ltb_spec c 128); [done | lia]. }
  destruct (Z.ltb_spec c 2048).
  { cbn [app utf8_step]. unfold cont. between_cases. repeat f_equal. lia. }
  assert (c / 4096 = c / 64 / 64) as E1 by (rewrite Z.div_div by lia; done).
  pose proof (Z.div_mod (c / 64) 64). pose proof (Z.mod_pos_bound (c / 64) 64).
  destruct (Z.ltb_spec c 65536).
  { cbn [app utf8_step]. rewrite E1. unfold second3, cont.
    assert (0 <= c / 64 / 64 < 16) by (rewrite Z.div_div by lia; split; [apply Z.div_pos | apply Z.div_lt_upper_bound]; lia).
    between_cases; cbn [andb]; repeat f_equal; lia. }
  assert (c / 262144 = c / 64 / 64 / 64) as E2 by (rewrite !Z.div_div by lia; done).
  pose proof (Z.div_mod (c / 64 / 64) 64). pose proof (Z.mod_pos_bound (c / 64 / 64) 64).
  cbn [app utf8_step]. rewrite E2, E1. unfold second4, cont.
  assert (0 <= c / 64 / 64 / 64 < 5) by (rewrite !Z.div_div by lia; split; [apply Z.div_pos | apply Z.div_lt_upper_bound]; lia).
  between_cases; cbn [andb]; repeat f_equal; lia.
Qed.

(** Decoding one character is the inverse of encoding it. *)
Lemma utf8_step_some bs c r :
  bytes_ok bs -> utf8_step bs = Some (c, r) -> bs = utf8_char c ++ r /\ is_scalar c.
Proof.
  intros Hb. destruct bs as [| b0 bs]; [done |]. apply bytes_ok_cons in Hb as [H0 Hb].
  cbn [utf8_step]. destruct (Z.ltb_spec b0 128).
  { intros [= <- <-]. unfold utf8_char, is_scalar. between_cases. split; [done | lia]. }
  destruct (between_spec 194 223 b0).
  { destruct bs as [| b1 bs]; [done |]. unfold cont. destruct (between_spec 128 191 b1); [| done].
    intros [= <- <-]. unfold utf8_char, is_scalar.
    set (c := (b0 - 192) * 64 + (b1 - 128)).
    assert (c / 64 = b0 - 192) as D1 by (symmetry; apply (Z.div_unique c 64 _ (b1 - 128)); lia).
    assert (c mod 64 = b1 - 128) as M1 by (symmetry; apply (Z.mod_unique c 64 (b0 - 192)); lia).
    rewrite M1, D1. between_cases. split; [| lia]. cbn [app]. repeat f_equal; lia. }
  destruct (between_spec 224 239 b0).
  { destruct bs as [| b1 [| b2 bs]]; try done. unfold cont.
    destruct (second3 b0 b1) eqn:E1; [| done]. cbn [andb]. destruct (between_spec 128 191 b2); [| done].
    assert (128 <= b1 <= 191 /\ (b0 = 224 -> 160 <= b1) /\ (b0 = 237 -> b1 <= 159)) as (Hb1 & H224 & H237).
    { revert E1. unfold second3. between_cases; lia. }
    intros [= <- <-]. unfold utf8_char, is_scalar.
    set (c := (b0 - 224) * 4096 + (b1 - 128) * 64 + (b2 - 128)).
    assert (c / 64 = (b0 - 224) * 64 + (b1 - 128)) as D1.
    { symmetry. apply (Z.div_unique c 64 _ (b2 - 128)); lia. }
    assert (c mod 64 = b2 - 128) as M1.
    { symmetry. apply (Z.mod_unique c 64 ((b0 - 224) * 64 + (b1 - 128))); lia. }
    assert (c / 4096 = b0 - 224) as D2.
    { symmetry. apply (Z.div_unique c 4096 _ ((b1 - 128) * 64 + (b2 - 128))); lia. }
    assert ((c / 64) mod 64 = b1 - 128) as M2.
    { rewrite D1. symmetry. apply (Z.mod_unique _ 64 (b0 - 224)); lia. }
    rewrite M1, M2, D2. between_cases. split; [| lia]. cbn [app]. repeat f_equal; lia. }
  destruct (between_spec 240 244 b0); [| done].
  destruct bs as [| b1 [| b2 [| b3 bs]]]; try done. unfold cont.
  destruct (second4 b0 b1) eqn:E1; [| done]. cbn [andb].
  destruct (between_spec 128 191 b2); [| done]. cbn [andb]. destruct (between_spec 128 191 b3); [| done].
  assert (128 <= b1 <= 191 /\ (b0 = 240 -> 144 <= b1) /\ (b0 = 244 -> b1 <= 143)) as (Hb1 & H240 & H244).
  { revert E1. unfold second4. between_cases; lia. }
  intros [= <- <-]. unfold utf8_char, is_scalar.
  set (c := (b0 - 240) * 262144 + (b1 - 128) * 4096 + (b2 - 128) * 64 + (b3 - 128)).
  assert (c / 64 = (b0 - 240) * 4096 + (b1 - 128) * 64 + (b2 - 128)) as D1.
  { symmetry. apply (Z.div_unique c 64 _ (b3 - 128)); lia. }
  assert (c mod 64 = b3 - 128) as M1.
  { symmetry. apply (Z.mod_unique c 64 ((b0 - 240) * 4096 + (b1 - 128) * 64 + (b2 - 128))); lia. }
  assert (c / 4096 = (b0 - 240) * 64 + (b1 - 128)) as D2.
  { symmetry. apply (Z.div_unique c 4096 _ ((b2 - 128) * 64 + (b3 - 128))); lia. }
  assert (c / 262144 = b0 - 240) as D3.
  { symmetry. apply (Z.div_unique c 262144 _ ((b1 - 128) * 4096 + (b2 - 128) * 64 + (b3 - 128))); lia. }
  assert ((c / 64) mod 64 = b2 - 128) as M2.
  { rewrite D1. symmetry. apply (Z.mod_unique _ 64 ((b0 - 240) * 64 + (b1 - 128))); lia. }
  assert ((c / 4096) mod 64 = b1 - 128) as M3.
  { rewrite D2. symmetry. apply (Z.mod_unique _ 64 (b0 - 240)); lia. }
  rewrite M1, M2, M3, D3. between_cases. split; [| lia]. cbn [app]. repeat f_equal; lia.
Qed.

Lemma utf8_char_nonempty c : utf8_char c <> [].
Proof. unfold utf8_char. by repeat case_match. Qed.

Lemma utf8_char_ok c : is_scalar c -> bytes_ok (utf8_char c).
Proof.
  unfold is_scalar, utf8_char, bytes_ok, is_uint. intros Hc.
  pose proof (Z.mod_pos_bound c 64). pose proof (Z.mod_pos_bound (c / 64) 64).
  pose proof (Z.mod_pos_bound (c / 4096) 64).
  destruct (Z.ltb_spec c 128); [repeat constructor; lia |].
  destruct (Z.ltb_spec c 2048).
  { assert (0 <= c / 64 < 32) by (split; [apply Z.div_pos | apply Z.div_lt_upper_bound]; lia).
    repeat constructor; lia. }
  destruct (Z.ltb_spec c 65536).
  { assert (0 <= c / 4096 < 16) by (split; [apply Z.div_pos | apply Z.div_lt_upper_bound]; lia).
    repeat constructor; lia. }
  assert (0 <= c / 262144 < 5) by (split; [apply Z.div_pos | apply Z.div_lt_upper_bound]; lia).
  repeat constructor; lia.
Qed.

Lemma utf8_ok s : Forall is_scalar s -> bytes_ok (utf8 s).
Proof.
  induction 1 as [| c s Hc _ IH]; [constructor |]. cbn. apply bytes_ok_app. split; [by apply utf8_char_ok | exact IH].
Qed.

Lemma utf8_cons c s : utf8 (c :: s) = utf8_char c ++ utf8 s.
Proof. reflexivity. Qed.

Lemma utf8_app s t : utf8 (s ++ t) = utf8 s ++ utf8 t.
Proof. unfold utf8. by rewrite fmap_app, concat_app. Qed.

Lemma from_utf8_fuel_some fuel s :
  Forall is_scalar s -> (List.length (utf8 s) <= fuel)%nat -> from_utf8_fuel fuel (utf8 s) = Some s.
Proof.
  intros Hs. revert fuel. induction Hs as [| c s Hc _ IH]; intros fuel Hf.
  - by destruct fuel.
  - rewrite utf8_cons in *. pose proof (utf8_char_nonempty c) as Hn.
    destruct (utf8_char c ++ utf8 s) as [| b bs] eqn:E.
    { by apply app_eq_nil in E as [E _]. }
    destruct fuel as [| k]; [simpl in Hf; lia |]. cbn [from_utf8_fuel].
    rewrite <- E, utf8_step_char by done. rewrite IH; [done |].
    apply (f_equal List.length) in E. rewrite length_app in E. simpl in *.
    destruct (utf8_char c); [done |]. simpl in *. lia.
Qed.

(** [from_utf8] inverts [as_bytes] ... *)
Lemma from_utf8_utf8 s : Forall is_scalar s -> from_utf8 (utf8 s) = Some s.
Proof. intros Hs. by apply from_utf8_fuel_some. Qed.

(** ... and accepts nothing else. *)
Lemma from_utf8_some bs s :
  bytes_ok bs -> from_utf8 bs = Some s -> utf8 s = bs /\ Forall is_scalar s.
Proof.
  unfold from_utf8. generalize (List.length bs) as fuel. intros fuel. revert bs s.
  induction fuel as [| k IH]; intros bs s Hb.
  - destruct bs; [| done]. intros [= <-]. by split.
  - destruct bs as [| b bs]; [intros [= <-]; by split |]. cbn [from_utf8_fuel].
    destruct (utf8_step (b :: bs)) as [[c r] |] eqn:E; [| done].
    destruct (utf8_step_some _ _ _ Hb E) as [Hbs Hc]. rewrite Hbs in Hb.
    apply bytes_ok_app in Hb as [_ Hr].
    destruct (from_utf8_fuel k r) as [s' |] eqn:Ek; [| done]. intros [= <-].
    destruct (IH r s' Hr Ek) as [Hs' Hf]. rewrite utf8_cons, Hs', Hbs. split; [done | by constructor].
Qed.

(** An ASCII string is its own byte representation. *)
Lemma utf8_ascii s : is_ascii s = true -> utf8 s = s.
Proof.
  unfold is_ascii. induction s as [| c s IH]; [done |]. simpl. intros [Hc Hs]%andb_true_iff.
  rewrite utf8_cons, IH by done. unfold utf8_char. by rewrite Hc.
Qed.

(** A character below 128 decodes from itself only. *)
Lemma utf8_step_ascii bs c r :
  bytes_ok bs -> utf8_step bs = Some (c, r) -> c < 128 -> bs = c :: r.
Proof.
  intros Hb E Hc. destruct (utf8_step_some _ _ _ Hb E) as [-> Hs].
  unfold utf8_char. destruct (Z.ltb_spec c 128); [done | lia].
Qed.

(** An ASCII prefix survives lossy decoding, and only then is it there. *)
Lemma lossy_starts_with p bs :
  bytes_ok bs -> is_ascii p = true -> Forall (fun c => 0 <= c) p ->
  starts_with p (from_utf8_lossy bs) = starts_with p bs.
Proof.
  unfold from_utf8_lossy. generalize (Nat.le_refl (List.length bs)).
  generalize (List.length bs) at 2 3 as fuel. intros fuel Hl Hb Hp Hnn. revert bs p Hl Hb Hp Hnn.
  induction fuel as [| k IH]; intros bs p Hl Hb Hp Hnn.
  - destruct bs; [done | simpl in Hl; lia].
  - destruct bs as [| b bs]; [done |]. destruct p as [| a p]; [done |].
    simpl in Hp. apply andb_true_iff in Hp as [Ha Hp]. apply Z.ltb_lt in Ha.
    apply Forall_cons in Hnn as [Ha0 Hnn]. cbn [lossy_fuel].
    destruct (utf8_step (b :: bs)) as [[c r] |] eqn:E.
    + cbn [starts_with]. destruct (Z.ltb_spec c 128) as [Hc | Hc].
      * pose proof (utf8_step_ascii _ _ _ Hb E Hc) as Hbs. injection Hbs as -> ->.
        apply bytes_ok_cons in Hb as [_ Hb]. rewrite IH; [done | simpl in Hl; lia | done..].
      * destruct (Z.eqb_spec a c); [lia |]. destruct (Z.eqb_spec a b) as [<- |]; [| done].
        simpl in E. destruct (Z.ltb_spec a 128); [simplify_eq; lia | lia].
    + cbn [starts_with]. destruct (Z.eqb_spec a 65533); [lia |].
      destruct (Z.eqb_spec a b) as [<- |]; [| done]. simpl in E.
      destruct (Z.ltb_spec a 128); [done | lia].
Qed.

(** ** Lemmas on slices *)

Lemma split_once_some sep s a b :
  split_once sep s = Some (a, b) <-> s = a ++ sep :: b /\ contains sep a = false.
Proof.
  revert a b. induction s as [| c s IH]; intros a b; simpl.
  - split; [done |]. intros [H _]. by destruct a.
  - destruct (Z.eqb_spec c sep) as [-> | Hne].
    + split.
      * intros [= <- <-]. done.
      * intros [H Hc]. destruct a as [| c' a]; [by simplify_eq/= |].
        simpl in H. injection H as <- _. simpl in Hc. by rewrite Z.eqb_refl in Hc.
    + destruct (split_once sep s) as [[a' b'] |] eqn:E.
      * destruct (proj1 (IH a' b') eq_refl) as [-> Hc]. split.
        -- intros [= <- <-]. split; [done |]. simpl. rewrite Hc. by destruct (Z.eqb_spec c sep).
        -- intros [H Hca]. destruct a as [| c' a]; simpl in *; [simplify_eq |].
           injection H as <- H. apply orb_false_iff in Hca as [_ Hca].
           assert (Some (a', b') = Some (a, b)) by (apply IH; by split). by simplify_eq.
      * split; [done |]. intros [H Hca]. destruct a as [| c' a]; simpl in *; [simplify_eq |].
        injection H as <- H. apply orb_false_iff in Hca as [_ Hca].
        by specialize (proj2 (IH a b) (conj H Hca)).
Qed.

Lemma contains_app c s t : contains c (s ++ t) = contains c s || contains c t.
Proof. apply existsb_app. Qed.

Lemma contains_rev c s : contains c (rev s) = contains c s.
Proof.
  induction s as [| d s IH]; [done |]. simpl. rewrite contains_app, IH. simpl. by rewrite orb_false_r, orb_comm.
Qed.

Lemma rsplit_once_some sep s a b :
  rsplit_once sep s = Some (a, b) <-> s = a ++ sep :: b /\ contains sep b = false.
Proof.
  unfold rsplit_once. destruct (split_once sep (rev s)) as [[x y] |] eqn:E.
  - apply split_once_some in E as [Hs Hc]. apply (f_equal (@rev Z)) in Hs.
    rewrite rev_involutive, rev_app_distr in Hs. simpl in Hs. rewrite <- app_assoc in Hs. simpl in Hs.
    split.
    + intros [= <- <-]. split; [done | by rewrite contains_rev].
    + intros [Hs' Hc']. assert (split_once sep (rev s) = Some (rev b, rev a)) as H1.
      { apply split_once_some. rewrite Hs', rev_app_distr, contains_rev. simpl.
        by rewrite <- app_assoc. }
      assert (split_once sep (rev s) = Some (x, y)) as H2.
      { apply split_once_some. rewrite Hs, rev_app_distr, rev_involutive. simpl.
        by rewrite <- app_assoc, rev_involutive. }
      rewrite H1 in H2. simplify_eq. by rewrite !rev_involutive.
  - split; [done |]. intros [Hs Hc]. exfalso.
    assert (split_once sep (rev s) = Some (rev b, rev a)) as H1.
    { apply split_once_some. rewrite Hs, rev_app_distr, contains_rev. simpl. by rewrite <- app_assoc. }
    congruence.
Qed.

(** A string without whitespace at either end. *)
Definition trimmed (s : list Z) : Prop :=
  (forall c s', s = c :: s' -> is_whitespace c = false) /\
  (forall c s', s = s' ++ [c] -> is_whitespace c = false).

Lemma trim_start_head s : match trim_start s with [] => True | c :: _ => is_whitespace c = false end.
Proof. induction s as [| c s IH]; [done |]. simpl. by destruct (is_whitespace c) eqn:E. Qed.

Lemma trim_start_id s : (forall c s', s = c :: s' -> is_whitespace c = false) -> trim_start s = s.
Proof. destruct s as [| c s]; [done |]. intros H. simpl. by rewrite (H c s). Qed.

Lemma trim_trimmed s : trimmed s -> trim s = s.
Proof.
  intros [H1 H2]. unfold trim, trim_end. rewrite (trim_start_id s H1), trim_start_id.
  - apply rev_involutive.
  - intros c s' Hs. apply (H2 c (rev s')). apply (f_equal (@rev Z)) in Hs.
    by rewrite rev_involutive in Hs.
Qed.

Lemma trim_start_app l c r :
  is_whitespace c = false -> trim_start (l ++ c :: r) = trim_start l ++ c :: r.
Proof. intros Hc. induction l as [| d l IH]; simpl; [by rewrite Hc |]. by destruct (is_whitespace d). Qed.

(** What follows a character that is not whitespace is trimmed at its end. *)
Lemma trim_end_app l c r : is_whitespace c = false -> trim_end (l ++ c :: r) = l ++ c :: trim_end r.
Proof.
  intros Hc. unfold trim_end. rewrite rev_app_distr. simpl. rewrite <- app_assoc. simpl.
  rewrite trim_start_app, rev_app_distr by done. simpl. by rewrite rev_involutive, <- app_assoc.
Qed.

Lemma trim_start_ws l r : Forall (fun c => is_whitespace c = true) l -> trim_start (l ++ r) = trim_start r.
Proof. induction 1 as [| c l Hc _ IH]; simpl; [done |]. by rewrite Hc. Qed.

(** A string is its trimming between whitespace. *)
Lemma trim_start_split s : exists l, Forall (fun c => is_whitespace c = true) l /\ s = l ++ trim_start s.
Proof.
  induction s as [| c s (l & Hl & Hs)]; [by exists [] |]. simpl. destruct (is_whitespace c) eqn:E.
  - exists (c :: l). split; [by constructor |]. simpl. by f_equal.
  - by exists [].
Qed.

Lemma trim_end_split s : exists l, Forall (fun c => is_whitespace c = true) l /\ s = trim_end s ++ l.
Proof.
  destruct (trim_start_split (rev s)) as (l & Hl & Hs). exists (rev l). split; [by apply Forall_rev |].
  unfold trim_end. rewrite <- rev_app_distr, <- Hs. by rewrite rev_involutive.
Qed.

Lemma trim_end_ws s l : Forall (fun c => is_whitespace c = true) l -> trim_end (s ++ l) = trim_end s.
Proof. intros Hl. unfold trim_end. rewrite rev_app_distr, trim_start_ws; [done | by apply Forall_rev]. Qed.

(** Trimming the end first makes no difference. *)
Lemma trim_trim_end s : trim (trim_end s) = trim s.
Proof.
  destruct (trim_end_split s) as (l & Hl & Hs). rewrite Hs at 2. unfold trim.
  generalize (trim_end s). intros t. destruct (trim_start_split t) as (k & Hk & Ht).
  destruct (trim_start t) as [| c t'] eqn:E.
  - rewrite app_nil_r in Ht. subst t. rewrite trim_start_ws by done.
    rewrite <- (app_nil_r l), trim_start_ws by done. done.
  - assert (is_whitespace c = false) as Hc by (pose proof (trim_start_head t) as H; by rewrite E in H).
    rewrite Ht at 1. rewrite <- app_assoc, trim_start_ws by done. simpl. rewrite Hc.
    change (c :: t' ++ l) with ((c :: t') ++ l). by rewrite trim_end_ws.
Qed.

Lemma trim_ends s : trimmed (trim s).
Proof.
  split; intros c s' H.
  - destruct (trim_end_split (trim_start s)) as (l & _ & Hs). fold (trim s) in Hs. rewrite H in Hs.
    pose proof (trim_start_head s) as Hh. by rewrite Hs in Hh.
  - unfold trim, trim_end in H. pose proof (trim_start_head (rev (trim_start s))) as Hh.
    apply (f_equal (@rev Z)) in H. rewrite rev_involutive, rev_app_distr in H. by rewrite H in Hh.
Qed.

Definition trimmedb (s : list Z) : bool :=
  match s, rev s with
  | c :: _, d :: _ => negb (is_whitespace c) && negb (is_whitespace d)
  | _, _ => true
  end.

Lemma trimmedb_true s : trimmedb s = true -> trimmed s.
Proof.
  unfold trimmedb. intros H. split; intros c s' E; rewrite E in H.
  - destruct (rev (c :: s')) as [| d r] eqn:Er.
    + by apply (f_equal List.length) in Er; rewrite length_rev in Er.
    + by apply andb_true_iff in H as [H%negb_true_iff _].
  - destruct s' as [| d s']; simpl in H; [| rewrite rev_app_distr in H; simpl in H];
      by apply andb_true_iff in H as [_ H%negb_true_iff].
Qed.

(** ** Lemmas on integers *)

Lemma show_fuel_digits fuel z :
  0 <= z -> Forall (fun c => 48 <= c <= 57) (show_fuel fuel z).
Proof.
  revert z. induction fuel as [| k IH]; intros z Hz; cbn [show_fuel]; [constructor |].
  apply Forall_app. split.
  - destruct (z <? 10); [constructor |]. apply IH. apply Z.div_pos; lia.
  - constructor; [| constructor]. pose proof (Z.mod_pos_bound z 10). lia.
Qed.

Lemma parse_digits_app bound acc s t :
  parse_digits bound acc (s ++ t) =
    match parse_digits bound acc s with None => None | Some a => parse_digits bound a t end.
Proof.
  revert acc. induction s as [| c s IH]; intros acc; simpl; [done |].
  destruct (digit c) as [d |]; [| done]. destruct (acc * 10 + d <? bound); [apply IH | done].
Qed.

Lemma parse_show_fuel fuel bound z :
  0 <= z < bound -> z < 10 ^ Z.of_nat fuel -> (0 < fuel)%nat ->
  parse_digits bound 0 (show_fuel fuel z) = Some z.
Proof.
  revert z. induction fuel as [| k IH]; intros z Hz Hf Hk; [lia |]. cbn [show_fuel].
  pose proof (Z.div_mod z 10). pose proof (Z.mod_pos_bound z 10).
  assert (forall a, a * 10 + z mod 10 = z -> parse_digits bound a [48 + z mod 10] = Some z) as Hl.
  { intros a Ha. cbn [parse_digits]. unfold digit. between_cases.
    replace (48 + z mod 10 - 48) with (z mod 10) by lia. rewrite Ha.
    destruct (Z.ltb_spec z bound); [done | lia]. }
  rewrite parse_digits_app. destruct (Z.ltb_spec z 10).
  - apply Hl. rewrite Z.mod_small by lia. lia.
  - rewrite Nat2Z.inj_succ, Z.pow_succ_r in Hf by lia.
    destruct k as [| k]; [change (10 ^ Z.of_nat 0) with 1 in Hf; lia |].
    assert (z / 10 < z) by (apply Z.div_lt; lia).
    rewrite IH; [apply Hl; lia | | | lia].
    + split; [apply Z.div_pos; lia | lia].
    + apply Z.div_lt_upper_bound; lia.
Qed.

Lemma show_fuel_nonempty fuel z : (0 < fuel)%nat -> show_fuel fuel z <> [].
Proof. destruct fuel; [lia |]. cbn [show_fuel]. intros _ H. by apply app_eq_nil in H as [_ ?]. Qed.

Lemma parse_uint_plain w c s : c <> 43 -> parse_uint w (c :: s) = parse_digits (2 ^ w) 0 (c :: s).
Proof.
  intros Hne. unfold parse_uint. destruct c as [| p | p]; try done.
  repeat (destruct p as [p | p |]; try done).
Qed.

(** Parsing inverts formatting at every width up to 64 bits. *)
Lemma parse_show w z : is_uint w z -> w <= 64 -> 0 <= w -> parse_uint w (show_uint z) = Some z.
Proof.
  intros Hz Hw Hw0. unfold show_uint.
  assert (z < 10 ^ Z.of_nat 20) as H20.
  { unfold is_uint in Hz. assert (2 ^ w <= 2 ^ 64) by (apply Z.pow_le_mono_r; lia).
    change (2 ^ 64) with 18446744073709551616 in *. change (10 ^ Z.of_nat 20) with 100000000000000000000. lia. }
  pose proof (parse_show_fuel 20 (2 ^ w) z Hz H20 ltac:(lia)) as Hp.
  pose proof (show_fuel_digits 20 z ltac:(unfold is_uint in Hz; lia)) as Hd.
  pose proof (show_fuel_nonempty 20 z ltac:(lia)) as Hn.
  destruct (show_fuel 20 z) as [| c s]; [done |].
  apply Forall_cons in Hd as [Hc _]. rewrite parse_uint_plain by lia. exact Hp.
Qed.

Lemma parse_digits_bound bound acc s z :
  0 <= acc < bound -> parse_digits bound acc s = Some z -> 0 <= z < bound.
Proof.
  revert acc. induction s as [| c s IH]; intros acc Hacc; simpl; [by intros [= <-] |].
  unfold digit. destruct (between_spec 48 57 c); [| done].
  destruct (Z.ltb_spec (acc * 10 + (c - 48)) bound); [| done]. apply IH. lia.
Qed.

(** A parsed integer fits its width. *)
Lemma parse_uint_range w s z : 0 < w -> parse_uint w s = Some z -> is_uint w z.
Proof.
  intros Hw Hp. assert (0 < 2 ^ w) by (apply Z.pow_pos_nonneg; lia).
  unfold parse_uint in Hp. unfold is_uint.
  repeat case_match; try discriminate Hp; (eapply parse_digits_bound; [| exact Hp]; lia).
Qed.
