(* ===== verification/NetAddr.v ===== *)
(** * NetAddr: socket addresses of Rust's standard library

    [str::parse::<SocketAddr>] (the parser of core::net: IPv4 and bracketed
    IPv6 literals with a port) and [ToSocketAddrs] for strings, whose host
    lookup is the operating system's resolver, a parameter. *)

From Stdlib Require Import Ascii String.
From S2P Require Import Prelude RustStr.

(** ** Data *)

Inductive SocketAddr : Type :=
| V4 (a b c d port : Z)
| V6 (segments : list Z) (port scope_id : Z).

#[export] Instance SocketAddr_eq_dec : EqDecision SocketAddr.
Proof. solve_decision. Defined.

Definition is_ipv6 (a : SocketAddr) : bool :=
  match a with
  | V4 _ _ _ _ _ => false
  | V6 _ _ _ => true
  end.

Definition port_of (a : SocketAddr) : Z :=
  match a with
  | V4 _ _ _ _ p => p
  | V6 _ p _ => p
  end.

(** ** The parser: a state is the unread rest of the string *)

Definition parser (A : Type) : Type := list Z -> option (A * list Z).

Definition p_bind {A B} (p : parser A) (k : A -> parser B) : parser B :=
  fun s => match p s with
           | None => None
           | Some (a, s') => k a s'
           end.

Definition p_ret {A} (a : A) : parser A := fun s => Some (a, s).

Definition read_given_char (c : Z) : parser unit := fun s =>
  match s with
  | d :: s' => if d =? c then Some (tt, s') else None
  | [] => None
  end.

(** [char::to_digit(radix)] for radix 10 and 16. *)
Definition to_digit (radix c : Z) : option Z :=
  let d := if between 48 57 c then Some (c - 48)
           else if between 97 102 c then Some (c - 87)
           else if between 65 70 c then Some (c - 55) else None in
  match d with
  | Some d => if d <? radix then Some d else None
  | None => None
  end.

(** The digits at the front of the string, and the rest. *)
Fixpoint take_digits (radix : Z) (s : list Z) : list Z * list Z :=
  match s with
  | [] => ([], [])
  | c :: s' =>
      match to_digit radix c with
      | None => ([], s)
      | Some d => let '(ds, r) := take_digits radix s' in (d :: ds, r)
      end
  end.

Definition number_of (radix : Z) (ds : list Z) : Z := fold_left (fun acc d => acc * radix + d) ds 0.

(** [read_number] into an unsigned [w]-bit integer. *)
Definition read_number (w radix : Z) (max_digits : option nat) (allow_zero_prefix : bool) : parser Z :=
  fun s =>
    let has_leading_zero := match s with c :: _ => c =? 48 | [] => false end in
    let '(ds, r) := take_digits radix s in
    let too_many := match max_digits with
                    | Some m => (m <? List.length ds)%nat
                    | None => false
                    end in
    if (List.length ds =? 0)%nat || too_many then None
    else if negb allow_zero_prefix && has_leading_zero && (1 <? List.length ds)%nat then None
    else if number_of radix ds <? 2 ^ w then Some (number_of radix ds, r) else None.

(** [read_separator]: the separator precedes every element but the first. *)
Definition read_separator {A} (sep : Z) (i : nat) (p : parser A) : parser A :=
  if (0 <? i)%nat then p_bind (read_given_char sep) (fun _ => p) else p.

Definition octet (i : nat) : parser Z := read_separator 46 i (read_number 8 10 (Some 3%nat) false).

Definition read_ipv4_addr : parser (Z * Z * Z * Z) :=
  p_bind (octet 0) (fun a => p_bind (octet 1) (fun b => p_bind (octet 2) (fun c =>
  p_bind (octet 3) (fun d => p_ret (a, b, c, d))))).

(** [read_groups]: up to [limit] groups; an embedded IPv4 address ends them. The
    result is the groups, whether they end in an IPv4 address, and the rest. *)
Fixpoint read_groups (n i limit : nat) (s : list Z) : list Z * bool * list Z :=
  match n with
  | O => ([], false, s)
  | S n' =>
      match (if (i <? limit - 1)%nat then read_separator 58 i read_ipv4_addr s else None) with
      | Some ((a, b, c, d), s') => ([a * 256 + b; c * 256 + d], true, s')
      | None =>
          match read_separator 58 i (read_number 16 16 (Some 4%nat) true) s with
          | None => ([], false, s)
          | Some (g, s') =>
              let '(gs, v4, s'') := read_groups n' (S i) limit s' in (g :: gs, v4, s'')
          end
      end
  end.

Definition read_ipv6_addr : parser (list Z) := fun s =>
  let '(head, head_ipv4, s1) := read_groups 8 0 8 s in
  if (List.length head =? 8)%nat then Some (head, s1)
  else if head_ipv4 then None
  else match p_bind (read_given_char 58) (fun _ => read_given_char 58) s1 with
       | None => None
       | Some (_, s2) =>
           let limit := (8 - (List.length head + 1))%nat in
           let '(tail, _, s3) := read_groups limit 0 limit s2 in
           Some (head ++ replicate (8 - List.length head - List.length tail) 0 ++ tail, s3)
       end.

Definition read_port : parser Z := p_bind (read_given_char 58) (fun _ => read_number 16 10 None true).

Definition read_scope_id : parser Z := p_bind (read_given_char 37) (fun _ => read_number 32 10 None true).

Definition read_socket_addr_v4 : parser SocketAddr :=
  p_bind read_ipv4_addr (fun '(a, b, c, d) => p_bind read_port (fun port => p_ret (V4 a b c d port))).

Definition read_socket_addr_v6 : parser SocketAddr :=
  p_bind (read_given_char 91) (fun _ => p_bind read_ipv6_addr (fun segs =>
  p_bind (fun s => match read_scope_id s with Some r => Some r | None => Some (0, s) end) (fun scope =>
  p_bind (read_given_char 93) (fun _ => p_bind read_port (fun port => p_ret (V6 segs port scope)))))).

(** [str::parse::<SocketAddr>]: the whole string must be read. *)
Definition parse_socket_addr (s : list Z) : option SocketAddr :=
  match read_socket_addr_v4 s with
  | Some (a, r) => match r with [] => Some a | _ => None end
  | None =>
      match read_socket_addr_v6 s with
      | Some (a, []) => Some a
      | _ => None
      end
  end.

(** ** Resolution *)

Inductive resolve_error : Type :=
| InvalidSocketAddress
| InvalidPort
| LookupFailed.

(** [ToSocketAddrs for str]: a literal is itself; otherwise the resolver is
    asked for the host before the last colon. *)
Definition to_socket_addrs (lookup_host : list Z -> Z -> result resolve_error (list SocketAddr))
  (s : list Z) : result resolve_error (list SocketAddr) :=
  match parse_socket_addr s with
  | Some a => Ok [a]
  | None =>
      let? (host, port) := ok_or (rsplit_once 58 s) InvalidSocketAddress in
      let? port := ok_or (parse_uint 16 port) InvalidPort in
      lookup_host host port
  end.

(** ** Lemmas *)

Example parse_v4 : parse_socket_addr (lit "127.0.0.1:8443") = Some (V4 127 0 0 1 8443).
Proof. reflexivity. Qed.
Example parse_v6 : parse_socket_addr (lit "[2001:db8::10]:8443")
  = Some (V6 [8193; 3512; 0; 0; 0; 0; 0; 16] 8443 0).
Proof. reflexivity. Qed.
Example parse_v6_any : parse_socket_addr (lit "[::]:1") = Some (V6 [0; 0; 0; 0; 0; 0; 0; 0] 1 0).
Proof. reflexivity. Qed.
Example parse_bare_v6 : parse_socket_addr (lit "2001:db8::1:8443") = None.
Proof. reflexivity. Qed.

Lemma take_digits_spec radix s :
  exists p, s = p ++ (take_digits radix s).2 /\ contains 58 p = false /\ contains 46 p = false.
Proof.
  induction s as [| c s IH]; [by exists [] |]. cbn [take_digits].
  destruct (to_digit radix c) as [d |] eqn:E; [| by exists []].
  destruct IH as (p & Hs & H1 & H2). destruct (take_digits radix s) as [ds r]. simpl in *.
  exists (c :: p). split; [by rewrite Hs at 1 |]. simpl. rewrite H1, H2.
  revert E. unfold to_digit. destruct (Z.eqb_spec c 58) as [-> |]; [done |].
  destruct (Z.eqb_spec c 46) as [-> |]; [done |]. done.
Qed.

(** A parsed number consumes no colon. *)
Lemma read_number_spec w radix m z s v r :
  read_number w radix m z s = Some (v, r) -> exists p, s = p ++ r /\ contains 58 p = false.
Proof.
  unfold read_number. destruct (take_digits_spec radix s) as (p & Hs & H1 & _).
  destruct (take_digits radix s) as [ds r']. simpl in Hs.
  repeat case_match; intros; simplify_eq; by exists p.
Qed.

Lemma octet_spec i s v r : octet i s = Some (v, r) -> exists p, s = p ++ r /\ contains 58 p = false.
Proof.
  unfold octet, read_separator. destruct (0 <? i)%nat; [| apply read_number_spec].
  unfold p_bind, read_given_char. destruct s as [| d s]; [done |].
  destruct (Z.eqb_spec d 46) as [-> |]; [| done]. intros H. apply read_number_spec in H as (p & -> & Hp).
  by exists (46 :: p).
Qed.

Lemma read_ipv4_spec s v r :
  read_ipv4_addr s = Some (v, r) -> exists p, s = p ++ r /\ contains 58 p = false.
Proof.
  unfold read_ipv4_addr, p_bind, p_ret.
  destruct (octet 0 s) as [[a s1] |] eqn:E1; [| done].
  destruct (octet 1 s1) as [[b s2] |] eqn:E2; [| done].
  destruct (octet 2 s2) as [[c s3] |] eqn:E3; [| done].
  destruct (octet 3 s3) as [[d s4] |] eqn:E4; [| done]. intros [= _ <-].
  apply octet_spec in E1 as (p1 & -> & H1), E2 as (p2 & -> & H2), E3 as (p3 & -> & H3),
    E4 as (p4 & -> & H4).
  exists (p1 ++ p2 ++ p3 ++ p4). rewrite !contains_app, H1, H2, H3, H4, <- !app_assoc. done.
Qed.

(** ** Numbers: the parser agrees with [str::parse] *)

Lemma digit_to_digit c : digit c = to_digit 10 c.
Proof.
  unfold digit, to_digit. between_cases; try done; f_equal; lia.
Qed.

Lemma to_digit_range radix c d : to_digit radix c = Some d -> 0 <= d < radix.
Proof.
  unfold to_digit. destruct (between_spec 48 57 c); [| destruct (between_spec 97 102 c);
    [| destruct (between_spec 65 70 c); [| done]]];
  match goal with |- context [?a <? radix] => destruct (Z.ltb_spec a radix) end; intros; simplify_eq; lia.
Qed.

Lemma number_ge ds acc : Forall (fun d => 0 <= d) ds -> 0 <= acc ->
  acc <= fold_left (fun acc d => acc * 10 + d) ds acc.
Proof.
  intros Hd. revert acc. induction Hd as [| d ds Hd _ IH]; intros acc Hacc; simpl; [lia |].
  specialize (IH (acc * 10 + d)). lia.
Qed.

Lemma take_digits_nonneg radix s : Forall (fun d => 0 <= d) (take_digits radix s).1.
Proof.
  induction s as [| c s IH]; simpl; [constructor |].
  destruct (to_digit radix c) as [d |] eqn:E; [| constructor].
  apply to_digit_range in E. destruct (take_digits radix s). constructor; [lia | exact IH].
Qed.

Lemma parse_digits_take bound s : forall acc, 0 <= acc < bound ->
  parse_digits bound acc s =
    match take_digits 10 s with
    | (ds, []) =>
        let n := fold_left (fun acc d => acc * 10 + d) ds acc in
        if n <? bound then Some n else None
    | _ => None
    end.
Proof.
  induction s as [| c s IH]; intros acc Hacc; simpl.
  - destruct (Z.ltb_spec acc bound); [done | lia].
  - rewrite digit_to_digit. destruct (to_digit 10 c) as [d |] eqn:E; [| done].
    apply to_digit_range in E. destruct (Z.ltb_spec (acc * 10 + d) bound).
    + rewrite IH by lia. by destruct (take_digits 10 s) as [ds [| ? r]].
    + pose proof (take_digits_nonneg 10 s) as Hn. destruct (take_digits 10 s) as [ds [| ? r]]; [| done].
      simpl in *. pose proof (number_ge ds (acc * 10 + d) Hn ltac:(lia)).
      destruct (Z.ltb_spec (fold_left (fun acc d => acc * 10 + d) ds (acc * 10 + d)) bound); [lia | done].
Qed.

(** A port the address parser reads is the integer [str::parse] gives. *)
Lemma read_number_parse s v : read_number 16 10 None true s = Some (v, []) -> parse_uint 16 s = Some v.
Proof.
  unfold read_number. pose proof (parse_digits_take (2 ^ 16) s 0 ltac:(lia)) as Hp.
  destruct (take_digits 10 s) as [ds r] eqn:Ed. rewrite orb_false_r. cbn [negb andb].
  destruct (Nat.eqb_spec (List.length ds) 0); [done |].
  destruct (number_of 10 ds <? 2 ^ 16) eqn:E; [| done]. intros [= <- ->]. cbv zeta in Hp.
  change (fold_left _ ds 0) with (number_of 10 ds) in Hp. rewrite E in Hp.
  destruct s as [| c s]; [by simplify_eq/= |].
  destruct (decide (c = 43)) as [-> |]; [by simplify_eq/= |]. by rewrite parse_uint_plain.
Qed.

Lemma take_digits_app radix s ds rest :
  take_digits radix s = (ds, []) -> (forall c r, rest = c :: r -> to_digit radix c = None) ->
  take_digits radix (s ++ rest) = (ds, rest).
Proof.
  intros Hs Hr. revert ds Hs. induction s as [| c s IH]; intros ds; simpl.
  - intros [= <-]. destruct rest as [| c r]; [done |]. simpl. by rewrite (Hr c r eq_refl).
  - destruct (to_digit radix c); [| done]. destruct (take_digits radix s) as [ds' r]. intros [= <- ->].
    by rewrite (IH ds' eq_refl).
Qed.

Lemma take_digits_show port : is_uint 16 port ->
  exists ds, take_digits 10 (show_uint port) = (ds, []) /\ number_of 10 ds = port /\ ds <> [].
Proof.
  intros Hp. pose proof (parse_show 16 port Hp ltac:(lia) ltac:(lia)) as Hs.
  pose proof (show_fuel_nonempty 20 port ltac:(lia)) as Hn.
  pose proof (show_fuel_digits 20 port ltac:(unfold is_uint in Hp; lia)) as Hd.
  unfold show_uint in *. destruct (show_fuel 20 port) as [| c s]; [done |].
  apply Forall_cons in Hd as [Hc _]. rewrite parse_uint_plain, parse_digits_take in Hs by lia.
  destruct (take_digits 10 (c :: s)) as [ds [| ? r]] eqn:E; [| done]. exists ds. split; [done |]. split.
  - cbv zeta in Hs. change (fold_left _ ds 0) with (number_of 10 ds) in Hs. by case_match; simplify_eq.
  - intros ->. simpl in E. rewrite <- digit_to_digit in E. unfold digit in E.
    destruct (between_spec 48 57 c); [| lia]. by destruct (take_digits 10 s).
Qed.

(** ... and it reads every formatted port. *)
Lemma read_number_show port rest :
  is_uint 16 port -> (forall c r, rest = c :: r -> to_digit 10 c = None) ->
  read_number 16 10 None true (show_uint port ++ rest) = Some (port, rest).
Proof.
  intros Hp Hr. destruct (take_digits_show port Hp) as (ds & Hs & Hn & Hne).
  unfold read_number. rewrite (take_digits_app _ _ _ _ Hs Hr), Hn, orb_false_r. cbn [negb andb].
  destruct ds as [| d ds]; [done |]. cbn [List.length Nat.eqb].
  unfold is_uint in Hp. destruct (Z.ltb_spec port (2 ^ 16)); [done | lia].
Qed.

(** ** A literal in brackets *)

(** Parsers that stop at a closing bracket. *)
Definition stable {A} (p : parser A) : Prop :=
  forall s t, p (s ++ 93 :: t) = match p s with
                              | None => None
                              | Some (a, r) => Some (a, r ++ 93 :: t)
                              end.

Lemma stable_ret {A} (a : A) : stable (p_ret a).
Proof. done. Qed.

Lemma stable_bind {A B} (p : parser A) (k : A -> parser B) :
  stable p -> (forall a, stable (k a)) -> stable (p_bind p k).
Proof.
  intros Hp Hk s t. unfold p_bind. rewrite Hp. destruct (p s) as [[a r] |]; [apply Hk | done].
Qed.

Lemma stable_char c : c <> 93 -> stable (read_given_char c).
Proof.
  intros Hc s t. destruct s as [| d s]; unfold read_given_char; cbn [app].
  - destruct (Z.eqb_spec 93 c); congruence.
  - by destruct (d =? c).
Qed.

Lemma take_digits_stable radix s t : radix <= 16 ->
  take_digits radix (s ++ 93 :: t) =
    ((take_digits radix s).1, (take_digits radix s).2 ++ 93 :: t).
Proof.
  intros _. induction s as [| c s IH]; [done |]. cbn [app take_digits].
  destruct (to_digit radix c); [| done]. rewrite IH. by destruct (take_digits radix s).
Qed.

Lemma stable_number w radix m z : radix <= 16 -> stable (read_number w radix m z).
Proof.
  intros Hr s t. unfold read_number. rewrite take_digits_stable by done.
  assert ((match s ++ 93 :: t with [] => false | c :: _ => c =? 48 end)
    = match s with [] => false | c :: _ => c =? 48 end) as -> by by destruct s.
  destruct (take_digits radix s) as [ds r]. cbn [fst snd].
  destruct (_ || _); [done |]. destruct (negb z && _ && _); [done |]. by destruct (_ <? 2 ^ w).
Qed.

Lemma stable_separator {A} sep i (p : parser A) : sep <> 93 -> stable p -> stable (read_separator sep i p).
Proof.
  intros Hs Hp. unfold read_separator. case_match; [| done].
  apply stable_bind; [by apply stable_char | done].
Qed.

Lemma stable_ipv4 : stable read_ipv4_addr.
Proof.
  assert (forall i, stable (octet i)) as Ho.
  { intros i. apply stable_separator; [done |]. by apply stable_number. }
  repeat (apply stable_bind; [apply Ho | intros ?]). apply stable_ret.
Qed.

Lemma read_groups_stable n : forall i limit s t,
  read_groups n i limit (s ++ 93 :: t) =
    (let '(gs, v4, r) := read_groups n i limit s in (gs, v4, r ++ 93 :: t)).
Proof.
  induction n as [| n IH]; intros i limit s t; [done |]. cbn [read_groups].
  rewrite (stable_separator 58 i _ ltac:(done) stable_ipv4).
  rewrite (stable_separator 58 i _ ltac:(done) (stable_number 16 16 (Some 4%nat) true ltac:(done))).
  destruct (i <? limit - 1)%nat.
  1: destruct (read_separator 58 i read_ipv4_addr s) as [[[[[a b] c] d] r] |]; [done |].
  all: destruct (read_separator 58 i (read_number 16 16 (Some 4%nat) true) s) as [[g r] |]; [| done].
  all: rewrite IH; by destruct (read_groups n (S i) limit r) as [[gs v4] r'].
Qed.

Lemma stable_ipv6 : stable read_ipv6_addr.
Proof.
  intros s t. unfold read_ipv6_addr. rewrite read_groups_stable.
  destruct (read_groups 8 0 8 s) as [[head head_v4] s1].
  destruct (List.length head =? 8)%nat; [done |]. destruct head_v4; [done |].
  rewrite (stable_bind (read_given_char 58) (fun _ => read_given_char 58));
    [| by apply stable_char | intros; by apply stable_char].
  destruct (p_bind _ _ s1) as [[u s2] |]; [| done]. rewrite read_groups_stable.
  by destruct (read_groups _ 0 _ s2) as [[tail v4] s3].
Qed.

(** A literal in brackets, a colon and a port: the literal with that port. *)
Lemma parse_bracketed h segs port :
  read_ipv6_addr h = Some (segs, []) -> is_uint 16 port ->
  parse_socket_addr (lit "[" ++ h ++ lit "]" ++ lit ":" ++ show_uint port) = Some (V6 segs port 0).
Proof.
  intros Hh Hp. unfold parse_socket_addr.
  change (read_socket_addr_v4 _) with (@None (SocketAddr * list Z)).
  unfold read_socket_addr_v6. cbn [app]. unfold p_bind at 1.
  change (lit "[" ++ ?x) with (91 :: x).
  change (read_given_char 91 (91 :: ?x)) with (Some (tt, x)). cbn match.
  change (lit "]" ++ lit ":" ++ ?x) with (93 :: 58 :: x). unfold p_bind at 1. rewrite stable_ipv6, Hh.
  unfold p_bind, read_scope_id, read_port, read_given_char, p_bind, p_ret. cbn [app].
  change (93 =? 37) with false. cbn match. change (93 =? 93) with true. cbn match.
  change (58 =? 58) with true. cbn match.
  rewrite <- (app_nil_r (show_uint port)). by rewrite read_number_show.
Qed.

Lemma char_needed c s : contains c s = false -> read_given_char c s = None.
Proof. destruct s as [| d s]; [done |]. simpl. by destruct (d =? c). Qed.

Lemma read_groups_later n i limit s :
  contains 58 s = false -> (0 < i)%nat -> read_groups n i limit s = ([], false, s).
Proof.
  intros Hs Hi. destruct n as [| n]; [done |]. cbn [read_groups].
  assert (forall A (p : parser A), read_separator 58 i p s = None) as Hn.
  { intros A p. unfold read_separator. destruct (Nat.ltb_spec 0 i); [| lia].
    unfold p_bind. by rewrite char_needed. }
  rewrite !Hn. by destruct (i <? limit - 1)%nat.
Qed.

Lemma read_groups_S n i limit s :
  read_groups (S n) i limit s =
    match (if (i <? limit - 1)%nat then read_separator 58 i read_ipv4_addr s else None) with
    | Some ((a, b, c, d), s') => ([a * 256 + b; c * 256 + d], true, s')
    | None =>
        match read_separator 58 i (read_number 16 16 (Some 4%nat) true) s with
        | None => ([], false, s)
        | Some (g, s') => let '(gs, v4, s'') := read_groups n (S i) limit s' in (g :: gs, v4, s'')
        end
    end.
Proof. reflexivity. Qed.

(** An IPv6 literal has a colon. *)
Lemma read_ipv6_colon s x : read_ipv6_addr s = Some x -> contains 58 s = true.
Proof.
  intros Hr. destruct (contains 58 s) eqn:Hs; [done |]. exfalso. revert Hr.
  unfold read_ipv6_addr. rewrite (read_groups_S 7).
  assert (forall h s1, contains 58 s1 = false -> (List.length h < 8)%nat ->
    (if (List.length h =? 8)%nat then Some (h, s1) else
     match p_bind (read_given_char 58) (fun _ => read_given_char 58) s1 with
     | None => None
     | Some (_, s2) =>
        let limit := (8 - (List.length h + 1))%nat in
        let '(tail, _, s3) := read_groups limit 0 limit s2 in
        Some (h ++ replicate (8 - List.length h - List.length tail) 0 ++ tail, s3)
     end) = None) as Hnone.
  { intros h s1 H1 Hl. destruct (Nat.eqb_spec (List.length h) 8); [lia |]. unfold p_bind.
    by rewrite char_needed. }
  change (0 <? 8 - 1)%nat with true. cbn match. unfold read_separator. change (0 <? 0)%nat with false. cbn match.
  destruct (read_ipv4_addr s) as [[[[[a b] c] d] r] |] eqn:E4; [done |].
  destruct (read_number 16 16 (Some 4%nat) true s) as [[g r] |] eqn:En.
  - apply read_number_spec in En as (p & -> & Hp). rewrite contains_app in Hs.
    apply orb_false_iff in Hs as [_ Hs]. rewrite (read_groups_later 7 1 8 r) by (done || lia).
    rewrite Hnone by (done || (simpl; lia)). done.
  - rewrite Hnone by (done || (simpl; lia)). done.
Qed.

Lemma read_ipv6_unbracketed s x : read_ipv6_addr s = Some x -> starts_with (lit "[") s = false.
Proof.
  destruct s as [| c s]; [done |]. intros H. change (starts_with (lit "[") (c :: s)) with ((91 =? c) && true).
  destruct (Z.eqb_spec 91 c) as [<- |]; [| done]. discriminate H.
Qed.

(** ** Literals without brackets *)

(** A literal that is not bracketed has exactly one colon. *)
Lemma parse_socket_addr_colon s a :
  parse_socket_addr s = Some a ->
  match a with
  | V4 _ _ _ _ port => exists h p, s = h ++ 58 :: p /\ contains 58 h = false /\ contains 58 p = false /\
      parse_uint 16 p = Some port
  | V6 _ _ _ => exists s', s = 91 :: s'
  end.
Proof.
  unfold parse_socket_addr. destruct (read_socket_addr_v4 s) as [[v4 r] |] eqn:E4.
  - destruct r; [| done]. intros [= ->]. revert E4. unfold read_socket_addr_v4, p_bind, p_ret.
    destruct (read_ipv4_addr s) as [[[[[x y] z] w] s1] |] eqn:E; [| done].
    unfold read_port, p_bind, read_given_char.
    destruct s1 as [| d s1]; [done |]. destruct (Z.eqb_spec d 58) as [-> |]; [| done].
    destruct (read_number 16 10 None true s1) as [[port r] |] eqn:En; [| done]. intros [= <- ->].
    apply read_number_parse in En as Hport. apply read_ipv4_spec in E as (h & -> & Hh). apply read_number_spec in En as (p & -> & Hp).
    exists h, p. rewrite app_nil_r in *. done.
  - destruct (read_socket_addr_v6 s) as [[v6 r] |] eqn:E6; [| done]. destruct r; [| done].
    intros [= ->]. revert E6. unfold read_socket_addr_v6, p_bind at 1, read_given_char at 1.
    destruct s as [| d s]; [done |]. destruct (Z.eqb_spec d 91) as [-> |]; [| done].
    unfold p_bind, p_ret. destruct (read_ipv6_addr s) as [[segs s1] |]; [| done].
    repeat case_match; intros; simplify_eq; eauto.
Qed.

(** Two colons and no bracket: not a literal. *)
Lemma parse_socket_addr_bare s h p :
  s = h ++ 58 :: p -> contains 58 h = true -> starts_with [91] s = false ->
  parse_socket_addr s = None.
Proof.
  intros Hs Hh Hb. destruct (parse_socket_addr s) as [[a b c d port | segs port sc] |] eqn:E; [| | done].
  - apply parse_socket_addr_colon in E as (h' & p' & Hs' & Hh' & Hp' & _).
    assert (contains 58 p = true \/ contains 58 p = false) as [Hc | Hc] by (destruct (contains 58 p); auto).
    + assert (split_once 58 s = Some (h', p')) as H1 by (by apply split_once_some).
      destruct (split_once 58 h) as [[x y] |] eqn:Ex.
      * apply split_once_some in Ex as [-> Hx].
        assert (split_once 58 s = Some (x, y ++ 58 :: p)) as H2.
        { apply split_once_some. rewrite Hs. by rewrite <- app_assoc. }
        rewrite H1 in H2. simplify_eq. rewrite contains_app in Hp'. simpl in Hp'.
        by rewrite orb_true_r in Hp'.
      * exfalso. clear -Ex Hh. induction h as [| c h IH]; [done |]. simpl in *.
        destruct (c =? 58); [done |]. destruct (split_once 58 h) as [[? ?] |]; [done |]. by apply IH.
    + assert (rsplit_once 58 s = Some (h, p)) as H1 by (by apply rsplit_once_some).
      assert (rsplit_once 58 s = Some (h', p')) as H2 by (by apply rsplit_once_some).
      rewrite H1 in H2. simplify_eq. congruence.
  - apply parse_socket_addr_colon in E as [s' ->]. done.
Qed.
