(* ===== verification/Opts.v ===== *)
(** * Opts: plugin options, the SIP003 environment, the standalone file (opts.rs)

    Strings are lists of Unicode scalar values. The hex-key parser of qeli-core,
    the JSON parser and the operating system's resolver are parameters; log
    lines are not modelled. *)

From Stdlib Require Import Ascii String.
From S2P Require Import Prelude RustStr NetAddr.

(** ** Data *)

Inductive Role : Type := Client | Server.

#[export] Instance Role_eq_dec : EqDecision Role.
Proof. solve_decision. Defined.

Record PluginOpts : Type := {
  role : Role;
  password : list Z;
  sni : list Z;
  server_public_key : option (list Z);
  server_private_key : option (list Z);
  ping_secs : Z;
  dial_timeout_secs : Z
}.

#[export] Instance PluginOpts_eq_dec : EqDecision PluginOpts.
Proof. solve_decision. Defined.

Definition default_opts : PluginOpts := {|
  role := Client;
  password := [];
  sni := lit "www.cloudflare.com";
  server_public_key := None;
  server_private_key := None;
  ping_secs := 2;
  dial_timeout_secs := 10
|}.

(** Field assignments. *)
Definition set_role (r : Role) (o : PluginOpts) : PluginOpts :=
  {| role := r; password := password o; sni := sni o; server_public_key := server_public_key o;
     server_private_key := server_private_key o; ping_secs := ping_secs o;
     dial_timeout_secs := dial_timeout_secs o |}.
Definition set_password (p : list Z) (o : PluginOpts) : PluginOpts :=
  {| role := role o; password := p; sni := sni o; server_public_key := server_public_key o;
     server_private_key := server_private_key o; ping_secs := ping_secs o;
     dial_timeout_secs := dial_timeout_secs o |}.
Definition set_sni (s : list Z) (o : PluginOpts) : PluginOpts :=
  {| role := role o; password := password o; sni := s; server_public_key := server_public_key o;
     server_private_key := server_private_key o; ping_secs := ping_secs o;
     dial_timeout_secs := dial_timeout_secs o |}.
Definition set_public_key (k : list Z) (o : PluginOpts) : PluginOpts :=
  {| role := role o; password := password o; sni := sni o; server_public_key := Some k;
     server_private_key := server_private_key o; ping_secs := ping_secs o;
     dial_timeout_secs := dial_timeout_secs o |}.
Definition set_private_key (k : list Z) (o : PluginOpts) : PluginOpts :=
  {| role := role o; password := password o; sni := sni o; server_public_key := server_public_key o;
     server_private_key := Some k; ping_secs := ping_secs o;
     dial_timeout_secs := dial_timeout_secs o |}.
Definition set_ping (p : Z) (o : PluginOpts) : PluginOpts :=
  {| role := role o; password := password o; sni := sni o; server_public_key := server_public_key o;
     server_private_key := server_private_key o; ping_secs := p;
     dial_timeout_secs := dial_timeout_secs o |}.
Definition set_timeout (t : Z) (o : PluginOpts) : PluginOpts :=
  {| role := role o; password := password o; sni := sni o; server_public_key := server_public_key o;
     server_private_key := server_private_key o; ping_secs := ping_secs o;
     dial_timeout_secs := t |}.

(** The errors, one constructor per message, with the values formatted into it. *)
Inductive OptError : Type :=
| ServerkeyNotHex
| KeyNotHex
| PingNotInteger
| TimeoutNotInteger
| TimeoutZero
| PasswordRequired
| BadSni
| NotBoolean (key other : list Z)
| MissingEnv (name : list Z)
| EnvPortInvalid (name : list Z)
| InvalidConfig
| BadRole (other : list Z)
| NotHostPort (what value : list Z)
| BareIpv6 (what value : list Z)
| BadPort (what port : list Z)
| ResolveFailed (what addr : list Z) (e : resolve_error)
| NoAddresses (what addr : list Z).

(** ** Options *)

Definition validate_sni (sni : list Z) : result OptError unit :=
  if str_eqb sni [] || str_eqb sni (lit "!") || str_eqb sni (lit "~") || str_eqb sni (lit "@")
     || (is_ascii sni && (len (utf8 sni) <=? 253))
  then Ok tt
  else Err BadSni.

Definition parse_bool (key value : list Z) : result OptError bool :=
  let other := trim value in
  if str_eqb other (lit "1") || str_eqb other (lit "true") || str_eqb other (lit "yes")
     || str_eqb other (lit "on") then Ok true
  else if str_eqb other (lit "0") || str_eqb other (lit "false") || str_eqb other (lit "no")
     || str_eqb other (lit "off") || str_eqb other [] then Ok false
  else Err (NotBoolean key other).

(** The scanner of [split_entries]: backslash is 92, semicolon 59, equals 61. *)
Definition escapable (c : Z) : bool := (c =? 59) || (c =? 61) || (c =? 92).

Fixpoint scan_entries (current chars : list Z) : list (list Z) :=
  match chars with
  | [] => [current]
  | c :: rest =>
      if c =? 92 then
        match rest with
        | next :: rest' =>
            if escapable next then scan_entries (current ++ [next]) rest'
            else scan_entries (current ++ [92]) rest
        | [] => scan_entries (current ++ [92]) rest
        end
      else if c =? 59 then current :: scan_entries [] rest
      else scan_entries (current ++ [c]) rest
  end.

Definition entry_of (entry : list Z) : option (list Z * list Z) :=
  let entry := trim entry in
  if str_eqb entry [] then None
  else match split_once 61 entry with
       | None => None
       | Some (key, value) => Some (trim key, trim value)
       end.

Definition split_entries (raw : list Z) : list (list Z * list Z) := omap entry_of (scan_entries [] raw).

Definition validate_opts (opts : PluginOpts) : result OptError unit :=
  if str_eqb (password opts) [] then Err PasswordRequired else Ok tt.

(** The hex-key parser of qeli-core: 32 bytes or nothing. *)
Section Keys.
Context (parse_pubkey_hex : list Z -> option (list Z)).

Definition apply_entry (opts : PluginOpts) (key value : list Z) : result OptError PluginOpts :=
  if str_eqb key (lit "s") || str_eqb key (lit "server") then
    let? b := parse_bool key value in
    Ok (set_role (if b : bool then Server else Client) opts)
  else if str_eqb key (lit "password") || str_eqb key (lit "pass") then
    Ok (set_password value opts)
  else if str_eqb key (lit "sni") then
    let? _ := validate_sni value in
    Ok (set_sni value opts)
  else if str_eqb key (lit "serverkey") || str_eqb key (lit "server_key") then
    let? k := ok_or (parse_pubkey_hex value) ServerkeyNotHex in
    Ok (set_public_key k opts)
  else if str_eqb key (lit "key") then
    let? k := ok_or (parse_pubkey_hex value) KeyNotHex in
    Ok (set_private_key k opts)
  else if str_eqb key (lit "ping") || str_eqb key (lit "keepalive") then
    let? p := ok_or (parse_uint 32 value) PingNotInteger in
    Ok (set_ping p opts)
  else if str_eqb key (lit "timeout") then
    let? t := ok_or (parse_uint 64 value) TimeoutNotInteger in
    if t =? 0 then Err TimeoutZero else Ok (set_timeout t opts)
  else Ok opts.

Fixpoint apply_entries (opts : PluginOpts) (entries : list (list Z * list Z)) : result OptError PluginOpts :=
  match entries with
  | [] => Ok opts
  | (key, value) :: entries =>
      let? opts := apply_entry opts key value in
      apply_entries opts entries
  end.

Definition parse_plugin_opts (raw : list Z) : result OptError PluginOpts :=
  let? opts := apply_entries default_opts (split_entries raw) in
  let? _ := validate_opts opts in
  Ok opts.

(** ** The standalone file *)

Record StandaloneFile : Type := {
  file_role : option (list Z);
  file_listen : list Z;
  file_remote : list Z;
  file_password : option (list Z);
  file_sni : option (list Z);
  file_serverkey : option (list Z);
  file_key : option (list Z);
  file_ping : option Z;
  file_timeout : option Z
}.

Definition standalone_role (file : StandaloneFile) : result OptError Role :=
  match (fun r => to_ascii_lowercase (trim r)) <$> file_role file with
  | None => Ok Client
  | Some r =>
      if str_eqb r (lit "client") then Ok Client
      else if str_eqb r (lit "server") then Ok Server
      else Err (BadRole r)
  end.

(** [if let Some(x) = field { ... }]. *)
Definition if_some {A B} (f : option A) (k : A -> B -> result OptError B) (o : B) : result OptError B :=
  match f with
  | Some a => k a o
  | None => Ok o
  end.

Definition standalone_opts (role : Role) (file : StandaloneFile) : result OptError PluginOpts :=
  let opts := set_role role default_opts in
  let? opts := if_some (file_password file) (fun p o => Ok (set_password p o)) opts in
  let? opts := if_some (file_sni file) (fun s o =>
    let? _ := validate_sni s in Ok (set_sni s o)) opts in
  let? opts := if_some (file_serverkey file) (fun hex o =>
    let? k := ok_or (parse_pubkey_hex hex) ServerkeyNotHex in Ok (set_public_key k o)) opts in
  let? opts := if_some (file_key file) (fun hex o =>
    let? k := ok_or (parse_pubkey_hex hex) KeyNotHex in Ok (set_private_key k o)) opts in
  let? opts := if_some (file_ping file) (fun p o => Ok (set_ping p o)) opts in
  let? opts := if_some (file_timeout file) (fun t o =>
    if t =? 0 then Err TimeoutZero else Ok (set_timeout t o)) opts in
  let? _ := validate_opts opts in
  Ok opts.

End Keys.

Record StandaloneConfig : Type := {
  cfg_role : Role;
  cfg_listen : SocketAddr;
  cfg_remote : SocketAddr;
  cfg_opts : PluginOpts
}.

Record Sip003 : Type := {
  local : SocketAddr;
  remote : SocketAddr
}.

Definition standalone_sip003 (cfg : StandaloneConfig) : Sip003 :=
  match cfg_role cfg with
  | Client => {| local := cfg_listen cfg; remote := cfg_remote cfg |}
  | Server => {| local := cfg_remote cfg; remote := cfg_listen cfg |}
  end.

(** ** Addresses; the resolver is the operating system's *)

Section Resolver.
Context (lookup_host : list Z -> Z -> result resolve_error (list SocketAddr)).

(** The host as [resolve] rewrites it: trimmed, loopback when empty, a bare IPv6
    literal bracketed. *)
Definition resolve_host (host : list Z) : list Z :=
  let host := trim host in
  if str_eqb host [] then lit "127.0.0.1"
  else if contains 58 host && negb (starts_with (lit "[") host) then lit "[" ++ host ++ lit "]"
  else host.

Definition resolve (host : list Z) (port : Z) (what : list Z) : result OptError SocketAddr :=
  let addr_str := resolve_host host ++ lit ":" ++ show_uint port in
  match to_socket_addrs lookup_host addr_str with
  | Err e => Err (ResolveFailed what addr_str e)
  | Ok addrs => ok_or (head addrs) (NoAddresses what addr_str)
  end.

Definition parse_config_addr (value what : list Z) : result OptError SocketAddr :=
  let value := trim value in
  match parse_socket_addr value with
  | Some addr => Ok addr
  | None =>
      let? (host, port) := ok_or (rsplit_once 58 value) (NotHostPort what value) in
      if contains 58 host then Err (BareIpv6 what value)
      else
        let? port := ok_or (parse_uint 16 port) (BadPort what port) in
        resolve host port what
  end.

(** [env] is [std::env::var]: absent for a missing or non-Unicode variable. *)
Definition required_env (env : list Z -> option (list Z)) (name : list Z) : result OptError (list Z) :=
  match env name with
  | Some v => Ok (trim v)
  | None => Err (MissingEnv name)
  end.

Definition sip003_from_env (env : list Z -> option (list Z)) : result OptError Sip003 :=
  let? local_host := required_env env (lit "SS_LOCAL_HOST") in
  let? local_port := required_env env (lit "SS_LOCAL_PORT") in
  let? local_port := ok_or (parse_uint 16 local_port) (EnvPortInvalid (lit "SS_LOCAL_PORT")) in
  let? remote_host := required_env env (lit "SS_REMOTE_HOST") in
  let? remote_port := required_env env (lit "SS_REMOTE_PORT") in
  let? remote_port := ok_or (parse_uint 16 remote_port) (EnvPortInvalid (lit "SS_REMOTE_PORT")) in
  let? local := resolve local_host local_port (lit "SS_LOCAL_HOST/PORT") in
  let? remote := resolve remote_host remote_port (lit "SS_REMOTE_HOST/PORT") in
  Ok {| local := local; remote := remote |}.

(** [from_str] is the JSON parser of the [StandaloneFile] shape. *)
Definition parse_standalone_config (parse_pubkey_hex : list Z -> option (list Z))
  (from_str : list Z -> option StandaloneFile) (text : list Z) : result OptError StandaloneConfig :=
  let? file := ok_or (from_str text) InvalidConfig in
  let? role := standalone_role file in
  let? opts := standalone_opts parse_pubkey_hex role file in
  let? listen := parse_config_addr (file_listen file) (lit "listen") in
  let? remote := parse_config_addr (file_remote file) (lit "remote") in
  Ok {| cfg_role := role; cfg_listen := listen; cfg_remote := remote; cfg_opts := opts |}.

End Resolver.

(** ** Hex; [None] is an index out of range *)

Definition HEX : list Z := lit "0123456789abcdef".

Fixpoint to_hex (bytes : list Z) : option (list Z) :=
  match bytes with
  | [] => Some []
  | byte :: rest =>
      hi ← HEX !! Z.to_nat (Z.shiftr byte 4);
      lo ← HEX !! Z.to_nat (Z.land byte 15);
      out ← to_hex rest;
      Some (hi :: lo :: out)
  end.

(** ** Specifications *)

(** The SIP003 escaping the scanner undoes, and an option string built with it. *)
Definition escape_value (v : list Z) : list Z :=
  concat ((fun c => if escapable c then [92; c] else [c]) <$> v).

Definition render_entry (e : list Z * list Z) : list Z := escape_value e.1 ++ [61] ++ escape_value e.2.

Fixpoint render_opts (es : list (list Z * list Z)) : list Z :=
  match es with
  | [] => []
  | e :: es' =>
      match es' with
      | [] => render_entry e
      | _ => render_entry e ++ [59] ++ render_opts es'
      end
  end.

(** The entries an option string can carry: no equals sign in the key, no
    whitespace at the ends. *)
Definition entry_wf (e : list Z * list Z) : Prop :=
  contains 61 e.1 = false /\ trimmed e.1 /\ trimmed e.2.

(** What each option sets, as a table: the last entry that sets a field wins. *)
Definition true_words : list (list Z) := [lit "1"; lit "true"; lit "yes"; lit "on"].
Definition false_words : list (list Z) := [lit "0"; lit "false"; lit "no"; lit "off"; []].

Definition on_keys {A} (keys : list string) (f : list Z -> option A) (e : list Z * list Z) : option A :=
  if decide (e.1 ∈ lit <$> keys) then f e.2 else None.

Definition role_value (v : list Z) : option Role :=
  if decide (trim v ∈ true_words) then Some Server
  else if decide (trim v ∈ false_words) then Some Client else None.

Definition sni_value (v : list Z) : option (list Z) :=
  if decide (v ∈ [[]; lit "!"; lit "~"; lit "@"]) then Some v
  else if is_ascii v && (len v <=? 253) then Some v else None.

Definition timeout_value (v : list Z) : option Z :=
  match parse_uint 64 v with
  | Some t => if 1 <=? t then Some t else None
  | None => None
  end.

Definition last_of {A} (d : A) (f : list Z * list Z -> option A) (es : list (list Z * list Z)) : A :=
  default d (last (omap f es)).

(** A value of a known key has the key's form. *)
Definition known {A} (keys : list string) (f : list Z -> option A) (e : list Z * list Z) : Prop :=
  e.1 ∈ lit <$> keys -> is_Some (f e.2).

Section Table.
Context (parse_pubkey_hex : list Z -> option (list Z)).

Definition settings (o : PluginOpts) (es : list (list Z * list Z)) : PluginOpts := {|
  role := last_of (role o) (on_keys ["s"; "server"]%string role_value) es;
  password := last_of (password o) (on_keys ["password"; "pass"]%string Some) es;
  sni := last_of (sni o) (on_keys ["sni"]%string sni_value) es;
  server_public_key := last_of (server_public_key o)
    (on_keys ["serverkey"; "server_key"]%string (fun v => Some <$> parse_pubkey_hex v)) es;
  server_private_key := last_of (server_private_key o)
    (on_keys ["key"]%string (fun v => Some <$> parse_pubkey_hex v)) es;
  ping_secs := last_of (ping_secs o) (on_keys ["ping"; "keepalive"]%string (parse_uint 32)) es;
  dial_timeout_secs := last_of (dial_timeout_secs o) (on_keys ["timeout"]%string timeout_value) es
|}.

(** A value of every known key is of the key's form; unknown keys are free. *)
Definition accepted (e : list Z * list Z) : Prop :=
  known ["s"; "server"]%string role_value e /\ known ["sni"]%string sni_value e /\
  known ["serverkey"; "server_key"; "key"]%string parse_pubkey_hex e /\
  known ["ping"; "keepalive"]%string (parse_uint 32) e /\ known ["timeout"]%string timeout_value e.

End Table.

(** The entries a standalone file stands for. *)
Definition opt_entry {A} (key : string) (show : A -> list Z) (f : option A) : list (list Z * list Z) :=
  match f with
  | Some a => [(lit key, show a)]
  | None => []
  end.

Definition file_entries (r : Role) (file : StandaloneFile) : list (list Z * list Z) :=
  [(lit "server", match r with Server => lit "1" | Client => lit "0" end)]
  ++ opt_entry "password" id (file_password file) ++ opt_entry "sni" id (file_sni file)
  ++ opt_entry "serverkey" id (file_serverkey file) ++ opt_entry "key" id (file_key file)
  ++ opt_entry "ping" show_uint (file_ping file) ++ opt_entry "timeout" show_uint (file_timeout file).

(** The types of the number fields. *)
Definition file_typed (file : StandaloneFile) : Prop :=
  (forall p, file_ping file = Some p -> is_uint 32 p) /\
  (forall t, file_timeout file = Some t -> is_uint 64 t).

(** The file with the whitespace at the ends of its option strings removed. *)
Definition trim_strings (file : StandaloneFile) : StandaloneFile := {|
  file_role := file_role file;
  file_listen := file_listen file;
  file_remote := file_remote file;
  file_password := trim <$> file_password file;
  file_sni := trim <$> file_sni file;
  file_serverkey := trim <$> file_serverkey file;
  file_key := trim <$> file_key file;
  file_ping := file_ping file;
  file_timeout := file_timeout file
|}.

(** What the characters of a hexadecimal digit are worth, in either case. *)
Definition hex_digit (c v : Z) : Prop :=
  (48 <= c <= 57 /\ v = c - 48) \/ (97 <= c <= 102 /\ v = c - 87) \/ (65 <= c <= 70 /\ v = c - 55).

(** A hexadecimal text and the bytes it spells, two digits a byte, the high one
    first. *)
Inductive hex_text : list Z -> list Z -> Prop :=
| hex_nil : hex_text [] []
| hex_byte h l hi lo s bytes :
    hex_digit h hi -> hex_digit l lo -> hex_text s bytes ->
    hex_text (h :: l :: s) (16 * hi + lo :: bytes).

(** Reading hex back. *)
Fixpoint unhex (s : list Z) : option (list Z) :=
  match s with
  | [] => Some []
  | hi :: lo :: rest =>
      h ← to_digit 16 hi;
      l ← to_digit 16 lo;
      bytes ← unhex rest;
      Some (h * 16 + l :: bytes)
  | [_] => None
  end.

(** ** Lemmas *)

Lemma str_eqb_spec s t : reflect (s = t) (str_eqb s t).
Proof. unfold str_eqb. apply bool_decide_reflect. Qed.

Lemma scan_escape v : forall cur rest,
  scan_entries cur (escape_value v ++ rest) = scan_entries (cur ++ v) rest.
Proof.
  induction v as [| c v IH]; intros cur rest; [by rewrite app_nil_r |].
  unfold escape_value in *. cbn [fmap list_fmap concat]. rewrite <- app_assoc.
  destruct (escapable c) eqn:E.
  - cbn [app scan_entries]. change (92 =? 92) with true. cbn match. rewrite E, IH.
    by rewrite <- app_assoc.
  - cbn [app scan_entries]. unfold escapable in E.
    apply orb_false_iff in E as [[E1 E2]%orb_false_iff E3]. rewrite E3, E1, IH.
    by rewrite <- app_assoc.
Qed.

Lemma scan_entry e rest :
  scan_entries [] (render_entry e ++ rest) = scan_entries (e.1 ++ 61 :: e.2) rest.
Proof.
  unfold render_entry. rewrite <- !app_assoc, scan_escape. cbn [app scan_entries].
  change (61 =? 92) with false. change (61 =? 59) with false. cbn match.
  rewrite scan_escape, <- app_assoc. done.
Qed.

Lemma scan_render e es :
  scan_entries [] (render_opts (e :: es)) = (fun e => e.1 ++ 61 :: e.2) <$> e :: es.
Proof.
  revert e. induction es as [| e' es IH]; intros e.
  - cbn [render_opts]. rewrite <- (app_nil_r (render_entry e)), scan_entry. done.
  - change (render_opts (e :: e' :: es)) with (render_entry e ++ 59 :: render_opts (e' :: es)).
    rewrite scan_entry. rewrite fmap_cons. cbn [scan_entries]. change (59 =? 92) with false.
    change (59 =? 59) with true. cbn match. f_equal. apply IH.
Qed.

(** What a rendered entry is read back as: its value trimmed. *)
Definition as_read (e : list Z * list Z) : list Z * list Z := (e.1, trim e.2).

Lemma entry_of_plain e :
  contains 61 e.1 = false -> trimmed e.1 -> entry_of (e.1 ++ 61 :: e.2) = Some (as_read e).
Proof.
  intros Hc Hk. destruct e as [k v]. simpl in *. unfold entry_of.
  assert (trim (k ++ 61 :: v) = k ++ 61 :: trim_end v) as ->.
  { unfold trim. rewrite trim_start_id; [by apply trim_end_app |].
    intros c s' H. destruct k as [| c' k]; simpl in H; injection H as <- _; [done | by eapply (proj1 Hk)]. }
  destruct (str_eqb_spec (k ++ 61 :: trim_end v) []) as [H | _]; [by destruct k |].
  rewrite (proj2 (split_once_some 61 _ k (trim_end v))) by done.
  by rewrite (trim_trimmed k), trim_trim_end.
Qed.

Lemma split_entries_read es :
  Forall (fun e => contains 61 e.1 = false /\ trimmed e.1) es ->
  split_entries (render_opts es) = as_read <$> es.
Proof.
  intros Hes. unfold split_entries. destruct es as [| e es]; [done |]. rewrite scan_render.
  induction Hes as [| e' es' [He1 He2] _ IH]; [done |]. cbn [fmap list_fmap omap list_omap].
  rewrite entry_of_plain by done. f_equal. exact IH.
Qed.

Lemma split_entries_of_render es : Forall entry_wf es -> split_entries (render_opts es) = es.
Proof.
  intros Hes. rewrite split_entries_read by (eapply Forall_impl; [exact Hes | by intros e (? & ? & _)]).
  induction Hes as [| [k v] es (_ & _ & Hv) _ IH]; [done |]. cbn [fmap list_fmap]. rewrite IH.
  unfold as_read. simpl in *. by rewrite trim_trimmed.
Qed.

(** Last-wins tables over a list of entries, one entry at a time. *)
Lemma last_of_cons {A} (d : A) f e es : last_of d f (e :: es) = last_of (default d (f e)) f es.
Proof.
  unfold last_of. simpl. destruct (f e) as [a |]; [| done]. simpl.
  rewrite last_cons. change (list_omap _ _ f es) with (omap f es). by destruct (last (omap f es)).
Qed.

Lemma settings_cons parse o e es :
  settings parse o (e :: es) = settings parse (settings parse o [e]) es.
Proof.
  unfold settings.
  cbn [role password sni server_public_key server_private_key ping_secs dial_timeout_secs].
  f_equal; rewrite !last_of_cons; reflexivity.
Qed.

Ltac str_cases :=
  repeat match goal with
  | |- context [str_eqb ?s ?t] => destruct (str_eqb_spec s t); simplify_eq
  | H : context [str_eqb ?s ?t] |- _ => destruct (str_eqb_spec s t); simplify_eq
  end.

Lemma parse_bool_spec key v :
  match role_value v with
  | Some Server => parse_bool key v = Ok true
  | Some Client => parse_bool key v = Ok false
  | None => parse_bool key v = Err (NotBoolean key (trim v))
  end.
Proof.
  unfold role_value, parse_bool, true_words, false_words.
  generalize (trim v) as w. intros w.
  destruct (decide (w ∈ [lit "1"; lit "true"; lit "yes"; lit "on"])) as [H | H].
  - rewrite !elem_of_cons in H. destruct_or! H; [subst; done.. | by apply elem_of_nil in H].
  - destruct (decide (w ∈ [lit "0"; lit "false"; lit "no"; lit "off"; []])) as [H0 | H0].
    + rewrite !elem_of_cons in H0. destruct_or! H0; [subst; done.. | by apply elem_of_nil in H0].
    + rewrite !not_elem_of_cons in H, H0. destruct_and!. str_cases; try done.
      exfalso. set_solver.
Qed.

Lemma validate_sni_spec v :
  validate_sni v = match sni_value v with Some _ => Ok tt | None => Err BadSni end.
Proof.
  unfold validate_sni, sni_value.
  destruct (decide (v ∈ [[]; lit "!"; lit "~"; lit "@"])) as [H | H].
  - rewrite !elem_of_cons in H. destruct_or! H; [subst; done.. | by apply elem_of_nil in H].
  - rewrite !not_elem_of_cons in H. destruct_and!. str_cases; try done. cbn [orb].
    destruct (is_ascii v) eqn:E; [| done]. rewrite utf8_ascii by done. by destruct (len v <=? 253).
Qed.

Lemma sni_value_id v s : sni_value v = Some s -> s = v.
Proof. unfold sni_value. repeat case_match; congruence. Qed.

Lemma timeout_value_spec v :
  (let? t := ok_or (parse_uint 64 v) TimeoutNotInteger in
   if t =? 0 then Err TimeoutZero else Ok t)
  = match timeout_value v with
    | Some t => Ok t
    | None => Err match parse_uint 64 v with None => TimeoutNotInteger | Some _ => TimeoutZero end
    end.
Proof.
  unfold timeout_value. destruct (parse_uint 64 v) as [t |] eqn:E; [| done]. simpl.
  apply parse_uint_range in E; [| lia]. unfold is_uint in E.
  destruct (Z.eqb_spec t 0), (Z.leb_spec 1 t); try lia; done.
Qed.

Lemma on_keys_hit {A} keys (f : list Z -> option A) k v :
  k ∈ lit <$> keys -> on_keys keys f (k, v) = f v.
Proof. intros H. unfold on_keys. simpl. by rewrite decide_True. Qed.

Lemma on_keys_miss {A} keys (f : list Z -> option A) k v :
  k ∉ lit <$> keys -> on_keys keys f (k, v) = None.
Proof. intros H. unfold on_keys. simpl. by rewrite decide_False. Qed.

Lemma known_hit {A} keys (f : list Z -> option A) k v :
  k ∈ lit <$> keys -> known keys f (k, v) <-> is_Some (f v).
Proof. intros H. unfold known. simpl. naive_solver. Qed.

Lemma known_miss {A} keys (f : list Z -> option A) k v :
  k ∉ lit <$> keys -> known keys f (k, v) <-> True.
Proof. intros H. unfold known. simpl. naive_solver. Qed.

(** Membership of a key in a concrete key list: by evaluation for a literal,
    from the disequalities in the context otherwise. *)
Ltac key_mem :=
  first
  [ apply (bool_decide_unpack _); vm_compute; exact I
  | cbn [fmap list_fmap]; rewrite !not_elem_of_cons; repeat split; (assumption || apply not_elem_of_nil) ].

Ltac key_cases :=
  repeat match goal with
  | |- context [on_keys ?ks ?f (?k, ?v)] =>
      first [ rewrite (on_keys_hit ks f k v) by key_mem | rewrite (on_keys_miss ks f k v) by key_mem ]
  | |- context [known ?ks ?f (?k, ?v)] =>
      first [ rewrite (known_hit ks f k v) by key_mem | rewrite (known_miss ks f k v) by key_mem ]
  end.

Lemma settings_one parse o k v :
  settings parse o [(k, v)] = {|
    role := default (role o) (on_keys ["s"; "server"]%string role_value (k, v));
    password := default (password o) (on_keys ["password"; "pass"]%string Some (k, v));
    sni := default (sni o) (on_keys ["sni"]%string sni_value (k, v));
    server_public_key := default (server_public_key o)
      (on_keys ["serverkey"; "server_key"]%string (fun v => Some <$> parse v) (k, v));
    server_private_key := default (server_private_key o)
      (on_keys ["key"]%string (fun v => Some <$> parse v) (k, v));
    ping_secs := default (ping_secs o) (on_keys ["ping"; "keepalive"]%string (parse_uint 32) (k, v));
    dial_timeout_secs := default (dial_timeout_secs o) (on_keys ["timeout"]%string timeout_value (k, v))
  |}.
Proof.
  unfold settings. cbn [role password sni server_public_key server_private_key ping_secs dial_timeout_secs].
  f_equal; rewrite last_of_cons; reflexivity.
Qed.

(** One entry: accepted exactly when its value has its key's form, and it sets
    exactly its key's field. *)
Lemma apply_entry_ok parse o k v o' :
  apply_entry parse o k v = Ok o' <-> accepted parse (k, v) /\ o' = settings parse o [(k, v)].
Proof.
  rewrite settings_one. unfold accepted, apply_entry.
  destruct (str_eqb_spec k (lit "s")) as [-> | H1]; [| destruct (str_eqb_spec k (lit "server")) as [-> | H2]].
  1, 2: key_cases; cbn [orb]; match goal with |- context [parse_bool ?k ?v] =>
      pose proof (parse_bool_spec k v) as Hb end; 
    destruct (role_value v) as [[|] |]; rewrite Hb; simpl; destruct o; naive_solver.
  destruct (str_eqb_spec k (lit "password")) as [-> | H3]; [| destruct (str_eqb_spec k (lit "pass")) as [-> | H4]].
  1, 2: key_cases; simpl; destruct o; naive_solver.
  destruct (str_eqb_spec k (lit "sni")) as [-> | H5].
  { key_cases. simpl. rewrite validate_sni_spec. pose proof (sni_value_id v).
    destruct (sni_value v); simpl; destruct o; naive_solver. }
  destruct (str_eqb_spec k (lit "serverkey")) as [-> | H6]; [| destruct (str_eqb_spec k (lit "server_key")) as [-> | H7]].
  1, 2: key_cases; simpl; destruct (parse v); simpl; destruct o; naive_solver.
  destruct (str_eqb_spec k (lit "key")) as [-> | H8].
  { key_cases; simpl; destruct (parse v); simpl; destruct o; naive_solver. }
  destruct (str_eqb_spec k (lit "ping")) as [-> | H9]; [| destruct (str_eqb_spec k (lit "keepalive")) as [-> | H10]].
  1, 2: key_cases; simpl; destruct (parse_uint 32 v); simpl; destruct o; naive_solver.
  destruct (str_eqb_spec k (lit "timeout")) as [-> | H11].
  { key_cases. cbn [orb]. pose proof (timeout_value_spec v) as Ht. simpl in *.
    destruct (timeout_value v), (parse_uint 64 v); simpl in *; repeat case_match; simplify_eq;
      destruct o; naive_solver. }
  key_cases. simpl. destruct o; naive_solver.
Qed.

Lemma apply_entries_ok parse es : forall o o',
  apply_entries parse o es = Ok o' <-> Forall (accepted parse) es /\ o' = settings parse o es.
Proof.
  induction es as [| [k v] es IH]; intros o o'; cbn [apply_entries].
  - rewrite Forall_nil. destruct o. unfold settings. simpl. naive_solver.
  - rewrite Forall_cons, settings_cons. destruct (apply_entry parse o k v) as [o1 | e] eqn:E; simpl.
    + apply apply_entry_ok in E as [Ha ->]. rewrite IH. naive_solver.
    + split; [done |]. intros [[Ha _] _].
      assert (apply_entry parse o k v = Ok (settings parse o [(k, v)])) by by apply apply_entry_ok.
      congruence.
Qed.

(** A value that passes the table's test keeps its form through the last-wins rule. *)
Lemma last_of_ind {A} (P : A -> Prop) d f es :
  P d -> (forall e a, f e = Some a -> P a) -> P (last_of d f es).
Proof.
  intros Hd Hf. revert d Hd. induction es as [| e es IH]; intros d Hd; [done |]. rewrite last_of_cons.
  apply IH. destruct (f e) as [a |] eqn:E; [by eapply Hf | done].
Qed.

(** The SNI of accepted options is one the hello builder accepts. *)
Lemma parse_plugin_opts_sni parse raw o :
  parse_plugin_opts parse raw = Ok o -> validate_sni (sni o) = Ok tt.
Proof.
  unfold parse_plugin_opts. destruct (apply_entries _ _ _) as [o1 |] eqn:E; [| done]. cbn [result_bind].
  destruct (validate_opts o1); [| done]. intros [= <-]. apply apply_entries_ok in E as [_ ->].
  cbn [settings sni]. apply (last_of_ind (fun s => validate_sni s = Ok tt)); [reflexivity |].
  intros e s. unfold on_keys. destruct (decide _); [| done]. intros Hs. pose proof (sni_value_id _ _ Hs) as ->.
  by rewrite validate_sni_spec, Hs.
Qed.

(** Rendering a file's entries. *)
Lemma show_uint_trimmed z : 0 <= z -> trimmed (show_uint z).
Proof.
  intros Hz. pose proof (show_fuel_digits 20 z Hz) as Hd. unfold show_uint.
  assert (forall c, 48 <= c <= 57 -> is_whitespace c = false) as Hw.
  { intros c Hc. unfold is_whitespace. between_cases; done. }
  split; intros c s' H; apply Hw; rewrite H in Hd.
  - by inversion Hd.
  - apply Forall_app in Hd as [_ Hd]. by inversion Hd.
Qed.

Lemma lit_wf (s : string) v :
  contains 61 (lit s) = false -> trimmedb (lit s) = true -> trimmed v -> entry_wf (lit s, v).
Proof. intros Hc Hs Hv. split; [done |]. split; [by apply trimmedb_true | done]. Qed.

(** A file's entries as they are read back are those of the trimmed file. *)
Lemma opt_entry_read key f : as_read <$> opt_entry key id f = opt_entry key id (trim <$> f).
Proof. by destruct f. Qed.

Lemma opt_entry_read_uint key w f :
  (forall a, f = Some a -> is_uint w a) -> as_read <$> opt_entry key show_uint f = opt_entry key show_uint f.
Proof.
  intros Hf. destruct f as [a |]; [| done]. unfold as_read. simpl.
  rewrite trim_trimmed; [done |]. apply show_uint_trimmed. by destruct (Hf a eq_refl).
Qed.

Lemma file_entries_read r file :
  file_typed file -> split_entries (render_opts (file_entries r file)) = file_entries r (trim_strings file).
Proof.
  intros [Hp Ht]. rewrite split_entries_read.
  - unfold file_entries. rewrite !fmap_app, !opt_entry_read, (opt_entry_read_uint _ 32), (opt_entry_read_uint _ 64) by done.
    f_equal. by destruct r.
  - assert (forall {A} key (show : A -> list Z) f, contains 61 (lit key) = false -> trimmedb (lit key) = true ->
      Forall (fun e => contains 61 e.1 = false /\ trimmed e.1) (opt_entry key show f)) as He.
    { intros A key show f Hc Hk. destruct f; [| constructor].
      constructor; [split; [done | by apply trimmedb_true] | constructor]. }
    unfold file_entries. rewrite !Forall_app. repeat split; try by apply He.
    constructor; [split; [done | by apply trimmedb_true] | constructor].
Qed.

Lemma apply_entries_app parse es1 es2 o :
  apply_entries parse o (es1 ++ es2) = let? o := apply_entries parse o es1 in apply_entries parse o es2.
Proof.
  revert o. induction es1 as [| [k v] es1 IH]; intros o; [done |]. simpl.
  destruct (apply_entry parse o k v); [apply IH | done].
Qed.

Lemma apply_opt_entry {A} parse key (show : A -> list Z) f o (k : A -> PluginOpts -> result OptError PluginOpts) :
  (forall a, f = Some a -> apply_entry parse o (lit key) (show a) = k a o) ->
  apply_entries parse o (opt_entry key show f) = if_some f k o.
Proof.
  intros H. destruct f as [a |]; simpl; [| done]. rewrite (H a eq_refl). by destruct (k a o).
Qed.

(** (C32) Escaping is undone: an option string rendered with
    SIP003 escapes splits into exactly its entries, whatever semicolons, equals
    signs and backslashes the values hold. *)
Theorem split_entries_render es : Forall entry_wf es -> split_entries (render_opts es) = es.
Proof. apply split_entries_of_render. Qed.

Lemma split_entries_render_witness :
  Forall entry_wf [(lit "password", lit "a;b=c\d")] /\
  split_entries (lit "password=a\;b\=c\\d") = [(lit "password", lit "a;b=c\d")].
Proof.
  assert (Forall entry_wf [(lit "password", lit "a;b=c\d")]) as H.
  { constructor; [| constructor]. by apply lit_wf, trimmedb_true. }
  split; [exact H |]. exact (split_entries_render _ H).
Defined.

(** (C31) [parse_plugin_opts] accepts a string exactly when
    every known option has a well-formed value and the password is not empty;
    the result then holds, field by field, the last value given or the default. *)
Theorem parse_plugin_opts_spec parse raw o :
  parse_plugin_opts parse raw = Ok o <->
  Forall (accepted parse) (split_entries raw) /\
  o = settings parse default_opts (split_entries raw) /\ password o <> [].
Proof.
  unfold parse_plugin_opts. destruct (apply_entries parse default_opts (split_entries raw)) as [o1 | e] eqn:E.
  - apply apply_entries_ok in E as [Ha ->]. cbn [result_bind]. unfold validate_opts.
    destruct (str_eqb_spec (password (settings parse default_opts (split_entries raw))) []); simpl; naive_solver.
  - cbn [result_bind]. split; [done |]. intros (Ha & _).
    assert (apply_entries parse default_opts (split_entries raw)
      = Ok (settings parse default_opts (split_entries raw))) by by apply apply_entries_ok.
    congruence.
Qed.

Lemma apply_entry_password parse o v : apply_entry parse o (lit "password") v = Ok (set_password v o).
Proof. reflexivity. Qed.
Lemma apply_entry_sni parse o v :
  apply_entry parse o (lit "sni") v = let? _ := validate_sni v in Ok (set_sni v o).
Proof. reflexivity. Qed.
Lemma apply_entry_serverkey parse o v :
  apply_entry parse o (lit "serverkey") v = let? k := ok_or (parse v) ServerkeyNotHex in Ok (set_public_key k o).
Proof. reflexivity. Qed.
Lemma apply_entry_key parse o v :
  apply_entry parse o (lit "key") v = let? k := ok_or (parse v) KeyNotHex in Ok (set_private_key k o).
Proof. reflexivity. Qed.
Lemma apply_entry_ping parse o p :
  is_uint 32 p -> apply_entry parse o (lit "ping") (show_uint p) = Ok (set_ping p o).
Proof.
  intros Hp. change (apply_entry parse o (lit "ping") (show_uint p)) with
    (let? p := ok_or (parse_uint 32 (show_uint p)) PingNotInteger in Ok (set_ping p o)).
  by rewrite parse_show.
Qed.
Lemma apply_entry_timeout parse o t :
  is_uint 64 t -> apply_entry parse o (lit "timeout") (show_uint t) =
    if t =? 0 then Err TimeoutZero else Ok (set_timeout t o).
Proof.
  intros Ht. change (apply_entry parse o (lit "timeout") (show_uint t)) with
    (let? t := ok_or (parse_uint 64 (show_uint t)) TimeoutNotInteger in
     if t =? 0 then Err TimeoutZero else Ok (set_timeout t o)).
  by rewrite parse_show.
Qed.

(** Applying a file's entries is parsing its options. *)
Lemma apply_file_entries parse r file :
  file_typed file ->
  (let? opts := apply_entries parse default_opts (file_entries r file) in
   let? _ := validate_opts opts in Ok opts) = standalone_opts parse r file.
Proof.
  intros [Hp Ht]. unfold file_entries, standalone_opts.
  assert (apply_entry parse default_opts (lit "server") match r with Server => lit "1" | Client => lit "0" end
    = Ok (set_role r default_opts)) as Hr by by destruct r.
  cbn [app apply_entries]. rewrite Hr. cbn [result_bind].
  rewrite apply_entries_app, (apply_opt_entry _ _ _ _ _ (fun p o => Ok (set_password p o)))
    by (intros; apply apply_entry_password).
  destruct (if_some _ _ _) as [o1 | e]; [| done]. cbn [result_bind].
  rewrite apply_entries_app, (apply_opt_entry _ _ _ _ _ (fun s o => let? _ := validate_sni s in Ok (set_sni s o)))
    by (intros; apply apply_entry_sni).
  destruct (if_some _ _ _) as [o2 | e]; [| done]. cbn [result_bind].
  rewrite apply_entries_app, (apply_opt_entry _ _ _ _ _
    (fun hex o => let? k := ok_or (parse hex) ServerkeyNotHex in Ok (set_public_key k o)))
    by (intros; apply apply_entry_serverkey).
  destruct (if_some _ _ _) as [o3 | e]; [| done]. cbn [result_bind].
  rewrite apply_entries_app, (apply_opt_entry _ _ _ _ _
    (fun hex o => let? k := ok_or (parse hex) KeyNotHex in Ok (set_private_key k o)))
    by (intros; apply apply_entry_key).
  destruct (if_some _ _ _) as [o4 | e]; [| done]. cbn [result_bind].
  rewrite apply_entries_app, (apply_opt_entry _ _ _ _ _ (fun p o => Ok (set_ping p o)))
    by (intros; apply apply_entry_ping; auto).
  destruct (if_some _ _ _) as [o5 | e]; [| done]. cbn [result_bind].
  rewrite (apply_opt_entry _ _ _ _ _ (fun t o => if t =? 0 then Err TimeoutZero else Ok (set_timeout t o)))
    by (intros; apply apply_entry_timeout; auto).
  done.
Qed.

(** No later field touches the password. *)
Lemma if_some_password {A} (f : option A) k o o' :
  (forall a o1 o2, k a o1 = Ok o2 -> password o2 = password o1) -> if_some f k o = Ok o' -> password o' = password o.
Proof. intros Hk. destruct f as [a |]; simpl; [by apply Hk | by intros [= ->]]. Qed.

Lemma standalone_password parse r file o :
  standalone_opts parse r file = Ok o -> password o = default [] (file_password file) /\ password o <> [].
Proof.
  unfold standalone_opts.
  assert (if_some (file_password file) (fun p o => Ok (set_password p o)) (set_role r default_opts)
    = Ok (set_password (default [] (file_password file)) (set_role r default_opts))) as -> by by destruct (file_password file).
  cbn [result_bind]. set (o0 := set_password _ _). change (default [] (file_password file)) with (password o0).
  clearbody o0. intros H.
  do 5 (let E := fresh "E" in apply result_bind_ok in H as (? & E & H); apply if_some_password in E;
    [| intros ? ? ?; unfold ok_or, result_bind; intros; by repeat first [progress simplify_eq/= | case_match]]).
  unfold validate_opts in H.
  match type of H with context [str_eqb ?s ?t] => destruct (str_eqb_spec s t) as [| Hne] end; [done |].
  injection H as <-. by split; [congruence |].
Qed.

(** (C33) How the options of a standalone file relate to [plugin_opts]. The
    option string with the file's entries, each value escaped, gives exactly the
    result, errors included, of the file with the whitespace at the ends of its
    strings removed: the same options under the same keys, with the same
    validation, except that a [plugin_opts] value is trimmed and a JSON string
    is not. So the two agree for a file whose strings have no such whitespace,
    and they differ for others: a password of whitespace alone is a password in
    the file and a missing one in [plugin_opts]. *)
Theorem standalone_same_options parse r file :
  file_typed file ->
  parse_plugin_opts parse (render_opts (file_entries r file)) = standalone_opts parse r (trim_strings file) /\
  (trim_strings file = file ->
     parse_plugin_opts parse (render_opts (file_entries r file)) = standalone_opts parse r file) /\
  (forall p o, file_password file = Some p -> p <> [] -> trim p = [] -> standalone_opts parse r file = Ok o ->
     password o = p /\ forall o', parse_plugin_opts parse (render_opts (file_entries r file)) <> Ok o').
Proof.
  intros Hf. assert (file_typed (trim_strings file)) as Hf' by exact Hf.
  assert (parse_plugin_opts parse (render_opts (file_entries r file)) = standalone_opts parse r (trim_strings file)) as E.
  { unfold parse_plugin_opts. rewrite file_entries_read by done. by apply apply_file_entries. }
  split_and!; [done | intros Heq; by rewrite E, Heq | intros p o Hp Hne Ht Ho; split].
  - apply standalone_password in Ho as [-> _]. by rewrite Hp.
  - intros o'. rewrite E. intros Ho'%standalone_password. simpl in Ho'. rewrite Hp in Ho'. simpl in Ho'.
    rewrite Ht in Ho'. by destruct Ho' as [-> ?].
Qed.

(** A hex-key parser of the documented kind. *)
Definition toy_pubkey_hex (s : list Z) : option (list Z) :=
  match unhex s with
  | Some k => if len k =? 32 then Some k else None
  | None => None
  end.

Definition sample_file : StandaloneFile := {|
  file_role := Some (lit "Server");
  file_listen := lit "[::]:8443";
  file_remote := lit "127.0.0.1:8080";
  file_password := Some (lit "p@ss=word");
  file_sni := None;
  file_serverkey := None;
  file_key := Some (lit "00112233445566778899aabbccddeeff00112233445566778899aabbccddeeff");
  file_ping := Some 5;
  file_timeout := Some 7
|}.

(** The sample with spaces around its password. *)
Definition spaced_file : StandaloneFile := {|
  file_role := file_role sample_file; file_listen := file_listen sample_file; file_remote := file_remote sample_file;
  file_password := Some (lit " p@ss=word "); file_sni := None; file_serverkey := None;
  file_key := file_key sample_file; file_ping := Some 5; file_timeout := Some 7
|}.

Lemma standalone_same_options_witness :
  file_typed spaced_file /\
  parse_plugin_opts toy_pubkey_hex (render_opts (file_entries Server spaced_file))
    = standalone_opts toy_pubkey_hex Server sample_file /\
  standalone_opts toy_pubkey_hex Server spaced_file <> standalone_opts toy_pubkey_hex Server sample_file.
Proof.
  assert (file_typed spaced_file) as H.
  { split; simpl; intros ? E; injection E as <-; unfold is_uint; lia. }
  split; [exact H |]. split; [| vm_compute; discriminate].
  exact (proj1 (standalone_same_options toy_pubkey_hex Server spaced_file H)).
Defined.

Example sample_opts :
  password <$> match standalone_opts toy_pubkey_hex Server sample_file with Ok o => Some o | Err _ => None end
  = Some (lit "p@ss=word").
Proof. vm_compute. reflexivity. Qed.

(** ** Addresses *)

(** [parse_config_addr] on an address that is not in
    brackets: without a colon it is not host:port; with more than one it is the
    ambiguous bare IPv6 form, always rejected with the hint to bracket it; with
    exactly one, a bad port is an error and a good one gives the IPv4 literal
    with that port or whatever the host resolves to. *)
Theorem config_addr_spec lookup value what :
  starts_with (lit "[") (trim value) = false ->
  (contains 58 (trim value) = false ->
     parse_config_addr lookup value what = Err (NotHostPort what (trim value))) /\
  (forall h p, trim value = h ++ 58 :: p -> contains 58 p = false ->
     (contains 58 h = true -> parse_config_addr lookup value what = Err (BareIpv6 what (trim value))) /\
     (contains 58 h = false ->
        match parse_uint 16 p with
        | None => parse_config_addr lookup value what = Err (BadPort what p)
        | Some port =>
            (exists a b c d, parse_socket_addr (trim value) = Some (V4 a b c d port) /\
               parse_config_addr lookup value what = Ok (V4 a b c d port)) \/
            parse_config_addr lookup value what = resolve lookup h port what
        end)).
Proof.
  unfold parse_config_addr. generalize (trim value) as v. intros v Hb. split.
  - intros Hc. destruct (parse_socket_addr v) as [[a b c d port |] |] eqn:E.
    + apply parse_socket_addr_colon in E as (h & p & -> & _). rewrite contains_app in Hc. simpl in Hc.
      by rewrite orb_true_r in Hc.
    + apply parse_socket_addr_colon in E as [s' ->]. by vm_compute in Hb.
    + destruct (rsplit_once 58 v) as [[h p] |] eqn:Er; [| done].
      apply rsplit_once_some in Er as [-> _]. rewrite contains_app in Hc. simpl in Hc.
      by rewrite orb_true_r in Hc.
  - intros h p Hv Hp. assert (rsplit_once 58 v = Some (h, p)) as Hr by by apply rsplit_once_some. split.
    + intros Hh. by rewrite (parse_socket_addr_bare v h p), Hr; simpl; [rewrite Hh |..].
    + intros Hh. destruct (parse_socket_addr v) as [[a b c d port |] |] eqn:E.
      * pose proof (parse_socket_addr_colon _ _ E) as (h' & p' & Hv' & Hh' & Hp' & Hport).
        assert (rsplit_once 58 v = Some (h', p')) as Hr' by by apply rsplit_once_some.
        rewrite Hr in Hr'. simplify_eq. rewrite Hport. left. by exists a, b, c, d.
      * apply parse_socket_addr_colon in E as [s' ->]. by vm_compute in Hb.
      * rewrite Hr. simpl. rewrite Hh. destruct (parse_uint 16 p); simpl; [by right | done].
Qed.

(** A resolver that knows one host. *)
Definition toy_lookup (host : list Z) (port : Z) : result resolve_error (list SocketAddr) :=
  if str_eqb host (lit "localhost") then Ok [V4 127 0 0 1 port] else Err LookupFailed.

Lemma config_addr_spec_witness :
  parse_config_addr toy_lookup (lit " 2001:db8::1:8443 ") (lit "listen")
    = Err (BareIpv6 (lit "listen") (lit "2001:db8::1:8443")).
Proof.
  destruct (config_addr_spec toy_lookup (lit " 2001:db8::1:8443 ") (lit "listen") eq_refl) as [_ H].
  destruct (H (lit "2001:db8::1") (lit "8443") eq_refl eq_refl) as [H1 _]. exact (H1 eq_refl).
Defined.

(** The hint is also given for a literal in brackets whose port is out of range. *)
Lemma config_addr_bracketed_bad_port :
  parse_config_addr toy_lookup (lit "[::1]:99999") (lit "listen")
    = Err (BareIpv6 (lit "listen") (lit "[::1]:99999")).
Proof. vm_compute. reflexivity. Qed.

(** An IPv6 host needs no brackets in the environment:
    [resolve] adds them, and the literal with the given port is the result,
    whatever the system resolver would say. *)
Theorem resolve_bare_ipv6 lookup host segs port what :
  read_ipv6_addr (trim host) = Some (segs, []) -> is_uint 16 port ->
  resolve lookup host port what = Ok (V6 segs port 0).
Proof.
  intros Hh Hp. unfold resolve, resolve_host. pose proof (read_ipv6_colon _ _ Hh) as Hc.
  rewrite Hc, (read_ipv6_unbracketed _ _ Hh). cbn [negb andb].
  destruct (str_eqb_spec (trim host) []) as [He | _]; [by rewrite He in Hc |].
  rewrite <- !app_assoc. unfold to_socket_addrs. by rewrite (parse_bracketed _ segs port).
Qed.

Lemma resolve_bare_ipv6_witness :
  resolve toy_lookup (lit "2001:db8::1") 8443 (lit "SS_REMOTE_HOST/PORT")
    = Ok (V6 [8193; 3512; 0; 0; 0; 0; 0; 1] 8443 0).
Proof.
  apply (resolve_bare_ipv6 toy_lookup (lit "2001:db8::1")); [reflexivity | unfold is_uint; lia].
Defined.

(** ** Hex *)

Lemma HEX_lookup i :
  0 <= i < 16 -> exists c, HEX !! Z.to_nat i = Some c /\ to_digit 16 c = Some i /\ hex_digit c i.
Proof.
  intros Hi. exists (nth (Z.to_nat i) HEX 0).
  assert (i = 0 \/ i = 1 \/ i = 2 \/ i = 3 \/ i = 4 \/ i = 5 \/ i = 6 \/ i = 7 \/ i = 8 \/ i = 9 \/ i = 10 \/
    i = 11 \/ i = 12 \/ i = 13 \/ i = 14 \/ i = 15) as H by lia.
  destruct_or! H; subst; unfold hex_digit; (split; [done | split; [done | simpl; lia]]).
Qed.

(** The two digits of a byte. *)
Lemma to_hex_byte b bytes :
  is_uint 8 b -> exists h l, hex_digit h (b / 16) /\ hex_digit l (b mod 16) /\
    to_digit 16 h = Some (b / 16) /\ to_digit 16 l = Some (b mod 16) /\ h ∈ HEX /\ l ∈ HEX /\
    to_hex (b :: bytes) = out ← to_hex bytes; Some (h :: l :: out).
Proof.
  intros Hb. unfold is_uint in Hb. change (2 ^ 8) with 256 in Hb.
  assert (0 <= b / 16 < 16) as Hhi by (split; [apply Z.div_pos | apply Z.div_lt_upper_bound]; lia).
  pose proof (Z.mod_pos_bound b 16 ltac:(lia)) as Hlo.
  destruct (HEX_lookup _ Hhi) as (h & Hh & Hhd & Hhh), (HEX_lookup _ Hlo) as (l & Hl & Hld & Hlh).
  exists h, l. cbn [to_hex]. rewrite Z.shiftr_div_pow2 by lia. change (2 ^ 4) with 16.
  change 15 with (Z.ones 4). rewrite Z.land_ones by lia. change (2 ^ 4) with 16. rewrite Hh, Hl.
  apply list_elem_of_lookup_2 in Hh, Hl. by split_and!.
Qed.

(** [to_hex] spells its bytes. *)
Lemma to_hex_text bytes : bytes_ok bytes -> exists s, to_hex bytes = Some s /\ hex_text s bytes.
Proof.
  induction 1 as [| b bytes Hb _ (s & Hs & Ht)]; [exists []; split; [done | constructor] |].
  destruct (to_hex_byte b bytes Hb) as (h & l & Hh & Hl & _ & _ & _ & _ & ->). rewrite Hs.
  exists (h :: l :: s). split; [done |]. rewrite (Z.div_mod b 16) by lia. by constructor.
Qed.

(** [to_hex] never indexes out of its table, writes two
    lowercase digits a byte and loses nothing: reading the digits back gives the
    bytes. *)
Theorem to_hex_roundtrip bytes :
  bytes_ok bytes ->
  exists s, to_hex bytes = Some s /\ len s = 2 * len bytes /\ unhex s = Some bytes /\
    Forall (fun c => c ∈ HEX) s.
Proof.
  induction 1 as [| b bytes Hb _ (s & Hs & Hl & Hu & Hf)]; [by exists [] |].
  destruct (to_hex_byte b bytes Hb) as (h & l & _ & _ & Hhd & Hld & Hh & Hll & ->). rewrite Hs.
  exists (h :: l :: s). cbn [mbind option_bind]. split; [done |]. split; [| split].
  - rewrite !len_cons, Hl. lia.
  - cbn [unhex]. rewrite Hhd, Hld, Hu. cbn [mbind option_bind]. do 2 f_equal.
    pose proof (Z.div_mod b 16 ltac:(lia)). lia.
  - by constructor; [| constructor].
Qed.

(** The toy key parser reads every text of 64 digits. *)
Lemma hex_digit_to_digit c v : hex_digit c v -> to_digit 16 c = Some v.
Proof.
  intros [[Hc ->] | [[Hc ->] | [Hc ->]]]; unfold to_digit, between;
    repeat match goal with |- context [?a <=? ?b] => destruct (Z.leb_spec a b); try lia end; simpl.
  all: repeat match goal with |- context [?a <? ?b] => destruct (Z.ltb_spec a b); try lia end; try done; f_equal; lia.
Qed.

Lemma hex_text_unhex s bytes : hex_text s bytes -> unhex s = Some bytes.
Proof.
  induction 1 as [| h l hi lo s bytes Hh Hl _ IH]; [done |]. cbn [unhex].
  rewrite (hex_digit_to_digit _ _ Hh), (hex_digit_to_digit _ _ Hl), IH. cbn [mbind option_bind]. do 2 f_equal. lia.
Qed.

Lemma toy_pubkey_of_text s k : len k = 32 -> hex_text s k -> toy_pubkey_hex s = Some k.
Proof. intros Hk Hs. unfold toy_pubkey_hex. by rewrite (hex_text_unhex _ _ Hs), Hk. Qed.

Lemma to_hex_roundtrip_witness :
  exists s, to_hex [0; 15; 255] = Some s /\ len s = 6 /\ unhex s = Some [0; 15; 255] /\
    Forall (fun c => c ∈ HEX) s.
Proof. apply (to_hex_roundtrip [0; 15; 255]). repeat constructor; unfold is_uint; lia. Defined.

Example to_hex_sample : to_hex [0; 15; 255] = Some (lit "000fff").
Proof. reflexivity. Qed.
