(* ===== verification/Typing.v ===== *)
(** * Typing: the values the configuration code produces inhabit their Rust types (opts.rs, client.rs)

    The models write integers, strings and arrays as integers and lists, so a
    Rust type is a predicate here ([Typed]). The theorem is type preservation
    for the configuration: whatever text, environment or file comes in, what is
    accepted has octets, ports, counters, keys and strings in the ranges of their
    types, and beyond the types, a password, a timeout of at least one second
    and an SNI the handshake can send. *)

From Stdlib Require Import Ascii String.
From S2P Require Import Prelude RustStr NetAddr Opts.

(** ** Types as predicates *)

Class Typed (A : Type) : Type := typed : A -> Prop.

(** [String]: Unicode scalar values. *)
#[export] Instance typed_string : Typed (list Z) := Forall is_scalar.

#[export] Instance typed_option {A} `{Typed A} : Typed (option A) :=
  fun o => forall a, o = Some a -> typed a.

#[export] Instance typed_pair {A B} `{Typed A} `{Typed B} : Typed (A * B) :=
  fun p => typed p.1 /\ typed p.2.

(** What an accepted value satisfies; errors carry only text. *)
#[export] Instance typed_result {E A} `{Typed A} : Typed (result E A) :=
  fun r => forall a, r = Ok a -> typed a.

(** [SocketAddr]: octets, sixteen-bit segments, port and scope id. *)
#[export] Instance typed_addr : Typed SocketAddr := fun a =>
  match a with
  | V4 a b c d port => is_uint 8 a /\ is_uint 8 b /\ is_uint 8 c /\ is_uint 8 d /\ is_uint 16 port
  | V6 segments port scope_id =>
      Forall (is_uint 16) segments /\ List.length segments = 8%nat /\ is_uint 16 port /\ is_uint 32 scope_id
  end.

(** [[u8; 32]]. *)
Definition key_typed (k : list Z) : Prop := bytes_ok k /\ List.length k = 32%nat.

(** [PluginOpts] without the check on the password, which comes last. *)
Definition opts_typed (o : PluginOpts) : Prop :=
  typed (password o) /\ typed (sni o) /\ validate_sni (sni o) = Ok tt /\
  (forall k, server_public_key o = Some k -> key_typed k) /\
  (forall k, server_private_key o = Some k -> key_typed k) /\
  is_uint 32 (ping_secs o) /\ 1 <= dial_timeout_secs o < 2 ^ 64.

#[export] Instance typed_opts : Typed PluginOpts := fun o => opts_typed o /\ password o <> [].

#[export] Instance typed_sip003 : Typed Sip003 := fun s => typed (local s) /\ typed (remote s).

#[export] Instance typed_config : Typed StandaloneConfig := fun c =>
  typed (cfg_listen c) /\ typed (cfg_remote c) /\ typed (cfg_opts c) /\ role (cfg_opts c) = cfg_role c.

#[export] Instance typed_file : Typed StandaloneFile := fun f =>
  typed (file_role f) /\ typed (file_listen f) /\ typed (file_remote f) /\ typed (file_password f) /\
  typed (file_sni f) /\ typed (file_serverkey f) /\ typed (file_key f) /\
  (forall p, file_ping f = Some p -> is_uint 32 p) /\ (forall t, file_timeout f = Some t -> is_uint 64 t).

(** ** Strings: what the splitting functions return is made of their input *)

Lemma trim_start_in c s : c ∈ trim_start s -> c ∈ s.
Proof.
  induction s as [| d s IH]; simpl; [done |]. destruct (is_whitespace d); [| done].
  intros H. right. by apply IH.
Qed.

Lemma trim_in c s : c ∈ trim s -> c ∈ s.
Proof.
  unfold trim, trim_end. rewrite list_elem_of_In, <- in_rev, <- list_elem_of_In. intros H.
  apply trim_start_in in H. rewrite list_elem_of_In, <- in_rev, <- list_elem_of_In in H.
  by apply trim_start_in.
Qed.

Lemma typed_sub (s t : list Z) : (forall c, c ∈ t -> c ∈ s) -> typed s -> typed t.
Proof. unfold typed, typed_string. rewrite !Forall_forall. eauto. Qed.

Lemma typed_trim (s : list Z) : typed s -> typed (trim s).
Proof. apply typed_sub. intros c. apply trim_in. Qed.

Lemma typed_app (s t : list Z) : typed (s ++ t) <-> typed s /\ typed t.
Proof. apply Forall_app. Qed.

Lemma typed_entry (raw : list Z) e : typed raw -> entry_of raw = Some e -> typed e.
Proof.
  intros Hr. unfold entry_of. destruct (str_eqb (trim raw) []); [done |].
  destruct (split_once 61 (trim raw)) as [[k v] |] eqn:E; [| done]. intros [= <-].
  apply split_once_some in E as [E _]. pose proof (typed_trim raw Hr) as Ht. rewrite E in Ht.
  apply typed_app in Ht as [Hk Hv]. apply Forall_cons in Hv as [_ Hv].
  split; simpl; by apply typed_trim.
Qed.

Lemma typed_scan chars : forall current,
  typed current -> typed chars -> Forall typed (scan_entries current chars).
Proof.
  assert (is_scalar 92) as H92 by (unfold is_scalar; lia).
  induction chars as [chars IH] using (induction_ltof1 _ (@List.length Z)). unfold ltof in IH.
  intros current Hc Hs. destruct chars as [| c rest]; cbn [scan_entries].
  { constructor; [done | constructor]. }
  apply Forall_cons in Hs as [Hc0 Hs].
  assert (forall d, is_scalar d -> typed (current ++ [d])) as Hsnoc.
  { intros d Hd. apply typed_app. split; [done |]. constructor; [done | constructor]. }
  destruct (c =? 92).
  - destruct rest as [| next rest']; [apply IH; simpl; auto with lia |].
    apply Forall_cons in Hs as Hs'. destruct Hs' as [Hn Hs'].
    destruct (escapable next); apply IH; simpl; auto with lia.
  - destruct (c =? 59); [constructor; [done |] |]; apply IH; simpl; auto with lia; constructor.
Qed.

Lemma typed_split_entries raw : typed raw -> Forall typed (split_entries raw).
Proof.
  intros Hr. unfold split_entries. apply Forall_forall. intros e He.
  apply list_elem_of_omap in He as (s & Hs & He).
  pose proof (typed_scan raw [] ltac:(constructor) Hr) as Hf. rewrite Forall_forall in Hf.
  by apply (typed_entry s), He; apply Hf.
Qed.

(** ** Socket addresses *)

Lemma number_of_nonneg radix ds acc :
  0 <= radix -> Forall (fun d => 0 <= d) ds -> 0 <= acc ->
  0 <= fold_left (fun acc d => acc * radix + d) ds acc.
Proof.
  intros Hr Hd. revert acc. induction Hd as [| d ds Hd _ IH]; intros acc Ha; simpl; [done |].
  apply IH. nia.
Qed.

Lemma read_number_range w radix m z s v r :
  0 <= radix -> read_number w radix m z s = Some (v, r) -> is_uint w v.
Proof.
  intros Hr. unfold read_number. pose proof (take_digits_nonneg radix s) as Hd.
  destruct (take_digits radix s) as [ds r']. simpl in Hd.
  destruct (_ || _); [done |]. destruct (_ && _); [done |].
  destruct (Z.ltb_spec (number_of radix ds) (2 ^ w)); [| done]. intros [= <- _].
  split; [by apply number_of_nonneg | done].
Qed.

Lemma separator_range w radix m z sep i s v r :
  0 <= radix -> read_separator sep i (read_number w radix m z) s = Some (v, r) -> is_uint w v.
Proof.
  intros Hr. unfold read_separator, p_bind. destruct (0 <? i)%nat; [| by apply read_number_range].
  destruct (read_given_char sep s) as [[[] s'] |]; [by apply read_number_range | done].
Qed.

Lemma ipv4_range s a b c d r :
  read_ipv4_addr s = Some ((a, b, c, d), r) -> is_uint 8 a /\ is_uint 8 b /\ is_uint 8 c /\ is_uint 8 d.
Proof.
  unfold read_ipv4_addr, p_bind, p_ret, octet.
  destruct (read_separator 46 0 _ s) as [[a' s1] |] eqn:E1; [| done].
  destruct (read_separator 46 1 _ s1) as [[b' s2] |] eqn:E2; [| done].
  destruct (read_separator 46 2 _ s2) as [[c' s3] |] eqn:E3; [| done].
  destruct (read_separator 46 3 _ s3) as [[d' s4] |] eqn:E4; [| done]. intros [= <- <- <- <- <-].
  split_and!; by eapply separator_range; [| eassumption].
Qed.

Lemma groups_range n : forall i limit s gs v4 r,
  (i + n = limit)%nat -> read_groups n i limit s = (gs, v4, r) ->
  Forall (is_uint 16) gs /\ (List.length gs <= n)%nat.
Proof.
  induction n as [| n IH]; intros i limit s gs v4 r Hi; cbn [read_groups].
  { intros [= <- _ _]. by split. }
  destruct (if (i <? limit - 1)%nat then read_separator 58 i read_ipv4_addr s else None)
    as [[[[[a b] c] d] s'] |] eqn:E.
  - intros [= <- _ _]. destruct (Nat.ltb_spec i (limit - 1)) as [Hl |]; [| done].
    assert (exists s0, read_ipv4_addr s0 = Some ((a, b, c, d), s')) as [s0 E0].
    { revert E. unfold read_separator, p_bind. destruct (0 <? i)%nat; [| eauto].
      destruct (read_given_char 58 s) as [[[] s1] |]; [eauto | done]. }
    apply ipv4_range in E0 as (Ha & Hb & Hc & Hd). split; [| simpl; lia].
    repeat constructor; uint.
  - destruct (read_separator 58 i (read_number 16 16 (Some 4%nat) true) s) as [[g s'] |] eqn:E2.
    + destruct (read_groups n (S i) limit s') as [[gs' v4'] s''] eqn:E3. intros [= <- _ _].
      destruct (IH (S i) limit s' gs' v4' s'' ltac:(lia) E3) as [H1 H2]. split; [| simpl; lia].
      constructor; [| done]. by eapply separator_range; [| exact E2].
    + intros [= <- _ _]. split; [constructor | simpl; lia].
Qed.

Lemma ipv6_range s segs r :
  read_ipv6_addr s = Some (segs, r) -> Forall (is_uint 16) segs /\ List.length segs = 8%nat.
Proof.
  unfold read_ipv6_addr. destruct (read_groups 8 0 8 s) as [[hd v4] s1] eqn:E1.
  destruct (groups_range 8 0 8 s hd v4 s1 eq_refl E1) as [Hh Hl].
  destruct (Nat.eqb_spec (List.length hd) 8) as [H8 | H8]; [by intros [= <- <-] |].
  destruct v4; [done |]. destruct (p_bind _ _ s1) as [[[] s2] |]; [| done].
  destruct (read_groups _ 0 _ s2) as [[tl v4'] s3] eqn:E2. intros [= <- _].
  destruct (groups_range _ 0 _ s2 tl v4' s3 eq_refl E2) as [Ht Hlt].
  split; [| rewrite !length_app, length_replicate; lia].
  apply Forall_app. split; [done |]. apply Forall_app. split; [apply Forall_replicate; uint | done].
Qed.

Lemma typed_parse_socket_addr s : typed (parse_socket_addr s).
Proof.
  intros a. unfold parse_socket_addr.
  destruct (read_socket_addr_v4 s) as [[a' r] |] eqn:E.
  - destruct r; [| done]. intros [= <-]. revert E. unfold read_socket_addr_v4, p_bind, p_ret, read_port.
    destruct (read_ipv4_addr s) as [[[[[x y] z] t] s1] |] eqn:E1; [| done].
    unfold p_bind. destruct (read_given_char 58 s1) as [[[] s2] |]; [| done].
    destruct (read_number 16 10 None true s2) as [[p s3] |] eqn:E2; [| done]. intros [= <- _].
    apply ipv4_range in E1 as (H1 & H2 & H3 & H4). split_and!; try done.
    by eapply read_number_range; [| exact E2].
  - destruct (read_socket_addr_v6 s) as [[a' r] |] eqn:E6; [| done]. destruct r; [| done].
    intros [= <-]. revert E6. unfold read_socket_addr_v6, p_bind, p_ret, read_port, read_scope_id, p_bind.
    destruct (read_given_char 91 s) as [[[] s1] |]; [| done].
    destruct (read_ipv6_addr s1) as [[segs s2] |] eqn:E1; [| done]. apply ipv6_range in E1 as [Hs Hl].
    destruct (read_given_char 37 s2) as [[[] s3] |].
    1: destruct (read_number 32 10 None true s3) as [[sc s4] |] eqn:E2.
    all: destruct (read_given_char 93 _) as [[[] s5] |]; [| done].
    all: destruct (read_given_char 58 s5) as [[[] s6] |]; [| done].
    all: destruct (read_number 16 10 None true s6) as [[p s7] |] eqn:E3; [| done]; intros [= <- _].
    all: apply read_number_range in E3; [| done].
    all: try (apply read_number_range in E2; [| done]).
    all: split_and!; try done; uint.
Qed.

(** ** Options *)

Section keys.
Context (parse_pubkey_hex : list Z -> option (list Z)).
(** The type of qeli-core's [parse_pubkey_hex]: an array of 32 bytes. *)
Hypothesis pubkey_typed : forall s k, parse_pubkey_hex s = Some k -> key_typed k.

Lemma default_opts_typed r : opts_typed (set_role r default_opts).
Proof. split_and!; simpl; try done; repeat constructor; unfold is_scalar; simpl; lia. Qed.

Lemma ok_or_key s e k : ok_or (parse_pubkey_hex s) e = @Ok OptError _ k -> key_typed k.
Proof using pubkey_typed. rewrite ok_or_ok. apply pubkey_typed. Qed.

(** Each field assignment keeps the types when its value is typed. *)
Lemma set_fields_typed o :
  opts_typed o ->
  (forall r, opts_typed (set_role r o)) /\ (forall p, typed p -> opts_typed (set_password p o)) /\
  (forall s, typed s -> validate_sni s = Ok tt -> opts_typed (set_sni s o)) /\
  (forall k, key_typed k -> opts_typed (set_public_key k o)) /\
  (forall k, key_typed k -> opts_typed (set_private_key k o)) /\
  (forall p, is_uint 32 p -> opts_typed (set_ping p o)) /\
  (forall t, is_uint 64 t -> t <> 0 -> opts_typed (set_timeout t o)).
Proof.
  intros (H1 & H2 & H3 & H4 & H5 & H6 & H7).
  split_and!; intros; unfold opts_typed; simpl; split_and!; try done;
    try (by intros ? [= <-]); uint.
Qed.

Lemma validate_sni_unit s u : validate_sni s = Ok u -> validate_sni s = Ok tt.
Proof. by destruct u. Qed.

Lemma apply_entry_typed o k v o' :
  opts_typed o -> typed v -> apply_entry parse_pubkey_hex o k v = Ok o' -> opts_typed o'.
Proof using pubkey_typed.
  intros Ho Hv. destruct (set_fields_typed o Ho) as (H1 & H2 & H3 & H4 & H5 & H6 & H7).
  unfold apply_entry. destruct (_ || _); [rewrite result_bind_ok; intros (b & _ & [= <-]); apply H1 |].
  destruct (_ || _); [intros [= <-]; by apply H2 |].
  destruct (str_eqb k (lit "sni")).
  { rewrite result_bind_ok. intros (u & Hu & [= <-]). apply H3; [done |]. by apply validate_sni_unit in Hu. }
  destruct (_ || _).
  { rewrite result_bind_ok. intros (key & Hk & [= <-]). by apply ok_or_key in Hk; auto. }
  destruct (str_eqb k (lit "key")).
  { rewrite result_bind_ok. intros (key & Hk & [= <-]). by apply ok_or_key in Hk; auto. }
  destruct (_ || _).
  { rewrite result_bind_ok. intros (p & Hp & [= <-]). apply ok_or_ok, parse_uint_range in Hp; [auto | lia]. }
  destruct (str_eqb k (lit "timeout")); [| by intros [= <-]].
  rewrite result_bind_ok. intros (t & Ht & Hr). apply ok_or_ok, parse_uint_range in Ht; [| lia].
  destruct (Z.eqb_spec t 0); [done |]. injection Hr as <-. auto.
Qed.

Lemma apply_entries_typed es : forall o o',
  Forall typed es -> opts_typed o -> apply_entries parse_pubkey_hex o es = Ok o' -> opts_typed o'.
Proof using pubkey_typed.
  induction es as [| [k v] es IH]; intros o o' He Ho; cbn [apply_entries]; [by intros [= <-] |].
  apply Forall_cons in He as [[_ Hv] He]. rewrite result_bind_ok. intros (o1 & H1 & H2).
  eapply IH; [done | | exact H2]. by eapply apply_entry_typed.
Qed.

Lemma validate_opts_password o u : validate_opts o = Ok u -> password o <> [].
Proof. intros H Hp. revert H. unfold validate_opts. by rewrite Hp. Qed.

(** [P] holds after an optional field when every value of it keeps [P]. *)
Lemma if_some_inv {A} (P : PluginOpts -> Prop) (f : option A) k o o' :
  P o -> (forall a o', f = Some a -> P o -> k a o = Ok o' -> P o') -> if_some f k o = Ok o' -> P o'.
Proof. destruct f as [a |]; simpl; [eauto |]. by intros Ho _ [= <-]. Qed.

Lemma standalone_opts_typed r f o :
  typed f -> standalone_opts parse_pubkey_hex r f = Ok o -> typed o /\ role o = r.
Proof using pubkey_typed.
  intros (_ & _ & _ & Hpw & Hsni & _ & _ & Hping & Htime) E. unfold standalone_opts in E.
  assert (forall a, file_password f = Some a -> typed a) as Hpw' by exact Hpw.
  assert (forall a, file_sni f = Some a -> typed a) as Hsni' by exact Hsni.
  set (P o := opts_typed o /\ role o = r).
  assert (P (set_role r default_opts)) as K by (split; [apply default_opts_typed | done]).
  do 6 (apply result_bind_ok in E as (? & E1 & E);
    match type of E1 with _ = Ok ?o1 => assert (P o1) as K1 end; [| clear K E1; rename K1 into K];
    [apply (if_some_inv P _ _ _ _ K) in E1; [exact E1 |];
     clear E1 E; intros a o' Ha [To Hr] Hk;
     destruct (set_fields_typed _ To) as (_ & H2 & H3 & H4 & H5 & H6 & H7); revert Hk; cbv beta;
     first [ intros [= <-]; split; [solve [auto] | exact Hr]
           | destruct (Z.eqb_spec a 0); [done |]; intros [= <-]; split; [solve [auto] | exact Hr]
           | rewrite result_bind_ok; intros (? & Hx & [= <-]); split; [| exact Hr];
             first [ apply ok_or_key in Hx; solve [auto]
                   | apply H3; [by apply Hsni' | by apply validate_sni_unit in Hx] ] ] |]).
  destruct K as [To Hr].
  apply result_bind_ok in E as (u & Hu & [= <-]). split; [| done].
  split; [done | by eapply validate_opts_password].
Qed.

End keys.

(** ** Addresses *)

Section resolver.
Context (lookup_host : list Z -> Z -> result resolve_error (list SocketAddr)).
(** The type of the system resolver's answer. *)
Hypothesis lookup_typed : forall host port addrs, lookup_host host port = Ok addrs -> Forall typed addrs.

Lemma resolve_typed host port what : typed (resolve lookup_host host port what).
Proof using lookup_typed.
  intros a. unfold resolve, to_socket_addrs. set (s := resolve_host host ++ _).
  destruct (parse_socket_addr s) as [b |] eqn:E; cbn [ok_or head].
  - intros [= <-]. by apply (typed_parse_socket_addr s).
  - destruct (rsplit_once 58 s) as [[h p] |]; cbn [ok_or result_bind]; [| done].
    destruct (parse_uint 16 p) as [p' |]; cbn [ok_or result_bind]; [| done].
    destruct (lookup_host h p') as [addrs | e] eqn:El; [| done].
    apply lookup_typed in El. destruct El as [| b addrs Hb _]; simpl; [done | by intros [= <-]].
Qed.

Lemma parse_config_addr_typed value what : typed (parse_config_addr lookup_host value what).
Proof using lookup_typed.
  intros a. unfold parse_config_addr. pose proof (typed_parse_socket_addr (trim value)) as Hp.
  destruct (parse_socket_addr (trim value)) as [b |]; [intros [= <-]; by apply Hp |].
  rewrite result_bind_ok. intros ([h p] & _ & H). destruct (contains 58 h); [done |].
  apply result_bind_ok in H as (port & _ & H). by apply resolve_typed in H.
Qed.

End resolver.

(** ** Properties *)

(** (C26) Type preservation of the configuration, on all three
    ways in (option string, SIP003 environment, standalone file): whatever text
    comes in, an accepted configuration is well typed. Its addresses have octets,
    segments and ports in range, its keys are 32 bytes, the keepalive interval is
    a [u32], the timeout a [u64] of at least one second, its strings are strings;
    the password is not empty, the SNI one the handshake can send, and the role
    of the options is the role of the file. *)
Theorem config_well_typed parse_pubkey_hex lookup_host from_str :
  (forall s k, parse_pubkey_hex s = Some k -> key_typed k) ->
  (forall host port addrs, lookup_host host port = Ok addrs -> Forall typed addrs) ->
  (forall text, typed (from_str text : option StandaloneFile)) ->
  (forall raw, typed raw -> typed (parse_plugin_opts parse_pubkey_hex raw)) /\
  (forall env, typed (sip003_from_env lookup_host env)) /\
  (forall text, typed (parse_standalone_config lookup_host parse_pubkey_hex from_str text)).
Proof.
  intros Hkey Hlook Hfile. split; [| split].
  - intros raw Hraw o. unfold parse_plugin_opts. rewrite result_bind_ok. intros (o1 & H1 & H2).
    apply result_bind_ok in H2 as (u & Hu & [= <-]). split.
    + eapply apply_entries_typed; [exact Hkey | by apply typed_split_entries | apply (default_opts_typed Client) | exact H1].
    + by eapply validate_opts_password.
  - intros env s. unfold sip003_from_env.
    do 6 (rewrite result_bind_ok; intros (? & _ & H); revert H).
    rewrite result_bind_ok. intros (a & Ha & H). apply result_bind_ok in H as (b & Hb & [= <-]).
    apply resolve_typed in Ha; [| done]. apply resolve_typed in Hb; [| done]. by split.
  - intros text c. unfold parse_standalone_config.
    rewrite result_bind_ok. intros (f & Hf & H). apply ok_or_ok, Hfile in Hf.
    apply result_bind_ok in H as (r & _ & H). apply result_bind_ok in H as (o & Ho & H).
    apply result_bind_ok in H as (l & Hl & H). apply result_bind_ok in H as (m & Hm & [= <-]).
    apply standalone_opts_typed in Ho as [Ho Hr]; [| done | done].
    apply parse_config_addr_typed in Hl; [| done]. apply parse_config_addr_typed in Hm; [| done].
    by split_and!.
Qed.

(** ** Witness *)

Definition toy_typed_raw : list Z := lit "server;password=s3cret;key=a;ping=0;timeout=5;sni=example.org".

Lemma config_well_typed_witness :
  typed (parse_plugin_opts (fun _ => Some (replicate 32 5)) toy_typed_raw).
Proof.
  apply (config_well_typed (fun _ => Some (replicate 32 5)) (fun _ _ => Ok [V4 127 0 0 1 80]) (fun _ => None)).
  - intros s k [= <-]. split; [| done]. repeat constructor; uint.
  - intros host port addrs [= <-]. repeat constructor; uint.
  - intros text f. discriminate.
  - repeat constructor; unfold is_scalar; simpl; lia.
Defined.
