(* ===== verification/ConfigText.v ===== *)
(** * ConfigText: the text of a standalone file (StandaloneFile of src/opts.rs)

    The struct's declaration fixes which JSON objects are configurations: its
    field names, their types, the alias [forward], unknown keys denied,
    [_comment] taken by a deserializer of its own. [from_members] is the decoder
    these attributes ask for, over the members of an object in the order of the
    text. JSON itself and the machinery that runs the decoder are serde's: which
    value a text denotes is the class [SerdeJson], with what its documentation
    says of the decoder as laws. [denotes] says without an order what a file's
    members mean. *)

From Stdlib Require Import Ascii String.
From S2P Require Import Prelude RustStr NetAddr Opts Typing.

(** ** JSON values *)

(** A number with a fraction or an exponent is [JFloat]. The members of an
    object are in the order of the text, duplicates included. *)
#[warnings="-register-all"]
Inductive json : Type :=
| JNull
| JBool (b : bool)
| JInt (n : Z)
| JFloat
| JString (s : list Z)
| JArray (vs : list json)
| JObject (kvs : list (list Z * json)).

(** ** Fields *)

Inductive field : Type :=
| FRole
| FListen
| FRemote
| FPassword
| FSni
| FServerkey
| FKey
| FPing
| FTimeout
| FComment.

#[export] Instance field_eq_dec : EqDecision field.
Proof. solve_decision. Defined.

(** The field a key names. *)
Definition field_of (key : list Z) : option field :=
  if str_eqb key (lit "role") then Some FRole
  else if str_eqb key (lit "listen") then Some FListen
  else if str_eqb key (lit "remote") || str_eqb key (lit "forward") then Some FRemote
  else if str_eqb key (lit "password") then Some FPassword
  else if str_eqb key (lit "sni") then Some FSni
  else if str_eqb key (lit "serverkey") then Some FServerkey
  else if str_eqb key (lit "key") then Some FKey
  else if str_eqb key (lit "ping") then Some FPing
  else if str_eqb key (lit "timeout") then Some FTimeout
  else if str_eqb key (lit "_comment") then Some FComment
  else None.

(** ** Decoding *)

(** [String], [u32] and [u64]. *)
Definition as_string (v : json) : option (list Z) :=
  match v with JString s => Some s | _ => None end.

Definition as_uint (w : Z) (v : json) : option Z :=
  match v with
  | JInt n => if (0 <=? n) && (n <? 2 ^ w) then Some n else None
  | _ => None
  end.

(** [Option<T>]: null is [None]. *)
Definition as_option {A} (dec : json -> option A) (v : json) : option (option A) :=
  match v with
  | JNull => Some None
  | _ => Some <$> dec v
  end.

(** Any value is accepted, and ignored. *)
Definition de_comment (v : json) : option unit := Some tt.

(** Whether a field's value decodes at its declared type. *)
Definition value_ok (f : field) (v : json) : bool :=
  match f with
  | FListen | FRemote => bool_decide (is_Some (as_string v))
  | FRole | FPassword | FSni | FServerkey | FKey => bool_decide (is_Some (as_option as_string v))
  | FPing => bool_decide (is_Some (as_option (as_uint 32) v))
  | FTimeout => bool_decide (is_Some (as_option (as_uint 64) v))
  | FComment => bool_decide (is_Some (de_comment v))
  end.

(** The members in order: an unknown key, a field that was there before (under
    either name) and a value of the wrong type are errors. *)
Fixpoint visit (kvs : list (list Z * json)) (seen : list (field * json)) : option (list (field * json)) :=
  match kvs with
  | [] => Some seen
  | (k, v) :: kvs =>
      match field_of k with
      | None => None
      | Some f =>
          if bool_decide (f ∈ seen.*1) then None
          else if value_ok f v then visit kvs ((f, v) :: seen) else None
      end
  end.

Fixpoint value_of (f : field) (seen : list (field * json)) : option json :=
  match seen with
  | [] => None
  | (g, v) :: seen => if bool_decide (g = f) then Some v else value_of f seen
  end.

(** The struct from the fields that were there: [listen] and [remote] are
    required, a missing optional field is [None]. *)
Definition from_members (kvs : list (list Z * json)) : option StandaloneFile :=
  match visit kvs [] with
  | None => None
  | Some seen =>
      let string_at f := value_of f seen ≫= as_string in
      match string_at FListen, string_at FRemote with
      | Some listen, Some remote => Some {|
          file_role := string_at FRole; file_listen := listen; file_remote := remote;
          file_password := string_at FPassword; file_sni := string_at FSni;
          file_serverkey := string_at FServerkey; file_key := string_at FKey;
          file_ping := value_of FPing seen ≫= as_uint 32;
          file_timeout := value_of FTimeout seen ≫= as_uint 64 |}
      | _, _ => None
      end
  end.

(** ** What serde provides *)

(** The value a text denotes, if it is JSON, and [serde_json::from_str] at
    [StandaloneFile]. *)
Class SerdeJson : Type := {
  text_value : list Z -> option json;
  from_str : list Z -> option StandaloneFile;
}.

(** The derived decoder runs on the members of an object; a text that is not
    JSON and a scalar are errors. *)
Class SerdeLaws (S : SerdeJson) : Prop := {
  from_str_object : forall text kvs, text_value text = Some (JObject kvs) -> from_str text = from_members kvs;
  from_str_invalid : forall text, text_value text = None -> from_str text = None;
  from_str_scalar : forall text v, text_value text = Some v ->
    match v with JArray _ | JObject _ => False | _ => True end -> from_str text = None;
}.

(** ** Specification *)

(** The member of a field, whatever its place and the name used. *)
Definition member (kvs : list (list Z * json)) (f : field) (v : json) : Prop :=
  exists k, (k, v) ∈ kvs /\ field_of k = Some f.

(** The values a field may have. *)
Definition has_type (f : field) (v : json) : Prop :=
  match f with
  | FListen | FRemote => exists s, v = JString s
  | FRole | FPassword | FSni | FServerkey | FKey => v = JNull \/ exists s, v = JString s
  | FPing => v = JNull \/ exists n, v = JInt n /\ is_uint 32 n
  | FTimeout => v = JNull \/ exists n, v = JInt n /\ is_uint 64 n
  | FComment => True
  end.

(** The members say what the file holds: every key names a field and has a
    value of its type, no field is there twice, and each field holds its
    member's value. *)
Record denotes (kvs : list (list Z * json)) (file : StandaloneFile) : Prop := {
  dn_known : forall k v, (k, v) ∈ kvs -> exists f, field_of k = Some f /\ has_type f v;
  dn_once : NoDup (field_of <$> kvs.*1);
  dn_listen : member kvs FListen (JString (file_listen file));
  dn_remote : member kvs FRemote (JString (file_remote file));
  dn_role : forall s, file_role file = Some s <-> member kvs FRole (JString s);
  dn_password : forall s, file_password file = Some s <-> member kvs FPassword (JString s);
  dn_sni : forall s, file_sni file = Some s <-> member kvs FSni (JString s);
  dn_serverkey : forall s, file_serverkey file = Some s <-> member kvs FServerkey (JString s);
  dn_key : forall s, file_key file = Some s <-> member kvs FKey (JString s);
  dn_ping : forall n, file_ping file = Some n <-> member kvs FPing (JInt n);
  dn_timeout : forall n, file_timeout file = Some n <-> member kvs FTimeout (JInt n);
}.

(** ** The decoder meets the specification *)

Lemma as_uint_some w v n : as_uint w v = Some n <-> v = JInt n /\ is_uint w n.
Proof.
  unfold is_uint. destruct v; simpl; try naive_solver.
  rewrite andb_lazy_alt. destruct (Z.leb_spec 0 n0), (Z.ltb_spec n0 (2 ^ w)); split; try done;
    first [intros [= <-]; by split | intros [[= ->] []]; lia | by intros [[= ->] _]].
Qed.

Lemma as_string_some v s : as_string v = Some s <-> v = JString s.
Proof. destruct v; simpl; naive_solver. Qed.

Lemma as_option_ok {A} (dec : json -> option A) v :
  is_Some (as_option dec v) <-> v = JNull \/ is_Some (dec v).
Proof. destruct v; simpl; rewrite ?fmap_is_Some; unfold is_Some; naive_solver. Qed.

Lemma value_ok_type f v : value_ok f v = true <-> has_type f v.
Proof.
  destruct f; cbn [value_ok has_type]; rewrite bool_decide_eq_true, ?as_option_ok; unfold is_Some;
    repeat setoid_rewrite as_string_some; repeat setoid_rewrite as_uint_some; naive_solver.
Qed.

Lemma value_of_some f seen v : NoDup seen.*1 -> value_of f seen = Some v <-> (f, v) ∈ seen.
Proof.
  induction seen as [| [g w] seen IH]; simpl; [by rewrite elem_of_nil |].
  intros [Hg Hnd]%NoDup_cons. rewrite elem_of_cons. case_bool_decide as Hgf.
  - subst g. split; [intros [= ->]; by left |]. intros [[= ->] | Hin]; [done |].
    destruct Hg. apply list_elem_of_fmap. by exists (f, v).
  - rewrite IH by done. naive_solver.
Qed.

Definition known (kvs : list (list Z * json)) : Prop :=
  forall k v, (k, v) ∈ kvs -> exists f, field_of k = Some f /\ has_type f v.

Lemma known_cons k v kvs :
  known ((k, v) :: kvs) <-> (exists f, field_of k = Some f /\ has_type f v) /\ known kvs.
Proof.
  unfold known. setoid_rewrite elem_of_cons. split; [intros H; split; eauto |].
  intros [H1 H2] k' v' [[= -> ->] | Hin]; eauto.
Qed.

Lemma member_cons k v kvs f w : member ((k, v) :: kvs) f w <-> (field_of k = Some f /\ w = v) \/ member kvs f w.
Proof. unfold member. setoid_rewrite elem_of_cons. naive_solver. Qed.

(** The fields of an object and those seen before it. *)
Definition fields (kvs : list (list Z * json)) (seen : list (field * json)) : list (option field) :=
  (field_of <$> kvs.*1) ++ (Some <$> seen.*1).

Lemma fields_move k v kvs f w seen :
  field_of k = Some f -> Permutation (fields ((k, v) :: kvs) seen) (fields kvs ((f, w) :: seen)).
Proof. intros Hf. unfold fields. simpl. rewrite Hf. apply Permutation_middle. Qed.

Lemma fields_seen seen : NoDup (fields [] seen) <-> NoDup seen.*1.
Proof. unfold fields. simpl. split; [apply NoDup_fmap_1 | apply (NoDup_fmap_2 _)]. Qed.

Lemma fields_fresh kvs seen f v k : field_of k = Some f -> NoDup (fields ((k, v) :: kvs) seen) -> f ∉ seen.*1.
Proof.
  intros Hf. unfold fields. simpl. rewrite Hf. intros [Hn _]%NoDup_cons Hin. apply Hn, elem_of_app. right.
  apply list_elem_of_fmap. by exists f.
Qed.

Lemma visit_some kvs : forall seen out, visit kvs seen = Some out -> NoDup seen.*1 ->
  known kvs /\ NoDup (fields kvs seen) /\ NoDup out.*1 /\
  forall f v, (f, v) ∈ out <-> (f, v) ∈ seen \/ member kvs f v.
Proof.
  induction kvs as [| [k v] kvs IH]; intros seen out; simpl.
  - intros [= ->] Hnd. split_and!; [by intros ? ? ?%elem_of_nil | by apply fields_seen | done |].
    intros f v. unfold member. setoid_rewrite elem_of_nil. naive_solver.
  - destruct (field_of k) as [f |] eqn:Hf; [| done]. case_bool_decide as Hin; [done |].
    destruct (value_ok f v) eqn:Hv; [| done]. intros Hvis Hnd. apply value_ok_type in Hv.
    destruct (IH _ _ Hvis) as (H1 & H2 & H3 & H4); [by constructor |]. split_and!; [| | done |].
    + apply known_cons. eauto.
    + by rewrite (fields_move k v kvs f v seen Hf).
    + intros g w. rewrite H4, elem_of_cons, member_cons, Hf. naive_solver.
Qed.

Lemma visit_total kvs : forall seen, known kvs -> NoDup (fields kvs seen) -> is_Some (visit kvs seen).
Proof.
  induction kvs as [| [k v] kvs IH]; intros seen Hk Hnd; simpl; [eauto |].
  apply known_cons in Hk as [(f & Hf & Hv) Hk]. rewrite Hf.
  rewrite bool_decide_false by (by eapply fields_fresh). apply value_ok_type in Hv as ->.
  apply IH; [done |]. by rewrite <- (fields_move k v kvs f v seen Hf).
Qed.

Lemma fields_nil kvs : fields kvs [] = field_of <$> kvs.*1.
Proof. unfold fields. simpl. by rewrite app_nil_r. Qed.

(** The struct holds the members' values. *)
Lemma built_member kvs seen f :
  visit kvs [] = Some seen -> forall v, value_of f seen = Some v <-> member kvs f v.
Proof.
  intros Hvis v. destruct (visit_some _ _ _ Hvis) as (_ & _ & Hnd & Hm); [constructor |].
  rewrite value_of_some, Hm by done. rewrite elem_of_nil. naive_solver.
Qed.

Lemma built_string kvs seen f s :
  visit kvs [] = Some seen -> value_of f seen ≫= as_string = Some s <-> member kvs f (JString s).
Proof.
  intros Hvis. rewrite bind_Some. setoid_rewrite as_string_some.
  setoid_rewrite (built_member kvs seen f Hvis). naive_solver.
Qed.

Lemma built_uint kvs seen f w n :
  (forall v, has_type f v <-> v = JNull \/ exists n, v = JInt n /\ is_uint w n) ->
  visit kvs [] = Some seen -> value_of f seen ≫= as_uint w = Some n <-> member kvs f (JInt n).
Proof.
  intros Ht Hvis. rewrite bind_Some. setoid_rewrite as_uint_some.
  setoid_rewrite (built_member kvs seen f Hvis).
  destruct (visit_some _ _ _ Hvis) as (Hk & _); [constructor |]. split; [naive_solver |].
  intros (k & Hin & Hf). exists (JInt n). split; [by exists k | split; [done |]].
  destruct (Hk k (JInt n) Hin) as (g & Hg & Htg). rewrite Hf in Hg. injection Hg as <-.
  apply Ht in Htg as [[=] | (m & [= ->] & Hm)]. done.
Qed.

Lemma from_members_denotes kvs file : from_members kvs = Some file <-> denotes kvs file.
Proof.
  unfold from_members. destruct (visit kvs []) as [seen |] eqn:Hvis.
  - pose proof (built_string kvs seen) as Hs.
    assert (forall n, value_of FPing seen ≫= as_uint 32 = Some n <-> member kvs FPing (JInt n)) as Hp
      by (intros n; by apply built_uint).
    assert (forall n, value_of FTimeout seen ≫= as_uint 64 = Some n <-> member kvs FTimeout (JInt n)) as Ht
      by (intros n; by apply built_uint).
    destruct (visit_some _ _ _ Hvis) as (Hk & Hnd & _); [constructor |]. rewrite fields_nil in Hnd. split.
    + destruct (value_of FListen seen ≫= as_string) as [l |] eqn:El; [| done].
      destruct (value_of FRemote seen ≫= as_string) as [r |] eqn:Er; [| done]. intros [= <-].
      split; cbn; first [exact Hk | exact Hnd | exact Hp | exact Ht | by apply Hs | intros; by apply Hs].
    + intros [_ _ Hl Hr H1 H2 H3 H4 H5 H6 H7]. apply (Hs _ _ Hvis) in Hl as ->, Hr as ->. f_equal.
      destruct file; simpl in *. f_equal; apply option_eq; intros x; rewrite ?Hs, ?Hp, ?Ht by done; by symmetry.
  - split; [done |]. intros [Hk Hnd]. destruct (visit_total kvs [] Hk) as [out Hout]; [by rewrite fields_nil |].
    congruence.
Qed.

(** Two objects with the same fields, in another order or under other names. *)
Definition by_field (kv : list Z * json) : option field * json := (field_of kv.1, kv.2).

Definition same_fields (kvs kvs' : list (list Z * json)) : Prop := Permutation (by_field <$> kvs) (by_field <$> kvs').

Lemma by_field_in f v kvs : (Some f, v) ∈ by_field <$> kvs <-> member kvs f v.
Proof.
  rewrite list_elem_of_fmap. unfold member. split.
  - intros ([k w] & [= Hf ->] & Hin). eauto.
  - intros (k & Hin & Hf). exists (k, v). unfold by_field. simpl. by rewrite Hf.
Qed.

Lemma by_field_keys kvs : (by_field <$> kvs).*1 = field_of <$> kvs.*1.
Proof. induction kvs as [| kv kvs IH]; [done |]. cbn. by f_equal. Qed.

Lemma known_by_field kvs :
  known kvs <-> Forall (fun p => exists f, p.1 = Some f /\ has_type f p.2) (by_field <$> kvs).
Proof.
  rewrite Forall_fmap, Forall_forall. unfold known. split.
  - intros H [k v] Hin. by apply H.
  - intros H k v Hin. by apply (H (k, v)).
Qed.

Lemma same_fields_denotes kvs kvs' file : same_fields kvs kvs' -> denotes kvs file -> denotes kvs' file.
Proof.
  unfold same_fields. intros Hp [Hk Hnd Hl Hr H1 H2 H3 H4 H5 H6 H7].
  assert (forall f v, member kvs f v <-> member kvs' f v) as Hm by (intros; by rewrite <- !by_field_in, Hp).
  split; try (intros; rewrite <- Hm; done).
  - change (known kvs'). apply known_by_field. rewrite <- Hp. by apply known_by_field.
  - rewrite <- by_field_keys in Hnd |- *. by rewrite <- Hp.
Qed.

#[export] Instance same_fields_equiv : Equivalence same_fields.
Proof. unfold same_fields. split; repeat intro; [done | by symmetry | by etrans]. Qed.

#[export] Instance from_members_proper : Proper (same_fields ==> eq) from_members.
Proof.
  intros kvs kvs' Hp. apply option_eq. intros file. rewrite !from_members_denotes.
  split; apply same_fields_denotes; [done | by symmetry].
Qed.

(** A comment says nothing. *)
Lemma comment_ignored kvs v :
  ~ (exists w, member kvs FComment w) -> from_members ((lit "_comment", v) :: kvs) = from_members kvs.
Proof.
  intros Hno. apply option_eq. intros file. rewrite !from_members_denotes.
  assert (field_of (lit "_comment") = Some FComment) as Hc by reflexivity.
  assert (forall f w, f <> FComment -> member ((lit "_comment", v) :: kvs) f w <-> member kvs f w) as Hm.
  { intros f w Hf. rewrite member_cons, Hc. naive_solver. }
  assert (known ((lit "_comment", v) :: kvs) <-> known kvs) as Hkn.
  { rewrite known_cons. split; [by intros [_ H] | split; [by exists FComment | done]]. }
  assert (NoDup (field_of <$> ((lit "_comment", v) :: kvs).*1) <-> NoDup (field_of <$> kvs.*1)) as Hnd.
  { cbn [fmap list_fmap fst]. rewrite NoDup_cons, Hc. split; [by intros [_ H] |]. intros H. split; [| done].
    intros Hin. destruct Hno. apply list_elem_of_fmap in Hin as (k & Hf & Hin).
    apply list_elem_of_fmap in Hin as ([k' w] & -> & Hin). by exists w, k'. }
  split; intros [Hk Hn Hl Hr H1 H2 H3 H4 H5 H6 H7]; split; try (by apply Hkn); try (by apply Hnd);
    try (by apply Hm); intros; first [rewrite Hm by done | rewrite <- Hm by done]; auto.
Qed.

(** What the decoder returns is well typed, as [Typing] asks of a file. *)
Lemma from_members_typed kvs :
  (forall k s, (k, JString s) ∈ kvs -> typed s) -> typed (from_members kvs).
Proof.
  intros Hs file Hf. apply from_members_denotes in Hf as [Hk _ Hl Hr H1 H2 H3 H4 H5 H6 H7].
  assert (forall f s, member kvs f (JString s) -> typed s) as Hm by (intros f s (k & Hin & _); by eapply Hs).
  assert (forall f n, member kvs f (JInt n) -> has_type f (JInt n)) as Hn.
  { intros f n (k & Hin & Hf). destruct (Hk k _ Hin) as (g & Hg & Ht). congruence. }
  split_and!; try (by eapply Hm); try (intros s Hsome; eapply Hm; naive_solver).
  - intros p Hp%H6. destruct (Hn FPing p Hp) as [[=] | (n & [= ->] & Hu)]; done.
  - intros p Hp%H7. destruct (Hn FTimeout p Hp) as [[=] | (n & [= ->] & Hu)]; done.
Qed.

Section config.
Context {SJ : SerdeJson} {SL : SerdeLaws SJ}.
Context (lookup_host : list Z -> Z -> result resolve_error (list SocketAddr))
  (parse_pubkey_hex : list Z -> option (list Z)).

Definition parse_config (text : list Z) : result OptError StandaloneConfig :=
  parse_standalone_config lookup_host parse_pubkey_hex from_str text.

(** A text that decodes to nothing is an invalid configuration. *)
Lemma parse_config_none text : from_str text = None -> parse_config text = Err InvalidConfig.
Proof. unfold parse_config, parse_standalone_config. by intros ->. Qed.

Lemma parse_config_eq text text' : from_str text = from_str text' -> parse_config text = parse_config text'.
Proof. unfold parse_config, parse_standalone_config. by intros ->. Qed.

(** (C27) The configuration a text denotes. An object is a
    configuration exactly when its keys are known, none of them is there twice
    (under either name) and their values have their types, [listen] and [remote]
    being required; then the outcome is that of the file its members denote, and
    otherwise, as for a text that is not JSON and for a scalar, the
    configuration is invalid. The order of the members, the name [forward] for
    [remote], and a comment of any value change nothing. *)
Theorem config_text_spec text :
  match text_value text with
  | Some (JObject kvs) =>
      (forall file, denotes kvs file ->
         parse_config text = parse_standalone_config lookup_host parse_pubkey_hex (fun _ => Some file) text) /\
      ((forall file, ~ denotes kvs file) -> parse_config text = Err InvalidConfig) /\
      (forall text' kvs', text_value text' = Some (JObject kvs') -> same_fields kvs kvs' ->
         parse_config text' = parse_config text) /\
      (forall text' v, text_value text' = Some (JObject ((lit "_comment", v) :: kvs)) ->
         ~ (exists w, member kvs FComment w) -> parse_config text' = parse_config text)
  | Some (JArray _) => True
  | _ => parse_config text = Err InvalidConfig
  end.
Proof using SL.
  destruct (text_value text) as [[| b | n | | s | vs | kvs] |] eqn:Hv; try done;
    try (apply parse_config_none; by eapply from_str_scalar); [| apply parse_config_none; by apply from_str_invalid].
  pose proof (from_str_object text kvs Hv) as Hfs. split_and!.
  - intros file Hf. unfold parse_config, parse_standalone_config. rewrite Hfs.
    by apply from_members_denotes in Hf as ->.
  - intros Hno. apply parse_config_none. rewrite Hfs. destruct (from_members kvs) as [file |] eqn:E; [| done].
    apply from_members_denotes in E. by apply Hno in E.
  - intros text' kvs' Hv' Hp. apply parse_config_eq. rewrite Hfs, (from_str_object text' kvs' Hv'). by rewrite Hp.
  - intros text' v Hv' Hno. apply parse_config_eq. rewrite Hfs, (from_str_object text' _ Hv').
    by apply comment_ignored.
Qed.

End config.

(** ** A reader of JSON text

    An instance for the witness and the tests: JSON without \u escapes, each
    value read in at most as many steps as the text has characters. *)

Fixpoint skip_ws (s : list Z) : list Z :=
  match s with
  | c :: s' => if (c =? 32) || (c =? 9) || (c =? 10) || (c =? 13) then skip_ws s' else s
  | [] => []
  end.

Definition unescape (c : Z) : option Z :=
  if (c =? 34) || (c =? 47) || (c =? 92) then Some c
  else if c =? 98 then Some 8
  else if c =? 102 then Some 12
  else if c =? 110 then Some 10
  else if c =? 114 then Some 13
  else if c =? 116 then Some 9
  else None.

(** The rest of a string after its opening quote. *)
Fixpoint read_string (s : list Z) : option (list Z * list Z) :=
  match s with
  | [] => None
  | 34 :: s' => Some ([], s')
  | 92 :: c :: s' =>
      match unescape c, read_string s' with
      | Some c, Some (t, rest) => Some (c :: t, rest)
      | _, _ => None
      end
  | c :: s' =>
      if c <? 32 then None
      else match read_string s' with Some (t, rest) => Some (c :: t, rest) | None => None end
  end.

Fixpoint read_int (acc : Z) (s : list Z) : Z * list Z :=
  match s with
  | c :: s' => match digit c with Some d => read_int (acc * 10 + d) s' | None => (acc, s) end
  | [] => (acc, [])
  end.

(** Integers without leading zeros; what follows the digits must not make it a
    number of another kind. *)
Definition read_number (neg : bool) (s : list Z) : option (json * list Z) :=
  match s with
  | c :: s' =>
      if between 48 57 c then
        let '(n, rest) := read_int 0 s in
        match rest with
        | 46 :: _ | 101 :: _ | 69 :: _ => None
        | _ => if (c =? 48) && negb (n =? 0) then None else Some (JInt (if neg then - n else n), rest)
        end
      else None
  | [] => None
  end.

Definition read_scalar (s : list Z) : option (json * list Z) :=
  if starts_with (lit "null") s then Some (JNull, drop 4 s)
  else if starts_with (lit "true") s then Some (JBool true, drop 4 s)
  else if starts_with (lit "false") s then Some (JBool false, drop 5 s)
  else match s with
  | 34 :: s => match read_string s with Some (t, rest) => Some (JString t, rest) | None => None end
  | 45 :: s => read_number true s
  | _ => read_number false s
  end.

Fixpoint read_json (n : nat) (s : list Z) : option (json * list Z) :=
  match n with
  | O => None
  | S n =>
      match skip_ws s with
      | 123 :: s =>
          match skip_ws s with
          | 125 :: s => Some (JObject [], s)
          | s => match read_members n s with Some (kvs, s) => Some (JObject kvs, s) | None => None end
          end
      | 91 :: s =>
          match skip_ws s with
          | 93 :: s => Some (JArray [], s)
          | s => match read_elements n s with Some (vs, s) => Some (JArray vs, s) | None => None end
          end
      | s => read_scalar s
      end
  end
with read_members (n : nat) (s : list Z) : option (list (list Z * json) * list Z) :=
  match n with
  | O => None
  | S n =>
      match skip_ws s with
      | 34 :: s =>
          match read_string s with
          | Some (k, s) =>
              match skip_ws s with
              | 58 :: s =>
                  match read_json n s with
                  | Some (v, s) =>
                      match skip_ws s with
                      | 44 :: s => match read_members n s with Some (kvs, s) => Some ((k, v) :: kvs, s) | None => None end
                      | 125 :: s => Some ([(k, v)], s)
                      | _ => None
                      end
                  | None => None
                  end
              | _ => None
              end
          | None => None
          end
      | _ => None
      end
  end
with read_elements (n : nat) (s : list Z) : option (list json * list Z) :=
  match n with
  | O => None
  | S n =>
      match read_json n s with
      | Some (v, s) =>
          match skip_ws s with
          | 44 :: s => match read_elements n s with Some (vs, s) => Some (v :: vs, s) | None => None end
          | 93 :: s => Some ([v], s)
          | _ => None
          end
      | None => None
      end
  end.

Definition read_text (text : list Z) : option json :=
  match read_json (S (length text)) text with
  | Some (v, rest) => match skip_ws rest with [] => Some v | _ => None end
  | None => None
  end.

#[export] Instance reader_serde : SerdeJson := {|
  text_value := read_text;
  from_str := fun text => match read_text text with Some (JObject kvs) => from_members kvs | _ => None end;
|}.

#[export] Instance reader_serde_laws : SerdeLaws reader_serde.
Proof.
  split; cbn; [by intros text kvs -> | by intros text -> |].
  intros text v -> Hv. by destruct v.
Qed.

(** A text with apostrophes for quotation marks. *)
Definition quoted (s : string) : list Z := (fun c => if c =? 39 then 34 else c) <$> lit s.

Example read_text_sample :
  read_text (quoted " {'a' : [1, -20, true, null], 'b': {'c': 'x\'y'}} ") =
    Some (JObject [(lit "a", JArray [JInt 1; JInt (-20); JBool true; JNull]);
                   (lit "b", JObject [(lit "c", JString [120; 34; 121])])]).
Proof. vm_compute. reflexivity. Qed.

(** ** Witness *)

Definition sample_members : list (list Z * json) :=
  [(lit "listen", JString (lit "127.0.0.1:1")); (lit "remote", JString (lit "127.0.0.1:2"));
   (lit "password", JString (lit "x"))].

Definition sample_reordered : list (list Z * json) :=
  [(lit "forward", JString (lit "127.0.0.1:2")); (lit "password", JString (lit "x"));
   (lit "listen", JString (lit "127.0.0.1:1"))].

Lemma config_text_spec_witness :
  let parse text := parse_config (fun _ _ => Err LookupFailed) toy_pubkey_hex (quoted text) in
  parse "{'forward': '127.0.0.1:2', 'password': 'x', 'listen': '127.0.0.1:1'}"%string =
    parse "{'listen': '127.0.0.1:1', 'remote': '127.0.0.1:2', 'password': 'x'}"%string /\
  parse "{'_comment': 7, 'listen': '127.0.0.1:1', 'remote': '127.0.0.1:2', 'password': 'x'}"%string =
    parse "{'listen': '127.0.0.1:1', 'remote': '127.0.0.1:2', 'password': 'x'}"%string.
Proof.
  intros parse.
  pose proof (config_text_spec (fun _ _ => Err LookupFailed) toy_pubkey_hex
    (quoted "{'listen': '127.0.0.1:1', 'remote': '127.0.0.1:2', 'password': 'x'}")) as H.
  assert (text_value (quoted "{'listen': '127.0.0.1:1', 'remote': '127.0.0.1:2', 'password': 'x'}")
    = Some (JObject sample_members)) as E by (vm_compute; reflexivity).
  rewrite E in H. destruct H as (_ & _ & Hperm & Hcomment). split.
  - apply (Hperm _ sample_reordered); [vm_compute; reflexivity |].
    exact (Permutation_cons_append _ (Some FListen, JString (lit "127.0.0.1:1"))).
  - apply (Hcomment _ (JInt 7)); [vm_compute; reflexivity |]. intros (w & k & Hin & Hf).
    rewrite list_elem_of_In in Hin. vm_compute in Hin. destruct Hin as [[= <- _] | [[= <- _] | [[= <- _] | []]]]; done.
Defined.
