(* ===== verification/Handshake.v ===== *)
(** * Handshake: the fake-TLS and password handshake (handshake.rs)

    The two handshake functions are programs over three effects: write bytes,
    read one record, panic. [run_proc] executes such a program on the socket's
    reads and write outcomes with the buffered record reader of Records, so
    every split of the stream into reads is covered. The cryptography is the
    qeli core's, a class with the laws it documents. *)

From Stdlib Require Import Ascii String.
From S2P Require Import Prelude Mux Records External RustStr NetAddr Opts.

(** ** Programs over the socket *)

Inductive proc (A : Type) : Type :=
| Ret (a : A)
| Panic
| Write (bs : list Z) (k : bool -> proc A)
| ReadRecord (k : result (read_error unit) (list Z) -> proc A).
Arguments Ret {A} a.
Arguments Panic {A}.
Arguments Write {A} bs k.
Arguments ReadRecord {A} k.

(** The records the error messages name. *)
Inductive flight : Type :=
| ServerHello | ChangeCipherSpec | Certificate | Finished | NewSessionTicket
| IdentityProof | AuthResponse | ClientHello | ClientAuth.

Inductive HsError : Type :=
| WriteError
| ReadFailed (what : flight) (e : read_error unit)
| ParseFailed (what : flight)
| ExpectedChangeCipherSpec
| LowOrderKey
| DecapsulationFailed
| EncapsulationFailed
| SharedSecretLength
| MissingMlkemKey
| PublicKeyLength
| DecryptFailed (what : flight)
| EncryptFailed (what : flight)
| IdentityVerification
| IdentityMismatch
| AuthRejected (shown : list Z)
| AuthTooShort
| PasswordNotUtf8
| WrongPassword
| TimedOut.

(** The [?] operator on the three kinds of steps. *)
Definition try_ {A B} (r : result HsError A) (k : A -> proc (result HsError B)) : proc (result HsError B) :=
  match r with
  | Ok a => k a
  | Err e => Ret (Err e)
  end.

Definition write_all {B} (bs : list Z) (k : proc (result HsError B)) : proc (result HsError B) :=
  Write bs (fun ok => if ok then k else Ret (Err WriteError)).

Definition recv {B} (what : flight) (k : list Z -> proc (result HsError B)) : proc (result HsError B) :=
  ReadRecord (fun r => match r with
                    | Ok bs => k bs
                    | Err e => Ret (Err (ReadFailed what e))
                    end).

Notation "'do?' x := r 'in' k" := (try_ r (fun x => k))
  (at level 10, x pattern, r at level 100, k at level 200) : rust_scope.
Notation "'recv?' x := what 'in' k" := (recv what (fun x => k))
  (at level 10, x name, what at level 100, k at level 200) : rust_scope.
Notation "'send?' bs 'in' k" := (write_all bs k)
  (at level 10, bs at level 100, k at level 200) : rust_scope.

(** Map the error of a codec or crypto call. *)
Definition map_err {E F A} (f : F) (r : result E A) : result F A :=
  match r with
  | Ok a => Ok a
  | Err _ => Err f
  end.

(** ** Execution *)

Inductive outcome (A : Type) : Type :=
| Done (a : A)
| Panicked
| Pending.
Arguments Done {A} a.
Arguments Panicked {A}.
Arguments Pending {A}.

(** Run on the reader's buffer, the socket's reads and the outcomes of its
    writes; also the bytes written, and the reads left. [Pending] is a read or a
    write that has not completed. *)
Fixpoint run_proc {A} (p : proc A) (buf : list Z) (reads : list (read_event unit)) (writes : list bool)
  : outcome A * list (list Z) * list (read_event unit) :=
  match p with
  | Ret a => (Done a, [], reads)
  | Panic => (Panicked, [], reads)
  | Write bs k =>
      match writes with
      | [] => (Pending, [], reads)
      | ok :: writes =>
          let '(o, out, rest) := run_proc (k ok) buf reads writes in
          (o, if ok then bs :: out else out, rest)
      end
  | ReadRecord k =>
      match read_record buf reads with
      | None => (Pending, [], [])
      | Some (r, buf, reads) => run_proc (k r) buf reads writes
      end
  end.

(** [tokio::time::timeout(d, handshake)]: the reads and write outcomes are those
    before the deadline; a handshake that still waits then has timed out. *)
Definition with_timeout {A} (o : outcome (result HsError A)) : outcome (result HsError A) :=
  match o with
  | Pending => Done (Err TimedOut)
  | o => o
  end.

(** ** The qeli core *)

(** Key generation and the randomised builders draw from [rng]. The hello builder
    asserts that the SNI is well formed: [None] is that panic. *)
Class QeliCore : Type := {
  rng : Type;
  keypair : Type;
  static_keypair : Type;
  mlkem_dk : Type;
  DEVICE_ID_LEN : nat;
  generate : rng -> keypair * rng;
  public : keypair -> list Z;
  static_public : static_keypair -> list Z;
  static_generate : rng -> static_keypair;
  from_private_bytes : list Z -> static_keypair;
  private_bytes : static_keypair -> list Z;
  build_client_hello_pq : list Z -> list Z -> rng -> option (list Z * mlkem_dk * rng);
  parse_client_hello : list Z -> option (list Z);
  extract_client_mlkem_ek : list Z -> option (list Z);
  mlkem768_encapsulate : list Z -> rng -> option (list Z * list Z) * rng;
  mlkem768_decapsulate : mlkem_dk -> list Z -> option (list Z);
  build_server_hello_pq : list Z -> list Z -> rng -> list Z * rng;
  parse_server_hello_pq : list Z -> option (list Z * list Z);
  build_change_cipher_spec : list Z;
  build_certificate : rng -> list Z * rng;
  build_finished : rng -> list Z * rng;
  build_new_session_ticket : rng -> list Z * rng;
  derive_shared : keypair -> list Z -> list Z;
  derive_shared_checked : keypair -> list Z -> option (list Z);
  derive_keys_hybrid : list Z -> list Z -> list Z * list Z;
  handshake_transcript_hash : list (list Z) -> list Z;
  build_server_auth_message : static_keypair -> list Z -> list Z -> list Z -> list Z;
  verify_server_auth_message : list Z -> keypair -> list Z -> list Z -> result unit (list Z);
  compute_client_key_proof : list Z -> list Z -> list Z -> list Z;
  ct_eq : list Z -> list Z -> bool;
}.

(** ** Constants and results *)

Definition DEVICE_MARKER : Z := 0.

Definition AUTH_OK_PREFIX : list Z := lit "OK:".

(** [VERSION]: the build may override it. *)
Definition VERSION (release : option (list Z)) : list Z := default (lit "0.1") release.

(** [<[u8; 32]>::try_from(slice)]. *)
Definition try_into_32 (bs : list Z) : option (list Z) := if len bs =? 32 then Some bs else None.

Section Handshake.
Context {PC : PacketCodec} {QC : QeliCore}.

Record ClientHandshake : Type := {
  ch_rx : codec;
  ch_tx : codec;
  server_static : list Z
}.

Record ServerHandshake : Type := {
  sh_rx : codec;
  sh_tx : codec
}.

(** The client's proof of the pinned key: zeros when nothing is pinned. *)
Definition client_proof (client_kp : keypair) (shared transcript_hash : list Z) (pinned : option (list Z)) : list Z :=
  match pinned with
  | Some pinned => compute_client_key_proof (derive_shared client_kp pinned) shared transcript_hash
  | None => replicate 32 0
  end.

Definition client_auth (proof device_id password : list Z) : list Z :=
  proof ++ [DEVICE_MARKER] ++ device_id ++ utf8 password.

(** The tail of the client: identity proof, authentication, response. *)
Definition client_authenticate (client_kp : keypair) (shared transcript_hash : list Z) (rx tx : codec)
  (password device_id : list Z) (pinned_server_key : option (list Z)) : proc (result HsError ClientHandshake) :=
  recv? proof_record := IdentityProof in
  let '(proof, rx) := decrypt_packet rx proof_record in
  do? proof := map_err (DecryptFailed IdentityProof) proof in
  do? server_static := map_err IdentityVerification
    (verify_server_auth_message proof client_kp shared transcript_hash) in
  do? _ := match pinned_server_key with
           | Some pinned => if negb (ct_eq server_static pinned) then Err IdentityMismatch else Ok tt
           | None => Ok tt
           end in
  let plaintext := client_auth (client_proof client_kp shared transcript_hash pinned_server_key)
                     device_id password in
  let '(auth_packet, tx) := encrypt_packet tx plaintext [] in
  do? auth_packet := map_err (EncryptFailed ClientAuth) auth_packet in
  send? auth_packet in
  recv? response_record := AuthResponse in
  let '(response, rx) := decrypt_packet rx response_record in
  do? response := map_err (DecryptFailed AuthResponse) response in
  let response := from_utf8_lossy response in
  if negb (starts_with AUTH_OK_PREFIX response) then Ret (Err (AuthRejected (take 64 response)))
  else Ret (Ok {| ch_rx := rx; ch_tx := tx; server_static := server_static |}).

Definition client_handshake_inner (seed : rng) (sni password device_id : list Z)
  (pinned_server_key : option (list Z)) : proc (result HsError ClientHandshake) :=
  let '(client_kp, seed) := generate seed in
  match build_client_hello_pq (public client_kp) sni seed with
  | None => Panic
  | Some (client_hello, mlkem_dk, _) =>
      send? client_hello in
      recv? server_hello := ServerHello in
      do? (mlkem_ct, server_x25519) := ok_or (parse_server_hello_pq server_hello) (ParseFailed ServerHello) in
      recv? change_cipher_spec := ChangeCipherSpec in
      if negb (bool_decide (head change_cipher_spec = Some 20)) then Ret (Err ExpectedChangeCipherSpec) else
      recv? certificate := Certificate in
      recv? finished := Finished in
      recv? _new_session_ticket := NewSessionTicket in
      do? shared := ok_or (derive_shared_checked client_kp server_x25519) LowOrderKey in
      do? mlkem_shared := ok_or (mlkem768_decapsulate mlkem_dk mlkem_ct) DecapsulationFailed in
      do? mlkem_shared := ok_or (try_into_32 mlkem_shared) SharedSecretLength in
      let '(server_to_client, client_to_server) := derive_keys_hybrid shared mlkem_shared in
      let transcript_hash := handshake_transcript_hash [client_hello; server_hello; certificate; finished] in
      client_authenticate client_kp shared transcript_hash (codec_new server_to_client)
        (codec_new client_to_server) password device_id pinned_server_key
  end.

(** [None] is an index out of range. *)
Definition parse_client_auth (auth : list Z) : option (result HsError (list Z)) :=
  if len auth <? 33 then Some (Err AuthTooShort)
  else
    marker ← (if 33 + Z.of_nat DEVICE_ID_LEN <=? len auth then auth !! 32%nat else Some 1);
    let password := if (33 + Z.of_nat DEVICE_ID_LEN <=? len auth) && (marker =? DEVICE_MARKER)
                    then drop (33 + DEVICE_ID_LEN) auth else drop 32 auth in
    Some (ok_or (from_utf8 password) PasswordNotUtf8).

(** The tail of the server: identity proof, password check, response. *)
Definition server_authenticate (release : option (list Z)) (auth_msg : list Z) (rx tx : codec) (password : list Z)
  : proc (result HsError ServerHandshake) :=
  let '(proof_packet, tx) := encrypt_packet tx auth_msg [] in
  do? proof_packet := map_err (EncryptFailed IdentityProof) proof_packet in
  send? proof_packet in
  recv? auth_record := ClientAuth in
  let '(auth, rx) := decrypt_packet rx auth_record in
  do? auth := map_err (DecryptFailed ClientAuth) auth in
  match parse_client_auth auth with
  | None => Panic
  | Some presented =>
      do? presented := presented in
      if negb (ct_eq (utf8 presented) (utf8 password)) then Ret (Err WrongPassword) else
      let '(ok_packet, tx) :=
        encrypt_packet tx (utf8 (AUTH_OK_PREFIX ++ lit "qeli-ss-plugin/" ++ VERSION release)) [] in
      do? ok_packet := map_err (EncryptFailed AuthResponse) ok_packet in
      send? ok_packet in
      Ret (Ok {| sh_rx := rx; sh_tx := tx |})
  end.

Definition server_handshake_inner (release : option (list Z)) (seed : rng) (static_kp : static_keypair)
  (password : list Z) : proc (result HsError ServerHandshake) :=
  recv? client_hello := ClientHello in
  do? client_pub_bytes := ok_or (parse_client_hello client_hello) (ParseFailed ClientHello) in
  if negb (len client_pub_bytes =? 32) then Ret (Err PublicKeyLength) else
  match try_into_32 client_pub_bytes with
  | None => Panic
  | Some client_pub =>
  do? client_ek := ok_or (extract_client_mlkem_ek client_hello) MissingMlkemKey in
  let '(encapsulated, seed) := mlkem768_encapsulate client_ek seed in
  do? (mlkem_ct, mlkem_shared) := ok_or encapsulated EncapsulationFailed in
  do? mlkem_shared := ok_or (try_into_32 mlkem_shared) SharedSecretLength in
  let '(server_kp, seed) := generate seed in
  let '(server_hello, seed) := build_server_hello_pq (public server_kp) mlkem_ct seed in
  let '(certificate, seed) := build_certificate seed in
  let '(finished, seed) := build_finished seed in
  let '(new_session_ticket, seed) := build_new_session_ticket seed in
  let transcript_hash := handshake_transcript_hash [client_hello; server_hello; certificate; finished] in
  send? server_hello in
  send? build_change_cipher_spec in
  send? certificate in
  send? finished in
  send? new_session_ticket in
  do? shared := ok_or (derive_shared_checked server_kp client_pub) LowOrderKey in
  let '(server_to_client, client_to_server) := derive_keys_hybrid shared mlkem_shared in
  server_authenticate release (build_server_auth_message static_kp client_pub shared transcript_hash)
    (codec_new client_to_server) (codec_new server_to_client) password
  end.

(** The handshakes on a socket; the record reader starts empty and is dropped
    at the end. *)
Definition client_handshake (seed : rng) (sni password device_id : list Z) (pinned_server_key : option (list Z))
  (reads : list (read_event unit)) (writes : list bool)
  : outcome (result HsError ClientHandshake) * list (list Z) * list (read_event unit) :=
  let '(o, out, rest) :=
    run_proc (client_handshake_inner seed sni password device_id pinned_server_key) [] reads writes in
  (with_timeout o, out, rest).

Definition server_handshake (release : option (list Z)) (seed : rng) (static_kp : static_keypair)
  (password : list Z) (reads : list (read_event unit)) (writes : list bool)
  : outcome (result HsError ServerHandshake) * list (list Z) * list (read_event unit) :=
  let '(o, out, rest) := run_proc (server_handshake_inner release seed static_kp password) [] reads writes in
  (with_timeout o, out, rest).

End Handshake.

(** ** Record-level execution *)

(** The program on a sequence of records, all its writes succeeding: its result,
    what it wrote, the records it did not read. *)
Fixpoint run_recs {A} (p : proc A) (ins : list (list Z)) : option (A * list (list Z) * list (list Z)) :=
  match p with
  | Ret a => Some (a, [], ins)
  | Panic => None
  | Write bs k =>
      match run_recs (k true) ins with
      | Some (a, out, rest) => Some (a, bs :: out, rest)
      | None => None
      end
  | ReadRecord k =>
      match ins with
      | r :: ins => run_recs (k (Ok r)) ins
      | [] => None
      end
  end.

(** It is what the socket-level execution does for every split of the records
    into reads. *)
Lemma run_proc_recs {A} (p : proc A) : forall ins a out rest buf cs extra io n,
  run_recs p ins = Some (a, out, rest) -> Forall is_record ins -> Forall (fun c => c <> []) cs ->
  buf ++ concat cs = concat ins ++ extra -> (length out <= n)%nat ->
  exists reads, run_proc p buf ((ReadData <$> cs) ++ io) (replicate n true) = (Done a, out, reads).
Proof.
  induction p as [a' | | bs k IH | k IH]; intros ins a out rest buf cs extra io n Hr Hi Hcs Hb Hn; simpl in Hr.
  - simplify_eq. simpl. eauto.
  - done.
  - destruct (run_recs (k true) ins) as [[[a' out'] rest'] |] eqn:E; [| done]. simplify_eq.
    destruct n as [| n]; [simpl in Hn; lia |]. simpl in Hn.
    destruct (IH true ins _ _ _ buf cs extra io n E Hi Hcs Hb ltac:(lia)) as [reads Hrun].
    exists reads. simpl. by rewrite Hrun.
  - destruct ins as [| r ins]; [done |]. apply Forall_cons in Hi as [Hr1 Hi].
    assert (split_record (buf ++ concat cs) = Some (r, concat ins ++ extra)) as Hs.
    { apply split_record_is_record. split; [done |]. rewrite Hb. simpl. by rewrite app_assoc. }
    destruct (read_record_complete cs io buf _ _ Hcs Hs) as (buf' & cs' & Hb' & Hcs' & Hrr).
    destruct (IH (Ok r) ins _ _ _ buf' cs' extra io n Hr Hi Hcs' Hb' Hn) as [reads Hrun].
    exists reads. simpl. by rewrite Hrr.
Qed.

(** ** Reasoning about runs *)

(** The bytes among the socket's reads. *)
Fixpoint data_of (reads : list (read_event unit)) : list Z :=
  match reads with
  | [] => []
  | ReadData c :: reads => c ++ data_of reads
  | ReadError _ :: reads => data_of reads
  end.

(** Weakest precondition: [Q] holds of the records read, the bytes written and
    the result of every run that ends. *)
Fixpoint wp {A} (p : proc A) (rd wr : list (list Z)) (Q : list (list Z) -> list (list Z) -> A -> Prop) : Prop :=
  match p with
  | Ret a => Q rd wr a
  | Panic => True
  | Write bs k => wp (k true) rd (wr ++ [bs]) Q /\ wp (k false) rd wr Q
  | ReadRecord k =>
      (forall r, is_record r -> wp (k (Ok r)) (rd ++ [r]) wr Q) /\ (forall e, wp (k (Err e)) rd wr Q)
  end.

Lemma read_record_data reads : forall buf r buf' reads',
  read_record buf reads = Some (r, buf', reads') ->
  match r with
  | Ok r => is_record r /\ buf ++ data_of reads = r ++ buf' ++ data_of reads'
  | Err _ => buf ++ data_of reads = buf' ++ data_of reads'
  end.
Proof.
  assert (forall buf reads r buf', reader_try buf = Some (r, buf') ->
    is_record r /\ buf ++ data_of reads = r ++ buf' ++ data_of reads) as Htry.
  { intros buf rs r buf' H. rewrite reader_try_split in H. apply split_record_is_record in H as [Hr ->].
    by rewrite <- app_assoc. }
  induction reads as [| ev reads IH]; intros buf r buf' reads'; cbn [read_record].
  - destruct (reader_try buf) as [[r' b'] |] eqn:E; [| done]. intros [= <- <- <-]. by apply (Htry _ []).
  - destruct (reader_try buf) as [[r' b'] |] eqn:E; [intros [= <- <- <-]; by apply Htry |].
    destruct ev as [c | e]; [| by intros [= <- <- <-]].
    destruct (Nat.eqb_spec (length c) 0) as [H0 | H0].
    + apply nil_length_inv in H0 as ->. by intros [= <- <- <-].
    + intros H. apply IH in H. cbn [data_of]. rewrite app_assoc. exact H.
Qed.

Lemma wp_run {A} (p : proc A) Q : forall rd wr buf reads ws a out rest,
  wp p rd wr Q -> run_proc p buf reads ws = (Done a, out, rest) ->
  exists rs, Q (rd ++ rs) (wr ++ out) a /\ concat rs `prefix_of` buf ++ data_of reads.
Proof.
  induction p as [a' | | bs k IH | k IH]; intros rd wr buf reads ws a out rest Hw Hr; simpl in Hw, Hr.
  - simplify_eq. exists []. rewrite !app_nil_r. split; [done | apply prefix_nil].
  - simplify_eq.
  - destruct ws as [| ok ws]; [simplify_eq |].
    destruct (run_proc (k ok) buf reads ws) as [[o out'] rest'] eqn:E. destruct Hw as [Ht Hf].
    destruct ok; simplify_eq.
    + destruct (IH true _ _ _ _ _ _ _ _ Ht E) as (rs & HQ & Hp). exists rs. by rewrite <- app_assoc in HQ.
    + destruct (IH false _ _ _ _ _ _ _ _ Hf E) as (rs & HQ & Hp). by exists rs.
  - destruct (read_record buf reads) as [[[r buf'] reads'] |] eqn:E; [| simplify_eq].
    apply read_record_data in E. destruct Hw as [Hok Herr]. destruct r as [r | e].
    + destruct E as [Hr1 Hd]. destruct (IH (Ok r) _ _ _ _ _ _ _ _ (Hok r Hr1) Hr) as (rs & HQ & Hp).
      exists (r :: rs). rewrite <- app_assoc in HQ. split; [exact HQ |]. simpl. rewrite Hd.
      by apply prefix_app.
    + destruct (IH (Err e) _ _ _ _ _ _ _ _ (Herr e) Hr) as (rs & HQ & Hp). exists rs. by rewrite E.
Qed.



(** ** What the plugin relies on *)

(** - the hello builder accepts every SNI [validate_sni] accepts, and the hello
      carries the client's key and an encapsulation key (its ML-KEM secret
      decapsulates);
    - the flights are TLS records, the change-cipher-spec starts with 0x14;
    - both sides derive the same X25519 secret, honest keys are not low-order;
    - an identity proof verifies to the server's static key;
    - the comparison is equality. *)
Class QeliLaws (PC : PacketCodec) (QC : QeliCore) : Type := {
  device_id_len : DEVICE_ID_LEN = 16%nat;
  public_len : forall kp, len (public kp) = 32;
  client_hello_built : forall pub sni g, validate_sni sni = Ok tt -> is_Some (build_client_hello_pq pub sni g);
  client_hello_spec : forall kp sni g ch dk g',
    build_client_hello_pq (public kp) sni g = Some (ch, dk, g') ->
    is_record ch /\ parse_client_hello ch = Some (public kp) /\
    exists ek, extract_client_mlkem_ek ch = Some ek /\
      forall s, exists ct ss s', mlkem768_encapsulate ek s = (Some (ct, ss), s') /\
        mlkem768_decapsulate dk ct = Some ss /\ len ct = 1088 /\ len ss = 32;
  server_hello_spec : forall kp ct g sh g',
    len ct = 1088 -> build_server_hello_pq (public kp) ct g = (sh, g') ->
    is_record sh /\ parse_server_hello_pq sh = Some (ct, public kp);
  change_cipher_spec_spec : is_record build_change_cipher_spec /\ head build_change_cipher_spec = Some 20;
  certificate_record : forall g, is_record (build_certificate g).1;
  finished_record : forall g, is_record (build_finished g).1;
  ticket_record : forall g, is_record (build_new_session_ticket g).1;
  dh_agree : forall a b, exists s,
    derive_shared_checked a (public b) = Some s /\ derive_shared_checked b (public a) = Some s;
  identity_verifies : forall sk kp s h,
    verify_server_auth_message (build_server_auth_message sk (public kp) s h) kp s h = Ok (static_public sk);
  auth_message_len : forall sk pub s h, len (build_server_auth_message sk pub s h) = 64;
  key_proof_len : forall a b h, len (compute_client_key_proof a b h) = 32;
  ct_eq_spec : forall a b, ct_eq a b = bool_decide (a = b);
  static_public_bytes : forall sk, bytes_ok (static_public sk) /\ len (static_public sk) = 32;
  private_bytes_bytes : forall sk, bytes_ok (private_bytes sk) /\ len (private_bytes sk) = 32;
  identity_restored : forall sk,
    static_public (from_private_bytes (private_bytes sk)) = static_public sk;
}.

Section Lemmas.
Context {PC : PacketCodec} {PL : PacketCodecLaws PC} {QC : QeliCore} {QL : QeliLaws PC QC}.

Lemma client_proof_len kp s h pinned : len (client_proof kp s h pinned) = 32.
Proof using QL. destruct pinned; [apply key_proof_len | done]. Qed.

(** The server reads back the password from what the client sends. *)
Lemma parse_client_auth_of proof device_id password :
  len proof = 32 -> len device_id = Z.of_nat DEVICE_ID_LEN -> Forall is_scalar password ->
  parse_client_auth (client_auth proof device_id password) = Some (Ok password).
Proof.
  intros Hp Hd Hs. unfold parse_client_auth, client_auth.
  assert (len (proof ++ [DEVICE_MARKER] ++ device_id ++ utf8 password)
    = 33 + Z.of_nat DEVICE_ID_LEN + len (utf8 password)) as Hl.
  { rewrite !len_app. change (len [DEVICE_MARKER]) with 1. lia. }
  pose proof (len_nonneg (utf8 password)). rewrite Hl.
  destruct (Z.ltb_spec (33 + Z.of_nat DEVICE_ID_LEN + len (utf8 password)) 33); [lia |].
  destruct (Z.leb_spec (33 + Z.of_nat DEVICE_ID_LEN) (33 + Z.of_nat DEVICE_ID_LEN + len (utf8 password))); [| lia].
  unfold len in Hp, Hd. rewrite lookup_app_r by lia. replace (32 - length proof)%nat with 0%nat by lia.
  cbn [mbind option_bind lookup list_lookup app]. change (DEVICE_MARKER =? DEVICE_MARKER) with true. cbn [andb].
  replace (33 + DEVICE_ID_LEN)%nat with (length (proof ++ DEVICE_MARKER :: device_id))
    by (rewrite length_app; simpl; lia).
  rewrite app_comm_cons, app_assoc, drop_app_length. by rewrite from_utf8_utf8.
Qed.

(** The lengths and characters for which the messages fit their records. *)
Definition message_ok (release : option (list Z)) (password device_id : list Z) : Prop :=
  Forall is_scalar password /\ len (utf8 password) <= MAX_DATA - 49 /\
  len device_id = Z.of_nat DEVICE_ID_LEN /\
  Forall is_scalar (VERSION release) /\ len (utf8 (VERSION release)) <= MAX_DATA - 18.

Definition ok_message (release : option (list Z)) : list Z :=
  utf8 (AUTH_OK_PREFIX ++ lit "qeli-ss-plugin/" ++ VERSION release).

Lemma ok_message_prefix release :
  Forall is_scalar (VERSION release) -> starts_with AUTH_OK_PREFIX (from_utf8_lossy (ok_message release)) = true.
Proof.
  intros Hv. assert (bytes_ok (ok_message release)) as Hb.
  { apply utf8_ok. rewrite !Forall_app. split_and!; [.. | done];
      (repeat constructor; unfold is_scalar; simpl; lia). }
  rewrite lossy_starts_with by (done || (repeat constructor; simpl; lia)).
  unfold ok_message. by rewrite utf8_app.
Qed.

(** The authentication tails agree: one identity proof, one password message,
    one response. *)
Lemma authenticate_honest release kp sk shared h rx tx crx ctx password device_id pinned :
  message_ok release password device_id -> (forall k, pinned = Some k -> k = static_public sk) ->
  synced tx crx -> synced ctx rx ->
  exists p1 p2 p3 hc hs,
    Forall is_record [p1; p2; p3] /\
    run_recs (client_authenticate kp shared h crx ctx password device_id pinned) [p1; p3]
      = Some (Ok hc, [p2], []) /\
    run_recs (server_authenticate release (build_server_auth_message sk (public kp) shared h) rx tx password) [p2]
      = Some (Ok hs, [p1; p3], []) /\
    synced (ch_tx hc) (sh_rx hs) /\ synced (sh_tx hs) (ch_rx hc) /\ server_static hc = static_public sk.
Proof using QL.
  intros (Hs & Hl & Hd & Hv & Hvl) Hpin S1 S2. set (auth_msg := build_server_auth_message sk (public kp) shared h).
  set (plain := client_auth (client_proof kp shared h pinned) device_id password).
  destruct (encrypt_fits tx auth_msg) as (p1 & tx1 & E1).
  { unfold auth_msg. rewrite auth_message_len. unfold FRAME_HEADER, MAX_DATA. lia. }
  destruct (decrypt_encrypt _ _ _ _ _ S1 E1) as (crx1 & D1 & S1').
  destruct (encrypt_fits ctx plain) as (p2 & ctx1 & E2).
  { unfold plain, client_auth. rewrite !len_app, client_proof_len, Hd, device_id_len.
    change (len [DEVICE_MARKER]) with 1. unfold FRAME_HEADER, MAX_DATA in *. lia. }
  destruct (decrypt_encrypt _ _ _ _ _ S2 E2) as (rx1 & D2 & S2').
  destruct (encrypt_fits tx1 (ok_message release)) as (p3 & tx2 & E3).
  { unfold ok_message. rewrite !utf8_app, !len_app. change (len (utf8 AUTH_OK_PREFIX)) with 3.
    change (len (utf8 (lit "qeli-ss-plugin/"))) with 15. unfold FRAME_HEADER, MAX_DATA in *. lia. }
  destruct (decrypt_encrypt _ _ _ _ _ S1' E3) as (crx2 & D3 & S1'').
  exists p1, p2, p3, {| ch_rx := crx2; ch_tx := ctx1; server_static := static_public sk |},
    {| sh_rx := rx1; sh_tx := tx2 |}.
  split; [repeat (apply Forall_cons; split); eauto using encrypt_is_record |].
  split; [| split; [| split; [exact S2' | split; [exact S1'' | done]]]].
  - unfold client_authenticate. cbn [run_recs recv]. rewrite D1. cbn [map_err try_].
    unfold auth_msg. rewrite identity_verifies. cbn [map_err try_].
    assert (match pinned with
            | Some pinned => if negb (ct_eq (static_public sk) pinned) then Err IdentityMismatch else Ok tt
            | None => Ok tt
            end = Ok tt) as ->.
    { destruct pinned as [k |]; [| done]. by rewrite (Hpin k eq_refl), ct_eq_spec, bool_decide_true. }
    cbn [try_]. fold plain. rewrite E2. cbn [map_err try_ run_recs write_all recv]. rewrite D3.
    cbn [map_err try_]. by rewrite ok_message_prefix.
  - unfold server_authenticate. fold auth_msg. rewrite E1. cbn [map_err try_ run_recs write_all recv].
    rewrite D2. cbn [map_err try_]. unfold plain. rewrite parse_client_auth_of by (done || apply client_proof_len).
    cbn [try_]. rewrite ct_eq_spec, bool_decide_true by done. cbn [negb]. fold (ok_message release).
    rewrite E3. reflexivity.
Qed.

(** The whole handshake on records. *)
Lemma handshake_honest_recs release gc gs sk sni password device_id pinned :
  validate_sni sni = Ok tt -> message_ok release password device_id ->
  (forall k, pinned = Some k -> k = static_public sk) ->
  exists c2s s2c hc hs,
    Forall is_record c2s /\ Forall is_record s2c /\ length c2s = 2%nat /\ length s2c = 7%nat /\
    run_recs (client_handshake_inner gc sni password device_id pinned) s2c = Some (Ok hc, c2s, []) /\
    run_recs (server_handshake_inner release gs sk password) c2s = Some (Ok hs, s2c, []) /\
    synced (ch_tx hc) (sh_rx hs) /\ synced (sh_tx hs) (ch_rx hc) /\ server_static hc = static_public sk.
Proof using QL.
  intros Hsni Hm Hpin. unfold client_handshake_inner, server_handshake_inner.
  destruct (generate gc) as [ckp gc1].
  destruct (client_hello_built (public ckp) sni gc1 Hsni) as [[[ch dk] gc2] Hch]. rewrite Hch.
  destruct (client_hello_spec _ _ _ _ _ _ Hch) as (Rch & Pch & ek & Xch & Henc).
  destruct (Henc gs) as (ct & ss & gs1 & Henc' & Hdec & Hct & Hss).
  destruct (generate gs1) as [skp gs2] eqn:Egs.
  destruct (build_server_hello_pq (public skp) ct gs2) as [sh gs3] eqn:Esh.
  destruct (server_hello_spec _ _ _ _ _ Hct Esh) as [Rsh Psh].
  pose proof (certificate_record gs3) as Rcert. destruct (build_certificate gs3) as [cert gs4] eqn:Ecert.
  pose proof (finished_record gs4) as Rfin. destruct (build_finished gs4) as [fin gs5] eqn:Efin.
  pose proof (ticket_record gs5) as Rnst. destruct (build_new_session_ticket gs5) as [nst gs6] eqn:Enst.
  destruct (dh_agree ckp skp) as (s & Hdc & Hds). destruct change_cipher_spec_spec as [Rccs Hccs].
  destruct (derive_keys_hybrid s ss) as [k_s2c k_c2s] eqn:Ekeys.
  destruct (authenticate_honest release ckp sk s (handshake_transcript_hash [ch; sh; cert; fin])
    (codec_new k_c2s) (codec_new k_s2c) (codec_new k_s2c) (codec_new k_c2s) password device_id pinned
    Hm Hpin (synced_new _) (synced_new _)) as (p1 & p2 & p3 & hc & hs & Rp & Hc & Hs & Hsync).
  exists [ch; p2], [sh; build_change_cipher_spec; cert; fin; nst; p1; p3], hc, hs.
  rewrite !Forall_cons in Rp. destruct Rp as (R1 & R2 & R3 & _).
  split; [by repeat (apply Forall_cons; split) |]. split; [by repeat (apply Forall_cons; split) |].
  split; [done |]. split; [done |]. assert (try_into_32 ss = Some ss) as H32.
  { unfold try_into_32. by rewrite Hss. }
  split; [| split; [| exact Hsync]].
  - cbn [run_recs write_all recv]. rewrite Psh. cbn [ok_or try_ run_recs recv]. rewrite Hccs.
    cbn [run_recs recv negb bool_decide]. rewrite bool_decide_true by done. cbn [negb run_recs recv].
    rewrite Hdc. cbn [ok_or try_]. rewrite Hdec. cbn [ok_or try_]. rewrite H32. cbn [ok_or try_].
    rewrite Ekeys. by rewrite Hc.
  - cbn [run_recs recv]. rewrite Pch. cbn [ok_or try_]. rewrite public_len, Z.eqb_refl. cbn [negb].
    unfold try_into_32 at 1. rewrite public_len, Z.eqb_refl. rewrite Xch. cbn [ok_or try_]. rewrite Henc'. cbn [ok_or try_]. rewrite H32. cbn [ok_or try_].
    rewrite Egs, Esh, Ecert, Efin, Enst. cbn [run_recs write_all]. rewrite Hds. cbn [ok_or try_].
    rewrite Ekeys. by rewrite Hs.
Qed.

(** ** What a successful run went through *)

(** The key exchange of the client with the sender of [server_hello]: its key
    pair and its hello come from its own randomness, the record keys from the
    X25519 secret with the key share of that ServerHello and from the ML-KEM
    secret its ciphertext decapsulates to. *)
Definition client_exchanged (seed : rng) (sni : list Z) (client_kp : keypair)
  (client_hello server_hello shared server_to_client client_to_server : list Z) : Prop :=
  exists seed1 mlkem_dk seed2 mlkem_ct server_x25519 mlkem_shared,
    generate seed = (client_kp, seed1) /\
    build_client_hello_pq (public client_kp) sni seed1 = Some (client_hello, mlkem_dk, seed2) /\
    parse_server_hello_pq server_hello = Some (mlkem_ct, server_x25519) /\
    derive_shared_checked client_kp server_x25519 = Some shared /\
    mlkem768_decapsulate mlkem_dk mlkem_ct = Some mlkem_shared /\ len mlkem_shared = 32 /\
    derive_keys_hybrid shared mlkem_shared = (server_to_client, client_to_server).

(** The key exchange of the server with the sender of [client_hello]. *)
Definition server_exchanged (seed : rng) (client_hello client_pub shared server_to_client client_to_server : list Z)
  (server_hello certificate finished new_session_ticket : list Z) : Prop :=
  exists client_ek mlkem_ct mlkem_shared seed1 server_kp seed2 seed3 seed4 seed5 seed6,
    parse_client_hello client_hello = Some client_pub /\ len client_pub = 32 /\
    extract_client_mlkem_ek client_hello = Some client_ek /\
    mlkem768_encapsulate client_ek seed = (Some (mlkem_ct, mlkem_shared), seed1) /\ len mlkem_shared = 32 /\
    generate seed1 = (server_kp, seed2) /\
    build_server_hello_pq (public server_kp) mlkem_ct seed2 = (server_hello, seed3) /\
    build_certificate seed3 = (certificate, seed4) /\ build_finished seed4 = (finished, seed5) /\
    build_new_session_ticket seed5 = (new_session_ticket, seed6) /\
    derive_shared_checked server_kp client_pub = Some shared /\
    derive_keys_hybrid shared mlkem_shared = (server_to_client, client_to_server).

(** The two layouts in which a decrypted authentication message carries a
    password: after the proof, the marker and the device id, or right after the
    proof. *)
Definition carries_password (auth password : list Z) : Prop :=
  exists proof, len proof = 32 /\
    ((exists device_id, len device_id = Z.of_nat DEVICE_ID_LEN /\
        auth = proof ++ [DEVICE_MARKER] ++ device_id ++ utf8 password) \/
     auth = proof ++ utf8 password).

(** The client: seven records were read, two messages written. The proof is the
    sixth record decrypted under the exchanged key, verified over the transcript
    of exactly the records of this run; the static key returned equals the pin;
    the authentication message is encrypted under the other key; the response is
    the seventh record, decrypted by the codec the proof left. *)
Definition client_witnessed (seed : rng) (sni password device_id : list Z) (pinned : option (list Z))
  (rd wr : list (list Z)) (a : result HsError ClientHandshake) : Prop :=
  forall hc, a = Ok hc ->
  exists ch sh ccs cert fin nst pr resp auth kp shared s2c c2s proof rx text,
    Forall is_record rd /\ rd = [sh; ccs; cert; fin; nst; pr; resp] /\ wr = [ch; auth] /\ head ccs = Some 20 /\
    client_exchanged seed sni kp ch sh shared s2c c2s /\
    decrypt_packet (codec_new s2c) pr = (Ok proof, rx) /\
    verify_server_auth_message proof kp shared (handshake_transcript_hash [ch; sh; cert; fin])
      = Ok (server_static hc) /\
    (forall k, pinned = Some k -> server_static hc = k) /\
    encrypt_packet (codec_new c2s)
      (client_auth (client_proof kp shared (handshake_transcript_hash [ch; sh; cert; fin]) pinned) device_id password) []
      = (Ok auth, ch_tx hc) /\
    decrypt_packet rx resp = (Ok text, ch_rx hc) /\ starts_with AUTH_OK_PREFIX (from_utf8_lossy text) = true.

(** The server: two records were read and seven written. The second decrypts,
    under the client-to-server key of the exchange with the sender of the first,
    to an authentication message with exactly the configured password. *)
Definition server_witnessed (release : option (list Z)) (seed : rng) (sk : static_keypair) (password : list Z)
  (rd wr : list (list Z)) (a : result HsError ServerHandshake) : Prop :=
  forall hs, a = Ok hs ->
  exists hello auth_record client_pub shared s2c c2s sh cert fin nst proof tx auth ok,
    Forall is_record rd /\ rd = [hello; auth_record] /\
    wr = [sh; build_change_cipher_spec; cert; fin; nst; proof; ok] /\
    server_exchanged seed hello client_pub shared s2c c2s sh cert fin nst /\
    encrypt_packet (codec_new s2c)
      (build_server_auth_message sk client_pub shared (handshake_transcript_hash [hello; sh; cert; fin])) []
      = (Ok proof, tx) /\
    decrypt_packet (codec_new c2s) auth_record = (Ok auth, sh_rx hs) /\
    (exists presented, parse_client_auth auth = Some (Ok presented) /\ utf8 presented = utf8 password) /\
    encrypt_packet tx (ok_message release) [] = (Ok ok, sh_tx hs).

Ltac wp_err := intros ? [=].

(** Records are what the reader hands out. *)
Ltac wp_records := repeat (apply Forall_cons; split); by try apply Forall_nil.

Lemma client_authenticate_wp seed sni kp shared s2c c2s ch sh ccs cert fin nst password device_id pinned :
  Forall is_record [sh; ccs; cert; fin; nst] -> head ccs = Some 20 ->
  client_exchanged seed sni kp ch sh shared s2c c2s ->
  wp (client_authenticate kp shared (handshake_transcript_hash [ch; sh; cert; fin]) (codec_new s2c) (codec_new c2s)
        password device_id pinned)
    [sh; ccs; cert; fin; nst] [ch] (client_witnessed seed sni password device_id pinned).
Proof using QL.
  intros Hrec Hccs Hx. unfold client_authenticate. cbn [wp recv]. split; [| intros; wp_err]. intros pr Rpr.
  destruct (decrypt_packet (codec_new s2c) pr) as [[proof |] rx1] eqn:Epr; cbn [map_err try_ wp]; [| wp_err].
  destruct (verify_server_auth_message _ _ _ _) as [static |] eqn:Ev; cbn [map_err try_ wp]; [| wp_err].
  assert (forall k, pinned = Some k -> ct_eq static k = true -> static = k) as Hpin.
  { intros k _ H. rewrite ct_eq_spec in H. by apply bool_decide_eq_true in H. }
  destruct (match pinned with Some _ => _ | None => _ end) as [[] | e] eqn:Ep; cbn [try_ wp]; [| wp_err].
  destruct (encrypt_packet (codec_new c2s) _ []) as [[auth |] tx1] eqn:Ea; cbn [map_err try_ wp]; [| wp_err].
  unfold write_all. cbn [wp]. split; [| wp_err]. cbn [wp recv]. split; [| intros; wp_err]. intros resp Rresp.
  destruct (decrypt_packet rx1 resp) as [[text |] rx2] eqn:Ed; cbn [map_err try_ wp]; [| wp_err].
  destruct (starts_with AUTH_OK_PREFIX (from_utf8_lossy text)) eqn:Es; cbn [negb wp]; [| wp_err].
  intros hc [= <-]. exists ch, sh, ccs, cert, fin, nst, pr, resp, auth, kp, shared, s2c, c2s, proof, rx1, text.
  split; [rewrite !Forall_app; split_and!; wp_records || done |].
  split_and!; try done. intros k ->. apply (Hpin k eq_refl). by destruct (ct_eq static k).
Qed.

Lemma try_into_32_Some bs bs' : try_into_32 bs = Some bs' -> bs' = bs /\ len bs = 32.
Proof. unfold try_into_32. destruct (Z.eqb_spec (len bs) 32); [| done]. by intros [= ->]. Qed.

Lemma client_handshake_wp seed sni password device_id pinned :
  wp (client_handshake_inner seed sni password device_id pinned) [] []
    (client_witnessed seed sni password device_id pinned).
Proof using QL.
  unfold client_handshake_inner. destruct (generate seed) as [kp g] eqn:Eg.
  destruct (build_client_hello_pq _ _ _) as [[[ch dk] g'] |] eqn:Ech; [| done].
  unfold write_all, recv. cbn [wp]. split; [| wp_err]. split; [| intros; wp_err]. intros sh Rsh.
  destruct (parse_server_hello_pq sh) as [[ct pub] |] eqn:Esh; cbn [ok_or try_ wp]; [| wp_err].
  split; [| intros; wp_err]. intros ccs Rccs.
  destruct (bool_decide (head ccs = Some 20)) eqn:Hccs; cbn [negb wp]; [| wp_err].
  apply bool_decide_eq_true in Hccs.
  split; [| intros; wp_err]. intros cert Rcert. split; [| intros; wp_err]. intros fin Rfin.
  split; [| intros; wp_err]. intros nst Rnst.
  destruct (derive_shared_checked _ _) as [s |] eqn:Es; cbn [ok_or try_ wp]; [| wp_err].
  destruct (mlkem768_decapsulate _ _) as [m |] eqn:Em; cbn [ok_or try_ wp]; [| wp_err].
  destruct (try_into_32 m) as [m' |] eqn:Em'; cbn [ok_or try_ wp]; [| wp_err].
  apply try_into_32_Some in Em' as [-> Hm].
  destruct (derive_keys_hybrid s m) as [k1 k2] eqn:Ek.
  apply client_authenticate_wp; [wp_records | done |]. by exists g, dk, g', ct, pub, m.
Qed.

(** What [parse_client_auth] accepts carries the password it returns. *)
Lemma parse_client_auth_carries auth presented :
  bytes_ok auth -> parse_client_auth auth = Some (Ok presented) -> carries_password auth presented.
Proof.
  intros Hb. unfold parse_client_auth, carries_password.
  destruct (Z.ltb_spec (len auth) 33) as [| H33]; [by intros [=] |]. intros H.
  assert (forall l, bytes_ok (drop l auth)) as Hd by (intros l; by apply Forall_drop).
  assert (forall n, (n <= length auth)%nat -> len (take n auth) = Z.of_nat n) as Ht.
  { intros n Hn. unfold len. rewrite length_take. lia. }
  assert (forall l, from_utf8 (drop l auth) = Some presented -> drop l auth = utf8 presented) as Hu.
  { intros l Hl. by apply from_utf8_some in Hl as [-> _]. }
  assert (drop 32 auth = utf8 presented -> auth = take 32 auth ++ utf8 presented) as Hold.
  { intros <-. by rewrite take_drop. }
  unfold len in H33, H. exists (take 32 auth). split; [apply Ht; lia |].
  destruct (Z.leb_spec (33 + Z.of_nat DEVICE_ID_LEN) (Z.of_nat (length auth))); cbn [andb] in H.
  - destruct (auth !! 32%nat) as [marker |] eqn:Em; [| done]. cbn [mbind option_bind] in H.
    destruct (Z.eqb_spec marker DEVICE_MARKER) as [-> |].
    + left. exists (take DEVICE_ID_LEN (drop 33 auth)).
      destruct (from_utf8 (drop (33 + DEVICE_ID_LEN) auth)) as [s |] eqn:Eu; [| done]. simplify_eq/=.
      apply Hu in Eu as <-. split; [unfold len; rewrite length_take, length_drop; lia |].
      transitivity (take 32 auth ++ DEVICE_MARKER :: drop 33 auth); [by rewrite take_drop_middle |].
      rewrite <- (take_drop DEVICE_ID_LEN (drop 33 auth)) at 1. by rewrite drop_drop.
    + right. apply Hold, Hu. by destruct (from_utf8 _); simplify_eq/=.
  - right. apply Hold, Hu. cbn [mbind option_bind] in H. by destruct (from_utf8 _); simplify_eq/=.
Qed.

Lemma server_authenticate_wp release seed sk password hello client_pub shared s2c c2s sh cert fin nst :
  is_record hello -> server_exchanged seed hello client_pub shared s2c c2s sh cert fin nst ->
  wp (server_authenticate release
        (build_server_auth_message sk client_pub shared (handshake_transcript_hash [hello; sh; cert; fin]))
        (codec_new c2s) (codec_new s2c) password)
    [hello] [sh; build_change_cipher_spec; cert; fin; nst] (server_witnessed release seed sk password).
Proof using QL.
  intros Rhello Hx. unfold server_authenticate, write_all, recv.
  destruct (encrypt_packet (codec_new s2c) _ []) as [[pp |] tx1] eqn:Epp; cbn [map_err try_ wp]; [| wp_err].
  split; [| wp_err]. split; [| intros; wp_err]. intros auth_record Rauth.
  destruct (decrypt_packet (codec_new c2s) auth_record) as [[auth |] rx1] eqn:Ed; cbn [map_err try_ wp]; [| wp_err].
  destruct (parse_client_auth auth) as [[presented | e] |] eqn:Ep; cbn [try_ wp]; [| wp_err | done].
  destruct (ct_eq (utf8 presented) (utf8 password)) eqn:Ec; cbn [negb wp]; [| wp_err].
  rewrite ct_eq_spec in Ec. apply bool_decide_eq_true in Ec.
  destruct (encrypt_packet tx1 _ []) as [[ok |] tx2] eqn:Eo; cbn [map_err try_ wp]; [| wp_err].
  split; [| wp_err]. intros hs [= <-].
  exists hello, auth_record, client_pub, shared, s2c, c2s, sh, cert, fin, nst, pp, tx1, auth, ok.
  split_and!; try done; [wp_records | by exists presented].
Qed.

Lemma server_handshake_wp release seed sk password :
  wp (server_handshake_inner release seed sk password) [] [] (server_witnessed release seed sk password).
Proof using QL.
  unfold server_handshake_inner, write_all, recv. cbn [wp]. split; [| intros; wp_err]. intros hello Rhello.
  destruct (parse_client_hello hello) as [pub |] eqn:Epub; cbn [ok_or try_ wp]; [| wp_err].
  destruct (Z.eqb_spec (len pub) 32) as [Hpub |]; cbn [negb wp]; [| wp_err].
  destruct (try_into_32 pub) as [pub' |] eqn:Epub'; [| done]. apply try_into_32_Some in Epub' as [-> _].
  destruct (extract_client_mlkem_ek hello) as [ek |] eqn:Eek; cbn [ok_or try_ wp]; [| wp_err].
  destruct (mlkem768_encapsulate ek seed) as [[[ct m] |] g1] eqn:Ect; cbn [ok_or try_ wp]; [| wp_err].
  destruct (try_into_32 m) as [m' |] eqn:Em'; cbn [ok_or try_ wp]; [| wp_err].
  apply try_into_32_Some in Em' as [-> Hm].
  destruct (generate g1) as [kp g2] eqn:E1, (build_server_hello_pq (public kp) ct g2) as [sh g3] eqn:E2.
  destruct (build_certificate g3) as [cert g4] eqn:E3, (build_finished g4) as [fin g5] eqn:E4.
  destruct (build_new_session_ticket g5) as [nst g6] eqn:E5.
  cbn [wp]. repeat (split; [| wp_err]).
  destruct (derive_shared_checked kp pub) as [s |] eqn:Es; cbn [ok_or try_ wp]; [| wp_err].
  destruct (derive_keys_hybrid s m) as [k1 k2] eqn:Ek. apply server_authenticate_wp; [done |].
  by exists ek, ct, m, g1, kp, g2, g3, g4, g5, g6.
Qed.

(** ** No panic *)





End Lemmas.

(** ** A concrete core *)

(** Keys are integers, the shared secret is their sum, the hello carries the
    public key. *)
Definition toy_record (ty : Z) (body : list Z) : list Z := [ty; 3; 3] ++ be_encode 2 (len body) ++ body.

Lemma toy_record_is_record ty body : len body < 65536 -> is_record (toy_record ty body).
Proof.
  intros Hl. pose proof (len_nonneg body). unfold toy_record. rewrite app_assoc. split.
  - rewrite length_app. unfold HEADER. simpl. lia.
  - rewrite declared_len_app by (unfold HEADER; simpl; lia).
    change (declared_len _) with (Z.to_nat (be_decode (be_encode 2 (len body)))).
    rewrite be_decode_encode by (simpl Z.of_nat; lia).
    rewrite !length_app. unfold len, HEADER in *. simpl length. lia.
Qed.

#[export] Instance toy_core : QeliCore := {|
  rng := Z;
  keypair := Z;
  static_keypair := Z;
  mlkem_dk := unit;
  DEVICE_ID_LEN := 16;
  generate := fun g => (g, g + 1);
  public := fun k => replicate 32 k;
  static_public := fun k => replicate 32 (k mod 256);
  static_generate := fun g => g;
  from_private_bytes := fun bs => default 0 (head bs);
  private_bytes := fun k => replicate 32 (k mod 256);
  build_client_hello_pq := fun pub sni g =>
    if is_ok (validate_sni sni) then Some (toy_record 22 (take 32 pub), tt, g) else None;
  parse_client_hello := fun ch => Some (drop 5 ch);
  extract_client_mlkem_ek := fun _ => Some [];
  mlkem768_encapsulate := fun _ g => (Some (replicate 1088 0, replicate 32 9), g);
  mlkem768_decapsulate := fun _ _ => Some (replicate 32 9);
  build_server_hello_pq := fun pub ct g => (toy_record 22 (take 1088 ct ++ take 32 pub), g);
  parse_server_hello_pq := fun sh => Some (take 1088 (drop 5 sh), drop 1088 (drop 5 sh));
  build_change_cipher_spec := toy_record 20 [1];
  build_certificate := fun g => (toy_record 23 [11], g);
  build_finished := fun g => (toy_record 23 [20], g);
  build_new_session_ticket := fun g => (toy_record 23 [4], g);
  derive_shared := fun k pub => [k + default 0 (head pub)];
  derive_shared_checked := fun k pub => Some [k + default 0 (head pub)];
  derive_keys_hybrid := fun s m => (1 :: s ++ m, 2 :: s ++ m);
  handshake_transcript_hash := fun ms => concat ms;
  build_server_auth_message := fun sk _ _ _ => replicate 32 (sk mod 256) ++ replicate 32 1;
  verify_server_auth_message := fun proof _ _ _ =>
    if bool_decide (len proof = 64) then Ok (take 32 proof) else Err tt;
  compute_client_key_proof := fun _ _ _ => replicate 32 3;
  ct_eq := fun a b => bool_decide (a = b);
|}.

#[export] Instance toy_core_laws : QeliLaws toy_codec toy_core.
Proof.
  split; cbn -[toy_record validate_sni take drop replicate len].
  - done.
  - intros kp. unfold len. by rewrite length_replicate.
  - intros pub sni g ->. simpl. eauto.
  - intros kp sni g ch dk g'. destruct (is_ok _); [| done]. intros [= <- _ _].
    split.
    + by apply toy_record_is_record.
    + split; [done |]. exists []. split; [done |]. intros s. do 3 eexists. split; [done |].
      unfold len. by rewrite !length_replicate.
  - intros kp ct g sh g' Hct [<- _]%pair_equal_spec. rewrite (take_ge (replicate 32 kp)) by (by rewrite length_replicate).
    rewrite (take_ge ct) by (unfold len in Hct; lia). split.
    + apply toy_record_is_record. rewrite len_app. unfold len in *. rewrite length_replicate. lia.
    + change (drop 5 (toy_record 22 ?b)) with b. assert (length ct = 1088%nat) as Hl by (unfold len in Hct; lia).
      rewrite <- Hl. by rewrite take_app_length, drop_app_length.
  - split; [by apply toy_record_is_record | done].
  - intros g. by apply toy_record_is_record.
  - intros g. by apply toy_record_is_record.
  - intros g. by apply toy_record_is_record.
  - intros a b. exists [a + b]. split; [done |]. by rewrite Z.add_comm.
  - intros sk kp s h. reflexivity.
  - intros. reflexivity.
  - intros. reflexivity.
  - done.
  - intros sk. split; [| done]. apply Forall_replicate. apply (wrap_range 8). lia.
  - intros sk. split; [| done]. apply Forall_replicate. apply (wrap_range 8). lia.
  - intros sk. change (replicate 32 ((sk mod 256) mod 256) = replicate 32 (sk mod 256)). by rewrite Z.mod_mod.
Defined.

(** ** Properties *)

Section Properties.
Context {PC : PacketCodec} {PL : PacketCodecLaws PC} {QC : QeliCore} {QL : QeliLaws PC QC}.

(** Two honest sides, each reading the other's messages. *)
Lemma honest_handshakes release gc gs sk sni password device_id pinned :
  validate_sni sni = Ok tt -> message_ok release password device_id ->
  (forall k, pinned = Some k -> k = static_public sk) ->
  exists c2s s2c hc hs,
    (forall cs extra io, Forall (fun c => c <> []) cs -> concat cs = concat s2c ++ extra ->
       exists rest, client_handshake gc sni password device_id pinned ((ReadData <$> cs) ++ io) (replicate 2 true)
         = (Done (Ok hc), c2s, rest)) /\
    (forall cs extra io, Forall (fun c => c <> []) cs -> concat cs = concat c2s ++ extra ->
       exists rest, server_handshake release gs sk password ((ReadData <$> cs) ++ io) (replicate 7 true)
         = (Done (Ok hs), s2c, rest)) /\
    synced (ch_tx hc) (sh_rx hs) /\ synced (sh_tx hs) (ch_rx hc) /\ server_static hc = static_public sk.
Proof using QL.
  intros Hsni Hm Hpin.
  destruct (handshake_honest_recs release gc gs sk sni password device_id pinned Hsni Hm Hpin)
    as (c2s & s2c & hc & hs & Rc & Rs & Lc & Ls & Hc & Hs & Hsync).
  exists c2s, s2c, hc, hs. split; [| split; [| exact Hsync]]; intros cs extra io Hcs Hb.
  - destruct (run_proc_recs _ s2c _ _ _ [] cs extra io 2 Hc Rs Hcs Hb ltac:(lia)) as [rest Hrun].
    exists rest. unfold client_handshake. by rewrite Hrun.
  - destruct (run_proc_recs _ c2s _ _ _ [] cs extra io 7 Hs Rc Hcs Hb ltac:(lia)) as [rest Hrun].
    exists rest. unfold server_handshake. by rewrite Hrun.
Qed.

(** (C9) An honest client and an honest server that share the
    password (and the pin, if any) complete the handshake: there are two message
    sequences such that each side, reading the other's under any split into
    reads and whatever bytes follow, succeeds and writes its own; their codecs
    are then synced in both directions and the client knows the server's key. *)
Theorem handshake_agrees release gc gs sk sni password device_id pinned :
  validate_sni sni = Ok tt -> message_ok release password device_id ->
  (forall k, pinned = Some k -> k = static_public sk) ->
  exists c2s s2c hc hs,
    (forall cs extra io, Forall (fun c => c <> []) cs -> concat cs = concat s2c ++ extra ->
       exists rest, client_handshake gc sni password device_id pinned ((ReadData <$> cs) ++ io) (replicate 2 true)
         = (Done (Ok hc), c2s, rest)) /\
    (forall cs extra io, Forall (fun c => c <> []) cs -> concat cs = concat c2s ++ extra ->
       exists rest, server_handshake release gs sk password ((ReadData <$> cs) ++ io) (replicate 7 true)
         = (Done (Ok hs), s2c, rest)) /\
    synced (ch_tx hc) (sh_rx hs) /\ synced (sh_tx hs) (ch_rx hc) /\ server_static hc = static_public sk.
Proof using QL. apply honest_handshakes. Qed.

(** (C7) Whatever bytes the network delivers, the server
    handshake succeeds only if they begin with two records: a hello with which
    the server completed the key exchange, and a record that decrypts, under the
    client-to-server key of that exchange, to an authentication message that
    carries exactly the configured password, in one of its two layouts. What the
    server wrote is its flight, its identity proof over the transcript of those
    messages, encrypted under the server-to-client key, and its response; the
    codecs it returns are the ones these two records left. *)
Theorem server_requires_password release seed sk password reads writes hs out rest :
  server_handshake release seed sk password reads writes = (Done (Ok hs), out, rest) ->
  exists hello auth_record client_pub shared s2c c2s sh cert fin nst proof tx auth ok,
    is_record hello /\ is_record auth_record /\ hello ++ auth_record `prefix_of` data_of reads /\
    server_exchanged seed hello client_pub shared s2c c2s sh cert fin nst /\
    out = [sh; build_change_cipher_spec; cert; fin; nst; proof; ok] /\
    encrypt_packet (codec_new s2c)
      (build_server_auth_message sk client_pub shared (handshake_transcript_hash [hello; sh; cert; fin])) []
      = (Ok proof, tx) /\
    decrypt_packet (codec_new c2s) auth_record = (Ok auth, sh_rx hs) /\
    (exists presented, parse_client_auth auth = Some (Ok presented) /\ utf8 presented = utf8 password) /\
    (bytes_ok auth -> carries_password auth password) /\
    encrypt_packet tx (ok_message release) [] = (Ok ok, sh_tx hs).
Proof using QL.
  unfold server_handshake.
  destruct (run_proc _ [] reads writes) as [[o out'] rest'] eqn:E. intros [= Ho -> ->].
  destruct o as [a | |]; simplify_eq/=.
  destruct (wp_run _ _ _ _ _ _ _ _ _ _ (server_handshake_wp release seed sk password) E) as (rs & HQ & Hp).
  destruct (HQ hs eq_refl) as (hello & auth_record & pub & shared & s2c & c2s & sh & cert & fin & nst & proof & tx
    & auth & ok & Hrec & Hrd & Hwr & Hx & Hproof & Hd & (presented & Hpa & Hpw) & Hok).
  simpl in Hrd, Hrec, Hwr. subst rs out. rewrite !Forall_cons in Hrec. destruct Hrec as (R1 & R2 & _).
  simpl in Hp. rewrite app_nil_r in Hp.
  exists hello, auth_record, pub, shared, s2c, c2s, sh, cert, fin, nst, proof, tx, auth, ok.
  split_and!; try done; [by exists presented |].
  intros Hb. pose proof (parse_client_auth_carries _ _ Hb Hpa) as Hc. unfold carries_password in *. by rewrite <- Hpw.
Qed.

(** (C8) Whatever bytes the network delivers, the
    client handshake succeeds only if they begin with seven records such that
    the client completed the key exchange with the first (the ServerHello), the
    second is a change-cipher-spec, and the sixth, decrypted under the
    server-to-client key of that exchange, is a proof that verifies, for the
    client's own key pair and exchanged secret, over the transcript of the
    client's hello and these very records, to the static key it returns; that
    key equals the pin when there is one. The client wrote its hello and its
    authentication message, encrypted under the client-to-server key; the
    seventh record, decrypted by the codec the proof left, starts with the OK
    prefix. *)
Theorem client_authenticates_server seed sni password device_id pinned reads writes hc out rest :
  client_handshake seed sni password device_id pinned reads writes = (Done (Ok hc), out, rest) ->
  exists ch sh ccs cert fin nst pr resp auth kp shared s2c c2s proof rx text,
    Forall is_record [sh; ccs; cert; fin; nst; pr; resp] /\
    concat [sh; ccs; cert; fin; nst; pr; resp] `prefix_of` data_of reads /\
    head ccs = Some 20 /\ out = [ch; auth] /\
    client_exchanged seed sni kp ch sh shared s2c c2s /\
    decrypt_packet (codec_new s2c) pr = (Ok proof, rx) /\
    verify_server_auth_message proof kp shared (handshake_transcript_hash [ch; sh; cert; fin])
      = Ok (server_static hc) /\
    (forall k, pinned = Some k -> server_static hc = k) /\
    encrypt_packet (codec_new c2s)
      (client_auth (client_proof kp shared (handshake_transcript_hash [ch; sh; cert; fin]) pinned) device_id password) []
      = (Ok auth, ch_tx hc) /\
    decrypt_packet rx resp = (Ok text, ch_rx hc) /\ starts_with AUTH_OK_PREFIX (from_utf8_lossy text) = true.
Proof using QL.
  unfold client_handshake.
  destruct (run_proc _ [] reads writes) as [[o out'] rest'] eqn:E. intros [= Ho -> ->].
  destruct o as [a | |]; simplify_eq/=.
  destruct (wp_run _ _ _ _ _ _ _ _ _ _ (client_handshake_wp seed sni password device_id pinned) E) as (rs & HQ & Hp).
  destruct (HQ hc eq_refl) as (ch & sh & ccs & cert & fin & nst & pr & resp & auth & kp & shared & s2c & c2s & proof
    & rx & text & Hrec & Hrd & Hwr & Hccs & Hx & Hpr & Hv & Hpin & Ha & Hd & Hs).
  simpl in Hrd, Hwr, Hrec. subst rs out.
  by exists ch, sh, ccs, cert, fin, nst, pr, resp, auth, kp, shared, s2c, c2s, proof, rx, text.
Qed.


End Properties.

(** ** Witnesses *)

Definition toy_device : list Z := replicate 16 66.

Lemma toy_message_ok : message_ok None (lit "s3cret-p4ss") toy_device.
Proof. split_and!; try done; repeat constructor; unfold is_scalar; simpl; lia. Qed.

Lemma handshake_agrees_witness :
  exists c2s s2c hc hs,
    (forall cs extra io, Forall (fun c => c <> []) cs -> concat cs = concat s2c ++ extra ->
       exists rest, @client_handshake toy_codec toy_core 1 (lit "www.example.com") (lit "s3cret-p4ss") toy_device
         (Some (replicate 32 5)) ((ReadData <$> cs) ++ io) (replicate 2 true) = (Done (Ok hc), c2s, rest)) /\
    (forall cs extra io, Forall (fun c => c <> []) cs -> concat cs = concat c2s ++ extra ->
       exists rest, @server_handshake toy_codec toy_core None 2 5 (lit "s3cret-p4ss")
         ((ReadData <$> cs) ++ io) (replicate 7 true) = (Done (Ok hs), s2c, rest)) /\
    synced (ch_tx hc) (sh_rx hs) /\ synced (sh_tx hs) (ch_rx hc) /\ server_static hc = replicate 32 5.
Proof.
  apply (@handshake_agrees toy_codec toy_codec_laws toy_core toy_core_laws None 1 2 5 (lit "www.example.com")
    (lit "s3cret-p4ss") toy_device (Some (replicate 32 5))).
  - reflexivity.
  - exact toy_message_ok.
  - intros k [= <-]. reflexivity.
Defined.

(** The messages of the honest run, computed. *)
Definition toy_client_reads (extra : list Z) : list (read_event unit) :=
  match run_recs (@server_handshake_inner toy_codec toy_core None 2 5 (lit "s3cret-p4ss"))
    [toy_record 22 (replicate 32 1);
     match toy_encrypt (client_auth (replicate 32 0) toy_device (lit "s3cret-p4ss")) with Ok r => r | Err _ => [] end]
  with
  | Some (_, out, _) => [ReadData (concat out ++ extra)]
  | None => []
  end.

Definition toy_server_reads : list (read_event unit) :=
  [ReadData (toy_record 22 (replicate 32 1));
   ReadData match toy_encrypt (client_auth (replicate 32 0) toy_device (lit "s3cret-p4ss")) with
            | Ok r => r | Err _ => [] end].

Lemma server_requires_password_witness :
  exists hello auth_record client_pub shared s2c c2s sh cert fin nst,
    hello ++ auth_record `prefix_of` data_of toy_server_reads /\
    @server_exchanged toy_core 2 hello client_pub shared s2c c2s sh cert fin nst /\
    exists auth, @decrypt_packet toy_codec (codec_new c2s) auth_record = (Ok auth, tt) /\
      (bytes_ok auth -> carries_password auth (lit "s3cret-p4ss")).
Proof.
  destruct (@server_requires_password toy_codec toy_core toy_core_laws None 2 5 (lit "s3cret-p4ss")
    toy_server_reads (replicate 7 true) (@Build_ServerHandshake toy_codec tt tt)
    (@server_handshake toy_codec toy_core None 2 5 (lit "s3cret-p4ss") toy_server_reads (replicate 7 true)).1.2 [])
    as (hello & auth_record & pub & shared & s2c & c2s & sh & cert & fin & nst & proof & tx & auth & ok
        & _ & _ & Hp & Hx & _ & _ & Hd & _ & Hc & _).
  - vm_compute. reflexivity.
  - exists hello, auth_record, pub, shared, s2c, c2s, sh, cert, fin, nst.
    split; [exact Hp |]. split; [exact Hx |]. exists auth. split; [exact Hd | exact Hc].
Defined.

Lemma client_authenticates_server_witness :
  exists ch sh ccs cert fin nst pr resp kp shared s2c c2s,
    concat [sh; ccs; cert; fin; nst; pr; resp] `prefix_of` data_of (toy_client_reads []) /\
    @client_exchanged toy_core 1 (lit "www.example.com") kp ch sh shared s2c c2s /\
    exists proof, (@decrypt_packet toy_codec (codec_new s2c) pr).1 = Ok proof /\
      @verify_server_auth_message toy_core proof kp shared
        (@handshake_transcript_hash toy_core [ch; sh; cert; fin]) = Ok (replicate 32 5).
Proof.
  destruct (@client_authenticates_server toy_codec toy_core toy_core_laws 1 (lit "www.example.com")
    (lit "s3cret-p4ss") toy_device (Some (replicate 32 5)) (toy_client_reads []) (replicate 2 true)
    (@Build_ClientHandshake toy_codec tt tt (replicate 32 5))
    (@client_handshake toy_codec toy_core 1 (lit "www.example.com") (lit "s3cret-p4ss") toy_device
      (Some (replicate 32 5)) (toy_client_reads []) (replicate 2 true)).1.2 [])
    as (ch & sh & ccs & cert & fin & nst & pr & resp & auth & kp & shared & s2c & c2s & proof & rx & text
        & _ & Hp & _ & _ & Hx & Hpr & Hv & _).
  - vm_compute. reflexivity.
  - exists ch, sh, ccs, cert, fin, nst, pr, resp, kp, shared, s2c, c2s. split; [exact Hp |]. split; [exact Hx |].
    exists proof. split; [exact (f_equal fst Hpr) | exact Hv].
Defined.


(** A record that arrives in the same read as the server's response is lost:
    the handshake succeeds, and the record is in neither its result nor the
    reads left for the tunnel. *)
Lemma handshake_drops_coalesced_record :
  exists hc out,
    @client_handshake toy_codec toy_core 1 (lit "www.example.com") (lit "s3cret-p4ss") toy_device None
      (toy_client_reads (toy_record 23 [1; 2; 3])) (replicate 2 true) = (Done (Ok hc), out, []).
Proof. do 2 eexists. vm_compute. reflexivity. Qed.
