(* ===== verification/Client.v ===== *)
(** * Client: the SIP003 client side (client.rs)

    One shared tunnel, dialled lazily, and one mux stream per accepted local
    connection. The manager's operations run to their end under its mutex; what
    the outside does meanwhile (the dial's outcome, the death of the tunnel
    between two steps) is an argument of each attempt. *)

From Stdlib Require Import Ascii String.
From S2P Require Import Prelude Mux Records External RustStr NetAddr Opts Handshake Carrier.

(** ** Data *)

Record ClientTunnelConfig : Type := {
  ct_remote : SocketAddr;
  ct_password : list Z;
  ct_sni : list Z;
  ct_server_public_key : option (list Z);
  ct_ping_secs : Z;
  ct_dial_timeout : Z
}.

Definition from_opts (opts : PluginOpts) (sip : Sip003) : ClientTunnelConfig := {|
  ct_remote := remote sip;
  ct_password := password opts;
  ct_sni := sni opts;
  ct_server_public_key := server_public_key opts;
  ct_ping_secs := ping_secs opts;
  ct_dial_timeout := dial_timeout_secs opts
|}.

Inductive dial_error : Type :=
| DialTimedOut
| ConnectError
| NodelayError
| HandshakeError (e : HsError)
| HandshakePanic.

Inductive accept_error : Type :=
| TunnelError (e : dial_error)
| DiedWhileOpening (id : Z)
| OpenError (e : TunnelDown).

(** "no usable tunnel: ..." with the last error. *)
Inductive no_usable_tunnel : Type := NoUsableTunnel (last : option accept_error).

Section client.
Context {PC : PacketCodec} {TK : Tokio} {QC : QeliCore}.

Record TunnelManager : Type := mkManager {
  tm_config : ClientTunnelConfig;
  tm_device_id : list Z;
  tm_current : option Tunnel
}.

Definition set_current (o : option Tunnel) (m : TunnelManager) : TunnelManager :=
  mkManager (tm_config m) (tm_device_id m) o.

(** [TunnelManager::new]: a random device id, no tunnel. *)
Definition new (config : ClientTunnelConfig) (w : world) : TunnelManager * world :=
  let '(device_id, w) := random_bytes (Z.of_nat DEVICE_ID_LEN) w in
  (mkManager config device_id None, w).

(** What a dial meets: the deadline, a failing connect or socket option, or a
    connection with its key-generation seed, reads and write outcomes, and the
    display form of the remote address. *)
Inductive dial_event : Type :=
| DialElapsed
| ConnectFailed
| NodelayFailed
| Connected (seed : rng) (reads : list (read_event unit)) (writes : list bool) (peer : list Z) (w : world).

Definition dial (m : TunnelManager) (ev : dial_event) : result dial_error (Tunnel * list loop_name) :=
  let cfg := tm_config m in
  match ev with
  | DialElapsed => Err DialTimedOut
  | ConnectFailed => Err ConnectError
  | NodelayFailed => Err NodelayError
  | Connected seed reads writes peer w =>
      match (client_handshake seed (ct_sni cfg) (ct_password cfg) (tm_device_id m)
               (ct_server_public_key cfg) reads writes).1.1 with
      | Done (Ok _) => Ok (spawn_tunnel (ct_ping_secs cfg) peer w)
      | Done (Err e) => Err (HandshakeError e)
      | Panicked | Pending => Err HandshakePanic
      end
  end.

(** The live tunnel, or a fresh one. *)
Definition tunnel (m : TunnelManager) (ev : dial_event) : result dial_error Tunnel * TunnelManager :=
  let redial :=
    match dial m ev with
    | Ok (t, _) => (Ok t, set_current (Some t) m)
    | Err e => (Err e, m)
    end in
  match tm_current m with
  | Some t => if negb (is_dead t) then (Ok t, m) else redial
  | None => redial
  end.

(** The server never opens streams: the client's callback for an OPEN. *)
Definition client_on_open (id : Z) (t : Tunnel) : Tunnel := close id t.

(** What happens around one attempt: the dial if there is one, and the death of
    the tunnel before the OPEN is queued or while it is in flight. *)
Record attempt_env : Type := {
  ae_dial : dial_event;
  ae_before_open : option DeathCause;
  ae_after_open : option DeathCause
}.

(** One turn of the retry loop. *)
Definition attempt (m : TunnelManager) (a : attempt_env) : result accept_error Z * TunnelManager :=
  match tunnel m (ae_dial a) with
  | (Err e, m) => (Err (TunnelError e), m)
  | (Ok t, m) =>
      let '(id, t) := alloc_id t in
      let '((inbound_tx, inbound_rx), w) := mpsc_channel INBOUND_CAPACITY (env t) in
      let t := set_env w t in
      let t := (register id inbound_tx t).2 in
      let t := interfere (ae_before_open a) t in
      match open id t with
      | (Ok _, t) =>
          let t := interfere (ae_after_open a) t in
          if is_dead t then (Err (DiedWhileOpening id), set_current (Some t) m)
          else (Ok id, set_current (Some (set_env (spawn (TaskPump id inbound_rx) (env t)) t)) m)
      | (Err e, t) => (Err (OpenError e), set_current (Some t) m)
      end
  end.

Fixpoint attempts (m : TunnelManager) (last_error : option accept_error) (envs : list attempt_env)
  : result no_usable_tunnel Z * TunnelManager :=
  match envs with
  | [] => (Err (NoUsableTunnel last_error), m)
  | a :: envs =>
      match attempt m a with
      | (Ok id, m) => (Ok id, m)
      | (Err e, m) => attempts m (Some e) envs
      end
  end.

(** [for _attempt in 0..2]. *)
Definition accept_connection (m : TunnelManager) (a1 a2 : attempt_env) : result no_usable_tunnel Z * TunnelManager :=
  attempts m None [a1; a2].

(** ** Lemmas *)

Lemma interfere_none t : interfere None t = t.
Proof. reflexivity. Qed.

Lemma tunnel_ok m ev t m' :
  tunnel m ev = (Ok t, m') ->
  tm_current m' = Some t /\ dead t = false /\ tm_config m' = tm_config m /\ tm_device_id m' = tm_device_id m.
Proof.
  unfold tunnel. destruct (dial m ev) as [[t1 ls] | e] eqn:Ed.
  - assert (dead t1 = false) as H1.
    { unfold dial in Ed. destruct ev; try done. repeat case_match; try done. by injection Ed as <- <-. }
    destruct (tm_current m) as [t0 |] eqn:Ec; [destruct (dead t0) eqn:Hd |]; unfold is_dead; rewrite ?Hd; simpl;
      by intros [= <- <-].
  - destruct (tm_current m) as [t0 |] eqn:Ec; [destruct (dead t0) eqn:Hd |]; unfold is_dead; rewrite ?Hd; simpl;
      by intros [= <- <-] || done.
Qed.

Lemma register_interfere_entry k id tx t :
  dead (interfere k (register id tx t).2) = false -> registry (interfere k (register id tx t).2) = <[id := tx]> (registry t).
Proof. destruct k as [c |]; cbn [interfere]; [by rewrite kill_with_dead | done]. Qed.

Lemma interfere_alive k t : dead (interfere k t) = false -> interfere k t = t.
Proof. destruct k as [c |]; cbn [interfere]; [by rewrite kill_with_dead | done]. Qed.

Lemma interfere_dead k t : dead t = true -> dead (interfere k t) = true.
Proof. destruct k as [c |]; cbn [interfere]; [by rewrite kill_with_dead | done]. Qed.

(** What a successful attempt leaves behind on the tunnel [t0] it used: the
    stream id is the tunnel's next one; the stream was registered with one end
    of a new channel, its OPEN was queued, and its pump was given the other
    end. *)
Definition opened (t0 : Tunnel) (id : Z) (m : TunnelManager) : Prop :=
  exists t tx rx w0 w1,
    id = next_id t0 /\ tm_current m = Some t /\ dead t0 = false /\ dead t = false /\
    registry t = <[id := tx]> (registry t0) /\ next_id t = wrap 32 (id + 1) /\
    mpsc_channel INBOUND_CAPACITY (env t0) = ((tx, rx), w0) /\
    frames_send (Open id) w0 = (true, w1) /\ env t = spawn (TaskPump id rx) w1.

Lemma attempt_ok m a id m' :
  attempt m a = (Ok id, m') ->
  exists t0, (tunnel m (ae_dial a)).1 = Ok t0 /\ opened t0 id m'.
Proof.
  unfold attempt. destruct (tunnel m (ae_dial a)) as [[t0 | e] m1] eqn:Et; [| done].
  apply tunnel_ok in Et as (_ & Hd & _). unfold alloc_id.
  destruct (mpsc_channel INBOUND_CAPACITY (env _)) as [[tx rx] w0] eqn:Em.
  unfold open, send_frame.
  set (t1 := (register (next_id t0) tx (set_env w0 (set_next_id (wrap 32 (next_id t0 + 1)) t0))).2).
  destruct (frames_send (Open (next_id t0)) (env (interfere (ae_before_open a) t1))) as [[] w1] eqn:Ef; [| done].
  unfold is_dead.
  destruct (dead (interfere (ae_after_open a) (set_env w1 (interfere (ae_before_open a) t1)))) eqn:Hd2; [done |].
  rewrite (interfere_alive _ _ Hd2) in Hd2 |- *. cbn [dead set_env] in Hd2.
  pose proof (interfere_alive _ _ Hd2) as E. rewrite E in Ef, Hd2 |- *. intros [= <- <-]. exists t0. split; [done |].
  exists (set_env (spawn (TaskPump (next_id t0) rx) w1) (set_env w1 t1)), tx, rx, w0, w1. done.
Qed.

Lemma dial_fresh m ev t ls : dial m ev = Ok (t, ls) -> dead t = false /\ next_id t = 1 /\ registry t = ∅.
Proof. unfold dial. intros H. repeat case_match; try done. by injection H as <- _. Qed.

(** The tunnel an attempt is to use: a live cached one, whatever a dial would
    meet; without one, the tunnel of a fresh dial, or its error. *)
Definition to_use (m : TunnelManager) (a : attempt_env) (u : result dial_error Tunnel) : Prop :=
  (exists t, tm_current m = Some t /\ dead t = false /\ u = Ok t) \/
  ((forall t, tm_current m = Some t -> dead t = true) /\
   match dial m (ae_dial a) with
   | Ok (t, _) => u = Ok t /\ dead t = false /\ next_id t = 1 /\ registry t = ∅
   | Err e => u = Err e
   end).

(** [t0] with the attempt's stream registered. *)
Definition with_stream (t0 : Tunnel) : Tunnel :=
  let '((tx, _), w) := mpsc_channel INBOUND_CAPACITY (env t0) in
  set_env w (set_registry (<[next_id t0 := tx]> (registry t0)) (set_next_id (wrap 32 (next_id t0 + 1)) t0)).

(** Whether the frame channel takes the OPEN, in the world it is sent in. *)
Definition open_taken (t0 : Tunnel) (a : attempt_env) : bool :=
  (frames_send (Open (next_id t0)) (env (interfere (ae_before_open a) (with_stream t0)))).1.

(** Whether the tunnel is dead when the attempt last looks. *)
Definition dies (t0 : Tunnel) (a : attempt_env) : bool :=
  bool_decide (is_Some (ae_before_open a)) || open_taken t0 a && bool_decide (is_Some (ae_after_open a)).

(** The answer of an attempt. *)
Definition answer_of (a : attempt_env) (u : result dial_error Tunnel) : result accept_error Z :=
  match u with
  | Err e => Err (TunnelError e)
  | Ok t0 => if negb (open_taken t0 a) then Err (OpenError tunnel_is_down)
             else if dies t0 a then Err (DiedWhileOpening (next_id t0)) else Ok (next_id t0)
  end.

(** What it leaves to the next one: the manager, or the tunnel it used, dead or
    alive, with its stream id spent. *)
Definition leaves (m : TunnelManager) (a : attempt_env) (u : result dial_error Tunnel) (m' : TunnelManager) : Prop :=
  match u with
  | Err _ => m' = m
  | Ok t0 => exists t, tm_current m' = Some t /\ dead t = dies t0 a /\ next_id t = wrap 32 (next_id t0 + 1) /\
               tm_config m' = tm_config m /\ tm_device_id m' = tm_device_id m
  end.

Lemma tunnel_to_use m a : to_use m a (tunnel m (ae_dial a)).1.
Proof.
  unfold to_use, tunnel, is_dead. destruct (tm_current m) as [t |] eqn:Ec.
  - destruct (dead t) eqn:Hd; simpl; [right; split; [by intros ? [= <-] |] | left; eauto].
    destruct (dial m (ae_dial a)) as [[t1 ls] | e] eqn:Edial; [| done]. split; [done |]. apply dial_fresh in Edial as (? & ? & ?). by split_and!.
  - right. split; [done |].
    destruct (dial m (ae_dial a)) as [[t1 ls] | e] eqn:Edial; [| done]. split; [done |]. apply dial_fresh in Edial as (? & ? & ?). by split_and!.
Qed.

Lemma tunnel_err m ev e m' : tunnel m ev = (Err e, m') -> m' = m.
Proof. unfold tunnel. intros H. by repeat case_match; simplify_eq. Qed.

Lemma interfere_is_dead k t : dead (interfere k t) = dead t || bool_decide (is_Some k).
Proof.
  destruct k as [c |]; cbn [interfere].
  - rewrite kill_with_dead, bool_decide_true by eauto. by rewrite orb_true_r.
  - rewrite bool_decide_false by (by intros [? [=]]). by rewrite orb_false_r.
Qed.

Lemma interfere_next_id k t : next_id (interfere k t) = next_id t.
Proof. destruct k as [c |]; cbn [interfere]; [| done]. unfold kill_with, kill, record_cause. by destruct (death_cause t) eqn:E; simpl; rewrite ?E. Qed.

(** An attempt's answer and what it leaves. *)
Lemma attempt_spec m a :
  let u := (tunnel m (ae_dial a)).1 in
  (attempt m a).1 = answer_of a u /\ leaves m a u (attempt m a).2.
Proof.
  unfold attempt. destruct (tunnel m (ae_dial a)) as [[t0 | e] m1] eqn:Et; simpl fst; cycle 1.
  { split; [done |]. by apply tunnel_err in Et as ->. }
  apply tunnel_ok in Et as (_ & Hd & Hcfg & Hdev). unfold alloc_id, answer_of, leaves, dies, open_taken.
  unfold with_stream. cbn [env set_next_id].
  destruct (mpsc_channel INBOUND_CAPACITY (env t0)) as [[tx rx] w0].
  cbn [register snd].
  set (t1 := interfere (ae_before_open a) _).
  assert (dead t1 = bool_decide (is_Some (ae_before_open a))) as H1 by (unfold t1; rewrite interfere_is_dead; cbn; by rewrite Hd).
  assert (next_id t1 = wrap 32 (next_id t0 + 1)) as Hn1 by (unfold t1; by rewrite interfere_next_id).
  clearbody t1. unfold open, send_frame. destruct (frames_send (Open (next_id t0)) (env t1)) as [[] w1]; cbn [fst negb andb].
  - unfold is_dead. rewrite interfere_is_dead. cbn [dead set_env]. rewrite H1.
    destruct (bool_decide (is_Some (ae_before_open a)) || bool_decide (is_Some (ae_after_open a))) eqn:E.
    + split; [done |]. eexists. split; [done |]. rewrite interfere_is_dead, interfere_next_id. simpl. by rewrite H1, E.
    + split; [done |]. eexists. split; [done |]. cbn [dead next_id set_env].
      rewrite interfere_is_dead, interfere_next_id. simpl. by rewrite H1, E.
  - split; [done |]. eexists. split; [done |]. cbn [dead next_id set_env]. by rewrite H1, Hn1, orb_false_r.
Qed.

(** (C30) Serving a local connection: one retry, and no more. Each attempt
    uses a live cached tunnel without dialling, and dials a fresh one otherwise;
    it fails when that dial does, when the frame channel does not take the OPEN,
    and when the tunnel dies around the OPEN, and succeeds otherwise, with the
    tunnel's next stream id. A first attempt that succeeds answers the
    connection; after one that fails in any of these ways, the second, on the
    manager the first left, does, and if it fails too, the error names its
    cause. Success means that the stream was registered before its OPEN was
    queued, on a tunnel alive before and after, and that its pump was spawned. *)
Theorem accept_connection_spec m a1 a2 :
  (forall id m', accept_connection m a1 a2 = (Ok id, m') -> exists t0, opened t0 id m') /\
  exists u1, to_use m a1 u1 /\
    match answer_of a1 u1 with
    | Ok id => (accept_connection m a1 a2).1 = Ok id
    | Err _ =>
        exists m1 u2, leaves m a1 u1 m1 /\ to_use m1 a2 u2 /\
          (accept_connection m a1 a2).1 =
            match answer_of a2 u2 with
            | Ok id => Ok id
            | Err e => Err (NoUsableTunnel (Some e))
            end
    end.
Proof.
  unfold accept_connection. cbn [attempts]. split.
  - intros id m'. destruct (attempt m a1) as [[id1 | e1] m1] eqn:E1.
    + intros [= <- <-]. by apply attempt_ok in E1 as (t0 & _ & Ho); eauto.
    + destruct (attempt m1 a2) as [[id2 | e2] m2] eqn:E2; [| done].
      intros [= <- <-]. by apply attempt_ok in E2 as (t0 & _ & Ho); eauto.
  - exists (tunnel m (ae_dial a1)).1. split; [apply tunnel_to_use |].
    pose proof (attempt_spec m a1) as [H1 L1]. rewrite <- H1. destruct (attempt m a1) as [[id1 | e1] m1]; [done |].
    exists m1, (tunnel m1 (ae_dial a2)).1. split; [done |]. split; [apply tunnel_to_use |].
    pose proof (attempt_spec m1 a2) as [H2 _]. rewrite <- H2. by destruct (attempt m1 a2) as [[id2 | e2] m2].
Qed.

(** An OPEN from the server is answered with CLOSE, but not ignored: the reader
    has already registered it, so a stream of that id loses its channel to one
    whose receiver is dropped, and the entry stays. *)
Lemma client_open_replaces_stream id t tx rx w :
  mpsc_channel INBOUND_CAPACITY (env t) = ((tx, rx), w) ->
  registry (client_on_open id (dispatch (Open id) t)) = <[id := tx]> (registry t).
Proof.
  intros Hm. unfold client_on_open. destruct (close_env id (dispatch (Open id) t)) as [w' ->].
  cbn [dispatch]. by rewrite Hm.
Qed.

End client.

(** ** Witnesses *)

Definition toy_config : ClientTunnelConfig := {|
  ct_remote := V4 203 0 113 10 8443;
  ct_password := lit "s3cret-p4ss";
  ct_sni := lit "www.example.com";
  ct_server_public_key := Some (replicate 32 5);
  ct_ping_secs := 2;
  ct_dial_timeout := 10
|}.

Definition toy_attempt (k : option DeathCause) : @attempt_env sure_tokio toy_core := {|
  ae_dial := @Connected sure_tokio toy_core 1 (toy_client_reads []) (replicate 2 true) (lit "203.0.113.10:8443") [];
  ae_before_open := None;
  ae_after_open := k
|}.

Definition toy_manager (o : option (@Tunnel sure_tokio)) : @TunnelManager sure_tokio :=
  mkManager toy_config toy_device o.

(** A cached tunnel that dies around the OPEN: the retry dials and serves. *)
Lemma accept_connection_spec_witness :
  let m := toy_manager (Some (@spawn_tunnel sure_tokio 2 [] []).1) in
  let r := @accept_connection toy_codec sure_tokio toy_core m (toy_attempt (Some PeerClosed)) (toy_attempt None) in
  r.1 = Ok 1 /\ exists t0, opened t0 1 r.2.
Proof.
  intros m r. assert (r = (Ok 1, r.2)) as Hr by (vm_compute; reflexivity).
  split; [exact (f_equal fst Hr) |].
  apply (@accept_connection_spec toy_codec sure_tokio toy_core m (toy_attempt (Some PeerClosed)) (toy_attempt None)).
  exact Hr.
Defined.
