(* ===== verification/Manager.v ===== *)
(** * Manager: concurrent connections over one tunnel (src/client.rs, run and TunnelManager)

    [Client] runs one connection's attempts without interruption. Here the
    accept loop of [run] spawns a task per local connection and the tasks
    interleave: a task is a program counter between two awaits of
    [accept_connection] or [tunnel], a step is what runs up to the next await,
    the manager's mutex and the bounded frame channel of each tunnel are part of
    the state, and the tunnels' own loops and pumps act between any two steps.
    The tunnels are those of [Carrier], changed by its operations. *)

From Stdlib Require Import Ascii String.
From S2P Require Import Prelude Mux Records External RustStr Opts Handshake Carrier Client.

(** ** State *)

(** Where a connection's task is: [n] is the number of the attempt, [k] the
    tunnel it was given (an index into the tunnels dialled so far), [id] its
    stream. [CtLocked] and [CtDialing] hold the mutex. *)
Inductive ctask {receiver : Type} : Type :=
| CtLock (n : nat) (last : option accept_error)
| CtLocked (n : nat)
| CtDialing (n : nat)
| CtAlloc (n k : nat)
| CtRegister (n k : nat) (id : Z)
| CtOpen (n k : nat) (id : Z) (inbound : receiver)
| CtCheck (n k : nat) (id : Z) (inbound : receiver)
| CtPumping (k : nat) (id : Z)
| CtRefused (last : option accept_error).
Arguments ctask receiver : clear implicits.

(** The next attempt, or the refusal after the second. *)
Definition retry {receiver} (n : nat) (e : accept_error) : ctask receiver :=
  if (S n <? 2)%nat then CtLock (S n) (Some e) else CtRefused (Some e).

(** A tunnel's frame channel: the frames queued, or [None] when its receiver, the
    writer's, has been dropped. *)
Abbreviation frame_channel := (option (list Frame)).

(** No send is completed on it: it has no room, and a receiver. *)
Definition full (c : frame_channel) : bool :=
  match c with Some q => (FRAME_CHANNEL_CAPACITY <=? length q)%nat | None => false end.

Section manager.
Context {PC : PacketCodec} {TK : Tokio} {QC : QeliCore}.
Variable config : ClientTunnelConfig.
Variable device_id : list Z.

Record client_state : Type := mkClient {
  cs_tunnels : list Tunnel;
  cs_frames : list frame_channel;
  cs_current : option nat;
  cs_mutex : option nat;
  cs_tasks : list (ctask receiver);
}.

Definition client_init : client_state := mkClient [] [] None None [].

(** [TunnelManager::current] *)
Definition current (s : client_state) : option Tunnel :=
  match cs_current s with
  | Some k => cs_tunnels s !! k
  | None => None
  end.

(** What a dial of this manager returns. *)
Definition dials (ev : dial_event) : result dial_error (Tunnel * list loop_name) :=
  dial (mkManager config device_id None) ev.

(** ** Steps of task number [i] *)

Inductive ctask_step (i : nat)
  : list Tunnel -> list frame_channel -> option nat -> option nat -> ctask receiver ->
    list Tunnel -> list frame_channel -> option nat -> option nat -> ctask receiver -> Prop :=
| ct_lock ts fs cur n e :
    (* self.current.lock().await *)
    ctask_step i ts fs cur None (CtLock n e) ts fs cur (Some i) (CtLocked n)
| ct_cached ts fs k t m n :
    (* a live cached tunnel is returned, the guard dropped *)
    ts !! k = Some t -> is_dead t = false ->
    ctask_step i ts fs (Some k) m (CtLocked n) ts fs (Some k) None (CtAlloc n k)
| ct_redial ts fs cur m n :
    (* no tunnel, or a dead one: dial, under the lock *)
    (forall k t, cur = Some k -> ts !! k = Some t -> is_dead t = true) ->
    ctask_step i ts fs cur m (CtLocked n) ts fs cur m (CtDialing n)
| ct_dialled ts fs cur m n ev t loops :
    dials ev = Ok (t, loops) ->
    ctask_step i ts fs cur m (CtDialing n)
      (ts ++ [t]) (fs ++ [Some []]) (Some (length ts)) None (CtAlloc n (length ts))
| ct_dial_failed ts fs cur m n ev e :
    dials ev = Err e ->
    ctask_step i ts fs cur m (CtDialing n) ts fs cur None (retry n (TunnelError e))
| ct_alloc ts fs cur m n k t :
    ts !! k = Some t ->
    ctask_step i ts fs cur m (CtAlloc n k)
      (<[k := (alloc_id t).2]> ts) fs cur m (CtRegister n k (alloc_id t).1)
| ct_register ts fs cur m n k id t tx rx w :
    (* the channel is made and its sender registered *)
    ts !! k = Some t -> mpsc_channel INBOUND_CAPACITY (env t) = ((tx, rx), w) ->
    ctask_step i ts fs cur m (CtRegister n k id)
      (<[k := (register id tx (set_env w t)).2]> ts) fs cur m (CtOpen n k id rx)
| ct_open ts fs cur m n k id rx q :
    (* handle().open(id).await: waits until the frame channel has room *)
    fs !! k = Some (Some q) -> full (Some q) = false ->
    ctask_step i ts fs cur m (CtOpen n k id rx)
      ts (<[k := Some (q ++ [Open id])]> fs) cur m (CtCheck n k id rx)
| ct_open_failed ts fs cur m n k id rx :
    (* ... or until its receiver is gone *)
    fs !! k = Some None ->
    ctask_step i ts fs cur m (CtOpen n k id rx) ts fs cur m (retry n (OpenError tunnel_is_down))
| ct_died ts fs cur m n k id rx t :
    ts !! k = Some t -> is_dead t = true ->
    ctask_step i ts fs cur m (CtCheck n k id rx) ts fs cur m (retry n (DiedWhileOpening id))
| ct_pump ts fs cur m n k id rx t :
    ts !! k = Some t -> is_dead t = false ->
    ctask_step i ts fs cur m (CtCheck n k id rx)
      (<[k := set_env (spawn (TaskPump id rx) (env t)) t]> ts) fs cur m (CtPumping k id).

(** What the others do to a tunnel's frame channel: the pumps, the reader and the
    keepalive queue frames, the writer takes them and drops its receiver when it
    returns, after it has killed the tunnel. *)
Inductive frames_step (t : Tunnel) : frame_channel -> frame_channel -> Prop :=
| fc_queue q f : full (Some q) = false -> frames_step t (Some q) (Some (q ++ [f]))
| fc_take f q : frames_step t (Some (f :: q)) (Some q)
| fc_drop q : is_dead t = true -> frames_step t (Some q) None.

(** What the loops, the pumps and a kill do to a tunnel. Ids and registrations
    come from the connection tasks (and from the reader, for a peer's OPEN). *)
Definition background (o : tunnel_op) : bool :=
  match o with
  | OpAlloc | OpRegister _ _ => false
  | _ => true
  end.

Inductive client_step : client_state -> client_state -> Prop :=
| cl_accept s :
    (* the accept loop spawns a task; a failed accept only logs *)
    client_step s
      (mkClient (cs_tunnels s) (cs_frames s) (cs_current s) (cs_mutex s) (cs_tasks s ++ [CtLock 0 None]))
| cl_task s i p ts fs cur m p' :
    cs_tasks s !! i = Some p ->
    ctask_step i (cs_tunnels s) (cs_frames s) (cs_current s) (cs_mutex s) p ts fs cur m p' ->
    client_step s (mkClient ts fs cur m (<[i := p']> (cs_tasks s)))
| cl_tunnel s k t o :
    cs_tunnels s !! k = Some t -> background o = true ->
    client_step s
      (mkClient (<[k := run_op o t]> (cs_tunnels s)) (cs_frames s) (cs_current s) (cs_mutex s) (cs_tasks s))
| cl_frames s k t c c' :
    cs_tunnels s !! k = Some t -> cs_frames s !! k = Some c -> frames_step t c c' ->
    client_step s
      (mkClient (cs_tunnels s) (<[k := c']> (cs_frames s)) (cs_current s) (cs_mutex s) (cs_tasks s)).

Definition client_reachable (s : client_state) : Prop := star client_step client_init s.

(** ** What a program counter says *)

Definition holds_mutex (p : ctask receiver) : bool :=
  match p with CtLocked _ | CtDialing _ => true | _ => false end.

Definition uses (p : ctask receiver) : option nat :=
  match p with
  | CtAlloc _ k | CtRegister _ k _ | CtOpen _ k _ _ | CtCheck _ k _ _ | CtPumping k _ => Some k
  | _ => None
  end.

(** The stream a task has on a tunnel. *)
Definition stream_of (p : ctask receiver) : option (nat * Z) :=
  match p with
  | CtRegister _ k id | CtOpen _ k id _ | CtCheck _ k id _ | CtPumping k id => Some (k, id)
  | _ => None
  end.

(** The ids a task has allocated at most. *)
Definition allocs (p : ctask receiver) : nat :=
  match p with
  | CtLock n _ | CtLocked n | CtDialing n | CtAlloc n _ => Nat.min n 2
  | CtRegister n _ _ | CtOpen n _ _ _ | CtCheck n _ _ _ => Nat.min (S n) 2
  | CtPumping _ _ | CtRefused _ => 2
  end.

Definition finished (p : ctask receiver) : bool :=
  match p with CtPumping _ _ | CtRefused _ => true | _ => false end.

Definition attempt_of (p : ctask receiver) : nat :=
  match p with
  | CtLock n _ | CtLocked n | CtDialing n | CtAlloc n _ | CtRegister n _ _ | CtOpen n _ _ _
  | CtCheck n _ _ _ => n
  | CtPumping _ _ | CtRefused _ => 0
  end.

(** The steps a task has left at most: seven in each of its two attempts. *)
Definition rank (p : ctask receiver) : nat :=
  match p with
  | CtLock n _ => 7 * (1 - n) + 7
  | CtLocked n => 7 * (1 - n) + 6
  | CtDialing n => 7 * (1 - n) + 5
  | CtAlloc n _ => 7 * (1 - n) + 4
  | CtRegister n _ _ => 7 * (1 - n) + 3
  | CtOpen n _ _ _ => 7 * (1 - n) + 2
  | CtCheck n _ _ _ => 7 * (1 - n) + 1
  | CtPumping _ _ | CtRefused _ => 0
  end.

(** ** Invariants *)

(** Exactly the task at [CtLocked] or [CtDialing], if any, holds the mutex. *)
Definition mutex_inv (s : client_state) : Prop :=
  (forall i p, cs_tasks s !! i = Some p -> holds_mutex p = true -> cs_mutex s = Some i) /\
  (forall i, cs_mutex s = Some i -> exists p, cs_tasks s !! i = Some p /\ holds_mutex p = true).

(** A live tunnel is the cached one, and nobody dials while there is one. *)
Definition live_inv (s : client_state) : Prop :=
  (forall k, cs_current s = Some k -> (k < length (cs_tunnels s))%nat) /\
  (forall k t, cs_tunnels s !! k = Some t -> dead t = false -> cs_current s = Some k) /\
  (forall i n k t, cs_tasks s !! i = Some (CtDialing n) -> cs_tunnels s !! k = Some t -> dead t = true).

(** Every tunnel has its frame channel, which is bounded. *)
Definition frames_inv (s : client_state) : Prop :=
  (length (cs_frames s) = length (cs_tunnels s))%nat /\
  forall k q, cs_frames s !! k = Some (Some q) -> (length q <= FRAME_CHANNEL_CAPACITY)%nat.

(** Tasks use existing tunnels and make at most two attempts. *)
Definition task_inv (s : client_state) : Prop :=
  forall i p, cs_tasks s !! i = Some p ->
    (forall k, uses p = Some k -> (k < length (cs_tunnels s))%nat) /\ (attempt_of p < 2)%nat.

Lemma retry_cases n e :
  (retry (receiver := receiver) n e = CtLock (S n) (Some e) /\ (S n < 2)%nat) \/
  retry (receiver := receiver) n e = CtRefused (Some e).
Proof. unfold retry. destruct (Nat.ltb_spec (S n) 2); [by left | by right]. Qed.

Lemma dials_fresh ev t loops : dials ev = Ok (t, loops) -> dead t = false /\ next_id t = 1 /\ registry t = ∅.
Proof. apply dial_fresh. Qed.

Lemma run_op_dead o t : dead t = true -> dead (run_op o t) = true.
Proof.
  intros Hd. destruct o; cbn [run_op]; try done.
  - unfold open. by rewrite send_frame_env.
  - unfold send. by destruct (send_chunks_env id (chunks (Z.to_nat MAX_DATA) data) t) as [w ->].
  - by destruct (close_env id t) as [w ->].
  - unfold ping. destruct (random_bytes KEEPALIVE_LEN (env t)). by rewrite send_frame_env.
  - by destruct (deliver_kept id payload t) as (-> & _).
  - by destruct (log_kept who c t) as (-> & _).
  - by destruct (dispatch_kept f t) as (-> & _).
Qed.

Lemma run_op_next_id o t : background o = true -> next_id (run_op o t) = next_id t.
Proof.
  intros Hb. destruct o; cbn [run_op]; try done.
  - unfold open. by rewrite send_frame_env.
  - unfold send. by destruct (send_chunks_env id (chunks (Z.to_nat MAX_DATA) data) t) as [w ->].
  - by destruct (close_env id t) as [w ->].
  - unfold ping. destruct (random_bytes KEEPALIVE_LEN (env t)). by rewrite send_frame_env.
  - by destruct (deliver_kept id payload t) as (_ & _ & -> & _).
  - by destruct (kill_with_kept c t) as (-> & _).
  - rewrite kill_eq. by destruct (kill_with_kept Killed t) as (-> & _).
  - by destruct (log_kept who c t) as (_ & _ & _ & -> & _).
  - by destruct (dispatch_kept f t) as (_ & _ & -> & _).
Qed.

(** What a step of a connection's task does to the tunnels: nothing, a change
    of one that keeps its death flag, or a fresh one. *)
Inductive tunnels_change : list Tunnel -> list Tunnel -> Prop :=
| tc_same ts : tunnels_change ts ts
| tc_update ts k t t' :
    ts !! k = Some t -> (dead t = true -> dead t' = true) -> next_id t' = next_id t ->
    tunnels_change ts (<[k := t']> ts).

(** Every tunnel afterwards was there before, no more alive and with the same
    counter. *)
Lemma tunnels_change_back ts ts' :
  tunnels_change ts ts' ->
  length ts' = length ts /\
  forall k t', ts' !! k = Some t' ->
    exists t, ts !! k = Some t /\ (dead t = true -> dead t' = true) /\ next_id t' = next_id t.
Proof.
  destruct 1 as [ts | ts k t t' Hk Hd Hn]; [split; [done | eauto] |].
  split; [apply length_insert |]. intros j u Hu.
  destruct (lookup_moved _ _ _ _ _ _ Hk Hu) as [[-> ->] | [_ Hj]]; eauto.
Qed.

(** A step of a task is one of three kinds; the kinds carry what the invariants
    need of the eleven rules. *)
Lemma ctask_step_kind i ts fs cur m p ts' fs' cur' m' p' :
  ctask_step i ts fs cur m p ts' fs' cur' m' p' ->
  (* taking the mutex, or moving on with it kept *)
  (cur' = cur /\ tunnels_change ts ts' /\ holds_mutex p = false /\ holds_mutex p' = false /\ m' = m
     /\ (forall x, stream_of p' = Some x -> stream_of p = Some x)) \/
  (cur' = cur /\ tunnels_change ts ts' /\ (exists n e, p = CtLock n e) /\ (exists n, p' = CtLocked n)
     /\ m = None /\ m' = Some i) \/
  (cur' = cur /\ ts' = ts /\ (exists n, p = CtLocked n /\ p' = CtDialing n) /\ m' = m /\
     (forall k t, cur = Some k -> ts !! k = Some t -> dead t = true)) \/
  (cur' = cur /\ ts' = ts /\ holds_mutex p = true /\ holds_mutex p' = false /\ m' = None
     /\ stream_of p' = None) \/
  (exists n t, p = CtDialing n /\ cur' = Some (length ts) /\ ts' = ts ++ [t] /\ dead t = false /\
     next_id t = 1 /\ p' = CtAlloc n (length ts) /\ m' = None) \/
  (exists n k t, p = CtAlloc n k /\ cur' = cur /\ m' = m /\ ts !! k = Some t /\
     ts' = <[k := (alloc_id t).2]> ts /\ p' = CtRegister n k (next_id t)).
Proof.
  destruct 1 as [ts fs cur n e | ts fs k t m n Hk Hd | ts fs cur m n Hd | ts fs cur m n ev t loops He
    | ts fs cur m n ev e He | ts fs cur m n k t Hk | ts fs cur m n k id t tx rx w Hk Hm
    | ts fs cur m n k id rx q Hk Hq | ts fs cur m n k id rx Hk | ts fs cur m n k id rx t Hk Hd
    | ts fs cur m n k id rx t Hk Hd].
  - right; left. eauto 10 using tunnels_change.
  - do 3 right; left. done.
  - do 2 right; left. eauto 10.
  - do 4 right; left. apply dials_fresh in He as (Hd & Hn & _). by exists n, t.
  - do 3 right; left. destruct (retry_cases n (TunnelError e)) as [[-> _] | ->]; done.
  - do 5 right. by exists n, k, t.
  - left. split_and!; try done. by eapply tc_update.
  - left. split_and!; try done; constructor.
  - left. destruct (retry_cases n (OpenError tunnel_is_down)) as [[-> _] | ->]; split_and!; try done; constructor.
  - left. destruct (retry_cases n (DiedWhileOpening id)) as [[-> _] | ->]; split_and!; try done; constructor.
  - left. split_and!; try done. by eapply tc_update.
Qed.

Ltac kinds H :=
  apply ctask_step_kind in H as
    [(Hcur & Hts & Hp & Hp' & Hm & Hstr)
    | [(Hcur & Hts & (n & e & Hp) & (n' & Hp') & Hm & Hm')
    | [(Hcur & Hts & (n & Hp & Hp') & Hm & Hd)
    | [(Hcur & Hts & Hp & Hp' & Hm & Hstr)
    | [(n & t & Hp & Hcur & Hts & Hd & Hn & Hp' & Hm)
    | (n & k & t & Hp & Hcur & Hm & Hk & Hts & Hp')]]]]].

Lemma step_mutex_inv s s' : client_step s s' -> mutex_inv s -> mutex_inv s'.
Proof.
  intros Hs [H1 H2]. destruct Hs as [s | s i p ts fs cur m p' Hi Ht | s k t o Hk Hb | s k t c c' Hk Hc Hf]; [| | by split..].
  - split; simpl.
    + intros j q [[_ Hj] | [_ <-]]%lookup_snoc_Some Hq; [by eapply H1 | done].
    + intros j Hj. destruct (H2 j Hj) as (q & Hq & Hh). exists q. split; [| done].
      by apply lookup_app_l_Some.
  - assert (forall q, <[i := p']> (cs_tasks s) !! i = Some q -> q = p') as Hself.
    { intros q. rewrite list_lookup_insert_eq by (by eapply lookup_lt_Some). by intros [= ->]. }
    assert (forall j, j <> i -> <[i := p']> (cs_tasks s) !! j = cs_tasks s !! j) as Hoth.
    { intros j Hj. by apply list_lookup_insert_ne. }
    assert (<[i := p']> (cs_tasks s) !! i = Some p') as Hat
      by (apply list_lookup_insert_eq; by eapply lookup_lt_Some).
    split; simpl.
    + intros j q Hj Hq. destruct (decide (j = i)) as [-> | Hne].
      * apply Hself in Hj as ->. kinds Ht; subst; simpl in *; try congruence.
        by apply (H1 i (CtLocked n)).
      * rewrite Hoth in Hj by done. pose proof (H1 _ _ Hj Hq) as Hm1.
        kinds Ht; subst; simpl in *; try congruence.
        -- pose proof (H1 _ _ Hi Hp). congruence.
        -- pose proof (H1 _ _ Hi eq_refl). congruence.
    + intros j Hj. destruct (decide (j = i)) as [-> | Hne].
      * exists p'. split; [done |]. kinds Ht; subst; try done.
        -- destruct (H2 i Hj) as (q & Hq & Hh). congruence.
        -- destruct (H2 i Hj) as (q & Hq & Hh). by simplify_eq.
      * rewrite Hoth by done. kinds Ht; subst; try congruence; by apply H2.
Qed.

Lemma step_live_inv s s' : client_step s s' -> mutex_inv s -> live_inv s -> live_inv s'.
Proof.
  intros Hs [Hm1 Hm2] (H1 & H2 & H3).
  destruct Hs as [s | s i p ts fs cur m p' Hi Ht | s k t o Hk Hb | s k t c c' Hk Hc Hf]; [| | | done].
  - split_and!; simpl; [done | done |].
    intros i n k t [[_ Hj] | [_ Hj]]%lookup_snoc_Some; [by eapply H3 | done].
  - assert (forall j n, <[i := p']> (cs_tasks s) !! j = Some (CtDialing n) ->
      p' = CtDialing n \/ (j <> i /\ cs_tasks s !! j = Some (CtDialing n))) as Hdl.
    { intros j n Hj. destruct (lookup_moved _ _ _ _ _ _ Hi Hj) as [[-> ->] | ?]; auto. }
    kinds Ht; subst; simpl.
    1, 2: destruct (tunnels_change_back _ _ Hts) as [Hl Hback]; split_and!; simpl;
      [by rewrite Hl | |
       intros j nj kj tj [Hx | [_ Hj]]%Hdl Hkj; [by simplify_eq/= |];
       destruct (Hback _ _ Hkj) as (t0 & Ht0 & Hd0 & _); by apply Hd0, (H3 j nj kj)];
      intros j u Hu Hud; destruct (Hback _ _ Hu) as (t0 & Ht0 & Hd0 & _);
      apply (H2 j t0 Ht0); destruct (dead t0); [by rewrite Hd0 in Hud | done].
    + split_and!; simpl; [done | done |]. intros j nj kj tj _ Hkj.
      destruct (dead tj) eqn:E; [done |]. pose proof (H2 _ _ Hkj E) as Hc. by rewrite (Hd _ _ Hc Hkj) in E.
    + split_and!; simpl; [done | done |]. intros j nj kj tj [Hx | [_ Hj]]%Hdl Hkj; [by simplify_eq/= | by eapply H3].
    + assert (forall k u, cs_tunnels s !! k = Some u -> dead u = true) as Hall by (intros; by eapply H3).
      split_and!; simpl.
      * intros k [= <-]. rewrite length_app. simpl. lia.
      * intros k u [[_ Hu] | [-> _]]%lookup_snoc_Some Hud; [| done]. by rewrite (Hall _ _ Hu) in Hud.
      * intros j nj kj tj [? | [Hne Hj]]%Hdl; [done |].
        pose proof (Hm1 _ _ Hi eq_refl). pose proof (Hm1 _ _ Hj eq_refl). congruence.
    + pose proof (tc_update _ _ t (alloc_id t).2 Hk (fun H => H)) as Hch.
      split_and!; simpl.
      * intros j Hj. rewrite length_insert. by apply H1.
      * intros j u Hu Hud. destruct (lookup_moved _ _ _ _ _ _ Hk Hu) as [[-> ->] | [_ Hj]]; by eapply H2.
      * intros j nj kj tj [? | [_ Hj]]%Hdl Hkj; [done |].
        destruct (lookup_moved _ _ _ _ _ _ Hk Hkj) as [[-> ->] | [_ Hkj']]; [by apply (H3 j nj k t) | by eapply H3].
  - split_and!; simpl.
    + intros j Hj. rewrite length_insert. by apply H1.
    + intros j u Hu Hud. destruct (lookup_moved _ _ _ _ _ _ Hk Hu) as [[-> ->] | [_ Hj]]; [| by eapply H2].
      apply (H2 k t Hk). destruct (dead t) eqn:E; [by rewrite (run_op_dead o t E) in Hud | done].
    + intros j nj kj tj Hj Hkj.
      destruct (lookup_moved _ _ _ _ _ _ Hk Hkj) as [[-> ->] | [_ Hkj']]; [| by eapply H3].
      apply run_op_dead. by eapply H3.
Qed.
(** What a step does to its own task. *)
Lemma ctask_step_local i ts fs cur m p ts' fs' cur' m' p' :
  ctask_step i ts fs cur m p ts' fs' cur' m' p' ->
  (forall k, cur = Some k -> (k < length ts)%nat) ->
  (forall k, uses p = Some k -> (k < length ts)%nat) -> (attempt_of p < 2)%nat ->
  (length ts <= length ts')%nat /\ (forall k, uses p' = Some k -> (k < length ts')%nat) /\
  (attempt_of p' < 2)%nat /\ (rank p' < rank p)%nat /\ (allocs p <= allocs p')%nat.
Proof.
  assert (forall n e, (n < 2)%nat ->
    uses (retry (receiver := receiver) n e) = None /\
    (attempt_of (retry (receiver := receiver) n e) < 2)%nat /\
    (rank (retry (receiver := receiver) n e) < 7 * (1 - n) + 1)%nat /\
    (Nat.min (S n) 2 <= allocs (retry (receiver := receiver) n e))%nat) as Hretry.
  { intros n e Hn. destruct (retry_cases n e) as [[-> HS] | ->]; simpl; split_and!; (done || lia). }
  intros Hs Hcur Hu Ha.
  assert (forall k (t : Tunnel), length (<[k := t]> ts) = length ts) as Hl by (intros; apply length_insert).
  destruct Hs; simpl in *; rewrite ?Hl, ?length_app; simpl;
    try (match goal with |- context [retry ?n ?e] => destruct (Hretry n e Ha) as (-> & ? & ? & ?) end);
    split_and!; try done; try lia; try (intros ? [= <-]); eauto with lia.
Qed.

Lemma step_task_inv s s' : client_step s s' -> live_inv s -> task_inv s -> task_inv s'.
Proof.
  intros Hs (Hc & _) Hi. destruct Hs as [s | s i p ts fs cur m p' Hp Ht | s k t o Hk Hb | s k t c c' Hk Hfc Hf]; intros j q Hj; simpl in *.
  - apply lookup_snoc_Some in Hj as [[_ Hj] | [_ <-]]; [by apply (Hi j) | by split; simpl; [| lia]].
  - destruct (Hi _ _ Hp) as [Hu Ha].
    destruct (ctask_step_local _ _ _ _ _ _ _ _ _ _ _ Ht Hc Hu Ha) as (Hl & Hu' & Ha' & _).
    destruct (lookup_moved _ _ _ _ _ _ Hp Hj) as [[-> ->] | [_ Hj']]; [done |].
    destruct (Hi _ _ Hj') as [Huj Haj]. split; [| done]. intros k Hk. specialize (Huj k Hk). lia.
  - rewrite length_insert. by apply (Hi j).
  - by apply (Hi j).
Qed.

(** ** Stream ids *)

Definition total_allocs (s : client_state) : nat := sum_list (allocs <$> cs_tasks s).

(** Fewer connections than ids: the 32-bit counter does not wrap around. *)
Definition few_connections (s : client_state) : Prop := 1 + 2 * len (cs_tasks s) < 2 ^ 32.

Definition ids_inv (s : client_state) : Prop :=
  (forall k t, cs_tunnels s !! k = Some t -> 1 <= next_id t <= 1 + Z.of_nat (total_allocs s)) /\
  (forall i p k id t, cs_tasks s !! i = Some p -> stream_of p = Some (k, id) ->
     cs_tunnels s !! k = Some t -> 1 <= id < next_id t) /\
  (forall i j p q x, cs_tasks s !! i = Some p -> cs_tasks s !! j = Some q ->
     stream_of p = Some x -> stream_of q = Some x -> i = j).

Lemma total_allocs_bound s : Z.of_nat (total_allocs s) <= 2 * len (cs_tasks s).
Proof.
  unfold total_allocs, len. pose proof (sum_bound allocs 2 (cs_tasks s)) as Hb.
  assert (forall p, allocs p <= 2)%nat as H2 by (intros []; simpl; lia). specialize (Hb H2). lia.
Qed.

Lemma step_tasks_len s s' : client_step s s' -> len (cs_tasks s) <= len (cs_tasks s').
Proof. unfold len. destruct 1; simpl; rewrite ?length_app, ?length_insert; lia. Qed.

(** Tunnels only change by updates that keep the counter: nothing to show. *)
Lemma ids_inv_change s ts' fs cur m :
  tunnels_change (cs_tunnels s) ts' -> ids_inv s -> ids_inv (mkClient ts' fs cur m (cs_tasks s)).
Proof.
  intros Hc (H1 & H2 & H3). destruct (tunnels_change_back _ _ Hc) as [_ Hb]. split_and!; simpl; [| | done].
  - intros k t Hk. destruct (Hb _ _ Hk) as (t0 & Hk0 & _ & ->). by apply (H1 k).
  - intros i p k id t Hp Hx Hk. destruct (Hb _ _ Hk) as (t0 & Hk0 & _ & ->). by apply (H2 i p k id).
Qed.

(** A task moves on with the stream it had, or drops it. *)
Lemma ids_inv_moved ts fs cur m ps i p p' :
  ids_inv (mkClient ts fs cur m ps) -> ps !! i = Some p -> (allocs p <= allocs p')%nat ->
  (forall x, stream_of p' = Some x -> stream_of p = Some x) ->
  ids_inv (mkClient ts fs cur m (<[i := p']> ps)).
Proof.
  intros (H1 & H2 & H3) Hp Hal Hx. pose proof (sum_moved allocs _ _ _ p' Hp) as Hsum.
  assert (forall j q x, <[i := p']> ps !! j = Some q -> stream_of q = Some x ->
    exists q0, ps !! j = Some q0 /\ stream_of q0 = Some x) as Hb.
  { intros j q x Hj Hq. destruct (lookup_moved _ _ _ _ _ _ Hp Hj) as [[-> ->] | [_ Hj']]; eauto. }
  unfold total_allocs in H1. split_and!; simpl in *.
  - intros k t Hk. specialize (H1 _ _ Hk). unfold total_allocs. simpl. lia.
  - intros j q k id t Hj Hq Hk. destruct (Hb _ _ _ Hj Hq) as (q0 & Hj0 & Hq0). by apply (H2 j q0 k id).
  - intros j j' q q' x Hj Hj' Hq Hq'. destruct (Hb _ _ _ Hj Hq) as (q0 & Hj0 & Hq0).
    destruct (Hb _ _ _ Hj' Hq') as (q1 & Hj1 & Hq1). by apply (H3 j j' q0 q1 x).
Qed.

(** A task takes the tunnel's next id. *)
Lemma ids_inv_alloc ts fs fs' cur m ps i p p' k t :
  ids_inv (mkClient ts fs cur m ps) -> ps !! i = Some p -> (S (allocs p) <= allocs p')%nat ->
  1 + 2 * len ps < 2 ^ 32 -> ts !! k = Some t -> stream_of p' = Some (k, next_id t) ->
  ids_inv (mkClient (<[k := (alloc_id t).2]> ts) fs' cur m (<[i := p']> ps)).
Proof.
  intros (H1 & H2 & H3) Hp Hal Hf Hk Hx. pose proof (sum_moved allocs _ _ _ p' Hp) as Hsum.
  pose proof (total_allocs_bound (mkClient ts fs cur m (<[i := p']> ps))) as Htot.
  unfold total_allocs, len in *. cbn [cs_tunnels cs_tasks] in *. rewrite length_insert in Htot. pose proof (H1 _ _ Hk) as Hkb.
  assert (next_id (alloc_id t).2 = next_id t + 1) as Hnext by (apply (wrap_small 32); uint).
  revert Hnext. generalize (alloc_id t).2. intros t1 Hnext. split_and!; cbn [cs_tunnels cs_tasks].
  - intros k' t' Hk'. unfold total_allocs. cbn [cs_tasks].
    destruct (lookup_moved _ _ _ _ _ _ Hk Hk') as [[-> ->] | [_ Hk0]]; [| specialize (H1 _ _ Hk0)]; lia.
  - intros j q k' id t' Hj Hq Hk'.
    destruct (lookup_moved _ _ _ _ _ _ Hp Hj) as [[-> ->] | [_ Hj0]],
      (lookup_moved _ _ _ _ _ _ Hk Hk') as [[-> ->] | [Hne Hk0]]; simplify_eq; try lia.
    + pose proof (H2 _ _ _ _ _ Hj0 Hq Hk). lia.
    + by apply (H2 j q k' id).
  - intros j j' q q' x Hj Hj' Hq Hq'.
    destruct (lookup_moved _ _ _ _ _ _ Hp Hj) as [[-> ->] | [_ Hj0]],
      (lookup_moved _ _ _ _ _ _ Hp Hj') as [[-> ->] | [_ Hj1]]; simplify_eq; try done.
    + pose proof (H2 _ _ _ _ _ Hj1 Hq' Hk). lia.
    + pose proof (H2 _ _ _ _ _ Hj0 Hq Hk). lia.
    + by apply (H3 j j' q q' x).
Qed.

(** A fresh tunnel has handed out no id yet, and no task is using it. *)
Lemma ids_inv_dialled ts fs fs' cur cur' m m' ps t :
  ids_inv (mkClient ts fs cur m ps) -> next_id t = 1 ->
  (forall i p k, ps !! i = Some p -> uses p = Some k -> (k < length ts)%nat) ->
  ids_inv (mkClient (ts ++ [t]) fs' cur' m' ps).
Proof.
  intros (H1 & H2 & H3) Hn Hu. split_and!; simpl in *; [| | done].
  - intros k t' [[_ Hk] | [_ <-]]%lookup_snoc_Some; [by apply (H1 k) | lia].
  - intros j q k id t' Hj Hq [[_ Hk] | [-> <-]]%lookup_snoc_Some; [by apply (H2 j q k id) |].
    assert (uses q = Some (length ts)) as Hq' by (by destruct q; simplify_eq/=).
    pose proof (Hu _ _ _ Hj Hq'). lia.
Qed.

Lemma step_ids_inv s s' :
  client_step s s' -> few_connections s -> live_inv s -> task_inv s -> ids_inv s -> ids_inv s'.
Proof.
  intros Hs Hf (Hc & _) Hi Hids.
  destruct Hs as [s | s i p ts fs cur m p' Hpi Ht | s k t o Hk Hb | s k t c c' Hk Hfc Hstep]; [| | | by destruct Hids].
  - destruct Hids as (H1 & H2 & H3). split_and!; simpl.
    + intros k t Hk. unfold total_allocs. cbn [cs_tasks]. rewrite sum_snoc. specialize (H1 _ _ Hk).
      unfold total_allocs in H1. lia.
    + intros j q k id t [[_ Hj] | [_ <-]]%lookup_snoc_Some; [by apply (H2 j q) | done].
    + intros j j' q q' x [[_ Hj] | [_ <-]]%lookup_snoc_Some [[_ Hj'] | [_ <-]]%lookup_snoc_Some; try done.
      by apply (H3 j j' q q' x).
  - destruct (Hi _ _ Hpi) as [Hu Ha].
    destruct (ctask_step_local _ _ _ _ _ _ _ _ _ _ _ Ht Hc Hu Ha) as (_ & _ & _ & _ & Hal).
    kinds Ht; subst.
    1-4: eapply ids_inv_moved; [eapply ids_inv_change; [(eassumption || apply tc_same) | done] | done | done |];
      intros x Hx; solve [by apply Hstr | by rewrite Hstr in Hx | done].
    + eapply ids_inv_moved; [apply (ids_inv_dialled _ (cs_frames s) _ (cs_current s) _ (cs_mutex s)); [| exact Hn |] | exact Hpi | exact Hal | done].
      * by destruct s.
      * intros j q k Hj Hq. by apply (Hi j q).
    + eapply (ids_inv_alloc _ (cs_frames s)); [by destruct s | exact Hpi | simpl in *; lia | exact Hf | exact Hk | done].
  - eapply ids_inv_change; [| done]. eapply tc_update; [exact Hk | apply run_op_dead | by apply run_op_next_id].
Qed.

(** ** Reachable states *)

Lemma step_frames_inv s s' : client_step s s' -> frames_inv s -> frames_inv s'.
Proof.
  intros Hs [Hl Hb].
  assert (forall (fs : list frame_channel) k (q : list Frame), (forall j q', fs !! j = Some (Some q') -> (length q' <= FRAME_CHANNEL_CAPACITY)%nat) ->
    (length q <= FRAME_CHANNEL_CAPACITY)%nat ->
    forall j q', <[k := Some q]> fs !! j = Some (Some q') -> (length q' <= FRAME_CHANNEL_CAPACITY)%nat) as Hins.
  { intros fs k q Hfs Hq j q' [(_ & [= ->] & _) | [_ Hj]]%list_lookup_insert_Some; [done | by eapply Hfs]. }
  assert (forall (q : list Frame) f, full (Some q) = false -> (length (q ++ [f]) <= FRAME_CHANNEL_CAPACITY)%nat) as Hq.
  { intros q f Hf. cbn [full] in Hf. apply Nat.leb_gt in Hf. rewrite length_app. simpl. lia. }
  destruct Hs as [s | s i p ts fs cur m p' Hi Ht | s k t o Hk Ho | s k t c c' Hk Hc Hf]; [done | | |].
  - unfold frames_inv. destruct Ht; simpl; rewrite ?length_app, ?length_insert, ?Hl; try done.
    + split; [done |]. intros j q [[_ Hj] | [_ [= <-]]]%lookup_snoc_Some; [by eapply Hb | simpl; lia].
    + split; [done |]. eapply Hins; eauto.
  - split; simpl; [by rewrite length_insert | done].
  - split; simpl; [by rewrite length_insert |]. destruct Hf as [q f Hf | f q | q Hd].
    + eapply Hins; eauto.
    + eapply Hins; [done |]. specialize (Hb _ _ Hc). simpl in Hb. lia.
    + intros j q' [(_ & [=] & _) | [_ Hj]]%list_lookup_insert_Some. by eapply Hb.
Qed.

Lemma reachable_all s : client_reachable s -> mutex_inv s /\ live_inv s /\ task_inv s /\ frames_inv s.
Proof.
  intros Hr. eapply (star_invariant client_step (fun s => mutex_inv s /\ live_inv s /\ task_inv s /\ frames_inv s));
    [| exact Hr |].
  - intros s1 s2 Hs (H1 & H2 & H3 & H4).
    split_and!; [by eapply step_mutex_inv | by eapply step_live_inv | by eapply step_task_inv | by eapply step_frames_inv].
  - repeat split; simpl; intros; by simplify_eq.
Qed.

Lemma reachable_inv s : client_reachable s -> mutex_inv s /\ live_inv s /\ task_inv s.
Proof. intros Hr. by destruct (reachable_all s Hr) as (? & ? & ? & _). Qed.

Lemma reachable_ids s : client_reachable s -> few_connections s -> ids_inv s.
Proof.
  intros Hr. pose proof (reachable_inv s Hr) as Hi. revert Hi.
  enough (client_reachable s /\ (few_connections s -> ids_inv s)) as [_ H] by done.
  eapply (star_invariant client_step (fun s => client_reachable s /\ (few_connections s -> ids_inv s)));
    [| exact Hr |].
  - intros s1 s2 Hs [Hr1 Hi]. split; [eapply star_trans; [exact Hr1 | by apply star_one] |].
    intros Hf. destruct (reachable_inv s1 Hr1) as (_ & H2 & H3).
    assert (few_connections s1) as Hf1.
    { unfold few_connections in *. pose proof (step_tasks_len _ _ Hs). lia. }
    eapply step_ids_inv; eauto.
  - split; [apply star_refl |]. intros _. repeat split; simpl; intros; by simplify_eq.
Qed.

(** ** Progress *)

(** The task at [p], number [i], has a step of its own. *)
Definition can_step (s : client_state) (i : nat) (p : ctask receiver) : Prop :=
  exists ts fs cur m p', ctask_step i (cs_tunnels s) (cs_frames s) (cs_current s) (cs_mutex s) p ts fs cur m p'.

(** What a task waits for: the mutex, or room in its tunnel's frame channel. *)
Definition waits (s : client_state) (p : ctask receiver) : Prop :=
  (exists n e j, p = CtLock n e /\ cs_mutex s = Some j) \/
  (exists n k id rx q, p = CtOpen n k id rx /\ cs_frames s !! k = Some (Some q) /\
     length q = FRAME_CHANNEL_CAPACITY).

Lemma task_can_step s i p :
  live_inv s -> task_inv s -> frames_inv s -> cs_tasks s !! i = Some p -> finished p = false ->
  can_step s i p \/ waits s p.
Proof.
  intros (Hc & _) Hi [Hl Hb] Hp Hf. destruct (Hi i p Hp) as [Hu _].
  assert (forall k, uses p = Some k -> exists t c, cs_tunnels s !! k = Some t /\ cs_frames s !! k = Some c) as Ht.
  { intros k Hk. destruct (lookup_lt_is_Some_2 (cs_tunnels s) k) as [t Htk]; [by apply Hu |].
    destruct (lookup_lt_is_Some_2 (cs_frames s) k) as [c Hck]; [rewrite Hl; by apply Hu |]. by exists t, c. }
  unfold can_step.
  destruct p as [n e | n | n | n k | n k id | n k id rx | n k id rx | k id | e]; try discriminate Hf;
    try (destruct (Ht k eq_refl) as (t & c & Hk & Hck)).
  - destruct (cs_mutex s) as [j |] eqn:Em; [right; left; eauto 10 | left]. do 5 eexists. apply ct_lock.
  - left. destruct (cs_current s) as [k |].
    + destruct (lookup_lt_is_Some_2 (cs_tunnels s) k (Hc k eq_refl)) as [t Hk].
      destruct (is_dead t) eqn:Hd; do 5 eexists; [eapply ct_redial | by eapply ct_cached].
      intros k' t' [= <-] Hk'. by simplify_eq.
    + do 5 eexists. by eapply ct_redial.
  - left. do 5 eexists. by apply (ct_dial_failed _ _ _ _ _ _ DialElapsed DialTimedOut).
  - left. do 5 eexists. by eapply ct_alloc.
  - left. destruct (mpsc_channel INBOUND_CAPACITY (env t)) as [[tx rx] w] eqn:Em.
    do 5 eexists. by eapply ct_register.
  - destruct c as [q |]; [| left; do 5 eexists; by eapply ct_open_failed].
    destruct (full (Some q)) eqn:Eq; [| left; do 5 eexists; by eapply ct_open].
    right. right. exists n, k, id, rx, q. split_and!; [done | done |].
    cbn [full] in Eq. apply Nat.leb_le in Eq. specialize (Hb _ _ Hck). lia.
  - left. destruct (is_dead t) eqn:Hd; do 5 eexists; [by eapply ct_died | by eapply ct_pump].
Qed.

(** The task that holds the mutex does not wait. *)
Lemma holder_can_step s :
  mutex_inv s -> live_inv s -> task_inv s -> frames_inv s -> forall j, cs_mutex s = Some j ->
  exists q, cs_tasks s !! j = Some q /\ can_step s j q.
Proof.
  intros [_ Hm] Hl Ht Hf j Hj. destruct (Hm j Hj) as (q & Hq & Hh). exists q. split; [done |].
  destruct (task_can_step s j q Hl Ht Hf Hq) as [| [(? & ? & ? & -> & _) | (? & ? & ? & ? & ? & -> & _)]]; try done.
  by destruct q.
Qed.

(** A step of a connection's task, or of a writer that takes a frame. *)
Inductive serving_step : client_state -> client_state -> Prop :=
| ss_task s i p ts fs cur m p' :
    cs_tasks s !! i = Some p ->
    ctask_step i (cs_tunnels s) (cs_frames s) (cs_current s) (cs_mutex s) p ts fs cur m p' ->
    serving_step s (mkClient ts fs cur m (<[i := p']> (cs_tasks s)))
| ss_take s k f q :
    cs_frames s !! k = Some (Some (f :: q)) ->
    serving_step s
      (mkClient (cs_tunnels s) (<[k := Some q]> (cs_frames s)) (cs_current s) (cs_mutex s) (cs_tasks s)).

Lemma serving_client_step s s' : frames_inv s -> serving_step s s' -> client_step s s'.
Proof.
  intros [Hl _] Hs. destruct Hs as [s i p ts fs cur m p' Hi Hs | s k f q Hk]; [by eapply cl_task |].
  destruct (lookup_lt_is_Some_2 (cs_tunnels s) k) as [t Ht].
  { rewrite <- Hl. by eapply lookup_lt_Some. }
  eapply cl_frames; [exact Ht | exact Hk | apply fc_take].
Qed.

Definition total_rank (s : client_state) : nat := sum_list (rank <$> cs_tasks s).

Lemma all_or_unfinished (ps : list (ctask receiver)) :
  Forall (fun p => finished p = true) ps \/ exists i p, ps !! i = Some p /\ finished p = false.
Proof.
  induction ps as [| p ps [IH | (i & q & Hi & Hq)]]; [by left | |].
  - destruct (finished p) eqn:E; [left; by constructor | right; by exists 0%nat, p].
  - right. by exists (S i), q.
Qed.

(** Some task can go on, once a writer has taken a frame if need be. *)
Lemma some_task_can_step s i p :
  mutex_inv s -> live_inv s -> task_inv s -> frames_inv s -> cs_tasks s !! i = Some p -> finished p = false ->
  exists s1 j q, star serving_step s s1 /\ cs_tasks s1 = cs_tasks s /\ cs_tasks s1 !! j = Some q /\ can_step s1 j q.
Proof.
  intros Hm Hl Ht Hf Hp Hfin.
  destruct (task_can_step s i p Hl Ht Hf Hp Hfin) as [Hs | [(n & e & j & -> & Hj) | (n & k & id & rx & q & -> & Hk & Hq)]].
  - exists s, i, p. split_and!; [apply star_refl | done..].
  - destruct (holder_can_step s Hm Hl Ht Hf j Hj) as (q & Hq & Hs).
    exists s, j, q. split_and!; [apply star_refl | done..].
  - destruct q as [| f q]; [done |]. eexists _, i, _. split_and!.
    + apply star_one. by apply (ss_take s k f q).
    + done.
    + exact Hp.
    + unfold can_step. simpl. do 5 eexists. eapply ct_open.
      * apply list_lookup_insert_eq. by eapply lookup_lt_Some.
      * cbn [full]. apply Nat.leb_gt. simpl in Hq. lia.
Qed.

Lemma serving_reachable s s' : client_reachable s -> star serving_step s s' -> client_reachable s'.
Proof.
  intros Hr Hs. induction Hs as [| s1 s2 s3 Hs _ IH]; [done |]. apply IH.
  eapply star_trans; [exact Hr |]. apply star_one. apply serving_client_step; [apply (reachable_all s1 Hr) | done].
Qed.

Lemma run_to_answers s :
  client_reachable s ->
  exists s', star serving_step s s' /\ length (cs_tasks s') = length (cs_tasks s) /\
    Forall (fun p => finished p = true) (cs_tasks s').
Proof.
  remember (total_rank s) as r eqn:Er. revert s Er.
  induction (lt_wf r) as [r _ IH]. intros s -> Hr.
  destruct (all_or_unfinished (cs_tasks s)) as [Hall | (i & p & Hi & Hp)].
  { exists s. split; [apply star_refl | done]. }
  destruct (reachable_all s Hr) as (H1 & H2 & H3 & H4).
  destruct (some_task_can_step s i p H1 H2 H3 H4 Hi Hp) as (s1 & j & q & Hs1 & Htasks & Hj & ts & fs & cur & m & q' & Hs).
  pose proof (serving_reachable _ _ Hr Hs1) as Hr1.
  pose proof (ss_task s1 j q ts fs cur m q' Hj Hs) as Hstep.
  destruct (reachable_inv s1 Hr1) as (_ & (Hc & _) & Ht1). destruct (Ht1 j q Hj) as [Hu Ha].
  destruct (ctask_step_local _ _ _ _ _ _ _ _ _ _ _ Hs Hc Hu Ha) as (_ & _ & _ & Hrank & _).
  pose proof (sum_moved rank _ _ _ q' Hj) as Hsum.
  destruct (IH (total_rank (mkClient ts fs cur m (<[j := q']> (cs_tasks s1))))
    ltac:(unfold total_rank in *; simpl; rewrite Htasks in *; lia) _ eq_refl) as (s' & Hstar & Hl & Hfin).
  { eapply serving_reachable; [exact Hr1 | by apply star_one]. }
  exists s'. split_and!; [| | done].
  - eapply star_trans; [exact Hs1 |]. by eapply star_step.
  - rewrite Hl. simpl. by rewrite length_insert, Htasks.
Qed.

(** ** Properties *)

(** (C10) One tunnel: in every state the client can reach,
    whatever its connections, the dials and the deaths of tunnels do, at most
    one tunnel is alive and it is the cached one; at most one connection dials
    at a time, and only when every tunnel dialled before is dead. *)
Theorem single_live_tunnel s :
  client_reachable s ->
  (forall k t, cs_tunnels s !! k = Some t -> dead t = false -> cs_current s = Some k) /\
  (forall i j n n', cs_tasks s !! i = Some (CtDialing n) -> cs_tasks s !! j = Some (CtDialing n') -> i = j) /\
  (forall i n k t, cs_tasks s !! i = Some (CtDialing n) -> cs_tunnels s !! k = Some t -> dead t = true).
Proof.
  intros Hr. destruct (reachable_inv s Hr) as ([Hm _] & (_ & H2 & H3) & _). split_and!; [done | | done].
  intros i j n n' Hi Hj. pose proof (Hm _ _ Hi eq_refl). pose proof (Hm _ _ Hj eq_refl). congruence.
Qed.

(** (C11) Streams are not mixed up: while fewer than 2^31
    connections have been accepted, two connections never share a stream id on
    one tunnel, from its allocation until the pump runs, however their tasks
    interleave; and no stream has id 0. *)
Theorem streams_distinct s i j p q k id :
  client_reachable s -> few_connections s ->
  cs_tasks s !! i = Some p -> cs_tasks s !! j = Some q ->
  stream_of p = Some (k, id) -> stream_of q = Some (k, id) -> i = j /\ 1 <= id.
Proof.
  intros Hr Hf Hi Hj Hp Hq. destruct (reachable_ids s Hr Hf) as (_ & H2 & H3).
  split; [by eapply H3 |]. destruct (reachable_inv s Hr) as (_ & _ & Ht).
  destruct (Ht i p Hi) as [Hu _].
  destruct (lookup_lt_is_Some_2 (cs_tunnels s) k) as [t Hk]; [apply Hu; by destruct p; simplify_eq/= |].
  by destruct (H2 i p k id t Hi Hp Hk).
Qed.

(** (C22) Every connection is answered. A connection's task takes at most 14
    steps, seven in each of its two attempts: each of its own steps lowers its
    rank, and it is never made to start over. It is kept from its next step by
    two things only: the mutex, whose holder is then able to step, and a full
    frame channel of a tunnel whose writer has not returned, when it queues its
    OPEN. So if the tunnels' writers take the frames queued for them, there is
    no deadlock: from every reachable state, the tasks and such steps of the
    writers alone can run until each connection has its pump or has been
    refused. *)
Theorem connections_answered s :
  client_reachable s ->
  (forall i p ts fs cur m p', cs_tasks s !! i = Some p ->
     ctask_step i (cs_tunnels s) (cs_frames s) (cs_current s) (cs_mutex s) p ts fs cur m p' ->
     (rank p' < rank p <= 14)%nat) /\
  (forall i p, cs_tasks s !! i = Some p -> finished p = false -> can_step s i p \/ waits s p) /\
  (forall j, cs_mutex s = Some j -> exists q, cs_tasks s !! j = Some q /\ can_step s j q) /\
  exists s', star serving_step s s' /\ length (cs_tasks s') = length (cs_tasks s) /\
    Forall (fun p => finished p = true) (cs_tasks s').
Proof.
  intros Hr. destruct (reachable_all s Hr) as (H1 & H2 & H3 & H4).
  split; [| split; [intros; by eapply task_can_step | split; [by apply holder_can_step | by apply run_to_answers]]].
  intros i p ts fs cur m p' Hi Hs. destruct (H3 i p Hi) as [Hu Ha]. pose proof (proj1 H2) as Hc.
  destruct (ctask_step_local _ _ _ _ _ _ _ _ _ _ _ Hs Hc Hu Ha) as (_ & _ & _ & Hrank & _).
  split; [done |]. destruct p; simpl; lia.
Qed.

End manager.

(** ** Witnesses *)

Definition toy_dialled : @Tunnel sure_tokio :=
  (@spawn_tunnel sure_tokio 2 (lit "203.0.113.10:8443") []).1.

(** One connection accepted; it has dialled; it has its stream id. *)
Definition toy_accepted_state : @client_state sure_tokio := mkClient [] [] None None [CtLock 0 None].
Definition toy_dialled_state : @client_state sure_tokio :=
  mkClient [toy_dialled] [Some []] (Some 0%nat) None [CtAlloc 0 0].
Definition toy_stream_state : @client_state sure_tokio :=
  mkClient [(alloc_id toy_dialled).2] [Some []] (Some 0%nat) None [CtRegister 0 0 1].

Lemma toy_accepted_reachable :
  @client_reachable toy_codec sure_tokio toy_core toy_config toy_device toy_accepted_state.
Proof. apply star_one. exact (cl_accept toy_config toy_device client_init). Defined.

Lemma toy_dialled_reachable :
  @client_reachable toy_codec sure_tokio toy_core toy_config toy_device toy_dialled_state.
Proof.
  eapply star_trans; [exact toy_accepted_reachable |].
  apply (star_step _ _ (mkClient [] [] None (Some 0%nat) [CtLocked 0])).
  { apply (cl_task _ _ toy_accepted_state 0 (CtLock 0 None) [] [] None (Some 0%nat) (CtLocked 0)); [reflexivity |].
    apply ct_lock. }
  apply (star_step _ _ (mkClient [] [] None (Some 0%nat) [CtDialing 0])).
  { apply (cl_task _ _ (mkClient [] [] None (Some 0%nat) [CtLocked 0]) 0 (CtLocked 0) [] [] None (Some 0%nat)
      (CtDialing 0)); [reflexivity |]. by apply ct_redial. }
  apply star_one.
  apply (cl_task _ _ (mkClient [] [] None (Some 0%nat) [CtDialing 0]) 0 (CtDialing 0) [toy_dialled] [Some []]
    (Some 0%nat) None (CtAlloc 0 0)); [reflexivity |].
  apply (ct_dialled _ _ 0 [] [] None (Some 0%nat) 0 (ae_dial (toy_attempt None)) toy_dialled
    [WriterLoop; ReaderLoop; KeepaliveLoop]).
  vm_compute. reflexivity.
Defined.

Lemma toy_stream_reachable :
  @client_reachable toy_codec sure_tokio toy_core toy_config toy_device toy_stream_state.
Proof.
  eapply star_trans; [exact toy_dialled_reachable |]. apply star_one.
  apply (cl_task _ _ toy_dialled_state 0 (CtAlloc 0 0) [(alloc_id toy_dialled).2] [Some []] (Some 0%nat) None
    (CtRegister 0 0 1)); [reflexivity |].
  apply (ct_alloc _ _ _ [toy_dialled] [Some []] (Some 0%nat) None 0 0 toy_dialled). reflexivity.
Defined.

Lemma single_live_tunnel_witness : cs_current toy_dialled_state = Some 0%nat.
Proof.
  apply (proj1 (@single_live_tunnel toy_codec sure_tokio toy_core toy_config toy_device toy_dialled_state
    toy_dialled_reachable) 0%nat toy_dialled); reflexivity.
Defined.

Lemma streams_distinct_witness : 0%nat = 0%nat /\ 1 <= 1.
Proof.
  apply (@streams_distinct toy_codec sure_tokio toy_core toy_config toy_device toy_stream_state 0 0
    (CtRegister 0 0 1) (CtRegister 0 0 1) 0 1 toy_stream_reachable); reflexivity.
Defined.

Lemma connections_answered_witness :
  exists s', star (@serving_step toy_codec sure_tokio toy_core toy_config toy_device) toy_dialled_state s' /\
    length (cs_tasks s') = 1%nat /\ Forall (fun p => finished p = true) (cs_tasks s').
Proof.
  apply (@connections_answered toy_codec sure_tokio toy_core toy_config toy_device toy_dialled_state),
    toy_dialled_reachable.
Defined.
