(* ===== verification/Server.v ===== *)
(** * Server: the SIP003 server side (server.rs)

    [handle_conn] authenticates a connection and starts its tunnel; [on_open]
    connects each opened stream to the destination; [serve] is a step relation
    whose steps are those of its select loop, of the connection tasks it spawns
    and of the shutdown, which run concurrently with them. *)

From Stdlib Require Import Ascii String.
From S2P Require Import Prelude Mux Records External RustStr NetAddr Opts Handshake Carrier.

Section server.
Context {PC : PacketCodec} {TK : Tokio} {QC : QeliCore}.

Record ServerConfig : Type := {
  static_kp : static_keypair;
  sc_password : list Z;
  destination : SocketAddr;
  sc_ping_secs : Z;
  dial_timeout : Z
}.

(** The identity [run] serves with: the configured key, or a fresh one. *)
Definition server_identity (server_private_key : option (list Z)) (seed : rng) : static_keypair :=
  match server_private_key with
  | Some bytes => from_private_bytes bytes
  | None => static_generate seed
  end.

(** The configuration [run] serves. *)
Definition server_config (opts : PluginOpts) (sip : Sip003) (seed : rng) : ServerConfig := {|
  static_kp := server_identity (server_private_key opts) seed;
  sc_password := password opts;
  destination := local sip;
  sc_ping_secs := ping_secs opts;
  dial_timeout := dial_timeout_secs opts
|}.

(** A connection: the seed of its key generation, its reads and write outcomes,
    the display form of its peer address (empty when there is none). *)
Record connection : Type := {
  cn_seed : rng;
  cn_reads : list (read_event unit);
  cn_writes : list bool;
  cn_peer : list Z;
  cn_world : world
}.

(** Up to the tunnel; [None] when the authentication failed. *)
Definition handle_conn (release : option (list Z)) (cfg : ServerConfig) (io : connection) : option Tunnel :=
  match (server_handshake release (cn_seed io) (static_kp cfg) (sc_password cfg) (cn_reads io) (cn_writes io)).1.1 with
  | Done (Ok _) => Some (spawn_tunnel (sc_ping_secs cfg) (cn_peer io) (cn_world io)).1
  | Done (Err _) | Panicked | Pending => None
  end.

(** The outcome of [timeout(dial_timeout, TcpStream::connect(destination))]. *)
Inductive connect_outcome : Type :=
| UpstreamConnected
| UpstreamFailed
| UpstreamElapsed.

Definition server_on_open (o : connect_outcome) (id : Z) (inbound_rx : receiver) (t : Tunnel) : Tunnel :=
  match o with
  | UpstreamConnected => set_env (spawn (TaskPump id inbound_rx) (env t)) t
  | UpstreamFailed | UpstreamElapsed => close id (remove id t).2
  end.

(** ** The server process *)

(** Serving, killing the drained tunnels one by one, stopped. *)
Inductive phase : Type :=
| Serving
| Killing (killed todo : list nat)
| Stopped (killed : list nat).

(** Tunnels are shared objects, kept in a store; [ss_live] is the list of live
    tunnels, [ss_conns] counts the connection tasks still authenticating and
    [ss_pushing] holds the tunnels whose task has not added them yet. *)
Record server_state : Type := mkServer {
  ss_phase : phase;
  ss_store : gmap nat Tunnel;
  ss_live : list nat;
  ss_conns : nat;
  ss_pushing : list nat
}.

Definition server_init : server_state := mkServer Serving ∅ [] 0 [].

(** [live.retain(|t| !t.is_dead())]. *)
Definition is_live (store : gmap nat Tunnel) (k : nat) : bool :=
  match store !! k with
  | Some t => negb (is_dead t)
  | None => false
  end.

Definition running (p : phase) : Prop := match p with Stopped _ => False | _ => True end.

Inductive serve_step (release : option (list Z)) (cfg : ServerConfig) : server_state -> server_state -> Prop :=
| sv_accept st live n ps :
    (* the select loop accepts a connection and spawns its task *)
    serve_step release cfg (mkServer Serving st live n ps) (mkServer Serving st live (S n) ps)
| sv_auth_failed p st live n ps io :
    (* a connection task ends without a tunnel *)
    running p -> handle_conn release cfg io = None ->
    serve_step release cfg (mkServer p st live (S n) ps) (mkServer p st live n ps)
| sv_spawned p st live n ps io t k :
    (* a connection task has started its tunnel *)
    running p -> handle_conn release cfg io = Some t -> st !! k = None ->
    serve_step release cfg (mkServer p st live (S n) ps) (mkServer p (<[k := t]> st) live n (k :: ps))
| sv_push p st live n ps1 k ps2 :
    (* ... and adds it to the list, under its lock; no await comes between, so
       an abort does not prevent it *)
    serve_step release cfg (mkServer p st live n (ps1 ++ k :: ps2))
      (mkServer p st (List.filter (is_live st) live ++ [k]) n (ps1 ++ ps2))
| sv_died p st live n ps k t c :
    (* a tunnel dies of its own *)
    st !! k = Some t ->
    serve_step release cfg (mkServer p st live n ps) (mkServer p (<[k := kill_with c t]> st) live n ps)
| sv_shutdown st live n ps :
    (* the shutdown flag is set: the loop breaks and drains the list *)
    serve_step release cfg (mkServer Serving st live n ps) (mkServer (Killing [] live) st [] n ps)
| sv_kill ks k todo st t live n ps :
    st !! k = Some t ->
    serve_step release cfg (mkServer (Killing ks (k :: todo)) st live n ps)
      (mkServer (Killing (k :: ks) todo) (<[k := kill t]> st) live n ps)
| sv_abort ks st live n ps :
    (* the connection tasks still running are aborted *)
    serve_step release cfg (mkServer (Killing ks []) st live n ps) (mkServer (Stopped ks) st live 0 ps).

Definition serve_reachable (release : option (list Z)) (cfg : ServerConfig) : server_state -> Prop :=
  star (serve_step release cfg) server_init.

(** ** The invariant *)

Definition killed_of (p : phase) : list nat :=
  match p with Serving => [] | Killing ks _ => ks | Stopped ks => ks end.

Definition todo_of (p : phase) : list nat :=
  match p with Killing _ todo => todo | _ => [] end.

Definition serve_inv (s : server_state) : Prop :=
  (forall k, k ∈ ss_live s \/ k ∈ ss_pushing s \/ k ∈ killed_of (ss_phase s) \/ k ∈ todo_of (ss_phase s) ->
     is_Some (ss_store s !! k)) /\
  (forall k t, k ∈ killed_of (ss_phase s) -> ss_store s !! k = Some t -> dead t = true) /\
  (forall k t, ss_store s !! k = Some t -> dead t = false ->
     k ∈ ss_live s \/ k ∈ ss_pushing s \/ k ∈ todo_of (ss_phase s)).

(** Marking a stored tunnel dead keeps the invariant. *)
Lemma serve_inv_dead p st live n ps k t t' :
  serve_inv (mkServer p st live n ps) -> st !! k = Some t -> dead t' = true ->
  serve_inv (mkServer p (<[k := t']> st) live n ps).
Proof.
  intros (H1 & H2 & H3) Hk Hd. split; [| split]; simpl in *.
  - intros j Hj. destruct (decide (j = k)) as [-> |]; [rewrite lookup_insert_eq; eauto |].
    rewrite lookup_insert_ne by done. by apply H1.
  - intros j u Hj. destruct (decide (j = k)) as [-> |]; [rewrite lookup_insert_eq; intros [= <-]; by rewrite Hd |].
    rewrite lookup_insert_ne by done. by apply H2.
  - intros j u. destruct (decide (j = k)) as [-> |]; [rewrite lookup_insert_eq; intros [= <-]; by rewrite Hd |].
    rewrite lookup_insert_ne by done. by apply H3.
Qed.

Lemma serve_step_inv release cfg s s' : serve_step release cfg s s' -> serve_inv s -> serve_inv s'.
Proof.
  intros Hs Hi. destruct Hs as [st live n ps | p st live n ps io Hp Hc | p st live n ps io t k Hp Hc Hk
    | p st live n ps1 k ps2 | p st live n ps k t c Hk | st live n ps | ks k todo st t live n ps Hk | ks st live n ps].
  - exact Hi.
  - exact Hi.
  - destruct Hi as (H1 & H2 & H3). split; [| split]; simpl in *.
    + intros j Hj. destruct (decide (j = k)) as [-> |]; [rewrite lookup_insert_eq; eauto |].
      rewrite lookup_insert_ne by done. apply H1. set_solver.
    + intros j u Hj. destruct (decide (j = k)) as [-> |].
      * destruct (H1 k) as [x Hx]; [tauto |]. congruence.
      * rewrite lookup_insert_ne by done. by apply H2.
    + intros j u. destruct (decide (j = k)) as [-> |]; [set_solver |].
      rewrite lookup_insert_ne by done. intros Hu Hd. destruct (H3 j u Hu Hd) as [? | [? | ?]]; set_solver.
  - destruct Hi as (H1 & H2 & H3). split; [| split]; simpl in *; [| exact H2 |].
    + intros j Hj. apply H1. rewrite !elem_of_app, list_elem_of_In, filter_In, <- list_elem_of_In in Hj.
      set_solver.
    + intros j u Hu Hd. rewrite !elem_of_app, list_elem_of_In, filter_In, <- list_elem_of_In.
      unfold is_live, is_dead. rewrite Hu, Hd. destruct (H3 j u Hu Hd) as [? | [? | ?]]; set_solver.
  - eapply serve_inv_dead; [exact Hi | exact Hk | apply kill_with_dead].
  - destruct Hi as (H1 & H2 & H3). split; [| split]; simpl in *.
    + intros j Hj. apply H1. set_solver.
    + intros j u Hj. set_solver.
    + intros j u Hu Hd. destruct (H3 j u Hu Hd) as [? | [? | ?]]; set_solver.
  - assert (dead (kill t) = true) as Hd by done.
    destruct (serve_inv_dead _ _ _ _ _ k t (kill t) Hi Hk Hd) as (H1 & H2 & H3). split; [| split]; simpl in *.
    + intros j Hj. apply H1. set_solver.
    + intros j u Hj Hu. apply elem_of_cons in Hj as [-> | Hj]; [| by eapply H2].
      rewrite lookup_insert_eq in Hu. by injection Hu as <-.
    + intros j u Hu Hdu. destruct (H3 j u Hu Hdu) as [? | [? | Ht]]; [tauto | tauto |].
      apply elem_of_cons in Ht as [-> | Ht]; [| tauto]. rewrite lookup_insert_eq in Hu. by injection Hu as <-.
  - destruct Hi as (H1 & H2 & H3). split; [| split]; simpl in *.
    + intros j Hj. apply H1. set_solver.
    + exact H2.
    + intros j u Hu Hd. destruct (H3 j u Hu Hd) as [? | [? | ?]]; set_solver.
Qed.

Lemma serve_reachable_inv release cfg s : serve_reachable release cfg s -> serve_inv s.
Proof.
  intros Hr. eapply (star_invariant (serve_step release cfg) serve_inv); [| exact Hr |].
  - intros s1 s2 H Hs. by eapply serve_step_inv.
  - split; [| split]; simpl; [set_solver | set_solver | done].
Qed.

(** What holds of every state after the shutdown that began in [sd]: the tunnels
    killed and still to be killed are the list as it was then, in its order;
    nothing in the list or on its way there was in it then; and no tunnel is
    forgotten. *)
Definition since_shutdown (sd s : server_state) : Prop :=
  rev (killed_of (ss_phase s)) ++ todo_of (ss_phase s) = ss_live sd /\
  ss_phase s <> Serving /\
  (forall k, is_Some (ss_store sd !! k) -> is_Some (ss_store s !! k)) /\
  (forall k, k ∈ ss_live s \/ k ∈ ss_pushing s -> k ∈ ss_pushing sd \/ ss_store sd !! k = None).

Lemma since_shutdown_step release cfg sd s s' :
  serve_step release cfg s s' -> since_shutdown sd s -> since_shutdown sd s'.
Proof.
  intros Hs (Hl & Hp & Hst & Hin).
  assert (forall (st : gmap nat Tunnel) k (t : Tunnel) j, is_Some (st !! j) -> is_Some (<[k := t]> st !! j)) as Hins.
  { intros st k t j Hj. destruct (decide (j = k)) as [-> |]; [rewrite lookup_insert_eq; eauto | by rewrite lookup_insert_ne]. }
  destruct Hs as [st live n ps | p st live n ps io Hr Hc | p st live n ps io t k Hr Hc Hk
    | p st live n ps1 k ps2 | p st live n ps k t c Hk | st live n ps | ks k todo st t live n ps Hk | ks st live n ps];
    simpl in *; try done; split_and!; simpl; try done; eauto.
  - intros j Hj. destruct (decide (j = k)) as [-> |]; [| apply Hin; set_solver].
    right. destruct (ss_store sd !! k) as [x |] eqn:E; [| done]. destruct (Hst k) as [y Hy]; [eauto | congruence].
  - intros j Hj. apply Hin. rewrite !elem_of_app, list_elem_of_In, filter_In, <- list_elem_of_In in Hj. set_solver.
  - rewrite <- app_assoc. exact Hl.
Qed.

(** The kills and the abort can always go on. *)
Lemma shutdown_ends release cfg todo : forall ks st live n ps,
  (forall k, k ∈ todo -> is_Some (st !! k)) ->
  exists s', star (serve_step release cfg) (mkServer (Killing ks todo) st live n ps) s' /\
    exists killed, ss_phase s' = Stopped killed.
Proof.
  induction todo as [| k todo IH]; intros ks st live n ps Ht.
  - eexists. split; [apply star_one, sv_abort | by eexists].
  - destruct (Ht k) as [t Hk]; [apply list_elem_of_here |].
    destruct (IH (k :: ks) (<[k := kill t]> st) live n ps) as (s' & Hs & Hst).
    + intros j Hj. destruct (decide (j = k)) as [-> |]; [rewrite lookup_insert_eq; eauto |].
      rewrite lookup_insert_ne by done. apply Ht. by apply list_elem_of_further.
    + exists s'. split; [eapply star_step; [by apply sv_kill | exact Hs] | exact Hst].
Qed.

(** (C36) Shutdown. From the step that begins it, in [sd], on: the tunnels killed
    so far and those still to be killed are together the live list of [sd], in
    its order; those killed are dead; a tunnel that is still alive is either
    still to be killed or was not in the list in [sd] (its connection task had
    not added it, or had not even started it). The kills always go on to the
    stop, and once the process has stopped every tunnel in the list of [sd] is
    dead. Before the shutdown every tunnel alive is in the list or about to be
    added to it. *)
Theorem server_shutdown release cfg sd s1 s :
  serve_reachable release cfg sd -> ss_phase sd = Serving ->
  serve_step release cfg sd s1 -> ss_phase s1 <> Serving -> star (serve_step release cfg) s1 s ->
  (forall k t, ss_store sd !! k = Some t -> dead t = false -> k ∈ ss_live sd \/ k ∈ ss_pushing sd) /\
  rev (killed_of (ss_phase s)) ++ todo_of (ss_phase s) = ss_live sd /\
  (forall k t, k ∈ killed_of (ss_phase s) -> ss_store s !! k = Some t -> dead t = true) /\
  (forall k t, ss_store s !! k = Some t -> dead t = false ->
     k ∈ todo_of (ss_phase s) \/ k ∈ ss_pushing sd \/ ss_store sd !! k = None) /\
  (exists s' killed, star (serve_step release cfg) s s' /\ ss_phase s' = Stopped killed) /\
  (forall killed, ss_phase s = Stopped killed ->
     forall k, k ∈ ss_live sd -> exists t, ss_store s !! k = Some t /\ dead t = true).
Proof.
  intros Hr Hsd Hs1 Hp1 Hs.
  assert (since_shutdown sd s1) as H1.
  { destruct Hs1; simpl in *; subst; try done. split_and!; try done.
    intros k [Hk%elem_of_nil | Hk]; [done | by left]. }
  assert (since_shutdown sd s) as (Hl & Hp & Hst & Hin).
  { eapply (star_invariant (serve_step release cfg) (since_shutdown sd)); [| exact Hs | exact H1].
    intros u u' Hu. by apply (since_shutdown_step release cfg). }
  assert (serve_reachable release cfg s) as Hrs.
  { eapply star_trans; [exact Hr |]. by eapply star_step. }
  destruct (serve_reachable_inv _ _ _ Hr) as (_ & _ & H3d). destruct (serve_reachable_inv _ _ _ Hrs) as (H1s & H2s & H3s).
  split_and!; [| done | done | | |].
  - intros k t Hk Hd. destruct (H3d k t Hk Hd) as [? | [? | Ht]]; [auto | auto |]. rewrite Hsd in Ht. by apply elem_of_nil in Ht.
  - intros k t Hk Hd. destruct (H3s k t Hk Hd) as [? | [? | Ht]]; [right; apply Hin; tauto .. | tauto].
  - destruct s as [[| ks todo | ks] st live n ps]; [done | | by eexists _, ks; split; [apply star_refl |]].
    destruct (shutdown_ends release cfg todo ks st live n ps) as (s' & Hs' & killed & Hk); [| by exists s', killed].
    intros k Hk. apply H1s. simpl. auto.
  - intros killed Hk k Hkl. rewrite Hk in *. simpl in Hl. rewrite app_nil_r in Hl. rewrite <- Hl in Hkl.
    rewrite list_elem_of_In, <- in_rev, <- list_elem_of_In in Hkl. destruct (H1s k) as [t Ht]; [simpl; auto |]. exists t. split; [done |]. by eapply H2s.
Qed.

(** A stream the client opens. The reader registers it
    with one end of a channel and hands the other to the callback; if the
    destination connects, the pump gets exactly that end; otherwise the
    registration is gone again and a CLOSE is queued, and no other stream is
    touched. *)
Theorem server_open_spec id t tx rx w :
  mpsc_channel INBOUND_CAPACITY (env t) = ((tx, rx), w) ->
  let t1 := dispatch (Open id) t in
  registry t1 = <[id := tx]> (registry t) /\ env t1 = spawn (TaskOnOpen id rx) w /\
  registry (server_on_open UpstreamConnected id rx t1) = <[id := tx]> (registry t) /\
  env (server_on_open UpstreamConnected id rx t1) = spawn (TaskPump id rx) (env t1) /\
  (forall o, o <> UpstreamConnected ->
     registry (server_on_open o id rx t1) = delete id (registry t) /\
     env (server_on_open o id rx t1) = (frames_send (Close id) (env t1)).2 /\
     dead (server_on_open o id rx t1) = dead t).
Proof.
  intros Hm t1. assert (t1 = set_env (spawn (TaskOnOpen id rx) w) (set_registry (<[id := tx]> (registry t)) t)) as ->.
  { unfold t1. cbn [dispatch]. rewrite Hm. reflexivity. }
  split; [done |]. split; [done |]. split; [done |]. split; [done |]. intros o Ho.
  assert (forall u, server_on_open o id rx u = close id (remove id u).2) as -> by by destruct o.
  unfold close, send_frame. cbn [remove snd env set_env set_registry].
  destruct (frames_send (Close id) _) as [ok w']. cbn. split; [| done]. by rewrite delete_insert_eq.
Qed.

End server.

(** ** Witnesses *)

Definition toy_server_config : @ServerConfig toy_core := {|
  static_kp := (5 : @static_keypair toy_core);
  sc_password := lit "s3cret-p4ss";
  destination := V4 127 0 0 1 8388;
  sc_ping_secs := 2;
  dial_timeout := 10
|}.

Definition toy_connection : @connection toy_tokio toy_core := {|
  cn_seed := (2 : @rng toy_core);
  cn_reads := toy_server_reads;
  cn_writes := replicate 7 true;
  cn_peer := lit "198.51.100.7:50000";
  cn_world := (toy_world0 : @world toy_tokio)
|}.

Definition toy_served : @Tunnel toy_tokio :=
  (@spawn_tunnel toy_tokio 2 (lit "198.51.100.7:50000") toy_world0).1.

Lemma toy_handle_conn :
  @handle_conn toy_codec toy_tokio toy_core None toy_server_config toy_connection = Some toy_served.
Proof. vm_compute. reflexivity. Qed.

(** A tunnel whose connection task is still authenticating when the shutdown
    begins is started and added after the list was drained: the process stops
    and the tunnel lives on. *)
Lemma shutdown_misses_late_tunnel :
  exists s, @serve_reachable toy_codec toy_tokio toy_core None toy_server_config s /\
    ss_phase s = Stopped [] /\ ss_store s !! 0%nat = Some toy_served /\ dead toy_served = false.
Proof.
  exists (mkServer (Stopped []) (<[0%nat := toy_served]> ∅) [0%nat] 0 []). split; [| done].
  unfold serve_reachable, server_init.
  eapply star_step; [apply sv_accept |]. eapply star_step; [apply sv_shutdown |].
  eapply star_step; [apply (sv_spawned _ _ _ _ _ _ _ toy_connection toy_served 0%nat); [exact I | exact toy_handle_conn | done] |].
  eapply star_step; [apply (sv_push _ _ _ _ _ _ [] 0%nat []) |].
  eapply star_step; [apply sv_abort |]. apply star_refl.
Qed.

Lemma server_shutdown_witness :
  exists t, (<[0%nat := kill toy_served]> (<[0%nat := toy_served]> ∅) : gmap nat (@Tunnel toy_tokio)) !! 0%nat = Some t /\
    dead t = true.
Proof.
  assert (@serve_reachable toy_codec toy_tokio toy_core None toy_server_config
    (mkServer Serving (<[0%nat := toy_served]> ∅) [0%nat] 0 [])) as Hr.
  { eapply star_step; [apply sv_accept |].
    eapply star_step; [apply (sv_spawned _ _ _ _ _ _ _ toy_connection toy_served 0%nat); [exact I | exact toy_handle_conn | done] |].
    eapply star_step; [apply (sv_push _ _ _ _ _ _ [] 0%nat []) | apply star_refl]. }
  destruct (@server_shutdown toy_codec toy_tokio toy_core None toy_server_config _
    (mkServer (Killing [] [0%nat]) (<[0%nat := toy_served]> ∅) [] 0 [])
    (mkServer (Stopped [0%nat]) (<[0%nat := kill toy_served]> (<[0%nat := toy_served]> ∅)) [] 0 []) Hr)
    as (_ & _ & _ & _ & _ & H).
  - reflexivity.
  - apply sv_shutdown.
  - discriminate.
  - eapply star_step; [apply (sv_kill _ _ _ _ _ _ toy_served); apply lookup_insert_eq |].
    apply star_one. apply sv_abort.
  - apply (H [0%nat] eq_refl 0%nat). apply list_elem_of_here.
Defined.

Lemma server_open_spec_witness :
  registry (@server_on_open toy_tokio UpstreamFailed 1 0%nat (@dispatch toy_tokio (Open 1) toy_served)) = ∅.
Proof.
  destruct (@server_open_spec toy_tokio 1 toy_served 0%nat 0%nat _ eq_refl) as (_ & _ & _ & _ & H).
  destruct (H UpstreamFailed ltac:(discriminate)) as [H1 _]. exact H1.
Defined.
