(* ===== verification/Session.v ===== *)
(** * Session: from the password to the application's bytes

    The components put together. A client's dial ([Client]) and a server's
    connection ([Server]) run the two handshakes ([Handshake]) over each other's
    messages; each then has a fresh tunnel ([Carrier]) and the codecs for its
    loops. The theorem follows the streams of a session from one writer to the
    other side's stream channels ([Transfer], [Demux]) in both directions. *)

From Stdlib Require Import Ascii String.
From S2P Require Import Prelude Mux Records External RustStr NetAddr Opts Handshake Carrier Transfer Demux.
From S2P Require Import Client Server.

Section session.
Context {PC : PacketCodec} {PL : PacketCodecLaws PC} {TK : Tokio} {TL : TokioLaws TK}.
Context {QC : QeliCore} {QL : QeliLaws PC QC}.

(** What one direction of a tunnel promises, when the sender's writer encrypts
    with [tx] and the receiver's reader decrypts with [rx]: however the streams'
    frames are interleaved and the bytes split into reads, a stream whose frames
    are its DATA frames, after its OPEN unless it was open, ends up registered
    with exactly its chunks in its channel, as long as that channel takes them. *)
Definition carries (tx rx : codec) (t : Tunnel) : Prop :=
  forall fs c' rs tS tS' cs id pre q ps,
    Forall wf_frame fs -> writer_run (WvFrame <$> fs) [] tx tS = (c', rs, None, tS') ->
    Forall (fun c => c <> []) cs -> concat cs = concat rs ->
    starts id t pre q -> filter (fun f => own_frame id f = true) fs = pre ++ (Data id <$> ps) ->
    (forall o p, (o, Data id p) ∈ answered fs t -> an_send o = Sent) ->
    exists r' t' c, reader_run (reads cs) (reader_new rx) t = (r', Continue, t') /\
      dead t' = false /\ registry t' !! id = Some c /\ history c (env t') = q ++ ps.

Lemma synced_carries tx rx t : synced tx rx -> dead t = false -> channels_ok t -> carries tx rx t.
Proof. intros Hs Hd Hc fs c' rs tS tS' cs id pre q ps. intros. by eapply written_stream. Qed.

Lemma fresh_channels_ok p addr w : channels_ok (spawn_tunnel p addr w).1.
Proof. split; intros *; simpl; rewrite lookup_empty; discriminate. Qed.

(** ** Properties *)

(** (C2) A session. A client and a server configured with one
    password (the client's pin, if any, being the server's key) exchange two
    byte sequences, in any split into reads; the client's dial and the server's
    connection both succeed with a fresh live tunnel; and from then on, with the
    codecs of that handshake, both directions carry every stream of any
    interleaving whole: what the client opens and sends arrives at the server's
    fresh tunnel, and what the server sends arrives at whatever live tunnel
    state the client has by then. *)
Theorem session_end_to_end release (m : TunnelManager) (sc : ServerConfig) gc gs ws pc ps wc :
  let cc := tm_config m in
  validate_sni (ct_sni cc) = Ok tt -> message_ok release (ct_password cc) (tm_device_id m) ->
  sc_password sc = ct_password cc ->
  (forall k, ct_server_public_key cc = Some k -> k = static_public (static_kp sc)) ->
  exists c2s s2c (hc : ClientHandshake) (hs : ServerHandshake),
    (forall cs io, Forall (fun c => c <> []) cs -> concat cs = concat s2c ->
       dial m (Connected gc ((ReadData <$> cs) ++ io) (replicate 2 true) pc wc)
         = Ok (spawn_tunnel (ct_ping_secs cc) pc wc)) /\
    (forall cs io, Forall (fun c => c <> []) cs -> concat cs = concat c2s ->
       handle_conn release sc {| cn_seed := gs; cn_reads := (ReadData <$> cs) ++ io;
           cn_writes := replicate 7 true; cn_peer := ps; cn_world := ws |}
         = Some (spawn_tunnel (sc_ping_secs sc) ps ws).1) /\
    carries (ch_tx hc) (sh_rx hs) (spawn_tunnel (sc_ping_secs sc) ps ws).1 /\
    (forall t, dead t = false -> channels_ok t -> carries (sh_tx hs) (ch_rx hc) t) /\
    server_static hc = static_public (static_kp sc).
Proof using PL TL QL.
  intros cc Hsni Hm Hpw Hpin.
  destruct (honest_handshakes release gc gs (static_kp sc) (ct_sni cc) (ct_password cc) (tm_device_id m)
    (ct_server_public_key cc) Hsni Hm Hpin) as (c2s & s2c & hc & hs & Hc & Hs & Hcs & Hsc & Hk).
  exists c2s, s2c, hc, hs. split_and!; [| | | | done].
  - intros cs io Hne Hb. destruct (Hc cs [] io Hne) as [rest Hrun]; [by rewrite app_nil_r |].
    unfold dial. fold cc. by rewrite Hrun.
  - intros cs io Hne Hb. destruct (Hs cs [] io Hne) as [rest Hrun]; [by rewrite app_nil_r |].
    unfold handle_conn. cbn [cn_seed cn_reads cn_writes cn_peer cn_world]. by rewrite Hpw, Hrun.
  - apply synced_carries; [done | done | apply fresh_channels_ok].
  - intros t Hd Hok. by apply synced_carries.
Qed.

End session.

(** ** Witness *)

Definition toy_session_manager : @TunnelManager toy_tokio := mkManager toy_config toy_device None.

(** The messages as reads, without empty ones. *)
Lemma concat_nonempty (l : list (list Z)) :
  Forall (fun c => c <> []) (filter (fun c => c <> []) l) /\ concat (filter (fun c => c <> []) l) = concat l.
Proof.
  split; [apply Forall_forall; intros c Hc; by apply list_elem_of_filter in Hc as [? _] |].
  induction l as [| c l IH]; [done |]. rewrite filter_cons. destruct (decide (c <> [])) as [Hc | Hc].
  - simpl. by rewrite IH.
  - destruct c as [| x c]; [exact IH | by destruct Hc].
Qed.

Lemma session_end_to_end_witness :
  exists (s2c : list (list Z)) (hc : @ClientHandshake toy_codec) (hs : @ServerHandshake toy_codec),
    @dial toy_codec toy_tokio toy_core toy_session_manager
      (@Connected toy_tokio toy_core 1 ((ReadData <$> filter (fun c => c <> []) s2c) ++ []) (replicate 2 true)
        (lit "s") toy_world0)
      = Ok (@spawn_tunnel toy_tokio 2 (lit "s") toy_world0) /\
    @carries toy_codec toy_tokio toy_tokio_laws (ch_tx hc) (sh_rx hs)
      (@spawn_tunnel toy_tokio 2 (lit "c") toy_world0).1 /\ server_static hc = replicate 32 5.
Proof.
  destruct (@session_end_to_end toy_codec toy_codec_laws toy_tokio toy_tokio_laws toy_core toy_core_laws None
    toy_session_manager toy_server_config 1 2 toy_world0 (lit "s") (lit "c") toy_world0)
    as (c2s & s2c & hc & hs & Hd & _ & Hc & _ & Hk).
  - reflexivity.
  - exact toy_message_ok.
  - reflexivity.
  - intros k [= <-]. reflexivity.
  - exists s2c, hc, hs. split; [| split; [exact Hc | exact Hk]].
    apply (Hd (filter (fun c => c <> []) s2c) []); apply (concat_nonempty s2c).
Defined.
