(* ===== verification/Connection.v ===== *)
(** * Connection: one proxied connection, from the local socket to the destination

    The parts of the program that one connection of a local application goes
    through, put together: the client's manager authenticates a tunnel and opens
    a stream on it ([Client], [Handshake]), the uplink of its pump turns the
    socket's reads into frames ([Pump]), the writer, the wire and the peer's
    reader carry them among those of any other streams ([Carrier], [Transfer],
    [Demux]), the server connects the destination ([Server]) and the downlink of
    its pump writes there what the stream's channel holds ([Pump]). *)

From Stdlib Require Import Ascii String.
From S2P Require Import Prelude Mux Records External RustStr NetAddr Opts Handshake Carrier Transfer Demux.
From S2P Require Import Pump Client Server Session.

Section connection.
Context {PC : PacketCodec} {PL : PacketCodecLaws PC} {TK : Tokio} {TL : TokioLaws TK}.

(** ** A channel the registry does not hold *)

(** Its sender is dropped, or was never there: nothing is added to it. *)
Definition detached (c : sender) (t : Tunnel) : Prop :=
  issued c (env t) /\ forall id, registry t !! id <> Some c.

Lemma detached_env c w t : channels_kept (env t) w -> detached c t ->
  detached c (set_env w t) /\ history c w = history c (env t).
Proof. intros Hk [Hi Hr]. destruct (Hk c Hi) as [Hi' Hh]. by split. Qed.

Lemma dispatch_detached c f t :
  detached c t -> detached c (dispatch f t) /\ history c (env (dispatch f t)) = history c (env t).
Proof.
  intros Hd. assert (forall g t', detached c t' -> detached c (send_frame g t').2 /\
    history c (env (send_frame g t').2) = history c (env t')) as Hsend.
  { intros g t' H. rewrite send_frame_env. apply detached_env; [apply frames_kept | exact H]. }
  destruct f as [s | s p | s | n | n]; cbn [dispatch].
  - destruct Hd as [Hi Hr]. destruct (mpsc_channel INBOUND_CAPACITY (env t)) as [[tx rx] w] eqn:Em.
    destruct (channel_new _ _ _ _ _ Em) as (Hn & _). destruct (channel_others _ _ _ _ _ c Em Hi) as [Hi' Hh].
    destruct (spawn_channels (TaskOnOpen s rx) w c Hi') as [Hi2 Hh2].
    split; [split |]; cbn; [done | | by rewrite Hh2].
    intros id [[_ He] | [_ Hc]]%lookup_insert_Some; [by subst | by apply (Hr id)].
  - unfold deliver, close. destruct (registry t !! s) as [tx |] eqn:Er; [| by apply Hsend].
    assert (c <> tx) as Hne by (intros ->; by apply Hd in Er).
    pose proof (send_others STREAM_STALL_TIMEOUT tx p (env t) c Hne) as Hh.
    pose proof (send_issued STREAM_STALL_TIMEOUT tx p (env t) c (proj1 Hd)) as Hi.
    destruct (timeout_send STREAM_STALL_TIMEOUT tx p (env t)) as [o w]. simpl in Hh, Hi.
    assert (detached c (set_env w t)) as Hd1 by (split; [exact Hi | apply Hd]).
    destruct o; [by split | |].
    + destruct (Hsend (Close s) _ Hd1) as [H1 H2]. split; [exact H1 |]. by rewrite H2.
    + assert (detached c (set_registry (delete s (registry t)) (set_env w t))) as Hd2.
      { split; [exact Hi |]. cbn. intros id [_ Hc]%lookup_delete_Some. by apply Hd in Hc. }
      destruct (Hsend (Close s) _ Hd2) as [H1 H2]. split; [exact H1 |]. exact (eq_trans H2 Hh).
  - destruct Hd as [Hi Hr]. split; [split |]; cbn; [done | | done].
    intros id [_ Hc]%lookup_delete_Some. by apply Hr in Hc.
  - by apply Hsend.
  - by destruct Hd.
Qed.

Lemma dispatch_all_detached c fs t :
  detached c t -> detached c (dispatch_all fs t) /\ history c (env (dispatch_all fs t)) = history c (env t).
Proof.
  unfold dispatch_all. revert t. induction fs as [| f fs IH]; intros t Hd; [done |].
  cbn [fold_left]. destruct (dispatch_detached c f t Hd) as [Hd1 Hh]. destruct (IH _ Hd1) as [Hd2 Hh2].
  split; [exact Hd2 |]. by rewrite Hh2.
Qed.

(** ** The registration of one stream *)

Lemma send_frame_registry f t : registry (send_frame f t).2 = registry t.
Proof. by rewrite send_frame_env. Qed.

Lemma dispatch_registry_other id f t :
  own_frame id f = false -> registry (dispatch f t) !! id = registry t !! id.
Proof.
  destruct f as [s | s p | s | n | n]; cbn [dispatch own_frame]; intros Hf; try apply Z.eqb_neq in Hf.
  - destruct (mpsc_channel INBOUND_CAPACITY (env t)) as [[tx rx] w]. cbn. by rewrite lookup_insert_ne.
  - unfold deliver, close. destruct (registry t !! s) as [tx |]; [| by rewrite send_frame_registry].
    destruct (timeout_send STREAM_STALL_TIMEOUT tx p (env t)) as [[] w]; rewrite ?send_frame_registry; cbn;
      [done | done | by rewrite lookup_delete_ne].
  - cbn. by rewrite lookup_delete_ne.
  - by rewrite send_frame_registry.
  - done.
Qed.

Lemma dispatch_all_registry_other id fs t :
  filter (fun f => own_frame id f = true) fs = [] -> registry (dispatch_all fs t) !! id = registry t !! id.
Proof.
  unfold dispatch_all. revert t. induction fs as [| f fs IH]; intros t; [done |].
  rewrite filter_cons. destruct (decide (own_frame id f = true)) as [| Hn]; [done |]. intros Hf. cbn [fold_left].
  rewrite IH by done. apply dispatch_registry_other. by apply not_true_is_false.
Qed.

(** A chunk of the stream that its channel takes. *)
Lemma dispatch_registry_sent id p t c :
  registry t !! id = Some c -> an_send (answer_at (Data id p) t) = Sent ->
  registry (dispatch (Data id p) t) !! id = Some c.
Proof.
  intros Hr. cbn [answer_at dispatch]. unfold deliver. rewrite Hr.
  destruct (timeout_send STREAM_STALL_TIMEOUT c p (env t)) as [o w]. cbn. by intros ->.
Qed.

Lemma dispatch_all_registry_sent id ps fs t c :
  registry t !! id = Some c -> filter (fun f => own_frame id f = true) fs = Data id <$> ps ->
  (forall o p, (o, Data id p) ∈ answered fs t -> an_send o = Sent) ->
  registry (dispatch_all fs t) !! id = Some c.
Proof.
  unfold dispatch_all. revert t ps. induction fs as [| f fs IH]; intros t ps Hr Hf Ho; [done |].
  rewrite filter_cons in Hf. cbn [fold_left]. destruct (decide (own_frame id f = true)) as [Hown | Hn].
  - destruct ps as [| p ps]; simplify_eq/=. apply (IH _ ps); [| done |].
    + apply dispatch_registry_sent; [done |]. apply (Ho _ p). by left.
    + intros o q Hin. apply (Ho o q). by right.
  - apply (IH _ ps); [| done |].
    + by rewrite dispatch_registry_other by by apply not_true_is_false.
    + intros o q Hin. apply (Ho o q). by right.
Qed.

Lemma dispatch_all_app fs1 fs2 t : dispatch_all (fs1 ++ fs2) t = dispatch_all fs2 (dispatch_all fs1 t).
Proof. apply fold_left_app. Qed.

Lemma answered_app fs1 fs2 t : answered (fs1 ++ fs2) t = answered fs1 t ++ answered fs2 (dispatch_all fs1 t).
Proof. revert t. induction fs1 as [| f fs1 IH]; intros t; [done |]. cbn [answered app]. by rewrite IH. Qed.

(** The first and the last frame of a stream among others. *)
Lemma split_own id g gs fs :
  filter (fun f => own_frame id f = true) fs = g :: gs ->
  exists fs1 fs2, fs = fs1 ++ g :: fs2 /\ filter (fun f => own_frame id f = true) fs1 = [] /\
    filter (fun f => own_frame id f = true) fs2 = gs /\ own_frame id g = true.
Proof.
  induction fs as [| f fs IH]; [done |]. rewrite filter_cons. destruct (decide (own_frame id f = true)) as [Ht | Hn].
  - intros [= -> <-]. by exists [], fs.
  - intros H. destruct (IH H) as (fs1 & fs2 & -> & H1 & H2 & H3). exists (f :: fs1), fs2.
    split_and!; [done | | done | done]. by rewrite filter_cons, decide_False.
Qed.

Lemma split_own_last id gs g fs :
  filter (fun f => own_frame id f = true) fs = gs ++ [g] ->
  exists fs1 fs2, fs = fs1 ++ g :: fs2 /\ filter (fun f => own_frame id f = true) fs1 = gs /\
    filter (fun f => own_frame id f = true) fs2 = [].
Proof.
  revert fs. induction gs as [| g' gs IH]; intros fs H; simpl in H.
  - apply split_own in H as (fs1 & fs2 & -> & H1 & H2 & _). by exists fs1, fs2.
  - apply split_own in H as (fs1 & fs2 & -> & H1 & H2 & H3). destruct (IH _ H2) as (fs3 & fs4 & -> & H4 & H5).
    exists (fs1 ++ g' :: fs3), fs4. split_and!; [by rewrite <- app_assoc | | done].
    by rewrite filter_app, filter_cons, decide_True, H1, H4.
Qed.

(** ** One stream to its CLOSE *)

(** The channel of an open stream ends up with the stream's chunks, closed. *)
Lemma stream_closes id c cs fs t :
  channels_ok t -> registry t !! id = Some c ->
  filter (fun f => own_frame id f = true) fs = (Data id <$> cs) ++ [Close id] ->
  (forall o p, (o, Data id p) ∈ answered fs t -> an_send o = Sent) ->
  registry (dispatch_all fs t) !! id = None /\ detached c (dispatch_all fs t) /\
  history c (env (dispatch_all fs t)) = history c (env t) ++ cs.
Proof.
  intros Hok Hc Hf Ho. apply split_own_last in Hf as (fs1 & fs2 & -> & H1 & H2).
  set (t1 := dispatch_all fs1 t).
  assert (dispatch_all (fs1 ++ Close id :: fs2) t = dispatch_all fs2 (dispatch (Close id) t1)) as ->.
  { change (Close id :: fs2) with ([Close id] ++ fs2). by rewrite !dispatch_all_app. }
  destruct (dispatch_all_step fs1 t Hok) as [[Hi Hj] _].
  assert (forall o p, (o, Data id p) ∈ answered fs1 t -> an_send o = Sent) as Ho1.
  { intros o p Hin. apply (Ho o p). rewrite answered_app. apply elem_of_app. by left. }
  assert (open_streams (abs t) !! id = Some (history c (env t))) as Hopen by (unfold abs; simpl; by rewrite lookup_fmap, Hc).
  destruct (dispatch_all_stream id fs1 t [] _ cs Hok (or_intror (conj eq_refl Hopen)) H1 Ho1) as (c' & Hc' & Hh).
  pose proof (dispatch_all_registry_sent id cs fs1 t c Hc H1 Ho1) as Hc1. rewrite Hc1 in Hc'. injection Hc' as <-.
  assert (detached c (dispatch (Close id) t1)) as Hd.
  { split; [by apply (Hi id) |]. cbn. intros id' [Hne Hr]%lookup_delete_Some. apply Hne. by apply (Hj id id' c). }
  destruct (dispatch_all_detached c fs2 _ Hd) as [Hd' Hh']. split_and!; [| done | by rewrite Hh'].
  rewrite dispatch_all_registry_other by done. apply lookup_delete_eq.
Qed.

(** From its OPEN: the channel is the one made then. *)
Lemma stream_lifetime id cs fs t :
  channels_ok t -> filter (fun f => own_frame id f = true) fs = Open id :: (Data id <$> cs) ++ [Close id] ->
  (forall o p, (o, Data id p) ∈ answered fs t -> an_send o = Sent) ->
  exists fs1 c rx w, fs1 ++ [Open id] `prefix_of` fs /\
    mpsc_channel INBOUND_CAPACITY (env (dispatch_all fs1 t)) = ((c, rx), w) /\
    registry (dispatch_all fs t) !! id = None /\ detached c (dispatch_all fs t) /\
    history c (env (dispatch_all fs t)) = cs.
Proof.
  intros Hok Hf Ho. apply split_own in Hf as (fs1 & fs2 & -> & H1 & H2 & _).
  set (t1 := dispatch_all fs1 t). set (t2 := dispatch (Open id) t1).
  assert (dispatch_all (fs1 ++ Open id :: fs2) t = dispatch_all fs2 t2) as ->.
  { change (Open id :: fs2) with ([Open id] ++ fs2). by rewrite !dispatch_all_app. }
  destruct (dispatch_all_step fs1 t Hok) as [Hok1 _]. destruct (dispatch_step (Open id) t1 Hok1) as [Hok2 Ha2].
  assert (forall o p, (o, Data id p) ∈ answered fs2 t2 -> an_send o = Sent) as Ho2.
  { intros o p Hin. apply (Ho o p). rewrite answered_app. apply elem_of_app. right. cbn [answered]. by right. }
  destruct (mpsc_channel INBOUND_CAPACITY (env t1)) as [[c rx] w] eqn:Em.
  assert (registry t2 !! id = Some c) as Hc by (unfold t2; cbn [dispatch]; rewrite Em; apply lookup_insert_eq).
  assert (history c (env t2) = []) as Hnew.
  { assert (open_streams (abs t2) !! id = Some []) as Hopen by (unfold t2; rewrite Ha2; apply lookup_insert_eq).
    unfold abs in Hopen. simpl in Hopen. rewrite lookup_fmap, Hc in Hopen. by injection Hopen. }
  destruct (stream_closes id c cs fs2 t2 Hok2 Hc H2 Ho2) as (Hr & Hd & Hh). rewrite Hnew in Hh.
  exists fs1, c, rx, w. split_and!; [| done | done | done | done].
  exists fs2. by rewrite <- app_assoc.
Qed.

(** ** The whole path *)

(** What the frame channel has taken. *)
Lemma accepted_queued fs w w' : accepted fs w w' -> queued w' = queued w ++ fs.
Proof.
  induction 1 as [w | f fs w w1 w2 Hf _ IH]; [by rewrite app_nil_r |].
  rewrite IH. pose proof (frames_queued f w) as Hq. rewrite Hf in Hq. simpl in Hq. rewrite Hq. by rewrite <- app_assoc.
Qed.

(** What the downlink of a pump does with all that a closed channel held. *)
Lemma down_all cs : down (((fun p => InChunk p Written) <$> cs) ++ [InClosed]) = (true, (LocalWrite <$> cs) ++ [LocalFin]).
Proof. unfold down. rewrite down_loop_written. cbn [down_loop]. by rewrite app_nil_r. Qed.

(** The uplink of a pump over a whole input. *)
Lemma up_all id cs rest t w :
  Forall (fun c => c <> [] /\ len c <= READ_BUF) cs -> accepted ((Data id <$> cs) ++ [Close id]) (env t) w ->
  up id ((ReadData <$> cs) ++ ReadData [] :: rest) t = (true, set_env w t) /\
  queued w = queued (env t) ++ (Data id <$> cs) ++ [Close id].
Proof.
  intros Hcs Ha. split; [| by apply accepted_queued].
  unfold up. apply accepted_app in Ha as (w1 & H1 & H2). rewrite (up_loop_reads id cs _ t w1) by done.
  inversion H2 as [| f l w0 w2 w3 Hsend Hr]; subst. inversion Hr; subst.
  simpl. unfold close, send_frame. cbn [env set_env]. by rewrite Hsend.
Qed.

(** The bytes [cs] of a socket, read at the end with tunnel [tU] by the pump of
    stream [id], its uplink queueing frames up to the world [w], and what the
    peer's reader gets: the frames [fs] the sending writer takes are those of any
    streams, [id]'s being [pre] and what the uplink queues, and the bytes of the
    wire come in any reads [wire]. *)
Record sent_over (tx : codec) (id : Z) (tU tS : Tunnel) (pre : list Frame) (cs : list (list Z)) (w : world)
    (fs : list Frame) (wire : list (list Z)) : Prop := {
  so_reads : Forall (fun c => c <> [] /\ len c <= READ_BUF) cs;
  so_accepted : accepted ((Data id <$> cs) ++ [Close id]) (env tU) w;
  so_wf : Forall wf_frame fs;
  so_own : filter (fun f => own_frame id f = true) fs = pre ++ (Data id <$> cs) ++ [Close id];
  so_wire : exists c' rs tW tW', writer_run (WvFrame <$> fs) [] tx tW = (c', rs, None, tW') /\ concat wire = concat rs;
  so_split : Forall (fun c => c <> []) wire;
  so_taken : forall o p, (o, Data id p) ∈ answered fs tS -> an_send o = Sent;
}.

(** From the end that opens a stream to the other: the uplink queues one DATA
    frame per read and a CLOSE; the reader makes a channel at the OPEN, whose
    receiver the callback's pump gets; at the end that channel is closed and
    holds the reads; the downlink that receives them writes them and shuts the
    destination's write side down. *)
Definition proxies (tx rx : codec) (id : Z) (tU tS : Tunnel) : Prop :=
  forall cs w fs wire, sent_over tx id tU tS [Open id] cs w fs wire ->
    (forall rest, up id ((ReadData <$> cs) ++ ReadData [] :: rest) tU = (true, set_env w tU)) /\
    queued w = queued (env tU) ++ (Data id <$> cs) ++ [Close id] /\
    exists r' tS' fs1 c rxc w1,
      reader_run (reads wire) (reader_new rx) tS = (r', Continue, tS') /\ dead tS' = false /\
      fs1 ++ [Open id] `prefix_of` fs /\
      mpsc_channel INBOUND_CAPACITY (env (dispatch_all fs1 tS)) = ((c, rxc), w1) /\
      (forall t, env (server_on_open UpstreamConnected id rxc t) = spawn (TaskPump id rxc) (env t)) /\
      detached c tS' /\ history c (env tS') = cs /\
      down (((fun p => InChunk p Written) <$> history c (env tS')) ++ [InClosed]) = (true, (LocalWrite <$> cs) ++ [LocalFin]).

(** And back, on a stream that is open on [tC] with the empty channel [c]. *)
Definition answers (tx rx : codec) (id : Z) (c : sender) (tU tC : Tunnel) : Prop :=
  forall cs w fs wire, sent_over tx id tU tC [] cs w fs wire ->
    (forall rest, up id ((ReadData <$> cs) ++ ReadData [] :: rest) tU = (true, set_env w tU)) /\
    queued w = queued (env tU) ++ (Data id <$> cs) ++ [Close id] /\
    exists r' tC',
      reader_run (reads wire) (reader_new rx) tC = (r', Continue, tC') /\ dead tC' = false /\
      detached c tC' /\ history c (env tC') = cs /\
      down (((fun p => InChunk p Written) <$> history c (env tC')) ++ [InClosed]) = (true, (LocalWrite <$> cs) ++ [LocalFin]).

Lemma synced_proxies tx rx id tU tS :
  synced tx rx -> dead tS = false -> channels_ok tS -> proxies tx rx id tU tS.
Proof using PL.
  intros Hs Hd Hok cs w fs wire [Hcs Ha Hwf Hf (c' & rs & tW & tW' & Hw & Heq) Hwire Ho].
  split; [intros rest; by apply up_all |]. split; [by apply (up_all id cs [] tU w) |].
  destruct (written_dispatched fs tx rx c' rs tW tW' wire tS) as [r' Hrun]; try done.
  destruct (stream_lifetime id cs fs tS Hok Hf Ho) as (fs1 & c & rxc & w1 & Hpre & Hm & _ & Hdet & Hh).
  exists r', (dispatch_all fs tS), fs1, c, rxc, w1.
  split_and!; [done | by rewrite dispatch_all_dead | done | done | done | done | done |].
  rewrite Hh. apply down_all.
Qed.

Lemma synced_answers tx rx id c tU tC :
  synced tx rx -> dead tC = false -> channels_ok tC -> registry tC !! id = Some c -> history c (env tC) = [] ->
  answers tx rx id c tU tC.
Proof using PL.
  intros Hs Hd Hok Hr Hnew cs w fs wire [Hcs Ha Hwf Hf (c' & rs & tW & tW' & Hw & Heq) Hwire Ho].
  split; [intros rest; by apply up_all |]. split; [by apply (up_all id cs [] tU w) |].
  destruct (written_dispatched fs tx rx c' rs tW tW' wire tC) as [r' Hrun]; try done.
  destruct (stream_closes id c cs fs tC Hok Hr Hf Ho) as (_ & Hdet & Hh). rewrite Hnew in Hh. simpl in Hh.
  exists r', (dispatch_all fs tC). split_and!; [done | by rewrite dispatch_all_dead | done | done |].
  rewrite Hh. apply down_all.
Qed.

Context {QC : QeliCore} {QL : QeliLaws PC QC}.

(** An attempt that meets neither a failing dial nor a death. *)
Definition undisturbed (ev : dial_event) : attempt_env :=
  {| ae_dial := ev; ae_before_open := None; ae_after_open := None |}.

(** (C1) A proxied connection, from the password to the destination. A client
    without a tunnel and a server with the same password (the client's pin, if
    any, being the server's key) exchange two byte sequences, in any split into
    reads; a local connection is then accepted at the first attempt, on stream 1
    of the tunnel just dialled, registered with a new channel whose receiver its
    pump gets, its OPEN the first frame queued; the server's connection has a live
    tunnel; and from the local socket to the destination everything arrives: what
    the application writes, in any reads and among the frames of any other
    streams, is written to the destination, all of it and in order, followed by
    the shutdown of its write side, and nothing else is. What the destination
    answers arrives in the same way, whatever tunnel state the client has by
    then, as long as the stream is open. *)
Theorem proxied_connection release (m : TunnelManager) (sc : ServerConfig) gc gs ws pc ps wc a2 tx rxr w0 w1 :
  let cc := tm_config m in
  validate_sni (ct_sni cc) = Ok tt -> message_ok release (ct_password cc) (tm_device_id m) ->
  sc_password sc = ct_password cc ->
  (forall k, ct_server_public_key cc = Some k -> k = static_public (static_kp sc)) ->
  tm_current m = None ->
  mpsc_channel INBOUND_CAPACITY wc = ((tx, rxr), w0) -> frames_send (Open 1) w0 = (true, w1) ->
  exists c2s s2c (hc : ClientHandshake) (hs : ServerHandshake) tU tS,
    (forall cs io, Forall (fun c => c <> []) cs -> concat cs = concat s2c ->
       accept_connection m (undisturbed (Connected gc ((ReadData <$> cs) ++ io) (replicate 2 true) pc wc)) a2
         = (Ok 1, set_current (Some tU) m)) /\
    dead tU = false /\ queued (env tU) = queued wc ++ [Open 1] /\
    registry tU = {[ 1 := tx ]} /\ (exists w, env tU = spawn (TaskPump 1 rxr) w) /\
    channels_ok tU /\ history tx (env tU) = [] /\
    (forall cs io, Forall (fun c => c <> []) cs -> concat cs = concat c2s ->
       handle_conn release sc {| cn_seed := gs; cn_reads := (ReadData <$> cs) ++ io;
           cn_writes := replicate 7 true; cn_peer := ps; cn_world := ws |} = Some tS) /\
    proxies (ch_tx hc) (sh_rx hs) 1 tU tS /\
    (forall id c tV tC, dead tC = false -> channels_ok tC -> registry tC !! id = Some c -> history c (env tC) = [] ->
       answers (sh_tx hs) (ch_rx hc) id c tV tC).
Proof using PL TL QL.
  intros cc Hsni Hm Hpw Hpin Hcur Hch Hfs.
  destruct (honest_handshakes release gc gs (static_kp sc) (ct_sni cc) (ct_password cc) (tm_device_id m)
    (ct_server_public_key cc) Hsni Hm Hpin) as (c2s & s2c & hc & hs & Hc & Hs & Hcs & Hsc & _).
  set (tF := (spawn_tunnel (ct_ping_secs cc) pc wc).1).
  exists c2s, s2c, hc, hs,
    (set_env (spawn (TaskPump 1 rxr) w1) (set_registry {[ 1 := tx ]} (set_next_id 2 tF))),
    (spawn_tunnel (sc_ping_secs sc) ps ws).1.
  destruct (channel_new _ _ _ _ _ Hch) as (_ & Hiss & Hnew & Hqu).
  destruct (frames_channels (Open 1) w0 tx Hiss) as [Hi1 Hh1]. rewrite Hfs in Hi1, Hh1.
  destruct (spawn_channels (TaskPump 1 rxr) w1 tx Hi1) as [Hi2 Hh2].
  split_and!; [| done | | done | by eexists | | exact (eq_trans Hh2 (eq_trans Hh1 Hnew)) | | |].
  - intros cs io Hne Hb. destruct (Hc cs [] io Hne) as [rest Hrun]; [by rewrite app_nil_r |].
    unfold accept_connection. cbn [attempts]. unfold attempt, tunnel. rewrite Hcur.
    unfold dial, undisturbed. cbn [ae_dial ae_before_open ae_after_open]. fold cc. rewrite Hrun.
    cbn [fst snd spawn_tunnel alloc_id env set_env set_next_id next_id]. rewrite Hch.
    unfold open, send_frame. cbn [interfere register snd env set_env set_registry]. rewrite Hfs.
    cbn. reflexivity.
  - cbn [env set_env]. rewrite spawn_queued. pose proof (frames_queued (Open 1) w0) as Hq. rewrite Hfs in Hq.
    simpl in Hq. by rewrite Hq, Hqu.
  - split; cbn; [by intros ? ? [<- <-]%lookup_singleton_Some | by intros ? ? ? [<- _]%lookup_singleton_Some [<- _]%lookup_singleton_Some].
  - intros cs io Hne Hb. destruct (Hs cs [] io Hne) as [rest Hrun]; [by rewrite app_nil_r |].
    unfold handle_conn. cbn [cn_seed cn_reads cn_writes cn_peer cn_world]. by rewrite Hpw, Hrun.
  - apply synced_proxies; [done | done | apply fresh_channels_ok].
  - intros id c tV tC Hd Hok Hr Hh. by apply synced_answers.
Qed.

End connection.

(** ** Witness *)

Lemma proxied_connection_witness :
  exists (s2c : list (list Z)) (hc : @ClientHandshake toy_codec) (hs : @ServerHandshake toy_codec) tU tS,
    @accept_connection toy_codec toy_tokio toy_core toy_session_manager
      (undisturbed (@Connected toy_tokio toy_core 1 ((ReadData <$> filter (fun c => c <> []) s2c) ++ []) (replicate 2 true)
        (lit "s") toy_world0)) (undisturbed DialElapsed)
      = (Ok 1, set_current (Some tU) toy_session_manager) /\
    @proxies toy_codec toy_tokio toy_tokio_laws (ch_tx hc) (sh_rx hs) 1 tU tS /\
    @answers toy_codec toy_tokio toy_tokio_laws (sh_tx hs) (ch_rx hc) 1 0%nat tS tU.
Proof.
  destruct (@proxied_connection toy_codec toy_codec_laws toy_tokio toy_tokio_laws toy_core toy_core_laws None
    toy_session_manager toy_server_config 1 2 toy_world0 (lit "s") (lit "c") toy_world0 (undisturbed DialElapsed)
    0%nat 0%nat _ _ eq_refl toy_message_ok eq_refl ltac:(intros k [= <-]; reflexivity) eq_refl eq_refl eq_refl)
    as (c2s & s2c & hc & hs & tU & tS & Hacc & Hd & _ & Hreg & _ & Hok & Hh & _ & Hp & Ha).
  exists s2c, hc, hs, tU, tS. split; [| split; [exact Hp |]].
  - apply (Hacc (filter (fun c => c <> []) s2c) []); apply (concat_nonempty s2c).
  - apply Ha; [exact Hd | exact Hok | rewrite Hreg; reflexivity | exact Hh].
Defined.

(** A connection that sends two reads and closes, with a PING and another
    stream's frames between: the destination gets both writes and the FIN. *)
Definition toy_upload : list Frame :=
  [Open 1; Open 3; Data 1 [104; 105]; Ping [1; 2; 3; 4; 5; 6; 7; 8]; Data 3 [120]; Data 1 [33]; Close 1].

Lemma toy_sent_over :
  exists w, @sent_over toy_codec toy_tokio tt 1 toy_tunnel toy_tunnel [Open 1] [[104; 105]; [33]] w toy_upload
    [concat (toy_rec <$> toy_upload)].
Proof.
  destruct toy_accepted as [w Hw]. exists w. split.
  - repeat constructor; try discriminate; unfold len, READ_BUF, MAX_DATA; simpl; lia.
  - exact Hw.
  - repeat constructor; cbv; congruence.
  - reflexivity.
  - exists tt, (toy_rec <$> toy_upload), toy_tunnel. eexists. split; [vm_compute; reflexivity | reflexivity].
  - repeat constructor. discriminate.
  - intros o p Hin. apply list_elem_of_In in Hin. vm_compute in Hin. naive_solver.
Qed.
