(* ===== verification/Deadlines.v ===== *)
(** * Deadlines: the timeouts of the handshake, the dial and the upstream
    connection (handshake.rs, client.rs, server.rs)

    [Handshake] and [Client] take what happens before a deadline as given. Here
    it is computed: a socket delivers its reads and accepts its writes at times
    of its own, a program's clock is the time of the last thing it has waited
    for, and [timeout] cuts it off. Times are in milliseconds. *)

From Stdlib Require Import Ascii String.
From S2P Require Import Prelude Mux Records External RustStr NetAddr Opts Handshake Carrier Client Server.

(** ** The clock of a program *)

(** A socket's events with the time of each; an event is seen when it and all
    before it have happened. *)
Abbreviation timed A := (list (Z * A)).

(** The events seen by time [d]. *)
Fixpoint before {A} (d : Z) (l : timed A) : list A :=
  match l with
  | [] => []
  | (t, e) :: l => if t <=? d then e :: before d l else []
  end.

(** [read_record] with its clock. *)
Fixpoint timed_read (buf : list Z) (io : timed (read_event unit)) (now : Z)
  : option (result (read_error unit) (list Z) * list Z * timed (read_event unit) * Z) :=
  match reader_try buf with
  | Some (r, buf') => Some (Ok r, buf', io, now)
  | None =>
      match io with
      | [] => None
      | (t, ReadError e) :: io' => Some (Err (IoError e), buf, io', Z.max now t)
      | (t, ReadData chunk) :: io' =>
          if (length chunk =? 0)%nat then Some (Err UnexpectedEof, buf, io', Z.max now t)
          else timed_read (buf ++ chunk) io' (Z.max now t)
      end
  end.

(** [run_proc] with its clock: the outcome and its time. *)
Fixpoint timed_run {A} (p : proc A) (buf : list Z) (reads : timed (read_event unit)) (writes : timed bool) (now : Z)
  : outcome A * Z :=
  match p with
  | Ret a => (Done a, now)
  | Handshake.Panic => (Panicked, now)
  | Write bs k =>
      match writes with
      | [] => (Pending, now)
      | (t, ok) :: writes => timed_run (k ok) buf reads writes (Z.max now t)
      end
  | ReadRecord k =>
      match timed_read buf reads now with
      | None => (Pending, now)
      | Some (r, buf, reads, now) => timed_run (k r) buf reads writes now
      end
  end.

(** [tokio::time::timeout]: the future is polled first, so one that is ready at
    the deadline is not cut off. *)
Definition timeout {A B} (deadline : Z) (elapsed : B) (done : outcome A -> B) (r : outcome A * Z) : B * Z :=
  match r with
  | (Pending, _) => (elapsed, deadline)
  | (o, t) => if t <=? deadline then (done o, t) else (elapsed, deadline)
  end.

(** ** Lemmas *)

Lemma timed_read_mono buf io now r buf' io' now' :
  timed_read buf io now = Some (r, buf', io', now') -> now <= now'.
Proof.
  revert buf now. induction io as [| [t [chunk | e]] io IH]; intros buf now; cbn [timed_read];
    (destruct (reader_try buf) as [[x b] |]; [by intros [= _ _ _ <-] |]).
  - done.
  - destruct (length chunk =? 0)%nat; [intros [= _ _ _ <-]; lia |]. intros H. apply IH in H. lia.
  - intros [= _ _ _ <-]. lia.
Qed.

Lemma timed_run_mono {A} (p : proc A) buf reads writes now : now <= (timed_run p buf reads writes now).2.
Proof.
  revert buf reads writes now. induction p as [a | | bs k IH | k IH]; intros buf reads writes now; cbn [timed_run];
    simpl; try lia.
  - destruct writes as [| [t ok] writes]; simpl; [lia |]. specialize (IH ok buf reads writes (Z.max now t)). lia.
  - destruct (timed_read buf reads now) as [[[[r b] io] now'] |] eqn:E; simpl; [| lia].
    apply timed_read_mono in E. specialize (IH r b io writes now'). lia.
Qed.

(** What a deadline leaves of an outcome. *)
Definition by_deadline {A} (d : Z) (r : outcome A * Z) : outcome A := if r.2 <=? d then r.1 else Pending.

Lemma by_deadline_late {A} d (p : proc A) buf reads writes now :
  d < now -> by_deadline d (timed_run p buf reads writes now) = Pending.
Proof.
  intros Hd. unfold by_deadline. pose proof (timed_run_mono p buf reads writes now).
  by destruct (Z.leb_spec (timed_run p buf reads writes now).2 d); [lia |].
Qed.

(** A record is read by the deadline exactly when the reads seen by then hold it. *)
Lemma timed_read_before d buf io now :
  now <= d ->
  match timed_read buf io now with
  | Some (r, buf', io', now') =>
      if now' <=? d then read_record buf (before d io) = Some (r, buf', before d io')
      else read_record buf (before d io) = None
  | None => read_record buf (before d io) = None
  end.
Proof.
  revert buf now. induction io as [| [t ev] io IH]; intros buf now Hn; cbn [timed_read before].
  - cbn [read_record]. destruct (reader_try buf) as [[x b] |] eqn:E; [| done].
    destruct (Z.leb_spec now d); [done | lia].
  - destruct (reader_try buf) as [[x b] |] eqn:E.
    + destruct (Z.leb_spec now d); [| lia]. destruct (t <=? d) eqn:Et; cbn [read_record before]; rewrite E, ?Et; done.
    + destruct (Z.leb_spec t d) as [Ht | Ht].
      * cbn [read_record]. rewrite E. destruct ev as [chunk | e].
        -- destruct (length chunk =? 0)%nat; [by destruct (Z.leb_spec (Z.max now t) d); [| lia] |]. apply IH. lia.
        -- by destruct (Z.leb_spec (Z.max now t) d); [| lia].
      * assert (read_record buf (@nil (read_event unit)) = None) as -> by (cbn [read_record]; by rewrite E).
        destruct ev as [chunk | e]; [destruct (length chunk =? 0)%nat |];
          try (by destruct (Z.leb_spec (Z.max now t) d); [lia |]).
        destruct (timed_read (buf ++ chunk) io (Z.max now t)) as [[[[r b] io'] now'] |] eqn:Er; [| done].
        apply timed_read_mono in Er. by destruct (Z.leb_spec now' d); [lia |].
Qed.

(** A program's outcome by a deadline is its outcome on what was seen by then. *)
Lemma timed_run_before {A} d (p : proc A) buf reads writes now :
  now <= d -> by_deadline d (timed_run p buf reads writes now) = (run_proc p buf (before d reads) (before d writes)).1.1.
Proof.
  revert buf reads writes now. induction p as [a | | bs k IH | k IH]; intros buf reads writes now Hn;
    cbn [timed_run run_proc].
  - unfold by_deadline. simpl. by destruct (Z.leb_spec now d); [| lia].
  - unfold by_deadline. simpl. by destruct (Z.leb_spec now d); [| lia].
  - destruct writes as [| [t ok] writes]; cbn [before]; [unfold by_deadline; simpl; by destruct (now <=? d) |].
    destruct (Z.leb_spec t d) as [Ht | Ht].
    + rewrite IH by lia. by destruct (run_proc (k ok) buf (before d reads) (before d writes)) as [[o out] rest].
    + apply by_deadline_late. lia.
  - pose proof (timed_read_before d buf reads now Hn) as Hr.
    destruct (timed_read buf reads now) as [[[[r b] io] now'] |].
    + destruct (Z.leb_spec now' d) as [Hd | Hd]; rewrite Hr; [by apply IH |]. by apply by_deadline_late.
    + rewrite Hr. unfold by_deadline. simpl. by destruct (now <=? d).
Qed.

(** [timeout] answers between the start and the deadline, with the future's value
    by the deadline. *)
Lemma timeout_spec {A B} now deadline (elapsed : B) (done : outcome A -> B) r :
  now <= r.2 -> now <= deadline ->
  now <= (timeout deadline elapsed done r).2 <= deadline /\
  (timeout deadline elapsed done r).1 =
    match by_deadline deadline r with Pending => elapsed | o => done o end.
Proof.
  destruct r as [o t]. unfold timeout, by_deadline. simpl. intros H1 H2.
  destruct o; destruct (Z.leb_spec t deadline); simpl; split; done || lia.
Qed.

Section deadlines.
Context {PC : PacketCodec} {TK : Tokio} {QC : QeliCore}.

(** ** The handshakes *)

Definition timed_client_handshake (seed : rng) (sni password device_id : list Z) (pinned : option (list Z))
  (d now : Z) (reads : timed (read_event unit)) (writes : timed bool)
  : outcome (result HsError ClientHandshake) * Z :=
  timeout (now + d) (Done (Err TimedOut)) id
    (timed_run (client_handshake_inner seed sni password device_id pinned) [] reads writes now).

Definition timed_server_handshake (release : option (list Z)) (seed : rng) (sk : static_keypair) (password : list Z)
  (d now : Z) (reads : timed (read_event unit)) (writes : timed bool)
  : outcome (result HsError ServerHandshake) * Z :=
  timeout (now + d) (Done (Err TimedOut)) id
    (timed_run (server_handshake_inner release seed sk password) [] reads writes now).

Lemma timed_handshake {A} (p : proc (result HsError A)) d now reads writes :
  0 <= d ->
  let r := timeout (now + d) (Done (Err TimedOut)) id (timed_run p [] reads writes now) in
  r.1 = with_timeout (run_proc p [] (before (now + d) reads) (before (now + d) writes)).1.1 /\
  now <= r.2 <= now + d /\ r.1 <> Pending.
Proof.
  intros Hd r. pose proof (timed_run_mono p [] reads writes now) as Hm.
  destruct (timeout_spec now (now + d) (Done (Err TimedOut)) id _ Hm ltac:(lia)) as [Ht Hv]. fold r in Ht, Hv.
  rewrite timed_run_before in Hv by lia. rewrite Hv. split; [| split; [exact Ht |]];
    by destruct (run_proc p [] (before (now + d) reads) (before (now + d) writes)).1.1.
Qed.

Lemma client_handshake_outcome seed sni password device_id pinned reads writes :
  (client_handshake seed sni password device_id pinned reads writes).1.1 =
    with_timeout (run_proc (client_handshake_inner seed sni password device_id pinned) [] reads writes).1.1.
Proof. unfold client_handshake. by destruct (run_proc _ [] reads writes) as [[o out] rest]. Qed.

Lemma server_handshake_outcome release seed sk password reads writes :
  (server_handshake release seed sk password reads writes).1.1 =
    with_timeout (run_proc (server_handshake_inner release seed sk password) [] reads writes).1.1.
Proof. unfold server_handshake. by destruct (run_proc _ [] reads writes) as [[o out] rest]. Qed.

(** ** The dial *)

(** What a connect meets: it never completes, fails, or succeeds at a time, and
    whether the socket option takes; then the socket and its display form. *)
Inductive connect_event : Type :=
| NeverConnects
| ConnectFails (t : Z)
| Connects (t : Z) (nodelay : bool) (seed : rng) (reads : timed (read_event unit)) (writes : timed bool)
    (peer : list Z) (w : world).

Definition dial_ms (cfg : ClientTunnelConfig) : Z := 1000 * ct_dial_timeout cfg.

(** The future of [dial]: the handshake has the whole timeout again. *)
Definition connecting (m : TunnelManager) (now : Z) (ev : connect_event)
  : outcome (result dial_error (list Z * world)) * Z :=
  let cfg := tm_config m in
  match ev with
  | NeverConnects => (Pending, now)
  | ConnectFails t => (Done (Err ConnectError), Z.max now t)
  | Connects t false _ _ _ _ _ => (Done (Err NodelayError), Z.max now t)
  | Connects t true seed reads writes peer w =>
      let '(o, t') := timed_client_handshake seed (ct_sni cfg) (ct_password cfg) (tm_device_id m)
                        (ct_server_public_key cfg) (dial_ms cfg) (Z.max now t) reads writes in
      (match o with
       | Done (Ok _) => Done (Ok (peer, w))
       | Done (Err e) => Done (Err (HandshakeError e))
       | Panicked => Panicked
       | Pending => Pending
       end, t')
  end.

Definition timed_dial (m : TunnelManager) (now : Z) (ev : connect_event)
  : result dial_error (Tunnel * list loop_name) * Z :=
  timeout (now + dial_ms (tm_config m)) (Err DialTimedOut)
    (fun o => match o with
              | Done (Ok (peer, w)) => Ok (spawn_tunnel (ct_ping_secs (tm_config m)) peer w)
              | Done (Err e) => Err e
              | Panicked | Pending => Err HandshakePanic
              end)
    (connecting m now ev).

(** The event that [Client.dial] has for it: what the socket showed by the dial's
    own deadline. A connect that has not completed by then, and a handshake that
    still waits on what was read and written by then, have met the deadline;
    only when the connect took no time does the handshake's own timeout, which
    starts at the connect, end the waiting first. *)
Definition dial_event_of (m : TunnelManager) (now : Z) (ev : connect_event) : dial_event :=
  let cfg := tm_config m in
  let d := now + dial_ms cfg in
  match ev with
  | NeverConnects => DialElapsed
  | ConnectFails t => if t <=? d then ConnectFailed else DialElapsed
  | Connects t false _ _ _ _ _ => if t <=? d then NodelayFailed else DialElapsed
  | Connects t true seed reads writes peer w =>
      let still_waits :=
        match (run_proc (client_handshake_inner seed (ct_sni cfg) (ct_password cfg) (tm_device_id m)
                 (ct_server_public_key cfg)) [] (before d reads) (before d writes)).1.1 with
        | Pending => true
        | _ => false
        end in
      if (t <=? d) && negb (still_waits && (now <? t))
      then Connected seed (before d reads) (before d writes) peer w
      else DialElapsed
  end.

Lemma dial_timed_out m ev : dial m ev = Err DialTimedOut -> ev = DialElapsed.
Proof. unfold dial. intros H. by repeat case_match. Qed.

(** The dial's timeout over the handshake's, which starts later by the connect. *)
Lemma nested_timeout {A} (p : proc (result HsError A)) reads writes now t0 d :
  now <= t0 <= now + d ->
  let r := timeout (t0 + d) (Done (Err TimedOut)) id (timed_run p [] reads writes t0) in
  let o := (run_proc p [] (before (now + d) reads) (before (now + d) writes)).1.1 in
  t0 <= r.2 /\ r.1 <> Pending /\
  match o with
  | Pending => if now <? t0 then now + d < r.2 else r = (Done (Err TimedOut), now + d)
  | _ => r.1 = o /\ r.2 <= now + d
  end.
Proof.
  intros Ht r o. pose proof (timed_run_mono p [] reads writes t0) as Hm.
  pose proof (timed_run_before (now + d) p [] reads writes t0 ltac:(lia)) as Hb. fold o in Hb.
  unfold r, timeout, by_deadline in *. destruct (timed_run p [] reads writes t0) as [o' t'].
  simpl in Hm, Hb. rewrite <- Hb.
  destruct (Z.leb_spec t' (now + d)), o'; destruct (Z.leb_spec t' (t0 + d)); destruct (Z.ltb_spec now t0);
    simpl; split_and!; try done; try lia; by (replace t0 with now by lia) || (f_equal; lia).
Qed.

(** The timed dial is the untimed one on what was seen by the deadline. *)
Lemma timed_dial_spec m now ev :
  0 <= ct_dial_timeout (tm_config m) ->
  let r := timed_dial m now ev in
  now <= r.2 <= now + dial_ms (tm_config m) /\ r.1 = dial m (dial_event_of m now ev) /\
  (dial_event_of m now ev = DialElapsed -> r.2 = now + dial_ms (tm_config m)).
Proof.
  intros Hd. assert (0 <= dial_ms (tm_config m)) as Hd' by (unfold dial_ms; lia).
  unfold timed_dial, dial_event_of.
  destruct ev as [| t | t [] seed reads writes peer w]; cbn [connecting]; [simpl; split_and!; lia || done | | |].
  - unfold timeout. destruct (Z.leb_spec (Z.max now t) (now + dial_ms (tm_config m))),
      (Z.leb_spec t (now + dial_ms (tm_config m))); simpl; split_and!; lia || done.
  - unfold timed_client_handshake.
    set (p := client_handshake_inner seed _ _ _ _). destruct (Z.leb_spec t (now + dial_ms (tm_config m))) as [Ht | Ht].
    + pose proof (nested_timeout p reads writes now (Z.max now t) (dial_ms (tm_config m)) ltac:(lia)) as (Hm & Hp & Hn).
      destruct (timeout _ _ _ (timed_run p _ _ _ _)) as [o' t']. simpl in Hm, Hp, Hn. cbn [andb].
      pose proof (client_handshake_outcome seed (ct_sni (tm_config m)) (ct_password (tm_config m)) (tm_device_id m)
        (ct_server_public_key (tm_config m)) (before (now + dial_ms (tm_config m)) reads)
        (before (now + dial_ms (tm_config m)) writes)) as Ho. fold p in Ho.
      destruct (run_proc p [] _ _).1.1 as [x | |]; cbn [with_timeout] in Ho; cbn [andb negb].
      * destruct Hn as [-> Hle]. unfold timeout. destruct x; (destruct (Z.leb_spec t' (now + dial_ms (tm_config m))); [| lia]);
          cbn [fst snd dial]; rewrite Ho; split_and!; done || lia.
      * destruct Hn as [-> Hle]. unfold timeout. (destruct (Z.leb_spec t' (now + dial_ms (tm_config m))); [| lia]);
          cbn [fst snd dial]; rewrite Ho; split_and!; done || lia.
      * destruct (Z.ltb_spec now t), (Z.ltb_spec now (Z.max now t)); try lia; cbn [negb].
        -- unfold timeout. destruct o' as [[] | |]; try done; (destruct (Z.leb_spec t' (now + dial_ms (tm_config m))); [lia |]);
             simpl; split_and!; done || lia.
        -- injection Hn as -> ->. unfold timeout. rewrite Z.leb_refl. cbn [fst snd dial]. rewrite Ho. split_and!; done || lia.
    + pose proof (timed_handshake p (dial_ms (tm_config m)) (Z.max now t) reads writes Hd') as (_ & Hr & Hp).
      destruct (timeout _ _ _ (timed_run p _ _ _ _)) as [o' t']. simpl in Hr, Hp. unfold timeout.
      destruct o' as [[] | |]; try done; (destruct (Z.leb_spec t' (now + dial_ms (tm_config m))); [lia |]);
        simpl; split_and!; done || lia.
  - unfold timeout. destruct (Z.leb_spec (Z.max now t) (now + dial_ms (tm_config m))),
      (Z.leb_spec t (now + dial_ms (tm_config m))); simpl; split_and!; lia || done.
Qed.

(** ** The upstream connection of the server *)

(** [timeout(dial_timeout, TcpStream::connect(destination))], for a connect that
    completes at a time and succeeds or fails, or never completes. *)
Definition timed_upstream (cfg : ServerConfig) (now : Z) (ev : option (Z * bool)) : connect_outcome * Z :=
  timeout (now + 1000 * dial_timeout cfg) UpstreamElapsed
    (fun o => match o with Done true => UpstreamConnected | _ => UpstreamFailed end)
    (match ev with Some (t, ok) => (Done ok, Z.max now t) | None => (Pending, now) end).

(** ** The dials of waiting connections *)

(** The tasks in the queue of the manager's mutex, which is fair: each with the
    attempts it has left. The first dials; what each dial meets is [evs]. If it
    fails, the task is answered or queues up again for its next attempt; if it
    succeeds, its tunnel serves all that wait. The answers with their times. *)
Fixpoint dial_queue (m : TunnelManager) (now : Z) (evs : list connect_event) (q : list (nat * nat))
  : list (nat * result dial_error Tunnel * Z) :=
  match evs, q with
  | ev :: evs, (i, attempts_left) :: q =>
      match timed_dial m now ev, attempts_left with
      | (Ok (tunnel, _), t), _ => (i, Ok tunnel, t) :: ((fun e => (e.1, Ok tunnel, t)) <$> q)
      | (Err _, t), S (S more) => dial_queue m t evs (q ++ [(i, S more)])
      | (Err e, t), _ => (i, Err e, t) :: dial_queue m t evs q
      end
  | _, _ => []
  end.

Lemma dial_never m now : timed_dial m now NeverConnects = (Err DialTimedOut, now + dial_ms (tm_config m)).
Proof. reflexivity. Qed.

Lemma dial_queue_first m l l2 evs now :
  dial_queue m now (replicate (length l) NeverConnects ++ evs)
      (((fun i => (i, 2%nat)) <$> l) ++ ((fun i => (i, 1%nat)) <$> l2)) =
    dial_queue m (now + Z.of_nat (length l) * dial_ms (tm_config m)) evs ((fun i => (i, 1%nat)) <$> (l2 ++ l)).
Proof.
  revert l2 now. induction l as [| i l IH]; intros l2 now; simpl length.
  - rewrite app_nil_r. simpl. f_equal. lia.
  - cbn [replicate app dial_queue fmap list_fmap]. rewrite dial_never. rewrite <- app_assoc.
    change [(i, 1%nat)] with ((fun i => (i, 1%nat)) <$> [i]). rewrite <- fmap_app, IH.
    rewrite <- app_assoc. simpl. f_equal. lia.
Qed.

Lemma dial_queue_second m l now :
  dial_queue m now (replicate (length l) NeverConnects) ((fun i => (i, 1%nat)) <$> l) =
    imap (fun k i => (i, Err DialTimedOut, now + (Z.of_nat k + 1) * dial_ms (tm_config m))) l.
Proof.
  revert now. induction l as [| i l IH]; intros now; [done |].
  simpl length. cbn [replicate dial_queue fmap list_fmap imap]. rewrite dial_never, IH. simpl.
  f_equal; [f_equal; lia |]. apply imap_ext. intros k x _. simpl. f_equal. lia.
Qed.

(** ** Properties *)

(** (C29) A handshake ends by its deadline, on either side and whatever the peer
    sends and when: its answer is that of the untimed handshake on what the
    socket had delivered and taken by the deadline, a handshake that still waits
    then having timed out; it is never left waiting. *)
Theorem handshake_deadline release seed sk sni password device_id pinned d now reads writes :
  0 <= d ->
  (let '(o, t) := timed_client_handshake seed sni password device_id pinned d now reads writes in
   o = (client_handshake seed sni password device_id pinned (before (now + d) reads) (before (now + d) writes)).1.1 /\
   now <= t <= now + d /\ o <> Pending) /\
  (let '(o, t) := timed_server_handshake release seed sk password d now reads writes in
   o = (server_handshake release seed sk password (before (now + d) reads) (before (now + d) writes)).1.1 /\
   now <= t <= now + d /\ o <> Pending).
Proof.
  intros Hd. rewrite client_handshake_outcome, server_handshake_outcome. split.
  - pose proof (timed_handshake (client_handshake_inner seed sni password device_id pinned) d now reads writes Hd) as H.
    unfold timed_client_handshake. by destruct (timeout _ _ _ _).
  - pose proof (timed_handshake (server_handshake_inner release seed sk password) d now reads writes Hd) as H.
    unfold timed_server_handshake. by destruct (timeout _ _ _ _).
Qed.

(** (C28) A dial ends within the dial timeout, though its handshake is given that
    timeout anew after the connect. Its answer is that of the untimed dial on
    what the socket showed by that deadline: a connect that had not completed,
    or an (untimed) handshake that on the reads and writes seen by then still
    waits, times out, at the deadline and not before; every other dial is
    answered by what was seen. The server's connect to the destination is bounded
    in the same way, and succeeds exactly when it completes by then. *)
Theorem dial_deadline m now ev cfg up :
  0 <= ct_dial_timeout (tm_config m) -> 0 <= dial_timeout cfg ->
  (let '(r, t) := timed_dial m now ev in
   now <= t <= now + dial_ms (tm_config m) /\ r = dial m (dial_event_of m now ev) /\
   (r = Err DialTimedOut -> t = now + dial_ms (tm_config m))) /\
  (let '(o, t) := timed_upstream cfg now up in
   now <= t <= now + 1000 * dial_timeout cfg /\
   (o = UpstreamConnected <-> exists t', up = Some (t', true) /\ t' <= now + 1000 * dial_timeout cfg)).
Proof.
  intros Hd Hu. split.
  - pose proof (timed_dial_spec m now ev Hd) as (Ht & Hr & He). destruct (timed_dial m now ev) as [r t].
    simpl in Ht, Hr, He. split_and!; [lia.. | done |]. intros ->. apply He. by apply (dial_timed_out m).
  - unfold timed_upstream, timeout. destruct up as [[t' ok] |]; [| split; [lia |]; naive_solver].
    destruct (Z.leb_spec (Z.max now t') (now + 1000 * dial_timeout cfg)); split; try lia; destruct ok; naive_solver lia.
Qed.

(** Connections that wait for an unreachable server are answered one after
    another: the dials are neither shared nor remembered, so with [n] of them at
    once each answer waits for all first attempts and the earlier second
    ones, the last for [2 n] dial timeouts; each is told that the dial timed
    out, and the manager is as before. *)
Theorem blackholed_queue m n now a1 a2 :
  let d := dial_ms (tm_config m) in
  dial_queue m now (replicate (n + n) NeverConnects) ((fun i => (i, 2%nat)) <$> seq 0 n) =
    (fun i => (i, Err DialTimedOut, now + (Z.of_nat n + Z.of_nat i + 1) * d)) <$> seq 0 n /\
  (tm_current m = None -> ae_dial a1 = dial_event_of m now NeverConnects -> ae_dial a2 = dial_event_of m now NeverConnects ->
   accept_connection m a1 a2 = (Err (NoUsableTunnel (Some (TunnelError DialTimedOut))), m)).
Proof.
  intros d. split.
  - pose proof (dial_queue_first m (seq 0 n) [] (replicate n NeverConnects) now) as H1.
    simpl in H1. rewrite length_seq, app_nil_r, <- replicate_add in H1. rewrite H1.
    pose proof (dial_queue_second m (seq 0 n) (now + Z.of_nat n * dial_ms (tm_config m))) as H2.
    rewrite length_seq in H2. rewrite H2. apply list_eq. intros k. rewrite list_lookup_imap, list_lookup_fmap.
    destruct (seq 0 n !! k) as [i |] eqn:E; [| done]. simpl.
    apply lookup_seq in E as [-> _]. do 2 f_equal. fold d. lia.
  - intros Hc H1 H2. unfold accept_connection, attempts, attempt, tunnel, dial. by rewrite Hc, H1, H2; simpl; rewrite Hc.
Qed.

End deadlines.

(** ** Witnesses *)

(** The server of the client's tests, answering 30 ms after the connect. *)
Definition slow_server : timed (read_event unit) := pair 150 <$> toy_client_reads [].

Lemma handshake_deadline_witness :
  let '(o, t) := @timed_client_handshake toy_codec toy_core 1 (lit "s") (lit "p") toy_device None 1000 0 [] [(5, true)] in
  o <> Pending /\ 0 <= t <= 0 + 1000.
Proof.
  pose proof (@handshake_deadline toy_codec toy_core None 2 (5 : @static_keypair toy_core) (lit "s") (lit "p") toy_device
    None 1000 0 [] [(5, true)] ltac:(lia)) as [H _].
  destruct (timed_client_handshake _ _ _ _ _ _ _ _ _) as [o t]. split; apply H.
Defined.

Definition toy_connect : @connect_event toy_tokio toy_core :=
  @Connects toy_tokio toy_core 120 true 1 slow_server (replicate 2 (0, true)) (lit "s") toy_world0.

Lemma toy_timed_dial :
  @timed_dial toy_codec toy_tokio toy_core (mkManager toy_config toy_device None) 0 toy_connect
    = (Ok (@spawn_tunnel toy_tokio 2 (lit "s") toy_world0), 150).
Proof. vm_compute. reflexivity. Qed.

Lemma dial_deadline_witness :
  (let '(r, t) := @timed_dial toy_codec toy_tokio toy_core (mkManager toy_config toy_device None) 0 toy_connect in
   0 <= t <= 0 + 10000 /\ is_ok r = true) /\
  (@timed_upstream toy_core toy_server_config 0 (Some (3, true))).1 = UpstreamConnected.
Proof.
  destruct (@dial_deadline toy_codec toy_tokio toy_core (mkManager toy_config toy_device None) 0 toy_connect
    toy_server_config (Some (3, true)) ltac:(simpl; lia) ltac:(simpl; lia)) as [H1 H2].
  split.
  - rewrite toy_timed_dial in H1 |- *. split; [apply H1 | reflexivity].
  - destruct (timed_upstream _ _ _) as [o t]. destruct H2 as [_ H2]. apply H2. exists 3. split; [reflexivity | simpl; lia].
Defined.

Lemma blackholed_queue_witness :
  let m := mkManager toy_config toy_device None in
  @dial_queue toy_codec toy_tokio toy_core m 0 (replicate 6 NeverConnects) [(0, 2); (1, 2); (2, 2)]%nat
    = [(0%nat, Err DialTimedOut, 40000); (1%nat, Err DialTimedOut, 50000); (2%nat, Err DialTimedOut, 60000)] /\
  @accept_connection toy_codec toy_tokio toy_core m
    {| ae_dial := DialElapsed; ae_before_open := None; ae_after_open := None |}
    {| ae_dial := DialElapsed; ae_before_open := None; ae_after_open := None |}
    = (Err (NoUsableTunnel (Some (TunnelError DialTimedOut))), m).
Proof.
  destruct (@blackholed_queue toy_codec toy_tokio toy_core (mkManager toy_config toy_device None) 3 0
    {| ae_dial := DialElapsed; ae_before_open := None; ae_after_open := None |}
    {| ae_dial := DialElapsed; ae_before_open := None; ae_after_open := None |}) as [H1 H2].
  split; [exact H1 | exact (H2 eq_refl eq_refl eq_refl)].
Defined.
