(* ===== verification/Main.v ===== *)
(** * Main: the command line and the start of the two sides (main.rs, and the
    run functions of client.rs and server.rs)

    Arguments, the environment, the file system, the JSON parser, the hex-key
    parser and the resolver are parameters; what the process does is a value:
    print something, fail, or run one side with its listening address. *)

From Stdlib Require Import Ascii String.
From S2P Require Import Prelude Mux Records External RustStr NetAddr Opts Typing Handshake Carrier Client Server.

(** ** Running a side *)

Inductive launch {QC : QeliCore} : Type :=
| RunClient (listen : SocketAddr) (cfg : ClientTunnelConfig)
| RunServer (listen : SocketAddr) (cfg : ServerConfig).

(** [client::run] and [server::run] up to their listening socket; [None] is a
    failing debug assertion. The seed is that of a fresh server identity. *)
Definition client_run {QC : QeliCore} (opts : PluginOpts) (sip : Sip003) : option launch :=
  if decide (role opts = Client) then Some (RunClient (Opts.local sip) (from_opts opts sip)) else None.

Definition server_run {QC : QeliCore} (seed : rng) (opts : PluginOpts) (sip : Sip003) : option launch :=
  if decide (role opts = Server) then Some (RunServer (remote sip) (server_config opts sip seed)) else None.

(** ** The command line *)

Inductive cli_error : Type :=
| ConfigNeedsPath
| ExtraArgument (arg : list Z)
| UnknownFlag (arg : list Z)
| ReadFailed (path : list Z)
| OptsFailed (e : OptError).

Record cli : Type := mkCli {
  genkey : bool;
  role_flag : option Role;
  opts_arg : option (list Z);
  config_path : option (list Z)
}.

Definition cli0 : cli := mkCli false None None None.

Inductive parsed : Type :=
| ShowHelp
| ShowVersion
| Parsed (c : cli).

Fixpoint parse_args (args : list (list Z)) (c : cli) : result cli_error parsed :=
  match args with
  | [] => Ok (Parsed c)
  | arg :: rest =>
      if str_eqb arg (lit "--config") || str_eqb arg (lit "-c") then
        match rest with
        | [] => Err ConfigNeedsPath
        | path :: rest => parse_args rest (mkCli (genkey c) (role_flag c) (opts_arg c) (Some path))
        end
      else if str_eqb arg (lit "--genkey") || str_eqb arg (lit "-genkey") then
        parse_args rest (mkCli true (role_flag c) (opts_arg c) (config_path c))
      else if str_eqb arg (lit "--server") || str_eqb arg (lit "-s") then
        parse_args rest (mkCli (genkey c) (Some Server) (opts_arg c) (config_path c))
      else if str_eqb arg (lit "--client") then
        parse_args rest (mkCli (genkey c) (Some Client) (opts_arg c) (config_path c))
      else if str_eqb arg (lit "--help") || str_eqb arg (lit "-h") then Ok ShowHelp
      else if str_eqb arg (lit "--version") || str_eqb arg (lit "-v") || str_eqb arg (lit "-V") then Ok ShowVersion
      else if negb (starts_with (lit "-") arg) then
        match opts_arg c with
        | Some _ => Err (ExtraArgument arg)
        | None => parse_args rest (mkCli (genkey c) (role_flag c) (Some arg) (config_path c))
        end
      else Err (UnknownFlag arg)
  end.

(** What the process does. *)
Inductive action {QC : QeliCore} : Type :=
| PrintUsage
| PrintVersion
| PrintKeys (private_key public_key : option (list Z))
| Launch (l : option launch).

Section main.
Context {QC : QeliCore} (seed : rng).
Context (parse_pubkey_hex : list Z -> option (list Z))
  (lookup_host : list Z -> Z -> result resolve_error (list SocketAddr))
  (from_str : list Z -> option StandaloneFile)
  (read_to_string : list Z -> option (list Z))
  (env_var : list Z -> option (list Z)).

Definition run_role (r : Role) (opts : PluginOpts) (sip : Sip003) : action :=
  match r with
  | Client => Launch (client_run opts sip)
  | Server => Launch (server_run seed opts sip)
  end.

Definition lift {A} (r : result OptError A) : result cli_error A :=
  match r with
  | Ok a => Ok a
  | Err e => Err (OptsFailed e)
  end.

(** The standalone branch: the role flag overrides the file's role. *)
Definition main_standalone (flag : option Role) (path : list Z) : result cli_error action :=
  let? text := ok_or (read_to_string path) (ReadFailed path) in
  let? cfg := lift (parse_standalone_config lookup_host parse_pubkey_hex from_str text) in
  let role := default (cfg_role cfg) flag in
  let cfg := {| cfg_role := role; cfg_listen := cfg_listen cfg; cfg_remote := cfg_remote cfg;
                cfg_opts := set_role role (cfg_opts cfg) |} in
  let sip := standalone_sip003 cfg in
  Ok (run_role (cfg_role cfg) (cfg_opts cfg) sip).

(** The SIP003 branch: options from the argument or the environment. *)
Definition main_sip003 (flag : option Role) (arg : option (list Z)) : result cli_error action :=
  let raw_opts :=
    match arg with
    | Some raw => raw
    | None => default [] (env_var (lit "SS_PLUGIN_OPTIONS"))
    end in
  let? plugin_opts := lift (parse_plugin_opts parse_pubkey_hex raw_opts) in
  let plugin_opts := match flag with Some r => set_role r plugin_opts | None => plugin_opts end in
  let? sip := lift (sip003_from_env lookup_host env_var) in
  Ok (run_role (role plugin_opts) plugin_opts sip).

Definition main (args : list (list Z)) : result cli_error action :=
  let? p := parse_args args cli0 in
  match p with
  | ShowHelp => Ok PrintUsage
  | ShowVersion => Ok PrintVersion
  | Parsed c =>
      if genkey c then
        let kp := static_generate seed in
        Ok (PrintKeys (to_hex (private_bytes kp)) (to_hex (static_public kp)))
      else match config_path c with
           | Some path => main_standalone (role_flag c) path
           | None => main_sip003 (role_flag c) (opts_arg c)
           end
  end.

(** ** Lemmas *)

(** Where a side listens, whom it talks to, which password it uses. *)
Definition listen_of (l : launch) : SocketAddr :=
  match l with
  | RunClient listen _ => listen
  | RunServer listen _ => listen
  end.

Definition target_of (l : launch) : SocketAddr :=
  match l with
  | RunClient _ cfg => ct_remote cfg
  | RunServer _ cfg => destination cfg
  end.

Definition role_of (l : launch) : Role :=
  match l with
  | RunClient _ _ => Client
  | RunServer _ _ => Server
  end.

Definition password_of (l : launch) : list Z :=
  match l with
  | RunClient _ cfg => ct_password cfg
  | RunServer _ cfg => sc_password cfg
  end.

(** The keys a side runs with: the client's pin, the server's identity. *)
Definition keys_of (l : launch) : option (list Z) + static_keypair :=
  match l with
  | RunClient _ cfg => inl (ct_server_public_key cfg)
  | RunServer _ cfg => inr (static_kp cfg)
  end.

Definition keys_for (r : Role) (o : PluginOpts) : option (list Z) + static_keypair :=
  match r with
  | Client => inl (server_public_key o)
  | Server => inr (server_identity (server_private_key o) seed)
  end.

Lemma run_role_ok o sip :
  exists l, run_role (role o) o sip = Launch (Some l) /\ role_of l = role o /\ password_of l = password o /\
    keys_of l = keys_for (role o) o /\
    listen_of l = (if decide (role o = Client) then Opts.local sip else remote sip) /\
    target_of l = (if decide (role o = Client) then remote sip else Opts.local sip).
Proof. unfold run_role, client_run, server_run. destruct (role o) eqn:E; eexists; by rewrite ?E. Qed.

(** ** Properties *)

(** (C34) Whenever the process starts a side, its role assertion
    holds and: from a configuration file it listens on the file's listen address
    and talks to its remote, in either role, the flag overriding the file's
    role; otherwise it uses the parsed options and the environment, listening
    on the local address as a client and on the remote one as a server. The
    password and the keys (the client's pin, the server's identity) are the
    configured ones. *)
Theorem main_launch_spec args r :
  main args = Ok (Launch r) ->
  exists c l, parse_args args cli0 = Ok (Parsed c) /\ genkey c = false /\ r = Some l /\
  match config_path c with
  | Some path => exists text cfg,
      read_to_string path = Some text /\
      parse_standalone_config lookup_host parse_pubkey_hex from_str text = Ok cfg /\
      role_of l = default (cfg_role cfg) (role_flag c) /\ password_of l = password (cfg_opts cfg) /\
      keys_of l = keys_for (role_of l) (cfg_opts cfg) /\
      listen_of l = cfg_listen cfg /\ target_of l = cfg_remote cfg
  | None => exists o sip,
      parse_plugin_opts parse_pubkey_hex
        match opts_arg c with Some raw => raw | None => default [] (env_var (lit "SS_PLUGIN_OPTIONS")) end = Ok o /\
      sip003_from_env lookup_host env_var = Ok sip /\
      role_of l = default (role o) (role_flag c) /\ password_of l = password o /\
      keys_of l = keys_for (role_of l) o /\
      listen_of l = match role_of l with Client => Opts.local sip | Server => remote sip end /\
      target_of l = match role_of l with Client => remote sip | Server => local sip end
  end.
Proof.
  unfold main. destruct (parse_args args cli0) as [[| | c] | e]; try done. cbn [result_bind].
  destruct (genkey c) eqn:Hg; [done |]. destruct (config_path c) as [path |] eqn:Hp.
  - unfold main_standalone. destruct (read_to_string path) as [text |] eqn:Hr; [| done]. cbn [ok_or result_bind].
    destruct (parse_standalone_config _ _ _ text) as [cfg |] eqn:Hcfg; [| done]. cbn [lift result_bind].
    set (rl := default (cfg_role cfg) (role_flag c)). cbn [cfg_role cfg_opts].
    change rl with (role (set_role rl (cfg_opts cfg))) at 1.
    match goal with |- context [run_role _ ?o ?sip] =>
      destruct (run_role_ok o sip) as (l & Hl & H1 & H2 & Hk & H3 & H4) end.
    rewrite Hl. intros [= <-]. exists c, l. rewrite Hp. split_and!; [done.. |]. exists text, cfg.
    unfold standalone_sip003 in H3, H4. cbn [role set_role cfg_role] in *.
    split_and!; [done.. | | |]; destruct rl; simpl in *; rewrite ?H1; simpl; congruence.
  - unfold main_sip003. destruct (parse_plugin_opts _ _) as [o |] eqn:Ho; [| done]. cbn [lift result_bind].
    destruct (sip003_from_env _ _) as [sip |] eqn:Hs; [| done]. cbn [lift result_bind].
    match goal with |- context [run_role _ ?o ?sip] =>
      destruct (run_role_ok o sip) as (l & Hl & H1 & H2 & Hk & H3 & H4) end.
    rewrite Hl. intros [= <-]. exists c, l. rewrite Hp. split_and!; [done.. |]. exists o, sip.
    destruct (role_flag c) as [[|] |]; [| | destruct (role o) eqn:Er]; simpl in *; rewrite ?Er in *;
      rewrite Hk, H1, H2, H3, H4; by split_and!.
Qed.

(** (C35) The keys [--genkey] prints belong together: they are spelled in
    hexadecimal, the high digit of each byte first, and with the first as the
    server's [key=] option, the identity the server runs with, on any later
    start, is the one whose public key a client reads from the second as its
    [serverkey=] pin. Of the hex-key parser this uses that it reads every text
    of 64 digits, in either case, as the 32 bytes they spell. *)
Theorem genkey_pins {PC : PacketCodec} {QL : QeliLaws PC QC} args c :
  (forall s k, len k = 32 -> hex_text s k -> parse_pubkey_hex s = Some k) ->
  parse_args args cli0 = Ok (Parsed c) -> genkey c = true ->
  exists priv pub, main args = Ok (PrintKeys (Some priv) (Some pub)) /\
    hex_text priv (private_bytes (static_generate seed)) /\ hex_text pub (static_public (static_generate seed)) /\
    forall seed', parse_pubkey_hex pub = Some (static_public (server_identity (parse_pubkey_hex priv) seed')).
Proof using QC.
  intros Hhex Ha Hg. unfold main. rewrite Ha. cbn [result_bind]. rewrite Hg.
  set (kp := static_generate seed).
  destruct (private_bytes_bytes kp) as [Hb1 Hl1], (static_public_bytes kp) as [Hb2 Hl2].
  destruct (to_hex_text _ Hb1) as (priv & Hpriv & Ht1), (to_hex_text _ Hb2) as (pub & Hpub & Ht2).
  exists priv, pub. rewrite Hpriv, Hpub. split_and!; [done.. |]. intros seed'.
  rewrite (Hhex priv (private_bytes kp)), (Hhex pub (static_public kp)) by done.
  cbn [server_identity]. by rewrite identity_restored.
Qed.

End main.

(** ** Witnesses *)

Definition toy_env (name : list Z) : option (list Z) :=
  if str_eqb name (lit "SS_PLUGIN_OPTIONS") then Some (lit "password=x;s=1")
  else if str_eqb name (lit "SS_LOCAL_HOST") then Some (lit "127.0.0.1")
  else if str_eqb name (lit "SS_LOCAL_PORT") then Some (lit "8388")
  else if str_eqb name (lit "SS_REMOTE_HOST") then Some (lit "::")
  else if str_eqb name (lit "SS_REMOTE_PORT") then Some (lit "8443")
  else None.

(** The sample file started with the client flag, and the environment above. *)
Definition toy_client_launch : @launch toy_core :=
  RunClient (V6 [0; 0; 0; 0; 0; 0; 0; 0] 8443 0) {|
    ct_remote := V4 127 0 0 1 8080; ct_password := lit "p@ss=word"; ct_sni := lit "www.cloudflare.com";
    ct_server_public_key := None; ct_ping_secs := 5; ct_dial_timeout := 7 |}.

Definition toy_server_launch : @launch toy_core :=
  RunServer (V6 [0; 0; 0; 0; 0; 0; 0; 0] 8443 0) {|
    static_kp := (1 : @static_keypair toy_core); sc_password := lit "x"; destination := V4 127 0 0 1 8388;
    sc_ping_secs := 2; dial_timeout := 10 |}.

Lemma toy_main_client :
  @main toy_core 1 toy_pubkey_hex toy_lookup (fun _ => Some sample_file) Some toy_env
    [lit "-c"; lit "plugin.json"; lit "--client"] = Ok (Launch (Some toy_client_launch)).
Proof. vm_cast_no_check (@eq_refl _ (@Ok cli_error _ (Launch (Some toy_client_launch)))). Qed.

Lemma toy_main_server :
  @main toy_core 1 toy_pubkey_hex toy_lookup (fun _ => None) (fun _ => None) toy_env []
    = Ok (Launch (Some toy_server_launch)).
Proof. vm_cast_no_check (@eq_refl _ (@Ok cli_error _ (Launch (Some toy_server_launch)))). Qed.

Lemma main_launch_spec_witness :
  exists text cfg, Some (lit "plugin.json") = Some text /\
    parse_standalone_config toy_lookup toy_pubkey_hex (fun _ => Some sample_file) text = Ok cfg /\
    role_of toy_client_launch = Client /\ listen_of toy_client_launch = cfg_listen cfg.
Proof.
  destruct (@main_launch_spec toy_core 1 toy_pubkey_hex toy_lookup (fun _ => Some sample_file) Some toy_env _ _
    toy_main_client) as (c & l & Hc & _ & [= <-] & H).
  assert (config_path c = Some (lit "plugin.json")) as Hp by (vm_compute in Hc; by injection Hc as <-).
  rewrite Hp in H. destruct H as (text & cfg & Hr & Hcfg & _ & _ & _ & H3 & _).
  by exists text, cfg.
Defined.

Lemma genkey_pins_witness :
  exists priv pub,
    @main toy_core 7 toy_pubkey_hex toy_lookup (fun _ => None) (fun _ => None) toy_env [lit "--genkey"]
      = Ok (PrintKeys (Some priv) (Some pub)) /\
    toy_pubkey_hex pub = Some (static_public (@server_identity toy_core (toy_pubkey_hex priv) 9)).
Proof.
  destruct (@genkey_pins toy_core 7 toy_pubkey_hex toy_lookup (fun _ => None) (fun _ => None) toy_env
    toy_codec toy_core_laws [lit "--genkey"] (mkCli true None None None) toy_pubkey_of_text eq_refl eq_refl)
    as (priv & pub & H1 & _ & _ & H2).
  exists priv, pub. split; [exact H1 | exact (H2 9)].
Defined.

(** The usage text lists [-client]; the parser only knows [--client]. *)
Lemma dash_client_is_unknown rest : parse_args (lit "-client" :: rest) cli0 = Err (UnknownFlag (lit "-client")).
Proof. reflexivity. Qed.
