(* ===== verification/Usage.v ===== *)
(** * Usage: what the process prints (main.rs)

    The help text, the version and the generated keys as text on the standard
    output, and the help text held against the parsers it describes. *)

From Stdlib Require Import Ascii String.
From S2P Require Import Prelude RustStr NetAddr Opts ConfigText Handshake Main.

(** ** The text *)

Definition NEWLINE : list Z := [10].

(** [println!]. *)
Definition line (s : list Z) : list Z := s ++ NEWLINE.

(** The lines of [USAGE], with an apostrophe for the quotation mark. *)
Definition USAGE_LINES : list (list Z) :=
  (quoted <$> [
    "Usage of qeli-ss-plugin:";
    "  -c <file>";
    "        path to a JSON config file (standalone mode, see examples/)";
    "  -client";
    "        run as client (default)";
    "  -genkey";
    "        generate a new server identity key pair and exit";
    "  -h";
    "        print this help and exit";
    "  -s";
    "        run as server";
    "  -v";
    "        print version and exit";
    String.EmptyString;
    "Standalone config file (JSON, see examples/standalone-*.json):";
    "  role, listen, remote (alias: forward), password, sni, serverkey, key,";
    "  ping, timeout. listen and remote are required; IPv4 and bracketed IPv6";
    "  addresses are accepted ('[2001:db8::10]:8443').";
    String.EmptyString;
    "Under shadowsocks (SIP003): addresses come from the environment"]%string) ++
  [lit "(SS_LOCAL_HOST/PORT, SS_REMOTE_HOST/PORT " ++ [8212] ++ lit " IPv4 and IPv6); options come"] ++
  (quoted <$> [
    "from plugin_opts (SS_PLUGIN_OPTIONS or the first positional argument,";
    "k=v;... with \; \= \\ escapes):";
    "  s=1             run as server";
    "  password=<sec>  required; one password serves any number of clients";
    "  sni=<host>      fake-TLS SNI (default www.cloudflare.com)"]%string) ++
  [lit "  serverkey=<hex> client: pin the server's static public key";
   lit "  key=<hex>       server: static identity private key";
   lit "  ping=<secs>     keepalive interval (default 2; dead-peer detection " ++ [8804] ++ lit " ping+2s)";
   lit "  timeout=<secs>  connect/handshake timeout (default 10)"].

Definition USAGE : list Z := concat (line <$> USAGE_LINES).

(** What [main] prints before it returns; the sides print nothing. *)
Definition stdout {QC : QeliCore} (release : option (list Z)) (a : action) : list Z :=
  match a with
  | PrintUsage => USAGE
  | PrintVersion => line (VERSION release)
  | PrintKeys (Some priv) (Some pub) =>
      line (lit "private key (key=...):        " ++ priv) ++ line (lit "public  key (serverkey=...):  " ++ pub)
  | PrintKeys _ _ => []
  | Launch _ => []
  end.

(** ** The help text and the parsers *)

(** The word after the two leading spaces of a line, up to one of [stops]. *)
Fixpoint word (stops s : list Z) : list Z :=
  match s with
  | [] => []
  | c :: s => if existsb (Z.eqb c) stops then [] else c :: word stops s
  end.

Definition usage_flags : list (list Z) :=
  (fun l => word [32] (drop 2 l)) <$> filter (fun l => starts_with (lit "  -") l = true) USAGE_LINES.

Definition usage_options : list (list Z) :=
  (fun l => word [61] (drop 2 l)) <$>
    filter (fun l => starts_with (lit "  ") l = true /\ starts_with (lit "  -") l = false /\ existsb (Z.eqb 61) (take 13 l) = true)
      USAGE_LINES.

Definition known_flag (f : list Z) : bool :=
  match parse_args [f; lit "x"] cli0 with Err (UnknownFlag _) => false | _ => true end.

(** An option the parser knows does something with this value. *)
Definition known_option (k : list Z) : bool :=
  match parse_plugin_opts toy_pubkey_hex (lit "password=x;" ++ k ++ lit "=!"),
        parse_plugin_opts toy_pubkey_hex (lit "password=x") with
  | Ok o, Ok o0 => negb (bool_decide (o = o0))
  | _, _ => true
  end.

Example usage_lists :
  usage_flags = lit <$> ["-c"; "-client"; "-genkey"; "-h"; "-s"; "-v"]%string /\
  usage_options = lit <$> ["s"; "password"; "sni"; "serverkey"; "key"; "ping"; "timeout"]%string.
Proof. split; vm_compute; reflexivity. Qed.

(** The help text and the parsers: of the flags it lists all but [-client] are
    accepted; of the plugin options it lists all are known, another is ignored;
    and the defaults it states are those of the parser. *)
Theorem usage_agrees :
  filter (fun f => known_flag f = false) usage_flags = [lit "-client"] /\
  Forall (fun k => known_option k = true) usage_options /\ known_option (lit "other") = false /\
  exists o, parse_plugin_opts toy_pubkey_hex (lit "password=x") = Ok o /\
    sni o = lit "www.cloudflare.com" /\ ping_secs o = 2 /\ dial_timeout_secs o = 10 /\ role o = Client.
Proof.
  split; [vm_compute; reflexivity |]. split; [| split; [vm_compute; reflexivity |]].
  - replace usage_options with (lit <$> ["s"; "password"; "sni"; "serverkey"; "key"; "ping"; "timeout"]%string)
      by (symmetry; exact (proj2 usage_lists)).
    repeat constructor; vm_compute; reflexivity.
  - eexists. split; [vm_compute; reflexivity |]. by split_and!.
Qed.

(** The text of [--genkey], and the keys in it. *)
Lemma stdout_keys {QC : QeliCore} release priv pub :
  stdout release (PrintKeys (Some priv) (Some pub)) =
    lit "private key (key=...):        " ++ priv ++ NEWLINE ++
    lit "public  key (serverkey=...):  " ++ pub ++ NEWLINE.
Proof. unfold stdout, line. by rewrite <- !app_assoc. Qed.
