(* ===== verification/ReplayCodec.v ===== *)
(** * ReplayCodec: a codec with keys, counters and a replay check

    A second instance of [PacketCodec], closer to the record codec of the qeli
    core than the one of [External]: a record carries the key's tag and the
    sender's counter (one unbounded cell), and the receiver rejects a record
    whose tag is wrong or whose counter it has passed. It satisfies the laws, so
    they do not ask for more than a codec with replay protection gives; the tests
    run on it. *)

From S2P Require Import Prelude Mux Records External.

Record replay_codec : Type := mkReplay {
  rc_tag : Z;
  rc_next : Z;
}.

(** The tag of a key; corrupting it is what a flipped byte does. *)
Definition key_tag (key : list Z) : Z := be_decode key.

Definition replay_encrypt (c : replay_codec) (p : list Z) : result unit (list Z) * replay_codec :=
  if len p <=? 60000
  then (Ok ([23; 3; 3] ++ be_encode 2 (len p + 2) ++ rc_next c :: p ++ [rc_tag c]),
        mkReplay (rc_tag c) (rc_next c + 1))
  else (Err tt, c).

Definition replay_decrypt (c : replay_codec) (r : list Z) : result unit (list Z) * replay_codec :=
  match split_record r, drop HEADER r with
  | Some (_, []), counter :: body =>
      match last body with
      | Some t =>
          if (t =? rc_tag c) && (rc_next c <=? counter)
          then (Ok (take (length body - 1) body), mkReplay (rc_tag c) (counter + 1))
          else (Err tt, c)
      | None => (Err tt, c)
      end
  | _, _ => (Err tt, c)
  end.

Definition replay_packets : PacketCodec := {|
  codec := replay_codec;
  codec_new := fun key => mkReplay (key_tag key) 0;
  encrypt_packet := fun c p _ => replay_encrypt c p;
  decrypt_packet := replay_decrypt;
|}.

Definition replay_synced (tx rx : replay_codec) : Prop := rc_tag tx = rc_tag rx /\ rc_next rx <= rc_next tx.

Lemma replay_record p n t :
  len p <= 60000 -> is_record ([23; 3; 3] ++ be_encode 2 (len p + 2) ++ n :: p ++ [t]).
Proof.
  intros Hl. pose proof (len_nonneg p).
  change (is_record (([23; 3; 3] ++ be_encode 2 (len p + 2)) ++ n :: p ++ [t])).
  set (h := [23; 3; 3] ++ be_encode 2 (len p + 2)). assert (length h = HEADER) as Hh by reflexivity.
  split; [rewrite length_app, Hh; lia |]. rewrite declared_len_app by (by rewrite Hh).
  change (declared_len h) with (Z.to_nat (be_decode (be_encode 2 (len p + 2)))).
  rewrite be_decode_encode by (simpl Z.of_nat; lia).
  rewrite length_app, Hh. simpl length. rewrite length_app. unfold len. simpl. lia.
Qed.

Lemma replay_decrypt_encrypt tx rx p r tx' :
  replay_synced tx rx -> replay_encrypt tx p = (Ok r, tx') ->
  exists rx', replay_decrypt rx r = (Ok p, rx') /\ replay_synced tx' rx'.
Proof.
  intros [Ht Hn]. unfold replay_encrypt. destruct (Z.leb_spec (len p) 60000) as [Hl |]; [| done].
  set (r0 := [23; 3; 3] ++ be_encode 2 (len p + 2) ++ rc_next tx :: p ++ [rc_tag tx]).
  intros [=]. subst r tx'. unfold replay_decrypt.
  assert (split_record r0 = Some (r0, [])) as ->.
  { apply split_record_is_record. rewrite app_nil_r. split; [by apply replay_record | done]. }
  change (drop HEADER r0) with (rc_next tx :: p ++ [rc_tag tx]). cbv iota.
  rewrite last_snoc, Ht, Z.eqb_refl. destruct (Z.leb_spec (rc_next rx) (rc_next tx)); [| lia]. cbn [andb].
  exists (mkReplay (rc_tag rx) (rc_next tx + 1)). split; [| split; simpl; [done | lia]].
  f_equal. f_equal. rewrite length_app. simpl. rewrite Nat.add_sub. apply take_app_length.
Qed.

#[export] Instance replay_laws : PacketCodecLaws replay_packets.
Proof.
  refine (Build_PacketCodecLaws replay_packets replay_synced _ _ _ _ _ _); simpl.
  - by split.
  - intros tx p r tx'. unfold replay_encrypt. destruct (Z.leb_spec (len p) 60000); [| done].
    intros [= <- _]. by apply replay_record.
  - intros tx p Hp. unfold replay_encrypt, FRAME_HEADER, MAX_DATA in *.
    destruct (Z.leb_spec (len p) 60000); [eauto | lia].
  - apply replay_decrypt_encrypt.
  - intros tx rx p r tx' [Ht Hn]. unfold replay_encrypt. destruct (len p <=? 60000); [| done].
    intros [= _ <-]. split; simpl; [done | lia].
  - intros tx rx r rx' e Hs. unfold replay_decrypt.
    repeat (case_match; try (by intros [= <- <-])); try done; by intros [= _ <-].
Defined.
