(* ===== verification/MuxTests.v ===== *)
(** * MuxTests: the unit tests of src/mux.rs, run on the model

    Each test of the source's test module as a boolean over the definitions of
    [Mux], with the same inputs and the same expectations, evaluated by the
    kernel. Vector capacities are not modelled. *)

From Stdlib Require Import Ascii String.
From S2P Require Import Prelude RustStr Mux.

(** [assert_eq!]. *)
Definition assert_eq {A} `{EqDecision A} (a b : A) : bool := bool_decide (a = b).

Definition roundtrip_all_frame_types : bool :=
  let frames := [Open 1; Data 1 (lit "hello shadowsocks"); Data 3735928559 []; Close 1;
                 Ping (replicate 8 7); Pong (replicate 8 9)] in
  forallb (fun frame => assert_eq (decode (encode frame)) (Ok frame)) frames.

Definition roundtrip_max_size_data : bool :=
  let frame := Data 42 (replicate (Z.to_nat MAX_DATA) 171) in
  let encoded := encode frame in
  assert_eq (len encoded) (FRAME_HEADER + MAX_DATA) && assert_eq (decode encoded) (Ok frame).

(** The capacity of [encode_into]'s vector: [clear] keeps it, [reserve] grows it
    to at least what is asked for when that is more, the pushes then fit. *)
Definition encode_into_capacity (f : Frame) (capacity : Z) : Z :=
  Z.max capacity (FRAME_HEADER + len (frame_payload f)).

Definition encode_into_reuses_capacity : bool :=
  let '(buf, capacity) := ([], 0) in
  let '(buf, capacity) := (encode_into (Data 1 (replicate 1024 1)) buf, encode_into_capacity (Data 1 (replicate 1024 1)) capacity) in
  let cap := capacity in
  let '(buf, capacity) := (encode_into (Close 2) buf, encode_into_capacity (Close 2) capacity) in
  assert_eq buf (encode (Close 2)) && (len buf <=? capacity) && assert_eq capacity cap.

Definition rejects_too_short : bool :=
  assert_eq (decode [TYPE_OPEN; 0; 0; 0; 1; 0]) (Err (TooShort 6)) && assert_eq (decode []) (Err (TooShort 0)).

Definition rejects_unknown_type : bool :=
  let buf := <[0%nat := 255]> (encode (Open 1)) in
  assert_eq (decode buf) (Err (UnknownType 255)).

Definition rejects_truncated_payload : bool :=
  let buf := encode (Data 1 (lit "abc")) in
  let buf := take (List.length buf - 1) buf in
  assert_eq (decode buf) (Err (Truncated 3 2)).

Definition rejects_oversized_declared_payload : bool :=
  let buf := [TYPE_DATA; 0; 0; 0; 1] in
  let buf := buf ++ be_encode 2 (wrap 16 (MAX_DATA + 1)) in
  let buf := buf ++ replicate (Z.to_nat (MAX_DATA + 1)) 0 in
  assert_eq (decode buf) (Err (PayloadTooLarge (MAX_DATA + 1) MAX_DATA)).

Definition rejects_open_with_payload : bool :=
  let buf := [TYPE_OPEN; 0; 0; 0; 1; 0; 2; 170; 187] in
  let buf := <[0%nat := TYPE_OPEN]> buf in
  assert_eq (decode buf) (Err (EmptyPayloadRequired TYPE_OPEN)).

Definition rejects_close_with_payload : bool :=
  let buf := [TYPE_CLOSE; 0; 0; 0; 1; 0; 1; 170] in
  assert_eq (decode buf) (Err (EmptyPayloadRequired TYPE_CLOSE)).

Definition rejects_ping_with_wrong_payload_len : bool :=
  let buf := [TYPE_PING; 0; 0; 0; 0; 0; 4; 1; 2; 3; 4] in
  assert_eq (decode buf) (Err (BadKeepalive 4)).

Definition header_layout_is_stable : bool :=
  let buf := encode (Data 16909060 (lit "xy")) in
  assert_eq buf ([TYPE_DATA; 1; 2; 3; 4; 0; 2] ++ lit "xy").

Example mux_tests_pass :
  roundtrip_all_frame_types && roundtrip_max_size_data && encode_into_reuses_capacity
  && rejects_too_short && rejects_unknown_type && rejects_truncated_payload
  && rejects_oversized_declared_payload && rejects_open_with_payload && rejects_close_with_payload
  && rejects_ping_with_wrong_payload_len && header_layout_is_stable = true.
Proof. vm_compute. reflexivity. Qed.
