(* ===== verification/OptsTests.v ===== *)
(** * OptsTests: the unit tests of src/opts.rs, run on the model

    The tests of the source's test module over the definitions of [Opts], with
    the same inputs. The texts of configuration files are read by the JSON reader
    of [ConfigText]; they are written with apostrophes for quotation marks. An
    expected error message is the error that carries it (the JSON decoder's own
    messages are all [InvalidConfig]), an expected address text the address. *)

From Stdlib Require Import Ascii String.
From S2P Require Import Prelude RustStr NetAddr Opts ConfigText MuxTests.

(** ** Helpers *)

Definition is_err {E A} (r : result E A) : bool := negb (is_ok r).

(** [r.unwrap()] followed by a check. *)
Definition unwrap_and {E A} (r : result E A) (check : A -> bool) : bool :=
  match r with
  | Ok a => check a
  | Err _ => false
  end.

Definition unwrap_err_and {E A} (r : result E A) (check : E -> bool) : bool :=
  match r with
  | Ok _ => false
  | Err e => check e
  end.

Definition parse (raw : string) : result OptError PluginOpts := parse_plugin_opts toy_pubkey_hex (lit raw).

Definition no_lookup (host : list Z) (port : Z) : result resolve_error (list SocketAddr) := Err LookupFailed.

Definition parse_text (text : list Z) : result OptError StandaloneConfig := parse_config no_lookup toy_pubkey_hex text.

Definition parse_json (text : string) : result OptError StandaloneConfig := parse_text (quoted text).

Definition is_invalid_config (err : OptError) : bool :=
  match err with InvalidConfig => true | _ => false end.

Definition test_key_hex : string := "00112233445566778899aabbccddeeff00112233445566778899aabbccddeeff".
Definition test_key : list Z :=
  [0; 17; 34; 51; 68; 85; 102; 119; 136; 153; 170; 187; 204; 221; 238; 255;
   0; 17; 34; 51; 68; 85; 102; 119; 136; 153; 170; 187; 204; 221; 238; 255].

(** A string that is not ASCII. *)
Definition not_ascii : list Z := [1085; 1077] ++ lit "-ascii".

(** ** Option strings *)

Definition parses_full_option_string : bool :=
  unwrap_and (parse ("server=1;password=p@ss\=word;sni=cdn.example.com;serverkey=" ++ test_key_hex
      ++ ";ping=15;timeout=5")) (fun opts =>
    assert_eq (role opts) Server && assert_eq (password opts) (lit "p@ss=word")
    && assert_eq (sni opts) (lit "cdn.example.com") && assert_eq (server_public_key opts) (Some test_key)
    && assert_eq (ping_secs opts) 15 && assert_eq (dial_timeout_secs opts) 5).

Definition defaults_are_client_side : bool :=
  unwrap_and (parse "password=x") (fun opts =>
    assert_eq (role opts) Client && assert_eq (sni opts) (lit "www.cloudflare.com") && assert_eq (ping_secs opts) 2).

Definition password_is_required : bool :=
  is_err (parse (String.EmptyString)) && is_err (parse "sni=example.com").

Definition escaped_semicolon_splits_entries : bool :=
  unwrap_and (parse "password=a\;b;c=ignored-wrong-key") (fun opts => assert_eq (password opts) (lit "a;b")).

Definition value_may_contain_equals : bool :=
  unwrap_and (parse "password=base64==") (fun opts => assert_eq (password opts) (lit "base64==")).

Definition user_option_is_no_longer_a_config_key : bool := is_err (parse "user=alice").

Definition bad_hex_key_is_rejected : bool :=
  is_err (parse "password=x;serverkey=not-hex") && is_err (parse "password=x;key=1234").

Definition bad_sni_is_rejected : bool :=
  let long := replicate 254 97 in
  is_err (parse_plugin_opts toy_pubkey_hex (lit "password=x;sni=" ++ not_ascii))
  && is_err (parse_plugin_opts toy_pubkey_hex (lit "password=x;sni=" ++ long))
  && is_ok (parse "password=x;sni=") && is_ok (parse "password=x;sni=!").

Definition boolean_forms : bool :=
  unwrap_and (parse "s=1;password=x") (fun o => assert_eq (role o) Server)
  && unwrap_and (parse "s=0;password=x") (fun o => assert_eq (role o) Client)
  && unwrap_and (parse "server=true;password=x") (fun o => assert_eq (role o) Server)
  && is_err (parse "server=maybe;password=x").

Definition unknown_options_are_ignored : bool := is_ok (parse "password=x;future-thing=1").

Definition bad_timeout_rejected : bool :=
  is_err (parse "password=x;timeout=0") && is_err (parse "password=x;timeout=abc").

Definition to_hex_lowercase : bool :=
  assert_eq (to_hex [0; 15; 255]) (Some (lit "000fff")) && assert_eq (to_hex []) (Some []).

(** ** Configuration files and addresses *)

Definition parses_full_standalone_client_config : bool :=
  unwrap_and (parse_json ("{
                '_comment': ['standalone client', 'all plugin options'],
                'role': 'client',
                'listen': '127.0.0.1:1080',
                'remote': '203.0.113.10:8443',
                'password': 'p@ss=word',
                'sni': 'cdn.example.com',
                'serverkey': '" ++ test_key_hex ++ "',
                'ping': 5,
                'timeout': 7
            }")) (fun cfg =>
    assert_eq (cfg_role cfg) Client && assert_eq (cfg_listen cfg) (V4 127 0 0 1 1080)
    && assert_eq (cfg_remote cfg) (V4 203 0 113 10 8443) && assert_eq (password (cfg_opts cfg)) (lit "p@ss=word")
    && assert_eq (sni (cfg_opts cfg)) (lit "cdn.example.com")
    && match server_public_key (cfg_opts cfg) with Some _ => true | None => false end
    && assert_eq (ping_secs (cfg_opts cfg)) 5 && assert_eq (dial_timeout_secs (cfg_opts cfg)) 7
    && (let sip := standalone_sip003 cfg in
        assert_eq (local sip) (cfg_listen cfg) && assert_eq (remote sip) (cfg_remote cfg))).

Definition standalone_ipv4_and_ipv6_addresses : bool :=
  unwrap_and (parse_json "{
                'role': 'server',
                'listen': '[::]:8443',
                'remote': '[::1]:8080',
                'password': 'x'
            }") (fun cfg =>
    is_ipv6 (cfg_listen cfg) && assert_eq (cfg_listen cfg) (V6 [0; 0; 0; 0; 0; 0; 0; 0] 8443 0)
    && is_ipv6 (cfg_remote cfg) && assert_eq (cfg_remote cfg) (V6 [0; 0; 0; 0; 0; 0; 0; 1] 8080 0))
  && unwrap_and (parse_json "{
                'role': 'client',
                'listen': '[::1]:1080',
                'remote': '[2001:db8::10]:8443',
                'password': 'x'
            }") (fun cfg => is_ipv6 (cfg_listen cfg) && is_ipv6 (cfg_remote cfg))
  && unwrap_err_and (parse_json "{'listen': '2001:db8::1:8443', 'remote': '127.0.0.1:2', 'password': 'x'}") (fun err =>
    match err with BareIpv6 _ _ => true | _ => false end).

Definition env_resolver_handles_ipv6_hosts : bool :=
  let resolve (host : string) := resolve no_lookup (lit host) 8443 (lit "test") in
  is_ok (resolve "[::1]"%string) && is_ok (resolve "::1"%string) && unwrap_and (resolve "::1"%string) is_ipv6
  && is_ok (resolve "127.0.0.1"%string) && unwrap_and (resolve "127.0.0.1"%string) (fun a => negb (is_ipv6 a)).

Definition parses_full_standalone_server_config : bool :=
  unwrap_and (parse_json ("{
                'role': 'server',
                'listen': '0.0.0.0:8443',
                'forward': '127.0.0.1:8080',
                'key': '" ++ test_key_hex ++ "',
                'password': 'change-me'
            }")) (fun cfg =>
    assert_eq (cfg_role cfg) Server && assert_eq (cfg_listen cfg) (V4 0 0 0 0 8443)
    && assert_eq (cfg_remote cfg) (V4 127 0 0 1 8080)
    && match server_private_key (cfg_opts cfg) with Some _ => true | None => false end
    && (let sip := standalone_sip003 cfg in
        assert_eq (remote sip) (cfg_listen cfg) && assert_eq (local sip) (cfg_remote cfg))).

Definition standalone_role_defaults_and_forms : bool :=
  let base := "'listen': '127.0.0.1:1', 'remote': '127.0.0.1:2', 'password': 'x'"%string in
  unwrap_and (parse_json ("{" ++ base ++ "}")) (fun cfg => assert_eq (cfg_role cfg) Client)
  && unwrap_and (parse_json ("{'role': 'server', " ++ base ++ "}")) (fun cfg => assert_eq (cfg_role cfg) Server)
  && unwrap_and (parse_json ("{'role': 'Client', " ++ base ++ "}")) (fun cfg => assert_eq (cfg_role cfg) Client)
  && unwrap_err_and (parse_json ("{'role': 'proxy', " ++ base ++ "}")) (fun err =>
       match err with BadRole _ => true | _ => false end).

Definition standalone_requires_listen_and_remote : bool :=
  unwrap_err_and (parse_json "{'role': 'client', 'remote': '127.0.0.1:2', 'password': 'x'}") is_invalid_config
  && unwrap_err_and (parse_json "{'role': 'client', 'listen': '127.0.0.1:1', 'password': 'x'}") is_invalid_config.

Definition standalone_requires_password : bool :=
  unwrap_err_and (parse_json "{'listen': '127.0.0.1:1', 'remote': '127.0.0.1:2'}") (fun err =>
    match err with PasswordRequired => true | _ => false end).

Definition standalone_rejects_bad_json_and_addresses : bool :=
  unwrap_err_and (parse_json "garbage") is_invalid_config
  && unwrap_err_and (parse_json "{'listen': 'not-an-addr', 'remote': '127.0.0.1:2', 'password': 'x'}") (fun err =>
    match err with NotHostPort what _ => assert_eq what (lit "listen") | _ => false end)
  && unwrap_err_and (parse_json "{'listen': '127.0.0.1:99999', 'remote': '127.0.0.1:2', 'password': 'x'}") (fun err =>
    match err with BadPort _ _ => true | _ => false end).

Definition standalone_rejects_unknown_keys_and_bad_values : bool :=
  let base := "{'listen': '127.0.0.1:1', 'remote': '127.0.0.1:2', 'password': 'x', "%string in
  unwrap_err_and (parse_json (base ++ "'pasword': 'y'}")) is_invalid_config
  && unwrap_err_and (parse_json (base ++ "'user': 'alice'}")) is_invalid_config
  && unwrap_err_and (parse_json (base ++ "'serverkey': 'nothex'}")) (fun err =>
    match err with ServerkeyNotHex => true | _ => false end)
  && unwrap_err_and (parse_text (quoted (base ++ "'sni': '") ++ not_ascii ++ quoted "'}")) (fun err =>
    match err with BadSni => true | _ => false end)
  && unwrap_err_and (parse_json (base ++ "'timeout': 0}")) (fun err =>
    match err with TimeoutZero => true | _ => false end).

Definition standalone_accepts_comment_field : bool :=
  unwrap_and (parse_json "{'_comment': 'a note', 'listen': '127.0.0.1:1', 'remote': '127.0.0.1:2', 'password': 'x'}")
    (fun cfg => assert_eq (cfg_role cfg) Client).

Example option_tests_pass :
  parses_full_option_string && defaults_are_client_side && password_is_required
  && escaped_semicolon_splits_entries && value_may_contain_equals && user_option_is_no_longer_a_config_key
  && bad_hex_key_is_rejected && bad_sni_is_rejected && boolean_forms && unknown_options_are_ignored
  && bad_timeout_rejected && to_hex_lowercase = true.
Proof. vm_compute. reflexivity. Qed.

Example standalone_tests_pass :
  parses_full_standalone_client_config && standalone_ipv4_and_ipv6_addresses
  && env_resolver_handles_ipv6_hosts && parses_full_standalone_server_config
  && standalone_role_defaults_and_forms && standalone_requires_listen_and_remote && standalone_requires_password
  && standalone_rejects_bad_json_and_addresses && standalone_rejects_unknown_keys_and_bad_values
  && standalone_accepts_comment_field = true.
Proof. vm_compute. reflexivity. Qed.
