(* ===== verification/HandshakeTests.v ===== *)
(** * HandshakeTests: the unit tests of src/handshake.rs, run on the model

    The tests of the source's test module over the definitions of [Handshake],
    with the toy core and the replay-checking codec. The duplex pipe between the
    two sides is a fixed point of rounds: in each round a side is run on all the
    bytes the other has written so far. A side that waits forever has run into
    the test's deadline. *)

From Stdlib Require Import Ascii String.
From S2P Require Import Prelude RustStr NetAddr Opts Records Mux External ReplayCodec Handshake Deadlines MuxTests.

#[local] Existing Instance replay_packets.

Definition PASSWORD : list Z := lit "s3cret-p4ss".
Definition SNI : list Z := lit "www.example.com".
Definition DEVICE : list Z := replicate 16 66.

(** What a socket delivers: all the bytes in one read, or nothing yet. *)
Definition as_reads (bytes : list Z) : list (read_event unit) :=
  match bytes with [] => [] | _ => [ReadData bytes] end.

(** The client's side and the server's, as functions of what they read. *)
Definition client_side (password : list Z) (device : list Z) (pinned : option (list Z))
  (reads : list (read_event unit)) :=
  @client_handshake replay_packets toy_core 1 SNI password device pinned reads (replicate 10 true).

Definition server_side (static_kp : Z) (reads : list (read_event unit)) :=
  @server_handshake replay_packets toy_core None 2 static_kp PASSWORD reads (replicate 10 true).

(** One round: from what the server has written, what it writes next. *)
Definition round (password device : list Z) (pinned : option (list Z)) (static_kp : Z) (s2c : list Z) : list Z :=
  let c2s := concat (client_side password device pinned (as_reads s2c)).1.2 in
  concat (server_side static_kp (as_reads c2s)).1.2.

(** The outcome of both sides when nothing more can be exchanged and the side
    that ended has dropped its end of the pipe. *)
Definition connect (password device : list Z) (pinned : option (list Z)) (static_kp : Z)
  : outcome (result HsError (@ClientHandshake replay_packets)) *
    outcome (result HsError (@ServerHandshake replay_packets)) :=
  let s2c := Nat.iter 6 (round password device pinned static_kp) [] in
  let c2s := concat (client_side password device pinned (as_reads s2c)).1.2 in
  ((client_side password device pinned (as_reads s2c ++ [ReadData []])).1.1,
   (server_side static_kp (as_reads c2s ++ [ReadData []])).1.1).

Definition handshake_pair := connect PASSWORD DEVICE None 5.

Definition done_ok {A} (o : outcome (result HsError A)) : bool :=
  match o with Done (Ok _) => true | _ => false end.

Definition done_err {A} (o : outcome (result HsError A)) (check : HsError -> bool) : bool :=
  match o with Done (Err e) => check e | _ => false end.

(** A record written by one side, read and decrypted by the other. *)
Definition flows (tx rx : replay_codec) (plain : list Z) : bool :=
  match encrypt_packet tx plain [] with
  | (Ok record, _) =>
      match read_record [] (as_reads record) with
      | Some (Ok record, _, _) => assert_eq (decrypt_packet rx record).1 (Ok plain)
      | _ => false
      end
  | _ => false
  end.

Definition handshake_roundtrip_then_records_flow_both_ways : bool :=
  match handshake_pair with
  | (Done (Ok client), Done (Ok server)) =>
      flows (ch_tx client) (sh_rx server) (lit "ping from client")
      && flows (sh_tx server) (ch_rx client) (lit "pong from server")
  | _ => false
  end.

Definition wrong_password_is_rejected : bool :=
  let '(client, server) := connect (lit "wrong-password") DEVICE None 5 in
  done_err client (fun _ => true) && done_err server (fun _ => true).

Definition pinned_key_mismatch_is_rejected : bool :=
  let '(client, server) := connect PASSWORD DEVICE (Some (replicate 32 6)) 5 in
  done_err client (fun e => match e with IdentityMismatch => true | _ => false end)
  && done_err server (fun _ => true).

Definition tofu_returns_the_servers_static_key : bool :=
  match handshake_pair.1 with
  | Done (Ok client) =>
      assert_eq (len (server_static client)) 32 && existsb (fun b => negb (b =? 0)) (server_static client)
  | _ => false
  end.

(** The silent peer: no read completes; the answer is the timeout, in time (in
    milliseconds). *)
Definition timed_out_in_time {A} (r : outcome (result HsError A) * Z) : bool :=
  done_err r.1 (fun e => match e with TimedOut => true | _ => false end) && (r.2 <? 3000).

Definition stalled_peer_times_out_on_the_client_side : bool :=
  timed_out_in_time (@timed_client_handshake replay_packets toy_core 1 SNI PASSWORD DEVICE None 1000 0 []
    (replicate 10 (0, true))).

Definition stalled_peer_times_out_on_the_server_side : bool :=
  timed_out_in_time (@timed_server_handshake replay_packets toy_core None 2 5 PASSWORD 1000 0 [] (replicate 10 (0, true))).

Definition parse_client_auth_layout : bool :=
  let msg := replicate 32 0 in
  let msg := msg ++ [DEVICE_MARKER] in
  let msg := msg ++ replicate 16 0 in
  let msg := msg ++ lit "s3cret" in
  match parse_client_auth msg with
  | Some (Ok s) => assert_eq s (lit "s3cret")
  | _ => false
  end.

Definition parse_client_auth_rejects_short_messages : bool :=
  let rejected msg := match parse_client_auth msg with Some (Err _) => true | _ => false end in
  rejected (replicate 32 0) && rejected [].

Definition many_clients_same_password_each_own_tunnel : bool :=
  forallb (fun device => done_ok (connect PASSWORD device None 5).1)
    [replicate 16 1; replicate 16 2; replicate 16 3].

Example handshake_tests_pass :
  handshake_roundtrip_then_records_flow_both_ways && wrong_password_is_rejected
  && pinned_key_mismatch_is_rejected && tofu_returns_the_servers_static_key
  && stalled_peer_times_out_on_the_client_side && stalled_peer_times_out_on_the_server_side
  && parse_client_auth_layout && parse_client_auth_rejects_short_messages
  && many_clients_same_password_each_own_tunnel = true.
Proof. vm_compute. reflexivity. Qed.
