(* ===== verification/CarrierTests.v ===== *)
(** * CarrierTests: the unit tests of src/carrier.rs, run on the model

    The tests of the source's test module over the definitions of [Carrier] and
    [Records], with the replay-checking codec and the toy runtime. The two ends
    of a duplex tunnel take turns: [cross] lets one end's writer write what was
    queued there and the other end's reader read it in one read. A poll until a
    condition holds is the condition after those turns, or by the clock of
    [Keepalive] where the test is about the keepalive. *)

From Stdlib Require Import Ascii String.
From S2P Require Import Prelude RustStr Mux Records External ReplayCodec Carrier Keepalive MuxTests.

#[local] Existing Instance replay_packets.

(** ** Helpers *)

(** Two matched codec pairs: A rx, A tx, B rx, B tx. *)
Definition codec_pair : replay_codec * replay_codec * replay_codec * replay_codec :=
  let a_to_b := replicate 32 17 in
  let b_to_a := replicate 32 34 in
  (codec_new b_to_a, codec_new a_to_b, codec_new a_to_b, codec_new b_to_a).

(** One end: the tunnel, its writer's codec and how many of the queued frames
    it has written, its reader. *)
Record end_ : Type := mkEnd {
  en_tunnel : @Tunnel toy_tokio;
  en_tx : replay_codec;
  en_written : nat;
  en_reader : @reader replay_packets;
}.

Definition new_end (ping_secs : Z) (rx tx : replay_codec) : end_ :=
  mkEnd (@spawn_tunnel toy_tokio ping_secs [] toy_world0).1 tx 0 (reader_new rx).

Definition tunnel_pair (ping_secs : Z) : end_ * end_ :=
  let '(a_rx, a_tx, b_rx, b_tx) := codec_pair in (new_end ping_secs a_rx a_tx, new_end ping_secs b_rx b_tx).

(** An operation of the handle at one end. *)
Definition on (f : @Tunnel toy_tokio -> @Tunnel toy_tokio) (e : end_) : end_ :=
  mkEnd (f (en_tunnel e)) (en_tx e) (en_written e) (en_reader e).

(** Bytes arriving at an end; a reader that broke out has killed its tunnel. *)
Definition arrive (evs : list reader_event) (e : end_) : end_ :=
  let '(r, fl, t) := reader_run evs (en_reader e) (en_tunnel e) in
  mkEnd (loop_end ReaderLoop (flow_cause fl) t) (en_tx e) (en_written e) r.

Definition arrive_bytes (bytes : list Z) (e : end_) : end_ :=
  match bytes with
  | [] => e
  | _ => arrive [EvRead (ReadData bytes)] e
  end.

Definition cross (p : end_ * end_) : end_ * end_ :=
  let '(a, b) := p in
  let frames := drop (en_written a) (tw_frames (env (en_tunnel a))) in
  let '(tx, records, _, t) := writer_run (WvFrame <$> frames) [] (en_tx a) (en_tunnel a) in
  (mkEnd t tx (en_written a + length frames) (en_reader a), arrive_bytes (concat records) b).

(** There and back. *)
Definition cross_both (p : end_ * end_) : end_ * end_ :=
  let '(a, b) := cross p in
  let '(b, a) := cross (b, a) in (a, b).

(** The chunks the toy runtime's channel of a stream has taken. *)
Definition chunks_of (id : Z) (e : end_) : list (list Z) :=
  match registry (en_tunnel e) !! id with
  | Some tx => toy_history tx (env (en_tunnel e))
  | None => []
  end.

(** One encrypted record of the raw side. *)
Definition encrypt_frame (c : replay_codec) (f : Frame) : list Z * replay_codec :=
  match encrypt_packet c (encode f) [] with
  | (Ok record, c) => (record, c)
  | (Err _, c) => ([], c)
  end.

(** [bad[last] ^= 0xFF]. *)
Definition corrupt (record : list Z) : list Z :=
  let last := (length record - 1)%nat in
  <[last := Z.lxor (nth last record 0) 255]> record.

(** [(0..n).map(f).collect()], from the last element. *)
Definition map_range (f : Z -> Z) (n : Z) : list Z :=
  (Z.iter n (fun '(i, l) => (i - 1, f (i - 1) :: l)) (n, [])).2.

Example map_range_4 : map_range (fun i => i * i) 4 = [0; 1; 4; 9].
Proof. reflexivity. Qed.

(** ** Streams over the tunnel *)

Definition open_data_close_roundtrip_through_tunnel : bool :=
  let '(a, b) := tunnel_pair 0 in
  let id := (alloc_id (en_tunnel a)).1 in
  let a := on (fun t => (open id (alloc_id t).2).2) a in
  let '(a, b) := cross (a, b) in
  let opened := assert_eq (registry_len (en_tunnel b)) 1%nat in
  let a := on (fun t => (send id (lit "hello over mux") t).2) a in
  let '(a, b) := cross (a, b) in
  let first := assert_eq (chunks_of id b) [lit "hello over mux"] in
  let big := map_range (fun i => i mod 251) (MAX_DATA * 3 + 7) in
  let a := on (fun t => (send id big t).2) a in
  let '(a, b) := cross (a, b) in
  let complete := assert_eq (concat (drop 1 (chunks_of id b))) big in
  let '(a, b) := cross (on (close id) a, b) in
  opened && first && complete && assert_eq (registry_len (en_tunnel b)) 0%nat.

Definition ping_pong_crosses_the_tunnel : bool :=
  let '(a, b) := tunnel_pair 0 in
  let '(a, b) := cross_both (on (fun t => (ping t).2) a, b) in
  1 <=? pongs (en_tunnel a).

(** The far side killed: its socket halves drop, A reads the end of the stream;
    A's writer ends and with it the frame channel. *)
Definition wire_death_closes_streams_and_marks_dead : bool :=
  let '(a, b) := tunnel_pair 0 in
  let id := (alloc_id (en_tunnel a)).1 in
  let a := on (fun t => (open id (alloc_id t).2).2) a in
  let '(a, b) := cross (a, b) in
  let b := on kill b in
  let a := arrive [EvRead (ReadData [])] a in
  let writer_gone t := set_env (mkToyWorld (tw_next (env t)) (tw_sent (env t)) (tw_frames (env t))
    (tw_tasks (env t)) (tw_closed (env t)) (tw_stalled (env t)) true (tw_wire (env t))) t in
  let a := on writer_gone a in
  is_dead (en_tunnel b) && is_dead (en_tunnel a) && assert_eq (registry_len (en_tunnel a)) 0%nat
  && negb (is_ok (send id (lit "after death") (en_tunnel a)).1).

Definition registry_deliver_unknown_stream_returns_false : bool :=
  let t := en_tunnel (tunnel_pair 0).1 in
  let orphan := negb (deliver 99 (lit "orphan") t).1 in
  let '((tx, rx), w) := mpsc_channel (Tokio := toy_tokio) 4 (env t) in
  let '(previous, t) := register 1 tx (set_env w t) in
  let '(delivered, t) := deliver 1 (lit "x") t in
  let received := toy_history tx (env t) in
  let '(removed, t) := remove 1 t in
  orphan && assert_eq previous None && delivered && assert_eq received [lit "x"]
  && assert_eq removed (Some tx) && negb (deliver 1 (lit "gone") t).1.

(** ** Records *)

(** [rb.take_record()]: the record, if there is one, and the buffer. *)
Definition take_ok (rb : RecordBuf) : option (list Z) * RecordBuf :=
  match take_record rb with
  | Some r => r
  | None => (None, rb)
  end.

Definition record_buf_takes_records_in_order_and_keeps_leftovers : bool :=
  let rb := RecordBuf_new in
  let rb := push rb [23; 3; 3; 0; 3; 1; 2; 3; 23; 3; 3; 0] in
  let '(r1, rb) := take_ok rb in
  let '(r2, rb) := take_ok rb in
  let rb := push rb [2] in
  let '(r3, rb) := take_ok rb in
  let rb := push rb [9; 9] in
  let '(r4, rb) := take_ok rb in
  let '(r5, rb) := take_ok rb in
  let rb := push rb [23; 0; 0; 0; 0] in
  let '(r6, rb) := take_ok rb in
  assert_eq r1 (Some [23; 3; 3; 0; 3; 1; 2; 3]) && assert_eq r2 None && assert_eq r3 None
  && assert_eq r4 (Some [23; 3; 3; 0; 2; 9; 9]) && assert_eq r5 None && assert_eq r6 (Some [23; 0; 0; 0; 0]).

(** ** A raw far side that mangles records *)

(** The server-like end and the raw side's codec. *)
Definition server_tunnel_vs_raw (ping_secs : Z) : end_ * replay_codec :=
  let '(_, a_tx, b_rx, b_tx) := codec_pair in (new_end ping_secs b_rx b_tx, a_tx).

Definition write_frame (f : Frame) (p : end_ * replay_codec) : end_ * replay_codec :=
  let '(b, a_tx) := p in
  let '(record, a_tx) := encrypt_frame a_tx f in (arrive_bytes record b, a_tx).

Definition corrupted_record_is_tolerated_and_traffic_continues : bool :=
  let '(b, a_tx) := write_frame (Open 1) (server_tunnel_vs_raw 0) in
  let '(bad, a_tx) := encrypt_frame a_tx (Data 1 (lit "lost-in-transit")) in
  let b := arrive_bytes (corrupt bad) b in
  let '(b, a_tx) := write_frame (Data 1 (lit "survives")) (b, a_tx) in
  assert_eq (chunks_of 1 b) [lit "survives"] && negb (is_dead (en_tunnel b)).

Definition replayed_record_is_dropped_but_tunnel_survives : bool :=
  let '(b, a_tx) := write_frame (Open 1) (server_tunnel_vs_raw 0) in
  let '(once, a_tx) := encrypt_frame a_tx (Data 1 (lit "once")) in
  let b := arrive_bytes once b in
  let b := arrive_bytes once b in
  let '(b, a_tx) := write_frame (Data 1 (lit "twice")) (b, a_tx) in
  assert_eq (chunks_of 1 b) [lit "once"; lit "twice"] && negb (is_dead (en_tunnel b)).

Definition persistent_corruption_kills_the_tunnel : bool :=
  let one (p : end_ * replay_codec) :=
    let '(b, a_tx) := p in
    let '(bad, a_tx) := encrypt_frame a_tx (Data 1 (replicate 16 65)) in
    (arrive_bytes (corrupt bad) b, a_tx) in
  let p := write_frame (Open 1) (server_tunnel_vs_raw 0) in
  is_dead (en_tunnel (Nat.iter (Z.to_nat (MAX_CONSECUTIVE_BAD_RECORDS + 2)) one p).1).

(** The consumer's channel is full after [INBOUND_CAPACITY] chunks and stays so. *)
Definition stalled_stream_consumer_is_dropped_without_freezing_the_tunnel : bool :=
  let '(a, b) := tunnel_pair 0 in
  let id := (alloc_id (en_tunnel a)).1 in
  let a := on (fun t => (open id (alloc_id t).2).2) a in
  let '(a, b) := cross (a, b) in
  let stall (e : end_ * end_) := (on (fun t => (send id (lit "stall") t).2) e.1, e.2) in
  let '(a, b) := cross (Nat.iter (Z.to_nat INBOUND_CAPACITY) stall (a, b)) in
  let full t := set_env (mkToyWorld (tw_next (env t)) (tw_sent (env t)) (tw_frames (env t)) (tw_tasks (env t))
    (tw_closed (env t)) (match registry t !! id with Some tx => [tx] | None => [] end) false (tw_wire (env t))) t in
  let '(a, b) := cross (Nat.iter 8 stall (a, on full b)) in
  let dropped := assert_eq (registry_len (en_tunnel b)) 0%nat && negb (is_dead (en_tunnel b)) in
  let '(a, b) := cross_both (on (fun t => (ping t).2) a, b) in
  dropped && (1 <=? pongs (en_tunnel a)).

(** ** Keepalive *)

(** B killed: its socket halves drop, and A's reader notices the end of the
    stream before A's keepalive has made a probe. *)
Definition keepalive_kills_silent_tunnel : bool :=
  let '(a, b) := tunnel_pair 1 in
  let b := on kill b in
  let a := arrive [EvRead (ReadData [])] a in
  is_dead (en_tunnel b) && is_dead (en_tunnel a) && assert_eq (death_cause (en_tunnel a)) (Some PeerClosed).

(** The far end drains the wire and never answers, so no PONG is counted at any
    time: when the loop kills the tunnel, in milliseconds. *)
Definition keepalive_kills_a_silent_peer_within_the_bound : bool :=
  let a := (@spawn_tunnel toy_tokio 1 [] toy_world0).1 in
  let tick := ticks_from_zero 1 at_once in
  let '(out, a) := keepalive_loop (probes (fun _ => 0) at_once tick 0 5) a in
  match out with
  | Some (S k) => is_dead a && (tick k + secs KEEPALIVE_GRACE <? secs 5)
  | _ => false
  end.

Example carrier_tests_pass :
  open_data_close_roundtrip_through_tunnel && ping_pong_crosses_the_tunnel
  && wire_death_closes_streams_and_marks_dead && registry_deliver_unknown_stream_returns_false
  && record_buf_takes_records_in_order_and_keeps_leftovers
  && corrupted_record_is_tolerated_and_traffic_continues && replayed_record_is_dropped_but_tunnel_survives
  && persistent_corruption_kills_the_tunnel
  && stalled_stream_consumer_is_dropped_without_freezing_the_tunnel
  && keepalive_kills_silent_tunnel && keepalive_kills_a_silent_peer_within_the_bound = true.
Proof. vm_compute. reflexivity. Qed.
